(* ===== verification/_CoqProject ===== *)
-Q . S2P
Prelude.v
Programs.v
Text.v
Model.v
JsonLib.v
JsonTree.v
User.v
Calendar.v
Timestamp.v
LibPQ.v
PgServer.v
PqConnection.v
Channel.v
ConnectionPool.v
PoolLifetime.v
OldPools.v
UsersTable.v
UserDao.v
Queries.v
RedisLib.v
RedisClient.v
Interfaces.v
CodeRepository.v
RedisCalls.v
UserRepository.v
Utils.v
JwtUtil.v
AuthService.v
BasicUserService.v
Coroutines.v
Codes.v
CallData.v
Handlers.v
CallDataV1.v
RpcServer.v
DaoStore.v
TableStore.v
Stack.v
Concurrent.v
Responsive.v
Registry.v
AppConfig.v
Service.v
ServedCodes.v
Lifecycle.v
Application.v
