(* ===== verification/Prelude.v ===== *)
(** * Photon-Commerce user service: verification library

    The program (src/UserService, C++23) is a gRPC service for accounts:
    verification codes, registration, two kinds of login, profiles.  A request
    passes through these layers, and the library has a file for each of them.

    - server/, adapter/v2: UserServiceServer seeds five pools of CallData; worker
      threads take tags from one completion queue and drive the CallData, whose
      logic runs as coroutines on an io_context served by AsioThreadPool.
    - service/: AuthService and BasicUserService, written against the abstract
      classes of domain/interface and utils/interface.
    - infrastructure/: UserRepository (a Redis cache before UserDao),
      VerificationCodeRepository (codes in Redis), UserDao (SQL on a pooled libpq
      connection), AsyncConnectionPool, PQConnection, RedisClient.
    - domain/user, utils/: the entity and its JSON form, UUIDs, codes, hashes,
      tokens.
    - config/, service_registry/, server/application, main: start and stop.

    ** How code is modelled

    A function that reads or writes state is a computation [M W A] (below): it
    returns, throws, or is [Pending] (a suspended coroutine, or fuel that ran
    out), and gives the new world.  [std::expected] is [expected], exceptions are
    [exn] values with their class, [try]/[catch] is [tryM], a destructor at the
    end of a scope is [finallyM].  A component's state lives in a larger world
    through a [lens].  Concurrent components (the connection pools, the queries on
    a pool, the RPC adapter) are step relations over explicit states, and the
    methods of the services are coroutines whose calls interleave (Programs), on
    the threads of the RPC server too.
    Machine integers are [Z] with their range or wrap-around written out; strings
    are byte strings.

    Libraries are type classes: operations without definition, and laws that
    state their documented behaviour, each with a concrete instance on which
    the examples and witnesses run.  They are nlohmann::json ([JsonLib], instance
    in JsonTree), libpq and the descriptor ([LibPQ], PgServer), the asio channel
    ([ChannelOps], Channel), Boost.Redis with its server ([RedisLib]), Crypto++,
    jwt-cpp, the clock and the random sources (Utils, JwtUtil), yaml-cpp
    (AppConfig), the Consul client (Registry).  gRPC is the environment of the
    step relation in CallData.

    ** Files

    - Prelude, Text: this vocabulary, [c_str], [std::to_string], [std::stoi].
    - Programs: coroutines as trees of calls, alone ([run]) and side by side in a
      world that others change ([step]); what one did ([exec]), what it promises
      the others ([good], a rely and a guarantee), and how many calls it makes.
    - Model: the plain structs and enums of service/model and the error types.
    - User, Calendar, Timestamp: domain/user.h and user.cc; the civil calendar
      behind strptime, timegm and strftime; ParsePostgresTimestamp.  Theorems:
      the JSON round trip up to the loss of absent fields, and that a printed
      database time reads back.
    - LibPQ, PgServer, PqConnection: pq_connection.cc.  Theorems: every command
      and every connection attempt finishes, whatever the server does; what a
      connection whose last command was interrupted does afterwards.
    - Channel, ConnectionPool, PoolLifetime, OldPools: async_connection_pool.cc, who
      keeps the pool alive, and the two versions under old_version.  Theorems: no connection is lost, duplicated
      or shared; the pool refines a first-come first-served allocator; nobody
      starves; nothing touches a destroyed pool if the asio threads are stopped
      first, as Application does, and otherwise a posted lambda may; version 2 is
      bisimilar to it; version 0.1 loses no wake-up.
    - UsersTable, UserDao, DaoStore: init_users.sql as a table of rows with its
      constraints, user_dao.cc on top of the pool and libpq, and UserDao as a
      store of users.  Theorems: what each query answers, and that a created user
      is found.
    - Queries, TableStore: any number of UserDao's coroutines on one pool, each
      running from one [co_await] to the next.  Theorems: the queries are
      linearizable, every one is answered and all connections come back, a pool
      whose connections were all interrupted never recovers, and a coroutine
      alone is the method of UserDao.  TableStore is the store they implement:
      calls that take effect at once.
    - RedisLib, RedisClient, CodeRepository, UserRepository: redis_client.cc and
      the two repositories.  Theorems: fair rotation, no exception escapes,
      codes are read back only for their usage and number and until they expire,
      the cache is transparent and never needed.
    - RedisCalls: the commands and the repository of codes again, call by call: the
      next connection, its strand, the reply.  Lemmas: alone they are the above; what
      each call does to the store; a GET tells what was live at one of its calls.
    - Interfaces: the abstract classes, for the repositories also as coroutines, and
      what the services assume of their implementations ([UserStoreLaws],
      [ServiceLaws]).
    - Utils, JwtUtil: utils/src.  Theorems: UUIDv7 bits, token soundness and
      lifetime.
    - AuthService, BasicUserService: service/src, proved against the interfaces.
      Theorems: what each call answers on every branch, no enumeration of
      registered numbers, registration followed by login.
    - Coroutines, Codes, Concurrent: the same methods as coroutines over the
      repositories', while other requests, other servers and a forgetful Redis change
      the world between two calls.  Coroutines has the methods, what they rely on and
      promise ([evolves], [CoServiceLaws]), what their answers stand for, and their
      runs side by side; Codes follows the verification codes through a run
      ([CodeStoreLaws]); Concurrent puts all on UserDao's table and has the closed
      examples.  Theorems: every answer was true at one of the request's own calls,
      no two registrations win one number, every accepted code was sent, every
      request ends, and a request alone is the method.
    - CallData, Handlers: adapter/v2 and its five methods, one method at a time.  A
      handler is the list of its effects in program order, a method's logic is a
      coroutine, and the effects and calls of all threads interleave one by one.
      Theorems: exactly one activity per CallData, one reply per request, computed
      from that request alone, every request is answered.
    - CallDataV1: adapter/v1, the earlier RegisterCallData on a heap: an object per
      request that makes its successor and deletes itself.  Theorems: no use of a
      deleted object, one object always listens, every call is greeted once, and
      finished objects are freed.
    - RpcServer: UserServiceServer with its worker threads, the shared completion
      queue, the asio threads and any number of managers.  Theorems: each method
      seen alone is a run of CallData (a refinement, so what is proved there holds
      of the server); tags are always valid addresses, held in one place each; the
      server settles; it cannot shut down cleanly.
    - Responsive: if Redis and the database answer, every call of a coroutine of
      the service returns or throws.
    - Service: RpcServer with the five managers of the program, whose coroutines are
      those of Coroutines.  Theorems: what a reply of each method stands for, end
      to end, however the calls of all requests interleave; every request is
      answered.
    - ServedCodes: Codes of that server: a code that passed a login or a registration
      was generated and stored by an accepted call of SendCode for the same number
      and purpose, or was there before the server started.
    - Stack: the implementations put together as Application's injector does,
      discharging [ServiceLaws], [CoServiceLaws] and [CodeStoreLaws]; end-to-end
      theorems and the closed examples of the services.
    - Registry, AppConfig: consul_registry.cc, app_config.cc.
    - Lifecycle, Application: start and shutdown of asio_thread_pool.cc,
      user_service_server.cc, application.cc and main.cc; then the process from its
      configuration file.  Theorem: the process serves over a complete
      infrastructure or exits with -1.

    ** Fuel and bounds

    PqConnection (and UserDao and Application above it) has fuel: the loops
    that poll the connection, wait for a response and collect results.  The work
    the server has left is a number of the [LibPQ] interface, so in every state of
    the world some fuel is enough (the totality theorems), and once a run has
    finished more fuel changes nothing ([fuel_mono]).  In Queries a round of the
    wait is a step, so only collecting the results has fuel: two, for the one
    result of a statement and the null pointer after it ([Segment_users]).  A
    method of the service makes at most ten calls: eight on its collaborators, those
    of a Redis command included, and two that fill the reply ([methods_finish]).
    Every other recursion is structural.

    ** What is not modelled

    Logging; C++ object lifetimes except where a property is about them; the
    order in which the completion queue delivers events (any order is allowed,
    which covers the real one).  The coroutines are taken apart at the calls of
    their collaborators, in Coroutines and all the way up in Service, and Queries
    takes UserDao's calls apart at the waits for the pool and for the database
    (TableStore says why Coroutines may take such a call for one step).  Only
    the two Inits stay one step each: they run before the server starts.  To
    enter a connection's strand is a call that changes nothing; that what runs in
    one strand does not overlap only removes interleavings.  In RpcServer a thread
    leaves HandleRpc by a step of its own; in Lifecycle, whether [join] and
    [server_->Wait()] return is a circumstance that the theorem names.  An Init
    that throws does not record the connections it opened before, which only
    their destructors see.  Memory ordering between threads is that of
    interleaved statements.  k8s_registry and builtin_impl hold no code; the
    build, gateway and deployment files are left out.

    ** Plan

    The plan is carried out: every component has its operations, its invariants and
    the theorems that relate it to its neighbours.  What is left of the source is
    includes, log lines, declarations that repeat a definition, and the files named
    above. *)

From stdpp Require Import base tactics option list gmap strings pretty relations numbers.

#[export] Set Default Goal Selector "!".

Declare Scope photon_scope.
Delimit Scope photon_scope with photon.

(** ** Exceptions

    The C++ exception classes the source throws or catches by name.  Every
    class but [non_std_exception] derives from [std::exception]. *)

Inductive exn_class :=
| runtime_error
| invalid_argument
| out_of_range
| length_error
| json_exception
| yaml_exception
| library_exception
| non_std_exception.

Record exn := Exn { exn_cls : exn_class; what : string }.

#[export] Instance exn_class_eq_dec : EqDecision exn_class.
Proof. solve_decision. Defined.

#[export] Instance exn_eq_dec : EqDecision exn.
Proof. solve_decision. Defined.

(** What a [catch (const std::exception&)] clause catches. *)
Definition is_std_exception (e : exn) : bool :=
  negb (bool_decide (exn_cls e = non_std_exception)).

Definition is_class (c : exn_class) (e : exn) : bool := bool_decide (exn_cls e = c).

(** ** Outcomes

    A call returns, throws, or has not finished: a coroutine that is still
    suspended, or a loop whose fuel ran out, is [Pending]. *)

Inductive outcome (A : Type) :=
| Ret (a : A)
| Throw (e : exn)
| Pending.
Arguments Ret {A} a.
Arguments Throw {A} e.
Arguments Pending {A}.

Definition obind {A B} (m : outcome A) (f : A → outcome B) : outcome B :=
  match m with
  | Ret a => f a
  | Throw e => Throw e
  | Pending => Pending
  end.

Definition is_ret {A} (m : outcome A) : bool := match m with Ret _ => true | _ => false end.

Definition from_ret {A} (d : A) (m : outcome A) : A := match m with Ret a => a | _ => d end.

Lemma is_ret_eq {A} (d : A) m : is_ret m = true → m = Ret (from_ret d m).
Proof. by destruct m. Qed.

Notation "'let+' x ':=' m 'in' k" := (obind m (fun x => k))
  (at level 10, x name, m at level 100, k at level 200) : photon_scope.

(** [std::expected<A, E>]. *)
Inductive expected (A E : Type) :=
| Val (a : A)
| Unexpected (e : E).
Arguments Val {A E} a.
Arguments Unexpected {A E} e.

Definition has_value {A E} (x : expected A E) : bool :=
  match x with Val _ => true | Unexpected _ => false end.

(** ** Stateful computations

    A C++ function or coroutine that reads and writes a world [W]. *)

Definition M (W A : Type) : Type := W → outcome A * W.

Definition retM {W A} (a : A) : M W A := fun w => (Ret a, w).
Definition throwM {W A} (e : exn) : M W A := fun w => (Throw e, w).
Definition pendM {W A} : M W A := fun w => (Pending, w).
Definition liftO {W A} (o : outcome A) : M W A := fun w => (o, w).
Definition getM {W} : M W W := fun w => (Ret w, w).
Definition putM {W} (w' : W) : M W () := fun _ => (Ret (), w').
Definition modifyM {W} (f : W → W) : M W () := fun w => (Ret (), f w).

Definition bindM {W A B} (m : M W A) (f : A → M W B) : M W B := fun w =>
  match m w with
  | (Ret a, w') => f a w'
  | (Throw e, w') => (Throw e, w')
  | (Pending, w') => (Pending, w')
  end.

Notation "'let*' x ':=' m 'in' k" := (bindM m (fun x => k))
  (at level 10, x name, m at level 100, k at level 200) : photon_scope.
Notation "'do*' m 'in' k" := (bindM m (fun _ => k))
  (at level 10, m at level 100, k at level 200) : photon_scope.

(** [try { m } catch (...)]: the handler says which exceptions it catches. *)
Definition tryM {W A} (m : M W A) (catches : exn → bool) (h : exn → M W A) : M W A := fun w =>
  match m w with
  | (Throw e, w') => if catches e then h e w' else (Throw e, w')
  | r => r
  end.

(** Scope exit: a destructor runs after a return and after a throw, and not
    while the coroutine frame is suspended. *)
Definition finallyM {W A} (m : M W A) (fin : M W ()) : M W A := fun w =>
  match m w with
  | (Pending, w') => (Pending, w')
  | (o, w') =>
      match fin w' with
      | (Ret _, w'') => (o, w'')
      | (Throw e, w'') => (Throw e, w'')
      | (Pending, w'') => (Pending, w'')
      end
  end.

(** *** Reasoning about computations *)

Section monad_lemmas.
Context {W A B : Type}.
Implicit Types (m : M W A) (f : A → M W B) (w : W).

Lemma bindM_ret m f w a w' : m w = (Ret a, w') → bindM m f w = f a w'.
Proof. intros H. unfold bindM. by rewrite H. Qed.

Lemma bindM_throw m f w e w' : m w = (Throw e, w') → bindM m f w = (Throw e, w').
Proof. intros H. unfold bindM. by rewrite H. Qed.

Lemma bindM_pending m f w w' : m w = (Pending, w') → bindM m f w = (Pending, w').
Proof. intros H. unfold bindM. by rewrite H. Qed.

Lemma bindM_retM a f w : bindM (retM a) f w = f a w.
Proof. reflexivity. Qed.

Lemma bindM_liftO (o : outcome A) a f w : o = Ret a → bindM (liftO o) f w = f a w.
Proof. by intros ->. Qed.

(** A run is determined by what it returned. *)
Lemma run_eq m w o : (m w).1 = o → m w = (o, (m w).2).
Proof. intros <-. apply surjective_pairing. Qed.

(** Inversion: a computation that returned ran its first step to a return. *)
Lemma bindM_inv_ret m f w b w'' :
  bindM m f w = (Ret b, w'') → ∃ a w', m w = (Ret a, w') ∧ f a w' = (Ret b, w'').
Proof. unfold bindM. destruct (m w) as [[a|e|] w']; naive_solver. Qed.

Lemma tryM_ret m catches h w a w' : m w = (Ret a, w') → tryM m catches h w = (Ret a, w').
Proof. intros H. unfold tryM. by rewrite H. Qed.

Lemma tryM_caught m catches h w e w' :
  m w = (Throw e, w') → catches e = true → tryM m catches h w = h e w'.
Proof. intros H Hc. unfold tryM. by rewrite H, Hc. Qed.

Lemma tryM_uncaught m catches h w e w' :
  m w = (Throw e, w') → catches e = false → tryM m catches h w = (Throw e, w').
Proof. intros H Hc. unfold tryM. by rewrite H, Hc. Qed.

Lemma finallyM_finished m fin w o w' w'' :
  m w = (o, w') → o ≠ Pending → fin w' = (Ret (), w'') → finallyM m fin w = (o, w'').
Proof. intros Hm Ho Hf. unfold finallyM. rewrite Hm. destruct o; by rewrite ?Hf. Qed.

Lemma finallyM_pending m fin w w' : m w = (Pending, w') → finallyM m fin w = (Pending, w').
Proof. intros Hm. unfold finallyM. by rewrite Hm. Qed.
End monad_lemmas.

(** The laws of the monad, at every world. *)
Lemma bindM_assoc {W A B C} (m : M W A) (f : A → M W B) (g : B → M W C) w :
  bindM (bindM m f) g w = bindM m (fun a => bindM (f a) g) w.
Proof. unfold bindM. by destruct (m w) as [[|?|] ?]. Qed.

Lemma bindM_ret_r {W A} (m : M W A) w : bindM m retM w = m w.
Proof. unfold bindM, retM. by destruct (m w) as [[|?|] ?]. Qed.

(** Equal first steps, or equal continuations. *)
Lemma bindM_ext {W A B} (m : M W A) (f g : A → M W B) (w : W) :
  (∀ a w', f a w' = g a w') → bindM m f w = bindM m g w.
Proof. intros Hfg. unfold bindM. by destruct (m w) as [[a|e|] w']. Qed.

Lemma finallyM_ext {W A} (m m' : M W A) (fin : M W ()) (w : W) : m w = m' w → finallyM m fin w = finallyM m' fin w.
Proof. unfold finallyM. by intros ->. Qed.

Lemma finallyM_bind {W A B} (m : M W A) (fin : M W ()) (f : A → B) (w : W) :
  bindM (finallyM m fin) (λ r, retM (f r)) w = finallyM (bindM m (λ r, retM (f r))) fin w.
Proof.
  unfold finallyM, bindM. destruct (m w) as [[a|e|] w1]; [| |done]; simpl; by destruct (fin w1) as [[?|?|] ?].
Qed.

(** [mstep] runs the first step of a computation in the goal when a hypothesis
    says what it does; [mgo] runs as many as it can. *)
Ltac mstep :=
  match goal with
  | H : ?m ?w = (Ret ?a, ?w') |- context [bindM ?m ?f ?w] =>
      rewrite (bindM_ret m f w a w' H); cbv beta
  | H : ?m ?w = (Throw ?e, ?w') |- context [bindM ?m ?f ?w] =>
      rewrite (bindM_throw m f w e w' H)
  | H : ?m ?w = (Pending, ?w') |- context [bindM ?m ?f ?w] =>
      rewrite (bindM_pending m f w w' H)
  | |- context [bindM (retM ?a) ?f ?w] => rewrite (bindM_retM a f w); cbv beta
  end.
Ltac mgo := repeat (mstep; cbn [has_value negb]).

(** [mcase E] splits on what the first step of the computation in the goal does. *)
Tactic Notation "mcase" "as" simple_intropattern(p) ident(w') "eqn" ident(E) :=
  match goal with
  | |- context [bindM ?m ?f ?w] =>
      is_var w; unfold bindM at 1; destruct (m w) as [p w'] eqn:E; cbv beta
  end.

(** [minv H] takes a computation that returned apart, step by step. *)
Ltac minv H :=
  let a := fresh "a" in let w := fresh "w" in let Hm := fresh "Hm" in
  apply bindM_inv_ret in H; destruct H as (a & w & Hm & H); cbv beta in H.

(** ** Lenses: a component's state inside a larger one *)

Record lens (W S : Type) := Lens { lget : W → S; lset : S → W → W }.
Arguments Lens {W S} _ _.
Arguments lget {W S} _ _.
Arguments lset {W S} _ _ _.

Class LensLaws {W S} (l : lens W S) : Prop := {
  lget_lset s w : lget l (lset l s w) = s;
  lset_lget w : lset l (lget l w) w = w;
  lset_lset s s' w : lset l s (lset l s' w) = lset l s w
}.

Definition zoomM {W S A} (l : lens W S) (m : M S A) : M W A := fun w =>
  let '(o, s) := m (lget l w) in (o, lset l s w).

Lemma zoomM_eq {W S A} (l : lens W S) (m : M S A) w o s :
  m (lget l w) = (o, s) → zoomM l m w = (o, lset l s w).
Proof. intros H. unfold zoomM. by rewrite H. Qed.

Lemma zoomM_inv {W S A} (l : lens W S) (m : M S A) w o w' :
  LensLaws l → zoomM l m w = (o, w') → m (lget l w) = (o, lget l w') ∧ w' = lset l (lget l w') w.
Proof.
  intros ?. unfold zoomM. destruct (m (lget l w)) as [o' s] eqn:E.
  intros [= <- <-]. by rewrite lget_lset.
Qed.

(** ** Fuel: once a computation has finished, more fuel changes nothing *)

Definition fuel_mono {W A} (m : nat → M W A) : Prop := ∀ fuel fuel' w o w',
  fuel ≤ fuel' → m fuel w = (o, w') → o ≠ Pending → m fuel' w = (o, w').

Lemma fuel_mono_const {W A} (m : M W A) : fuel_mono (λ _, m).
Proof. by intros fuel fuel' w o w' _ E _. Qed.

Lemma fuel_mono_bind {W A B} (m : nat → M W A) (f : nat → A → M W B) :
  fuel_mono m → (∀ a, fuel_mono (λ n, f n a)) → fuel_mono (λ n, bindM (m n) (f n)).
Proof.
  intros Hm Hf fuel fuel' w o w' Hle. unfold bindM. destruct (m fuel w) as [[a|e|] w1] eqn:E.
  - rewrite (Hm _ _ _ _ _ Hle E) by done. intros E' Ho. by apply (Hf a fuel).
  - rewrite (Hm _ _ _ _ _ Hle E) by done. done.
  - by intros [= <- <-].
Qed.

Lemma fuel_mono_zoom {W S A} (l : lens W S) (m : nat → M S A) :
  fuel_mono m → fuel_mono (λ n, zoomM l (m n)).
Proof.
  intros Hm fuel fuel' w o w' Hle. unfold zoomM. destruct (m fuel (lget l w)) as [o1 s] eqn:E.
  intros [= <- <-] Ho. by rewrite (Hm _ _ _ _ _ Hle E).
Qed.

Lemma fuel_mono_finally {W A} (m : nat → M W A) (fin : M W ()) :
  fuel_mono m → fuel_mono (λ n, finallyM (m n) fin).
Proof.
  intros Hm fuel fuel' w o w' Hle. unfold finallyM. destruct (m fuel w) as [o1 w1] eqn:E.
  destruct o1 as [a|e|]; [| |by intros [= <- <-]]; by rewrite (Hm _ _ _ _ _ Hle E).
Qed.

(** ** Runs: every step is taken at a moment of the run *)

Lemma rtc_visits {A} (R : relation A) x y : rtc R x y → rtc (λ a b, R a b ∧ rtc R x a ∧ rtc R b y) x y.
Proof.
  intros Hrun. assert (∀ x0, rtc R x0 x → rtc (λ a b, R a b ∧ rtc R x0 a ∧ rtc R b y) x y) as Hall; [|by apply Hall].
  induction Hrun as [x|x x1 y Hx Hy IH]; intros x0 H0; [done|].
  assert (rtc R x0 x1) by by eapply rtc_r. eapply rtc_l; [by split_and!|by apply IH].
Qed.

(** ** Machine integers *)

Definition wrap_u (bits z : Z) : Z := (z mod 2 ^ bits)%Z.
Definition wrap_s (bits z : Z) : Z :=
  ((z + 2 ^ (bits - 1)) mod 2 ^ bits - 2 ^ (bits - 1))%Z.
Definition in_s (bits z : Z) : Prop := (- 2 ^ (bits - 1) ≤ z < 2 ^ (bits - 1))%Z.

Lemma wrap_u_range bits z : (0 ≤ bits → 0 ≤ wrap_u bits z < 2 ^ bits)%Z.
Proof. intros. apply Z.mod_pos_bound. by apply Z.pow_pos_nonneg. Qed.

Lemma wrap_u_small bits z : (0 ≤ z < 2 ^ bits → wrap_u bits z = z)%Z.
Proof. apply Z.mod_small. Qed.

Lemma wrap_s_small bits z : (0 < bits)%Z → in_s bits z → wrap_s bits z = z.
Proof.
  unfold in_s, wrap_s. intros Hb Hz.
  assert (2 ^ bits = 2 * 2 ^ (bits - 1))%Z by (rewrite <- Z.pow_succ_r by lia; f_equal; lia).
  rewrite Z.mod_small; lia.
Qed.

Lemma wrap_s_range bits z : (0 < bits)%Z → in_s bits (wrap_s bits z).
Proof.
  unfold in_s, wrap_s. intros Hb.
  assert (2 ^ bits = 2 * 2 ^ (bits - 1))%Z by (rewrite <- Z.pow_succ_r by lia; f_equal; lia).
  assert (0 < 2 ^ (bits - 1))%Z by (apply Z.pow_pos_nonneg; lia).
  pose proof (Z.mod_pos_bound (z + 2 ^ (bits - 1)) (2 ^ bits)). lia.
Qed.

(** ** Step relations: what holds initially and is kept by every step holds of
    every reachable state. *)
Lemma rtc_invariant {S} (R : S → S → Prop) (I : S → Prop) :
  (∀ x y, I x → R x y → I y) → ∀ x y, rtc R x y → I x → I y.
Proof. intros Hstep x y. induction 1; eauto. Qed.

(** A simulation between two step relations lifts to runs. *)
Lemma rtc_simulation {S T} (R : S → S → Prop) (Q : T → T → Prop) (sim : S → T → Prop) :
  (∀ s s' t, sim s t → R s s' → ∃ t', rtc Q t t' ∧ sim s' t') →
  ∀ s s', rtc R s s' → ∀ t, sim s t → ∃ t', rtc Q t t' ∧ sim s' t'.
Proof.
  intros Hsim s s'. induction 1 as [|s1 s2 s3 Hs _ IH]; intros t Ht.
  { exists t. by split; [apply rtc_refl|]. }
  destruct (Hsim _ _ _ Ht Hs) as (t2 & Ht2 & H2).
  destruct (IH _ H2) as (t3 & Ht3 & H3).
  exists t3. split; [by trans t2|done].
Qed.

(** ** Lists *)

Lemma lookup_seq_all {A} (l : list A) : (λ i, l !! i) <$> seq 0 (length l) = Some <$> l.
Proof.
  induction l as [|x l IH]; [done|].
  change (seq 0 (length (x :: l))) with (0 :: seq 1 (length l)). rewrite !fmap_cons, <- IH. f_equal.
  rewrite <- fmap_S_seq, <- list_fmap_compose. by apply list_fmap_ext.
Qed.

Lemma rotate_permutation {A} n (l : list A) : rotate n l ≡ₚ l.
Proof. unfold rotate. by rewrite Permutation_app_comm, take_drop. Qed.

(** Take one occurrence out of a list used as a bag. *)
Fixpoint remove_one {A} `{EqDecision A} (x : A) (l : list A) : option (list A) :=
  match l with
  | [] => None
  | y :: l => if decide (x = y) then Some l else cons y <$> remove_one x l
  end.

Lemma remove_one_Permutation {A} `{EqDecision A} (x : A) l l' : remove_one x l = Some l' → l ≡ₚ x :: l'.
Proof.
  revert l'. induction l as [|y l IH]; intros l' Hl; simpl in Hl; [done|].
  case_decide as Hx; [by injection Hl as <-; subst|].
  apply fmap_Some in Hl as (l1 & Hl & ->). rewrite (IH _ Hl). apply Permutation_swap.
Qed.

Lemma remove_one_elem {A} `{EqDecision A} (x : A) l : x ∈ l → is_Some (remove_one x l).
Proof.
  induction l as [|y l IH]; intros Hx; [by apply elem_of_nil in Hx|]. simpl. case_decide as Hxy; [by eexists|].
  apply elem_of_cons in Hx as [|Hx]; [done|]. destruct (IH Hx) as (l' & ->). by eexists.
Qed.

(** ** Hints

    [photon] resolves the side conditions the components share. *)
Create HintDb photon discriminated.
Create Rewrite HintDb photon_rw.
#[export] Hint Resolve wrap_s_small wrap_u_small : photon.
#[export] Hint Rewrite @bindM_retM @bindM_assoc @bindM_ret_r : photon_rw.
