(* ===== verification/Programs.v ===== *)
(** * Programs: coroutines whose calls interleave

    A coroutine is a tree of calls: it makes one, is suspended until it returns
    or throws, and goes on with the outcome.  Any number of them share one world,
    any of them may make its next call at any time, and between two calls the
    environment may change the world too.  What a finished coroutine did is read
    off the history of the calls. *)

From stdpp Require Import base tactics option list relations.
From S2P Require Import Prelude.

Open Scope photon_scope.

(** ** Coroutines *)

Inductive prog (W A : Type) : Type :=
| Done (o : outcome A)
| Await {B : Type} (m : M W B) (k : outcome B → prog W A).
Arguments Done {W A} o.
Arguments Await {W A B} m k.

Definition ret {W A} (a : A) : prog W A := Done (Ret a).
(** [co_await m] *)
Definition call {W A} (m : M W A) : prog W A := Await m Done.

Fixpoint pbind {W A B} (p : prog W A) (f : A → prog W B) : prog W B :=
  match p with
  | Done (Ret a) => f a
  | Done (Throw e) => Done (Throw e)
  | Done Pending => Done Pending
  | Await m k => Await m (fun o => pbind (k o) f)
  end.

(** [try { p } catch (...)] *)
Fixpoint ptry {W A} (p : prog W A) (catches : exn → bool) (h : exn → prog W A) : prog W A :=
  match p with
  | Done (Throw e) => if catches e then h e else p
  | Done _ => p
  | Await m k => Await m (fun o => ptry (k o) catches h)
  end.

(** The same calls on a part of a larger world. *)
Fixpoint pzoom {W S A} (l : lens W S) (p : prog S A) : prog W A :=
  match p with
  | Done o => Done o
  | Await m k => Await (zoomM l m) (fun o => pzoom l (k o))
  end.

Notation "'let~' x ':=' p 'in' q" := (pbind p (fun x => q))
  (at level 10, x name, p at level 100, q at level 200) : photon_scope.
Notation "'do~' p 'in' q" := (pbind p (fun _ => q))
  (at level 10, p at level 100, q at level 200) : photon_scope.

(** A coroutine that nobody interrupts, as a computation. *)
Fixpoint run {W A} (p : prog W A) : M W A := fun w =>
  match p with
  | Done o => (o, w)
  | Await m k =>
      match m w with
      | (Pending, w') => (Pending, w')
      | (o, w') => run (k o) w'
      end
  end.

Section run.
Context {W : Type}.

Lemma run_call {A} (m : M W A) w : run (call m) w = m w.
Proof. simpl. by destruct (m w) as [[a|e|] w']. Qed.

Lemma run_bind {A B} (p : prog W A) (f : A → prog W B) w :
  run (pbind p f) w = (let* a := run p in run (f a)) w.
Proof.
  unfold bindM. revert w. induction p as [[a|e|]|X m k IH]; intros w; simpl; [done..|].
  destruct (m w) as [[b|e|] w']; [apply IH|apply IH|done].
Qed.

Lemma run_try {A} (p : prog W A) catches h w :
  run (ptry p catches h) w = tryM (run p) catches (λ e, run (h e)) w.
Proof.
  unfold tryM. revert w. induction p as [[a|e|]|X m k IH]; intros w; simpl; [done| |done|].
  - by destruct (catches e).
  - destruct (m w) as [[b|e|] w']; [apply IH|apply IH|done].
Qed.

Lemma run_zoom {S A} (l : lens W S) `{!LensLaws l} (p : prog S A) w :
  run (pzoom l p) w = zoomM l (run p) w.
Proof.
  revert w. induction p as [o|X m k IH]; intros w; simpl; [by unfold zoomM; rewrite lset_lget|].
  unfold zoomM at 1 2. destruct (m (lget l w)) as [o s] eqn:E.
  destruct o as [b|e|]; [rewrite IH|rewrite IH|done]; unfold zoomM; rewrite lget_lset;
    destruct (run (k _) s) as [o' s']; by rewrite lset_lset.
Qed.

(** A computation written as a coroutine: its parts one after the other. *)
Lemma bind_alone {A B} (p : prog W A) (m : M W A) (f : A → prog W B) (g : A → M W B) w :
  (∀ w, run p w = m w) → (∀ a w, run (f a) w = g a w) → run (pbind p f) w = bindM m g w.
Proof.
  intros Hp Hf. rewrite run_bind. unfold bindM. rewrite Hp. destruct (m w) as [[a|e|] w1]; [apply Hf|done..].
Qed.

Lemma try_alone {A} (p : prog W A) (m : M W A) catches h g w :
  (∀ w, run p w = m w) → (∀ e w, run (h e) w = g e w) → run (ptry p catches h) w = tryM m catches g w.
Proof.
  intros Hp Hh. rewrite run_try. unfold tryM. rewrite Hp. destruct (m w) as [[a|e|] w1]; [done| |done].
  destruct (catches e); [apply Hh|done].
Qed.

Lemma run_done {A} (o : outcome A) (w : W) : run (Done o) w = liftO o w.
Proof. done. Qed.
End run.

(** ** What a coroutine did

    An event is a call as it ran: the world before it and the world after it. *)
Section exec.
Context {W : Type}.

(** [exec p evs q]: the calls of [p] went as [evs] says, and [q] is left. *)
Fixpoint exec {A} (p : prog W A) (evs : list (W * W)) (q : prog W A) {struct evs} : Prop :=
  match evs with
  | [] => p = q
  | (w, w') :: evs' =>
      match p with
      | Done _ => False
      | Await m k => (m w).2 = w' ∧ (m w).1 ≠ Pending ∧ exec (k (m w).1) evs' q
      end
  end.

Lemma exec_app {A} (p q : prog W A) evs1 evs2 :
  exec p (evs1 ++ evs2) q ↔ ∃ p', exec p evs1 p' ∧ exec p' evs2 q.
Proof.
  revert p. induction evs1 as [|[w w'] evs1 IH]; intros p; simpl.
  - split; [by exists p|]. by intros (p' & -> & ?).
  - destruct p as [o|B m k].
    + split; [done|]. by intros (? & [] & _).
    + rewrite IH. split; [intros (? & ? & p' & ? & ?)|intros (p' & (? & ? & ?) & ?)]; eauto 10.
Qed.

(** A coroutine made of two parts that finished did the first, then the second. *)
Lemma exec_bind {A B} (p : prog W A) (f : A → prog W B) evs o :
  exec (pbind p f) evs (Done o) →
  (∃ a evs1 evs2, evs = evs1 ++ evs2 ∧ exec p evs1 (Done (Ret a)) ∧ exec (f a) evs2 (Done o))
  ∨ ∃ o1, exec p evs (Done o1) ∧ match o1 with Ret _ => False | Throw e => o = Throw e | Pending => o = Pending end.
Proof.
  revert evs. induction p as [[a|e|]|X m k IH]; intros evs He; simpl in He.
  - left. by exists a, [], evs.
  - destruct evs as [|[w w'] evs]; [|done]. injection He as <-. right. by exists (Throw e).
  - destruct evs as [|[w w'] evs]; [|done]. injection He as <-. right. by exists Pending.
  - destruct evs as [|[w w'] evs]; [done|]. destruct He as (Hw & Ho & He).
    destruct (IH _ _ He) as [(a & evs1 & evs2 & -> & H1 & H2)|(o1 & H1 & H2)].
    + left. by exists a, ((w, w') :: evs1), evs2.
    + right. by exists o1.
Qed.

(** ... and one still on its way is in one of them. *)
Lemma exec_bind_any {A B} (p : prog W A) (f : A → prog W B) evs q :
  exec (pbind p f) evs q →
  (∃ p', exec p evs p' ∧ q = pbind p' f)
  ∨ ∃ a evs1 evs2, evs = evs1 ++ evs2 ∧ exec p evs1 (Done (Ret a)) ∧ exec (f a) evs2 q.
Proof.
  revert evs. induction p as [[a|e|]|X m k IH]; intros evs He; simpl in He.
  - right. by exists a, [], evs.
  - destruct evs as [|[w w'] evs]; [|done]. simpl in He. subst q. left. by exists (Done (Throw e)).
  - destruct evs as [|[w w'] evs]; [|done]. simpl in He. subst q. left. by exists (Done Pending).
  - destruct evs as [|[w w'] evs]; [simpl in He; subst q; left; by exists (Await m k)|]. destruct He as (Hw & Ho & He).
    destruct (IH _ _ He) as [(p' & H1 & ->)|(a & evs1 & evs2 & -> & H1 & H2)].
    + left. by exists p'.
    + right. by exists a, ((w, w') :: evs1), evs2.
Qed.

Lemma exec_bind_first {A B} (p p' : prog W A) (f : A → prog W B) evs : exec p evs p' → exec (pbind p f) evs (pbind p' f).
Proof.
  revert p. induction evs as [|[w w'] evs IH]; intros p; simpl; [by intros ->|].
  destruct p as [o|X m k]; [done|]. intros (? & ? & ?). split; [done|]. split; [done|]. by apply IH.
Qed.

(** ... in particular one that returned. *)
Lemma exec_bind_ret {A B} (p : prog W A) (f : A → prog W B) evs b :
  exec (pbind p f) evs (Done (Ret b)) →
  ∃ a evs1 evs2, evs = evs1 ++ evs2 ∧ exec p evs1 (Done (Ret a)) ∧ exec (f a) evs2 (Done (Ret b)).
Proof. intros [?|([a|e|] & _ & ?)]%exec_bind; done. Qed.

Lemma exec_ret {A} (a : A) evs o : exec (ret a) evs (Done o) → evs = [] ∧ o = Ret a.
Proof. destruct evs as [|[w w'] evs]; [|done]. by intros [= <-]. Qed.

Lemma exec_call {A} (m : M W A) evs o :
  exec (call m) evs (Done o) → ∃ w w', evs = [(w, w')] ∧ m w = (o, w') ∧ o ≠ Pending.
Proof.
  destruct evs as [|[w w'] evs]; [done|]. intros (Hw & Ho & He).
  destruct evs as [|[w1 w2] evs]; [|done]. injection He as <-.
  exists w, w'. split; [done|]. split; [by apply injective_projections|done].
Qed.
End exec.

(** Among the events, a whole run of [p], from its first call to its last; it
    returned [a]. *)
Definition performed {W A} (evs : list (W * W)) (p : prog W A) (a : A) : Prop :=
  ∃ evs1 evs2 evs3, evs = evs1 ++ evs2 ++ evs3 ∧ exec p evs2 (Done (Ret a)).

Lemma performed_part {W A} (p : prog W A) evs1 evs2 evs3 a :
  exec p evs2 (Done (Ret a)) → performed (evs1 ++ evs2 ++ evs3) p a.
Proof. intros He. by exists evs1, evs2, evs3. Qed.

Lemma performed_later {W A} (p : prog W A) evs evs' a : performed evs p a → performed (evs' ++ evs) p a.
Proof. intros (evs1 & evs2 & evs3 & -> & He). exists (evs' ++ evs1), evs2, evs3. by rewrite <- (assoc_L (++)). Qed.

(** A coroutine with a handler that returned did so itself, or its handler did. *)
Lemma exec_try {W A} (p : prog W A) catches h evs o :
  exec (ptry p catches h) evs (Done o) →
  exec p evs (Done o) ∨ ∃ e evs1 evs2, evs = evs1 ++ evs2 ∧ exec p evs1 (Done (Throw e)) ∧ exec (h e) evs2 (Done o).
Proof.
  revert p. induction evs as [|[w w'] evs IH]; intros [[a|e|]|X m k]; simpl.
  - by left.
  - destruct (catches e); [|by left]. right. by exists e, [], [].
  - by left.
  - done.
  - done.
  - destruct (catches e); [|done]. intros He. right. by exists e, [], ((w, w') :: evs).
  - done.
  - intros (Hw & Ho & He). destruct (IH _ He) as [?|(e & evs1 & evs2 & -> & H1 & H2)]; [by left|].
    right. by exists e, ((w, w') :: evs1), evs2.
Qed.

(** A coroutine on a part of the world did there what it did. *)
Lemma exec_zoom {W S A} (l : lens W S) `{!LensLaws l} (p : prog S A) evs o :
  exec (pzoom l p) evs (Done o) → exec p (prod_map (lget l) (lget l) <$> evs) (Done o).
Proof.
  revert p. induction evs as [|[w w'] evs IH]; intros [o1|X m k]; simpl; [by intros [= ->]|done..|].
  unfold zoomM. destruct (m (lget l w)) as [o2 s] eqn:E. simpl. intros (<- & Ho & He).
  rewrite lget_lset. split; [done|]. split; [done|]. by apply IH.
Qed.

(** ... also when it is still on its way. *)
Lemma exec_zoom_any {W S A} (l : lens W S) `{!LensLaws l} (p : prog S A) evs q :
  exec (pzoom l p) evs q → ∃ p', q = pzoom l p' ∧ exec p (prod_map (lget l) (lget l) <$> evs) p'.
Proof.
  revert p. induction evs as [|[w w'] evs IH]; intros [o1|X m k]; simpl.
  1: by intros <-; exists (Done o1).
  1: by intros <-; exists (Await m k).
  1: done.
  unfold zoomM. destruct (m (lget l w)) as [o2 s] eqn:E. simpl. intros (<- & Ho & He).
  destruct (IH _ He) as (p' & -> & He'). exists p'. rewrite lget_lset. by split_and!.
Qed.

Lemma elem_zoom {W S} (l : lens W S) (e : S * S) (evs : list (W * W)) :
  e ∈ prod_map (lget l) (lget l) <$> evs → ∃ e', e' ∈ evs ∧ e = (lget l e'.1, lget l e'.2).
Proof. intros ([w w'] & -> & Hin)%list_elem_of_fmap. by exists (w, w'). Qed.

(** ** What a coroutine promises

    [E w w']: whatever else happens, the world only changes from a [w] to such
    a [w'].  [good p w]: from [w] on, each call of [p] keeps to that too. *)
Section good.
Context {W : Type} (E : W → W → Prop) `{!Transitive E}.

Fixpoint good {A} (p : prog W A) (w0 : W) : Prop :=
  match p with
  | Done _ => True
  | Await m k => ∀ w o w', E w0 w → m w = (o, w') → o ≠ Pending → E w w' ∧ good (k o) w'
  end.

Lemma good_later {A} (p : prog W A) w w' : E w w' → good p w → good p w'.
Proof. intros Hw. destruct p as [o|B m k]; [done|]. simpl. intros Hp w1 o w2 H1. apply Hp. by trans w'. Qed.

Lemma good_bind {A B} (p : prog W A) (f : A → prog W B) w :
  good p w → (∀ a w', w' = w ∨ E w w' → good (f a) w') → good (pbind p f) w.
Proof.
  revert w. induction p as [[a|e|]|X m k IH]; intros w Hp Hf; simpl in *; [by apply Hf; left|done|done|].
  intros w1 o w2 H1 Hm Ho. destruct (Hp w1 o w2 H1 Hm Ho) as [H2 Hk]. split; [done|]. apply IH; [done|].
  intros a w3 Hw3. apply Hf. right. trans w1; [done|]. destruct Hw3 as [->|?]; [done|by trans w2].
Qed.

Lemma good_try {A} (p : prog W A) catches h w :
  good p w → (∀ e w', w' = w ∨ E w w' → good (h e) w') → good (ptry p catches h) w.
Proof.
  revert w. induction p as [[a|e|]|X m k IH]; intros w Hp Hh; simpl in *; [done| |done|].
  - destruct (catches e); [by apply Hh; left|done].
  - intros w1 o w2 H1 Hm Ho. destruct (Hp w1 o w2 H1 Hm Ho) as [H2 Hk]. split; [done|]. apply IH; [done|].
    intros e w3 Hw3. apply Hh. right. trans w1; [done|]. destruct Hw3 as [->|?]; [done|by trans w2].
Qed.

Lemma good_call {A} (m : M W A) w :
  (∀ w1 o w2, E w w1 → m w1 = (o, w2) → o ≠ Pending → E w1 w2) → good (call m) w.
Proof. intros Hm w1 o w2 H1 E1 Ho. split; [by eapply Hm|done]. Qed.

(** The events of one coroutine, with others in between. *)
Fixpoint chain (w0 : W) (evs : list (W * W)) : Prop :=
  match evs with
  | [] => True
  | (w, w') :: evs' => E w0 w ∧ E w w' ∧ chain w' evs'
  end.

Lemma chain_earlier w0 w1 evs : E w0 w1 → chain w1 evs → chain w0 evs.
Proof. intros H0. destruct evs as [|[w w'] evs]; [done|]. intros (H1 & ?). split; [by trans w1|done]. Qed.

Lemma chain_app w0 evs1 evs2 : chain w0 (evs1 ++ evs2) → chain w0 evs1 ∧ chain w0 evs2.
Proof.
  revert w0. induction evs1 as [|[w w'] evs1 IH]; intros w0; simpl; [done|].
  intros (H0 & H1 & [H2 H3]%IH). split; [done|]. apply (chain_earlier _ w'); [by trans w|done].
Qed.

(** What was is still to come at any later event. *)
Lemma chain_elem w0 evs e : chain w0 evs → e ∈ evs → E w0 e.1 ∧ E e.1 e.2.
Proof.
  revert w0. induction evs as [|[w w'] evs IH]; intros w0; [by intros _ ?%elem_of_nil|].
  intros (H0 & H1 & H2) [->|Hin]%elem_of_cons; [done|]. destruct (IH _ H2 Hin) as [H3 H4].
  split; [|done]. trans w; [done|by trans w'].
Qed.

Lemma chain_order w0 evs1 evs2 e1 e2 :
  chain w0 (evs1 ++ evs2) → e1 ∈ evs1 → e2 ∈ evs2 → E e1.2 e2.1.
Proof.
  revert w0. induction evs1 as [|[w w'] evs1 IH]; intros w0; [by intros _ ?%elem_of_nil|]. simpl.
  intros (H0 & H1 & H2) [->|Hin]%elem_of_cons He2; [|by eapply IH].
  apply chain_app in H2 as [_ H2]. by eapply chain_elem.
Qed.
End good.

(** ** Coroutines side by side *)

Section threads.
Context {W C R : Type} (env : W → W → Prop) (body : C → prog W R).

(** The coroutines in the order of their calls, each with its call and what it
    has left to do; [history] is who made which call on which world. *)
Record threads := mkThreads {
  shared : W;
  running : list (C * prog W R);
  history : list (nat * (W * W))
}.

Definition arrives (c : C) (s : threads) : threads :=
  mkThreads (shared s) (running s ++ [(c, body c)]) (history s).

(** Coroutine [i] makes its next call. *)
Definition goes (i : nat) (s : threads) : option threads :=
  match running s !! i with
  | Some (c, Await m k) =>
      match m (shared s) with
      | (Pending, _) => None
      | (o, w') => Some (mkThreads w' (<[i := (c, k o)]> (running s)) (history s ++ [(i, (shared s, w'))]))
      end
  | _ => None
  end.

Inductive move := Arrives (c : C) | Goes (i : nat).

Definition moves (mv : move) (s : threads) : option threads :=
  match mv with Arrives c => Some (arrives c s) | Goes i => goes i s end.

Fixpoint play (mvs : list move) (s : threads) : option threads :=
  match mvs with [] => Some s | mv :: mvs' => s' ← moves mv s; play mvs' s' end.

Definition playable (mvs : list move) (s : threads) : bool := match play mvs s with Some _ => true | None => false end.
Definition played (mvs : list move) (s : threads) : threads := default s (play mvs s).
Definition ended (t : C * prog W R) : option (outcome R) := match t.2 with Done o => Some o | _ => None end.

(** The world changes by itself. *)
Definition changed (w : W) (s : threads) : threads := mkThreads w (running s) (history s).

Definition step (s s' : threads) : Prop :=
  (∃ mv, moves mv s = Some s') ∨ ∃ w, env (shared s) w ∧ s' = changed w s.
Definition proceed (s s' : threads) : Prop := ∃ i, goes i s = Some s'.

(** Nobody has called yet. *)
Definition start (w : W) : threads := mkThreads w [] [].

Lemma played_steps mvs s : playable mvs s = true → rtc step s (played mvs s).
Proof.
  unfold playable, played. intros Hp. assert (∃ s', play mvs s = Some s') as [s' E] by (destruct (play mvs s); eauto || done).
  rewrite E. clear Hp. simpl. revert s E. induction mvs as [|mv mvs IH]; intros s; simpl; [by intros [= ->]|].
  destruct (moves mv s) as [s1|] eqn:E; [|done]. intros Hp. eapply rtc_l; [by left; exists mv|by apply IH].
Qed.

Lemma ended_lookup s i c o :
  fst <$> running s !! i = Some c → ended <$> running s !! i = Some (Some o) → running s !! i = Some (c, Done o).
Proof. destruct (running s !! i) as [[c' [o'|B m k]]|]; simpl; [|done..]. by intros [= ->] [= ->]. Qed.

(** The events of coroutine [i], oldest first. *)
Definition events (i : nat) (h : list (nat * (W * W))) : list (W * W) := snd <$> filter (λ e, e.1 = i) h.

Lemma events_snoc i h j e : events i (h ++ [(j, e)]) = events i h ++ (if decide (j = i) then [e] else []).
Proof.
  unfold events. rewrite filter_app, fmap_app. f_equal.
  destruct (decide (j = i)) as [->|Hne]; [by rewrite filter_cons_True|by rewrite filter_cons_False].
Qed.

Lemma goes_inv i s s' :
  goes i s = Some s' →
  ∃ c (B : Type) (m : M W B) k o w', running s !! i = Some (c, Await m k) ∧ m (shared s) = (o, w') ∧ o ≠ Pending
    ∧ s' = mkThreads w' (<[i := (c, k o)]> (running s)) (history s ++ [(i, (shared s, w'))]).
Proof.
  unfold goes. destruct (running s !! i) as [[c [o|B m k]]|] eqn:Er; [done| |done].
  destruct (m (shared s)) as [o w'] eqn:Em. intros Hs. exists c, B, m, k, o, w'.
  destruct o; [|by injection Hs as <-|done]. by injection Hs as <-.
Qed.

(** The history tells what each coroutine did. *)
Definition recorded (s : threads) : Prop :=
  (∀ i c p, running s !! i = Some (c, p) → exec (body c) (events i (history s)) p)
  ∧ ∀ e, e ∈ history s → e.1 < length (running s).

Lemma events_fresh s i : recorded s → length (running s) ≤ i → events i (history s) = [].
Proof.
  intros [_ Hlt] Hi. unfold events. destruct (filter (λ e, e.1 = i) (history s)) as [|e l] eqn:E; [done|exfalso].
  assert (e ∈ filter (λ e, e.1 = i) (history s)) as Hin by (rewrite E; left).
  apply list_elem_of_filter in Hin as [Hei Hin]. apply Hlt in Hin. lia.
Qed.

Lemma step_recorded s s' : recorded s → step s s' → recorded s'.
Proof.
  intros Hrec [([c|i] & E)|(w & _ & ->)]; [..|exact Hrec].
  - injection E as <-. pose proof (events_fresh s (length (running s)) Hrec (Nat.le_refl _)) as Hf.
    destruct Hrec as [Hex Hlt]. split; simpl.
    + intros i c' p Hi. apply lookup_app_Some in Hi as [Hi|[Hlen Hi]]; [by apply Hex|].
      apply list_lookup_singleton_Some in Hi as [Hi [= <- <-]].
      replace i with (length (running s)) by lia. by rewrite Hf.
    + intros e He. rewrite length_app. apply Hlt in He. lia.
  - destruct (goes_inv _ _ _ E) as (c & B & m & k & o & w' & Hi & Hm & Ho & ->). destruct Hrec as [Hex Hlt].
    pose proof (lookup_lt_Some _ _ _ Hi) as Hil. split; simpl.
    + intros j c' p Hj. rewrite events_snoc. destruct (decide (i = j)) as [<-|Hne].
      * rewrite list_lookup_insert_eq in Hj by done. injection Hj as <- <-. apply exec_app.
        exists (Await m k). split; [by apply Hex|]. simpl. by rewrite Hm.
      * rewrite list_lookup_insert_ne in Hj by done. rewrite app_nil_r. by apply Hex.
    + intros e He. rewrite length_insert. apply elem_of_app in He as [He|He]; [by apply Hlt|].
      by apply list_elem_of_singleton in He as ->.
Qed.

Lemma reachable_recorded w s : rtc step (start w) s → recorded s.
Proof.
  intros Hrun. eapply (rtc_invariant step recorded); [|done|].
  - intros s1 s2 ? ?. by eapply step_recorded.
  - split; [done|]. by intros e ?%elem_of_nil.
Qed.

(** *** Every coroutine keeps its promise *)
Section promises.
Context (E : W → W → Prop) `{!Transitive E} (w0 : W).
Context (Hok : ∀ w w', E w w' → E w' w') (Hw0 : E w0 w0) (Hgood : ∀ c w, E w0 w → good E (body c) w).
Context (Henv : ∀ w w', E w0 w → env w w' → E w w').

Record kept (s : threads) : Prop := {
  kept_world : E w0 (shared s);
  kept_history : chain E w0 (snd <$> history s);
  kept_past e : e ∈ history s → E e.2.2 (shared s);
  kept_good i c p : running s !! i = Some (c, p) → good E p (shared s)
}.

Lemma chain_snoc w1 evs w w' :
  chain E w1 evs → E w1 w → (∀ e, e ∈ evs → E e.2 w) → E w w' → chain E w1 (evs ++ [(w, w')]).
Proof.
  revert w1. induction evs as [|[u u'] evs IH]; intros w1; simpl; [done|].
  intros (H0 & H1 & H2) H3 H4 H5. split; [done|]. split; [done|]. apply IH; [done| | |done].
  - apply (H4 (u, u')). left.
  - intros e He. apply H4. by right.
Qed.

Lemma step_kept s s' : kept s → step s s' → kept s'.
Proof.
  intros [Hw Hh Hp Hg] [([c|i] & Es)|(w & Ew%Henv & ->)]; [..|done].
  - injection Es as <-. split; simpl; [done|done|done|]. intros i c' p Hi.
    apply lookup_app_Some in Hi as [Hi|[_ Hi]]; [by eapply Hg|].
    apply list_lookup_singleton_Some in Hi as [_ [= <- <-]]. by apply Hgood.
  - destruct (goes_inv _ _ _ Es) as (c & B & m & k & o & w' & Hi & Hm & Ho & ->).
    pose proof (Hg _ _ _ Hi) as Hgi. simpl in Hgi.
    destruct (Hgi (shared s) o w' (Hok _ _ Hw) Hm Ho) as [Hww' Hk]. split; simpl.
    + by trans (shared s).
    + rewrite fmap_app. apply chain_snoc; [done|done| |done].
      intros e (e' & -> & He')%list_elem_of_fmap. by apply Hp.
    + intros e He. apply elem_of_app in He as [He|He]; [trans (shared s); [by apply Hp|done]|].
      apply list_elem_of_singleton in He as ->. by apply (Hok (shared s)).
    + intros j c' p Hj. destruct (decide (i = j)) as [<-|Hne].
      * rewrite list_lookup_insert_eq in Hj by by eapply lookup_lt_Some. by injection Hj as <- <-.
      * rewrite list_lookup_insert_ne in Hj by done. apply (good_later E _ (shared s)); [done|by eapply Hg].
  - split; simpl; [by trans (shared s)|done| |].
    + intros e He. trans (shared s); [by apply Hp|done].
    + intros i c p Hi. apply (good_later E _ (shared s)); [done|by eapply Hg].
Qed.

Lemma reachable_kept s : rtc step (start w0) s → kept s.
Proof.
  intros Hrun. eapply (rtc_invariant step kept); [|done|].
  - intros s1 s2 ? ?. by eapply step_kept.
  - split; simpl; [done|done| |done]. by intros e ?%elem_of_nil.
Qed.

Lemma chain_sublist w1 evs evs' : chain E w1 evs → sublist evs' evs → chain E w1 evs'.
Proof.
  intros Hc Hs. revert w1 Hc. induction Hs as [|[w w'] l1 l2 _ IH|[w w'] l1 l2 _ IH]; intros w1; simpl; [done|..].
  - intros (H0 & H1 & H2). split; [done|]. split; [done|]. by apply IH.
  - intros (H0 & H1 & H2). apply IH. apply (chain_earlier E _ w'); [by trans w|done].
Qed.

Lemma sublist_map {A B} (f : A → B) (l l' : list A) : sublist l l' → sublist (f <$> l) (f <$> l').
Proof. induction 1; simpl; by constructor. Qed.

(** One coroutine's events follow each other. *)
Lemma kept_events s i : kept s → chain E w0 (events i (history s)).
Proof. intros Hk. eapply chain_sublist; [by apply Hk|]. apply sublist_map, sublist_filter. Qed.

Lemma elem_events i e s : e ∈ events i (history s) ↔ (i, e) ∈ history s.
Proof.
  unfold events. rewrite list_elem_of_fmap. split.
  - intros ([j e'] & -> & He). apply list_elem_of_filter in He as [Hj He]. simpl in Hj. by subst.
  - intros He. exists (i, e). split; [done|]. by apply list_elem_of_filter.
Qed.

(** Of two coroutines' events one came first. *)
Lemma kept_order s i j e f :
  kept s → i ≠ j → e ∈ events i (history s) → f ∈ events j (history s) → E e.2 f.1 ∨ E f.2 e.1.
Proof.
  intros Hk Hne He%elem_events Hf%elem_events. pose proof (kept_history _ Hk) as Hc.
  apply list_elem_of_split in He as (l1 & l2 & Hh). rewrite Hh in Hf, Hc. rewrite fmap_app, fmap_cons in Hc.
  apply elem_of_app in Hf as [Hf|Hf].
  - right. eapply (chain_order E _ (snd <$> l1) (e :: (snd <$> l2))); [exact Hc| |left].
    apply list_elem_of_fmap. by exists (j, f).
  - apply elem_of_cons in Hf as [Hf|Hf]; [congruence|]. left.
    rewrite (cons_middle e), (assoc_L (++)) in Hc.
    eapply (chain_order E _ ((snd <$> l1) ++ [e]) (snd <$> l2)); [exact Hc| |].
    + apply elem_of_app. right. left.
    + apply list_elem_of_fmap. by exists (j, f).
Qed.
End promises.

(** *** Every coroutine ends *)

(** It ends after at most [n] calls, when they return or throw. *)
Fixpoint bounded {A} (n : nat) (p : prog W A) {struct p} : Prop :=
  match p with
  | Done o => o ≠ Pending
  | Await m k => match n with O => False | S n' => ∀ o, o ≠ Pending → bounded n' (k o) end
  end.

Lemma goes_budget i s s' budget :
  goes i s = Some s' → Forall2 (λ t b, bounded b t.2) (running s) budget →
  ∃ budget', Forall2 (λ t b, bounded b t.2) (running s') budget' ∧ S (sum_list budget') = sum_list budget.
Proof.
  intros E Hb. destruct (goes_inv _ _ _ E) as (c & B & m & k & o & w' & Hi & Hm & Ho & ->). simpl.
  destruct (Forall2_lookup_l _ _ _ _ _ Hb Hi) as (b & Hbi & Hbb). simpl in Hbb. destruct b as [|b]; [done|].
  exists (<[i := b]> budget). split.
  - apply Forall2_insert; [done|]. exact (Hbb o Ho).
  - rewrite <- (take_drop_middle budget i (S b) Hbi) at 2.
    rewrite (insert_take_drop budget i b) by by eapply lookup_lt_Some. rewrite !sum_list_with_app. simpl. lia.
Qed.

Lemma bounded_more {A} n m (p : prog W A) : n ≤ m → bounded n p → bounded m p.
Proof.
  revert n m. induction p as [o|B c k IH]; intros n m Hle; [done|]. destruct n as [|n]; [done|].
  destruct m as [|m]; [lia|]. simpl. intros Hk o Ho. apply (IH o n); [lia|by apply Hk].
Qed.

Lemma bounded_bind {A B} n m (p : prog W A) (f : A → prog W B) :
  bounded n p → (∀ a, bounded m (f a)) → bounded (n + m) (pbind p f).
Proof.
  intros Hp Hf. revert n Hp. induction p as [[a|e|]|X c k IH]; intros n Hp; simpl; [|done|by destruct Hp|].
  - apply (bounded_more m); [lia|done].
  - destruct n as [|n]; [done|]. intros o Ho. apply IH. by apply Hp.
Qed.

Lemma bounded_try {A} n m (p : prog W A) catches h :
  bounded n p → (∀ e, bounded m (h e)) → bounded (n + m) (ptry p catches h).
Proof.
  intros Hp Hh. revert n Hp. induction p as [[a|e|]|X c k IH]; intros n Hp; simpl; [done| |by destruct Hp|].
  - destruct (catches e); [|done]. apply (bounded_more m); [lia|done].
  - destruct n as [|n]; [done|]. intros o Ho. apply IH. by apply Hp.
Qed.

Lemma bounded_call {A} (m : M W A) : bounded 1 (call m).
Proof. by intros o. Qed.

(** The calls left are as many as the coroutines' bounds add up to, and when
    nobody can go on, whoever has not ended is in a call that does not return. *)
Lemma proceed_bounded n s s' budget :
  Forall2 (λ t b, bounded b t.2) (running s) budget → nsteps proceed n s s' → n ≤ sum_list budget.
Proof.
  intros Hb Hrun. revert budget Hb. induction Hrun as [s|n s s1 s2 [i Hi] _ IH]; intros budget Hb; [lia|].
  destruct (goes_budget _ _ _ _ Hi Hb) as (b' & Hb' & E). specialize (IH _ Hb'). lia.
Qed.

Lemma reachable_bounded n w s :
  (∀ c, bounded n (body c)) → rtc step (start w) s → Forall (λ t, bounded n t.2) (running s).
Proof.
  intros Hb Hrun. eapply (rtc_invariant step (λ s, Forall (λ t, bounded n t.2) (running s))); [|exact Hrun|constructor].
  clear s Hrun. intros s s' Hs [([c|i] & E)|(w' & _ & ->)]; [..|exact Hs].
  - injection E as <-. simpl. apply Forall_app. split; [done|]. apply Forall_singleton. apply Hb.
  - destruct (goes_inv _ _ _ E) as (c & B & m & k & o & w' & Hi & Hm & Ho & ->). simpl.
    apply Forall_insert; [done|]. pose proof (Forall_lookup_1 _ _ _ _ Hs Hi) as Hk. simpl in *.
    destruct n as [|n]; [done|]. apply (bounded_more n); [lia|by apply Hk].
Qed.

(** From a reachable state, [n] calls per coroutine. *)
Lemma proceed_at_most n w s k s' :
  (∀ c, bounded n (body c)) → rtc step (start w) s → nsteps proceed k s s' → k ≤ n * length (running s).
Proof.
  intros Hb Hrun Hk. pose proof (reachable_bounded n w s Hb Hrun) as Hall.
  pose proof (proceed_bounded k s s' (replicate (length (running s)) n)) as Hle.
  rewrite sum_list_replicate in Hle. rewrite Nat.mul_comm. apply Hle; [|done].
  apply Forall2_same_length_lookup_2; [by rewrite length_replicate|].
  intros i t b Hi [-> _]%lookup_replicate. exact (Forall_lookup_1 _ _ _ _ Hall Hi).
Qed.

(** Whoever cannot go on has ended, or is in a call that does not return. *)
Lemma stuck_waiting n s i c p :
  (∀ s', ¬ proceed s s') → running s !! i = Some (c, p) → bounded n p →
  match p with Done o => o ≠ Pending | Await m k => (m (shared s)).1 = Pending end.
Proof.
  intros Hstuck Hi Hb. destruct p as [o|B m k]; [done|]. destruct (m (shared s)) as [o w'] eqn:Em. simpl.
  destruct o as [b|e|]; [| |done]; exfalso; eapply Hstuck; exists i; unfold goes; by rewrite Hi, Em.
Qed.

Lemma proceed_step s s' : proceed s s' → step s s'.
Proof. intros [i E]. left. by exists (Goes i). Qed.

Lemma changed_step w s : env (shared s) w → step s (changed w s).
Proof. intros Hw. right. by exists w. Qed.
End threads.

(** ** What is left after some calls *)
Section left.
Context {W : Type}.

Lemma exec_bounded {A} n (p q : prog W A) evs :
  bounded n p → exec p evs q → length evs ≤ n ∧ bounded (n - length evs) q.
Proof.
  revert n p. induction evs as [|[w w'] evs IH]; intros n p Hb He; simpl in *.
  - subst q. rewrite Nat.sub_0_r. split; [lia|done].
  - destruct p as [o|B m k]; [done|]. destruct He as (_ & Ho & He). destruct n as [|n]; [done|].
    destruct (IH n _ (Hb _ Ho) He) as [Hl Hq]. split; [lia|done].
Qed.

(** Every call it may make returns or throws. *)
Fixpoint returns {A} (p : prog W A) : Prop :=
  match p with Done _ => True | Await m k => ∀ w, (m w).1 ≠ Pending ∧ returns (k (m w).1) end.

Lemma exec_returns {A} (p q : prog W A) evs : returns p → exec p evs q → returns q.
Proof.
  revert p. induction evs as [|[w w'] evs IH]; intros p Hp He; simpl in *; [by subst|].
  destruct p as [o|B m k]; [done|]. destruct He as (_ & _ & He). eapply IH; [|exact He]. by apply Hp.
Qed.

Lemma returns_bind {A B} (p : prog W A) (f : A → prog W B) : returns p → (∀ a, returns (f a)) → returns (pbind p f).
Proof.
  intros Hp Hf. induction p as [[a|e|]|X m k IH]; simpl in *; [apply Hf|done..|]. intros w. split; [apply Hp|]. apply IH, Hp.
Qed.

Lemma good_any {A} (p : prog W A) w : good (λ _ _, True) p w.
Proof. revert w. induction p as [o|B m k IH]; intros w; simpl; [done|]. intros w1 o w2 _ _ _. split; [done|apply IH]. Qed.

(** Each of its calls takes the world from a [w] to a [w'] with [R w w']. *)
Fixpoint always {A} (R : W → W → Prop) (p : prog W A) : Prop :=
  match p with
  | Done _ => True
  | Await m k => ∀ w o w', m w = (o, w') → o ≠ Pending → R w w' ∧ always R (k o)
  end.

Lemma always_impl {A} (R R' : W → W → Prop) (p : prog W A) : (∀ w w', R w w' → R' w w') → always R p → always R' p.
Proof.
  intros HR. induction p as [o|B m k IH]; simpl; [done|]. intros Hp w o w' Em Ho.
  destruct (Hp w o w' Em Ho). split; [by apply HR|by apply IH].
Qed.

Lemma always_call {A} R (m : M W A) : (∀ w o w', m w = (o, w') → o ≠ Pending → R w w') → always R (call m).
Proof. intros Hm w o w' Em Ho. split; [by eapply Hm|done]. Qed.

Lemma always_bind {A B} R (p : prog W A) (f : A → prog W B) :
  always R p → (∀ a, always R (f a)) → always R (pbind p f).
Proof.
  intros Hp Hf. induction p as [[a|e|]|X m k IH]; simpl in *; [apply Hf|done..|].
  intros w o w' Em Ho. destruct (Hp w o w' Em Ho). split; [done|by apply IH].
Qed.

Lemma always_try {A} R (p : prog W A) catches h : always R p → (∀ e, always R (h e)) → always R (ptry p catches h).
Proof.
  intros Hp Hh. induction p as [[a|e|]|X m k IH]; simpl in *; [done| |done|].
  - by destruct (catches e).
  - intros w o w' Em Ho. destruct (Hp w o w' Em Ho). split; [done|by apply IH].
Qed.

(** What was always so is so of the calls made. *)
Lemma always_exec {A} R (p q : prog W A) evs : always R p → exec p evs q → ∀ e, e ∈ evs → R e.1 e.2.
Proof.
  revert p. induction evs as [|[w w'] evs IH]; intros p Hp He e; [by intros ?%elem_of_nil|].
  destruct p as [o|B m k]; [done|]. simpl in *. destruct He as (Hw & Ho & He).
  destruct (Hp w (m w).1 w') as [HR Hk]; [by apply injective_projections|done|].
  intros [->|Hin]%elem_of_cons; [done|]. by eapply IH.
Qed.

(** Calls that respect [E] wherever [E] has led are a promise. *)
Lemma always_good (E R : W → W → Prop) `{!Transitive E} {A} (p : prog W A) w :
  (∀ w1 w2, E w w1 → R w1 w2 → E w1 w2) → always R p → good E p w.
Proof.
  intros HER Hp. revert w HER. induction p as [o|B m k IH]; intros w HER; simpl in *; [done|].
  intros w1 o w2 H1 Em Ho. destruct (Hp w1 o w2 Em Ho) as [HR Hk]. pose proof (HER _ _ H1 HR) as H2.
  split; [done|]. apply IH; [done|]. intros w3 w4 H3. apply HER. trans w1; [done|by trans w2].
Qed.

(** A coroutine that kept its promise so far keeps it. *)
Lemma good_step (E : W → W → Prop) {A B} (m : M W B) (k : outcome B → prog W A) w w1 o w2 :
  good E (Await m k) w → E w w1 → m w1 = (o, w2) → o ≠ Pending → E w1 w2 ∧ good E (k o) w2.
Proof. intros Hg. apply Hg. Qed.
End left.

(** *** On a part of the world *)
Lemma good_pzoom {W S A} (l : lens W S) `{!LensLaws l} (E : S → S → Prop) (p : prog S A) w :
  good E p (lget l w) → good (λ x x', E (lget l x) (lget l x')) (pzoom l p) w.
Proof.
  revert w. induction p as [o|B m k IH]; intros w; simpl; [done|]. intros Hp w1 o w2 Hev Em Ho.
  unfold zoomM in Em. destruct (m (lget l w1)) as [o' s] eqn:E1. injection Em as <- <-.
  destruct (Hp _ _ _ Hev E1 Ho) as [Hev2 Hk]. rewrite lget_lset. split; [done|]. apply IH. by rewrite lget_lset.
Qed.

Lemma always_pzoom {W S A} (l : lens W S) `{!LensLaws l} (R : S → S → Prop) (p : prog S A) :
  always R p → always (λ w w', R (lget l w) (lget l w') ∧ w' = lset l (lget l w') w) (pzoom l p).
Proof.
  induction p as [o|B m k IH]; simpl; [done|]. intros Hp w o w' Em Ho. unfold zoomM in Em.
  destruct (m (lget l w)) as [o1 s] eqn:E. injection Em as <- <-. rewrite lget_lset.
  destruct (Hp _ _ _ E Ho). split; [done|by apply IH].
Qed.

Lemma bounded_pzoom {W S A} (l : lens W S) n (p : prog S A) : bounded n p → bounded n (pzoom l p).
Proof.
  revert n. induction p as [o|B m k IH]; intros [|n]; simpl; [done..|]. intros Hk o Ho. by apply IH, Hk.
Qed.

Lemma returns_pzoom {W S A} (l : lens W S) (p : prog S A) : returns p → returns (pzoom l p).
Proof.
  induction p as [o|B m k IH]; simpl; [done|]. intros Hp w. unfold zoomM. specialize (Hp (lget l w)).
  destruct (m (lget l w)) as [o s]. simpl in *. destruct Hp. split; [done|by apply IH].
Qed.
