(* ===== verification/Text.v ===== *)
(** * Text: C strings and decimal numbers

    The parts of the C++ standard library the source uses on text:
    [std::string::c_str], [std::to_string], [std::stoi] and the string
    concatenation facts that make its key construction injective. *)

From stdpp Require Import base tactics option list strings pretty numbers.
From Stdlib Require Import Ascii.
From S2P Require Import Prelude.

Open Scope string_scope.
Open Scope Z_scope.

(** ** [c_str]

    What a C function that takes a [const char*] sees of a [std::string]: the
    bytes before the first NUL. *)
Fixpoint c_str (s : string) : string :=
  match s with
  | EmptyString => EmptyString
  | String c s' => if Ascii.eqb c Ascii.zero then EmptyString else String c (c_str s')
  end.

Fixpoint nul_free (s : string) : bool :=
  match s with
  | EmptyString => true
  | String c s' => negb (Ascii.eqb c Ascii.zero) && nul_free s'
  end.

Lemma c_str_nul_free s : nul_free s = true → c_str s = s.
Proof.
  induction s as [|c s IH]; [done|]. simpl.
  intros [Hc Hs]%andb_prop. rewrite (proj1 (negb_true_iff _) Hc). by rewrite IH.
Qed.

Lemma c_str_is_nul_free s : nul_free (c_str s) = true.
Proof.
  induction s as [|c s IH]; [done|]. simpl.
  destruct (Ascii.eqb c Ascii.zero) eqn:E; [done|]. simpl. by rewrite E, IH.
Qed.

(** Text of printable ASCII characters. *)
Fixpoint printable (s : string) : bool :=
  match s with
  | EmptyString => true
  | String c s' => ((32 <=? nat_of_ascii c) && (nat_of_ascii c <? 127))%nat%bool && printable s'
  end.

Lemma printable_nul_free s : printable s = true → nul_free s = true.
Proof.
  induction s as [|c s IH]; [done|]. simpl. intros [Hc Hs]%andb_prop. rewrite (IH Hs), andb_true_r.
  destruct (Ascii.eqb_spec c Ascii.zero) as [->|_]; [discriminate Hc|done].
Qed.

(** [std::string::empty]. *)
Definition str_empty (s : string) : bool := bool_decide (s = EmptyString).

(** ** [std::to_string(int)] and [std::stoi] *)

Definition to_string (z : Z) : string := pretty z.

Definition is_space (c : ascii) : bool :=
  let n := nat_of_ascii c in (Nat.eqb n 32 || ((9 <=? n) && (n <=? 13))%nat)%bool.
Definition is_digit (c : ascii) : bool :=
  let n := nat_of_ascii c in ((48 <=? n) && (n <=? 57))%nat%bool.
Definition digit_value (c : ascii) : Z := Z.of_nat (nat_of_ascii c) - 48.

Fixpoint skip_spaces (s : string) : string :=
  match s with
  | String c s' => if is_space c then skip_spaces s' else s
  | EmptyString => s
  end.

(** The leading decimal digits of [s], read after the value [acc]. *)
Fixpoint read_digits (acc : Z) (s : string) : Z :=
  match s with
  | String c s' => if is_digit c then read_digits (10 * acc + digit_value c) s' else acc
  | EmptyString => acc
  end.

Definition starts_with_digit (s : string) : bool :=
  match s with String c _ => is_digit c | EmptyString => false end.

(** [std::stoi(s)]: blanks, a sign, digits, anything after them ignored. *)
Definition stoi (s : string) : outcome Z :=
  let '(sign, body) :=
    match skip_spaces s with
    | String "-" s' => (-1, s')
    | String "+" s' => (1, s')
    | s' => (1, s')
    end in
  if starts_with_digit body then
    let v := sign * read_digits 0 body in
    if bool_decide (in_s 32 v) then Ret v else Throw (Exn out_of_range "stoi")
  else Throw (Exn invalid_argument "stoi").

(** ** Round trip of the decimal numbers *)

Lemma pretty_N_char_digit x :
  (x < 10)%N → is_digit (pretty_N_char x) = true ∧ digit_value (pretty_N_char x) = Z.of_N x.
Proof.
  intros Hx.
  assert (x = 0 ∨ x = 1 ∨ x = 2 ∨ x = 3 ∨ x = 4 ∨ x = 5 ∨ x = 6 ∨ x = 7 ∨ x = 8 ∨ x = 9)%N as H
    by lia.
  by destruct_or? H; subst.
Qed.

Lemma read_digits_pretty_go x s : read_digits 0 (pretty_N_go x s) = read_digits (Z.of_N x) s.
Proof.
  revert s. induction (N.lt_wf_0 x) as [x _ IH]; intros s.
  destruct (decide (x = 0)%N) as [->|Hx]; [done|].
  rewrite pretty_N_go_step by lia.
  rewrite IH by (apply N.div_lt; lia). simpl.
  destruct (pretty_N_char_digit (x mod 10)) as [-> ->]; [by apply N.mod_lt|].
  f_equal. rewrite N2Z.inj_div, N2Z.inj_mod. rewrite (Z.div_mod (Z.of_N x) 10) at 3 by done. lia.
Qed.

Lemma pretty_go_starts x s :
  starts_with_digit s = true → starts_with_digit (pretty_N_go x s) = true.
Proof.
  revert s. induction (N.lt_wf_0 x) as [x _ IH]; intros s Hs.
  destruct (decide (x = 0)%N) as [->|Hx]; [done|].
  rewrite pretty_N_go_step by lia.
  apply IH; [apply N.div_lt; lia|]. by apply pretty_N_char_digit, N.mod_lt.
Qed.

Lemma pretty_N_starts (x : N) : starts_with_digit (pretty x) = true.
Proof.
  unfold pretty, pretty_N. case_decide as Hx; [done|].
  rewrite pretty_N_go_step by lia.
  apply pretty_go_starts. by apply pretty_N_char_digit, N.mod_lt.
Qed.

Lemma read_digits_pretty_N (x : N) : read_digits 0 (pretty x) = Z.of_N x.
Proof.
  unfold pretty, pretty_N. case_decide as Hx; [by subst|]. by rewrite read_digits_pretty_go.
Qed.

Lemma digit_not_space c : is_digit c = true → is_space c = false.
Proof.
  unfold is_digit, is_space. intros [H1 H2]%andb_prop.
  apply Nat.leb_le in H1. apply Nat.leb_le in H2.
  destruct (Nat.eqb_spec (nat_of_ascii c) 32); [lia|].
  destruct (Nat.leb_spec (nat_of_ascii c) 13); [lia|]. by rewrite andb_false_r.
Qed.

(** What [stoi] reads from a text that starts with a digit, or with a minus
    sign and a digit. *)
Lemma stoi_unsigned s :
  starts_with_digit s = true →
  stoi s = let v := read_digits 0 s in
           if bool_decide (in_s 32 v) then Ret v else Throw (Exn out_of_range "stoi").
Proof.
  destruct s as [|c s]; [done|]. intros Hd. unfold stoi.
  cbn [skip_spaces]. rewrite (digit_not_space c Hd).
  assert (c ≠ "-"%char ∧ c ≠ "+"%char) as [H1 H2] by (split; intros ->; done).
  assert (match String c s with
          | String "-" s' => (-1, s')
          | String "+" s' => (1, s')
          | s' => (1, s')
          end = (1, String c s)) as ->.
  { destruct c as [[] [] [] [] [] [] [] []]; done. }
  by rewrite Hd, Z.mul_1_l.
Qed.

Lemma stoi_negative s :
  starts_with_digit s = true →
  stoi (String "-" s) = let v := - read_digits 0 s in
           if bool_decide (in_s 32 v) then Ret v else Throw (Exn out_of_range "stoi").
Proof.
  intros Hd. unfold stoi. simpl. rewrite Hd. by replace (-1 * read_digits 0 s) with (- read_digits 0 s) by lia.
Qed.

Lemma stoi_to_string z : in_s 32 z → stoi (to_string z) = Ret z.
Proof.
  intros Hz. unfold to_string. destruct z as [|p|p].
  - reflexivity.
  - change (pretty (Z.pos p)) with (pretty (N.pos p)).
    rewrite stoi_unsigned by apply pretty_N_starts. cbv zeta. rewrite read_digits_pretty_N.
    by rewrite bool_decide_eq_true_2.
  - change (pretty (Z.neg p)) with (String "-" (pretty (N.pos p))).
    rewrite stoi_negative by apply pretty_N_starts. cbv zeta. rewrite read_digits_pretty_N.
    by rewrite bool_decide_eq_true_2.
Qed.

Lemma to_string_inj : Inj (=) (=) to_string.
Proof. intros x y. apply (inj pretty). Qed.

(** ** Concatenation *)

Lemma str_app_inj_l p a b : (p +:+ a = p +:+ b → a = b)%string.
Proof. apply (inj (String.append p)). Qed.

Lemma str_app_assoc a b c : ((a +:+ b) +:+ c = a +:+ (b +:+ c))%string.
Proof.
  induction a as [|x a IH]; [done|].
  change (String x ((a +:+ b) +:+ c) = String x (a +:+ (b +:+ c))). by rewrite IH.
Qed.

Lemma str_app_char c a : (String c EmptyString +:+ a = String c a)%string.
Proof. done. Qed.

Lemma str_app_nil_r a : (a +:+ EmptyString = a)%string.
Proof. induction a as [|x a IH]; [done|]. change (String x (a +:+ EmptyString) = String x a). by rewrite IH. Qed.

Lemma str_length_app a b : String.length (a +:+ b) = (String.length a + String.length b)%nat.
Proof. induction a as [|x a IH]; [done|]. simpl. by rewrite <- IH. Qed.

Lemma nul_free_app a b : nul_free (a +:+ b) = nul_free a && nul_free b.
Proof. induction a as [|c a IH]; [done|]. simpl. by rewrite <- andb_assoc, <- IH. Qed.

Lemma str_empty_spec s : str_empty s = true ↔ s = EmptyString.
Proof. apply bool_decide_eq_true. Qed.

Lemma nul_free_digit_char x : nul_free (String (pretty_N_char x) EmptyString) = true.
Proof.
  unfold pretty_N_char. destruct x as [|p]; [done|].
  repeat (destruct p as [p|p|]; try done).
Qed.

Lemma nul_free_pretty_go x s : nul_free s = true → nul_free (pretty_N_go x s) = true.
Proof.
  revert s. induction (N.lt_wf_0 x) as [x _ IH]; intros s Hs.
  destruct (decide (x = 0)%N) as [->|Hx]; [done|].
  rewrite pretty_N_go_step by lia. apply IH; [apply N.div_lt; lia|].
  pose proof (nul_free_digit_char (x mod 10)) as Hd. simpl in *.
  rewrite andb_true_r in Hd. by rewrite Hd, Hs.
Qed.

(** A printed number holds no NUL. *)
Lemma nul_free_to_string z : nul_free (to_string z) = true.
Proof.
  assert (∀ x : N, nul_free (pretty x) = true) as HN.
  { intros x. unfold pretty, pretty_N. case_decide; [done|]. by apply nul_free_pretty_go. }
  unfold to_string. destruct z as [|p|p]; [done|exact (HN (N.pos p))|].
  change (pretty (Z.neg p)) with (String "-" (pretty (N.pos p))). simpl. apply HN.
Qed.
