(* ===== verification/Model.v ===== *)
(** * Model: the data the layers exchange

    The plain structs and enums of service/model/*.h, of db_error.h and
    redis_client.h, and of the utility interfaces. *)

From stdpp Require Import base tactics option strings numbers list.
From S2P Require Import Prelude Text.

Open Scope string_scope.
Open Scope Z_scope.

(** ** common_model.h *)

Inductive ErrorCode :=
| SUCCESS
| INTERNAL_ERROR
| INVALID_ARGUMENT
| UNAUTHORIZED
| USER_NOT_FOUND
| USER_ALREADY_EXISTS
| PASSWORD_INCORRECT
| VERIFICATION_CODE_EXPIRED
| VERIFICATION_CODE_MISMATCH.

#[export] Instance ErrorCode_eq_dec : EqDecision ErrorCode.
Proof. solve_decision. Defined.

(** [static_cast<std::int32_t>(code)]. *)
Definition ErrorCode_value (c : ErrorCode) : Z :=
  match c with
  | SUCCESS => 0
  | INTERNAL_ERROR => 1000
  | INVALID_ARGUMENT => 1001
  | UNAUTHORIZED => 1002
  | USER_NOT_FOUND => 2001
  | USER_ALREADY_EXISTS => 2002
  | PASSWORD_INCORRECT => 2003
  | VERIFICATION_CODE_EXPIRED => 3001
  | VERIFICATION_CODE_MISMATCH => 3002
  end.

Record CommonStatus := mkStatus { code : ErrorCode; message : string }.

#[export] Instance CommonStatus_eq_dec : EqDecision CommonStatus.
Proof. solve_decision. Defined.

Definition CommonStatus_default : CommonStatus := mkStatus SUCCESS EmptyString.
Definition Success : CommonStatus := mkStatus SUCCESS "操作成功".

Lemma ErrorCode_value_inj : Inj (=) (=) ErrorCode_value.
Proof. intros [] []; done. Qed.

(** ** auth_model.h *)

(** The enumerators of [CodeUsage]; [CodeUsage_unnamed] is a value that came
    through [static_cast<CodeUsage>] and has no enumerator. *)
Inductive CodeUsage :=
| UNKNOWN
| USER_REGISTER
| USER_LOGIN
| RESET_PASSWORD
| CodeUsage_unnamed (v : Z).

#[export] Instance CodeUsage_eq_dec : EqDecision CodeUsage.
Proof. solve_decision. Defined.

Definition CodeUsage_cast (v : Z) : CodeUsage :=
  if bool_decide (v = 0) then UNKNOWN
  else if bool_decide (v = 1) then USER_REGISTER
  else if bool_decide (v = 2) then USER_LOGIN
  else if bool_decide (v = 3) then RESET_PASSWORD
  else CodeUsage_unnamed v.

Definition CodeUsage_value (u : CodeUsage) : Z :=
  match u with
  | UNKNOWN => 0
  | USER_REGISTER => 1
  | USER_LOGIN => 2
  | RESET_PASSWORD => 3
  | CodeUsage_unnamed v => v
  end.

Record SendCodeRequest := mkSendCodeRequest {
  send_phone_number : string;
  send_usage : CodeUsage
}.
Record SendCodeResponse := mkSendCodeResponse { send_status : CommonStatus }.

Record LoginByPasswordRequest := mkLoginByPasswordRequest {
  lp_user_id : string;
  lp_password : string
}.
Record LoginByCodeRequest := mkLoginByCodeRequest {
  lc_phone_number : string;
  lc_code : string
}.
Record LoginResult := mkLoginResult {
  login_status : CommonStatus;
  login_token : string;
  login_user_id : string
}.

(** ** basic_user_model.h *)

Record RegisterRequest := mkRegisterRequest {
  reg_username : string;
  reg_password : string;
  reg_phone_number : string;
  reg_code : string
}.
Record RegisterResponse := mkRegisterResponse {
  reg_status : CommonStatus;
  reg_user_id : string
}.
Record GetUserInfoRequest := mkGetUserInfoRequest { info_req_user_id : string }.
Record GetUserInfoResponse := mkGetUserInfoResponse {
  info_status : CommonStatus;
  info_user_id : string;
  info_username : string;
  info_email : string;
  info_avatar_url : string;
  info_phone_number : string
}.
Record UpdateUserInfoRequest := mkUpdateUserInfoRequest {
  upd_username : string;
  upd_email : string;
  upd_avatar_url : string
}.
Record UpdateUserInfoResponse := mkUpdateUserInfoResponse { upd_status : CommonStatus }.

(** Aggregate initialisation with only the status given: the rest is the
    default (empty) value. *)
Definition login_failure (s : CommonStatus) : LoginResult :=
  mkLoginResult s EmptyString EmptyString.
Definition register_failure (s : CommonStatus) : RegisterResponse :=
  mkRegisterResponse s EmptyString.
Definition info_failure (s : CommonStatus) : GetUserInfoResponse :=
  mkGetUserInfoResponse s EmptyString EmptyString EmptyString EmptyString EmptyString.

(** ** db_error.h, redis_client.h, i_jwt_util.h *)

Inductive DbErrorType := NetworkError | SqlExecutionError.
Record DbError := mkDbError {
  db_error_type : DbErrorType;
  pg_error_message : string;
  sql_state : string
}.

Inductive RedisErrorType := SystemError | CommandError | ProtocolError.
Record RedisError := mkRedisError {
  redis_error_type : RedisErrorType;
  redis_message : string
}.

Inductive JwtError := TokenExpired | SignatureInvalid | FormatInvalid | InternalError.

#[export] Instance RedisErrorType_eq_dec : EqDecision RedisErrorType.
Proof. solve_decision. Defined.
#[export] Instance JwtError_eq_dec : EqDecision JwtError.
Proof. solve_decision. Defined.
