(* ===== verification/JsonLib.v ===== *)
(** * JsonLib: what the source uses of nlohmann::json

    The library is a parameter: a type of values, the operations the source
    calls, and, as laws, the documented behaviour of those operations.  Values
    are compared by [json_equiv] ("the same value up to its internal number
    representation"), because a parsed number is stored differently from the
    one that was dumped; every accessor respects it. *)

From stdpp Require Import base tactics option list strings gmap numbers countable.
From S2P Require Import Prelude Text.

Open Scope string_scope.
Open Scope Z_scope.

Class JsonLib := {
  json : Type;
  json_string : string → json;
  json_int : Z → json;
  json_array : list json → json;
  json_object : list (string * json) → json;
  (** [j.at(key)] *)
  json_at : json → string → outcome json;
  (** [j.contains(key)] *)
  json_contains : json → string → bool;
  (** [j[key]] on a constant value *)
  json_index : json → string → json;
  (** [j.empty()] *)
  json_empty : json → bool;
  (** [j.get<std::string>()], [j.get<int>()], [j.get<long long>()] *)
  json_get_string : json → outcome string;
  json_get_int : json → outcome Z;
  json_get_int64 : json → outcome Z;
  (** [j.dump()] *)
  json_dump : json → outcome string;
  (** [json::parse(text, nullptr, false)]; [None] is a discarded value *)
  json_parse : string → option json;
  json_equiv : Equiv json
}.
#[export] Existing Instance json_equiv.

(** Equal outcomes, up to [≡] on the values returned. *)
Inductive outcome_equiv {A} `{Equiv A} : outcome A → outcome A → Prop :=
| Ret_equiv a b : a ≡ b → outcome_equiv (Ret a) (Ret b)
| Throw_equiv e : outcome_equiv (Throw e) (Throw e)
| Pending_equiv : outcome_equiv Pending Pending.

Class JsonLaws `{JsonLib} : Prop := {
  json_equiv_equivalence :: Equivalence (≡@{json});
  json_at_proper k : Proper ((≡) ==> outcome_equiv) (fun j => json_at j k);
  json_contains_proper k : Proper ((≡@{json}) ==> (=)) (fun j => json_contains j k);
  json_index_proper k : Proper ((≡@{json}) ==> (≡)) (fun j => json_index j k);
  json_empty_proper : Proper ((≡@{json}) ==> (=)) json_empty;
  json_get_string_proper : Proper ((≡@{json}) ==> (=)) json_get_string;
  json_get_int_proper : Proper ((≡@{json}) ==> (=)) json_get_int;
  json_get_int64_proper : Proper ((≡@{json}) ==> (=)) json_get_int64;
  (** accessors report failure only with a json::exception *)
  json_at_outcome j k : (∃ v, json_at j k = Ret v) ∨ (∃ w, json_at j k = Throw (Exn json_exception w));
  json_get_string_outcome j :
    (∃ v, json_get_string j = Ret v) ∨ (∃ w, json_get_string j = Throw (Exn json_exception w));
  json_get_int_outcome j :
    (∃ v, json_get_int j = Ret v) ∨ (∃ w, json_get_int j = Throw (Exn json_exception w));
  json_get_int64_outcome j :
    (∃ v, json_get_int64 j = Ret v) ∨ (∃ w, json_get_int64 j = Throw (Exn json_exception w));
  (** an object built from pairs with different keys has those members *)
  json_at_object l k v : NoDup l.*1 → (k, v) ∈ l → json_at (json_object l) k = Ret v;
  json_contains_object l k v : NoDup l.*1 → (k, v) ∈ l → json_contains (json_object l) k = true;
  json_index_object l k v : NoDup l.*1 → (k, v) ∈ l → json_index (json_object l) k = v;
  json_get_string_string s : json_get_string (json_string s) = Ret s;
  json_get_int_int z : in_s 32 z → json_get_int (json_int z) = Ret z;
  json_get_int64_int z : in_s 64 z → json_get_int64 (json_int z) = Ret z;
  (** the documented table of empty(): false for every string *)
  json_empty_string s : json_empty (json_string s) = false;
  (** dump throws only std exceptions, and what it prints parses back *)
  json_dump_outcome j :
    (∃ s, json_dump j = Ret s) ∨ (∃ w, json_dump j = Throw (Exn json_exception w));
  json_parse_dump j s : json_dump j = Ret s → ∃ j', json_parse s = Some j' ∧ j' ≡ j
}.
#[export] Existing Instances json_at_proper json_contains_proper json_index_proper
  json_empty_proper json_get_string_proper json_get_int_proper json_get_int64_proper.
