(* ===== verification/JsonTree.v ===== *)
(** * JsonTree: a concrete JSON library

    A small implementation of the [JsonLib] interface that satisfies
    [JsonLaws]: the interface is consistent, and the closed examples of the
    development run on it.  Its text format is its own, not JSON's. *)

From stdpp Require Import base tactics option list strings gmap numbers countable.
From Stdlib Require Import Ascii.
From S2P Require Import Prelude Text JsonLib.

Open Scope string_scope.
Open Scope Z_scope.

(** A leaf is a string or a number; node 0 is an array, node 1 an object (keys
    and values alternate), node 2 is null. *)
Abbreviation tree := (gen_tree (string + Z)).

Fixpoint tree_find (k : string) (l : list tree) : option tree :=
  match l with
  | GenLeaf (inl k') :: v :: l' => if bool_decide (k = k') then Some v else tree_find k l'
  | _ => None
  end.

Definition tree_members (t : tree) : list tree :=
  match t with GenNode 1 l => l | _ => [] end.

Fixpoint tree_pairs (l : list (string * tree)) : list tree :=
  match l with
  | [] => []
  | (k, v) :: l' => GenLeaf (inl k) :: v :: tree_pairs l'
  end.

Fixpoint bits_of_pos (p : positive) : string :=
  match p with
  | xH => EmptyString
  | xO p => String "0"%char (bits_of_pos p)
  | xI p => String "1"%char (bits_of_pos p)
  end.

Fixpoint pos_of_bits (s : string) : positive :=
  match s with
  | EmptyString => xH
  | String c s' => if bool_decide (c = "1"%char) then xI (pos_of_bits s') else xO (pos_of_bits s')
  end.

Lemma pos_of_bits_of_pos p : pos_of_bits (bits_of_pos p) = p.
Proof. induction p as [p IH|p IH|]; simpl; by rewrite ?IH. Qed.

Definition tree_text (t : tree) : string := bits_of_pos (encode t).

Definition json_error {A} (s : string) : outcome A := Throw (Exn json_exception s).

#[export] Instance json_tree : JsonLib := {|
  json := tree;
  json_string s := GenLeaf (inl s);
  json_int z := GenLeaf (inr z);
  json_array l := GenNode 0 l;
  json_object l := GenNode 1 (tree_pairs l);
  json_at t k :=
    match tree_find k (tree_members t) with Some v => Ret v | None => json_error "key not found" end;
  json_contains t k := bool_decide (is_Some (tree_find k (tree_members t)));
  json_index t k := default (GenNode 2 []) (tree_find k (tree_members t));
  json_empty t := match t with GenLeaf _ => false | GenNode _ [] => true | _ => false end;
  json_get_string t := match t with GenLeaf (inl s) => Ret s | _ => json_error "type must be string" end;
  json_get_int t :=
    match t with GenLeaf (inr z) => Ret (wrap_s 32 z) | _ => json_error "type must be number" end;
  json_get_int64 t :=
    match t with GenLeaf (inr z) => Ret (wrap_s 64 z) | _ => json_error "type must be number" end;
  json_dump t := Ret (tree_text t);
  json_parse s := decode (pos_of_bits s);
  json_equiv := eq
|}.

Lemma tree_find_pairs l k v : NoDup l.*1 → (k, v) ∈ l → tree_find k (tree_pairs l) = Some v.
Proof.
  induction l as [|[k' v'] l IH]; simpl; intros Hnd Hin; [set_solver|].
  inversion Hnd as [|? ? Hk' Hnd']; subst.
  apply elem_of_cons in Hin as [[= -> ->]|Hin]; [by rewrite bool_decide_eq_true_2|].
  rewrite bool_decide_eq_false_2; [by apply IH|].
  intros ->. apply Hk', list_elem_of_fmap. by exists (k', v).
Qed.

#[export] Instance json_tree_laws : JsonLaws.
Proof.
  split; try (by intros ? ? ->); try (by intros ? ? ? ->); simpl; unfold json_error.
  - exact eq_equivalence.
  - intros k t t' ->. destruct (tree_find _ _); constructor. reflexivity.
  - intros j k. destruct (tree_find _ _); [left|right]; by eexists.
  - intros [[s|z]|n l]; [left|right|right]; by eexists.
  - intros [[s|z]|n l]; [right|left|right]; by eexists.
  - intros [[s|z]|n l]; [right|left|right]; by eexists.
  - intros l k v Hnd Hin. by rewrite (tree_find_pairs l k v).
  - intros l k v Hnd Hin. rewrite (tree_find_pairs l k v) by done. done.
  - intros l k v Hnd Hin. by rewrite (tree_find_pairs l k v).
  - done.
  - intros z Hz. by rewrite wrap_s_small.
  - intros z Hz. by rewrite wrap_s_small.
  - done.
  - intros j. left. by eexists.
  - intros j s [= <-]. exists j. unfold tree_text. by rewrite pos_of_bits_of_pos, decode_encode.
Qed.
