(* ===== verification/User.v ===== *)
(** * User: the domain entity (domain/user.h, domain/user.cc)

    The entity's state, its behaviour, and its conversion to and from the JSON
    the cache stores.  [ToString] is in Timestamp.v, with the calendar. *)

From stdpp Require Import base tactics option strings numbers list.
From S2P Require Import Prelude Text JsonLib JsonTree.

Open Scope string_scope.
Open Scope Z_scope.
Open Scope photon_scope.

(** ** Data *)

(** [enum class UserStatus : int16_t]: any 16-bit value can be stored. *)
Module UserStatus.
Definition NORMAL : Z := 0.
Definition FROZEN : Z := 1.
Definition INACTIVE : Z := 2.
Definition DELETED : Z := 99.
(** [static_cast<UserStatus>(v)] *)
Definition cast (v : Z) : Z := wrap_s 16 v.
End UserStatus.

(** [created_at_] and [deleted_at_] are system_clock time points: nanoseconds
    since the epoch in a 64-bit integer. *)
Record User := mkUser {
  id_ : string;
  phone_number_ : string;
  password_hash_ : string;
  salt_ : string;
  username_ : option string;
  email_ : option string;
  avatar_url_ : option string;
  status_ : Z;
  created_at_ : Z;
  deleted_at_ : option Z
}.

#[export] Instance User_eq_dec : EqDecision User.
Proof. solve_decision. Defined.

(** [std::optional<std::string>::value_or("")]. *)
Definition value_or_empty (o : option string) : string := default EmptyString o.

(** ** Reading *)

Definition GetId (u : User) : string := id_ u.
Definition GetPhoneNumber (u : User) : string := phone_number_ u.
Definition GetPasswordHash (u : User) : string := password_hash_ u.
Definition GetSalt (u : User) : string := salt_ u.
Definition GetUsername (u : User) : option string := username_ u.
Definition GetEmail (u : User) : option string := email_ u.
Definition GetAvatarUrl (u : User) : option string := avatar_url_ u.
Definition GetStatusValue (u : User) : Z := status_ u.

Definition IsDeleted (u : User) : bool :=
  bool_decide (is_Some (deleted_at_ u)) || bool_decide (status_ u = UserStatus.DELETED).

(** ** Behaviour *)

Definition Create (id phone pwd_hash salt : string) : User :=
  mkUser id phone pwd_hash salt None None None UserStatus.NORMAL 0 None.

Definition ChangePassword (new_hash new_salt : string) (u : User) : outcome User :=
  if str_empty new_hash || str_empty new_salt
  then Throw (Exn invalid_argument "Hash and salt cannot be empty")
  else Ret (mkUser (id_ u) (phone_number_ u) new_hash new_salt (username_ u) (email_ u)
              (avatar_url_ u) (status_ u) (created_at_ u) (deleted_at_ u)).

(** [if (x.has_value()) field = x;] *)
Definition assign_if_some {A} (x field : option A) : option A :=
  match x with Some _ => x | None => field end.

Definition UpdateProfile (username email avatar_url : option string) (u : User) : User :=
  mkUser (id_ u) (phone_number_ u) (password_hash_ u) (salt_ u)
    (assign_if_some username (username_ u)) (assign_if_some email (email_ u))
    (assign_if_some avatar_url (avatar_url_ u)) (status_ u) (created_at_ u) (deleted_at_ u).

(** [now] is the value of [std::chrono::system_clock::now()]. *)
Definition MarkAsDeleted (now : Z) (u : User) : User :=
  mkUser (id_ u) (phone_number_ u) (password_hash_ u) (salt_ u) (username_ u) (email_ u)
    (avatar_url_ u) UserStatus.DELETED (created_at_ u) (Some now).

(** ** JSON *)

Definition ns_per_s : Z := 1000000000.

(** [duration_cast<seconds>]: division that truncates towards zero. *)
Definition to_seconds (ns : Z) : Z := Z.quot ns ns_per_s.
(** [time_point(seconds(ts))]: conversion back to 64-bit nanoseconds. *)
Definition of_seconds (ts : Z) : Z := wrap_s 64 (ts * ns_per_s).

Section json.
Context `{JsonLib}.

Definition ToJson_members (u : User) : list (string * json) :=
  [ ("id", json_string (id_ u));
    ("phone", json_string (phone_number_ u));
    ("pwd_hash", json_string (password_hash_ u));
    ("salt", json_string (salt_ u));
    ("username", json_string (value_or_empty (username_ u)));
    ("email", json_string (value_or_empty (email_ u)));
    ("avatar", json_string (value_or_empty (avatar_url_ u)));
    ("status", json_int (status_ u));
    ("created_at", json_int (to_seconds (created_at_ u))) ].

Definition ToJson (u : User) : json := json_object (ToJson_members u).

(** [if (j.contains(k) && !j[k].empty()) field = j[k];] on an empty field. *)
Definition optional_member (j : json) (k : string) : outcome (option string) :=
  if json_contains j k && negb (json_empty (json_index j k))
  then let+ s := json_get_string (json_index j k) in Ret (Some s)
  else Ret None.

(** The body of the [try] block of FromJson. *)
Definition FromJson_try (j : json) : outcome User :=
  let+ j_id := json_at j "id" in
  let+ id := json_get_string j_id in
  let+ j_phone := json_at j "phone" in
  let+ phone := json_get_string j_phone in
  let+ j_hash := json_at j "pwd_hash" in
  let+ hash := json_get_string j_hash in
  let+ j_salt := json_at j "salt" in
  let+ salt := json_get_string j_salt in
  let+ j_status := json_at j "status" in
  let+ status := json_get_int j_status in
  let+ username := optional_member j "username" in
  let+ email := optional_member j "email" in
  let+ avatar := optional_member j "avatar" in
  let+ j_created := json_at j "created_at" in
  let+ ts := json_get_int64 j_created in
  Ret (mkUser id phone hash salt username email avatar (UserStatus.cast status)
         (of_seconds ts) None).

(** [catch (const json::exception&) { return std::nullopt; }] *)
Definition FromJson (j : json) : outcome (option User) :=
  match FromJson_try j with
  | Ret u => Ret (Some u)
  | Throw e => if is_class json_exception e then Ret None else Throw e
  | Pending => Pending
  end.
End json.

(** ** What a user looks like after a trip through the cache

    Absent optional fields come back as empty strings, the creation time is cut
    to whole seconds, the deletion time is not stored. *)
Definition cached (u : User) : User :=
  mkUser (id_ u) (phone_number_ u) (password_hash_ u) (salt_ u)
    (Some (value_or_empty (username_ u))) (Some (value_or_empty (email_ u)))
    (Some (value_or_empty (avatar_url_ u))) (status_ u)
    (to_seconds (created_at_ u) * ns_per_s) None.

(** The ranges of the C++ types. *)
Definition user_wf (u : User) : Prop := in_s 16 (status_ u) ∧ in_s 64 (created_at_ u).

#[export] Instance in_s_dec bits z : Decision (in_s bits z).
Proof. unfold in_s. apply _. Defined.
#[export] Instance user_wf_dec u : Decision (user_wf u).
Proof. unfold user_wf. apply _. Defined.

(** Users no caller of the read-only interface can tell apart to the second:
    the equivalence the cache respects. *)
#[export] Instance user_equiv : Equiv User := fun u v =>
  cached u = cached v ∧ deleted_at_ u = deleted_at_ v.

#[export] Instance user_equivalence : Equivalence (≡@{User}).
Proof.
  split.
  - by intros u.
  - by intros u v [? ?].
  - intros u v w [H1 H2] [H3 H4]. split; congruence.
Qed.

(** What the services read of a user is the same for equivalent users. *)
#[export] Instance GetId_proper : Proper ((≡) ==> (=)) GetId.
Proof. by intros u v [[= ] _]. Qed.
#[export] Instance GetPhoneNumber_proper : Proper ((≡) ==> (=)) GetPhoneNumber.
Proof. by intros u v [[= ] _]. Qed.
#[export] Instance GetPasswordHash_proper : Proper ((≡) ==> (=)) GetPasswordHash.
Proof. by intros u v [[= ] _]. Qed.
#[export] Instance GetSalt_proper : Proper ((≡) ==> (=)) GetSalt.
Proof. by intros u v [[= ] _]. Qed.
#[export] Instance username_proper : Proper ((≡) ==> (=)) (fun u => value_or_empty (GetUsername u)).
Proof. by intros u v [[= ] _]. Qed.
#[export] Instance email_proper : Proper ((≡) ==> (=)) (fun u => value_or_empty (GetEmail u)).
Proof. by intros u v [[= ] _]. Qed.
#[export] Instance avatar_proper : Proper ((≡) ==> (=)) (fun u => value_or_empty (GetAvatarUrl u)).
Proof. by intros u v [[= ] _]. Qed.
#[export] Instance GetStatusValue_proper : Proper ((≡) ==> (=)) GetStatusValue.
Proof. by intros u v [[= ] _]. Qed.
#[export] Instance IsDeleted_proper : Proper ((≡) ==> (=)) IsDeleted.
Proof.
  intros u v [Hc Hd]. unfold IsDeleted. rewrite Hd.
  by rewrite (f_equal status_ Hc : status_ u = status_ v).
Qed.

Lemma to_seconds_cut z : to_seconds (to_seconds z * ns_per_s) = to_seconds z.
Proof. unfold to_seconds. by rewrite Z.quot_mul. Qed.

Lemma to_seconds_range z : in_s 64 z → in_s 64 (to_seconds z) ∧ in_s 64 (to_seconds z * ns_per_s).
Proof.
  unfold in_s, to_seconds, ns_per_s. intros Hz. simpl (2 ^ _) in *.
  pose proof (Z.quot_rem' z 1000000000) as Hq.
  pose proof (Z.rem_bound_abs z 1000000000) as Hr.
  destruct (Z.le_gt_cases 0 z) as [Hp|Hn].
  - pose proof (Z.quot_pos z 1000000000). pose proof (Z.rem_nonneg z 1000000000). lia.
  - pose proof (Z.rem_nonpos z 1000000000). lia.
Qed.

Lemma of_to_seconds z : in_s 64 z → of_seconds (to_seconds z) = to_seconds z * ns_per_s.
Proof. intros Hz. unfold of_seconds. apply wrap_s_small; [done|]. by apply to_seconds_range. Qed.

Lemma cached_idemp u : cached (cached u) = cached u.
Proof. unfold cached. simpl. by rewrite to_seconds_cut. Qed.

Lemma cached_equiv u : deleted_at_ u = None → cached u ≡ u.
Proof. intros Hd. split; [apply cached_idemp|by rewrite Hd]. Qed.

#[export] Hint Resolve to_seconds_range cached_equiv : photon.
#[export] Hint Rewrite cached_idemp to_seconds_cut : photon_rw.

(** Every operation of the entity keeps it within its types. *)
Lemma Create_wf id phone h s : user_wf (Create id phone h s).
Proof. by apply (bool_decide_unpack _). Qed.

Lemma UpdateProfile_wf a b c u : user_wf u → user_wf (UpdateProfile a b c u).
Proof. done. Qed.

Lemma ChangePassword_wf h s u u' : ChangePassword h s u = Ret u' → user_wf u → user_wf u'.
Proof. unfold ChangePassword. case_match; [done|]. by intros [= <-]. Qed.

Lemma MarkAsDeleted_wf now u : user_wf u → user_wf (MarkAsDeleted now u).
Proof. by intros [_ ?]. Qed.

#[export] Hint Resolve Create_wf UpdateProfile_wf MarkAsDeleted_wf : photon.

(** ** JSON lemmas *)

Section json_lemmas.
Context `{JsonLaws}.

Lemma ToJson_keys u : NoDup (ToJson_members u).*1.
Proof. apply (bool_decide_unpack _). by vm_compute. Qed.

Ltac find_member :=
  unfold ToJson_members; repeat first [apply list_elem_of_here | apply list_elem_of_further].

Lemma ToJson_at u k v : (k, v) ∈ ToJson_members u → json_at (ToJson u) k = Ret v.
Proof. apply json_at_object, ToJson_keys. Qed.

Lemma ToJson_optional u k s :
  (k, json_string s) ∈ ToJson_members u → optional_member (ToJson u) k = Ret (Some s).
Proof.
  intros Hin. unfold optional_member, ToJson.
  rewrite (json_contains_object _ k (json_string s)) by (done || apply ToJson_keys).
  rewrite (json_index_object _ k (json_string s)) by (done || apply ToJson_keys).
  by rewrite json_empty_string, json_get_string_string.
Qed.

(** Reading back what [ToJson] wrote. *)
Lemma FromJson_ToJson_eq u : user_wf u → FromJson (ToJson u) = Ret (Some (cached u)).
Proof.
  intros [Hs Hc]. unfold FromJson.
  assert (FromJson_try (ToJson u) = Ret (cached u)) as ->; [|done].
  unfold FromJson_try. unfold in_s in Hs. simpl (2 ^ _) in Hs.
  repeat (erewrite ToJson_at by find_member; simpl;
          rewrite ?json_get_string_string; simpl).
  rewrite json_get_int_int by (unfold in_s; simpl (2 ^ _); lia). simpl.
  repeat (erewrite ToJson_optional by find_member; simpl).
  rewrite json_get_int64_int by (by apply to_seconds_range). simpl.
  unfold cached. f_equal. f_equal; [|by apply of_to_seconds].
  by apply wrap_s_small.
Qed.

Lemma obind_at_proper {B} (F G : json → outcome B) j j' k :
  j ≡ j' → (∀ x y, x ≡ y → F x = G y) → obind (json_at j k) F = obind (json_at j' k) G.
Proof. intros Hj HF. destruct (json_at_proper k _ _ Hj); simpl; auto. Qed.

#[export] Instance optional_member_proper k : Proper ((≡) ==> (=)) (fun j => optional_member j k).
Proof.
  intros j j' Hj. unfold optional_member.
  rewrite (json_contains_proper k _ _ Hj).
  rewrite (json_empty_proper _ _ (json_index_proper k _ _ Hj)).
  by rewrite (json_get_string_proper _ _ (json_index_proper k _ _ Hj)).
Qed.

(** Reading does not see how the library stores a value. *)
#[export] Instance FromJson_proper : Proper ((≡) ==> (=)) FromJson.
Proof.
  intros j j' Hj. unfold FromJson. assert (FromJson_try j = FromJson_try j') as ->; [|done].
  unfold FromJson_try. 
  rewrite (optional_member_proper "username" _ _ Hj), (optional_member_proper "email" _ _ Hj),
    (optional_member_proper "avatar" _ _ Hj).
  repeat first
    [ apply obind_at_proper; [done|]; intros ? ? ?;
      first [ erewrite json_get_string_proper by eassumption
            | erewrite json_get_int_proper by eassumption
            | erewrite json_get_int64_proper by eassumption ];
      match goal with |- obind ?m _ = _ => destruct m end; simpl; [|done..]
    | match goal with |- obind (optional_member j' ?k) _ = _ => destruct (optional_member j' k) end;
      simpl; [|done..] ].
  done.
Qed.

(** The outcome of [FromJson]: a user or nothing, never an exception. *)
Lemma optional_member_outcome j k :
  (∃ v, optional_member j k = Ret v) ∨ (∃ w, optional_member j k = Throw (Exn json_exception w)).
Proof.
  unfold optional_member. case_match; [|eauto].
  destruct (json_get_string_outcome (json_index j k)) as [[v ->]|[w ->]]; simpl; eauto.
Qed.

Lemma FromJson_try_outcome j :
  (∃ u, FromJson_try j = Ret u) ∨ (∃ w, FromJson_try j = Throw (Exn json_exception w)).
Proof.
  unfold FromJson_try.
  repeat match goal with
  | |- context [obind (json_at ?j ?k) _] =>
      destruct (json_at_outcome j k) as [[? ->]|[? ->]]; simpl; [|by eauto]
  | |- context [obind (json_get_string ?j) _] =>
      destruct (json_get_string_outcome j) as [[? ->]|[? ->]]; simpl; [|by eauto]
  | |- context [obind (json_get_int ?j) _] =>
      destruct (json_get_int_outcome j) as [[? ->]|[? ->]]; simpl; [|by eauto]
  | |- context [obind (json_get_int64 ?j) _] =>
      destruct (json_get_int64_outcome j) as [[? ->]|[? ->]]; simpl; [|by eauto]
  | |- context [obind (optional_member ?j ?k) _] =>
      destruct (optional_member_outcome j k) as [[? ->]|[? ->]]; simpl; [|by eauto]
  end.
  by eauto.
Qed.

(** What a successful read tells: the mandatory members were there, and the
    fields are in range. *)
Lemma FromJson_try_members j u :
  FromJson_try j = Ret u →
  user_wf u ∧ deleted_at_ u = None
  ∧ (∀ k, k ∈ ["id"; "phone"; "pwd_hash"; "salt"; "status"; "created_at"] →
     ∃ v, json_at j k = Ret v).
Proof.
  unfold FromJson_try. intros Hu.
  repeat match type of Hu with
  | obind ?m _ = Ret _ => let E := fresh "E" in destruct m eqn:E; simpl in Hu; [|done..]
  end.
  injection Hu as <-. split; [|split; [done|]].
  - by split; apply wrap_s_range.
  - intros k Hk. repeat (apply elem_of_cons in Hk as [->|Hk]; [by eexists|]). by apply elem_of_nil in Hk.
Qed.
End json_lemmas.

(** ** Properties *)

Section properties.
Context `{JsonLaws}.

(** C36: a user written to the cache and read back is the user: [ToJson], [dump],
    [parse] and [FromJson] compose to [cached], which keeps every field the
    services read (the deletion time apart, which no query loads). *)
Theorem FromJson_parse_dump_ToJson (u : User) (text : string)
    (Hwf : user_wf u) (Hdump : json_dump (ToJson u) = Ret text) :
  ∃ j, json_parse text = Some j ∧ FromJson j = Ret (Some (cached u))
       ∧ (deleted_at_ u = None → cached u ≡ u).
Proof.
  destruct (json_parse_dump _ _ Hdump) as (j & Hj & He). exists j. split; [done|].
  rewrite (FromJson_proper _ _ He), FromJson_ToJson_eq by done. auto with photon.
Qed.

(** [FromJson] never throws, whatever the JSON value; it gives a user
    exactly when every mandatory member is there with its type, and what it
    gives is within the ranges of the C++ types and not marked as deleted by a
    time. *)
Theorem FromJson_total (j : json) :
  FromJson j = Ret None ∧ (∃ w, FromJson_try j = Throw (Exn json_exception w))
  ∨ ∃ u, FromJson j = Ret (Some u) ∧ FromJson_try j = Ret u ∧ user_wf u ∧ deleted_at_ u = None
         ∧ (∀ k, k ∈ ["id"; "phone"; "pwd_hash"; "salt"; "status"; "created_at"] →
            ∃ v, json_at j k = Ret v).
Proof.
  unfold FromJson. destruct (FromJson_try_outcome j) as [[u Hu]|[w Hw]].
  - right. exists u. rewrite Hu. destruct (FromJson_try_members j u Hu) as (? & ? & ?). eauto 10.
  - left. rewrite Hw. split; [done|by eexists].
Qed.
End properties.

Definition example_user : User :=
  mkUser "u1" "13800000000" "hash" "salt" (Some "neo") None None UserStatus.NORMAL 1500000000 None.

Lemma FromJson_parse_dump_ToJson_witness :
  ∃ j : tree, json_parse (tree_text (ToJson example_user)) = Some j
    ∧ FromJson j = Ret (Some (cached example_user))
    ∧ (deleted_at_ example_user = None → cached example_user ≡ example_user).
Proof.
  apply (@FromJson_parse_dump_ToJson json_tree json_tree_laws).
  - apply (bool_decide_unpack _). reflexivity.
  - reflexivity.
Defined.

Lemma FromJson_total_witness :
  let j := json_array [] : tree in
  FromJson j = Ret None ∧ (∃ w, FromJson_try j = Throw (Exn json_exception w))
  ∨ ∃ u, FromJson j = Ret (Some u) ∧ FromJson_try j = Ret u ∧ user_wf u ∧ deleted_at_ u = None
         ∧ (∀ k, k ∈ ["id"; "phone"; "pwd_hash"; "salt"; "status"; "created_at"] →
            ∃ v, json_at j k = Ret v).
Proof. apply (@FromJson_total json_tree json_tree_laws). Defined.
