(* ===== verification/Calendar.v ===== *)
(** * Calendar: the C library's time functions

    [strptime] and [strftime] for the one format the source uses, [timegm] and
    [gmtime] on the proleptic Gregorian calendar, and the proof that they are
    inverse to each other on valid dates. *)

From stdpp Require Import base tactics option strings numbers list.
From Stdlib Require Import Ascii.
From S2P Require Import Prelude Text.

Open Scope string_scope.
Open Scope Z_scope.

(** [struct tm], the six fields the format fills. *)
Record tm := mkTm {
  tm_sec : Z;
  tm_min : Z;
  tm_hour : Z;
  tm_mday : Z;   (* 1..31 *)
  tm_mon : Z;    (* 0..11 *)
  tm_year : Z    (* years since 1900 *)
}.

Definition tm_zero : tm := mkTm 0 0 0 0 0 0.

(** ** strptime

    The conversion specifications of the format, with the range and the largest
    number of digits the C library gives each of them. *)
Inductive tm_field := F_year | F_mon | F_mday | F_hour | F_min | F_sec.

Inductive format_item := Conv (f : tm_field) | Space | Literal (c : ascii).

(** The format string %Y-%m-%d %H:%M:%S. *)
Definition timestamp_format : list format_item :=
  [ Conv F_year; Literal "-"; Conv F_mon; Literal "-"; Conv F_mday; Space;
    Conv F_hour; Literal ":"; Conv F_min; Literal ":"; Conv F_sec ].

Definition field_range (f : tm_field) : Z * Z * nat :=
  match f with
  | F_year => (0, 9999, 4%nat)
  | F_mon => (1, 12, 2%nat)
  | F_mday => (1, 31, 2%nat)
  | F_hour => (0, 23, 2%nat)
  | F_min => (0, 59, 2%nat)
  | F_sec => (0, 61, 2%nat)
  end.

Definition set_field (f : tm_field) (v : Z) (t : tm) : tm :=
  match f with
  | F_year => mkTm (tm_sec t) (tm_min t) (tm_hour t) (tm_mday t) (tm_mon t) (v - 1900)
  | F_mon => mkTm (tm_sec t) (tm_min t) (tm_hour t) (tm_mday t) (v - 1) (tm_year t)
  | F_mday => mkTm (tm_sec t) (tm_min t) (tm_hour t) v (tm_mon t) (tm_year t)
  | F_hour => mkTm (tm_sec t) (tm_min t) v (tm_mday t) (tm_mon t) (tm_year t)
  | F_min => mkTm (tm_sec t) v (tm_hour t) (tm_mday t) (tm_mon t) (tm_year t)
  | F_sec => mkTm v (tm_min t) (tm_hour t) (tm_mday t) (tm_mon t) (tm_year t)
  end.

(** Up to [n] more digits, while the value can still grow within [hi]. *)
Fixpoint more_digits (n : nat) (hi v : Z) (s : string) : Z * string :=
  match n, s with
  | S n', String c s' =>
      if (10 * v <=? hi) && is_digit c then more_digits n' hi (10 * v + digit_value c) s'
      else (v, s)
  | _, _ => (v, s)
  end.

Definition get_number (lo hi : Z) (n : nat) (s : string) : option (Z * string) :=
  match skip_spaces s with
  | String c s' =>
      if is_digit c then
        let '(v, rest) := more_digits (n - 1) hi (digit_value c) s' in
        if (lo <=? v) && (v <=? hi) then Some (v, rest) else None
      else None
  | EmptyString => None
  end.

(** The [tm] read and the rest of the input; [None] is the null pointer. *)
Fixpoint strptime (s : string) (fmt : list format_item) (t : tm) : option (tm * string) :=
  match fmt with
  | [] => Some (t, s)
  | Conv f :: fmt' =>
      let '(lo, hi, n) := field_range f in
      match get_number lo hi n s with
      | Some (v, s') => strptime s' fmt' (set_field f v t)
      | None => None
      end
  | Space :: fmt' => strptime (skip_spaces s) fmt' t
  | Literal c :: fmt' =>
      match s with
      | String c' s' => if Ascii.eqb c c' then strptime s' fmt' t else None
      | EmptyString => None
      end
  end.

(** ** Days and dates

    Years are counted from March, so that the leap day is the last one. *)
Definition days_from_civil (y m d : Z) : Z :=
  let y' := if m <=? 2 then y - 1 else y in
  let era := y' / 400 in
  let yoe := y' mod 400 in
  let mp := if m <=? 2 then m + 9 else m - 3 in
  let doy := (153 * mp + 2) / 5 + d - 1 in
  let doe := yoe * 365 + yoe / 4 - yoe / 100 + doy in
  era * 146097 + doe - 719468.

Definition civil_from_days (z : Z) : Z * Z * Z :=
  let z' := z + 719468 in
  let era := z' / 146097 in
  let doe := z' mod 146097 in
  let yoe := (doe - doe / 1460 + doe / 36524 - doe / 146096) / 365 in
  let doy := doe - (365 * yoe + yoe / 4 - yoe / 100) in
  let mp := (5 * doy + 2) / 153 in
  let d := doy - (153 * mp + 2) / 5 + 1 in
  let m := if mp <? 10 then mp + 3 else mp - 9 in
  let y := yoe + era * 400 in
  (if m <=? 2 then y + 1 else y, m, d).

Definition timegm (t : tm) : Z :=
  ((days_from_civil (tm_year t + 1900) (tm_mon t + 1) 1 + tm_mday t - 1) * 24 + tm_hour t) * 3600
  + tm_min t * 60 + tm_sec t.

Definition gmtime (t : Z) : tm :=
  let '(y, m, d) := civil_from_days (t / 86400) in
  let s := t mod 86400 in
  mkTm (s mod 60) (s / 60 mod 60) (s / 3600) d (m - 1) (y - 1900).

(** ** strftime *)

Definition digit_char (d : Z) : ascii := ascii_of_nat (Z.to_nat (48 + d)).

Definition pad2 (v : Z) : string :=
  String (digit_char (v / 10 mod 10)) (String (digit_char (v mod 10)) EmptyString).
Definition pad4 (v : Z) : string :=
  String (digit_char (v / 1000 mod 10)) (String (digit_char (v / 100 mod 10)) (pad2 v)).

Definition strftime (t : tm) : string :=
  pad4 (tm_year t + 1900) +:+ "-" +:+ pad2 (tm_mon t + 1) +:+ "-" +:+ pad2 (tm_mday t) +:+ " "
  +:+ pad2 (tm_hour t) +:+ ":" +:+ pad2 (tm_min t) +:+ ":" +:+ pad2 (tm_sec t).

(** ** Valid dates *)

Definition is_leap (y : Z) : bool :=
  (y mod 4 =? 0) && (negb (y mod 100 =? 0) || (y mod 400 =? 0)).

Definition days_in_month (y m : Z) : Z :=
  if m =? 2 then (if is_leap y then 29 else 28)
  else if (m =? 4) || (m =? 6) || (m =? 9) || (m =? 11) then 30 else 31.

Definition valid_tm (t : tm) : Prop :=
  let y := tm_year t + 1900 in let m := tm_mon t + 1 in
  1000 ≤ y ≤ 9999 ∧ 1 ≤ m ≤ 12 ∧ 1 ≤ tm_mday t ≤ days_in_month y m
  ∧ 0 ≤ tm_hour t ≤ 23 ∧ 0 ≤ tm_min t ≤ 59 ∧ 0 ≤ tm_sec t ≤ 59.

#[export] Instance valid_tm_dec t : Decision (valid_tm t).
Proof. unfold valid_tm. apply _. Defined.

(** *** The conversion inside one 400-year era *)

Definition era_month (mp : Z) : Z := if mp <? 10 then mp + 3 else mp - 9.

Lemma era_month_of m :
  1 ≤ m ≤ 12 → let mp := if m <=? 2 then m + 9 else m - 3 in 0 ≤ mp < 12 ∧ era_month mp = m.
Proof.
  intros Hm mp. unfold era_month. subst mp.
  destruct (Z.leb_spec m 2); [destruct (Z.ltb_spec (m + 9) 10)|destruct (Z.ltb_spec (m - 3) 10)]; lia.
Qed.

(** The day of the year determines the month. *)
Lemma era_month_recover mp k :
  0 ≤ mp < 12 → 0 ≤ k → k < (153 * (mp + 1) + 2) / 5 - (153 * mp + 2) / 5 →
  (5 * ((153 * mp + 2) / 5 + k) + 2) / 153 = mp.
Proof. intros. Z.div_mod_to_equations. lia. Qed.

(** The day of the era determines the year; the 366th day exists in leap years. *)
Lemma era_year_recover yoe doy :
  0 ≤ yoe < 400 → 0 ≤ doy ≤ 365 →
  (doy = 365 → (yoe + 1) mod 4 = 0 ∧ ((yoe + 1) mod 100 ≠ 0 ∨ yoe + 1 = 400)) →
  let doe := yoe * 365 + yoe / 4 - yoe / 100 + doy in
  0 ≤ doe < 146097 ∧ (doe - doe / 1460 + doe / 36524 - doe / 146096) / 365 = yoe.
Proof. intros. subst doe. Z.div_mod_to_equations. lia. Qed.

Lemma days_in_month_range y m : 28 ≤ days_in_month y m ≤ 31.
Proof. unfold days_in_month. repeat case_match; lia. Qed.

(** A valid day of the month is a valid day of the March-based year. *)
Lemma era_day_bounds yoe mp d y :
  0 ≤ mp < 12 → 1 ≤ d ≤ days_in_month y (era_month mp) →
  (era_month mp = 2 → yoe = (y - 1) mod 400) →
  let doy := (153 * mp + 2) / 5 + d - 1 in
  d - 1 < (153 * (mp + 1) + 2) / 5 - (153 * mp + 2) / 5 ∧ 0 ≤ doy ≤ 365
  ∧ (doy = 365 → (yoe + 1) mod 4 = 0 ∧ ((yoe + 1) mod 100 ≠ 0 ∨ yoe + 1 = 400)).
Proof.
  intros Hmp Hd Hy doy. subst doy.
  assert (mp = 0 ∨ mp = 1 ∨ mp = 2 ∨ mp = 3 ∨ mp = 4 ∨ mp = 5 ∨ mp = 6 ∨ mp = 7 ∨ mp = 8
          ∨ mp = 9 ∨ mp = 10 ∨ mp = 11) as Hc by lia.
  destruct_or? Hc; subst mp;
    cbv [era_month Z.ltb Z.compare Pos.compare Pos.compare_cont] in Hd, Hy; simpl in Hd, Hy;
    unfold days_in_month in Hd; cbv [Z.eqb Pos.eqb orb Z.add] in Hd; simpl in Hd.
  12: {
    rewrite (Hy eq_refl). unfold is_leap in Hd.
    change ((153 * (11 + 1) + 2) / 5) with 367. change ((153 * 11 + 2) / 5) with 337.
    destruct (Z.eqb_spec (y mod 4) 0), (Z.eqb_spec (y mod 100) 0), (Z.eqb_spec (y mod 400) 0);
      simpl in Hd; (split; [lia|split; [lia|]]; intros ?; Z.div_mod_to_equations; lia). }
  all: split; [|split]; [..|intros ?]; Z.div_mod_to_equations; lia.
Qed.

Lemma civil_from_days_from_civil y m d :
  1 ≤ m ≤ 12 → 1 ≤ d ≤ days_in_month y m → civil_from_days (days_from_civil y m d) = (y, m, d).
Proof.
  intros Hm Hd. unfold days_from_civil, civil_from_days. cbv zeta.
  set (y' := if m <=? 2 then y - 1 else y).
  destruct (era_month_of m Hm) as [Hmp Em]. set (mp := if m <=? 2 then m + 9 else m - 3) in *.
  pose proof (Z.mod_pos_bound y' 400 ltac:(lia)) as Hyoe.
  destruct (era_day_bounds (y' mod 400) mp d y) as (Hk & Hdoy & Hleap); [done|by rewrite Em|..].
  { rewrite Em. intros ->. done. }
  destruct (era_year_recover _ _ Hyoe Hdoy Hleap) as [Hdoe Hyr].
  set (yoe := y' mod 400) in *.
  replace (yoe * 365 + yoe / 4 - yoe / 100 + ((153 * mp + 2) / 5 + d - 1))
    with (yoe * 365 + yoe / 4 - yoe / 100 + (153 * mp + 2) / 5 + d - 1) in * by lia.
  set (doe := yoe * 365 + yoe / 4 - yoe / 100 + (153 * mp + 2) / 5 + d - 1) in *.
  replace (y' / 400 * 146097 + doe - 719468 + 719468) with (doe + y' / 400 * 146097) by lia.
  rewrite Z.div_add, Z.mod_add, (Z.div_small doe), (Z.mod_small doe) by lia.
  rewrite Hyr.
  replace (doe - (365 * yoe + yoe / 4 - yoe / 100)) with ((153 * mp + 2) / 5 + (d - 1))
    by (unfold doe; lia).
  rewrite era_month_recover by lia. fold (era_month mp). rewrite Em.
  pose proof (Z.div_mod y' 400 ltac:(lia)) as Hdm. fold yoe in Hdm.
  f_equal; [f_equal|lia]. unfold y' in *. destruct (m <=? 2); lia.
Qed.

(** ** Round trips *)

Lemma gmtime_timegm t : valid_tm t → gmtime (timegm t) = t.
Proof.
  intros (Hy & Hm & Hd & Hh & Hmi & Hs). unfold gmtime, timegm.
  set (days := days_from_civil (tm_year t + 1900) (tm_mon t + 1) 1).
  assert (days + tm_mday t - 1 = days_from_civil (tm_year t + 1900) (tm_mon t + 1) (tm_mday t)) as Hdays.
  { subst days. unfold days_from_civil. cbv zeta. lia. }
  set (sod := tm_hour t * 3600 + tm_min t * 60 + tm_sec t).
  replace (((days + tm_mday t - 1) * 24 + tm_hour t) * 3600 + tm_min t * 60 + tm_sec t)
    with (sod + (days + tm_mday t - 1) * 86400) by (subst sod; lia).
  rewrite Z.div_add, Z.mod_add, (Z.div_small sod), (Z.mod_small sod) by (subst sod; lia).
  rewrite Z.add_0_l, Hdays, civil_from_days_from_civil by done. cbv zeta.
  destruct t as [s mi h d mo y]; simpl in *. subst sod.
  f_equal; Z.div_mod_to_equations; lia.
Qed.

Lemma digit_char_spec d :
  0 ≤ d < 10 → is_digit (digit_char d) = true ∧ digit_value (digit_char d) = d
              ∧ is_space (digit_char d) = false.
Proof.
  intros Hd.
  assert (d = 0 ∨ d = 1 ∨ d = 2 ∨ d = 3 ∨ d = 4 ∨ d = 5 ∨ d = 6 ∨ d = 7 ∨ d = 8 ∨ d = 9) as Hc by lia.
  by destruct_or? Hc; subst.
Qed.

Lemma skip_spaces_cons c s :
  skip_spaces (String c s) = if is_space c then skip_spaces s else String c s.
Proof. done. Qed.

Lemma pad2_app v s :
  pad2 v +:+ s = String (digit_char (v / 10 mod 10)) (String (digit_char (v mod 10)) s).
Proof. done. Qed.

Lemma pad4_app v s :
  pad4 v +:+ s = String (digit_char (v / 1000 mod 10)) (String (digit_char (v / 100 mod 10)) (pad2 v +:+ s)).
Proof. done. Qed.

Lemma get_number_cons lo hi n c s :
  is_space c = false → is_digit c = true →
  get_number lo hi n (String c s) =
    let '(v, rest) := more_digits (n - 1) hi (digit_value c) s in
    if (lo <=? v) && (v <=? hi) then Some (v, rest) else None.
Proof. intros Hs Hd. unfold get_number. by rewrite skip_spaces_cons, Hs, Hd. Qed.

Lemma more_digits_cons n hi v c s :
  10 * v ≤ hi → is_digit c = true →
  more_digits (S n) hi v (String c s) = more_digits n hi (10 * v + digit_value c) s.
Proof. intros Hv Hd. simpl. by rewrite Hd, (proj2 (Z.leb_le _ _) Hv). Qed.

Lemma get_number_pad2 lo hi v s :
  0 ≤ lo ≤ v → v ≤ hi → hi < 100 → get_number lo hi 2 (pad2 v +:+ s) = Some (v, s).
Proof.
  intros Hlo Hhi H100. rewrite pad2_app.
  destruct (digit_char_spec (v / 10 mod 10)) as (D1 & V1 & S1); [by apply Z.mod_pos_bound|].
  destruct (digit_char_spec (v mod 10)) as (D2 & V2 & S2); [by apply Z.mod_pos_bound|].
  rewrite get_number_cons, V1 by done. change (2 - 1)%nat with 1%nat.
  rewrite (Z.mod_small (v / 10) 10) by (Z.div_mod_to_equations; lia).
  rewrite more_digits_cons, V2 by (done || (Z.div_mod_to_equations; lia)).
  replace (10 * (v / 10) + v mod 10) with v by (Z.div_mod_to_equations; lia). cbn [more_digits].
  by rewrite (proj2 (Z.leb_le lo v)), (proj2 (Z.leb_le v hi)) by lia.
Qed.

Lemma get_number_pad4 v s :
  0 ≤ v ≤ 9999 → get_number 0 9999 4 (pad4 v +:+ s) = Some (v, s).
Proof.
  intros Hv. rewrite pad4_app, pad2_app.
  destruct (digit_char_spec (v / 1000 mod 10)) as (D1 & V1 & S1); [by apply Z.mod_pos_bound|].
  destruct (digit_char_spec (v / 100 mod 10)) as (D2 & V2 & S2); [by apply Z.mod_pos_bound|].
  destruct (digit_char_spec (v / 10 mod 10)) as (D3 & V3 & S3); [by apply Z.mod_pos_bound|].
  destruct (digit_char_spec (v mod 10)) as (D4 & V4 & S4); [by apply Z.mod_pos_bound|].
  rewrite get_number_cons, V1 by done. change (4 - 1)%nat with 3%nat.
  rewrite !more_digits_cons, V2, V3, V4
    by (done || rewrite ?V2, ?V3; Z.div_mod_to_equations; lia).
  cbn [more_digits].
  replace (10 * (10 * (10 * (v / 1000 mod 10) + v / 100 mod 10) + v / 10 mod 10) + v mod 10) with v
    by (Z.div_mod_to_equations; lia).
  by rewrite (proj2 (Z.leb_le 0 v)), (proj2 (Z.leb_le v 9999)) by lia.
Qed.

Lemma skip_spaces_pad2 v s : skip_spaces (pad2 v +:+ s) = pad2 v +:+ s.
Proof.
  rewrite pad2_app, skip_spaces_cons.
  by destruct (digit_char_spec (v / 10 mod 10)) as (_ & _ & ->); [apply Z.mod_pos_bound|].
Qed.

Lemma strptime_conv f fmt s t v s' lo hi n :
  field_range f = (lo, hi, n) → get_number lo hi n s = Some (v, s') →
  strptime s (Conv f :: fmt) t = strptime s' fmt (set_field f v t).
Proof. intros Hf Hn. cbn [strptime]. by rewrite Hf, Hn. Qed.

Lemma strptime_literal c fmt s t : strptime (String c s) (Literal c :: fmt) t = strptime s fmt t.
Proof. cbn [strptime]. by rewrite Ascii.eqb_refl. Qed.

Lemma strptime_space fmt s t :
  skip_spaces s = s → strptime (String " " s) (Space :: fmt) t = strptime s fmt t.
Proof. intros Hs. cbn [strptime]. by rewrite skip_spaces_cons, Hs. Qed.

(** What [strftime] prints is read back by [strptime], whatever follows it. *)
Lemma strptime_strftime t s :
  valid_tm t → strptime (strftime t +:+ s) timestamp_format tm_zero = Some (t, s).
Proof.
  intros (Hy & Hm & Hd & Hh & Hmi & Hs).
  pose proof (days_in_month_range (tm_year t + 1900) (tm_mon t + 1)).
  unfold strftime, timestamp_format. rewrite !str_app_assoc, !str_app_char.
  erewrite strptime_conv by (done || (apply get_number_pad4; lia)). rewrite strptime_literal.
  erewrite strptime_conv by (done || (apply get_number_pad2; lia)). rewrite strptime_literal.
  erewrite strptime_conv by (done || (apply get_number_pad2; lia)).
  rewrite strptime_space by apply skip_spaces_pad2.
  erewrite strptime_conv by (done || (apply get_number_pad2; lia)). rewrite strptime_literal.
  erewrite strptime_conv by (done || (apply get_number_pad2; lia)). rewrite strptime_literal.
  erewrite strptime_conv by (done || (apply get_number_pad2; lia)).
  destruct t as [a b c d e f]; simpl in *. do 2 f_equal; f_equal; lia.
Qed.
