(* ===== verification/Timestamp.v ===== *)
(** * Timestamp: database timestamps in, readable timestamps out

    [UserDao::ParsePostgresTimestamp] (infrastructure/persistence/dao/user_dao.cc)
    and [User::ToString] with its lambda [fmt_time] (domain/user.h). *)

From stdpp Require Import base tactics option strings numbers list.
From Stdlib Require Import Ascii.
From S2P Require Import Prelude Text Calendar User.

Open Scope string_scope.
Open Scope Z_scope.

(** [system_clock::from_time_t] and [system_clock::to_time_t]. *)
Definition from_time_t (t : Z) : Z := of_seconds t.
Definition to_time_t (tp : Z) : Z := to_seconds tp.

(** [timestamp_str] is a [const char*]; [None] is the null pointer. *)
Definition ParsePostgresTimestamp (timestamp_str : option string) : Z :=
  match timestamp_str with
  | None => from_time_t 0
  | Some EmptyString => from_time_t 0
  | Some s =>
      match strptime s timestamp_format tm_zero with
      | None => from_time_t 0
      | Some (t, _) => from_time_t (timegm t)
      end
  end.

Definition fmt_time (tp : Z) : string :=
  let t := to_time_t tp in
  if bool_decide (t = 0) then "null" else strftime (gmtime t).

Definition ToString (u : User) : string :=
  "User { id: " +:+ id_ u +:+ ", phone: " +:+ phone_number_ u +:+
  ", username: " +:+ default "null" (username_ u) +:+
  ", email: " +:+ default "null" (email_ u) +:+
  ", status: " +:+ to_string (status_ u) +:+
  ", created_at: " +:+ fmt_time (created_at_ u) +:+
  ", deleted_at: " +:+ match deleted_at_ u with Some d => fmt_time d | None => "null" end +:+
  " }".

(** ** Lemmas *)

Lemma strftime_nonempty t s : ∃ c r, (strftime t +:+ s)%string = String c r.
Proof. by repeat econstructor. Qed.

Lemma ParsePostgresTimestamp_strftime t s :
  valid_tm t → ParsePostgresTimestamp (Some (strftime t +:+ s)%string) = from_time_t (timegm t).
Proof.
  intros Ht. pose proof (strptime_strftime t s Ht) as Hp.
  destruct (strftime_nonempty t s) as (c & r & E). rewrite E in *.
  unfold ParsePostgresTimestamp. by rewrite Hp.
Qed.

Lemma from_to_time_t z : in_s 64 (z * ns_per_s) → to_time_t (from_time_t z) = z.
Proof.
  intros Hz. unfold to_time_t, from_time_t, of_seconds.
  rewrite wrap_s_small by done. unfold to_seconds, ns_per_s. by apply Z.quot_mul.
Qed.

Lemma from_time_t_range z : in_s 64 (from_time_t z).
Proof. by apply wrap_s_range. Qed.

Lemma ParsePostgresTimestamp_range s : in_s 64 (ParsePostgresTimestamp s).
Proof. unfold ParsePostgresTimestamp. repeat case_match; apply from_time_t_range. Qed.

#[export] Hint Resolve ParsePostgresTimestamp_range : photon.

(** ** Properties *)

(** C37: a valid date, as the database prints it and with anything after it
    (fractions of a second, a time zone), is read and printed back as the same
    date: the calendar arithmetic loses nothing as long as the instant fits the
    64-bit nanosecond clock and is not the epoch, which prints as null.  What
    follows the seconds, a time-zone offset included, has no influence. *)
Theorem fmt_time_ParsePostgresTimestamp (t : tm) (suffix : string)
    (Hvalid : valid_tm t) (Hrange : in_s 64 (timegm t * ns_per_s)) (Hepoch : timegm t ≠ 0) :
  fmt_time (ParsePostgresTimestamp (Some (strftime t +:+ suffix))) = strftime t.
Proof.
  rewrite ParsePostgresTimestamp_strftime by done. unfold fmt_time.
  rewrite from_to_time_t, bool_decide_eq_false_2 by done. by rewrite gmtime_timegm.
Qed.

Lemma fmt_time_ParsePostgresTimestamp_witness :
  fmt_time (ParsePostgresTimestamp (Some "2025-11-26 10:00:00.25+08")) = "2025-11-26 10:00:00".
Proof.
  apply (fmt_time_ParsePostgresTimestamp (mkTm 0 0 10 26 10 125) ".25+08").
  - apply (bool_decide_unpack _). reflexivity.
  - apply (bool_decide_unpack _). reflexivity.
  - intros H. discriminate H.
Defined.
