(* ===== verification/LibPQ.v ===== *)
(** * LibPQ: what the source uses of libpq and of a socket

    The C library and boost's descriptor are a parameter, with the documented
    behaviour the connection relies on as laws. *)

From stdpp Require Import base tactics option strings numbers list.
From S2P Require Import Prelude Text Model.

Open Scope string_scope.
Open Scope Z_scope.
Open Scope photon_scope.

Inductive ConnStatusType := CONNECTION_OK | CONNECTION_BAD | CONNECTION_other.
Inductive PostgresPollingStatusType :=
| PGRES_POLLING_FAILED | PGRES_POLLING_READING | PGRES_POLLING_WRITING | PGRES_POLLING_OK
| PGRES_POLLING_ACTIVE.
Inductive ExecStatusType :=
| PGRES_EMPTY_QUERY | PGRES_COMMAND_OK | PGRES_TUPLES_OK | PGRES_COPY_OUT | PGRES_COPY_IN
| PGRES_BAD_RESPONSE | PGRES_NONFATAL_ERROR | PGRES_FATAL_ERROR | PGRES_SINGLE_TUPLE.
Inductive wait_type := wait_read | wait_write.

#[export] Instance ConnStatusType_eq_dec : EqDecision ConnStatusType.
Proof. solve_decision. Defined.
#[export] Instance ExecStatusType_eq_dec : EqDecision ExecStatusType.
Proof. solve_decision. Defined.

(** A connection or result pointer is an option; [None] is the null pointer. *)
Class LibPQ := {
  pg_world : Type;
  PGconn : Type;
  PGresult : Type;
  PQconnectStart : string → pg_world → option PGconn * pg_world;
  PQstatus : PGconn → pg_world → ConnStatusType;
  PQerrorMessage : option PGconn → pg_world → string;
  PQsocket : PGconn → pg_world → Z;
  PQconnectPoll : PGconn → pg_world → PostgresPollingStatusType * pg_world;
  PQsendQueryParams : option PGconn → string → list string → pg_world → Z * pg_world;
  PQconsumeInput : option PGconn → pg_world → Z * pg_world;
  PQisBusy : option PGconn → pg_world → Z;
  PQgetResult : option PGconn → pg_world → option PGresult * pg_world;
  PQresultStatus : PGresult → ExecStatusType;
  PQresultErrorMessage : PGresult → string;
  PQresultErrorField_SQLSTATE : PGresult → option string;
  PQntuples : option PGresult → Z;
  PQgetvalue : option PGresult → Z → Z → string;
  PQgetisnull : option PGresult → Z → Z → bool;
  (** [stream_descriptor::async_wait] on a descriptor *)
  async_wait : option Z → wait_type → M pg_world ()
}.

(** ** The documented behaviour of libpq

    [pq_rounds c w] rounds of waiting and reading are left before the response
    is complete, [pq_results c w] are the results of the command in progress
    that have not been fetched ([None]: the terminating null pointer has been
    fetched too, the connection is idle), [pq_polls c w] calls of
    [PQconnectPoll] at most are left before the attempt is decided.  A network failure is
    [PQconsumeInput] returning 0. *)
Class LibPQLaws `{LibPQ} := {
  pq_rounds : option PGconn → pg_world → nat;
  pq_results : option PGconn → pg_world → option (list PGresult);
  pq_polls : PGconn → pg_world → nat;
  (** waiting on the descriptor changes nothing of this *)
  async_wait_law fd t w :
    ∃ w', async_wait fd t w = (Ret (), w') ∧
      (∀ c, pq_rounds c w' = pq_rounds c w ∧ pq_results c w' = pq_results c w)
      ∧ (∀ c, pq_polls c w' = pq_polls c w);
  (** a connection attempt finishes after [pq_polls] calls; a fresh connection
      is idle *)
  PQconnectPoll_wait c w st w' :
    PQconnectPoll c w = (st, w') → st = PGRES_POLLING_READING ∨ st = PGRES_POLLING_WRITING →
    (pq_polls c w' < pq_polls c w)%nat;
  PQconnectPoll_ok c w w' :
    PQconnectPoll c w = (PGRES_POLLING_OK, w') → pq_results (Some c) w' = None;
  (** a successful read makes progress *)
  PQconsumeInput_law c w w' r :
    PQconsumeInput c w = (r, w') → r ≠ 0 →
    pq_results c w' = pq_results c w ∧ pq_rounds c w' = pred (pq_rounds c w);
  PQconsumeInput_failed c w w' :
    PQconsumeInput c w = (0, w') → pq_results c w' = pq_results c w;
  PQisBusy_law c w : PQisBusy c w = 0 ↔ pq_rounds c w = O;
  (** results come one at a time, then the null pointer *)
  PQgetResult_some c w r rs :
    pq_results c w = Some (r :: rs) → ∃ w', PQgetResult c w = (Some r, w') ∧ pq_results c w' = Some rs;
  PQgetResult_last c w :
    pq_results c w = Some [] → ∃ w', PQgetResult c w = (None, w') ∧ pq_results c w' = None;
  (** a command cannot be sent before the null pointer of the previous one *)
  PQsendQueryParams_law c q ps w r w' :
    PQsendQueryParams c q ps w = (r, w') → r ≠ 0 →
    pq_results c w = None ∧ is_Some (pq_results c w');
  PQsendQueryParams_failed c q ps w w' :
    PQsendQueryParams c q ps w = (0, w') → pq_results c w' = pq_results c w
}.

(** Different connections may be used at the same time: a call on one leaves the
    command in progress on another alone. *)
Class LibPQFrame `{LibPQLaws} : Prop := {
  PQsendQueryParams_frame c c' q ps w :
    c' ≠ c → let w' := (PQsendQueryParams c q ps w).2 in
    pq_results c' w' = pq_results c' w ∧ pq_rounds c' w' = pq_rounds c' w;
  PQconsumeInput_frame c c' w :
    c' ≠ c → let w' := (PQconsumeInput c w).2 in
    pq_results c' w' = pq_results c' w ∧ pq_rounds c' w' = pq_rounds c' w;
  PQgetResult_frame c c' w :
    c' ≠ c → let w' := (PQgetResult c w).2 in
    pq_results c' w' = pq_results c' w ∧ pq_rounds c' w' = pq_rounds c' w
}.
