(* ===== verification/PgServer.v ===== *)
(** * PgServer: a concrete libpq

    A client library and a server with a database of type [DB] and an SQL
    executor, which satisfies [LibPQLaws]: the laws are consistent, and the
    closed examples of the development run on it. *)

From stdpp Require Import base tactics option strings numbers gmap list.
From S2P Require Import Prelude Text Model LibPQ.

Open Scope string_scope.
Open Scope Z_scope.
Open Scope photon_scope.


Record pg_res := mkRes {
  res_status : ExecStatusType;
  res_message : string;
  res_sqlstate : option string;
  res_rows : list (list (option string))
}.

(** Per connection: polls left, rounds left, results to fetch. *)
Record conn_state := mkCS { cs_polls : nat; cs_rounds : nat; cs_results : option (list pg_res) }.

Record server (DB : Type) := mkServer {
  sv_db : DB;
  sv_conns : gmap nat conn_state;
  sv_latency : nat;     (* rounds a response takes *)
  sv_send_ok : bool;    (* the network takes queries *)
  sv_recv_ok : bool     (* the network delivers responses *)
}.
Arguments mkServer {DB}.
Arguments sv_db {DB}.
Arguments sv_conns {DB}.
Arguments sv_latency {DB}.
Arguments sv_send_ok {DB}.
Arguments sv_recv_ok {DB}.

Section server.
Context {DB : Type} (exec : string → list string → DB → list pg_res * DB).
Implicit Types (w : server DB) (c : option nat).

Definition sv_get c w : conn_state :=
  default (mkCS 0 0 None) (i ← c; sv_conns w !! i).
Definition sv_put (i : nat) (s : conn_state) w : server DB :=
  mkServer (sv_db w) (<[i := s]> (sv_conns w)) (sv_latency w) (sv_send_ok w) (sv_recv_ok w).
Definition sv_cell (r : option pg_res) (row col : Z) : option string :=
  res ← r; cells ← res_rows res !! Z.to_nat row; cell ← cells !! Z.to_nat col; cell.

Definition pg_server : LibPQ := {|
  pg_world := server DB;
  PGconn := nat;
  PGresult := pg_res;
  PQconnectStart _ w :=
    let i := fresh (dom (sv_conns w)) in (Some i, sv_put i (mkCS (sv_latency w) 0 None) w);
  PQstatus _ _ := CONNECTION_other;
  PQerrorMessage _ _ := "connection failure";
  PQsocket i _ := Z.of_nat i;
  PQconnectPoll i w :=
    let s := sv_get (Some i) w in
    match cs_polls s with
    | S n => (PGRES_POLLING_READING, sv_put i (mkCS n (cs_rounds s) (cs_results s)) w)
    | O => (PGRES_POLLING_OK, sv_put i (mkCS 0 0 None) w)
    end;
  PQsendQueryParams c q ps w :=
    match c, cs_results (sv_get c w) with
    | Some i, None =>
        if sv_send_ok w then
          let '(rs, db) := exec q ps (sv_db w) in
          (1, mkServer db (<[i := mkCS 0 (sv_latency w) (Some rs)]> (sv_conns w))
                (sv_latency w) (sv_send_ok w) (sv_recv_ok w))
        else (0, w)
    | _, _ => (0, w)
    end;
  PQconsumeInput c w :=
    match c with
    | Some i =>
        let s := sv_get c w in
        if sv_recv_ok w
        then (1, sv_put i (mkCS (cs_polls s) (pred (cs_rounds s)) (cs_results s)) w)
        else (0, w)
    | None => (0, w)
    end;
  PQisBusy c w := match cs_rounds (sv_get c w) with O => 0 | S _ => 1 end;
  PQgetResult c w :=
    match c with
    | Some i =>
        let s := sv_get c w in
        match cs_results s with
        | Some (r :: rs) => (Some r, sv_put i (mkCS (cs_polls s) (cs_rounds s) (Some rs)) w)
        | _ => (None, sv_put i (mkCS (cs_polls s) (cs_rounds s) None) w)
        end
    | None => (None, w)
    end;
  PQresultStatus := res_status;
  PQresultErrorMessage := res_message;
  PQresultErrorField_SQLSTATE := res_sqlstate;
  PQntuples r := match r with Some res => Z.of_nat (length (res_rows res)) | None => 0 end;
  PQgetvalue r row col := default EmptyString (sv_cell r row col);
  PQgetisnull r row col := bool_decide (sv_cell r row col = None);
  async_wait _ _ := retM ()
|}.

Definition server_rounds c w : nat := cs_rounds (sv_get c w).
Definition server_results c w : option (list pg_res) := cs_results (sv_get c w).
Definition server_polls (i : nat) w : nat := cs_polls (sv_get (Some i) w).

Lemma sv_get_put i s w c :
  sv_get c (sv_put i s w) = if bool_decide (c = Some i) then s else sv_get c w.
Proof.
  unfold sv_get, sv_put. destruct c as [j|]; simpl; [|done].
  case_bool_decide as Hd; [injection Hd as ->; by rewrite lookup_insert_eq|].
  rewrite lookup_insert_ne; [done|]. congruence.
Qed.

#[export] Instance pg_server_laws : @LibPQLaws pg_server.
Proof.
  refine (@Build_LibPQLaws pg_server server_rounds server_results server_polls _ _ _ _ _ _ _ _ _ _).
  all: simpl; unfold server_rounds, server_results, server_polls.
  - intros fd t w. by exists w.
  - intros i w st w'. destruct (cs_polls _) as [|n] eqn:E; intros [= <- <-] Hst; [by destruct Hst|].
    rewrite sv_get_put, bool_decide_eq_true_2 by done. simpl. lia.
  - intros i w w'. destruct (cs_polls _) as [|n] eqn:E; intros [= <-].
    by rewrite sv_get_put, bool_decide_eq_true_2.
  - intros [i|] w w' r; [|by intros [= <- <-]]. destruct (sv_recv_ok w); intros [= <- <-] Hr; [|done].
    by rewrite sv_get_put, bool_decide_eq_true_2.
  - intros [i|] w w'; [|by intros [= <-]]. by destruct (sv_recv_ok w); intros [= <-].
  - intros c w. by destruct (cs_rounds _).
  - intros [i|] w r rs; [|done]. intros E. rewrite E. eexists. split; [done|].
    by rewrite sv_get_put, bool_decide_eq_true_2.
  - intros [i|] w; [|done]. intros E. rewrite E. eexists. split; [done|].
    by rewrite sv_get_put, bool_decide_eq_true_2.
  - intros [i|] q ps w r w'; [|by intros [= <- <-]].
    destruct (cs_results _) eqn:E; [by intros [= <- <-]|]. destruct (sv_send_ok w); [|by intros [= <- <-]].
    destruct (exec q ps (sv_db w)) as [rs db]. intros [= <- <-] _. split; [done|].
    unfold sv_get. simpl. by rewrite lookup_insert_eq.
  - intros [i|] q ps w w'; [|by intros [= <-]].
    destruct (cs_results _) eqn:E; [by intros [= <-]|]. destruct (sv_send_ok w); [|by intros [= <-]].
    by destruct (exec q ps (sv_db w)).
Defined.

#[export] Instance pg_server_frame : @LibPQFrame pg_server pg_server_laws.
Proof.
  split; simpl; unfold server_rounds, server_results.
  - intros [i|] c' q ps w Hne; [|done]. destruct (cs_results (sv_get (Some i) w)); [done|]. destruct (sv_send_ok w); [|done].
    destruct (exec q ps (sv_db w)) as [rs db]. simpl. unfold sv_get. destruct c' as [j|]; [|done]. simpl.
    rewrite lookup_insert_ne; [done|]. congruence.
  - intros [i|] c' w Hne; [|done]. destruct (sv_recv_ok w); [|done]. simpl. by rewrite sv_get_put, bool_decide_eq_false_2.
  - intros [i|] c' w Hne; [|done]. destruct (cs_results (sv_get (Some i) w)) as [[|r rs]|]; simpl;
      by rewrite sv_get_put, bool_decide_eq_false_2.
Qed.
End server.
