(* ===== verification/PqConnection.v ===== *)
(** * PqConnection: one asynchronous database connection

    [PQConnection] (infrastructure/persistence/postgresql/src/pq_connection.cc):
    the connection loop, and the four stages of [AsyncExecParams].  libpq and
    the socket are the parameter [LibPQ].  Each [while (true)] of the source
    takes a fuel; running out of it is [Pending], and the termination theorems
    say how much is enough. *)

From stdpp Require Import base tactics option strings numbers gmap list.
From S2P Require Import Prelude Text Model LibPQ PgServer.

Open Scope string_scope.
Open Scope Z_scope.
Open Scope photon_scope.

Section connection.
Context `{LibPQ}.

(** A call that always returns, as a computation; a call that only reads. *)
Definition callM {A} (f : pg_world → A * pg_world) : M pg_world A := fun w =>
  let '(a, w') := f w in (Ret a, w').
Definition readM {A} (f : pg_world → A) : M pg_world A := fun w => (Ret (f w), w).

Definition throw_runtime {A} (prefix : string) (conn : option PGconn) : M pg_world A :=
  let* msg := readM (PQerrorMessage conn) in throwM (Exn runtime_error (prefix +:+ msg)).

(** ** State: [conn_] and the descriptor [socket_] watches *)
Record PQConnection := mkPQConnection {
  conn_ : option PGconn;
  socket_ : option Z
}.

(** The constructor: no connection, no descriptor. *)
Definition PQConnection_init : PQConnection := mkPQConnection None None.

(** ** AsyncConnect *)

Fixpoint AsyncConnect_loop (fuel : nat) (conn : PGconn) (sock : option Z) : M pg_world () :=
  match fuel with
  | O => pendM
  | S fuel' =>
      let* poll_status := callM (PQconnectPoll conn) in
      match poll_status with
      | PGRES_POLLING_WRITING =>
          do* async_wait sock wait_write in AsyncConnect_loop fuel' conn sock
      | PGRES_POLLING_READING =>
          do* async_wait sock wait_read in AsyncConnect_loop fuel' conn sock
      | PGRES_POLLING_OK => retM ()
      | _ => throw_runtime "Async connection failed: " (Some conn)
      end
  end.

(** The object after the call, when it returns. *)
Definition AsyncConnect (fuel : nat) (conn_str : string) : M pg_world PQConnection :=
  let* conn := callM (PQconnectStart (c_str conn_str)) in
  match conn with
  | None => throw_runtime "Connection failed: " None
  | Some c =>
      let* st := readM (PQstatus c) in
      if bool_decide (st = CONNECTION_BAD) then throw_runtime "Connection failed: " (Some c)
      else
        let* fd := readM (PQsocket c) in
        do* AsyncConnect_loop fuel c (Some fd) in
        retM (mkPQConnection (Some c) (Some fd))
  end.

(** ** The stages of AsyncExecParams *)

Definition SendQuery (this : PQConnection) (query : string) (params : list string)
    : M pg_world () :=
  let* r := callM (PQsendQueryParams (conn_ this) (c_str query) (c_str <$> params)) in
  if r =? 0 then throw_runtime "Failed to send query: " (conn_ this) else retM ().

Fixpoint AwaitResponse (fuel : nat) (this : PQConnection) : M pg_world () :=
  match fuel with
  | O => pendM
  | S fuel' =>
      do* async_wait (socket_ this) wait_read in
      let* r := callM (PQconsumeInput (conn_ this)) in
      if r =? 0 then throw_runtime "Failed to consume input: " (conn_ this)
      else
        let* busy := readM (PQisBusy (conn_ this)) in
        if busy =? 0 then retM () else AwaitResponse fuel' this
  end.

(** [final] is the variable [final_result]. *)
Fixpoint FetchRawResult_loop (fuel : nat) (this : PQConnection) (final : option PGresult)
    : M pg_world (option PGresult) :=
  match fuel with
  | O => pendM
  | S fuel' =>
      let* temp_res := callM (PQgetResult (conn_ this)) in
      match temp_res with
      | None => retM final
      | Some _ =>
          FetchRawResult_loop fuel' this (match final with None => temp_res | Some _ => final end)
      end
  end.

Definition FetchRawResult (fuel : nat) (this : PQConnection) : M pg_world (option PGresult) :=
  FetchRawResult_loop fuel this None.

Definition MapResultToExpected (result : option PGresult) : expected (option PGresult) DbError :=
  match result with
  | None => Val None
  | Some r =>
      let status := PQresultStatus r in
      if bool_decide (status = PGRES_BAD_RESPONSE) || bool_decide (status = PGRES_FATAL_ERROR) then
        Unexpected (mkDbError SqlExecutionError (PQresultErrorMessage r)
                      (default EmptyString (PQresultErrorField_SQLSTATE r)))
      else if bool_decide (status = PGRES_TUPLES_OK) || bool_decide (status = PGRES_COMMAND_OK)
      then Val (Some r)
      else Val None
  end.

Definition AsyncExecParams (fuel : nat) (this : PQConnection) (query : string)
    (params : list string) : M pg_world (expected (option PGresult) DbError) :=
  do* SendQuery this query params in
  do* AwaitResponse fuel this in
  let* raw_result := FetchRawResult fuel this in
  retM (MapResultToExpected raw_result).
End connection.

(** ** Lemmas *)

Section lemmas.
Context `{LibPQLaws}.
Implicit Types (this : PQConnection) (w : pg_world).

Lemma throw_runtime_eq {A} prefix c w :
  throw_runtime (A:=A) prefix c w = (Throw (Exn runtime_error (prefix +:+ PQerrorMessage c w)), w).
Proof. done. Qed.

Lemma callM_eq {A} (f : pg_world → A * pg_world) w a w' : f w = (a, w') → callM f w = (Ret a, w').
Proof. intros E. unfold callM. by rewrite E. Qed.

(** One call of a computation that always returns, in front of the rest. *)
Lemma bind_callM {A B} (f : pg_world → A * pg_world) (k : A → M pg_world B) w :
  bindM (callM f) k w = k (f w).1 (f w).2.
Proof. unfold bindM, callM. by destruct (f w). Qed.

Lemma bind_readM {A B} (f : pg_world → A) (k : A → M pg_world B) w :
  bindM (readM f) k w = k (f w) w.
Proof. done. Qed.

(** The response arrives, or reading it fails; either way the loop ends, and
    the results that can be fetched are the same as before. *)
Lemma AwaitResponse_spec fuel this w :
  (pq_rounds (conn_ this) w < fuel)%nat →
  ∃ o w', AwaitResponse fuel this w = (o, w')
    ∧ pq_results (conn_ this) w' = pq_results (conn_ this) w
    ∧ (o = Ret () ∧ pq_rounds (conn_ this) w' = O
       ∨ ∃ msg, o = Throw (Exn runtime_error ("Failed to consume input: " +:+ msg))).
Proof.
  revert w. induction fuel as [|fuel IH]; intros w Hf; [lia|]. cbn [AwaitResponse].
  destruct (async_wait_law (socket_ this) wait_read w) as (w1 & E1 & Hc & _).
  destruct (Hc (conn_ this)) as [Hr Hs]. rewrite (bindM_ret _ _ _ _ _ E1), bind_callM.
  destruct (PQconsumeInput (conn_ this) w1) as [r w2] eqn:E2. simpl.
  destruct (Z.eqb_spec r 0) as [->|Hr0].
  { rewrite throw_runtime_eq. do 2 eexists. split; [done|]. split; [|eauto].
    rewrite (PQconsumeInput_failed _ _ _ E2). done. }
  destruct (PQconsumeInput_law _ _ _ _ E2 Hr0) as [Hs2 Hr2]. rewrite bind_readM.
  destruct (Z.eqb_spec (PQisBusy (conn_ this) w2) 0) as [Hb|Hb].
  { do 2 eexists. split; [done|]. split; [congruence|]. left. split; [done|]. by apply PQisBusy_law. }
  assert (pq_rounds (conn_ this) w2 ≠ O) as Hn by (intros Hn; by apply Hb, PQisBusy_law).
  destruct (IH w2) as (o & w3 & E3 & Hs3 & Ho); [lia|].
  exists o, w3. rewrite E3, Hs3. split; [done|]. split; [congruence|done].
Qed.

Lemma FetchRawResult_loop_spec fuel this final w rs :
  pq_results (conn_ this) w = Some rs → (length rs < fuel)%nat →
  ∃ w', FetchRawResult_loop fuel this final w = (Ret (match final with None => head rs | _ => final end), w')
    ∧ pq_results (conn_ this) w' = None.
Proof.
  revert w final rs. induction fuel as [|fuel IH]; intros w final rs Hrs Hf; [lia|].
  cbn [FetchRawResult_loop]. rewrite bind_callM.
  destruct rs as [|r rs].
  { destruct (PQgetResult_last _ _ Hrs) as (w1 & E & Hn). rewrite E. exists w1. by destruct final. }
  destruct (PQgetResult_some _ _ _ _ Hrs) as (w1 & E & Hn). rewrite E. simpl in *.
  destruct (IH w1 (match final with None => Some r | Some _ => final end) rs Hn) as (w2 & E2 & H2); [lia|].
  exists w2. rewrite E2. split; [|done]. by destruct final.
Qed.

(** Every result is fetched, the first one is kept. *)
Lemma FetchRawResult_spec fuel this w rs :
  pq_results (conn_ this) w = Some rs → (length rs < fuel)%nat →
  ∃ w', FetchRawResult fuel this w = (Ret (head rs), w') ∧ pq_results (conn_ this) w' = None.
Proof. apply FetchRawResult_loop_spec. Qed.

Lemma SendQuery_spec this q ps w :
  ∃ o w', SendQuery this q ps w = (o, w') ∧
    (o = Ret () ∧ pq_results (conn_ this) w = None ∧ is_Some (pq_results (conn_ this) w')
       ∧ (PQsendQueryParams (conn_ this) (c_str q) (c_str <$> ps) w).2 = w'
     ∨ pq_results (conn_ this) w' = pq_results (conn_ this) w
       ∧ ∃ msg, o = Throw (Exn runtime_error ("Failed to send query: " +:+ msg))).
Proof.
  unfold SendQuery. rewrite bind_callM.
  destruct (PQsendQueryParams (conn_ this) (c_str q) (c_str <$> ps) w) as [r w1] eqn:E. simpl.
  destruct (Z.eqb_spec r 0) as [->|Hr].
  - rewrite throw_runtime_eq. do 2 eexists. split; [done|]. right. split; [|eauto].
    by apply PQsendQueryParams_failed in E.
  - destruct (PQsendQueryParams_law _ _ _ _ _ _ E Hr) as [Hb Ha].
    do 2 eexists. split; [done|]. left. done.
Qed.

(** A connection whose previous command has not been drained refuses the next. *)
Lemma SendQuery_busy this q ps w :
  is_Some (pq_results (conn_ this) w) →
  ∃ msg w', SendQuery this q ps w = (Throw (Exn runtime_error ("Failed to send query: " +:+ msg)), w')
    ∧ pq_results (conn_ this) w' = pq_results (conn_ this) w.
Proof.
  intros [rs Hrs]. destruct (SendQuery_spec this q ps w) as (o & w' & E & [(? & Hn & _)|(Hs & msg & ->)]).
  { congruence. }
  eauto.
Qed.

(** The connection loop ends. *)
Lemma AsyncConnect_loop_spec fuel c fd w :
  (pq_polls c w < fuel)%nat →
  ∃ o w', AsyncConnect_loop fuel c fd w = (o, w')
    ∧ (o = Ret () ∧ pq_results (Some c) w' = None
       ∨ ∃ msg, o = Throw (Exn runtime_error ("Async connection failed: " +:+ msg))).
Proof.
  revert w. induction fuel as [|fuel IH]; intros w Hf; [lia|]. cbn [AsyncConnect_loop].
  rewrite bind_callM. destruct (PQconnectPoll c w) as [st w1] eqn:E. simpl.
  assert (∀ t, st = PGRES_POLLING_READING ∨ st = PGRES_POLLING_WRITING →
    ∃ o w', bindM (async_wait fd t) (fun _ => AsyncConnect_loop fuel c fd) w1 = (o, w')
      ∧ (o = Ret () ∧ pq_results (Some c) w' = None
         ∨ ∃ msg, o = Throw (Exn runtime_error ("Async connection failed: " +:+ msg)))) as Hwait.
  { intros t Hst. pose proof (PQconnectPoll_wait _ _ _ _ E Hst).
    destruct (async_wait_law fd t w1) as (w2 & E2 & _ & Hp).
    rewrite (bindM_ret _ _ _ _ _ E2). apply IH. rewrite Hp. lia. }
  destruct st; [|by apply Hwait; auto|by apply Hwait; auto| |].
  - rewrite throw_runtime_eq. do 2 eexists. split; [done|]. eauto.
  - do 2 eexists. split; [done|]. left. split; [done|]. by apply PQconnectPoll_ok in E.
  - rewrite throw_runtime_eq. do 2 eexists. split; [done|]. eauto.
Qed.

(** More fuel changes nothing once the call has finished. *)
Lemma AsyncConnect_loop_mono c fd : fuel_mono (λ n, AsyncConnect_loop n c fd).
Proof.
  intros fuel. induction fuel as [|fuel IH]; intros fuel' w o w' Hle; [by intros [= <- <-]|].
  destruct fuel' as [|fuel']; [lia|]. cbn [AsyncConnect_loop]. rewrite !bind_callM.
  destruct (PQconnectPoll c w) as [st w1].
  assert (∀ t, bindM (async_wait fd t) (fun _ => AsyncConnect_loop fuel c fd) w1 = (o, w') → o ≠ Pending →
    bindM (async_wait fd t) (fun _ => AsyncConnect_loop fuel' c fd) w1 = (o, w')) as Hstep.
  { intros t. unfold bindM. destruct (async_wait fd t w1) as [[[]|e|] w2]; [|done..].
    apply IH. lia. }
  destruct st; try done; apply Hstep.
Qed.

Lemma AsyncConnect_mono conn_str : fuel_mono (λ n, AsyncConnect n conn_str).
Proof.
  unfold AsyncConnect. apply fuel_mono_bind; [apply fuel_mono_const|intros [c|]; [|apply fuel_mono_const]].
  apply fuel_mono_bind; [apply fuel_mono_const|intros st]. case_bool_decide; [apply fuel_mono_const|].
  apply fuel_mono_bind; [apply fuel_mono_const|intros fd].
  apply fuel_mono_bind; [apply AsyncConnect_loop_mono|intros _]. apply fuel_mono_const.
Qed.

Lemma AwaitResponse_mono this : fuel_mono (λ n, AwaitResponse n this).
Proof.
  intros fuel. induction fuel as [|fuel IH]; intros fuel' w o w' Hle; [by intros [= <- <-]|].
  destruct fuel' as [|fuel']; [lia|]. cbn [AwaitResponse].
  destruct (async_wait (socket_ this) wait_read w) as [[a|e|] w1] eqn:Ew.
  2: { by rewrite !(bindM_throw _ _ _ _ _ Ew). }
  2: { rewrite (bindM_pending _ _ _ _ Ew). by intros [= <- <-]. }
  rewrite !(bindM_ret _ _ _ _ _ Ew), !bind_callM. case_match; [done|]. rewrite !bind_readM. case_match; [done|].
  apply IH. lia.
Qed.

Lemma FetchRawResult_loop_mono this final : fuel_mono (λ n, FetchRawResult_loop n this final).
Proof.
  intros fuel. revert final. induction fuel as [|fuel IH]; intros final fuel' w o w' Hle; [by intros [= <- <-]|].
  destruct fuel' as [|fuel']; [lia|]. cbn [FetchRawResult_loop]. rewrite !bind_callM.
  case_match; [|done]. apply IH. lia.
Qed.

Lemma AsyncExecParams_mono this q ps : fuel_mono (λ n, AsyncExecParams n this q ps).
Proof.
  unfold AsyncExecParams. apply fuel_mono_bind; [apply fuel_mono_const|intros _].
  apply fuel_mono_bind; [apply AwaitResponse_mono|intros _].
  apply fuel_mono_bind; [apply FetchRawResult_loop_mono|intros a]. apply fuel_mono_const.
Qed.

(** What waiting, reading and fetching keep, receiving a response keeps. *)
Section preserved.
Context (P : pg_world → Prop).
Context (P_wait : ∀ fd t w, P w → P (async_wait fd t w).2).
Context (P_consume : ∀ c w, P w → P (PQconsumeInput c w).2).
Context (P_get : ∀ c w, P w → P (PQgetResult c w).2).

Lemma AwaitResponse_preserves fuel this w : P w → P (AwaitResponse fuel this w).2.
Proof.
  revert w. induction fuel as [|fuel IH]; intros w Hw; [done|]. cbn [AwaitResponse].
  pose proof (P_wait (socket_ this) wait_read w Hw) as H1. unfold bindM at 1.
  destruct (async_wait (socket_ this) wait_read w) as [[?|?|] w1]; [|done..].
  rewrite bind_callM. pose proof (P_consume (conn_ this) w1 H1) as H2. simpl in *.
  case_match; [done|]. rewrite bind_readM. case_match; [done|]. by apply IH.
Qed.

Lemma FetchRawResult_loop_preserves fuel this final w :
  P w → P (FetchRawResult_loop fuel this final w).2.
Proof.
  revert final w. induction fuel as [|fuel IH]; intros final w Hw; [done|]. cbn [FetchRawResult_loop].
  rewrite bind_callM. pose proof (P_get (conn_ this) w Hw) as H1. case_match; [|done]. by apply IH.
Qed.

Lemma receive_preserves fuel this w :
  P w → P ((do* AwaitResponse fuel this in
            let* raw_result := FetchRawResult fuel this in
            retM (MapResultToExpected raw_result)) w).2.
Proof.
  intros Hw. unfold bindM at 1. pose proof (AwaitResponse_preserves fuel this w Hw) as H1.
  destruct (AwaitResponse fuel this w) as [[?|?|] w1]; [|done..]. simpl in H1.
  unfold bindM, FetchRawResult. pose proof (FetchRawResult_loop_preserves fuel this None w1 H1) as H2.
  by destruct (FetchRawResult_loop fuel this None w1) as [[?|?|] w2].
Qed.
End preserved.

(** What the last three stages do once the query is sent. *)
Lemma receive_spec fuel this w rs :
  pq_results (conn_ this) w = Some rs →
  (pq_rounds (conn_ this) w < fuel)%nat → (length rs < fuel)%nat →
  ∃ o w', (do* AwaitResponse fuel this in
           let* raw_result := FetchRawResult fuel this in
           retM (MapResultToExpected raw_result)) w = (o, w')
    ∧ (o = Ret (MapResultToExpected (head rs)) ∧ pq_results (conn_ this) w' = None
       ∨ (∃ e, o = Throw e ∧ exn_cls e = runtime_error) ∧ pq_results (conn_ this) w' = Some rs).
Proof.
  intros Hrs Hn Hl. destruct (AwaitResponse_spec fuel this w Hn) as (o & w1 & E & Hs & Ho).
  destruct Ho as [[-> _]|[msg ->]].
  - rewrite (bindM_ret _ _ _ _ _ E).
    destruct (FetchRawResult_spec fuel this w1 rs) as (w2 & E2 & Hn2); [congruence|done|].
    rewrite (bindM_ret _ _ _ _ _ E2). do 2 eexists. split; [done|]. by left.
  - rewrite (bindM_throw _ _ _ _ _ E). do 2 eexists. split; [done|]. right. split; [eauto|congruence].
Qed.
End lemmas.

(** ** Properties *)

Section properties.
Context `{LibPQLaws}.

(** What a call of [AsyncExecParams] may do, from [w] to [w'] with outcome [o].
    The connection is idle after a return, and the value is that of the first
    result the server sent; a throw is a runtime_error, before the query was
    sent, or with its response still pending. *)
Definition exec_outcome (this : PQConnection) (q : string) (ps : list string) (w : pg_world)
    (o : outcome (expected (option PGresult) DbError)) (w' : pg_world) : Prop :=
  let sent := (PQsendQueryParams (conn_ this) (c_str q) (c_str <$> ps) w).2 in
  match o with
  | Ret e =>
      pq_results (conn_ this) w = None ∧ pq_results (conn_ this) w' = None
      ∧ ∃ rs, pq_results (conn_ this) sent = Some rs ∧ e = MapResultToExpected (head rs)
  | Throw e =>
      exn_cls e = runtime_error ∧
      (pq_results (conn_ this) w' = pq_results (conn_ this) w ∨ is_Some (pq_results (conn_ this) w'))
  | Pending => False
  end.

Lemma AsyncExecParams_finishes (this : PQConnection) (q : string) (ps : list string) (w : pg_world) :
  ∃ enough, ∀ fuel, (enough ≤ fuel)%nat →
    ∃ o w', AsyncExecParams fuel this q ps w = (o, w') ∧ exec_outcome this q ps w o w'.
Proof.
  destruct (SendQuery_spec this q ps w) as (o & w1 & E & [(-> & Hi & [rs Hrs] & Es)|(Hs & msg & ->)]).
  - exists (S (pq_rounds (conn_ this) w1 + length rs)). intros fuel Hf. unfold AsyncExecParams.
    rewrite (bindM_ret _ _ _ _ _ E).
    destruct (receive_spec fuel this w1 rs Hrs) as (o & w2 & -> & Ho); [lia..|].
    exists o, w2. split; [done|]. unfold exec_outcome. rewrite Es.
    destruct Ho as [[-> ?]|[(e & -> & ?) ?]]; eauto 10.
  - exists O. intros fuel _. unfold AsyncExecParams. rewrite (bindM_throw _ _ _ _ _ E).
    do 2 eexists. split; [done|]. split; [done|by left].
Qed.


(** A connection whose last command was interrupted by a read failure never
    serves again: while results are pending, every query throws and leaves them
    pending, whatever the fuel. *)
Theorem AsyncExecParams_poisoned (fuel : nat) (this : PQConnection) (q : string)
    (ps : list string) (w : pg_world) (Hpending : is_Some (pq_results (conn_ this) w)) :
  ∃ msg w', AsyncExecParams fuel this q ps w
              = (Throw (Exn runtime_error ("Failed to send query: " +:+ msg)), w')
            ∧ is_Some (pq_results (conn_ this) w').
Proof.
  destruct (SendQuery_busy this q ps w Hpending) as (msg & w' & E & Hs).
  exists msg, w'. unfold AsyncExecParams. rewrite (bindM_throw _ _ _ _ _ E), Hs. done.
Qed.

(** Connecting finishes: it returns an object with a connection that is
    idle and a watched descriptor, or throws a runtime_error that says why. *)
Theorem AsyncConnect_total (conn_str : string) (w : pg_world) :
  ∃ enough, ∀ fuel, (enough ≤ fuel)%nat →
    ∃ o w', AsyncConnect fuel conn_str w = (o, w') ∧
      match o with
      | Ret this => ∃ c, conn_ this = Some c ∧ is_Some (socket_ this) ∧ pq_results (conn_ this) w' = None
      | Throw e => exn_cls e = runtime_error
      | Pending => False
      end.
Proof.
  unfold AsyncConnect. destruct (PQconnectStart (c_str conn_str) w) as [[c|] w1] eqn:E.
  2: { exists O. intros fuel _. rewrite bind_callM, E. simpl. rewrite throw_runtime_eq. by do 2 eexists. }
  exists (S (pq_polls c w1)). intros fuel Hf. rewrite bind_callM, E. simpl. rewrite bind_readM.
  case_bool_decide; [rewrite throw_runtime_eq; by do 2 eexists|]. rewrite bind_readM.
  destruct (AsyncConnect_loop_spec fuel c (Some (PQsocket c w1)) w1) as (o & w2 & E2 & Ho); [lia|].
  destruct Ho as [[-> Hi]|[msg ->]].
  - rewrite (bindM_ret _ _ _ _ _ E2). do 2 eexists. split; [done|]. by exists c.
  - rewrite (bindM_throw _ _ _ _ _ E2). by do 2 eexists.
Qed.
End properties.

(** A server that answers every query with one empty row set, after two rounds. *)
Definition example_exec (q : string) (ps : list string) (db : ()) : list pg_res * () :=
  ([mkRes PGRES_TUPLES_OK EmptyString None []], db).
Definition example_world (results : option (list pg_res)) : server () :=
  mkServer () {[ 0%nat := mkCS 0 0 results ]} 2 true true.
Definition example_conn : @PQConnection (pg_server example_exec) :=
  @mkPQConnection (pg_server example_exec) (Some 0%nat) (Some 3).


Lemma AsyncExecParams_poisoned_witness :
  ∃ msg w', @AsyncExecParams (pg_server example_exec) 5 example_conn "SELECT 1" []
              (example_world (Some []))
              = (Throw (Exn runtime_error ("Failed to send query: " +:+ msg)), w')
            ∧ is_Some (server_results (Some 0%nat) w').
Proof.
  apply (@AsyncExecParams_poisoned _ (pg_server_laws example_exec)).
  exists []. reflexivity.
Defined.

Lemma AsyncConnect_total_witness :
  ∃ enough, ∀ fuel, (enough ≤ fuel)%nat →
    ∃ o w', @AsyncConnect (pg_server example_exec) fuel "host=db" (example_world None) = (o, w') ∧
      match o with
      | Ret this => ∃ c, conn_ this = Some c ∧ is_Some (socket_ this) ∧ server_results (conn_ this) w' = None
      | Throw e => exn_cls e = runtime_error
      | Pending => False
      end.
Proof. apply (@AsyncConnect_total _ (pg_server_laws example_exec)). Defined.
