(* ===== verification/Channel.v ===== *)
(** * Channel: boost::asio::experimental::channel

    The bounded channel the pools suspend coroutines on.  It is a parameter
    with its documented behaviour as laws: receivers queue in order of arrival
    when there is no message, a message goes to the first receiver, or to the
    buffer when there is room, or is refused.  [list_channel] satisfies the laws. *)

From stdpp Require Import base tactics option list numbers.
From S2P Require Import Prelude.

Class ChannelOps (A : Type) := {
  channel : Type;
  channel_make : N → channel;
  (** a coroutine receives at once, or is queued *)
  async_receive : nat → channel → option A * channel;
  (** refused, buffered ([Some None]) or handed to a coroutine that wakes up *)
  try_send : A → channel → option (option nat) * channel
}.
Arguments channel A {_}.

Class ChannelLaws (A : Type) `{ChannelOps A} := {
  ch_waiting : channel A → list nat;
  ch_buffer : channel A → list A;
  ch_cap : channel A → N;
  channel_make_law n :
    ch_waiting (channel_make n) = [] ∧ ch_buffer (channel_make n) = [] ∧ ch_cap (channel_make n) = n;
  async_receive_buffered c ch m ms :
    ch_buffer ch = m :: ms → ∃ ch', async_receive c ch = (Some m, ch')
      ∧ ch_waiting ch' = ch_waiting ch ∧ ch_buffer ch' = ms ∧ ch_cap ch' = ch_cap ch;
  async_receive_queued c ch :
    ch_buffer ch = [] → ∃ ch', async_receive c ch = (None, ch')
      ∧ ch_waiting ch' = ch_waiting ch ++ [c] ∧ ch_buffer ch' = [] ∧ ch_cap ch' = ch_cap ch;
  try_send_waiter m ch c ws :
    ch_waiting ch = c :: ws → ∃ ch', try_send m ch = (Some (Some c), ch')
      ∧ ch_waiting ch' = ws ∧ ch_buffer ch' = ch_buffer ch ∧ ch_cap ch' = ch_cap ch;
  try_send_buffer m ch :
    ch_waiting ch = [] → (N.of_nat (length (ch_buffer ch)) < ch_cap ch)%N →
    ∃ ch', try_send m ch = (Some None, ch')
      ∧ ch_waiting ch' = [] ∧ ch_buffer ch' = ch_buffer ch ++ [m] ∧ ch_cap ch' = ch_cap ch;
  try_send_full m ch :
    ch_waiting ch = [] → (ch_cap ch ≤ N.of_nat (length (ch_buffer ch)))%N →
    try_send m ch = (None, ch)
}.

(** ** A channel made of two lists *)

Record list_chan (A : Type) := mkChan { lc_waiting : list nat; lc_buffer : list A; lc_cap : N }.
Arguments mkChan {A}.
Arguments lc_waiting {A}.
Arguments lc_buffer {A}.
Arguments lc_cap {A}.

Definition list_receive {A} (c : nat) (ch : list_chan A) : option A * list_chan A :=
  match lc_buffer ch with
  | m :: ms => (Some m, mkChan (lc_waiting ch) ms (lc_cap ch))
  | [] => (None, mkChan (lc_waiting ch ++ [c]) [] (lc_cap ch))
  end.

Definition list_send {A} (m : A) (ch : list_chan A) : option (option nat) * list_chan A :=
  match lc_waiting ch with
  | c :: ws => (Some (Some c), mkChan ws (lc_buffer ch) (lc_cap ch))
  | [] => if bool_decide (N.of_nat (length (lc_buffer ch)) < lc_cap ch)%N
          then (Some None, mkChan [] (lc_buffer ch ++ [m]) (lc_cap ch))
          else (None, ch)
  end.

#[export] Instance list_channel A : ChannelOps A := {|
  channel := list_chan A;
  channel_make n := mkChan [] [] n;
  async_receive := list_receive;
  try_send := list_send
|}.

#[export] Instance list_channel_laws A : ChannelLaws A.
Proof.
  refine (@Build_ChannelLaws A _ lc_waiting lc_buffer lc_cap _ _ _ _ _ _); simpl.
  - done.
  - intros c [ws b cap] m ms E. simpl in *. subst. by eexists.
  - intros c [ws b cap] E. simpl in *. subst. by eexists.
  - intros m [ws b cap] c ws' E. simpl in *. subst. by eexists.
  - intros m [ws b cap] E Hlt. simpl in *. subst. unfold list_send. simpl.
    rewrite bool_decide_eq_true_2 by done. by eexists.
  - intros m [ws b cap] E Hle. simpl in *. subst. unfold list_send. simpl.
    rewrite bool_decide_eq_false_2 by lia. done.
Defined.
