(* ===== verification/ConnectionPool.v ===== *)
(** * ConnectionPool: the connection pool in use

    [AsyncConnectionPool] and [ConnectionReleaser]
    (infrastructure/persistence/postgresql/src/async_connection_pool.cc).  The
    bodies that run on the strand are the functions [GetConnection_task] and
    [ReturnConnection_task]; the step relation [step] interleaves coroutines
    that ask for connections, the strand and the deleters. *)

From stdpp Require Import base tactics option list strings numbers relations.
From S2P Require Import Prelude Channel.

Open Scope photon_scope.

Section pool.
Context {conn : Type} `{ChannelOps conn}.

(** ** State *)

(** What is posted to the strand: the continuation of coroutine [c] in
    GetConnection, or the lambda of ReturnConnection. *)
Inductive task := GetTask (c : nat) | ReturnTask (x : conn).

Record AsyncConnectionPool := mkPool {
  conn_str_ : string;
  pool_size_ : Z;
  strand_ : list task;
  pool_ : list conn;
  waiters_channel_ : channel conn
}.

(** A live [PooledConnection]: the coroutine that owns it and its connection. *)
Record system := mkSystem { the_pool : AsyncConnectionPool; held : list (nat * conn) }.

Definition with_strand (q : list task) (p : AsyncConnectionPool) : AsyncConnectionPool :=
  mkPool (conn_str_ p) (pool_size_ p) q (pool_ p) (waiters_channel_ p).
Definition with_idle (l : list conn) (p : AsyncConnectionPool) : AsyncConnectionPool :=
  mkPool (conn_str_ p) (pool_size_ p) (strand_ p) l (waiters_channel_ p).
Definition with_channel (ch : channel conn) (p : AsyncConnectionPool) : AsyncConnectionPool :=
  mkPool (conn_str_ p) (pool_size_ p) (strand_ p) (pool_ p) ch.

(** ** Operations *)

(** The constructor. *)
Definition AsyncConnectionPool_make (conn_str : string) (pool_size : Z)
    : outcome AsyncConnectionPool :=
  if (pool_size <=? 0)%Z then Throw (Exn invalid_argument "Pool size must be positive.")
  else Ret (mkPool conn_str pool_size [] [] (channel_make 0)).

(** The loop of Init, [n] iterations left; [connect] is AsyncConnect. *)
Fixpoint Init_loop {W} (connect : string → M W conn) (n : nat) (p : AsyncConnectionPool)
    : M W AsyncConnectionPool :=
  match n with
  | O => retM p
  | S n' =>
      let* x := connect (conn_str_ p) in
      Init_loop connect n' (with_idle (pool_ p ++ [x]) p)
  end.

Definition Init {W} (connect : string → M W conn) (p : AsyncConnectionPool)
    : M W AsyncConnectionPool :=
  Init_loop connect (Z.to_nat (pool_size_ p)) p.

(** What the loop amounts to: [n] connections opened one after the other. *)
Fixpoint open_connections {W} (connect : string → M W conn) (conn_str : string) (n : nat)
    : M W (list conn) :=
  match n with
  | O => retM []
  | S n' =>
      let* x := connect conn_str in
      let* xs := open_connections connect conn_str n' in
      retM (x :: xs)
  end.

(** [post(strand_, t)]. *)
Definition post (t : task) (p : AsyncConnectionPool) : AsyncConnectionPool :=
  with_strand (strand_ p ++ [t]) p.

(** GetConnection up to its first suspension. *)
Definition GetConnection (c : nat) (p : AsyncConnectionPool) : AsyncConnectionPool :=
  post (GetTask c) p.

(** GetConnection on the strand: the connection, or the coroutine is queued. *)
Definition GetConnection_task (c : nat) (p : AsyncConnectionPool)
    : option conn * AsyncConnectionPool :=
  match pool_ p with
  | x :: rest => (Some x, with_idle rest p)
  | [] =>
      let '(x, ch) := async_receive c (waiters_channel_ p) in (x, with_channel ch p)
  end.

Definition ReturnConnection (x : conn) (p : AsyncConnectionPool) : AsyncConnectionPool :=
  post (ReturnTask x) p.

(** The lambda of ReturnConnection on the strand: the coroutine that was given
    the connection, if one was. *)
Definition ReturnConnection_task (x : conn) (p : AsyncConnectionPool)
    : option nat * AsyncConnectionPool :=
  match try_send x (waiters_channel_ p) with
  | (Some given, ch) => (given, with_channel ch p)
  | (None, ch) =>
      let p' := with_channel ch p in (None, with_idle (pool_ p' ++ [x]) p')
  end.

(** The deleter; [locked] is what [pool.lock()] gives: the pool is alive. *)
Definition ConnectionReleaser (locked : bool) (x : conn) (p : AsyncConnectionPool)
    : AsyncConnectionPool :=
  if locked then ReturnConnection x p else p.

(** The strand runs one task; a coroutine that got a connection owns it. *)
Definition run_task (t : task) (s : system) : system :=
  match t with
  | GetTask c =>
      match GetConnection_task c (the_pool s) with
      | (Some x, p) => mkSystem p (held s ++ [(c, x)])
      | (None, p) => mkSystem p (held s)
      end
  | ReturnTask x =>
      match ReturnConnection_task x (the_pool s) with
      | (Some c, p) => mkSystem p (held s ++ [(c, x)])
      | (None, p) => mkSystem p (held s)
      end
  end.

Definition run_strand (s : system) : system :=
  match strand_ (the_pool s) with
  | [] => s
  | t :: q => run_task t (mkSystem (with_strand q (the_pool s)) (held s))
  end.

(** ** The system as a step relation *)

Definition gets (q : list task) : list nat :=
  omap (λ t, match t with GetTask c => Some c | ReturnTask _ => None end) q.
Definition returns (q : list task) : list conn :=
  omap (λ t, match t with ReturnTask x => Some x | GetTask _ => None end) q.

Context `{!ChannelLaws conn}.

(** Coroutines whose request is not answered, in the order of their calls. *)
Definition pending (s : system) : list nat :=
  ch_waiting (waiters_channel_ (the_pool s)) ++ gets (strand_ (the_pool s)).
(** Connections no coroutine owns, in the order they will be handed out. *)
Definition available (s : system) : list conn :=
  pool_ (the_pool s) ++ returns (strand_ (the_pool s)).

(** Work the system does on its own: the strand, and a coroutine that is done
    with its connection. *)
Inductive work : system → system → Prop :=
| work_strand s : strand_ (the_pool s) ≠ [] → work s (run_strand s)
| work_release s c x l1 l2 :
    held s = l1 ++ (c, x) :: l2 →
    work s (mkSystem (ConnectionReleaser true x (the_pool s)) (l1 ++ l2)).

Inductive step : system → system → Prop :=
| step_call s c :
    c ∉ pending s → c ∉ (held s).*1 →
    step s (mkSystem (GetConnection c (the_pool s)) (held s))
| step_work s s' : work s s' → step s s'.

(** The pool after Init, with the connections [conns]. *)
Definition initial (conns : list conn) (s : system) : Prop :=
  pool_ (the_pool s) = conns ∧ strand_ (the_pool s) = [] ∧ held s = []
  ∧ waiters_channel_ (the_pool s) = channel_make 0.

(** ** Invariant *)

Record pool_inv (conns : list conn) (s : system) : Prop := {
  inv_conserved : available s ++ (held s).*2 ≡ₚ conns;
  inv_coroutines : NoDup (pending s ++ (held s).*1);
  inv_idle : pool_ (the_pool s) = [] ∨ ch_waiting (waiters_channel_ (the_pool s)) = [];
  inv_buffer : ch_buffer (waiters_channel_ (the_pool s)) = [];
  inv_cap : ch_cap (waiters_channel_ (the_pool s)) = 0%N
}.

Lemma initial_inv conns s : initial conns s → pool_inv conns s.
Proof.
  intros (Hp & Hs & Hh & Hc). destruct (channel_make_law (A:=conn) 0) as (Hw & Hb & Hcap).
  split; unfold available, pending; rewrite ?Hp, ?Hs, ?Hh, ?Hc, ?Hw, ?Hb; simpl;
    rewrite ?app_nil_r; [done|constructor|by right|done|done].
Qed.

(** *** Init *)

(** A loop that opens connections and adds them one by one; a connection that
    cannot be opened ends it with its exception. *)
Lemma open_loop {W P} (connect : string → M W conn) (cs : P → string) (add : conn → P → P) (loop : nat → P → M W P)
    (Hstop : ∀ p, loop O p = retM p)
    (Hgo : ∀ n p, loop (S n) p = let* x := connect (cs p) in loop n (add x p))
    (Hcs : ∀ x p, cs (add x p) = cs p) n p w :
  loop n p w
  = match open_connections connect (cs p) n w with
    | (Ret xs, w') => (Ret (foldl (flip add) p xs), w')
    | (Throw e, w') => (Throw e, w')
    | (Pending, w') => (Pending, w')
    end.
Proof.
  revert p w. induction n as [|n IH]; intros p w; [by rewrite Hstop|].
  rewrite Hgo. simpl. unfold bindM. destruct (connect (cs p) w) as [[x|e|] w1]; [|done..].
  rewrite IH, Hcs. by destruct (open_connections connect (cs p) n w1) as [[xs|e|] w2].
Qed.

Lemma open_connections_length {W} (connect : string → M W conn) cs n w xs w' :
  open_connections connect cs n w = (Ret xs, w') → length xs = n.
Proof.
  revert w xs. induction n as [|n IH]; intros w xs; simpl; [by intros [= <- _]|].
  unfold bindM. destruct (connect cs w) as [[x|e|] w1]; [|done..].
  destruct (open_connections connect cs n w1) as [[ys|e|] w2] eqn:E; [|done..].
  unfold retM. intros [= <- ->]. simpl. f_equal. by eapply IH.
Qed.

Lemma add_idle xs p : foldl (flip (λ x p, with_idle (pool_ p ++ [x]) p)) p xs = with_idle (pool_ p ++ xs) p.
Proof.
  revert p. induction xs as [|x xs IH]; intros p; simpl.
  - rewrite app_nil_r. by destruct p.
  - rewrite IH. unfold with_idle. simpl. by rewrite <- (assoc_L (++)).
Qed.

(** Init of a pool as its constructor left it. *)
Lemma Init_eq {W} (connect : string → M W conn) cs size p w :
  AsyncConnectionPool_make cs size = Ret p →
  Init connect p w
  = match open_connections connect cs (Z.to_nat size) w with
    | (Ret xs, w') => (Ret (with_idle xs p), w')
    | (Throw e, w') => (Throw e, w')
    | (Pending, w') => (Pending, w')
    end.
Proof.
  unfold AsyncConnectionPool_make. destruct (size <=? 0)%Z; [done|]. intros [= <-]. unfold Init.
  rewrite (open_loop connect conn_str_ (λ x p, with_idle (pool_ p ++ [x]) p) (Init_loop connect)) by done. simpl.
  destruct (open_connections connect cs (Z.to_nat size) w) as [[xs|e|] w1]; [by rewrite add_idle|done..].
Qed.

(** The constructor and Init give a state the properties start from. *)
Lemma Init_initial {W} (connect : string → M W conn) cs size p p' w w' :
  AsyncConnectionPool_make cs size = Ret p → Init connect p w = (Ret p', w') →
  ∃ conns, open_connections connect cs (Z.to_nat size) w = (Ret conns, w')
    ∧ Z.of_nat (length conns) = size ∧ conns ≠ [] ∧ initial conns (mkSystem p' []).
Proof.
  intros Hmake. rewrite (Init_eq connect _ _ _ w Hmake). revert Hmake. unfold AsyncConnectionPool_make.
  destruct (Z.leb_spec size 0) as [|Hpos]; [done|]. intros [= <-].
  destruct (open_connections connect cs (Z.to_nat size) w) as [[xs|e|] w1] eqn:E; [|done..].
  intros [= <- <-]. pose proof (open_connections_length _ _ _ _ _ _ E) as Hl.
  exists xs. split_and!; [done|lia| |done]. intros ->. simpl in Hl. lia.
Qed.

(** What the strand does with its first task, in terms of what is pending and
    what is available. *)
Inductive strand_effect (s s' : system) : Prop :=
| effect_grant c x ps xs :
    pending s = c :: ps → available s = x :: xs →
    pending s' = ps → available s' = xs → held s' = held s ++ [(c, x)] → strand_effect s s'
| effect_internal :
    pending s' = pending s → available s' = available s → held s' = held s → strand_effect s s'.

Lemma run_strand_effect conns s :
  pool_inv conns s → strand_ (the_pool s) ≠ [] → strand_effect s (run_strand s).
Proof.
  intros Hinv Hne. pose proof (inv_idle _ _ Hinv) as Hidle. pose proof (inv_buffer _ _ Hinv) as Hbuf.
  pose proof (inv_cap _ _ Hinv) as Hcap. destruct s as [[cs n q idle ch] h]; simpl in *.
  destruct q as [|[c|x] q]; [done|..]; unfold run_strand; simpl; clear Hne.
  - unfold GetConnection_task; simpl. destruct idle as [|x idle].
    + destruct (async_receive_queued c ch Hbuf) as (ch' & -> & Hw & _ & _).
      apply effect_internal; unfold pending, available; simpl; [|done..].
      by rewrite Hw, <- app_assoc.
    + destruct Hidle as [?|Hw]; [done|].
      apply (effect_grant _ _ c x (gets q) (idle ++ returns q)); unfold pending, available; simpl;
        rewrite ?Hw; done.
  - unfold ReturnConnection_task; simpl. destruct (ch_waiting ch) as [|c ws] eqn:Hw.
    + rewrite (try_send_full x ch) by (rewrite ?Hw, ?Hbuf, ?Hcap; simpl; lia || done).
      apply effect_internal; unfold pending, available; simpl; [done| |done].
      by rewrite <- app_assoc.
    + destruct Hidle as [->|?]; [|done].
      destruct (try_send_waiter x ch c ws Hw) as (ch' & -> & Hw' & _ & _).
      apply (effect_grant _ _ c x (ws ++ gets q) (returns q)); unfold pending, available; simpl;
        rewrite ?Hw, ?Hw'; done.
Qed.

(** The strand keeps the channel empty of messages, and never leaves a
    connection idle beside a waiting coroutine. *)
Lemma run_strand_idle conns s :
  pool_inv conns s →
  let p := the_pool (run_strand s) in
  (pool_ p = [] ∨ ch_waiting (waiters_channel_ p) = [])
  ∧ ch_buffer (waiters_channel_ p) = [] ∧ ch_cap (waiters_channel_ p) = 0%N.
Proof.
  intros [_ _ Hidle Hbuf Hcap]. destruct s as [[cs n q idle ch] h]; simpl in *.
  unfold run_strand; simpl. destruct q as [|[c|x] q]; [done|..].
  - simpl. unfold GetConnection_task; simpl. destruct idle as [|x idle].
    + destruct (async_receive_queued c ch Hbuf) as (ch' & -> & Hw & Hb & Hc). simpl.
      rewrite Hb, Hc. auto.
    + destruct Hidle as [?|Hw]; [done|]. simpl. auto.
  - simpl. unfold ReturnConnection_task; simpl. destruct (ch_waiting ch) as [|c ws] eqn:Hw.
    + rewrite (try_send_full x ch) by (rewrite ?Hw, ?Hbuf, ?Hcap; simpl; lia || done). simpl. auto.
    + destruct Hidle as [->|?]; [|done].
      destruct (try_send_waiter x ch c ws Hw) as (ch' & -> & Hw' & Hb & Hc). simpl.
      rewrite Hb, Hc. auto.
Qed.

Lemma run_strand_inv conns s :
  pool_inv conns s → strand_ (the_pool s) ≠ [] → pool_inv conns (run_strand s).
Proof.
  intros Hinv Hne. destruct (run_strand_idle _ _ Hinv) as (Hi & Hb & Hc).
  destruct (run_strand_effect _ _ Hinv Hne) as [c x ps xs Hp Ha Hp' Ha' Hh'|Hp' Ha' Hh'];
    destruct Hinv as [Hcons Hnd _ _ _]; split; [..|done|done|done| | |done|done|done].
  - rewrite Ha', Hh', <- Hcons, Ha, fmap_app. simpl. solve_Permutation.
  - rewrite Hp', Hh', fmap_app. rewrite Hp in Hnd. simpl in *.
    replace (ps ++ (held s).*1 ++ [c]) with ((ps ++ (held s).*1) ++ [c]) by by rewrite <- app_assoc.
    by rewrite Permutation_app_comm.
  - by rewrite Ha', Hh'.
  - by rewrite Hp', Hh'.
Qed.

Lemma gets_app q1 q2 : gets (q1 ++ q2) = gets q1 ++ gets q2.
Proof. apply omap_app. Qed.
Lemma returns_app q1 q2 : returns (q1 ++ q2) = returns q1 ++ returns q2.
Proof. apply omap_app. Qed.

Lemma pending_call s c :
  pending (mkSystem (GetConnection c (the_pool s)) (held s)) = pending s ++ [c].
Proof. unfold pending. simpl. by rewrite gets_app, app_assoc. Qed.
Lemma available_call s c h :
  available (mkSystem (GetConnection c (the_pool s)) h) = available s.
Proof. unfold available. simpl. by rewrite returns_app, app_nil_r. Qed.
Lemma pending_release s x h :
  pending (mkSystem (ConnectionReleaser true x (the_pool s)) h) = pending s.
Proof. unfold pending. simpl. by rewrite gets_app, app_nil_r. Qed.
Lemma available_release s x h :
  available (mkSystem (ConnectionReleaser true x (the_pool s)) h) = available s ++ [x].
Proof. unfold available. simpl. by rewrite returns_app, app_assoc. Qed.

Lemma work_inv conns s s' : pool_inv conns s → work s s' → pool_inv conns s'.
Proof.
  intros Hinv Hw. destruct Hw as [s Hne|s c x l1 l2 Hh]; [by apply run_strand_inv|].
  destruct Hinv as [Hcons Hnd Hi Hb Hc]. split; [..|done|done|done].
  - rewrite available_release. simpl. rewrite <- Hcons, Hh, !fmap_app. simpl. solve_Permutation.
  - rewrite pending_release. simpl. revert Hnd. rewrite Hh, !fmap_app. simpl.
    rewrite (Permutation_app_comm ((l1).*1)). simpl. rewrite <- Permutation_middle.
    intros [_ Hnd]%NoDup_cons. by rewrite (Permutation_app_comm (l1.*1)).
Qed.

Lemma step_inv conns s s' : pool_inv conns s → step s s' → pool_inv conns s'.
Proof.
  intros Hinv Hstep. destruct Hstep as [s c Hc1 Hc2|s s' Hw]; [|by eapply work_inv].
  destruct Hinv as [Hcons Hnd Hi Hb Hc]. split; [..|done|done|done].
  - by rewrite available_call.
  - rewrite pending_call. simpl. rewrite <- app_assoc. simpl. rewrite <- Permutation_middle.
    apply NoDup_cons. split; [|done]. rewrite elem_of_app. tauto.
Qed.

Lemma reachable_inv conns s0 s : initial conns s0 → rtc step s0 s → pool_inv conns s.
Proof.
  intros H0 Hrun. eapply (rtc_invariant step (pool_inv conns)); [|done|by apply initial_inv].
  intros. by eapply step_inv.
Qed.

(** ** Specification: a first-come first-served allocator *)

Record allocator := mkAllocator {
  requests : list nat;
  free : list conn;
  granted : list (nat * conn)
}.

Inductive allocate : allocator → allocator → Prop :=
| alloc_request c rs fs gs :
    c ∉ rs → c ∉ gs.*1 → allocate (mkAllocator rs fs gs) (mkAllocator (rs ++ [c]) fs gs)
| alloc_grant c rs x fs gs :
    allocate (mkAllocator (c :: rs) (x :: fs) gs) (mkAllocator rs fs (gs ++ [(c, x)]))
| alloc_release rs fs c x l1 l2 :
    allocate (mkAllocator rs fs (l1 ++ (c, x) :: l2)) (mkAllocator rs (fs ++ [x]) (l1 ++ l2)).

Definition abstract (s : system) : allocator := mkAllocator (pending s) (available s) (held s).

Lemma step_simulates conns s s' :
  pool_inv conns s → step s s' → rtc allocate (abstract s) (abstract s').
Proof.
  intros Hinv Hstep. destruct Hstep as [s c Hc1 Hc2|s s' Hw]; [|destruct Hw as [s Hne|s c x l1 l2 Hh]].
  - unfold abstract at 2. rewrite pending_call, available_call. by apply rtc_once, alloc_request.
  - destruct (run_strand_effect _ _ Hinv Hne) as [c x ps xs Hp Ha Hp' Ha' Hh'|Hp' Ha' Hh'];
      unfold abstract; rewrite Hp', Ha', Hh'; [|done].
    rewrite Hp, Ha. by apply rtc_once, alloc_grant.
  - unfold abstract. rewrite pending_release, available_release, Hh. apply rtc_once, alloc_release.
Qed.

(** ** Progress *)

(** What the work left to do weighs: a posted request, a waiting coroutine, a
    held connection, a posted return. *)
Definition weight (s : system) : nat :=
  4 * length (gets (strand_ (the_pool s))) + 3 * length (ch_waiting (waiters_channel_ (the_pool s)))
  + 2 * length (held s) + length (returns (strand_ (the_pool s))).

Lemma work_weight conns s s' : pool_inv conns s → work s s' → weight s' < weight s.
Proof.
  intros [_ _ Hidle Hbuf Hcap] Hw. destruct Hw as [s Hne|s c x l1 l2 Hh].
  - destruct s as [[cs n q idle ch] h]; simpl in *. destruct q as [|[c|x] q]; [done|..];
      unfold run_strand, run_task, GetConnection_task, ReturnConnection_task; simpl.
    + destruct idle as [|x idle].
      * destruct (async_receive_queued c ch Hbuf) as (ch' & -> & Hw & _ & _).
        unfold weight; simpl. rewrite Hw, length_app. simpl. lia.
      * unfold weight; simpl. rewrite length_app. simpl. lia.
    + destruct (ch_waiting ch) as [|c ws] eqn:Hw.
      * rewrite (try_send_full x ch) by (rewrite ?Hw, ?Hbuf, ?Hcap; simpl; lia || done).
        unfold weight; simpl. lia.
      * destruct (try_send_waiter x ch c ws Hw) as (ch' & -> & Hw' & _ & _).
        unfold weight; simpl. rewrite Hw, Hw', length_app. simpl. lia.
  - unfold weight. simpl. rewrite Hh, gets_app, returns_app, !length_app. simpl. lia.
Qed.

(** The system can only stop with everything handed back and everyone served. *)
Lemma no_work_settled conns s :
  conns ≠ [] → pool_inv conns s → (∀ s', ¬ work s s') →
  pending s = [] ∧ held s = [] ∧ pool_ (the_pool s) ≡ₚ conns.
Proof.
  intros Hne [Hcons _ Hidle _ _] Hstop.
  assert (held s = []) as Hh.
  { destruct (held s) as [|[c x] l] eqn:E; [done|]. exfalso.
    exact (Hstop _ (work_release s c x [] l E)). }
  assert (strand_ (the_pool s) = []) as Hs.
  { destruct (strand_ (the_pool s)) as [|t q] eqn:E; [done|]. exfalso.
    apply (Hstop (run_strand s)), work_strand. by rewrite E. }
  revert Hcons. unfold pending, available. rewrite Hs, Hh. simpl. rewrite !app_nil_r. intros Hcons.
  split; [|done]. destruct Hidle as [Hp|Hw]; [|done].
  rewrite Hp in Hcons. by apply Permutation_nil_l in Hcons.
Qed.

Lemma work_bounded conns n s s' : pool_inv conns s → nsteps work n s s' → n + weight s' ≤ weight s.
Proof.
  intros Hinv Hrun. revert Hinv. induction Hrun as [s|n s s1 s2 Hw _ IH]; intros Hinv; [lia|].
  pose proof (work_weight _ _ _ Hinv Hw). pose proof (IH (work_inv _ _ _ Hinv Hw)). lia.
Qed.

(** ** One coroutine's view

    GetConnection and the deleter as computations, for a caller that is
    modelled as running alone: the strand catches up before the caller goes on.
    Both are runs of [step]. *)

Fixpoint run_strand_n (n : nat) (s : system) : system :=
  match n with O => s | S n' => run_strand_n n' (run_strand s) end.

Definition lookup_held (c : nat) (l : list (nat * conn)) : option conn :=
  snd <$> head (filter (λ p, p.1 = c) l).

Definition GetConnectionM (c : nat) : M system conn := fun s =>
  let s1 := mkSystem (GetConnection c (the_pool s)) (held s) in
  let s2 := run_strand_n (length (strand_ (the_pool s1))) s1 in
  match lookup_held c (held s2) with
  | Some x => (Ret x, s2)
  | None => (Pending, s2)
  end.

Definition ReleaseM (c : nat) (x : conn) : M system () := fun s =>
  (Ret (), mkSystem (ConnectionReleaser true x (the_pool s)) (filter (λ p, p.1 ≠ c) (held s))).

Lemma run_strand_tasks s :
  strand_ (the_pool (run_strand s)) = tail (strand_ (the_pool s)).
Proof.
  destruct s as [[cs n q idle ch] h]. unfold run_strand. simpl. destruct q as [|[c|x] q]; [done|..]; simpl.
  - unfold GetConnection_task; simpl. destruct idle; [|done]. by destruct (async_receive c ch) as [[]].
  - unfold ReturnConnection_task; simpl. by destruct (try_send x ch) as [[[]|] ?].
Qed.

Lemma run_strand_n_spec conns n s :
  pool_inv conns s → n ≤ length (strand_ (the_pool s)) →
  rtc step s (run_strand_n n s) ∧ pool_inv conns (run_strand_n n s)
  ∧ strand_ (the_pool (run_strand_n n s)) = drop n (strand_ (the_pool s))
  ∧ (∃ new, held (run_strand_n n s) = held s ++ new ∧ pending s = new.*1 ++ pending (run_strand_n n s)
            ∧ available s = new.*2 ++ available (run_strand_n n s)).
Proof.
  revert s. induction n as [|n IH]; intros s Hinv Hn; simpl.
  { split_and!; [done..|]. exists []. by rewrite app_nil_r. }
  assert (strand_ (the_pool s) ≠ []) as Hne by (intros E; rewrite E in Hn; simpl in Hn; lia).
  pose proof (run_strand_inv _ _ Hinv Hne) as Hinv'.
  destruct (IH (run_strand s) Hinv') as (Hr & Hi & Hs & new & Hh & Hp & Ha).
  { rewrite run_strand_tasks. destruct (strand_ (the_pool s)); simpl in *; lia. }
  split_and!; [|done| |].
  - eapply rtc_l; [|done]. by apply step_work, work_strand.
  - rewrite Hs, run_strand_tasks. by destruct (strand_ (the_pool s)).
  - destruct (run_strand_effect _ _ Hinv Hne) as [c x ps xs Hp1 Ha1 Hp' Ha' Hh'|Hp' Ha' Hh'].
    + exists ((c, x) :: new). rewrite Hh, Hh', Hp1, Ha1, <- Hp', <- Ha', Hp, Ha. simpl.
      by rewrite <- app_assoc.
    + exists new. by rewrite Hh, Hh', <- Hp', <- Ha', Hp, Ha.
Qed.

Lemma lookup_held_Some c x l : NoDup l.*1 → (c, x) ∈ l → lookup_held c l = Some x.
Proof.
  unfold lookup_held. induction l as [|[c' x'] l IH]; [by intros _ ?%elem_of_nil|].
  simpl. intros [Hc' Hnd]%NoDup_cons [[= -> ->]|Hin]%elem_of_cons.
  - by rewrite filter_cons_True.
  - rewrite filter_cons_False; [by apply IH|]. simpl. intros ->.
    apply Hc'. apply list_elem_of_fmap. by exists (c, x).
Qed.

(** A coroutine that asks when requests are fewer than connections at hand gets
    the next one; nobody else is affected. *)
Lemma GetConnectionM_spec conns c s :
  pool_inv conns s → c ∉ pending s → c ∉ (held s).*1 →
  length (pending s) < length (available s) →
  ∃ x s', GetConnectionM c s = (Ret x, s') ∧ rtc step s s' ∧ pool_inv conns s'
    ∧ available s !! length (pending s) = Some x
    ∧ strand_ (the_pool s') = [] ∧ pending s' = [] ∧ (c, x) ∈ held s'.
Proof.
  intros Hinv Hc1 Hc2 Hlt. set (s1 := mkSystem (GetConnection c (the_pool s)) (held s)).
  assert (step s s1) as Hs1 by by apply step_call.
  pose proof (step_inv _ _ _ Hinv Hs1) as Hinv1.
  destruct (run_strand_n_spec conns (length (strand_ (the_pool s1))) s1 Hinv1 (Nat.le_refl _))
    as (Hr & Hi & Hs & new & Hh & Hp & Ha).
  set (s2 := run_strand_n (length (strand_ (the_pool s1))) s1) in *.
  rewrite drop_all in Hs. pose proof (inv_idle _ _ Hi) as Hidle.
  unfold s1 in Hp, Ha. rewrite pending_call in Hp. rewrite available_call in Ha.
  assert (pending s2 = []) as Hp2.
  { destruct Hidle as [Hn|Hw]; [|unfold pending; by rewrite Hw, Hs].
    assert (available s2 = []) as Ha2 by (unfold available; by rewrite Hn, Hs).
    rewrite Ha2, app_nil_r in Ha. rewrite Ha in Hlt. apply (f_equal length) in Hp.
    rewrite !length_app, !length_fmap in *. simpl in Hp.
    destruct (pending s2); [done|simpl in Hp; lia]. }
  rewrite Hp2, app_nil_r in Hp.
  assert (∃ x, new !! length (pending s) = Some (c, x)) as [x Hx].
  { assert (new.*1 !! length (pending s) = Some c) as Hl
      by by rewrite <- Hp, lookup_app_r, Nat.sub_diag.
    apply list_lookup_fmap_Some in Hl as ([c' x] & E & Hl). simpl in *. subst. by exists x. }
  assert ((c, x) ∈ held s2) as Hin.
  { rewrite Hh. apply elem_of_app. right. by eapply list_elem_of_lookup_2. }
  exists x, s2. split_and!; [|by eapply rtc_l|done| |done|done|done].
  - unfold GetConnectionM. fold s1 s2. erewrite lookup_held_Some; [done| |done].
    pose proof (inv_coroutines _ _ Hi) as Hnd. by apply NoDup_app in Hnd as (_ & _ & ?).
  - rewrite Ha, lookup_app_l; [by rewrite list_lookup_fmap, Hx|].
    apply lookup_lt_Some in Hx. by rewrite length_fmap.
Qed.

Lemma filter_held (c : nat) (x : conn) l1 l2 :
  NoDup (l1 ++ (c, x) :: l2).*1 → filter (λ p, p.1 ≠ c) (l1 ++ (c, x) :: l2) = l1 ++ l2.
Proof.
  assert (∀ l : list (nat * conn), c ∉ l.*1 → filter (λ p, p.1 ≠ c) l = l) as Hf.
  { intros l. induction l as [|[c' x'] l IH]; [done|]. simpl. intros [Hne Hni]%not_elem_of_cons.
    rewrite filter_cons_True by (simpl; congruence). by rewrite IH. }
  rewrite fmap_app. simpl. intros (_ & Hd & [Hc Hnd]%NoDup_cons)%NoDup_app.
  rewrite filter_app, filter_cons_False by (simpl; tauto). rewrite !Hf; [done|done|].
  intros Hin. apply (Hd c); [done|]. by apply list_elem_of_here.
Qed.

Lemma ReleaseM_work conns c x s :
  pool_inv conns s → (c, x) ∈ held s → work s (ReleaseM c x s).2.
Proof.
  intros Hinv (l1 & l2 & Hh)%list_elem_of_split.
  pose proof (inv_coroutines _ _ Hinv) as Hnd. apply NoDup_app in Hnd as (_ & _ & Hnd).
  rewrite Hh in Hnd. simpl. rewrite Hh, filter_held by done. by eapply work_release.
Qed.

Lemma lookup_held_elem c x (l : list (nat * conn)) : lookup_held c l = Some x → (c, x) ∈ l.
Proof.
  unfold lookup_held. intros ([c' y] & Hh & E)%fmap_Some. simpl in E. subst y.
  destruct (filter (λ p, p.1 = c) l) as [|q l'] eqn:Ef; [done|]. injection Hh as ->.
  assert ((c', x) ∈ filter (λ p : nat * conn, p.1 = c) l) as Hin by (rewrite Ef; apply list_elem_of_here).
  apply list_elem_of_filter in Hin as [Hc Hin]. simpl in Hc. by subst.
Qed.

Lemma ReleaseM_spec conns c x s :
  pool_inv conns s → (c, x) ∈ held s →
  ∃ s', ReleaseM c x s = (Ret (), s') ∧ step s s' ∧ pool_inv conns s'
    ∧ pending s' = pending s ∧ available s' = available s ++ [x] ∧ c ∉ (held s').*1.
Proof.
  intros Hinv Hin. pose proof (ReleaseM_work _ _ _ _ Hinv Hin) as Hwork. simpl in Hwork.
  eexists. split_and!; [done|by apply step_work|by eapply work_inv|apply pending_release|apply available_release|].
  simpl. intros ([c' y] & -> & Hy)%list_elem_of_fmap. by apply list_elem_of_filter in Hy as [Hy _].
Qed.
End pool.

(** ** Properties *)

Section properties.
Context {conn : Type} `{ChannelLaws conn}.
Implicit Types s : @system conn _.

(** C13: in every interleaving of callers, strand and deleters, every connection
    Init opened is in exactly one place (idle, on its way back, or owned), so
    two coroutines never own the same one and an owned one is never idle; no
    coroutine has two requests in flight; and no coroutine waits while a
    connection lies idle. *)
Theorem pool_safe (conns : list conn) (s0 s : system)
    (Hdistinct : NoDup conns) (Hinit : initial conns s0) (Hrun : rtc step s0 s) :
  pool_ (the_pool s) ++ returns (strand_ (the_pool s)) ++ (held s).*2 ≡ₚ conns
  ∧ NoDup (held s).*2 ∧ (∀ x, x ∈ (held s).*2 → x ∉ pool_ (the_pool s))
  ∧ NoDup (pending s ++ (held s).*1)
  ∧ (pool_ (the_pool s) ≠ [] → ch_waiting (waiters_channel_ (the_pool s)) = []).
Proof.
  destruct (reachable_inv _ _ _ Hinit Hrun) as [Hcons Hnd Hidle _ _].
  unfold available in Hcons. rewrite <- app_assoc in Hcons.
  assert (NoDup (pool_ (the_pool s) ++ returns (strand_ (the_pool s)) ++ (held s).*2)) as Hn
    by by rewrite Hcons.
  apply NoDup_app in Hn as (_ & Hd & (_ & _ & Hn)%NoDup_app).
  split_and!; [done|done| |done|by destruct Hidle].
  intros x Hx Hp. apply (Hd x Hp). apply elem_of_app. by right.
Qed.

(** C14: the pool refines a first-come first-served allocator: every run of the
    pool, seen through the requests not yet answered, the connections nobody
    owns and those granted, is a run of an allocator whose only grant gives the
    connection free for longest to the coroutine that asked first. *)
Theorem pool_refines_allocator (conns : list conn) (s0 s : system)
    (Hinit : initial conns s0) (Hrun : rtc step s0 s) :
  rtc allocate (mkAllocator [] conns []) (abstract s).
Proof.
  assert (abstract s0 = mkAllocator [] conns []) as <-.
  { destruct Hinit as (Hp & Hs & Hh & Hc). destruct (channel_make_law (A:=conn) 0) as (Hw & _).
    unfold abstract, pending, available. rewrite Hp, Hs, Hh, Hc, Hw. simpl. by rewrite app_nil_r. }
  apply initial_inv in Hinit. revert Hinit.
  induction Hrun as [|s s1 s2 Hs _ IH]; intros Hinv; [done|].
  trans (abstract s1); [by eapply step_simulates|]. apply IH. by eapply step_inv.
Qed.

(** C21: nobody starves: from any reachable state, when no new request is made,
    the strand and the deleters can only take as many steps as [weight] counts,
    and when neither can move any more every request has been served, every
    connection handed back, and all of them lie idle. *)
Theorem pool_settles (conns : list conn) (s0 s : system)
    (Hsome : conns ≠ []) (Hinit : initial conns s0) (Hrun : rtc step s0 s) :
  (∀ n s', nsteps work n s s' → n ≤ weight s)
  ∧ ∀ s', rtc work s s' → (∀ s'', ¬ work s' s'') →
      pending s' = [] ∧ held s' = [] ∧ pool_ (the_pool s') ≡ₚ conns.
Proof.
  pose proof (reachable_inv _ _ _ Hinit Hrun) as Hinv. split.
  - intros n s' Hn. pose proof (work_bounded _ _ _ _ Hinv Hn). lia.
  - intros s' Hw Hstop. apply (no_work_settled conns s' Hsome); [|done].
    eapply (rtc_invariant work (pool_inv conns)); [|done|done]. intros. by eapply work_inv.
Qed.

(** A coroutine that runs alone and asks the pool while a connection is at
    hand gets one, the one free for longest; when its deleter runs the
    connection is back at the pool's end of the line, and the strand is ready
    for the next caller. *)
Theorem GetConnectionM_ReleaseM (conns : list conn) (c : nat) (s : system)
    (Hinv : pool_inv conns s) (Hidle : pending s = []) (Hnew : c ∉ (held s).*1)
    (Hany : available s ≠ []) :
  ∃ x s1 s2, GetConnectionM c s = (Ret x, s1) ∧ head (available s) = Some x ∧ (c, x) ∈ held s1
    ∧ ReleaseM c x s1 = (Ret (), s2) ∧ rtc step s s2 ∧ pool_inv conns s2
    ∧ pending s2 = [] ∧ x ∈ available s2 ∧ c ∉ (held s2).*1.
Proof.
  destruct (GetConnectionM_spec conns c s) as (x & s1 & E1 & Hr & Hi & Ha & _ & Hp & Hin);
    [done|by rewrite Hidle; apply not_elem_of_nil|done|..].
  { rewrite Hidle. destruct (available s); [done|simpl; lia]. }
  destruct (ReleaseM_spec conns c x s1 Hi Hin) as (s2 & E2 & Hst & Hi2 & Hp2 & Ha2 & Hc).
  exists x, s1, s2. split_and!; [done| |done|done|by eapply rtc_r|done|congruence| |done].
  - rewrite Hidle in Ha. by destruct (available s).
  - rewrite Ha2. apply elem_of_app. right. by apply list_elem_of_here.
Qed.
End properties.

(** *** Two coroutines and one connection: the second waits for the first *)

Definition example_pool (q : list task) (idle : list nat) (ws : list nat)
    : @AsyncConnectionPool nat _ := mkPool "" 1 q idle (mkChan ws [] 0).
Definition example_start : system := mkSystem (example_pool [] [7] []) [].
Definition example_waiting : system := mkSystem (example_pool [] [] [2]) [(1, 7)].

Lemma example_initial : initial [7] example_start.
Proof. done. Qed.

Lemma example_run : rtc step example_start example_waiting.
Proof.
  eapply rtc_l; [apply (step_call _ 1); by apply (bool_decide_unpack _)|].
  eapply rtc_l; [by apply step_work, work_strand|].
  eapply rtc_l; [apply (step_call _ 2); by apply (bool_decide_unpack _)|].
  eapply rtc_l; [by apply step_work, work_strand|].
  apply rtc_refl.
Qed.

Lemma pool_safe_witness :
  let s := example_waiting in
  pool_ (the_pool s) ++ returns (strand_ (the_pool s)) ++ (held s).*2 ≡ₚ [7]
  ∧ NoDup (held s).*2 ∧ (∀ x, x ∈ (held s).*2 → x ∉ pool_ (the_pool s))
  ∧ NoDup (pending s ++ (held s).*1)
  ∧ (pool_ (the_pool s) ≠ [] → ch_waiting (waiters_channel_ (the_pool s)) = []).
Proof.
  apply (pool_safe [7] example_start example_waiting).
  - apply NoDup_singleton.
  - exact example_initial.
  - exact example_run.
Defined.

Lemma pool_refines_allocator_witness :
  rtc allocate (mkAllocator [] [7] []) (mkAllocator [2] [] [(1, 7)]).
Proof.
  exact (pool_refines_allocator [7] example_start example_waiting example_initial example_run).
Defined.

Lemma pool_settles_witness :
  (∀ n s', nsteps work n example_waiting s' → n ≤ weight example_waiting)
  ∧ ∀ s', rtc work example_waiting s' → (∀ s'', ¬ work s' s'') →
      pending s' = [] ∧ held s' = [] ∧ pool_ (the_pool s') ≡ₚ [7].
Proof.
  apply (pool_settles [7] example_start example_waiting).
  - discriminate.
  - exact example_initial.
  - exact example_run.
Defined.

Lemma GetConnectionM_ReleaseM_witness :
  ∃ x s1 s2, GetConnectionM 1 example_start = (Ret x, s1) ∧ head [7] = Some x ∧ (1, x) ∈ held s1
    ∧ ReleaseM 1 x s1 = (Ret (), s2) ∧ rtc step example_start s2 ∧ pool_inv [7] s2
    ∧ pending s2 = [] ∧ x ∈ available s2 ∧ 1 ∉ (held s2).*1.
Proof.
  apply (GetConnectionM_ReleaseM [7] 1 example_start).
  - apply initial_inv, example_initial.
  - reflexivity.
  - apply not_elem_of_nil.
  - discriminate.
Defined.
