(* ===== verification/PoolLifetime.v ===== *)
(** * PoolLifetime: who keeps the pool alive

    [AsyncConnectionPool] is shared; its coroutines and the lambda that
    ReturnConnection posts hold the raw [this], and only the deleter of a
    connection asks whether the pool is still there.  Here the pool of
    ConnectionPool.v has owners that may let go, threads that may be stopped, and a
    mark that something touched it after it was destroyed. *)

From stdpp Require Import base tactics option list strings numbers relations.
From S2P Require Import Prelude Channel ConnectionPool.

Open Scope photon_scope.

Section lifetime.
Context {conn : Type} `{ChannelLaws conn}.

(** The owners are the shared pointers to the pool; [threads] says whether the
    io_context is being run. *)
Record lifetime := mkLifetime {
  pool_system : @system conn _;
  owners : nat;
  destroyed : bool;
  threads : bool;
  touched : bool
}.
Implicit Types s : lifetime.

Definition with_system (x : system) s : lifetime := mkLifetime x (owners s) (destroyed s) (threads s) (touched s).

(** The last owner that lets go destroys the pool. *)
Definition drop_owner s : lifetime :=
  mkLifetime (pool_system s) (pred (owners s)) (destroyed s || (owners s =? 1)%nat) (threads s) (touched s).

(** [ioc_->stop()], and the threads are joined. *)
Definition stop_threads s : lifetime := mkLifetime (pool_system s) (owners s) (destroyed s) false (touched s).

(** A task of the strand, on whatever [this] points to. *)
Definition strand_runs s : lifetime :=
  if destroyed s
  then mkLifetime (mkSystem (with_strand (tail (strand_ (the_pool (pool_system s)))) (the_pool (pool_system s)))
                     (held (pool_system s))) (owners s) true (threads s) true
  else with_system (run_strand (pool_system s)) s.

(** The deleter of the connection [x]: [pool.lock()] fails once the pool is gone. *)
Definition deleter_runs (x : conn) (rest : list (nat * conn)) s : lifetime :=
  with_system (mkSystem (ConnectionReleaser (negb (destroyed s)) x (the_pool (pool_system s))) rest) s.

(** What can happen, when an owner lets go only as [may_drop] allows.  A deleter
    also runs when a suspended coroutine is destroyed, threads or not. *)
Inductive lifetime_step (may_drop : lifetime → Prop) : lifetime → lifetime → Prop :=
| life_call s c :
    threads s = true → (0 < owners s)%nat → c ∉ pending (pool_system s) → c ∉ (held (pool_system s)).*1 →
    lifetime_step may_drop s
      (with_system (mkSystem (GetConnection c (the_pool (pool_system s))) (held (pool_system s))) s)
| life_strand s :
    threads s = true → strand_ (the_pool (pool_system s)) ≠ [] → lifetime_step may_drop s (strand_runs s)
| life_release s c x l1 l2 :
    held (pool_system s) = (l1 ++ (c, x) :: l2)%list → lifetime_step may_drop s (deleter_runs x (l1 ++ l2)%list s)
| life_drop s : (0 < owners s)%nat → may_drop s → lifetime_step may_drop s (drop_owner s)
| life_stop s : lifetime_step may_drop s (stop_threads s).

(** A pool in use, with [n] owners. *)
Definition alive (n : nat) (x : system) : lifetime := mkLifetime x n false true false.

(** *** When the threads are stopped first *)

Definition stopped s : Prop := threads s = false.

Record outlived s : Prop := {
  o_untouched : touched s = false;
  o_stopped : destroyed s = true → threads s = false;
  o_owned : destroyed s = true → owners s = O
}.

Lemma outlived_step s s' : outlived s → lifetime_step stopped s s' → outlived s'.
Proof.
  intros [Hu Hs Ho] Hstep. destruct Hstep as [s c Ht Hn _ _|s Ht _|s c x l1 l2 _|s Hn Hd|s]; try by split.
  - unfold strand_runs. destruct (destroyed s) eqn:Ed; [exfalso; rewrite Hs in Ht by done; done|].
    split; simpl; [done|by rewrite Ed..].
  - unfold stopped in Hd. split; simpl; [done|done|]. destruct (destroyed s) eqn:Ed; simpl.
    + intros _. by rewrite Ho.
    + intros ->%Nat.eqb_eq. done.
Qed.
End lifetime.

(** ** Properties *)
Section properties.
Context {conn : Type} `{ChannelLaws conn}.

(** Stopped first, the pool outlives whatever uses it: if its owners let go only
    when the asio threads have been stopped, as Application's destructor has it,
    then nothing ever touches the destroyed pool, whatever coroutines, strand and
    deleters do before and after; and once it is gone, connections are closed
    instead of posted to it. *)
Theorem stopped_first_safe (n : nat) (x : @system conn _) (s : lifetime)
    (Hrun : rtc (lifetime_step stopped) (alive n x) s) :
  touched s = false
  ∧ (destroyed s = true → ∀ s', lifetime_step stopped s s' →
       strand_ (the_pool (pool_system s')) = strand_ (the_pool (pool_system s))).
Proof.
  assert (outlived s) as [Hu Hs Ho].
  { eapply (rtc_invariant (lifetime_step stopped) outlived); [intros ? ?; apply outlived_step|exact Hrun|by split]. }
  split; [done|]. intros Hd s' Hstep.
  destruct Hstep as [s c Ht Hn _ _|s Ht _|s c y l1 l2 _|s Hn _|s]; simpl; try done.
  - rewrite Ho in Hn by done. lia.
  - rewrite Hs in Ht by done. done.
  - by rewrite Hd.
Qed.

(** Otherwise the weak pointer in the deleter does not help: with any connections,
    there is a run in which a deleter finds the pool alive and posts the return of
    its connection, the last owner lets go, and the lambda runs on the destroyed
    pool. *)
Theorem lambda_outlives_pool (conns : list conn) (x : @system conn _) (Hinit : initial conns x) (Hsome : conns ≠ []) :
  ∃ s c y, rtc (lifetime_step (λ _, True)) (alive 1 x) s
    ∧ destroyed s = false ∧ held (pool_system s) = [(c, y)]
    ∧ touched (strand_runs (drop_owner (deleter_runs y [] s))) = true
    ∧ rtc (lifetime_step (λ _, True)) s (strand_runs (drop_owner (deleter_runs y [] s))).
Proof.
  destruct Hinit as (Hp & Hs & Hh & Hc). destruct conns as [|y conns]; [done|].
  destruct x as [[cs size q idle ch] h]; simpl in *. subst.
  set (x1 := mkSystem (mkPool cs size [GetTask 0%nat] (y :: conns) (channel_make 0)) []).
  set (s := with_system (run_strand x1) (alive 1 x1)).
  assert (held (pool_system s) = [(0%nat, y)]) as Hheld by done.
  exists s, 0%nat, y. split_and!; [|done|done|done|].
  - eapply rtc_l; [apply (life_call _ _ 0%nat); simpl; [done|lia| |by apply not_elem_of_nil]|].
    { unfold pending. simpl. destruct (channel_make_law (A:=conn) 0) as (-> & _). by apply not_elem_of_nil. }
    apply rtc_once. apply (life_strand _ (alive 1 x1)); done.
  - eapply rtc_l; [by apply (life_release _ s 0%nat y [] [])|].
    eapply rtc_l; [by apply life_drop; [simpl; lia|]|]. apply rtc_once, life_strand; [done|]. done.
Qed.
End properties.

(** One connection, and its only owner lets go. *)
Definition lone_pool : @system nat _ := mkSystem (mkPool "postgresql://" 1 [] [7%nat] (channel_make 0)) [].

Lemma stopped_first_safe_witness :
  let s := drop_owner (stop_threads (alive 1 lone_pool)) in
  touched s = false
  ∧ (destroyed s = true → ∀ s', lifetime_step stopped s s' →
       strand_ (the_pool (pool_system s')) = strand_ (the_pool (pool_system s))).
Proof.
  apply (stopped_first_safe 1 lone_pool). eapply rtc_l; [apply life_stop|].
  apply rtc_once. apply life_drop; [simpl; lia|reflexivity].
Defined.

Lemma lambda_outlives_pool_witness :
  ∃ s c y, rtc (lifetime_step (λ _, True)) (alive 1 lone_pool) s
    ∧ destroyed s = false ∧ held (pool_system s) = [(c, y)]
    ∧ touched (strand_runs (drop_owner (deleter_runs y [] s))) = true
    ∧ rtc (lifetime_step (λ _, True)) s (strand_runs (drop_owner (deleter_runs y [] s))).
Proof.
  apply (lambda_outlives_pool [7%nat] lone_pool).
  - repeat split.
  - discriminate.
Defined.
