(* ===== verification/OldPools.v ===== *)
(** * OldPools: the two earlier connection pools

    old_version/v2: the strand with an explicit deque of waiting coroutines;
    it is built and behaves as the pool in use, step for step.  old_version/v01:
    a mutex and a channel of signals; no wake-up is lost. *)

From stdpp Require Import base tactics option list strings numbers relations.
From S2P Require Import Prelude Channel ConnectionPool.

Open Scope photon_scope.

(** ** old_version/v2/old_async_conn_pool.cc *)
Module V2.
Section v2.
Context {conn : Type}.

Inductive v2_task := GetTask (c : nat) | ReturnTask (x : conn).

(** [waiters_] holds the coroutine of each [Waiter]; a waiter in the deque has
    no connection assigned yet. *)
Record AsyncConnectionPool := mkPool {
  conn_str_ : string;
  pool_size_ : Z;
  strand_ : list v2_task;
  pool_ : list conn;
  waiters_ : list nat
}.
Record system := mkSystem { the_pool : AsyncConnectionPool; held : list (nat * conn) }.

Definition AsyncConnectionPool_make (conn_str : string) (pool_size : Z) : outcome AsyncConnectionPool :=
  if (pool_size <=? 0)%Z then Throw (Exn invalid_argument "Pool size must be positive.")
  else Ret (mkPool conn_str pool_size [] [] []).

(** The loop of Init, [n] iterations left; [connect] is AsyncConnect. *)
Fixpoint Init_loop {W} (connect : string → M W conn) (n : nat) (p : AsyncConnectionPool)
    : M W AsyncConnectionPool :=
  match n with
  | O => retM p
  | S n' =>
      let* x := connect (conn_str_ p) in
      Init_loop connect n' (mkPool (conn_str_ p) (pool_size_ p) (strand_ p) (pool_ p ++ [x]) (waiters_ p))
  end.

Definition Init {W} (connect : string → M W conn) (p : AsyncConnectionPool) : M W AsyncConnectionPool :=
  Init_loop connect (Z.to_nat (pool_size_ p)) p.

(** [WaitForConnectionAwaiter::await_suspend]. *)
Definition await_suspend (c : nat) (p : AsyncConnectionPool) : AsyncConnectionPool :=
  mkPool (conn_str_ p) (pool_size_ p) (strand_ p) (pool_ p) (waiters_ p ++ [c]).

Definition GetConnection (c : nat) (p : AsyncConnectionPool) : AsyncConnectionPool :=
  mkPool (conn_str_ p) (pool_size_ p) (strand_ p ++ [GetTask c]) (pool_ p) (waiters_ p).

Definition GetConnection_task (c : nat) (p : AsyncConnectionPool)
    : option conn * AsyncConnectionPool :=
  match pool_ p with
  | x :: rest => (Some x, mkPool (conn_str_ p) (pool_size_ p) (strand_ p) rest (waiters_ p))
  | [] => (None, await_suspend c p)
  end.

Definition ReturnConnection (x : conn) (p : AsyncConnectionPool) : AsyncConnectionPool :=
  mkPool (conn_str_ p) (pool_size_ p) (strand_ p ++ [ReturnTask x]) (pool_ p) (waiters_ p).

(** The front waiter is assigned the connection and resumed. *)
Definition ReturnConnection_task (x : conn) (p : AsyncConnectionPool)
    : option nat * AsyncConnectionPool :=
  match waiters_ p with
  | c :: rest => (Some c, mkPool (conn_str_ p) (pool_size_ p) (strand_ p) (pool_ p) rest)
  | [] => (None, mkPool (conn_str_ p) (pool_size_ p) (strand_ p) (pool_ p ++ [x]) [])
  end.

Definition ConnectionReleaser (locked : bool) (x : conn) (p : AsyncConnectionPool)
    : AsyncConnectionPool :=
  if locked then ReturnConnection x p else p.

Definition run_task (t : v2_task) (s : system) : system :=
  match t with
  | GetTask c =>
      match GetConnection_task c (the_pool s) with
      | (Some x, p) => mkSystem p (held s ++ [(c, x)])
      | (None, p) => mkSystem p (held s)
      end
  | ReturnTask x =>
      match ReturnConnection_task x (the_pool s) with
      | (Some c, p) => mkSystem p (held s ++ [(c, x)])
      | (None, p) => mkSystem p (held s)
      end
  end.

Definition run_strand (s : system) : system :=
  match strand_ (the_pool s) with
  | [] => s
  | t :: q => run_task t
      (mkSystem (mkPool (conn_str_ (the_pool s)) (pool_size_ (the_pool s)) q (pool_ (the_pool s)) (waiters_ (the_pool s))) (held s))
  end.

Definition gets (q : list v2_task) : list nat :=
  omap (λ t, match t with GetTask c => Some c | ReturnTask _ => None end) q.

Inductive step : system → system → Prop :=
| step_call s c :
    c ∉ waiters_ (the_pool s) ++ gets (strand_ (the_pool s)) → c ∉ (held s).*1 →
    step s (mkSystem (GetConnection c (the_pool s)) (held s))
| step_strand s : strand_ (the_pool s) ≠ [] → step s (run_strand s)
| step_release s c x l1 l2 :
    held s = l1 ++ (c, x) :: l2 →
    step s (mkSystem (ConnectionReleaser true x (the_pool s)) (l1 ++ l2)).

(** The connections Init opens, added one by one. *)
Definition add (x : conn) (p : AsyncConnectionPool) : AsyncConnectionPool :=
  mkPool (conn_str_ p) (pool_size_ p) (strand_ p) (pool_ p ++ [x]) (waiters_ p).

Lemma v2_add_all xs p : foldl (flip add) p xs = mkPool (conn_str_ p) (pool_size_ p) (strand_ p) (pool_ p ++ xs) (waiters_ p).
Proof.
  revert p. induction xs as [|x xs IH]; intros p; simpl.
  - rewrite app_nil_r. by destruct p.
  - rewrite IH. simpl. by rewrite <- (assoc_L (++)).
Qed.

(** *** The pool in use, on a channel made of two lists, does the same *)

Definition task_of (t : v2_task) : @ConnectionPool.task conn :=
  match t with
  | GetTask c => ConnectionPool.GetTask c
  | ReturnTask x => ConnectionPool.ReturnTask x
  end.

Definition same_state (s : system) (s' : @ConnectionPool.system conn _) : Prop :=
  let p := the_pool s in let p' := ConnectionPool.the_pool s' in
  task_of <$> strand_ p = ConnectionPool.strand_ p'
  ∧ pool_ p = ConnectionPool.pool_ p'
  ∧ mkChan (waiters_ p) [] 0 = waiters_channel_ p'
  ∧ held s = ConnectionPool.held s'.

(** The constructor and Init of both pools, given the same connections, end in
    the same state. *)
Lemma v2_Init_same {W} (connect : string → M W conn) cs size p p1 w w1 :
  AsyncConnectionPool_make cs size = Ret p → Init connect p w = (Ret p1, w1) →
  ∃ p' p1', ConnectionPool.AsyncConnectionPool_make cs size = Ret p'
    ∧ ConnectionPool.Init connect p' w = (Ret p1', w1)
    ∧ same_state (mkSystem p1 []) (ConnectionPool.mkSystem p1' []).
Proof.
  unfold AsyncConnectionPool_make, ConnectionPool.AsyncConnectionPool_make.
  destruct (Z.leb_spec size 0) as [|Hpos]; [done|]. intros [= <-]. unfold Init. simpl.
  rewrite (open_loop connect conn_str_ add (Init_loop connect)) by done. simpl.
  destruct (open_connections connect cs (Z.to_nat size) w) as [[xs|e|] w2] eqn:E; [|done..].
  intros [= <- <-]. eexists _, _. split; [done|].
  rewrite (ConnectionPool.Init_eq connect cs size) by (unfold ConnectionPool.AsyncConnectionPool_make;
    by rewrite (proj2 (Z.leb_gt _ _) Hpos)). rewrite E. split; [done|]. rewrite v2_add_all. by split_and!.
Qed.

Lemma gets_task_of q : ConnectionPool.gets (task_of <$> q) = gets q.
Proof. induction q as [|[c|x] q IH]; simpl; [done| |done]. by rewrite <- IH. Qed.

Lemma run_strand_same s s' :
  same_state s s' → same_state (run_strand s) (ConnectionPool.run_strand s').
Proof.
  destruct s as [[cs n q idle ws] h], s' as [[cs' n' q' idle' ch'] h'].
  intros (Hq & Hp & Hc & Hh); simpl in *. subst. unfold run_strand, ConnectionPool.run_strand; simpl.
  destruct q as [|[c|x] q]; simpl; [done|..];
    unfold GetConnection_task, ConnectionPool.GetConnection_task,
      ReturnConnection_task, ConnectionPool.ReturnConnection_task; simpl.
  - by destruct idle'.
  - by destruct ws.
Qed.

Lemma step_same s1 s2 s1' :
  same_state s1 s1' → step s1 s2 → ∃ s2', ConnectionPool.step s1' s2' ∧ same_state s2 s2'.
Proof.
  intros Hs Hst. destruct Hst as [s c Hc1 Hc2|s Hne|s c x l1 l2 Hh].
  - destruct s as [[cs n q idle ws] h], s1' as [[cs' n' q' idle' ch'] h'].
    destruct Hs as (Hq & Hp & Hc & Hh); simpl in *; subst.
    eexists. split; [apply (ConnectionPool.step_call _ c)|].
    + unfold pending. simpl. by rewrite gets_task_of.
    + done.
    + unfold same_state. simpl. by rewrite fmap_app.
  - exists (ConnectionPool.run_strand s1'). split; [|by apply run_strand_same].
    apply step_work, work_strand. destruct Hs as (Hq & _). rewrite <- Hq.
    by intros ?%fmap_nil_inv.
  - destruct s as [[cs n q idle ws] h], s1' as [[cs' n' q' idle' ch'] h'].
    destruct Hs as (Hq & Hp & Hc & Hh'); simpl in *; subst.
    eexists. split; [by eapply step_work, work_release|].
    unfold same_state. simpl. by rewrite fmap_app.
Qed.

Lemma step_same_back s1 s1' s2' :
  same_state s1 s1' → ConnectionPool.step s1' s2' → ∃ s2, step s1 s2 ∧ same_state s2 s2'.
Proof.
  intros Hs Hst. destruct Hst as [s c Hc1 Hc2|s s' [s'' Hne|s'' c x l1 l2 Hh]].
  - destruct s1 as [[cs n q idle ws] h], s as [[cs' n' q' idle' ch'] h'].
    destruct Hs as (Hq & Hp & Hc & Hh); simpl in *; subst.
    eexists. split; [apply (step_call _ c)|].
    + simpl. unfold pending in Hc1. simpl in Hc1. by rewrite gets_task_of in Hc1.
    + done.
    + unfold same_state. simpl. by rewrite fmap_app.
  - exists (run_strand s1). split; [|by apply run_strand_same].
    apply step_strand. destruct Hs as (Hq & _). rewrite <- Hq in Hne.
    intros E. by rewrite E in Hne.
  - destruct s1 as [[cs n q idle ws] h], s'' as [[cs' n' q' idle' ch'] h'].
    destruct Hs as (Hq & Hp & Hc & Hh'); simpl in *; subst.
    eexists. split; [by eapply step_release|].
    unfold same_state. simpl. by rewrite fmap_app.
Qed.

(** C33: the earlier pool, with its own deque of suspended coroutines, and the
    pool in use, with boost's channel, are bisimilar: started alike, every run
    of one is matched by a run of the other with the same idle connections, the
    same waiting coroutines in the same order and the same owners. *)
Theorem v2_bisimilar (s1 : system) (s1' : @ConnectionPool.system conn _)
    (Hsame : same_state s1 s1') :
  (∀ s2, rtc step s1 s2 → ∃ s2', rtc ConnectionPool.step s1' s2' ∧ same_state s2 s2')
  ∧ (∀ s2', rtc ConnectionPool.step s1' s2' → ∃ s2, rtc step s1 s2 ∧ same_state s2 s2').
Proof.
  split.
  - intros s2 Hrun. revert s1' Hsame. apply (rtc_simulation step ConnectionPool.step same_state); [|done].
    intros s s' t Hst Hs. destruct (step_same _ _ _ Hst Hs) as (t' & ? & ?). eauto using rtc_once.
  - intros s2' Hrun. revert s1 Hsame.
    apply (rtc_simulation ConnectionPool.step step (λ s s', same_state s' s)); [|done].
    intros s s' t Hst Hs. destruct (step_same_back _ _ _ Hst Hs) as (t' & ? & ?). eauto using rtc_once.
Qed.
End v2.
Arguments v2_task : clear implicits.
Arguments AsyncConnectionPool : clear implicits.
Arguments system : clear implicits.

Lemma v2_bisimilar_witness :
  let s1 := mkSystem (mkPool "" 1 [] [7] []) [] : system nat in
  let s1' := example_start in
  (∀ s2, rtc step s1 s2 → ∃ s2', rtc ConnectionPool.step s1' s2' ∧ same_state s2 s2')
  ∧ (∀ s2', rtc ConnectionPool.step s1' s2' → ∃ s2, rtc step s1 s2 ∧ same_state s2 s2').
Proof. apply v2_bisimilar. repeat split. Defined.
End V2.

(** ** old_version/v01/old_async_conn_pool.cc *)
Module V01.
Section v01.
Context {conn : Type} `{ChannelOps ()}.

(** [mutex_] makes each critical section one step. *)
Record AsyncConnectionPool := mkPool {
  conn_str_ : string;
  pool_size_ : Z;
  pool_ : list conn;
  signal_channel_ : channel ()
}.

Definition size_t_max : N := 18446744073709551615.

Definition AsyncConnectionPool_make (conn_str : string) (pool_size : Z) : outcome AsyncConnectionPool :=
  if (pool_size <=? 0)%Z then Throw (Exn invalid_argument "Pool size must be positive.")
  else Ret (mkPool conn_str pool_size [] (channel_make size_t_max)).

(** The loop of Init, [n] iterations left; [connect] is AsyncConnect. *)
Fixpoint Init_loop {W} (connect : string → M W conn) (n : nat) (p : AsyncConnectionPool)
    : M W AsyncConnectionPool :=
  match n with
  | O => retM p
  | S n' =>
      let* x := connect (conn_str_ p) in
      Init_loop connect n' (mkPool (conn_str_ p) (pool_size_ p) (pool_ p ++ [x]) (signal_channel_ p))
  end.

Definition Init {W} (connect : string → M W conn) (p : AsyncConnectionPool) : M W AsyncConnectionPool :=
  Init_loop connect (Z.to_nat (pool_size_ p)) p.

(** The test of the loop and what follows it, under the lock. *)
Definition GetConnection_locked (p : AsyncConnectionPool) : option conn * AsyncConnectionPool :=
  match pool_ p with
  | [] => (None, p)
  | x :: rest => (Some x, mkPool (conn_str_ p) (pool_size_ p) rest (signal_channel_ p))
  end.

(** The body of the loop, the lock released: a signal, or the coroutine is
    suspended. *)
Definition GetConnection_wait (c : nat) (p : AsyncConnectionPool)
    : option () * AsyncConnectionPool :=
  let '(m, ch) := async_receive c (signal_channel_ p) in (m, mkPool (conn_str_ p) (pool_size_ p) (pool_ p) ch).

Definition ReturnConnection_locked (x : conn) (p : AsyncConnectionPool) : AsyncConnectionPool :=
  mkPool (conn_str_ p) (pool_size_ p) (pool_ p ++ [x]) (signal_channel_ p).

(** [try_send]: the coroutine it wakes, if one is suspended. *)
Definition ReturnConnection_signal (p : AsyncConnectionPool) : option nat * AsyncConnectionPool :=
  let '(r, ch) := try_send () (signal_channel_ p) in
  (match r with Some (Some c) => Some c | _ => None end, mkPool (conn_str_ p) (pool_size_ p) (pool_ p) ch).

(** The deleter, up to the signal; [locked] is what [pool.lock()] gives. *)
Definition ConnectionReleaser (locked : bool) (x : conn) (p : AsyncConnectionPool) : AsyncConnectionPool :=
  if locked then ReturnConnection_locked x p else p.

(** Coroutines about to take the lock ([entering], or [woken] by a signal),
    between releasing it and waiting ([unlocked]), and owning a connection;
    [notifying] counts the deleters between the critical section and the signal. *)
Record system := mkSystem {
  the_pool : AsyncConnectionPool;
  entering : list nat;
  unlocked : list nat;
  woken : list nat;
  notifying : nat;
  held : list (nat * conn)
}.

Context `{!ChannelLaws ()}.
Definition blocked (s : system) : list nat := ch_waiting (signal_channel_ (the_pool s)).
Definition signals (s : system) : nat := length (ch_buffer (signal_channel_ (the_pool s))).

Inductive step : system → system → Prop :=
| step_call p en un wo k h c : step (mkSystem p en un wo k h) (mkSystem p (c :: en) un wo k h)
| step_enter p en1 c en2 un wo k h :
    step (mkSystem p (en1 ++ c :: en2) un wo k h)
      (match GetConnection_locked p with
       | (Some x, p') => mkSystem p' (en1 ++ en2) un wo k ((c, x) :: h)
       | (None, p') => mkSystem p' (en1 ++ en2) (c :: un) wo k h
       end)
| step_retry p en un wo1 c wo2 k h :
    step (mkSystem p en un (wo1 ++ c :: wo2) k h)
      (match GetConnection_locked p with
       | (Some x, p') => mkSystem p' en un (wo1 ++ wo2) k ((c, x) :: h)
       | (None, p') => mkSystem p' en (c :: un) (wo1 ++ wo2) k h
       end)
| step_wait p en un1 c un2 wo k h :
    step (mkSystem p en (un1 ++ c :: un2) wo k h)
      (match GetConnection_wait c p with
       | (Some _, p') => mkSystem p' en (un1 ++ un2) (c :: wo) k h
       | (None, p') => mkSystem p' en (un1 ++ un2) wo k h
       end)
| step_return p en un wo k h1 c x h2 :
    step (mkSystem p en un wo k (h1 ++ (c, x) :: h2))
      (mkSystem (ConnectionReleaser true x p) en un wo (S k) (h1 ++ h2))
| step_signal p en un wo k h :
    step (mkSystem p en un wo (S k) h)
      (match ReturnConnection_signal p with
       | (Some c, p') => mkSystem p' en un (c :: wo) k h
       | (None, p') => mkSystem p' en un wo k h
       end).

Definition initial (conns : list conn) (s : system) : Prop :=
  pool_ (the_pool s) = conns ∧ signal_channel_ (the_pool s) = channel_make size_t_max
  ∧ entering s = [] ∧ unlocked s = [] ∧ woken s = [] ∧ notifying s = O ∧ held s = [].

(** While someone waits or is about to, there is a wake-up under way for every
    idle connection; and signals are not kept while someone waits. *)
Record inv (conns : list conn) (s : system) : Prop := {
  inv_conserved : pool_ (the_pool s) ++ (held s).*2 ≡ₚ conns;
  inv_wakeup : blocked s ++ unlocked s ≠ [] →
    length (pool_ (the_pool s)) ≤ signals s + length (woken s) + notifying s;
  inv_signals : blocked s ≠ [] → signals s = 0;
  inv_cap : ch_cap (signal_channel_ (the_pool s)) = size_t_max
}.

(** The connections Init opens, added one by one. *)
Definition add (x : conn) (p : AsyncConnectionPool) : AsyncConnectionPool :=
  mkPool (conn_str_ p) (pool_size_ p) (pool_ p ++ [x]) (signal_channel_ p).

Lemma v01_add_all xs p : foldl (flip add) p xs = mkPool (conn_str_ p) (pool_size_ p) (pool_ p ++ xs) (signal_channel_ p).
Proof.
  revert p. induction xs as [|x xs IH]; intros p; simpl.
  - rewrite app_nil_r. by destruct p.
  - rewrite IH. simpl. by rewrite <- (assoc_L (++)).
Qed.

Lemma v01_Init_initial {W} (connect : string → M W conn) cs size p p' w w' :
  AsyncConnectionPool_make cs size = Ret p → Init connect p w = (Ret p', w') →
  ∃ conns, open_connections connect cs (Z.to_nat size) w = (Ret conns, w')
    ∧ Z.of_nat (length conns) = size ∧ conns ≠ [] ∧ initial conns (mkSystem p' [] [] [] 0 []).
Proof.
  unfold AsyncConnectionPool_make. destruct (Z.leb_spec size 0) as [|Hpos]; [done|]. intros [= <-].
  unfold Init. rewrite (open_loop connect conn_str_ add (Init_loop connect)) by done. simpl.
  destruct (open_connections connect cs (Z.to_nat size) w) as [[xs|e|] w1] eqn:E; [|done..].
  intros [= <- <-]. rewrite v01_add_all. pose proof (open_connections_length _ _ _ _ _ _ E) as Hl.
  exists xs. split_and!; [done|lia| |done]. intros ->. simpl in Hl. lia.
Qed.

Lemma v01_initial_inv conns s : initial conns s → inv conns s.
Proof.
  intros (Hp & Hs & He & Hu & Hw & Hn & Hh). destruct (channel_make_law (A:=()) size_t_max) as (Hwt & Hb & Hc).
  split; unfold blocked; rewrite ?Hp, ?Hs, ?Hu, ?Hh, ?Hwt; simpl; rewrite ?app_nil_r; done.
Qed.

(** A coroutine that takes the lock; [wo'] is [woken] after it. *)
Lemma locked_inv conns p en en' un wo wo' k h c :
  inv conns (mkSystem p en un wo k h) → length wo ≤ S (length wo') →
  (wo = wo' ∨ length wo = S (length wo')) →
  inv conns (match GetConnection_locked p with
             | (Some x, p') => mkSystem p' en' un wo' k ((c, x) :: h)
             | (None, p') => mkSystem p' en' (c :: un) wo' k h
             end).
Proof.
  intros [Hcons Hwake Hsig Hcap] Hle Hwo. destruct p as [cs n l ch]. unfold blocked, signals in *. simpl in *.
  destruct l as [|x l]; split; unfold blocked, signals; simpl; try done; try lia.
  - rewrite <- Hcons. simpl. by rewrite <- Permutation_middle.
  - intros Hb. specialize (Hwake Hb). simpl in Hwake. destruct Hwo as [->|?]; lia.
Qed.

Lemma v01_step_inv conns s s' :
  (N.of_nat (length conns) ≤ size_t_max)%N → inv conns s → step s s' → inv conns s'.
Proof.
  intros Hsize Hinv Hst. destruct Hst.
  - by destruct Hinv.
  - eapply locked_inv; [done|lia|by left].
  - eapply locked_inv; [done|..]; rewrite !length_app; simpl; [lia|right; lia].
  - destruct Hinv as [Hcons Hwake Hsig Hcap]. unfold GetConnection_wait, blocked, signals in *. simpl in *.
    assert (length (pool_ p) ≤ length (ch_buffer (signal_channel_ p)) + length wo + k) as Hw.
    { apply Hwake. intros (_ & E)%app_eq_nil. by destruct un1. }
    destruct (ch_buffer (signal_channel_ p)) as [|m ms] eqn:Hb.
    + destruct (async_receive_queued c _ Hb) as (ch' & -> & Hwt & Hb' & Hc').
      split; unfold blocked, signals; simpl; rewrite ?Hb', ?Hc'; done.
    + destruct (async_receive_buffered c _ _ _ Hb) as (ch' & -> & Hwt & Hb' & Hc').
      split; unfold blocked, signals; simpl; rewrite ?Hb', ?Hc'; try done; simpl in *; [lia|].
      rewrite Hwt. intros Hne. specialize (Hsig Hne). lia.
  - destruct Hinv as [Hcons Hwake Hsig Hcap]. unfold blocked, signals in *. simpl in *.
    split; unfold blocked, signals; simpl; [|intros Hb; specialize (Hwake Hb); rewrite length_app; simpl; lia|done..].
    rewrite <- Hcons, !fmap_app. simpl. solve_Permutation.
  - destruct Hinv as [Hcons Hwake Hsig Hcap]. unfold ReturnConnection_signal, blocked, signals in *. simpl in *.
    assert (length (pool_ p) ≤ length conns) as Hpl.
    { apply Permutation_length in Hcons. rewrite length_app in Hcons. lia. }
    destruct (ch_waiting (signal_channel_ p)) as [|c ws] eqn:Hw.
    + destruct (decide (N.of_nat (length (ch_buffer (signal_channel_ p))) < ch_cap (signal_channel_ p))%N)
        as [Hlt|Hge].
      * destruct (try_send_buffer () _ Hw Hlt) as (ch' & -> & Hw' & Hb' & Hc').
        split; unfold blocked, signals; simpl; rewrite ?Hw', ?Hb', ?Hc'; try done.
        rewrite length_app. simpl. intros Hb. specialize (Hwake Hb). lia.
      * rewrite (try_send_full () _ Hw) by lia.
        split; unfold blocked, signals; simpl; rewrite ?Hw; try done. lia.
    + destruct (try_send_waiter () _ _ _ Hw) as (ch' & -> & Hw' & Hb' & Hc').
      assert (length (ch_buffer (signal_channel_ p)) = 0) as Hz by by apply Hsig.
      split; unfold blocked, signals; simpl; rewrite ?Hw', ?Hb', ?Hc'; try done.
      assert (length (pool_ p) ≤ length (ch_buffer (signal_channel_ p)) + length wo + S k) by by apply Hwake.
      lia.
Qed.

End v01.

(** One connection, one owner, one suspended coroutine. *)
Definition example_channel (ws : list nat) : list_chan () := mkChan ws [] size_t_max.
Definition example_start : system := mkSystem (mkPool "" 1 [7] (example_channel [])) [] [] [] 0 [].
Definition example_blocked : system :=
  mkSystem (mkPool "" 1 [] (example_channel [2])) [] [] [] 0 [(1, 7)].

Lemma v01_example_run : rtc step example_start example_blocked.
Proof.
  eapply rtc_l; [apply (step_call _ _ _ _ _ _ 1)|].
  eapply rtc_l; [apply (step_enter _ [] 1 [])|]. simpl.
  eapply rtc_l; [apply (step_call _ _ _ _ _ _ 2)|].
  eapply rtc_l; [apply (step_enter _ [] 2 [])|]. simpl.
  eapply rtc_l; [apply (step_wait _ _ [] 2 [])|]. apply rtc_refl.
Qed.

End V01.
