(* ===== verification/UsersTable.v ===== *)
(** * UsersTable: the users table (init_sql/init_users.sql)

    The three statements the DAO sends, and what the database does with them
    on a table with the columns and constraints of the schema.  The database's
    own conversions (uuid, varchar, smallint) are parameters. *)

From stdpp Require Import base tactics option strings numbers list.
From S2P Require Import Prelude Text.

Open Scope string_scope.
Open Scope Z_scope.

(** ** The statements of user_dao.cc *)

Definition insert_sql : string :=
  "INSERT INTO users (id, phone_number, username, email, password_hash, salt, avatar_url, status) VALUES ($1, $2, $3, $4, $5, $6, $7, $8)".
Definition select_by_id_sql : string :=
  "SELECT id, phone_number, username, email, password_hash, salt, avatar_url, status, created_at FROM users WHERE id = $1 AND deleted_at IS NULL LIMIT 1".
Definition select_by_phone_sql : string :=
  "SELECT id, phone_number, username, email, password_hash, salt, avatar_url, status, created_at FROM users WHERE phone_number = $1 AND deleted_at IS NULL LIMIT 1".

(** ** The database's types *)

Class PgTypes := {
  (** a uuid in text form, in its canonical spelling *)
  uuid_in : string → option string;
  (** conversion to VARCHAR(n) *)
  varchar_in : nat → string → option string;
  smallint_in : string → option Z
}.

Class PgTypesLaws `{PgTypes} : Prop := {
  uuid_in_canonical s t : uuid_in s = Some t → uuid_in t = Some t ∧ nul_free t = true;
  smallint_in_to_string z : in_s 16 z → smallint_in (to_string z) = Some z;
  (** text that fits is stored as it is *)
  varchar_in_printable n s : printable s = true → (String.length s ≤ n)%nat → varchar_in n s = Some s
}.

(** ** The table *)

Record users_row := mkUsersRow {
  row_id : string;
  row_phone_number : string;
  row_username : option string;
  row_email : option string;
  row_password_hash : string;
  row_salt : string;
  row_avatar_url : option string;
  row_status : Z;
  row_created_at : string;          (* as the server prints it *)
  row_deleted_at : option string
}.

Inductive sql_result :=
| SqlRows (rows : list (list (option string)))
| SqlDone
| SqlError (msg sqlstate : string).

Section table.
Context `{PgTypes}.
Implicit Types rows : list users_row.

Definition row_cells (r : users_row) : list (option string) :=
  [ Some (row_id r); Some (row_phone_number r); row_username r; row_email r;
    Some (row_password_hash r); Some (row_salt r); row_avatar_url r;
    Some (to_string (row_status r)); Some (row_created_at r) ].

(** The values of an INSERT, converted to the types of the columns. *)
Definition insert_row (now : string) (ps : list string) : option users_row :=
  match ps with
  | [id; phone; username; email; hash; salt; avatar; status] =>
      id' ← uuid_in id;
      phone' ← varchar_in 20 phone;
      username' ← varchar_in 64 username;
      email' ← varchar_in 128 email;
      hash' ← varchar_in 256 hash;
      salt' ← varchar_in 64 salt;
      avatar' ← varchar_in 512 avatar;
      status' ← smallint_in status;
      Some (mkUsersRow id' phone' (Some username') (Some email') hash' salt' (Some avatar')
              status' now None)
  | _ => None
  end.

(** PRIMARY KEY, UNIQUE, and the partial unique index on non-empty emails. *)
Definition conflicts (r r' : users_row) : bool :=
  bool_decide (row_id r = row_id r')
  || bool_decide (row_phone_number r = row_phone_number r')
  || match row_email r with
     | Some e => negb (str_empty e) && bool_decide (row_email r' = Some e)
     | None => false
     end.

Definition users_insert (now : string) (ps : list string) rows : sql_result * list users_row :=
  match insert_row now ps with
  | None => (SqlError "invalid value" "22000", rows)
  | Some r =>
      if existsb (conflicts r) rows
      then (SqlError "duplicate key value violates unique constraint" "23505", rows)
      else (SqlDone, (rows ++ [r])%list)
  end.

(** The first live row, LIMIT 1. *)
Definition find_live (sel : users_row → bool) rows : option users_row :=
  head (filter (λ r, sel r && bool_decide (row_deleted_at r = None)) rows).

Definition find_row (sel : users_row → bool) rows : sql_result :=
  SqlRows (match find_live sel rows with Some r => [row_cells r] | None => [] end).

Definition select_by_id (ps : list string) rows : sql_result :=
  match ps with
  | [id] =>
      match uuid_in id with
      | Some k => find_row (λ r, bool_decide (row_id r = k)) rows
      | None => SqlError "invalid input syntax for type uuid" "22P02"
      end
  | _ => SqlError "wrong number of parameters" "08P01"
  end.

Definition select_by_phone (ps : list string) rows : sql_result :=
  match ps with
  | [phone] => find_row (λ r, bool_decide (row_phone_number r = phone)) rows
  | _ => SqlError "wrong number of parameters" "08P01"
  end.

Definition users_exec (now sql : string) (ps : list string) rows : sql_result * list users_row :=
  if bool_decide (sql = insert_sql) then users_insert now ps rows
  else if bool_decide (sql = select_by_id_sql) then (select_by_id ps rows, rows)
  else if bool_decide (sql = select_by_phone_sql) then (select_by_phone ps rows, rows)
  else (SqlError "unknown statement" "42601", rows).

Definition users_statement (sql : string) : Prop :=
  sql = insert_sql ∨ sql = select_by_id_sql ∨ sql = select_by_phone_sql.

(** ** The constraints hold of every table built by INSERTs *)

Definition table_wf rows : Prop :=
  NoDup (row_id <$> rows) ∧ NoDup (row_phone_number <$> rows)
  ∧ Forall (λ r, uuid_in (row_id r) = Some (row_id r) ∧ in_s 16 (row_status r)) rows.

Lemma conflicts_false r r' :
  conflicts r r' = false → row_id r ≠ row_id r' ∧ row_phone_number r ≠ row_phone_number r'.
Proof.
  unfold conflicts. intros [[H1 H2]%orb_false_elim _]%orb_false_elim.
  by apply bool_decide_eq_false_1 in H1, H2.
Qed.

Lemma existsb_false {A} (f : A → bool) l x : existsb f l = false → x ∈ l → f x = false.
Proof.
  induction l as [|y l IH]; simpl; [by intros _ ?%elem_of_nil|].
  intros [Hy Hl]%orb_false_elim [->|Hx]%elem_of_cons; auto.
Qed.

Lemma insert_row_inv now ps r :
  insert_row now ps = Some r →
  ∃ id phone username email hash salt avatar status username' email' avatar',
    ps = [id; phone; username; email; hash; salt; avatar; status]
    ∧ uuid_in id = Some (row_id r) ∧ varchar_in 20 phone = Some (row_phone_number r)
    ∧ varchar_in 64 username = Some username' ∧ row_username r = Some username'
    ∧ varchar_in 128 email = Some email' ∧ row_email r = Some email'
    ∧ varchar_in 256 hash = Some (row_password_hash r) ∧ varchar_in 64 salt = Some (row_salt r)
    ∧ varchar_in 512 avatar = Some avatar' ∧ row_avatar_url r = Some avatar'
    ∧ smallint_in status = Some (row_status r) ∧ row_created_at r = now ∧ row_deleted_at r = None.
Proof.
  unfold insert_row. intros Hr.
  do 8 (destruct ps as [|? ps]; [done|]). destruct ps; [|done].
  repeat match type of Hr with
  | (?m ≫= _) = Some _ =>
      let E := fresh "E" in destruct m eqn:E; cbn [mbind option_bind] in Hr; [|done]
  end.
  injection Hr as <-. simpl. by repeat eexists.
Qed.

Lemma filter_unique {B} `{EqDecision B} (f : users_row → B) rows r :
  NoDup (f <$> rows) → r ∈ rows → row_deleted_at r = None →
  filter (λ r', bool_decide (f r' = f r) && bool_decide (row_deleted_at r' = None)) rows = [r].
Proof.
  intros Hnd Hr Hd. induction rows as [|r' rows IH]; [by apply elem_of_nil in Hr|].
  simpl in Hnd. pose proof (NoDup_cons_1_1 _ _ Hnd) as Hni; apply NoDup_cons_1_2 in Hnd. apply elem_of_cons in Hr as [->|Hr].
  - rewrite filter_cons_True by (by rewrite !bool_decide_eq_true_2).
    f_equal. clear IH Hnd. induction rows as [|r2 rows IH]; [done|]. simpl in Hni.
    apply not_elem_of_cons in Hni as [Hne Hni].
    rewrite filter_cons_False; [by apply IH|]. rewrite bool_decide_eq_false_2; [by intros []|congruence].
  - rewrite filter_cons_False; [by apply IH|].
    rewrite bool_decide_eq_false_2; [by intros []|]. intros E. apply Hni. rewrite E.
    by apply list_elem_of_fmap_2.
Qed.

Lemma find_live_hit {B} `{EqDecision B} (f : users_row → B) rows r :
  NoDup (f <$> rows) → r ∈ rows → row_deleted_at r = None →
  find_live (λ r', bool_decide (f r' = f r)) rows = Some r.
Proof. intros. unfold find_live. by rewrite (filter_unique f rows r). Qed.

Lemma find_live_in sel rows r :
  find_live sel rows = Some r → r ∈ rows ∧ sel r = true ∧ row_deleted_at r = None.
Proof.
  unfold find_live. destruct (filter _ rows) as [|r' l] eqn:E; [done|]. intros [= ->].
  assert (r ∈ filter (λ r, sel r && bool_decide (row_deleted_at r = None)) rows) as Hin
    by (rewrite E; apply list_elem_of_here).
  apply list_elem_of_filter in Hin as [Hs Hin]. apply andb_prop_elim in Hs as [Hs Hd].
  split; [done|]. split; [by apply Is_true_true|by apply bool_decide_unpack in Hd].
Qed.
End table.
