(* ===== verification/UserDao.v ===== *)
(** * UserDao: users in the database

    [UserDao] (infrastructure/persistence/dao/user_dao.cc): the three queries,
    each with a pooled connection that is handed back when the coroutine's frame
    is destroyed, and the mapping of a row to the entity. *)

From stdpp Require Import base tactics option list strings numbers relations gmap.
From S2P Require Import Prelude Text Model User Timestamp LibPQ PgServer PqConnection.
From S2P Require Import Channel ConnectionPool UsersTable.

Open Scope string_scope.
Open Scope Z_scope.
Open Scope photon_scope.

Section dao.
Context `{LibPQ} `{ChannelOps PQConnection}.

(** What the DAO touches: the pool, and everything behind libpq. *)
Record db_world := mkDbWorld { db_pool : @system PQConnection _; db_pg : pg_world }.

Definition db_pool_lens : lens db_world system :=
  Lens db_pool (λ p w, mkDbWorld p (db_pg w)).
Definition db_pg_lens : lens db_world pg_world := Lens db_pg (λ g w, mkDbWorld (db_pool w) g).

(** [const auto conn = co_await pool_->GetConnection();] up to the end of the
    scope: coroutine [cid] runs [body] and the deleter runs after it. *)
Definition with_connection {A} (cid : nat) (body : PQConnection → M db_world A) : M db_world A :=
  let* conn := zoomM db_pool_lens (GetConnectionM cid) in
  finallyM (body conn) (zoomM db_pool_lens (ReleaseM cid conn)).

Definition exec_on (fuel : nat) (conn : PQConnection) (sql : string) (params : list string)
    : M db_world (expected (option PGresult) DbError) :=
  zoomM db_pg_lens (AsyncExecParams fuel conn sql params).

(** [user.username_ = PQgetvalue(...)] unless the cell is NULL. *)
Definition nullable (res : option PGresult) (row col : Z) : option string :=
  if PQgetisnull res row col then None else Some (PQgetvalue res row col).

Definition MapRowToUser (res : option PGresult) (row : Z) : outcome User :=
  let+ status := stoi (PQgetvalue res row 7) in
  Ret (mkUser (PQgetvalue res row 0) (PQgetvalue res row 1)
         (PQgetvalue res row 4) (PQgetvalue res row 5)
         (nullable res row 2) (nullable res row 3) (nullable res row 6)
         (UserStatus.cast status)
         (ParsePostgresTimestamp (Some (PQgetvalue res row 8))) None).

Definition CreateUser_params (user : User) : list string :=
  [ GetId user; GetPhoneNumber user; value_or_empty (GetUsername user);
    value_or_empty (GetEmail user); GetPasswordHash user; GetSalt user;
    value_or_empty (GetAvatarUrl user); to_string (GetStatusValue user) ].

(** What the insert does with its result. *)
Definition insert_result (result_exp : expected (option PGresult) DbError)
    : M db_world (expected () DbError) :=
  match result_exp with
  | Unexpected e => retM (Unexpected e)
  | Val _ => retM (Val ())
  end.

Definition CreateUser (fuel cid : nat) (user : User) : M db_world (expected () DbError) :=
  with_connection cid (fun conn =>
    let* result_exp := exec_on fuel conn insert_sql (CreateUser_params user) in
    insert_result result_exp).

(** What both selects do with their result. *)
Definition select_result (result_exp : expected (option PGresult) DbError)
    : M db_world (expected (option User) DbError) :=
  match result_exp with
  | Unexpected e => retM (Unexpected e)
  | Val result_ptr =>
      if PQntuples result_ptr =? 0 then retM (Val None)
      else let* user := liftO (MapRowToUser result_ptr 0) in retM (Val (Some user))
  end.

Definition GetUserById (fuel cid : nat) (id : string) : M db_world (expected (option User) DbError) :=
  with_connection cid (fun conn =>
    let* result_exp := exec_on fuel conn select_by_id_sql [id] in select_result result_exp).

Definition GetUserByPhoneNumber (fuel cid : nat) (phone_number : string)
    : M db_world (expected (option User) DbError) :=
  with_connection cid (fun conn =>
    let* result_exp := exec_on fuel conn select_by_phone_sql [phone_number] in
    select_result result_exp).
End dao.

#[export] Instance db_pool_lens_laws `{LibPQ} `{ChannelOps PQConnection} : LensLaws db_pool_lens.
Proof. by split; [|intros []|]. Qed.
#[export] Instance db_pg_lens_laws `{LibPQ} `{ChannelOps PQConnection} : LensLaws db_pg_lens.
Proof. by split; [|intros []|]. Qed.

(** ** The connection is always handed back *)

Section bracket.
Context `{LibPQ} `{ChannelLaws PQConnection}.
Implicit Types w : db_world.

(** The pool can serve coroutine [cid] at once. *)
Definition pool_ready (conns : list PQConnection) (cid : nat) w : Prop :=
  pool_inv conns (db_pool w) ∧ pending (db_pool w) = [] ∧ available (db_pool w) ≠ []
  ∧ cid ∉ (held (db_pool w)).*1.

(** Whatever coroutine [cid] does with the connection it gets, the pool goes
    from [db_pool w] to the same [p2]. *)
Lemma with_connection_spec conns cid w :
  pool_ready conns cid w →
  ∃ x p1 p2, head (available (db_pool w)) = Some x ∧ rtc step (db_pool w) p2
    ∧ (∀ g, pool_ready conns cid (mkDbWorld p2 g))
    ∧ ∀ A (body : PQConnection → M db_world A) o g,
        body x (mkDbWorld p1 (db_pg w)) = (o, mkDbWorld p1 g) → o ≠ Pending →
        with_connection cid body w = (o, mkDbWorld p2 g).
Proof.
  intros (Hinv & Hp & Ha & Hc).
  destruct (GetConnectionM_spec conns cid (db_pool w)) as (x & p1 & E1 & Hr & Hi & Hx & _ & Hp1 & Hin);
    [done|by rewrite Hp; apply not_elem_of_nil|done|..].
  { rewrite Hp. destruct (available (db_pool w)); [done|simpl; lia]. }
  destruct (ReleaseM_spec conns cid x p1 Hi Hin) as (p2 & E2 & Hs & Hi2 & Hp2 & Ha2 & Hc2).
  exists x, p1, p2. split_and!.
  - rewrite Hp in Hx. by destruct (available (db_pool w)).
  - by eapply rtc_r.
  - intros g. split; [done|]. simpl. rewrite Hp2, Ha2. split; [done|]. split; [by destruct (available p1)|done].
  - intros A body o g Hb Ho. unfold with_connection.
    rewrite (bindM_ret _ _ _ _ _ (zoomM_eq db_pool_lens _ w _ _ E1)). simpl.
    rewrite (finallyM_finished _ _ _ _ _ (mkDbWorld p2 g) Hb Ho); [done|].
    by rewrite (zoomM_eq db_pool_lens (ReleaseM cid x) (mkDbWorld p1 g) _ _ E2).
Qed.

Lemma exec_on_eq fuel x sql ps p g o g' :
  AsyncExecParams fuel x sql ps g = (o, g') → exec_on fuel x sql ps (mkDbWorld p g) = (o, mkDbWorld p g').
Proof. intros E. unfold exec_on. by rewrite (zoomM_eq db_pg_lens (AsyncExecParams fuel x sql ps) (mkDbWorld p g) _ _ E). Qed.

(** A continuation that only looks at its argument, and does not suspend. *)
Definition immediate {R A} (k : R → M db_world A) : Prop :=
  ∀ r, ∃ o, o ≠ Pending ∧ ∀ w, k r w = (o, w).

Lemma stoi_outcome s : stoi s ≠ Pending.
Proof. unfold stoi. repeat case_match; done. Qed.

Lemma select_result_immediate : immediate select_result.
Proof.
  intros [r|e]; unfold select_result; [|by exists (Ret (Unexpected e))].
  destruct (PQntuples r =? 0); [by exists (Ret (Val None))|]. unfold bindM, liftO, MapRowToUser.
  pose proof (stoi_outcome (PQgetvalue r 0 7)). destruct (stoi _) as [z|e|]; simpl; [|by exists (Throw e)|done].
  by eexists (Ret _).
Qed.

Lemma insert_result_immediate : immediate insert_result.
Proof. intros [?|e]; [by exists (Ret (Val ()))|by exists (Ret (Unexpected e))]. Qed.

(** A query followed by a function of its result: it finishes, and only the
    world behind libpq has changed. *)
Lemma query_total `{!LibPQLaws} {A} x sql ps
    (k : expected (option PGresult) DbError → M db_world A) p g :
  immediate k →
  ∃ enough, ∀ fuel, (enough ≤ fuel)%nat → ∃ o g',
    (let* r := exec_on fuel x sql ps in k r) (mkDbWorld p g) = (o, mkDbWorld p g') ∧ o ≠ Pending.
Proof.
  intros Hk. destruct (AsyncExecParams_finishes x sql ps g) as [n Hn]. exists n. intros fuel Hf.
  destruct (Hn fuel Hf) as (o & g' & E & Ho). apply (exec_on_eq _ _ _ _ p) in E.
  unfold exec_outcome in Ho. destruct o as [r|e|]; [| |done].
  - rewrite (bindM_ret _ _ _ _ _ E). destruct (Hk r) as (o & ? & ->). eauto.
  - rewrite (bindM_throw _ _ _ _ _ E). eauto.
Qed.
End bracket.

(** ** The database behind libpq holds the users table *)

Section shows.
Context `{LibPQ}.

(** A libpq result that carries what the database answered. *)
Definition shows (res : PGresult) (sr : sql_result) : Prop :=
  match sr with
  | SqlRows rows =>
      PQresultStatus res = PGRES_TUPLES_OK ∧ PQntuples (Some res) = Z.of_nat (length rows)
      ∧ ∀ i cells j cell, rows !! i = Some cells → cells !! j = Some cell →
          PQgetvalue (Some res) (Z.of_nat i) (Z.of_nat j) = default EmptyString cell
          ∧ PQgetisnull (Some res) (Z.of_nat i) (Z.of_nat j) = bool_decide (cell = None)
  | SqlDone => PQresultStatus res = PGRES_COMMAND_OK
  | SqlError msg sqlstate =>
      PQresultStatus res = PGRES_FATAL_ERROR ∧ PQresultErrorMessage res = msg
      ∧ PQresultErrorField_SQLSTATE res = Some sqlstate
  end.
End shows.

Class UsersServer `{LibPQLaws} `{PgTypes} := {
  users_rows : pg_world → list users_row;
  users_now : pg_world → string;
  us_wait fd t w : users_rows (async_wait fd t w).2 = users_rows w;
  us_consume c w : users_rows (PQconsumeInput c w).2 = users_rows w;
  us_get c w : users_rows (PQgetResult c w).2 = users_rows w;
  us_send c sql ps w r w' :
    PQsendQueryParams c sql ps w = (r, w') → users_statement sql → r ≠ 0 →
    ∃ res, pq_results c w' = Some [res]
      ∧ shows res (users_exec (users_now w) sql ps (users_rows w)).1
      ∧ users_rows w' = (users_exec (users_now w) sql ps (users_rows w)).2;
  us_send_failed c sql ps w w' :
    PQsendQueryParams c sql ps w = (0, w') → users_rows w' = users_rows w
}.

Section users.
Context `{UsersServer}.
Implicit Types (g : pg_world).

Lemma users_statement_c_str sql : users_statement sql → c_str sql = sql.
Proof. intros [-> | [-> | ->]]; reflexivity. Qed.

(** One statement on one connection: answered, or an exception before or after
    the database ran it. *)
Lemma exec_users this sql ps g :
  users_statement sql →
  let r := users_exec (users_now g) sql (c_str <$> ps) (users_rows g) in
  ∃ enough, ∀ fuel, (enough ≤ fuel)%nat → ∃ o g', AsyncExecParams fuel this sql ps g = (o, g') ∧
    ((∃ res, o = Ret (MapResultToExpected (Some res)) ∧ shows res r.1 ∧ users_rows g' = r.2)
     ∨ ∃ e, o = Throw e ∧ exn_cls e = runtime_error
            ∧ (users_rows g' = users_rows g ∨ users_rows g' = r.2)).
Proof.
  intros Hsql r. unfold AsyncExecParams, SendQuery.
  rewrite (users_statement_c_str sql Hsql).
  destruct (PQsendQueryParams (conn_ this) sql (c_str <$> ps) g) as [n g1] eqn:E.
  destruct (Z.eqb_spec n 0) as [->|Hn].
  - exists O. intros fuel _. erewrite bindM_throw; [|rewrite bind_callM, E; apply throw_runtime_eq].
    do 2 eexists. split; [done|]. right. eexists. split; [done|]. split; [done|]. left.
    by apply us_send_failed in E.
  - destruct (us_send _ _ _ _ _ _ E Hsql Hn) as (res & Hres & Hshow & Hrows).
    exists (S (S (pq_rounds (conn_ this) g1))). intros fuel Hf.
    erewrite bindM_ret.
    2: { rewrite bind_callM, E. simpl. by rewrite (proj2 (Z.eqb_neq n 0) Hn). }
    pose proof (receive_preserves (λ g, users_rows g = users_rows g1)
      (λ fd t w, eq_trans (us_wait fd t w)) (λ c w, eq_trans (us_consume c w))
      (λ c w, eq_trans (us_get c w)) fuel this g1 eq_refl) as Hkeep.
    destruct (receive_spec fuel this g1 [res] Hres) as (o & g2 & E2 & Ho); [lia|simpl; lia|].
    rewrite E2 in *. simpl in Hkeep. do 2 eexists. split; [done|].
    destruct Ho as [[-> _]|[(e & -> & He) _]].
    + left. exists res. rewrite Hkeep. done.
    + right. exists e. rewrite Hkeep. auto.
Qed.

Lemma MapResult_shows res sr :
  shows res sr →
  MapResultToExpected (Some res) =
    match sr with
    | SqlError msg sqlstate => Unexpected (mkDbError SqlExecutionError msg sqlstate)
    | _ => Val (Some res)
    end.
Proof.
  unfold MapResultToExpected. destruct sr as [rows| |msg st]; simpl.
  - by intros (-> & _).
  - by intros ->.
  - by intros (-> & -> & ->).
Qed.

(** ** Rows and users *)

(** The user a row stands for. *)
Definition user_of_row (r : users_row) : User :=
  mkUser (row_id r) (row_phone_number r) (row_password_hash r) (row_salt r)
    (row_username r) (row_email r) (row_avatar_url r)
    (row_status r) (ParsePostgresTimestamp (Some (row_created_at r))) None.

Lemma MapRowToUser_row res r :
  shows res (SqlRows [row_cells r]) → in_s 16 (row_status r) →
  MapRowToUser (Some res) 0 = Ret (user_of_row r).
Proof.
  intros (_ & _ & Hcell) Hs.
  assert (∀ j cell, row_cells r !! j = Some cell →
    PQgetvalue (Some res) 0 (Z.of_nat j) = default EmptyString cell
    ∧ nullable (Some res) 0 (Z.of_nat j) = cell) as Hc.
  { intros j cell Hj. destruct (Hcell 0%nat _ j cell eq_refl Hj) as [Hv Hn]. split; [done|].
    unfold nullable. change 0 with (Z.of_nat 0). rewrite Hn, Hv.
    by destruct cell; case_bool_decide. }
  destruct (Hc 0%nat _ eq_refl) as [V0 _], (Hc 1%nat _ eq_refl) as [V1 _], (Hc 2%nat _ eq_refl) as [_ V2],
    (Hc 3%nat _ eq_refl) as [_ V3], (Hc 4%nat _ eq_refl) as [V4 _], (Hc 5%nat _ eq_refl) as [V5 _],
    (Hc 6%nat _ eq_refl) as [_ V6], (Hc 7%nat _ eq_refl) as [V7 _], (Hc 8%nat _ eq_refl) as [V8 _].
  cbv [Z.of_nat Pos.of_succ_nat Pos.succ] in *.
  unfold MapRowToUser. rewrite V0, V1, V2, V3, V4, V5, V6, V7, V8.
  simpl. rewrite stoi_to_string.
  - simpl. unfold user_of_row. f_equal. f_equal. by apply wrap_s_small.
  - revert Hs. unfold in_s. change (2 ^ (16 - 1)) with 32768. change (2 ^ (32 - 1)) with 2147483648. lia.
Qed.

(** What both selects return, without a row and with one. *)
Lemma select_result_none `{ChannelOps PQConnection} res (w : db_world) :
  shows res (SqlRows []) → select_result (MapResultToExpected (Some res)) w = (Ret (Val None), w).
Proof.
  intros Hs. rewrite (MapResult_shows _ _ Hs). unfold select_result. by destruct Hs as (_ & -> & _).
Qed.

Lemma select_result_row `{ChannelOps PQConnection} res r (w : db_world) :
  shows res (SqlRows [row_cells r]) → in_s 16 (row_status r) →
  select_result (MapResultToExpected (Some res)) w = (Ret (Val (Some (user_of_row r))), w).
Proof.
  intros Hs Hr. rewrite (MapResult_shows _ _ Hs). unfold select_result.
  rewrite (proj1 (proj2 Hs)). simpl. unfold bindM, liftO. by rewrite (MapRowToUser_row _ _ Hs Hr).
Qed.
End users.

(** ** Properties *)

Section properties.
Context `{LibPQLaws} `{ChannelLaws PQConnection}.

Definition finishes_and_releases {A} (conns : list PQConnection) (cid : nat) (w : db_world)
    (m : nat → M db_world A) : Prop :=
  ∃ enough, ∀ fuel, (enough ≤ fuel)%nat →
    ∃ o w', m fuel w = (o, w') ∧ o ≠ Pending
      ∧ rtc step (db_pool w) (db_pool w') ∧ pool_ready conns cid w'.

Lemma query_releases {A} conns cid sql ps
    (k : expected (option PGresult) DbError → M db_world A) w :
  immediate k → pool_ready conns cid w →
  finishes_and_releases conns cid w
    (λ fuel, with_connection cid (fun conn => let* r := exec_on fuel conn sql ps in k r)).
Proof.
  intros Hk Hready.
  destruct (with_connection_spec conns cid w Hready) as (x & p1 & p2 & _ & Hr & Hp2 & Hrun).
  destruct (query_total x sql ps k p1 (db_pg w) Hk) as [n Hn]. exists n. intros fuel Hf.
  destruct (Hn fuel Hf) as (o & g' & E & Ho). exists o, (mkDbWorld p2 g'). auto.
Qed.

(** No query leaks its connection and none hangs: whatever the database and
    the network do, each operation of the DAO finishes, with a value or with an
    exception, and then the coroutine owns no connection and the pool can serve
    the next call; the pool has only made steps of its own. *)
Theorem UserDao_releases (conns : list PQConnection) (cid : nat) (w : db_world)
    (Hready : pool_ready conns cid w) :
  (∀ user, finishes_and_releases conns cid w (λ fuel, CreateUser fuel cid user))
  ∧ (∀ id, finishes_and_releases conns cid w (λ fuel, GetUserById fuel cid id))
  ∧ (∀ phone, finishes_and_releases conns cid w (λ fuel, GetUserByPhoneNumber fuel cid phone)).
Proof.
  split_and!; intros; apply query_releases; auto using select_result_immediate, insert_result_immediate.
Qed.
End properties.

Section table_properties.
Context `{UsersServer} `{!PgTypesLaws} `{!ChannelOps PQConnection} `{!ChannelLaws PQConnection}.
Implicit Types (w : db_world) (u : User).

Definition rows_of w : list users_row := users_rows (db_pg w).
Definition runtime {A} (o : outcome A) : Prop := ∃ e, o = Throw e ∧ exn_cls e = runtime_error.

(** One query of the DAO against the table. *)
Lemma query_users {A} conns cid sql ps (k : expected (option PGresult) DbError → M db_world A) w :
  immediate k → pool_ready conns cid w → users_statement sql →
  let r := users_exec (users_now (db_pg w)) sql (c_str <$> ps) (rows_of w) in
  ∃ enough, ∀ fuel, (enough ≤ fuel)%nat → ∃ o w',
    with_connection cid (fun conn => let* r := exec_on fuel conn sql ps in k r) w = (o, w')
    ∧ pool_ready conns cid w'
    ∧ ((∃ res, shows res r.1 ∧ rows_of w' = r.2
           ∧ ∀ w0, k (MapResultToExpected (Some res)) w0 = (o, w0))
       ∨ runtime o ∧ (rows_of w' = rows_of w ∨ rows_of w' = r.2)).
Proof.
  intros Hk Hready Hsql r.
  destruct (with_connection_spec conns cid w Hready) as (x & p1 & p2 & _ & _ & Hp2 & Hrun).
  destruct (exec_users x sql ps (db_pg w) Hsql) as [n Hn]. exists n. intros fuel Hf.
  destruct (Hn fuel Hf) as (o & g' & E & Ho). apply (exec_on_eq _ _ _ _ p1) in E.
  destruct Ho as [(res & -> & Hsh & Hrows)|(e & -> & He & Hrows)].
  - destruct (Hk (MapResultToExpected (Some res))) as (o & Ho & Ek).
    exists o, (mkDbWorld p2 g'). split; [|split; [apply Hp2|]].
    + apply Hrun; [|done]. by rewrite (bindM_ret _ _ _ _ _ E).
    + left. by exists res.
  - exists (Throw e), (mkDbWorld p2 g'). split; [|split; [apply Hp2|]].
    + apply Hrun; [|done]. by rewrite (bindM_throw _ _ _ _ _ E).
    + right. split; [by exists e|done].
Qed.

Lemma insert_result_shows res sr o w :
  shows res sr → insert_result (MapResultToExpected (Some res)) w = (o, w) →
  o = match sr with
      | SqlError msg sqlstate => Ret (Unexpected (mkDbError SqlExecutionError msg sqlstate))
      | _ => Ret (Val ())
      end.
Proof.
  intros Hsh. rewrite (MapResult_shows _ _ Hsh). by destruct sr; intros [= <-].
Qed.

(** The row CreateUser asks for, [None] when a value does not fit its column. *)
Definition new_row u w : option users_row :=
  insert_row (users_now (db_pg w)) (c_str <$> CreateUser_params u).

Lemma insert_keeps_wf now ps r rows :
  table_wf rows → insert_row now ps = Some r → existsb (conflicts r) rows = false →
  (in_s 16 (row_status r)) → table_wf (rows ++ [r]).
Proof.
  intros (Hid & Hph & Hall) Hr Hc Hs.
  apply insert_row_inv in Hr as (id & ? & ? & ? & ? & ? & ? & ? & ? & ? & ? & _ & Hu & _).
  assert (∀ r', r' ∈ rows → row_id r ≠ row_id r' ∧ row_phone_number r ≠ row_phone_number r') as Hne.
  { intros r' Hin. apply conflicts_false. by apply (existsb_false _ _ _ Hc). }
  unfold table_wf. rewrite !fmap_app. simpl. split_and!.
  - apply NoDup_app. split; [done|]. split; [|apply NoDup_singleton].
    intros key (r' & -> & Hin)%list_elem_of_fmap E%list_elem_of_singleton. by destruct (Hne r' Hin).
  - apply NoDup_app. split; [done|]. split; [|apply NoDup_singleton].
    intros key (r' & -> & Hin)%list_elem_of_fmap E%list_elem_of_singleton. by destruct (Hne r' Hin).
  - apply Forall_app. split; [done|]. apply Forall_singleton. split; [|done].
    by apply uuid_in_canonical in Hu as [??].
Qed.

Lemma insert_row_status now u r :
  in_s 16 (status_ u) → insert_row now (c_str <$> CreateUser_params u) = Some r → row_status r = status_ u.
Proof.
  intros Hs (id & phone & username & email & hash & salt & avatar & status & ? & ? & ? & E & Hrest)%insert_row_inv.
  destruct Hrest as (_ & _ & _ & _ & _ & _ & _ & _ & _ & _ & Hst & _).
  injection E as _ _ _ _ _ _ _ <-. rewrite c_str_nul_free in Hst.
  - unfold GetStatusValue in Hst. rewrite smallint_in_to_string in Hst by done. congruence.
  - apply nul_free_to_string.
Qed.

Lemma new_row_status u w r : in_s 16 (status_ u) → new_row u w = Some r → row_status r = status_ u.
Proof. apply insert_row_status. Qed.

Lemma CreateUser_outcome (conns : list PQConnection) (cid : nat) (w : db_world) (u : User)
    (Hready : pool_ready conns cid w) (Hstatus : in_s 16 (status_ u)) (Htable : table_wf (rows_of w)) :
  ∃ enough, ∀ fuel, (enough ≤ fuel)%nat → ∃ o w', CreateUser fuel cid u w = (o, w')
    ∧ pool_ready conns cid w' ∧ table_wf (rows_of w')
    ∧ match new_row u w with
      | Some r =>
          if existsb (conflicts r) (rows_of w)
          then (∃ e, o = Ret (Unexpected e) ∧ sql_state e = "23505") ∧ rows_of w' = rows_of w
               ∨ runtime o ∧ rows_of w' = rows_of w
          else o = Ret (Val ()) ∧ rows_of w' = (rows_of w ++ [r])%list
               ∨ runtime o ∧ (rows_of w' = rows_of w ∨ rows_of w' = (rows_of w ++ [r])%list)
      | None => (∃ e, o = Ret (Unexpected e) ∧ sql_state e = "22000") ∧ rows_of w' = rows_of w
                ∨ runtime o ∧ rows_of w' = rows_of w
      end.
Proof.
  destruct (query_users conns cid insert_sql (CreateUser_params u) insert_result w
    insert_result_immediate Hready (or_introl eq_refl)) as [n Hn].
  exists n. intros fuel Hf. destruct (Hn fuel Hf) as (o & w' & E & Hp & Ho). exists o, w'.
  split; [done|]. split; [done|]. clear E Hn.
  change (users_exec ?now insert_sql ?ps ?rows) with (users_insert now ps rows) in Ho.
  unfold users_insert in Ho. fold (new_row u w) in Ho.
  destruct (new_row u w) as [r|] eqn:Er.
  - pose proof (new_row_status _ _ _ Hstatus Er) as Hs.
    assert (in_s 16 (row_status r)) as Hs' by by rewrite Hs.
    destruct (existsb (conflicts r) (rows_of w)) eqn:Ec.
    + destruct Ho as [(res & Hsh & Hr & Hko)|[Hrt [Hr|Hr]]]; cbn [fst snd] in *;
        (split; [by rewrite Hr|]); [left|by right..].
      split; [|done]. rewrite (insert_result_shows _ _ _ _ Hsh (Hko w)). by eexists.
    + pose proof (insert_keeps_wf _ _ _ _ Htable Er Ec Hs') as Hwf'.
      destruct Ho as [(res & Hsh & Hr & Hko)|[Hrt [Hr|Hr]]]; cbn [fst snd] in *;
        (split; [by rewrite Hr|]); [left|by auto..].
      split; [|done]. by rewrite (insert_result_shows _ _ _ _ Hsh (Hko w)).
  - destruct Ho as [(res & Hsh & Hr & Hko)|[Hrt [Hr|Hr]]]; cbn [fst snd] in *;
        (split; [by rewrite Hr|]); [left|by right..].
    split; [|done]. rewrite (insert_result_shows _ _ _ _ Hsh (Hko w)). by eexists.
Qed.


(** *** Reading back *)

Lemma select_find_immediate_result sel res o w rows :
  Forall (λ r, in_s 16 (row_status r)) rows →
  shows res (find_row sel rows) → select_result (MapResultToExpected (Some res)) w = (o, w) →
  o = Ret (Val (user_of_row <$> find_live sel rows)).
Proof.
  intros Hall Hsh. unfold find_row in Hsh. destruct (find_live sel rows) as [r|] eqn:E.
  - apply find_live_in in E as (Hin & _). rewrite Forall_forall in Hall.
    rewrite (select_result_row _ r) by auto. by intros [= <-].
  - rewrite select_result_none by done. by intros [= <-].
Qed.

Lemma table_wf_status rows : table_wf rows → Forall (λ r, in_s 16 (row_status r)) rows.
Proof. intros (_ & _ & Hall). eapply Forall_impl; [done|]. by intros ? []. Qed.

(** What a select answers on the table: the live user, nobody, or, for an id
    that is not a uuid, a database error. *)
Definition by_id_answer (id : string) (rows : list users_row)
    (o : outcome (expected (option User) DbError)) : Prop :=
  match uuid_in (c_str id) with
  | Some k => o = Ret (Val (user_of_row <$> find_live (λ r, bool_decide (row_id r = k)) rows))
  | None => ∃ e, o = Ret (Unexpected e) ∧ sql_state e = "22P02"
  end.

Lemma GetUserById_answer conns cid id w :
  pool_ready conns cid w → table_wf (rows_of w) →
  ∃ enough, ∀ fuel, (enough ≤ fuel)%nat → ∃ o w', GetUserById fuel cid id w = (o, w')
    ∧ pool_ready conns cid w' ∧ rows_of w' = rows_of w
    ∧ (by_id_answer id (rows_of w) o ∨ runtime o).
Proof.
  intros Hready Hwf.
  destruct (query_users conns cid select_by_id_sql [id] select_result w
    select_result_immediate Hready (or_intror (or_introl eq_refl))) as [n Hn].
  exists n. intros fuel Hf. destruct (Hn fuel Hf) as (o & w' & E & Hp & Ho). exists o, w'.
  split; [done|]. split; [done|]. clear E Hn.
  change (users_exec ?now select_by_id_sql ?ps ?rows) with (select_by_id ps rows, rows) in Ho.
  cbn [fst snd] in Ho. destruct Ho as [(res & Hsh & Hr & Hk)|[Hrt [Hr|Hr]]]; [|by auto..].
  split; [done|]. left. unfold by_id_answer. cbn [list_fmap fmap select_by_id] in Hsh.
  destruct (uuid_in (c_str id)) as [k|].
  - eapply select_find_immediate_result; [by apply table_wf_status|exact Hsh|exact (Hk w)].
  - specialize (Hk w). rewrite (MapResult_shows _ _ Hsh) in Hk. injection Hk as <-. by eexists.
Qed.

Lemma GetUserByPhoneNumber_answer conns cid phone w :
  pool_ready conns cid w → table_wf (rows_of w) →
  ∃ enough, ∀ fuel, (enough ≤ fuel)%nat → ∃ o w', GetUserByPhoneNumber fuel cid phone w = (o, w')
    ∧ pool_ready conns cid w' ∧ rows_of w' = rows_of w
    ∧ (o = Ret (Val (user_of_row <$>
              find_live (λ r, bool_decide (row_phone_number r = c_str phone)) (rows_of w)))
       ∨ runtime o).
Proof.
  intros Hready Hwf.
  destruct (query_users conns cid select_by_phone_sql [phone] select_result w
    select_result_immediate Hready (or_intror (or_intror eq_refl))) as [n Hn].
  exists n. intros fuel Hf. destruct (Hn fuel Hf) as (o & w' & E & Hp & Ho). exists o, w'.
  split; [done|]. split; [done|]. clear E Hn.
  change (users_exec ?now select_by_phone_sql ?ps ?rows) with (select_by_phone ps rows, rows) in Ho.
  cbn [fst snd] in Ho. destruct Ho as [(res & Hsh & Hr & Hk)|[Hrt [Hr|Hr]]]; [|by auto..].
  split; [done|]. left.
  eapply select_find_immediate_result; [by apply table_wf_status|exact Hsh|exact (Hk w)].
Qed.

(** A user whose text the columns take unchanged. *)
Definition fits u : Prop :=
  uuid_in (id_ u) = Some (id_ u) ∧ in_s 16 (status_ u)
  ∧ Forall (λ '(n, s), varchar_in n s = Some s ∧ nul_free s = true)
      [ (20%nat, phone_number_ u); (64%nat, value_or_empty (username_ u));
        (128%nat, value_or_empty (email_ u)); (256%nat, password_hash_ u); (64%nat, salt_ u);
        (512%nat, value_or_empty (avatar_url_ u)) ].

(** What the database keeps of a user inserted at the time it prints as [now]. *)
Definition stored (now : string) u : User :=
  mkUser (id_ u) (phone_number_ u) (password_hash_ u) (salt_ u)
    (Some (value_or_empty (username_ u))) (Some (value_or_empty (email_ u)))
    (Some (value_or_empty (avatar_url_ u))) (status_ u) (ParsePostgresTimestamp (Some now)) None.

Lemma fits_insert_row now u :
  fits u → ∃ r, insert_row now (c_str <$> CreateUser_params u) = Some r
    ∧ row_id r = id_ u ∧ row_phone_number r = phone_number_ u
    ∧ row_deleted_at r = None ∧ user_of_row r = stored now u.
Proof.
  intros (Hid & Hs & Hall). destruct (uuid_in_canonical _ _ Hid) as [_ Hn].
  rewrite !Forall_cons in Hall. destruct Hall as ([P1 N1] & [P2 N2] & [P3 N3] & [P4 N4] & [P5 N5] & [P6 N6] & _).
  unfold CreateUser_params, insert_row, GetId, GetPhoneNumber, GetUsername, GetEmail,
    GetPasswordHash, GetSalt, GetAvatarUrl, GetStatusValue.
  cbn [fmap list_fmap]. rewrite !c_str_nul_free by (done || apply nul_free_to_string).
  rewrite Hid, P1, P2, P3, P4, P5, P6, smallint_in_to_string by done. simpl. by eexists.
Qed.

Lemma fits_new_row u w :
  fits u → ∃ r, new_row u w = Some r ∧ row_id r = id_ u ∧ row_phone_number r = phone_number_ u
    ∧ row_deleted_at r = None ∧ user_of_row r = stored (users_now (db_pg w)) u.
Proof. apply fits_insert_row. Qed.


(** What a lookup answers on the users table: the live user with that id or
    phone number, or nobody; an id that is not a uuid in text form is a database
    error (22P02), not an absent user.  A lookup changes no row and hands its
    connection back. *)
Theorem GetUser_spec (conns : list PQConnection) (cid : nat) (w : db_world) (id phone : string)
    (Hready : pool_ready conns cid w) (Htable : table_wf (rows_of w)) :
  ∃ enough, ∀ fuel, (enough ≤ fuel)%nat →
    (∃ o w', GetUserById fuel cid id w = (o, w') ∧ pool_ready conns cid w' ∧ rows_of w' = rows_of w
      ∧ (by_id_answer id (rows_of w) o ∨ runtime o))
    ∧ (∃ o w', GetUserByPhoneNumber fuel cid phone w = (o, w') ∧ pool_ready conns cid w'
      ∧ rows_of w' = rows_of w
      ∧ (o = Ret (Val (user_of_row <$>
                find_live (λ r, bool_decide (row_phone_number r = c_str phone)) (rows_of w)))
         ∨ runtime o)).
Proof.
  destruct (GetUserById_answer conns cid id w Hready Htable) as [n1 Hn1].
  destruct (GetUserByPhoneNumber_answer conns cid phone w Hready Htable) as [n2 Hn2].
  exists (n1 + n2)%nat. intros fuel Hf. split; [apply Hn1; lia|apply Hn2; lia].
Qed.
End table_properties.

(** ** A concrete database

    The server of PgServer.v with the users table behind it, one connection and
    a pool of it. *)

Definition simple_types : PgTypes := {|
  uuid_in s := if bool_decide (String.length s = 36%nat) && nul_free s then Some s else None;
  varchar_in n s := if bool_decide (String.length s ≤ n)%nat then Some s else None;
  smallint_in s :=
    match stoi s with Ret z => if bool_decide (in_s 16 z) then Some z else None | _ => None end
|}.

#[local] Existing Instance simple_types.

#[export] Instance simple_types_laws : @PgTypesLaws simple_types.
Proof.
  split; simpl.
  - intros s t. destruct (bool_decide _ && nul_free s) eqn:E; [|done]. intros [= <-].
    rewrite E. by apply andb_prop in E as [_ ?].
  - intros z Hz. rewrite stoi_to_string; [by rewrite bool_decide_eq_true_2|].
    revert Hz. unfold in_s. change (2 ^ (16 - 1)) with 32768. change (2 ^ (32 - 1)) with 2147483648. lia.
  - intros n s _ Hn. by rewrite bool_decide_eq_true_2.
Qed.

Definition res_of (sr : sql_result) : pg_res :=
  match sr with
  | SqlRows rows => mkRes PGRES_TUPLES_OK EmptyString None rows
  | SqlDone => mkRes PGRES_COMMAND_OK EmptyString None []
  | SqlError msg st => mkRes PGRES_FATAL_ERROR msg (Some st) []
  end.

Definition server_now : string := "2025-11-26 10:00:00+00".

Definition users_pg_exec (sql : string) (ps : list string) (rows : list users_row)
    : list pg_res * list users_row :=
  let '(sr, rows') := @users_exec simple_types server_now sql ps rows in ([res_of sr], rows').

Abbreviation users_pg := (pg_server users_pg_exec).

Lemma res_of_shows sr : @shows users_pg (res_of sr) sr.
Proof.
  destruct sr as [rows| |msg st]; simpl; [|done..]. split_and!; [done|done|].
  intros i cells j cell Hi Hj. unfold sv_cell. simpl.
  rewrite !Nat2Z.id, Hi. simpl. by rewrite Hj.
Qed.

#[export] Instance users_pg_server : @UsersServer users_pg (pg_server_laws _) simple_types.
Proof.
  refine (@Build_UsersServer users_pg (pg_server_laws _) simple_types
            (sv_db (DB:=list users_row)) (λ _, server_now) _ _ _ _ _); simpl.
  - done.
  - intros [i|] w; [|done]. by destruct (sv_recv_ok w).
  - intros [i|] w; [|done]. by repeat case_match.
  - intros [i|] sql ps w r w'; [|by intros [= <- <-]].
    destruct (cs_results _) eqn:E; [by intros [= <- <-]|]. destruct (sv_send_ok w); [|by intros [= <- <-]].
    unfold users_pg_exec. destruct (users_exec server_now sql ps (sv_db w)) as [sr rows'] eqn:Ex.
    intros [= <- <-] _ _. exists (res_of sr). split_and!; [|apply res_of_shows|done].
    unfold server_results, sv_get. simpl. by rewrite lookup_insert_eq.
  - intros [i|] sql ps w w'; [|by intros [= <-]].
    destruct (cs_results _) eqn:E; [by intros [= <-]|]. destruct (sv_send_ok w); [|by intros [= <-]].
    by destruct (users_pg_exec sql ps (sv_db w)).
Defined.

Definition users_conn : @PQConnection users_pg := @mkPQConnection users_pg (Some 0%nat) (Some 3).
Definition users_world (rows : list users_row) : @db_world users_pg _ :=
  @mkDbWorld users_pg _
    (mkSystem (mkPool "" 1 [] [users_conn] (mkChan [] [] 0)) [])
    (mkServer rows {[ 0%nat := mkCS 0 0 None ]} 1 true true).

Lemma users_world_ready rows cid :
  @pool_ready users_pg _ _ [users_conn] cid (users_world rows).
Proof.
  split; [by apply initial_inv|]. split; [done|]. split; [done|]. apply not_elem_of_nil.
Qed.

Definition example_id : string := "0193a7e2-7b1c-7cc0-9d4f-2f6d1a2b3c4d".
Definition example_new_user : User := Create example_id "13800000000" "hash" "salt".

Lemma UserDao_releases_witness :
  let w := users_world [] in
  (∀ user, finishes_and_releases [users_conn] 1 w (λ fuel, CreateUser fuel 1 user))
  ∧ (∀ id, finishes_and_releases [users_conn] 1 w (λ fuel, GetUserById fuel 1 id))
  ∧ (∀ phone, finishes_and_releases [users_conn] 1 w (λ fuel, GetUserByPhoneNumber fuel 1 phone)).
Proof. apply (UserDao_releases [users_conn] 1 (users_world [])). apply users_world_ready. Defined.

Lemma table_wf_nil : @table_wf simple_types [].
Proof. by repeat split; constructor. Qed.


Lemma example_fits : @fits simple_types example_new_user.
Proof.
  split; [done|]. split; [by apply (bool_decide_unpack _)|]. repeat (constructor; [done|]). constructor.
Qed.


Lemma GetUser_spec_witness :
  let w := users_world [] in
  ∃ enough, ∀ fuel, (enough ≤ fuel)%nat →
    (∃ o w', GetUserById fuel 1 "not-a-uuid" w = (o, w') ∧ pool_ready [users_conn] 1 w'
      ∧ rows_of w' = rows_of w ∧ (by_id_answer "not-a-uuid" (rows_of w) o ∨ runtime o))
    ∧ (∃ o w', GetUserByPhoneNumber fuel 1 "139" w = (o, w') ∧ pool_ready [users_conn] 1 w'
      ∧ rows_of w' = rows_of w
      ∧ (o = Ret (Val (user_of_row <$>
                find_live (λ r, bool_decide (row_phone_number r = c_str "139")) (rows_of w)))
         ∨ runtime o)).
Proof.
  apply (GetUser_spec [users_conn] 1 (users_world []) "not-a-uuid" "139").
  - apply users_world_ready.
  - exact table_wf_nil.
Defined.
