(* ===== verification/Queries.v ===== *)
(** * Queries: many coroutines on one pool

    UserDao under concurrency: any number of coroutines ask the pool for a
    connection, send their statement, wait for the response and hand the
    connection back, each of them up to its next [co_await] at a time.  The
    segments between two suspensions are those of AsyncExecParams
    (pq_connection.cc) inside the scope of UserDao's pooled connection
    (user_dao.cc). *)

From stdpp Require Import base tactics option list strings numbers relations gmap.
From S2P Require Import Prelude Text Model User Timestamp LibPQ PgServer PqConnection.
From S2P Require Import Channel ConnectionPool UsersTable UserDao.

Open Scope string_scope.
Open Scope Z_scope.
Open Scope photon_scope.

(** A sum over a list in which one element changes, and the summand nowhere else. *)
Lemma sum_list_with_insert {A} (f f' : A → nat) (l : list A) i a b :
  (∀ j y, j ≠ i → l !! j = Some y → f' y = f y) → l !! i = Some a →
  (sum_list_with f' (<[i := b]> l) + f a = sum_list_with f l + f' b)%nat.
Proof.
  revert i. induction l as [|y l IH]; intros [|i] Hf Hi; [done..| |]; simpl in *.
  - injection Hi as ->. assert (sum_list_with f' l = sum_list_with f l) as ->; [|lia].
    clear IH. assert (∀ j y, l !! j = Some y → f' y = f y) as Hl by (intros j y; by apply (Hf (S j))). clear Hf.
    induction l as [|z l IH]; [done|]. simpl. rewrite (Hl O z eq_refl), IH; [done|]. intros j. apply (Hl (S j)).
  - rewrite (Hf O y) by done. specialize (IH i (λ j z Hj, Hf (S j) z (λ E, Hj (f_equal pred E))) Hi). lia.
Qed.

(** ** What a coroutine does between two suspensions *)
Section segments.
Context `{LibPQ}.

(** A round of AwaitResponse, from the descriptor becoming readable; in the last
    one the results are fetched and mapped.  [None]: the response is not complete. *)
Definition Segment (fuel : nat) (this : PQConnection) : M pg_world (option (expected (option PGresult) DbError)) :=
  do* async_wait (socket_ this) wait_read in
  let* r := callM (PQconsumeInput (conn_ this)) in
  if r =? 0 then throw_runtime "Failed to consume input: " (conn_ this)
  else
    let* busy := readM (PQisBusy (conn_ this)) in
    if negb (busy =? 0) then retM None
    else let* raw_result := FetchRawResult fuel this in retM (Some (MapResultToExpected raw_result)).

(** The coroutine alone: one round after the other. *)
Fixpoint Segments (n fuel : nat) (this : PQConnection) : M pg_world (expected (option PGresult) DbError) :=
  match n with
  | O => pendM
  | S n' => let* r := Segment fuel this in match r with None => Segments n' fuel this | Some a => retM a end
  end.

Lemma AwaitResponse_segments n fuel this w :
  (do* AwaitResponse n this in
   let* raw_result := FetchRawResult fuel this in retM (MapResultToExpected raw_result)) w
  = Segments n fuel this w.
Proof.
  revert w. induction n as [|n IH]; intros w; [done|]. cbn [AwaitResponse Segments].
  unfold Segment. rewrite !bindM_assoc. unfold bindM at 1. symmetry. unfold bindM at 1.
  destruct (async_wait (socket_ this) wait_read w) as [[[]|e|] w2]; [|done..].
  rewrite !bindM_assoc, !bind_callM. destruct (PQconsumeInput (conn_ this) w2) as [r w3]. cbn [fst snd].
  destruct (r =? 0); [done|]. rewrite !bindM_assoc, !bind_readM.
  destruct (PQisBusy (conn_ this) w3 =? 0); cbn [negb].
  - unfold bindM, retM. by destruct (FetchRawResult fuel this w3) as [[a|e|] w4].
  - by rewrite bindM_retM, <- IH.
Qed.

(** AsyncExecParams is its segments, one after the other. *)
Lemma AsyncExecParams_segments fuel this query params w :
  AsyncExecParams fuel this query params w = (do* SendQuery this query params in Segments fuel fuel this) w.
Proof.
  unfold AsyncExecParams. unfold bindM at 1. symmetry. unfold bindM at 1.
  destruct (SendQuery this query params w) as [[[]|e|] w1]; [|done..]. by rewrite <- AwaitResponse_segments.
Qed.
End segments.

(** ** The calls of UserDao *)
Inductive dao_call :=
| CallCreateUser (user : User)
| CallGetUserById (id : string)
| CallGetUserByPhoneNumber (phone_number : string).

Inductive dao_answer :=
| Created (r : expected () DbError)
| Found (r : expected (option User) DbError).

Definition call_sql (c : dao_call) : string :=
  match c with
  | CallCreateUser _ => insert_sql
  | CallGetUserById _ => select_by_id_sql
  | CallGetUserByPhoneNumber _ => select_by_phone_sql
  end.

Definition call_params (c : dao_call) : list string :=
  match c with
  | CallCreateUser user => CreateUser_params user
  | CallGetUserById id => [id]
  | CallGetUserByPhoneNumber phone_number => [phone_number]
  end.

(** [status_] is an int16_t. *)
Definition call_ok (c : dao_call) : Prop :=
  match c with CallCreateUser user => in_s 16 (status_ user) | _ => True end.

#[export] Instance call_ok_dec c : Decision (call_ok c).
Proof. destruct c; apply _. Defined.

(** ** State *)
Section queries.
Context `{LibPQ} `{PgTypes} `{ChannelOps PQConnection}.

(** What the coroutine makes of the result, with the connection still in hand. *)
Definition call_result (c : dao_call) (r : expected (option PGresult) DbError) : M db_world dao_answer :=
  match c with
  | CallCreateUser _ => let* x := insert_result r in retM (Created x)
  | _ => let* x := select_result r in retM (Found x)
  end.

(** A coroutine waits in GetConnection, is suspended in AwaitResponse with its
    connection, or has returned or thrown. *)
Inductive phase :=
| Asking (c : dao_call)
| Awaiting (c : dao_call) (conn : PQConnection)
| Answered (c : dao_call) (o : outcome dao_answer).

(** The coroutines are numbered in the order of their calls.  [executed] is the
    database's own log: whose statement ran, and at what time. *)
Record state := mkState {
  the_world : db_world;
  coroutines : list phase;
  executed : list (nat * dao_call * string)
}.

(** ** Operations *)

(** A statement of UserDao has one result, and the null pointer after it. *)
Definition fetch_fuel : nat := 2.

(** The end of the scope: the answer is there and the deleter runs. *)
Definition leave (co : nat) (c : dao_call) (conn : PQConnection) (m : M db_world dao_answer) (s : state) : option state :=
  let '(o, w) := m (the_world s) in
  match o with
  | Pending => None
  | _ =>
      let '(_, w) := zoomM db_pool_lens (ReleaseM co conn) w in
      Some (mkState w (<[co := Answered c o]> (coroutines s)) (executed s))
  end.

(** Coroutine [co] goes on from where it is suspended, to the next suspension. *)
Definition resume (users_now : pg_world → string) (co : nat) (s : state) : option state :=
  match coroutines s !! co with
  | Some (Asking c) =>
      conn ← lookup_held co (held (db_pool (the_world s)));
      match zoomM db_pg_lens (SendQuery conn (call_sql c) (call_params c)) (the_world s) with
      | (Ret _, w) =>
          Some (mkState w (<[co := Awaiting c conn]> (coroutines s))
                  (executed s ++ [(co, c, users_now (db_pg (the_world s)))])%list)
      | (Throw e, w) => leave co c conn (throwM e) (mkState w (coroutines s) (executed s))
      | (Pending, _) => None
      end
  | Some (Awaiting c conn) =>
      match zoomM db_pg_lens (Segment fetch_fuel conn) (the_world s) with
      | (Ret None, w) => Some (mkState w (coroutines s) (executed s))
      | (Ret (Some r), w) => leave co c conn (call_result c r) (mkState w (coroutines s) (executed s))
      | (Throw e, w) => leave co c conn (throwM e) (mkState w (coroutines s) (executed s))
      | (Pending, _) => None
      end
  | _ => None
  end.

Definition with_system (p : @system PQConnection _) (s : state) : state :=
  mkState (mkDbWorld p (db_pg (the_world s))) (coroutines s) (executed s).

(** What can happen: a new call, the pool's strand runs a task, a coroutine goes on. *)
Inductive happening := Calls (c : dao_call) | StrandRuns | Resumes (co : nat).

Definition happen (users_now : pg_world → string) (h : happening) (s : state) : option state :=
  let p := db_pool (the_world s) in
  match h with
  | Calls c =>
      if bool_decide (call_ok c)
      then let co := length (coroutines s) in
           Some (mkState (mkDbWorld (mkSystem (GetConnection co (the_pool p)) (held p)) (db_pg (the_world s)))
                   (coroutines s ++ [Asking c])%list (executed s))
      else None
  | StrandRuns => match strand_ (the_pool p) with [] => None | _ => Some (with_system (run_strand p) s) end
  | Resumes co => resume users_now co s
  end.

Fixpoint play (users_now : pg_world → string) (hs : list happening) (s : state) : option state :=
  match hs with [] => Some s | h :: hs' => s' ← happen users_now h s; play users_now hs' s' end.

Definition playable (users_now : pg_world → string) (hs : list happening) (s : state) : bool :=
  match play users_now hs s with Some _ => true | None => false end.

Definition answer_of (ph : phase) : option (outcome dao_answer) :=
  match ph with Answered _ o => Some o | _ => None end.

Definition is_call (h : happening) : bool := match h with Calls _ => true | _ => false end.
End queries.

(** ** The specification: one call after the other on the table *)

Section specification.
Context `{PgTypes}.

Definition sql_failure (msg sqlstate : string) : DbError := mkDbError SqlExecutionError msg sqlstate.

(** What a call answers on a table, and the table after it; [now] is the
    database's clock. *)
Definition spec_call (c : dao_call) (now : string) (rows : list users_row) : dao_answer * list users_row :=
  match c with
  | CallCreateUser user =>
      match insert_row now (c_str <$> CreateUser_params user) with
      | None => (Created (Unexpected (sql_failure "invalid value" "22000")), rows)
      | Some r =>
          if existsb (conflicts r) rows
          then (Created (Unexpected (sql_failure "duplicate key value violates unique constraint" "23505")), rows)
          else (Created (Val ()), (rows ++ [r])%list)
      end
  | CallGetUserById id =>
      (Found match uuid_in (c_str id) with
             | None => Unexpected (sql_failure "invalid input syntax for type uuid" "22P02")
             | Some k => Val (user_of_row <$> find_live (λ r, bool_decide (row_id r = k)) rows)
             end, rows)
  | CallGetUserByPhoneNumber phone =>
      (Found (Val (user_of_row <$> find_live (λ r, bool_decide (row_phone_number r = c_str phone)) rows)), rows)
  end.

(** The table after the calls of a log, one after the other. *)
Definition replay (rows : list users_row) (log : list (nat * dao_call * string)) : list users_row :=
  foldl (λ rows '(_, c, now), (spec_call c now rows).2) rows log.

Lemma replay_snoc rows log co c now :
  replay rows (log ++ [(co, c, now)])%list = (spec_call c now (replay rows log)).2.
Proof. unfold replay. by rewrite foldl_app. Qed.

Definition call_exec (c : dao_call) (now : string) (rows : list users_row) : sql_result * list users_row :=
  users_exec now (call_sql c) (c_str <$> call_params c) rows.

(** The statement of a call does to the table what the specification says. *)
Lemma call_exec_rows c now rows : (call_exec c now rows).2 = (spec_call c now rows).2.
Proof.
  unfold call_exec. destruct c as [u|id|ph]; cbn [call_sql call_params spec_call snd]; try done.
  change (users_exec ?n insert_sql ?ps ?r) with (users_insert n ps r). unfold users_insert.
  destruct (insert_row _ _) as [r|]; [|done]. by destruct (existsb _ _).
Qed.

Lemma call_statement c : users_statement (call_sql c).
Proof. unfold users_statement. destruct c; auto. Qed.
End specification.

(** ** What a segment does *)

Section facts.
Context `{UsersServer} `{!PgTypesLaws} `{!ChannelOps PQConnection} `{!LibPQFrame}.
Implicit Types (x : PQConnection) (g : pg_world) (c : dao_call) (rows : list users_row).

Lemma spec_call_wf c now rows : call_ok c → table_wf rows → table_wf (spec_call c now rows).2.
Proof.
  destruct c as [u|id|ph]; cbn [spec_call snd call_ok]; [|done..]. intros Hs Hwf.
  destruct (insert_row _ _) as [r|] eqn:Er; [|done]. destruct (existsb _ _) eqn:Ec; [done|]. simpl.
  eapply insert_keeps_wf; [done..|]. by rewrite (insert_row_status now u r Hs Er).
Qed.

(** The answer made of a result that shows what the database answered. *)
Lemma call_result_spec c now rows res (w : db_world) :
  table_wf rows → shows res (call_exec c now rows).1 →
  call_result c (MapResultToExpected (Some res)) w = (Ret (spec_call c now rows).1, w).
Proof.
  intros Hwf%table_wf_status. unfold call_exec. destruct c as [u|id|ph]; cbn [call_result call_exec call_sql call_params spec_call].
  - change (users_exec ?n insert_sql ?ps ?r) with (users_insert n ps r). unfold users_insert. intros Hsh.
    rewrite (MapResult_shows _ _ Hsh).
    destruct (insert_row _ _) as [r|]; [|done]. by destruct (existsb _ _).
  - change (users_exec ?n select_by_id_sql ?ps ?r) with (select_by_id ps r, r). cbn [fst snd fmap list_fmap select_by_id].
    destruct (uuid_in (c_str id)) as [k|]; intros Hsh; [|by rewrite (MapResult_shows _ _ Hsh)].
    destruct (select_result_immediate (MapResultToExpected (Some res))) as (o & _ & Eo).
    rewrite (bindM_ret _ _ _ _ w (eq_trans (Eo w) (f_equal (., w) (select_find_immediate_result _ _ _ _ _ Hwf Hsh (Eo w))))).
    done.
  - change (users_exec ?n select_by_phone_sql ?ps ?r) with (select_by_phone ps r, r). cbn [fst snd fmap list_fmap select_by_phone].
    intros Hsh. destruct (select_result_immediate (MapResultToExpected (Some res))) as (o & _ & Eo).
    rewrite (bindM_ret _ _ _ _ w (eq_trans (Eo w) (f_equal (., w) (select_find_immediate_result _ _ _ _ _ Hwf Hsh (Eo w))))).
    done.
Qed.

(** The commands in progress on the connections other than [x]. *)
Definition others_same x g g' : Prop :=
  ∀ k, k ≠ conn_ x → pq_results k g' = pq_results k g ∧ pq_rounds k g' = pq_rounds k g.

Lemma others_same_trans x g1 g2 g3 : others_same x g1 g2 → others_same x g2 g3 → others_same x g1 g3.
Proof. intros H12 H23 k Hk. destruct (H12 k Hk) as [<- <-]. by apply H23. Qed.

Lemma SendQuery_users x c g :
  ∃ o g', SendQuery x (call_sql c) (call_params c) g = (o, g') ∧ others_same x g g'
    ∧ ((o = Ret () ∧ pq_results (conn_ x) g = None
        ∧ users_rows g' = (spec_call c (users_now g) (users_rows g)).2
        ∧ ∃ res, pq_results (conn_ x) g' = Some [res] ∧ shows res (call_exec c (users_now g) (users_rows g)).1)
       ∨ ∃ msg, o = Throw (Exn runtime_error ("Failed to send query: " +:+ msg))
           ∧ users_rows g' = users_rows g ∧ pq_results (conn_ x) g' = pq_results (conn_ x) g).
Proof.
  unfold SendQuery. rewrite bind_callM, (users_statement_c_str _ (call_statement c)).
  pose proof (λ k Hk, PQsendQueryParams_frame (conn_ x) k (call_sql c) (c_str <$> call_params c) g Hk) as Hframe.
  destruct (PQsendQueryParams _ _ _ g) as [r g1] eqn:E. cbn [fst snd] in *.
  destruct (Z.eqb_spec r 0) as [->|Hr].
  - rewrite throw_runtime_eq. do 2 eexists. split; [done|]. split; [exact Hframe|]. right. eexists. split; [done|].
    split; [by apply us_send_failed in E|by apply PQsendQueryParams_failed in E].
  - destruct (us_send _ _ _ _ _ _ E (call_statement c) Hr) as (res & Hres & Hsh & Hrows).
    destruct (PQsendQueryParams_law _ _ _ _ _ _ E Hr) as [Hidle _].
    do 2 eexists. split; [done|]. split; [exact Hframe|]. left. split_and!; [done|done| |by exists res].
    by rewrite <- call_exec_rows.
Qed.

(** A round reads, fetches or fails. *)
Lemma Segment_users x g res :
  pq_results (conn_ x) g = Some [res] →
  ∃ o g', Segment fetch_fuel x g = (o, g') ∧ others_same x g g' ∧ users_rows g' = users_rows g
    ∧ (o = Ret None ∧ pq_results (conn_ x) g' = Some [res]
         ∧ (pq_rounds (conn_ x) g' < pq_rounds (conn_ x) g)%nat
       ∨ o = Ret (Some (MapResultToExpected (Some res)))
       ∨ ∃ msg, o = Throw (Exn runtime_error ("Failed to consume input: " +:+ msg))).
Proof.
  intros Hres. unfold Segment. pose proof (us_wait (socket_ x) wait_read g) as Hr1.
  destruct (async_wait_law (socket_ x) wait_read g) as (g1 & E1 & Hw1 & _). rewrite E1 in Hr1. simpl in Hr1.
  rewrite (bindM_ret _ _ _ _ _ E1), bind_callM.
  destruct (Hw1 (conn_ x)) as [Ha1 Hb1]. rewrite Hres in Hb1.
  assert (others_same x g g1) as Ho1 by (intros k _; destruct (Hw1 k); split; done).
  pose proof (us_consume (conn_ x) g1) as Hr2. pose proof (λ k Hk, PQconsumeInput_frame (conn_ x) k g1 Hk) as Ho2.
  destruct (PQconsumeInput (conn_ x) g1) as [r g2] eqn:E2. cbn [fst snd] in *.
  assert (others_same x g g2) as Ho by by eapply others_same_trans. clear Ho1 Ho2.
  destruct (Z.eqb_spec r 0) as [->|Hr].
  { rewrite throw_runtime_eq. do 2 eexists. split; [done|]. split; [done|]. split; [congruence|]. eauto. }
  destruct (PQconsumeInput_law _ _ _ _ E2 Hr) as [Hb2 Ha2]. rewrite Hb1 in Hb2. rewrite bind_readM.
  destruct (Z.eqb_spec (PQisBusy (conn_ x) g2) 0) as [Hb|Hb]; cbn [negb].
  2: { do 2 eexists. split; [done|]. split; [done|]. split; [congruence|]. left. split_and!; [done|done|].
       assert (pq_rounds (conn_ x) g2 ≠ O) by (intros Hn; by apply Hb, PQisBusy_law). lia. }
  destruct (PQgetResult_some _ _ _ _ Hb2) as (g3 & E3 & Hb3).
  destruct (PQgetResult_last _ _ Hb3) as (g4 & E4 & _).
  pose proof (us_get (conn_ x) g2) as Hr3. pose proof (us_get (conn_ x) g3) as Hr4.
  pose proof (λ k Hk, PQgetResult_frame (conn_ x) k g2 Hk) as Ho3.
  pose proof (λ k Hk, PQgetResult_frame (conn_ x) k g3 Hk) as Ho4.
  rewrite E3 in Hr3, Ho3. rewrite E4 in Hr4, Ho4. cbn [fst snd] in *.
  unfold FetchRawResult, fetch_fuel. cbn [FetchRawResult_loop].
  unfold bindM, callM. rewrite E3, E4. do 2 eexists. split; [done|].
  split; [exact (others_same_trans _ _ _ _ Ho (others_same_trans _ _ _ _ Ho3 Ho4))|]. split; [congruence|]. auto.
Qed.
End facts.

(** ** What can happen, case by case *)

Section steps.
Context `{UsersServer} `{!PgTypesLaws} `{!ChannelOps PQConnection} `{!ChannelLaws PQConnection} `{!LibPQFrame}.
Context (conns : list PQConnection) (rows0 : list users_row).
Context (Hdistinct : NoDup (conn_ <$> conns)) (Htable : table_wf rows0).
Implicit Types (s : state) (p : @system PQConnection _) (g : pg_world) (x : PQConnection) (c : dao_call).
Abbreviation log := (list (nat * dao_call * string)).

Definition released co x p : system := (ReleaseM co x p).2.

Definition runs (l : log) : list nat := (λ e, e.1.1) <$> l.

(** The coroutine [co], owning [x], goes from one phase to the next. *)
Inductive goes s co x : phase → phase → @system PQConnection _ → pg_world → log → Prop :=
| goes_sent c g res :
    users_rows g = (spec_call c (users_now (db_pg (the_world s))) (users_rows (db_pg (the_world s)))).2 →
    pq_results (conn_ x) (db_pg (the_world s)) = None → pq_results (conn_ x) g = Some [res] →
    shows res (call_exec c (users_now (db_pg (the_world s))) (users_rows (db_pg (the_world s)))).1 →
    goes s co x (Asking c) (Awaiting c x) (db_pool (the_world s)) g
      (executed s ++ [(co, c, users_now (db_pg (the_world s)))])
| goes_refused c g msg :
    users_rows g = users_rows (db_pg (the_world s)) →
    pq_results (conn_ x) g = pq_results (conn_ x) (db_pg (the_world s)) →
    goes s co x (Asking c) (Answered c (Throw (Exn runtime_error ("Failed to send query: " +:+ msg))))
      (released co x (db_pool (the_world s))) g (executed s)
| goes_round c g :
    users_rows g = users_rows (db_pg (the_world s)) →
    pq_results (conn_ x) g = pq_results (conn_ x) (db_pg (the_world s)) →
    (pq_rounds (conn_ x) g < pq_rounds (conn_ x) (db_pg (the_world s)))%nat →
    goes s co x (Awaiting c x) (Awaiting c x) (db_pool (the_world s)) g (executed s)
| goes_answered c g o :
    users_rows g = users_rows (db_pg (the_world s)) →
    runtime o ∨ (∃ l1 now l2, executed s = (l1 ++ (co, c, now) :: l2)%list
      ∧ o = Ret (spec_call c now (replay rows0 l1)).1) →
    goes s co x (Awaiting c x) (Answered c o) (released co x (db_pool (the_world s))) g (executed s).

(** The state after a call of the next coroutine. *)
Definition called c s : state :=
  mkState (mkDbWorld (mkSystem (GetConnection (length (coroutines s)) (the_pool (db_pool (the_world s))))
                        (held (db_pool (the_world s)))) (db_pg (the_world s)))
    (coroutines s ++ [Asking c])%list (executed s).

Inductive effect s : state → Prop :=
| effect_call c : call_ok c → effect s (called c s)
| effect_strand :
    strand_ (the_pool (db_pool (the_world s))) ≠ [] → effect s (with_system (run_strand (db_pool (the_world s))) s)
| effect_goes co x ph ph' p g l :
    coroutines s !! co = Some ph → (co, x) ∈ held (db_pool (the_world s)) →
    others_same x (db_pg (the_world s)) g → goes s co x ph ph' p g l →
    effect s (mkState (mkDbWorld p g) (<[co := ph']> (coroutines s)) l).

(** ** Invariant *)

Definition phase_call (ph : phase) : dao_call :=
  match ph with Asking c | Awaiting c _ | Answered c _ => c end.

(** What is true of a coroutine in each phase. *)
Definition phase_ok (w : db_world) (l : log) (co : nat) (ph : phase) : Prop :=
  match ph with
  | Asking c => call_ok c ∧ (co ∈ pending (db_pool w) ∨ co ∈ (held (db_pool w)).*1) ∧ co ∉ runs l
  | Awaiting c x =>
      (co, x) ∈ held (db_pool w)
      ∧ ∃ l1 now l2 res, l = (l1 ++ (co, c, now) :: l2)%list ∧ pq_results (conn_ x) (db_pg w) = Some [res]
          ∧ shows res (call_exec c now (replay rows0 l1)).1
  | Answered c o =>
      runtime o ∨ ∃ l1 now l2, l = (l1 ++ (co, c, now) :: l2)%list ∧ o = Ret (spec_call c now (replay rows0 l1)).1
  end.

Record inv s : Prop := {
  i_pool : pool_inv conns (db_pool (the_world s));
  i_pending co : co ∈ pending (db_pool (the_world s)) → ∃ c, coroutines s !! co = Some (Asking c);
  i_held co x : (co, x) ∈ held (db_pool (the_world s)) →
    ∃ c, coroutines s !! co = Some (Asking c) ∨ coroutines s !! co = Some (Awaiting c x);
  i_phase co ph : coroutines s !! co = Some ph → phase_ok (the_world s) (executed s) co ph;
  i_runs : NoDup (runs (executed s));
  i_entry e : e ∈ executed s → phase_call <$> coroutines s !! e.1.1 = Some e.1.2;
  i_ok : Forall (λ e, call_ok e.1.2) (executed s);
  i_rows : users_rows (db_pg (the_world s)) = replay rows0 (executed s)
}.

Lemma entry_old (l : log) (cs : list phase) co :
  (∀ e, e ∈ l → phase_call <$> cs !! e.1.1 = Some e.1.2) → co ∈ runs l → (co < length cs)%nat.
Proof.
  intros Hl (e & -> & He)%list_elem_of_fmap. apply Hl, fmap_Some in He as (ph & E & _). by eapply lookup_lt_Some.
Qed.

Lemma replay_wf (l : log) : Forall (λ e, call_ok e.1.2) l → table_wf (replay rows0 l).
Proof.
  induction l as [|[[co c] now] l IH] using rev_ind; [done|]. intros [Hl [Hc _]%Forall_cons]%Forall_app.
  rewrite replay_snoc. apply spec_call_wf; [exact Hc|by apply IH].
Qed.

Lemma held_distinct p co co' x x' :
  pool_inv conns p → (co, x) ∈ held p → (co', x') ∈ held p → co ≠ co' → conn_ x' ≠ conn_ x.
Proof.
  intros [Hcons Hnd _ _ _] Hx Hx' Hne E.
  assert (NoDup ((λ q, conn_ q.2) <$> held p)) as Hn.
  { rewrite <- Hcons, fmap_app in Hdistinct. apply NoDup_app in Hdistinct as (_ & _ & Hn).
    by rewrite <- list_fmap_compose in Hn. }
  apply list_elem_of_lookup in Hx as [i Hi], Hx' as [j Hj].
  assert (i = j) as <-.
  { apply (NoDup_lookup _ _ _ (conn_ x) Hn); rewrite list_lookup_fmap, ?Hi, ?Hj; simpl; congruence. }
  congruence.
Qed.

Lemma elem_released co x p co' x' : (co', x') ∈ held (released co x p) ↔ co' ≠ co ∧ (co', x') ∈ held p.
Proof. unfold released. simpl. by rewrite list_elem_of_filter. Qed.

Lemma held_functional p co x y : pool_inv conns p → (co, x) ∈ held p → (co, y) ∈ held p → x = y.
Proof.
  intros Hinv Hx Hy. pose proof (inv_coroutines _ _ Hinv) as (_ & _ & Hn)%NoDup_app.
  apply (lookup_held_Some _ _ _ Hn) in Hx, Hy. congruence.
Qed.

Lemma fst_held p co x : (co, x) ∈ held p → co ∈ (held p).*1.
Proof. intros Hx. apply list_elem_of_fmap. by exists (co, x). Qed.

(** The end of the scope returns the connection. *)
Lemma leave_eq co c x m s o w :
  m (the_world s) = (o, w) → o ≠ Pending →
  leave co c x m s = Some (mkState (mkDbWorld (released co x (db_pool w)) (db_pg w))
                             (<[co := Answered c o]> (coroutines s)) (executed s)).
Proof. intros E Ho. unfold leave. rewrite E. by destruct o. Qed.

(** A coroutine that owns its connection can go on, and this is what it does. *)
Lemma resume_effect s co x :
  inv s → (co, x) ∈ held (db_pool (the_world s)) →
  ∃ ph ph' p g l, coroutines s !! co = Some ph
    ∧ resume users_now co s = Some (mkState (mkDbWorld p g) (<[co := ph']> (coroutines s)) l)
    ∧ others_same x (db_pg (the_world s)) g ∧ goes s co x ph ph' p g l.
Proof.
  intros Hinv Hx. pose proof (i_pool _ Hinv) as Hpool. unfold resume.
  destruct (i_held _ Hinv _ _ Hx) as (c & [Hc|Hc]); rewrite Hc.
  - pose proof (inv_coroutines _ _ Hpool) as (_ & _ & Hn)%NoDup_app.
    rewrite (lookup_held_Some _ _ _ Hn Hx). simpl.
    destruct (SendQuery_users x c (db_pg (the_world s))) as (o & g & E & Ho & Hcase).
    rewrite (zoomM_eq db_pg_lens _ (the_world s) _ _ E).
    destruct Hcase as [(-> & Hidle & Hrows & res & Hres & Hsh)|(msg & -> & Hrows & Hres)].
    + do 5 eexists. split; [done|]. split; [done|]. split; [done|]. by econstructor.
    + do 2 eexists. exists (released co x (db_pool (the_world s))), g, (executed s). split; [done|]. split; [by rewrite (leave_eq _ _ _ (throwM _) _ _ _ eq_refl)|]. split; [done|]. by apply (goes_refused s co x c g).
  - destruct (i_phase _ Hinv _ _ Hc) as (_ & l1 & now & l2 & res & Hl & Hres & Hsh).
    destruct (Segment_users x (db_pg (the_world s)) res Hres) as (o & g & E & Ho & Hrows & Hcase).
    rewrite (zoomM_eq db_pg_lens _ (the_world s) _ _ E).
    destruct Hcase as [(-> & Hres' & Hlt)|[->|(msg & ->)]].
    + exists (Awaiting c x), (Awaiting c x), (db_pool (the_world s)), g, (executed s).
      rewrite list_insert_id by done. split; [done|]. split; [done|]. split; [done|]. apply goes_round; congruence.
    + assert (table_wf (replay rows0 l1)) as Hwf.
      { apply replay_wf. pose proof (i_ok _ Hinv) as Hok. rewrite Hl in Hok. by apply Forall_app in Hok as [? _]. }
      do 5 eexists. split; [done|]. split; [by rewrite (leave_eq _ _ _ _ _ _ _ (call_result_spec c now _ res _ Hwf Hsh))|]. split; [done|].
      apply (goes_answered s co x c g); [done|]. right. by repeat eexists.
    + do 2 eexists. exists (released co x (db_pool (the_world s))), g, (executed s). split; [done|]. split; [by rewrite (leave_eq _ _ _ (throwM _) _ _ _ eq_refl)|]. split; [done|].
      apply (goes_answered s co x c g); [done|]. left. by eexists.
Qed.

Lemma resume_held s co s' :
  inv s → resume users_now co s = Some s' → ∃ x, (co, x) ∈ held (db_pool (the_world s)).
Proof.
  intros Hinv. unfold resume. destruct (coroutines s !! co) as [[c|c x|c o]|] eqn:E; [| |done..].
  - destruct (lookup_held co _) as [x|] eqn:El; [|done]. intros _. exists x. by apply lookup_held_elem.
  - intros _. exists x. by destruct (i_phase _ Hinv _ _ E).
Qed.

Lemma happen_effect h s s' : inv s → happen users_now h s = Some s' → effect s s'.
Proof.
  intros Hinv. destruct h as [c| |co]; simpl.
  - case_bool_decide; [|done]. intros [= <-]. by constructor.
  - destruct (strand_ _) eqn:E; [done|]. intros [= <-]. constructor. by rewrite E.
  - intros Hr. destruct (resume_held _ _ _ Hinv Hr) as [x Hx].
    destruct (resume_effect s co x Hinv Hx) as (ph & ph' & p & g & l & Hph & E & Ho & Hg).
    rewrite E in Hr. injection Hr as <-. by econstructor.
Qed.

(** ** The invariant is kept *)

Lemma runs_app (l1 l2 : log) : runs (l1 ++ l2)%list = (runs l1 ++ runs l2)%list.
Proof. apply fmap_app. Qed.

(** What another coroutine does leaves this one's phase true. *)
Lemma phase_ok_keeps w w' (l ext : log) co ph :
  phase_ok w l co ph → co ∉ runs ext →
  (co ∈ pending (db_pool w) ∨ co ∈ (held (db_pool w)).*1 → co ∈ pending (db_pool w') ∨ co ∈ (held (db_pool w')).*1) →
  (∀ x, (co, x) ∈ held (db_pool w) →
    (co, x) ∈ held (db_pool w') ∧ pq_results (conn_ x) (db_pg w') = pq_results (conn_ x) (db_pg w)) →
  phase_ok w' (l ++ ext)%list co ph.
Proof.
  intros Hok Hext Hwait Hheld. destruct ph as [c|c x|c o]; simpl in *.
  - destruct Hok as (? & ? & ?). split; [done|]. split; [auto|]. rewrite runs_app, elem_of_app. tauto.
  - destruct Hok as (Hx & l1 & now & l2 & res & -> & Hres & Hsh). destruct (Hheld _ Hx) as [? E]. split; [done|].
    exists l1, now, (l2 ++ ext)%list, res. rewrite <- (assoc_L (++)%list). split; [done|]. by rewrite E.
  - destruct Hok as [?|(l1 & now & l2 & -> & ?)]; [by left|]. right.
    exists l1, now, (l2 ++ ext)%list. by rewrite <- (assoc_L (++)%list).
Qed.

Lemma called_inv c s : inv s → call_ok c → inv (called c s).
Proof.
  intros [Hpool Hpend Hheld Hph Hnd Hentry Hok Hrows] Hc.
  pose proof (λ co, entry_old (executed s) (coroutines s) co Hentry) as Hold.
  assert (∀ co ph, coroutines s !! co = Some ph → (coroutines s ++ [Asking c])%list !! co = Some ph) as Hmono
    by (intros; by apply lookup_app_l_Some).
  assert ((coroutines s ++ [Asking c])%list !! length (coroutines s) = Some (Asking c)) as Hnew
    by by apply list_lookup_middle.
  split; cbn [the_world coroutines executed called db_pool db_pg]; [| | | |done| |done|done].
  - eapply step_inv; [done|]. apply step_call.
    + intros [c' Hc']%Hpend. apply lookup_lt_Some in Hc'. lia.
    + intros ([co x] & Eco & Hx)%list_elem_of_fmap. simpl in Eco.
      destruct (Hheld _ _ Hx) as (c' & [E|E]); apply lookup_lt_Some in E; lia.
  - rewrite pending_call. intros co Hin. apply elem_of_app in Hin as [Hin|Hin].
    + apply Hpend in Hin as [c' Hin]. exists c'. by apply Hmono.
    + apply list_elem_of_singleton in Hin as ->. by exists c.
  - intros co x Hx. destruct (Hheld _ _ Hx) as (c' & E). exists c'. destruct E; auto.
  - intros co ph E. apply lookup_app_Some in E as [E|[Hlen E]].
    + rewrite <- (app_nil_r (executed s)). apply (phase_ok_keeps (the_world s)); [by apply Hph|apply not_elem_of_nil| |done].
      cbn [db_pool]. rewrite pending_call. intros [?|?]; [left|by right]. apply elem_of_app. by left.
    + apply list_lookup_singleton_Some in E as [Hlen' <-]. split; [done|]. split.
      * left. cbn [db_pool]. rewrite pending_call. apply elem_of_app. right. apply list_elem_of_singleton. lia.
      * intros Hin%Hold. lia.
  - intros e He. pose proof (Hentry e He) as (ph & E & Ec)%fmap_Some. by rewrite (Hmono _ _ E), Ec.
Qed.

Lemma strand_inv s :
  inv s → strand_ (the_pool (db_pool (the_world s))) ≠ [] → inv (with_system (run_strand (db_pool (the_world s))) s).
Proof.
  intros [Hpool Hpend Hheld Hph Hnd Hentry Hok Hrows] Hne.
  pose proof (run_strand_inv _ _ Hpool Hne) as Hpool'.
  split; cbn [the_world coroutines executed with_system db_pool db_pg]; [done| | | |done..].
  all: destruct (run_strand_effect _ _ Hpool Hne) as [co0 x0 ps xs Hp Ha Hp' Ha' Hh'|Hp' Ha' Hh']; rewrite ?Hp', ?Hh'.
  - intros co Hco. apply Hpend. rewrite Hp. by right.
  - apply Hpend.
  - intros co x Hx. apply elem_of_app in Hx as [Hx|Hx]; [by apply Hheld|].
    apply list_elem_of_singleton in Hx as [= -> ->].
    destruct (Hpend co0) as [c Hc]; [rewrite Hp; left|]. exists c. by left.
  - apply Hheld.
  - intros co ph E. rewrite <- (app_nil_r (executed s)).
    apply (phase_ok_keeps (the_world s)); [by apply Hph|apply not_elem_of_nil|..]; simpl.
    + rewrite Hp, Hp', Hh', fmap_app, elem_of_app, elem_of_cons. simpl. rewrite list_elem_of_singleton. tauto.
    + intros x Hx. split; [|done]. rewrite Hh'. apply elem_of_app. by left.
  - intros co ph E. rewrite <- (app_nil_r (executed s)).
    apply (phase_ok_keeps (the_world s)); [by apply Hph|apply not_elem_of_nil|..]; simpl; by rewrite ?Hp', ?Hh'.
Qed.

(** One coroutine moves: the others keep their connections, and the commands in
    progress on them. *)
Lemma moves_inv s co ph ph' x p g (ext : log) :
  inv s → coroutines s !! co = Some ph → (co, x) ∈ held (db_pool (the_world s)) →
  others_same x (db_pg (the_world s)) g →
  pool_inv conns p → pending p = pending (db_pool (the_world s)) →
  (∀ co' x', co' ≠ co → (co', x') ∈ held p ↔ (co', x') ∈ held (db_pool (the_world s))) →
  (∀ x', (co, x') ∈ held p → ∃ c, ph' = Awaiting c x') →
  phase_call ph' = phase_call ph →
  Forall (λ e, e.1 = (co, phase_call ph) ∧ call_ok e.1.2) ext → NoDup (runs (executed s ++ ext)) →
  users_rows g = replay rows0 (executed s ++ ext) →
  phase_ok (mkDbWorld p g) (executed s ++ ext) co ph' →
  inv (mkState (mkDbWorld p g) (<[co := ph']> (coroutines s)) (executed s ++ ext)).
Proof.
  intros [Hpool Hpend Hheld Hph Hnd Hentry Hok Hrows] Hco Hx Hothers Hp Epend Hkeep Hown Hcall Hext Hnd' Hrows' Hph'.
  assert (co < length (coroutines s))%nat as Hlt by by eapply lookup_lt_Some.
  assert (∀ co', co' ∈ runs ext → co' = co) as Hruns.
  { intros co' (e & -> & He)%list_elem_of_fmap. rewrite Forall_forall in Hext. by destruct (Hext e He) as [-> _]. }
  split; cbn [the_world coroutines executed db_pool db_pg]; [done| | | |done| | |done].
  - intros co' Hin. rewrite Epend in Hin. rewrite list_lookup_insert_ne; [by apply Hpend|]. intros <-.
    pose proof (inv_coroutines _ _ Hpool) as (_ & Hd & _)%NoDup_app. apply (Hd co Hin). by eapply fst_held.
  - intros co' x' Hin. destruct (decide (co' = co)) as [->|Hne].
    + destruct (Hown _ Hin) as [c ->]. exists c. right. by apply list_lookup_insert_eq.
    + rewrite list_lookup_insert_ne by done. apply Hheld. by apply Hkeep.
  - intros co' ph0 E. destruct (decide (co' = co)) as [->|Hne].
    { rewrite list_lookup_insert_eq in E by done. by injection E as <-. }
    rewrite list_lookup_insert_ne in E by done. apply (phase_ok_keeps (the_world s)); [by apply Hph|by intros ?%Hruns|..]; simpl.
    + rewrite Epend. intros [?|([co2 x'] & -> & Hx')%list_elem_of_fmap]; [by left|right].
      apply (fst_held _ _ x'). by apply Hkeep.
    + intros x' Hx'. split; [by apply Hkeep|]. apply Hothers. by apply (held_distinct _ co co' x x' Hpool).
  - assert (phase_call <$> <[co := ph']> (coroutines s) !! co = Some (phase_call ph)) as Hnew
      by by rewrite list_lookup_insert_eq, <- Hcall.
    intros e He. apply elem_of_app in He as [He|He].
    + destruct (decide (e.1.1 = co)) as [E|Hne]; [|rewrite list_lookup_insert_ne by done; by apply Hentry].
      pose proof (Hentry e He) as Hold. rewrite E, Hco in Hold. rewrite E, Hnew. exact Hold.
    + rewrite Forall_forall in Hext. by destruct (Hext e He) as [-> _].
  - apply Forall_app. split; [done|]. eapply Forall_impl; [done|]. by intros e [_ ?].
Qed.

Lemma released_pool_inv p co x : pool_inv conns p → (co, x) ∈ held p → pool_inv conns (released co x p).
Proof. intros Hp Hx. eapply work_inv; [done|]. by eapply ReleaseM_work. Qed.

Lemma coroutine_goes_inv s co ph ph' x p g l :
  inv s → coroutines s !! co = Some ph → (co, x) ∈ held (db_pool (the_world s)) →
  others_same x (db_pg (the_world s)) g → goes s co x ph ph' p g l →
  inv (mkState (mkDbWorld p g) (<[co := ph']> (coroutines s)) l).
Proof.
  intros Hinv Hco Hx Ho Hgoes. pose proof (i_pool _ Hinv) as Hpool. pose proof (i_phase _ Hinv _ _ Hco) as Hph.
  assert (∀ co' x', co' ≠ co → (co', x') ∈ held (released co x (db_pool (the_world s)))
                     ↔ (co', x') ∈ held (db_pool (the_world s))) as Hrel by (intros; rewrite elem_released; tauto).
  assert (∀ x', (co, x') ∈ held (released co x (db_pool (the_world s))) → ∃ c, ph' = Awaiting c x') as Hgone
    by (intros x'; rewrite elem_released; tauto).
  pose proof (released_pool_inv _ _ _ Hpool Hx) as Hpool'.
  pose proof (pending_release (db_pool (the_world s)) x (held (released co x (db_pool (the_world s))))) as Hpend.
  change (mkSystem _ _) with (released co x (db_pool (the_world s))) in Hpend.
  pose proof (i_runs _ Hinv) as Hnd. pose proof (i_rows _ Hinv) as Hrows.
  destruct Hgoes as [c g res Hg Hidle Hres Hsh|c g msg Hg Hres|c g Hg Hres Hlt|c g o Hg Ho'].
  - destruct Hph as (Hc & _ & Hnew). apply (moves_inv s co (Asking c) _ x); try done.
    + intros x' Hx'. exists c. by rewrite (held_functional _ co x x' Hpool Hx Hx').
    + apply Forall_singleton. by split.
    + rewrite runs_app. apply NoDup_app. split; [done|]. split; [|apply NoDup_singleton].
      intros co' Hin Heq. apply list_elem_of_singleton in Heq. by subst.
    + by rewrite replay_snoc, <- Hrows.
    + split; [done|]. by exists (executed s), (users_now (db_pg (the_world s))), [], res; rewrite <- Hrows.
  - rewrite <- (app_nil_r (executed s)). eapply (moves_inv _ _ _ _ x); rewrite ?app_nil_r; try done; [congruence|]. left. by eexists.
  - destruct Hph as (_ & l1 & now & l2 & res & El & Hr & Hsh).
    rewrite <- (app_nil_r (executed s)). eapply (moves_inv _ _ _ _ x); rewrite ?app_nil_r; try done.
    + intros x' Hx'. exists c. by rewrite (held_functional _ co x x' Hpool Hx Hx').
    + congruence.
    + split; [done|]. exists l1, now, l2, res. split; [done|]. split; [simpl; congruence|done].
  - rewrite <- (app_nil_r (executed s)). eapply (moves_inv _ _ _ _ x); rewrite ?app_nil_r; try done. congruence.
Qed.

Lemma effect_inv s s' : inv s → effect s s' → inv s'.
Proof.
  intros Hinv [c Hc|Hne|co x ph ph' p g l Hco Hx Ho Hg]; [by apply called_inv|by apply strand_inv|by eapply coroutine_goes_inv].
Qed.

Definition step s s' : Prop := ∃ h, happen users_now h s = Some s'.

Lemma step_effect s s' : inv s → step s s' → effect s s'.
Proof. intros Hinv [h Hh]. by eapply happen_effect. Qed.

Lemma steps_inv s s' : inv s → rtc step s s' → inv s'.
Proof.
  intros Hinv Hrun. eapply (rtc_invariant step inv); [|done|done].
  intros s1 s2 ? ?. by eapply effect_inv; [|eapply step_effect].
Qed.

(** Nobody has called yet. *)
Definition starts s : Prop :=
  ConnectionPool.initial conns (db_pool (the_world s)) ∧ coroutines s = [] ∧ executed s = []
  ∧ users_rows (db_pg (the_world s)) = rows0.

Lemma starts_inv s : starts s → inv s.
Proof.
  intros (Hpool & Hcs & Hlog & Hrows). pose proof (initial_inv _ _ Hpool) as Hinv.
  destruct Hpool as (_ & Hstrand & Hheld & Hch).
  split; rewrite ?Hcs, ?Hlog; [done|..|done].
  - intros co. unfold pending. rewrite Hstrand, Hch. destruct (channel_make_law (A:=PQConnection) 0) as (-> & _).
    by intros ?%not_elem_of_nil.
  - intros co x. rewrite Hheld. by intros ?%not_elem_of_nil.
  - done.
  - constructor.
  - by intros e ?%not_elem_of_nil.
  - constructor.
Qed.

(** ** The log grows, and answers stay *)

Definition answered s co : Prop := ∃ c o, coroutines s !! co = Some (Answered c o).

(** What is logged after [s] is of coroutines that had no answer in [s]. *)
Definition extends s s' : Prop :=
  (∀ co, answered s co → coroutines s' !! co = coroutines s !! co)
  ∧ ∃ later, executed s' = (executed s ++ later)%list ∧ ∀ co, co ∈ runs later → ¬ answered s co.

Lemma extends_nothing s s' :
  (∀ co, answered s co → coroutines s' !! co = coroutines s !! co) → executed s' = executed s → extends s s'.
Proof. intros Hc Hl. split; [done|]. exists []. rewrite app_nil_r. split; [done|]. by intros co ?%not_elem_of_nil. Qed.

Lemma effect_extends s s' : effect s s' → extends s s'.
Proof.
  intros [c Hc|Hne|co x ph ph' p g l Hco Hx Ho Hg].
  - apply extends_nothing; [|done]. intros co (c' & o & E). simpl. rewrite E. by apply lookup_app_l_Some.
  - by apply extends_nothing.
  - assert (∀ co', answered s co' → <[co:=ph']> (coroutines s) !! co' = coroutines s !! co') as Hstay.
    { intros co' (c' & o & E). destruct (decide (co' = co)) as [->|Hne]; [|by apply list_lookup_insert_ne].
      rewrite Hco in E. injection E as ->. by inversion Hg. }
    destruct Hg; try by apply extends_nothing. split; [done|]. eexists. split; [done|].
    intros co' Hin (c' & o & E). apply list_elem_of_singleton in Hin. simpl in Hin. subst. congruence.
Qed.

Lemma extends_trans s1 s2 s3 : extends s1 s2 → extends s2 s3 → extends s1 s3.
Proof.
  intros (Hs1 & l1 & E1 & Hl1) (Hs2 & l2 & E2 & Hl2).
  assert (∀ co, answered s1 co → answered s2 co) as Hans
    by (intros co Hco; destruct Hco as (c & o & E); exists c, o; rewrite Hs1; [done|by exists c, o]).
  split.
  - intros co Hco. by rewrite Hs2, Hs1 by auto.
  - exists (l1 ++ l2)%list. split; [by rewrite E2, E1, <- (assoc_L (++)%list)|].
    intros co. rewrite runs_app, elem_of_app. intros [?|?]; [by apply Hl1|]. intros ?%Hans. by eapply Hl2.
Qed.

Lemma steps_extend s s' : inv s → rtc step s s' → extends s s'.
Proof.
  intros Hinv Hrun. induction Hrun as [s|s s1 s2 Hstep _ IH]; [by apply extends_nothing|].
  pose proof (step_effect _ _ Hinv Hstep) as He. eapply extends_trans; [by apply effect_extends|].
  apply IH. by eapply effect_inv.
Qed.

(** ** Work left *)

(** What happens without a new call. *)
Definition progress s s' : Prop := ∃ h, is_call h = false ∧ happen users_now h s = Some s'.

Definition asks (ph : phase) : nat := match ph with Asking _ => 1 | _ => 0 end.
Definition rounds g (ph : phase) : nat := match ph with Awaiting _ x => S (pq_rounds (conn_ x) g) | _ => 0 end.

(** A statement not sent weighs more than any number of rounds. *)
Definition to_send s : nat := sum_list_with asks (coroutines s).
Definition to_do s : nat :=
  sum_list_with (rounds (db_pg (the_world s))) (coroutines s) + weight (db_pool (the_world s)).

Lemma progress_step s s' : progress s s' → step s s'.
Proof. intros (h & _ & E). by exists h. Qed.

Lemma released_weight p co x : pool_inv conns p → (co, x) ∈ held p → (weight (released co x p) < weight p)%nat.
Proof. intros Hp Hx. eapply work_weight; [done|]. by eapply ReleaseM_work. Qed.

(** The rounds left when one coroutine moves. *)
Lemma rounds_moved s co x ph ph' g :
  inv s → coroutines s !! co = Some ph → (co, x) ∈ held (db_pool (the_world s)) →
  others_same x (db_pg (the_world s)) g →
  (sum_list_with (rounds g) (<[co := ph']> (coroutines s)) + rounds (db_pg (the_world s)) ph
   = sum_list_with (rounds (db_pg (the_world s))) (coroutines s) + rounds g ph')%nat.
Proof.
  intros Hinv Hco Hx Ho. apply sum_list_with_insert; [|done]. intros co' [c|c x'|c o] Hne E; [done| |done]. simpl.
  destruct (i_phase _ Hinv _ _ E) as [Hx' _].
  by destruct (Ho (conn_ x') (held_distinct _ _ _ _ _ (i_pool _ Hinv) Hx Hx' (not_eq_sym Hne))) as [_ ->].
Qed.

Lemma progress_effect h s s' : inv s → is_call h = false → happen users_now h s = Some s' →
  (to_send s' < to_send s)%nat ∨ to_send s' = to_send s ∧ (to_do s' < to_do s)%nat.
Proof.
  intros Hinv Hh Hhap. pose proof (i_pool _ Hinv) as Hpool.
  destruct h as [c| |co]; [done| |]; simpl in Hhap.
  - destruct (strand_ _) eqn:E; [done|]. injection Hhap as <-. right. split; [done|].
    unfold to_do. simpl. apply Nat.add_lt_mono_l. eapply work_weight; [done|]. apply work_strand. by rewrite E.
  - destruct (resume_held _ _ _ Hinv Hhap) as [x Hx].
    destruct (resume_effect s co x Hinv Hx) as (ph & ph' & p & g & l & Hco & E & Ho & Hg).
    rewrite E in Hhap. injection Hhap as <-.
    pose proof (rounds_moved s co x ph ph' g Hinv Hco Hx Ho) as Hr.
    pose proof (sum_list_with_insert asks asks (coroutines s) co ph ph' (λ _ _ _ _, eq_refl) Hco) as Ha.
    pose proof (released_weight _ _ _ Hpool Hx) as Hw.
    unfold to_send, to_do. cbn [the_world coroutines db_pg db_pool].
    destruct Hg; cbn [asks rounds] in *; [left|left|right|right]; lia.
Qed.

Lemma progress_wf s : inv s → Acc (flip progress) s.
Proof.
  remember (to_send s) as a eqn:Ea. remember (to_do s) as b eqn:Eb. revert b s Ea Eb.
  induction a as [a IHa] using lt_wf_ind. intros b. induction b as [b IHb] using lt_wf_ind.
  intros s -> -> Hinv. constructor. intros s' (h & Hh & Hhap).
  assert (inv s') as Hinv' by (eapply effect_inv; [done|by eapply happen_effect]).
  destruct (progress_effect h s s' Hinv Hh Hhap) as [Hlt|[Heq Hlt]]; [by eapply IHa|by eapply IHb].
Qed.

(** Nothing is left to happen only when everyone is answered. *)
Lemma stuck_settled s :
  conns ≠ [] → inv s → (∀ s', ¬ progress s s') →
  (∀ co, (co < length (coroutines s))%nat → answered s co)
  ∧ held (db_pool (the_world s)) = [] ∧ pending (db_pool (the_world s)) = []
  ∧ pool_ (the_pool (db_pool (the_world s))) ≡ₚ conns.
Proof.
  intros Hsome Hinv Hstuck.
  assert (strand_ (the_pool (db_pool (the_world s))) = []) as Hstrand.
  { destruct (strand_ _) eqn:E; [done|]. exfalso. eapply Hstuck. exists StrandRuns. split; [done|]. simpl. by rewrite E. }
  assert (held (db_pool (the_world s)) = []) as Hheld.
  { destruct (held _) as [|[co x] l] eqn:E; [done|]. exfalso.
    assert ((co, x) ∈ held (db_pool (the_world s))) as Hx by (rewrite E; left).
    destruct (resume_effect s co x Hinv Hx) as (ph & ph' & p & g & l' & _ & Er & _).
    eapply Hstuck. exists (Resumes co). split; [done|exact Er]. }
  destruct (no_work_settled conns (db_pool (the_world s)) Hsome (i_pool _ Hinv)) as (Hpend & _ & Hidle).
  { intros s' Hw. inversion Hw as [? Hne|? co x l1 l2 Hh]; subst; [done|]. rewrite Hheld in Hh. by destruct l1. }
  split; [|done]. intros co Hlt. apply lookup_lt_is_Some in Hlt as [[c|c x|c o] E]; [exfalso|exfalso|by exists c, o].
  - destruct (i_phase _ Hinv _ _ E) as (_ & [Hin|Hin] & _); rewrite ?Hpend, ?Hheld in Hin; by apply elem_of_nil in Hin.
  - destruct (i_phase _ Hinv _ _ E) as (Hin & _). rewrite Hheld in Hin. by apply elem_of_nil in Hin.
Qed.

(** ** A pool of connections with a command that was never drained *)

(** Every connection refuses the next command, and nobody is reading. *)
Definition dead s : Prop :=
  (∀ x, x ∈ conns → is_Some (pq_results (conn_ x) (db_pg (the_world s))))
  ∧ ∀ co c x, coroutines s !! co ≠ Some (Awaiting c x).

Definition send_refused (o : outcome dao_answer) : Prop :=
  ∃ msg, o = Throw (Exn runtime_error ("Failed to send query: " +:+ msg)).

Lemma held_in_conns p co x : pool_inv conns p → (co, x) ∈ held p → x ∈ conns.
Proof.
  intros [Hcons _ _ _ _] Hx. rewrite <- Hcons. apply elem_of_app. right. apply list_elem_of_fmap. by exists (co, x).
Qed.

Lemma conns_cases x y : x ∈ conns → y ∈ conns → y = x ∨ conn_ y ≠ conn_ x.
Proof.
  intros [i Hi]%list_elem_of_lookup [j Hj]%list_elem_of_lookup.
  destruct (decide (j = i)) as [->|Hne]; [left; congruence|right]. intros E. apply Hne.
  apply (NoDup_lookup _ _ _ (conn_ x) Hdistinct); rewrite list_lookup_fmap, ?Hi, ?Hj; simpl; congruence.
Qed.

Lemma dead_effect s s' :
  inv s → dead s → effect s s' →
  dead s' ∧ executed s' = executed s ∧ users_rows (db_pg (the_world s')) = users_rows (db_pg (the_world s))
  ∧ ∀ co c o, coroutines s' !! co = Some (Answered c o) →
      coroutines s !! co = Some (Answered c o) ∨ send_refused o.
Proof.
  intros Hinv [Hdead Hnone] [c Hc|Hne|co x ph ph' p g l Hco Hx Ho Hg].
  - split; [split; [done|]|split; [done|split; [done|]]].
    + intros co c' x E. apply lookup_app_Some in E as [E|[_ E]]; [by eapply Hnone|].
      by apply list_lookup_singleton_Some in E as [_ ?].
    + intros co c' o E. apply lookup_app_Some in E as [E|[_ E]]; [by left|].
      by apply list_lookup_singleton_Some in E as [_ ?].
  - split; [by split|split; [done|split; [done|]]]. by left.
  - pose proof (held_in_conns _ _ _ (i_pool _ Hinv) Hx) as Hxc. pose proof (Hdead x Hxc) as [rs Hrs].
    destruct Hg as [c g res _ Hidle _ _|c g msg Hg Hres|c g _ _ _|c g o _ _];
      [congruence| |by destruct (Hnone _ _ _ Hco)|by destruct (Hnone _ _ _ Hco)].
    split; [split|split; [done|split; [done|]]]; simpl.
    + intros y Hy. destruct (conns_cases x y Hxc Hy) as [->|Hne].
      * rewrite Hres, Hrs. by eexists.
      * destruct (Ho _ Hne) as [-> _]. by apply Hdead.
    + intros co' c' x' E. destruct (decide (co' = co)) as [->|Hne].
      * by rewrite list_lookup_insert_eq in E by by eapply lookup_lt_Some.
      * rewrite list_lookup_insert_ne in E by done. by eapply Hnone.
    + intros co' c' o E. destruct (decide (co' = co)) as [->|Hne].
      * rewrite list_lookup_insert_eq in E by by eapply lookup_lt_Some. injection E as <- <-. right. by eexists.
      * rewrite list_lookup_insert_ne in E by done. by left.
Qed.

Lemma dead_steps s s' :
  inv s → dead s → rtc step s s' →
  dead s' ∧ executed s' = executed s ∧ users_rows (db_pg (the_world s')) = users_rows (db_pg (the_world s))
  ∧ ∀ co c o, coroutines s' !! co = Some (Answered c o) →
      coroutines s !! co = Some (Answered c o) ∨ send_refused o.
Proof.
  intros Hinv Hdead Hrun. induction Hrun as [s|s s1 s2 Hstep _ IH]; [by auto|].
  pose proof (step_effect _ _ Hinv Hstep) as He.
  destruct (dead_effect _ _ Hinv Hdead He) as (Hd1 & El & Er & Ha).
  destruct (IH (effect_inv _ _ Hinv He) Hd1) as (Hd2 & El2 & Er2 & Ha2).
  split; [done|]. split; [congruence|]. split; [congruence|].
  intros co c o E. destruct (Ha2 _ _ _ E); auto.
Qed.
End steps.

(** ** A coroutine that runs alone *)

(** The methods of UserDao, as in UserDao.v, under one type. *)
Definition dao_method `{LibPQ} `{ChannelOps PQConnection} (fuel co : nat) (c : dao_call) : M db_world dao_answer :=
  match c with
  | CallCreateUser user => let* r := CreateUser fuel co user in retM (Created r)
  | CallGetUserById id => let* r := GetUserById fuel co id in retM (Found r)
  | CallGetUserByPhoneNumber phone_number => let* r := GetUserByPhoneNumber fuel co phone_number in retM (Found r)
  end.

Section alone.
Context `{UsersServer} `{!PgTypesLaws} `{!ChannelOps PQConnection} `{!ChannelLaws PQConnection} `{!LibPQFrame}.
Implicit Types (s : state) (x : PQConnection) (c : dao_call) (w : db_world).

Lemma dao_method_eq fuel co c w :
  dao_method fuel co c w
  = with_connection co (λ conn, let* r := exec_on fuel conn (call_sql c) (call_params c) in call_result c r) w.
Proof.
  destruct c; unfold dao_method, CreateUser, GetUserById, GetUserByPhoneNumber, with_connection;
    rewrite bindM_assoc; apply bindM_ext; intros x w1; rewrite finallyM_bind;
    apply finallyM_ext; by rewrite bindM_assoc.
Qed.

Lemma play_app users_now hs1 hs2 s :
  play users_now (hs1 ++ hs2) s = (s' ← play users_now hs1 s; play users_now hs2 s').
Proof.
  revert s. induction hs1 as [|h hs1 IH]; intros s; [done|]. simpl. destruct (happen users_now h s); simpl; auto.
Qed.

Lemma play_strand n s :
  (n ≤ length (strand_ (the_pool (db_pool (the_world s)))))%nat →
  play users_now (replicate n StrandRuns) s = Some (with_system (run_strand_n n (db_pool (the_world s))) s).
Proof.
  revert s. induction n as [|n IH]; intros s Hn; simpl; [by destruct s as [[] ??]|].
  pose proof (run_strand_tasks (db_pool (the_world s))) as Hts.
  destruct (strand_ (the_pool (db_pool (the_world s)))) as [|t q] eqn:E; [simpl in Hn; lia|]. simpl in *.
  rewrite IH; [done|]. simpl. rewrite Hts. lia.
Qed.

Lemma Segment_mono x : fuel_mono (λ n, Segment n x).
Proof.
  unfold Segment. apply fuel_mono_bind; [apply fuel_mono_const|intros _].
  apply fuel_mono_bind; [apply fuel_mono_const|intros r]. destruct (r =? 0); [apply fuel_mono_const|].
  apply fuel_mono_bind; [apply fuel_mono_const|intros busy]. destruct (negb _); [apply fuel_mono_const|].
  apply fuel_mono_bind; [apply FetchRawResult_loop_mono|intros a]. apply fuel_mono_const.
Qed.

(** A round that ends with some fuel ends with [fetch_fuel]. *)
Lemma Segment_fuel fuel x g res o g' :
  pq_results (conn_ x) g = Some [res] → Segment fuel x g = (o, g') → o ≠ Pending →
  Segment fetch_fuel x g = (o, g') ∧ (o = Ret None → pq_results (conn_ x) g' = Some [res]).
Proof.
  intros Hres E Ho. destruct (Segment_users x g res Hres) as (o2 & g2 & E2 & _ & _ & Ho2).
  assert (Segment fetch_fuel x g = (o, g')) as E'.
  { destruct (Nat.le_ge_cases fuel fetch_fuel); [by eapply (Segment_mono x fuel)|].
    rewrite <- E, E2. symmetry. apply (Segment_mono x fetch_fuel); [done|done|].
    by destruct Ho2 as [[-> _]|[->|[msg ->]]]. }
  split; [done|]. rewrite E2 in E'. injection E' as -> ->. intros ->. by destruct Ho2 as [(_ & ? & _)|[?|[? ?]]].
Qed.

(** The rounds of a coroutine that nobody interrupts. *)
Lemma play_segments n fuel x co c res s o w' :
  coroutines s !! co = Some (Awaiting c x) → pq_results (conn_ x) (db_pg (the_world s)) = Some [res] →
  (let* r := zoomM db_pg_lens (Segments n fuel x) in call_result c r) (the_world s) = (o, w') → o ≠ Pending →
  ∃ k, play users_now (replicate k (Resumes co)) s
    = Some (mkState (mkDbWorld (released co x (db_pool w')) (db_pg w'))
              (<[co := Answered c o]> (coroutines s)) (executed s)).
Proof.
  revert s. induction n as [|n IH]; intros s Hco Hres E Ho; [by injection E as <- _|].
  unfold zoomM, bindM in E. cbn [Segments] in E. unfold bindM in E. cbn [lget db_pg_lens] in E.
  destruct (Segment fuel x (db_pg (the_world s))) as [o1 g1] eqn:Es.
  assert (o1 ≠ Pending) as Ho1 by (intros ->; by injection E as <- _).
  destruct (Segment_fuel _ _ _ _ _ _ Hres Es Ho1) as [Es' Hnone]. pose proof (zoomM_eq db_pg_lens _ (the_world s) _ _ Es') as Ez.
  destruct o1 as [[r|]|e|]; [| | |done].
  - exists 1%nat. cbn [play replicate happen]. unfold resume. rewrite Hco, Ez. 
    by rewrite (leave_eq co c x _ (mkState _ (coroutines s) (executed s)) _ _ E Ho).
  - destruct (IH (mkState (lset db_pg_lens g1 (the_world s)) (coroutines s) (executed s)) Hco (Hnone eq_refl)) as [k Hk];
      [|done|].
    + unfold zoomM, bindM. cbn [the_world lget lset db_pg_lens]. exact E.
    + exists (S k). cbn [play replicate happen]. unfold resume. rewrite Hco, Ez. exact Hk.
  - injection E as <- <-. exists 1%nat. cbn [play replicate happen]. unfold resume. rewrite Hco, Ez. by rewrite (leave_eq co c x (throwM _) _ _ _ eq_refl).
Qed.

(** From the moment it owns its connection. *)
Lemma play_body fuel x co c s o w' :
  coroutines s !! co = Some (Asking c) → lookup_held co (held (db_pool (the_world s))) = Some x →
  (let* r := exec_on fuel x (call_sql c) (call_params c) in call_result c r) (the_world s) = (o, w') → o ≠ Pending →
  ∃ k l, play users_now (replicate k (Resumes co)) s
    = Some (mkState (mkDbWorld (released co x (db_pool w')) (db_pg w')) (<[co := Answered c o]> (coroutines s)) l).
Proof.
  intros Hco Hx E Ho. unfold exec_on, zoomM, bindM in E. rewrite AsyncExecParams_segments in E. unfold bindM in E.
  cbn [lget db_pg_lens] in E.
  destruct (SendQuery_users x c (db_pg (the_world s))) as (o1 & g1 & Es & _ & Hcase). rewrite Es in E.
  pose proof (zoomM_eq db_pg_lens _ (the_world s) _ _ Es) as Ez.
  destruct Hcase as [(-> & _ & _ & res & Hres & _)|(msg & -> & _)].
  - set (s1 := mkState (lset db_pg_lens g1 (the_world s)) (<[co := Awaiting c x]> (coroutines s))
                 (executed s ++ [(co, c, users_now (db_pg (the_world s)))])%list).
    destruct (play_segments fuel fuel x co c res s1 o w') as [k Hk]; [|done|exact E|done|].
    { apply list_lookup_insert_eq. by eapply lookup_lt_Some. }
    exists (S k). eexists. cbn [play replicate happen]. unfold resume. rewrite Hco, Hx. cbn [mbind option_bind]. rewrite Ez.
    etrans; [exact Hk|]. cbn [s1 coroutines executed]. by rewrite list_insert_insert_eq.
  - injection E as <- <-. exists 1%nat. eexists. cbn [play replicate happen]. unfold resume. rewrite Hco, Hx.
    cbn [mbind option_bind]. rewrite Ez. by rewrite (leave_eq co c x (throwM _) _ _ _ eq_refl).
Qed.

End alone.

(** ** Properties *)

Section properties.
Context `{UsersServer} `{!PgTypesLaws} `{!ChannelOps PQConnection} `{!ChannelLaws PQConnection} `{!LibPQFrame}.
Implicit Types (s : state) (conns : list PQConnection) (rows : list users_row).



(** C11: a pool all of whose connections were left with an undrained command
    never recovers: whatever happens afterwards, no statement reaches the
    database any more, and each call still made ends with the exception of
    PQsendQueryParams. *)
Theorem dead_pool_stays_dead (conns : list PQConnection) (rows0 : list users_row) (s0 s1 s : state)
    (Hdistinct : NoDup (conn_ <$> conns)) (Htable : table_wf rows0) (Hstart : starts conns rows0 s0)
    (Hrun : rtc step s0 s1) (Hdead : dead conns s1) (Hrun' : rtc step s1 s) :
  dead conns s ∧ executed s = executed s1
  ∧ users_rows (db_pg (the_world s)) = users_rows (db_pg (the_world s1))
  ∧ ∀ co c o, coroutines s !! co = Some (Answered c o) →
      coroutines s1 !! co = Some (Answered c o) ∨ send_refused o.
Proof.
  pose proof (steps_inv conns rows0 Hdistinct Htable s0 s1 (starts_inv _ _ _ Hstart) Hrun) as Hinv.
  by eapply dead_steps.
Qed.

Lemma play_steps hs s s' : play users_now hs s = Some s' → rtc step s s'.
Proof.
  revert s. induction hs as [|h hs IH]; intros s; simpl; [by intros [= ->]|].
  destruct (happen users_now h s) as [s1|] eqn:E; [|done]. intros Hp. eapply rtc_l; [by exists h|by apply IH].
Qed.
End properties.

(** *** Runs on the concrete server *)

#[local] Existing Instance simple_types.

Definition users_start (recv_ok : bool) : @state users_pg _ :=
  @mkState users_pg _
    (@mkDbWorld users_pg _ (mkSystem (mkPool "" 1 [] [users_conn] (mkChan [] [] 0)) [])
      (mkServer [] {[ 0%nat := mkCS 0 0 None ]} 1 true recv_ok)) [] [].

Lemma users_starts b : starts [users_conn] [] (users_start b).
Proof. by split; [|split; [|split]]. Qed.

(** Two coroutines insert the same user and a third looks for it, on one
    connection: they take turns, and the second insert is refused. *)
Definition example_happenings : list happening :=
  [ Calls (CallCreateUser example_new_user); Calls (CallCreateUser example_new_user); StrandRuns; StrandRuns;
    Calls (CallGetUserById example_id); Resumes 0; StrandRuns; Resumes 0; StrandRuns; Resumes 1; Resumes 1;
    StrandRuns; Resumes 2; Resumes 2 ].

Definition played (hs : list happening) (s : @state users_pg _) : @state users_pg _ :=
  default s (@play users_pg _ (λ _, server_now) hs s).

Example example_answers :
  answer_of <$> coroutines (played example_happenings (users_start true))
  = [ Some (Ret (Created (Val ())));
      Some (Ret (Created (Unexpected (sql_failure "duplicate key value violates unique constraint" "23505"))));
      Some (Ret (Found (Val (Some (stored server_now example_new_user))))) ].
Proof. vm_compute. reflexivity. Qed.

Lemma played_reachable hs s :
  @playable users_pg _ (λ _, server_now) hs s = true → rtc (@step users_pg _ _ users_pg_server _) s (played hs s).
Proof.
  unfold played, playable. destruct (play _ hs s) as [s'|] eqn:E; [|done]. intros _. by eapply play_steps.
Qed.

Lemma users_distinct : NoDup (conn_ <$> [users_conn]).
Proof. apply NoDup_singleton. Qed.



Lemma nobody_awaits `{LibPQ} (s : state) :
  forallb (λ ph, match ph with Awaiting _ _ => false | _ => true end) (coroutines s) = true →
  ∀ co c x, coroutines s !! co ≠ Some (Awaiting c x).
Proof.
  intros Hall co c x E. rewrite forallb_forall in Hall.
  specialize (Hall (Awaiting c x)). rewrite <- list_elem_of_In in Hall. apply list_elem_of_lookup_2, Hall in E. discriminate.
Qed.

(** One response is lost; the next call comes after it. *)
Definition lost_response : list happening :=
  [ Calls (CallGetUserById example_id); StrandRuns; Resumes 0; Resumes 0; StrandRuns ].
Definition next_call : list happening :=
  [ Calls (CallCreateUser example_new_user); StrandRuns; Resumes 1; StrandRuns ].

Lemma dead_pool_stays_dead_witness :
  let s1 := played lost_response (users_start false) in let s := played next_call s1 in
  dead [users_conn] s ∧ executed s = executed s1
  ∧ users_rows (db_pg (the_world s)) = users_rows (db_pg (the_world s1))
  ∧ ∀ co c o, coroutines s !! co = Some (Answered c o) →
      coroutines s1 !! co = Some (Answered c o) ∨ send_refused o.
Proof.
  apply (dead_pool_stays_dead [users_conn] [] (users_start false)).
  - exact users_distinct.
  - exact table_wf_nil.
  - exact (users_starts false).
  - apply played_reachable. vm_compute. reflexivity.
  - split.
    + intros x ->%list_elem_of_singleton. apply not_eq_None_Some. by vm_compute.
    + apply nobody_awaits. vm_compute. reflexivity.
  - apply played_reachable. vm_compute. reflexivity.
Defined.

