(* ===== verification/RedisLib.v ===== *)
(** * RedisLib: what the source uses of boost::redis

    The client library and the server behind it are a parameter; [RedisLaws]
    says that the server is a key-value store with expiry times, on a clock
    that never goes back, behind a network that may fail.  [toy_redis] is a
    concrete instance. *)

From stdpp Require Import base tactics option strings numbers gmap list.
From S2P Require Import Prelude Text.

Open Scope string_scope.
Open Scope Z_scope.

(** [boost::redis::resp3::type]; the last constructor is any type the source
    does not name, with its numeric value. *)
Inductive resp3_type :=
| blob_string | simple_string | null | simple_error | blob_error | other_type (v : Z).

#[export] Instance resp3_type_eq_dec : EqDecision resp3_type.
Proof. solve_decision. Defined.

Record node := mkNode { data_type : resp3_type; value : string }.

(** A request is the command and its arguments; a response holds a node or the
    diagnostic of an adapter error. *)
Class RedisLib := {
  redis_world : Type;
  redis_connection : Type;
  make_connection : nat → redis_connection;
  async_run : string * string → redis_connection → redis_world → redis_world;
  async_exec_ignore : redis_connection → list string → M redis_world ();
  async_exec : redis_connection → list string → M redis_world (node + string)
}.

(** ** The store *)

Abbreviation store := (gmap string (string * option Z)).

(** The value of a key at time [t]: gone once its deadline is reached. *)
Definition live (t : Z) (m : store) (k : string) : option string :=
  match m !! k with
  | Some (v, None) => Some v
  | Some (v, Some d) => if bool_decide (t < d) then Some v else None
  | None => None
  end.

Definition reply_of (o : option string) : node :=
  match o with Some v => mkNode blob_string v | None => mkNode null EmptyString end.

(** What a command does to the store at time [t]. *)
Definition apply_command (t : Z) (req : list string) (m : store) : store :=
  match req with
  | [cmd; k; v] => if bool_decide (cmd = "SET") then <[k := (v, None)]> m else m
  | [cmd; k; v; opt; secs] =>
      if bool_decide (cmd = "SET") && bool_decide (opt = "EX") then
        match stoi secs with
        | Ret n => if 0 <? n then <[k := (v, Some (t + n))]> m else m
        | _ => m
        end
      else m
  | _ => m
  end.

(** A failure of the network or of the connection is a std exception. *)
Definition std_failure {A} (o : outcome A) : Prop := ∃ e, o = Throw e ∧ is_std_exception e = true.

Class RedisLaws `{RedisLib} := {
  redis_store : redis_world → store;
  redis_now : redis_world → Z;
  (** SET and SET ... EX: acknowledged, the store has the entry; otherwise it
      may have it or not *)
  async_exec_ignore_law c req w o w' :
    async_exec_ignore c req w = (o, w') →
    redis_now w ≤ redis_now w' ∧ ∃ t, redis_now w ≤ t ≤ redis_now w' ∧
      ((o = Ret () ∧ redis_store w' = apply_command t req (redis_store w))
       ∨ ((std_failure o ∨ o = Pending)
          ∧ (redis_store w' = redis_store w ∨ redis_store w' = apply_command t req (redis_store w))));
  (** GET changes nothing, and answers with the value or null *)
  async_exec_get_law c k w o w' :
    async_exec c ["GET"; k] w = (o, w') →
    redis_store w' = redis_store w ∧ redis_now w ≤ redis_now w' ∧
      ((∃ t, redis_now w ≤ t ≤ redis_now w' ∧ o = Ret (inl (reply_of (live t (redis_store w) k))))
       ∨ (∃ d, o = Ret (inr d)) ∨ std_failure o ∨ o = Pending);
  (** PING and connecting change nothing *)
  async_exec_ping_law c w o w' :
    async_exec c ["PING"] w = (o, w') →
    redis_store w' = redis_store w ∧ redis_now w ≤ redis_now w'
    ∧ ((∃ r, o = Ret r) ∨ std_failure o ∨ o = Pending);
  async_run_law cfg c w :
    redis_store (async_run cfg c w) = redis_store w ∧ redis_now w ≤ redis_now (async_run cfg c w)
}.

(** ** A concrete server *)

Record redis_toy := mkRedisToy { rt_store : store; rt_now : Z; rt_up : bool }.

Definition toy_exec (req : list string) : M redis_toy (node + string) := fun w =>
  if rt_up w then
    (Ret (inl (match req with
               | [cmd; k] => if bool_decide (cmd = "GET") then reply_of (live (rt_now w) (rt_store w) k)
                             else mkNode simple_error "ERR unknown command"
               | [cmd] => if bool_decide (cmd = "PING") then mkNode simple_string "PONG"
                          else mkNode simple_error "ERR unknown command"
               | _ => mkNode simple_string "OK"
               end)),
     mkRedisToy (apply_command (rt_now w) req (rt_store w)) (rt_now w) true)
  else (Throw (Exn library_exception "not connected"), w).

#[export] Instance toy_redis : RedisLib := {|
  redis_world := redis_toy;
  redis_connection := nat;
  make_connection i := i;
  async_run _ _ w := w;
  async_exec_ignore _ req := fun w => let '(o, w') := toy_exec req w in (obind o (fun _ => Ret ()), w');
  async_exec _ := toy_exec
|}.

#[export] Instance toy_redis_laws : RedisLaws.
Proof.
  refine (@Build_RedisLaws _ rt_store rt_now _ _ _ _); simpl.
  - intros c req w o w'. unfold toy_exec. destruct (rt_up w); intros [= <- <-]; simpl.
    + split; [lia|]. exists (rt_now w). split; [lia|]. by left.
    + split; [lia|]. exists (rt_now w). split; [lia|]. right. split; [left; by eexists|by left].
  - intros c k w o w'. unfold toy_exec. destruct (rt_up w); intros [= <- <-]; simpl.
    + split; [done|]. split; [lia|]. left. exists (rt_now w). split; [lia|done].
    + split; [done|]. split; [lia|]. right. right. left. by eexists.
  - intros c w o w'. unfold toy_exec. destruct (rt_up w); intros [= <- <-]; simpl.
    + split; [done|]. split; [lia|]. left. by eexists.
    + split; [done|]. split; [lia|]. right. left. by eexists.
  - intros cfg c w. split; [done|lia].
Defined.
