(* ===== verification/RedisClient.v ===== *)
(** * RedisClient: the cache client

    [RedisClient] (infrastructure/state_storage/redis_dao/redis_client.cc): a
    fixed set of connections used in turn, and commands whose failures become
    values. *)

From stdpp Require Import base tactics option strings numbers gmap list.
From S2P Require Import Prelude Text Model RedisLib.

Open Scope string_scope.
Open Scope Z_scope.
Open Scope photon_scope.

(** ** Configuration and state *)

Record RedisConfig := mkRedisConfig { redis_host : string; redis_port : string; redis_pool_size : Z }.

Section client.
Context `{RedisLib}.

Record RedisClient := mkRedisClient {
  conns_ : list redis_connection;
  cfg_ : string * string;
  request_counter_ : Z    (* an atomic size_t *)
}.

(** The client and what is behind it. *)
Record redis_env := mkRedisEnv { client : RedisClient; server : redis_world }.

Definition redis_client_lens : lens redis_env RedisClient :=
  Lens client (λ c w, mkRedisEnv c (server w)).
Definition redis_server_lens : lens redis_env redis_world :=
  Lens server (λ s w, mkRedisEnv (client w) s).

(** ** Operations *)

(** The constructor. *)
Definition RedisClient_make (config : RedisConfig) : outcome RedisClient :=
  if redis_pool_size config <=? 0
  then Throw (Exn invalid_argument
         ("Invalid Redis pool size: " +:+ to_string (redis_pool_size config) +:+ ". Must be positive."))
  else Ret (mkRedisClient (make_connection <$> seq 0 (Z.to_nat (redis_pool_size config)))
              (redis_host config, redis_port config) 0).

Definition undefined_behaviour : exn := Exn non_std_exception "undefined behaviour".

(** [fetch_add(1) % conns_.size()], then [conns_[idx]]. *)
Definition GetNextConnection : M redis_env redis_connection :=
  let* c := zoomM redis_client_lens getM in
  let idx := request_counter_ c mod Z.of_nat (length (conns_ c)) in
  do* zoomM redis_client_lens
        (putM (mkRedisClient (conns_ c) (cfg_ c) (wrap_u 64 (request_counter_ c + 1)))) in
  match conns_ c !! Z.to_nat idx with
  | Some conn => retM conn
  | None => throwM undefined_behaviour
  end.

Definition SystemFailure {A} (msg : string) : expected A RedisError :=
  Unexpected (mkRedisError SystemError msg).

Definition ExtractResult (result : node + string) (command_name key_context : string)
    : expected (option string) RedisError :=
  match result with
  | inr diagnostic =>
      SystemFailure ("Redis " +:+ command_name +:+ " failed. Error: " +:+ diagnostic
                     +:+ ". Context: " +:+ key_context)
  | inl n =>
      match data_type n with
      | blob_string | simple_string => Val (Some (value n))
      | null => Val None
      | simple_error | blob_error =>
          Unexpected (mkRedisError CommandError
            ("Redis " +:+ command_name +:+ " Command Error: " +:+ value n +:+ ". Context: " +:+ key_context))
      | other_type v =>
          Unexpected (mkRedisError ProtocolError
            ("Redis " +:+ command_name +:+ " Protocol Error: Unexpected type " +:+ to_string v
             +:+ ". Context: " +:+ key_context))
      end
  end.

(** A request whose reply is ignored, on the next connection. *)
Definition Set_exec (req : list string) : M redis_env () :=
  let* conn := GetNextConnection in zoomM redis_server_lens (async_exec_ignore conn req).

Definition Set_ (key val : string) : M redis_env (expected () RedisError) :=
  tryM (do* Set_exec ["SET"; key; val] in retM (Val ()))
    is_std_exception
    (fun e => retM (SystemFailure ("SET exception: " +:+ what e))).

(** The overload with an expiry, in seconds. *)
Definition Set_expiry (key val : string) (expiry : Z) : M redis_env (expected () RedisError) :=
  tryM (let req := if 0 <? expiry then ["SET"; key; val; "EX"; to_string expiry]
                   else ["SET"; key; val] in
        do* Set_exec req in retM (Val ()))
    is_std_exception
    (fun e => retM (SystemFailure ("SET exception: " +:+ what e +:+ " (Key: " +:+ key +:+ ")"))).

Definition Get (key : string) : M redis_env (expected (option string) RedisError) :=
  tryM (let* conn := GetNextConnection in
        let* resp := zoomM redis_server_lens (async_exec conn ["GET"; key]) in
        retM (ExtractResult resp "GET" key))
    is_std_exception
    (fun e => retM (SystemFailure ("GET exception: " +:+ what e +:+ " (Key: " +:+ key +:+ ")"))).

Definition Ping (conn : redis_connection) : M redis_env (expected () RedisError) :=
  tryM (let* resp := zoomM redis_server_lens (async_exec conn ["PING"]) in
        match ExtractResult resp "PING" "Init" with
        | Unexpected e => retM (Unexpected e)
        | Val opt_val =>
            if bool_decide (opt_val = Some "PONG") then retM (Val ())
            else retM (Unexpected (mkRedisError ProtocolError
                   ("Redis PING protocol error. Expected 'PONG', got '"
                    +:+ default "NULL" opt_val +:+ "'")))
        end)
    is_std_exception
    (fun e => retM (SystemFailure ("Redis PING exception: " +:+ what e))).

(** The loop that pings the connections, from number [i] on. *)
Fixpoint Init_pings (i : nat) (conns : list redis_connection) : M redis_env () :=
  match conns with
  | [] => retM ()
  | conn :: rest =>
      let* ping_res := Ping conn in
      match ping_res with
      | Unexpected e =>
          throwM (Exn runtime_error ("Redis Pool Init failed at connection ["
                    +:+ to_string (Z.of_nat i) +:+ "]: " +:+ redis_message e))
      | Val _ => Init_pings (S i) rest
      end
  end.

Definition Init : M redis_env () :=
  let* c := zoomM redis_client_lens getM in
  do* zoomM redis_server_lens
        (modifyM (fun w => foldl (fun w conn => async_run (cfg_ c) conn w) w (conns_ c))) in
  Init_pings 0 (conns_ c).

(** ** Well-formed clients: what the constructor makes and every call keeps *)

Definition client_wf (c : RedisClient) : Prop :=
  conns_ c ≠ [] ∧ 0 ≤ request_counter_ c < 2 ^ 64.

Lemma RedisClient_make_wf config c : RedisClient_make config = Ret c → client_wf c.
Proof.
  unfold RedisClient_make. destruct (Z.leb_spec (redis_pool_size config) 0); [done|].
  intros [= <-]. split; simpl; [|lia].
  destruct (Z.to_nat (redis_pool_size config)) eqn:E; [lia|done].
Qed.

(** The connection of request number [k]. *)
Definition pick (c : RedisClient) (k : Z) : option redis_connection :=
  conns_ c !! Z.to_nat (k mod Z.of_nat (length (conns_ c))).

Definition advance (c : RedisClient) : RedisClient :=
  mkRedisClient (conns_ c) (cfg_ c) (wrap_u 64 (request_counter_ c + 1)).

Lemma advance_wf c : client_wf c → client_wf (advance c).
Proof. intros [? ?]. split; [done|]. simpl. apply wrap_u_range. lia. Qed.

Lemma GetNextConnection_spec w :
  client_wf (client w) →
  ∃ conn, pick (client w) (request_counter_ (client w)) = Some conn ∧ conn ∈ conns_ (client w)
    ∧ GetNextConnection w = (Ret conn, mkRedisEnv (advance (client w)) (server w)).
Proof.
  intros [Hne Hc].
  assert (0 < Z.of_nat (length (conns_ (client w)))) as Hl by (destruct (conns_ (client w)); [done|simpl; lia]).
  pose proof (Z.mod_pos_bound (request_counter_ (client w)) _ Hl) as Hb.
  destruct (lookup_lt_is_Some_2 (conns_ (client w))
    (Z.to_nat (request_counter_ (client w) mod Z.of_nat (length (conns_ (client w)))))) as [conn Hconn]; [lia|].
  exists conn. unfold pick. split; [done|]. split; [by eapply list_elem_of_lookup_2|].
  unfold GetNextConnection. unfold bindM at 1. simpl. destruct w as [c s]. simpl in *.
  unfold bindM. simpl. by rewrite Hconn.
Qed.
End client.

(** ** Lemmas *)

Section lemmas.
Context `{RedisLaws}.
Implicit Types w : redis_env.

Definition env_store w : store := redis_store (server w).
Definition env_now w : Z := redis_now (server w).

(** A command ran between the times of [w] and [w']. *)
Definition during w w' (t : Z) : Prop := env_now w ≤ t ≤ env_now w'.

Lemma Set_exec_spec req w o w' :
  client_wf (client w) → Set_exec req w = (o, w') →
  client_wf (client w') ∧ env_now w ≤ env_now w' ∧ ∃ t, during w w' t ∧
    ((o = Ret () ∧ env_store w' = apply_command t req (env_store w))
     ∨ ((std_failure o ∨ o = Pending)
        ∧ (env_store w' = env_store w ∨ env_store w' = apply_command t req (env_store w)))).
Proof.
  intros Hwf. unfold Set_exec. destruct (GetNextConnection_spec w Hwf) as (conn & _ & _ & E).
  rewrite (bindM_ret _ _ _ _ _ E). unfold zoomM. simpl.
  destruct (async_exec_ignore conn req (server w)) as [o' s'] eqn:Ex. intros [= <- <-].
  destruct (async_exec_ignore_law _ _ _ _ _ Ex) as (Hnow & t & Ht & Ho).
  split; [by apply advance_wf|]. split; [done|]. by exists t.
Qed.

(** What a SET of either kind reports: done, or an error value, never an
    exception of the library. *)
Lemma Set_try_spec req (h : exn → expected () RedisError) w o w' :
  (∀ e, has_value (h e) = false) → client_wf (client w) →
  tryM (do* Set_exec req in retM (Val ())) is_std_exception (fun e => retM (h e)) w = (o, w') →
  client_wf (client w') ∧ env_now w ≤ env_now w' ∧ ∃ t, during w w' t ∧
    ((o = Ret (Val ()) ∧ env_store w' = apply_command t req (env_store w))
     ∨ (((∃ err, o = Ret (Unexpected err)) ∨ o = Pending)
        ∧ (env_store w' = env_store w ∨ env_store w' = apply_command t req (env_store w)))).
Proof.
  intros Hh Hwf E. unfold tryM, bindM in E. destruct (Set_exec req w) as [o1 w1] eqn:E1.
  destruct (Set_exec_spec _ _ _ _ Hwf E1) as (Hwf1 & Hnow & t & Ht & Ho).
  destruct Ho as [[-> Hs]|[[(e & -> & He)| ->] Hs]].
  - injection E as <- <-. split; [done|]. split; [done|]. exists t. auto.
  - rewrite He in E. injection E as <- <-. split; [done|]. split; [done|]. exists t. split; [done|].
    right. split; [|done]. left. specialize (Hh e). destruct (h e) as [|err]; [done|]. by exists err.
  - injection E as <- <-. split; [done|]. split; [done|]. exists t. auto.
Qed.

Lemma apply_set_expiry t k v n m :
  0 < n → in_s 32 n → apply_command t ["SET"; k; v; "EX"; to_string n] m = <[k := (v, Some (t + n))]> m.
Proof.
  intros Hn Hr. unfold apply_command. rewrite !bool_decide_eq_true_2 by done. simpl.
  rewrite stoi_to_string by done. by rewrite (proj2 (Z.ltb_lt 0 n) Hn).
Qed.

Lemma Set_expiry_spec k v n w o w' :
  0 < n → in_s 32 n → client_wf (client w) → Set_expiry k v n w = (o, w') →
  client_wf (client w') ∧ env_now w ≤ env_now w' ∧ ∃ t, during w w' t ∧
    ((o = Ret (Val ()) ∧ env_store w' = <[k := (v, Some (t + n))]> (env_store w))
     ∨ (((∃ err, o = Ret (Unexpected err)) ∨ o = Pending)
        ∧ (env_store w' = env_store w ∨ env_store w' = <[k := (v, Some (t + n))]> (env_store w)))).
Proof.
  intros Hn Hr Hwf E. unfold Set_expiry in E. rewrite (proj2 (Z.ltb_lt 0 n) Hn) in E. cbv zeta in E.
  eapply (Set_try_spec _ (λ e, SystemFailure ("SET exception: " +:+ what e +:+ " (Key: " +:+ k +:+ ")")))
    in E as (? & ? & t & Ht & Ho); [|done..].
  rewrite apply_set_expiry in Ho by done. eauto.
Qed.

(** What a GET reports: the live value, or an error value. *)
Lemma Get_outcome k w o w' :
  client_wf (client w) → Get k w = (o, w') →
  client_wf (client w') ∧ env_store w' = env_store w ∧ env_now w ≤ env_now w' ∧
    ((∃ t, during w w' t ∧ o = Ret (Val (live t (env_store w) k)))
     ∨ (∃ err, o = Ret (Unexpected err)) ∨ o = Pending).
Proof.
  intros Hwf. unfold Get, tryM. destruct (GetNextConnection_spec w Hwf) as (conn & _ & _ & E).
  rewrite (bindM_ret _ _ _ _ _ E). unfold bindM, zoomM. simpl.
  destruct (async_exec conn ["GET"; k] (server w)) as [o' s'] eqn:Ex.
  destruct (async_exec_get_law _ _ _ _ _ Ex) as (Hs & Hnow & Ho).
  assert (client_wf (advance (client w))) as Hwf' by by apply advance_wf.
  destruct Ho as [(t & Ht & ->)|[(d & ->)|[(e & -> & He)| ->]]]; rewrite ?He; intros [= <- <-];
    (split; [done|]; split; [done|]; split; [done|]).
  - left. exists t. split; [done|]. unfold env_store. by destruct (live t (redis_store (server w)) k).
  - right. left. by eexists.
  - right. left. by eexists.
  - by right; right.
Qed.

(** Ping leaves the store alone, and reports rather than throws. *)
Lemma Ping_outcome conn w o w' :
  Ping conn w = (o, w') →
  env_store w' = env_store w ∧ client w' = client w ∧ ((∃ r, o = Ret r) ∨ o = Pending).
Proof.
  unfold Ping, tryM, bindM, zoomM. simpl.
  destruct (async_exec conn ["PING"] (server w)) as [o' s'] eqn:Ex.
  destruct (async_exec_ping_law _ _ _ _ Ex) as (Hs & _ & Ho).
  destruct Ho as [(r & ->)|[(e & -> & He)| ->]]; rewrite ?He.
  - destruct (ExtractResult r "PING" "Init"); [case_bool_decide|]; intros [= <- <-]; eauto 10.
  - intros [= <- <-]. eauto 10.
  - intros [= <- <-]. eauto.
Qed.

Lemma Init_pings_outcome i conns w o w' :
  Init_pings i conns w = (o, w') →
  env_store w' = env_store w ∧ client w' = client w
  ∧ (o = Ret () ∨ o = Pending
     ∨ ∃ j msg, (i ≤ j < i + length conns)%nat ∧
         o = Throw (Exn runtime_error ("Redis Pool Init failed at connection ["
                      +:+ to_string (Z.of_nat j) +:+ "]: " +:+ msg))).
Proof.
  revert i w. induction conns as [|conn conns IH]; intros i w; simpl.
  { intros [= <- <-]. auto. }
  unfold bindM. destruct (Ping conn w) as [o1 w1] eqn:E1.
  destruct (Ping_outcome _ _ _ _ E1) as (Hs & Hc & [[[[]|e] ->]| ->]).
  - intros E. destruct (IH _ _ E) as (Hs' & Hc' & Ho). rewrite Hs', Hc'. split; [done|]. split; [done|].
    destruct Ho as [?|[?|(j & msg & Hj & ?)]]; [by auto..|]. right. right. exists j, msg. split; [lia|done].
  - intros [= <- <-]. split; [done|]. split; [done|]. right. right. exists i. eexists. split; [lia|done].
  - intros [= <- <-]. auto.
Qed.
End lemmas.

(** ** Properties *)

Section properties.
Context `{RedisLaws}.
Implicit Types w : redis_env.

(** [n] calls of GetNextConnection, one after the other. *)
Fixpoint take_connections (n : nat) : M redis_env (list redis_connection) :=
  match n with
  | O => retM []
  | S n' => let* c := GetNextConnection in let* cs := take_connections n' in retM (c :: cs)
  end.

Lemma take_connections_eq n w :
  client_wf (client w) → request_counter_ (client w) + Z.of_nat n ≤ 2 ^ 64 →
  ∃ cs w', take_connections n w = (Ret cs, w') ∧ client_wf (client w')
    ∧ Some <$> cs = (λ i, pick (client w) (request_counter_ (client w) + Z.of_nat i)) <$> seq 0 n.
Proof.
  revert w. induction n as [|n IH]; intros w Hwf Hn; [by exists [], w|].
  destruct (GetNextConnection_spec w Hwf) as (conn & Hp & _ & E). cbn [take_connections].
  rewrite (bindM_ret _ _ _ _ _ E). pose proof Hwf as [_ Hc].
  set (w1 := mkRedisEnv (advance (client w)) (server w)).
  destruct n as [|n].
  { exists [conn], w1. simpl. rewrite Z.add_0_r, Hp. split; [done|]. split; [by apply advance_wf|done]. }
  assert (request_counter_ (client w1) = request_counter_ (client w) + 1) as Hk
    by (simpl; apply wrap_u_small; lia).
  destruct (IH w1) as (cs & w2 & E2 & Hwf2 & Hcs); [by apply advance_wf|rewrite Hk; lia|].
  rewrite (bindM_ret _ _ _ _ _ E2). exists (conn :: cs), w2. split; [done|]. split; [done|].
  rewrite fmap_cons, Hcs, Hk. change (seq 0 (S (S n))) with (0%nat :: seq 1 (S n)).
  rewrite fmap_cons, Z.add_0_r, Hp. f_equal. rewrite <- fmap_S_seq, <- list_fmap_compose.
  apply list_fmap_ext. intros i x _. simpl. unfold pick. simpl. do 2 f_equal. f_equal. lia.
Qed.

(** The rotation is fair and never out of range: any round of as many
    requests as there are connections, wherever the 64-bit counter stands
    (short of its wrap-around), uses every connection exactly once. *)
Theorem GetNextConnection_round_robin (w : redis_env)
    (Hwf : client_wf (client w))
    (Hcounter : request_counter_ (client w) + Z.of_nat (length (conns_ (client w))) ≤ 2 ^ 64) :
  ∃ cs w', take_connections (length (conns_ (client w))) w = (Ret cs, w')
    ∧ cs ≡ₚ conns_ (client w) ∧ client_wf (client w').
Proof.
  destruct (take_connections_eq _ w Hwf Hcounter) as (cs & w' & E & Hwf' & Hcs).
  exists cs, w'. split; [done|]. split; [|done].
  assert (Some <$> cs = Some <$> rotate (Z.to_nat (request_counter_ (client w))) (conns_ (client w))) as E2.
  { rewrite Hcs, <- (lookup_seq_all (rotate _ _)), length_rotate. apply list_fmap_ext.
    intros i x [-> Hi]%lookup_seq. rewrite lookup_rotate_r by done. unfold pick, rotate_nat_add.
    destruct Hwf as [_ Hc]. by rewrite Z2Nat.id by lia. }
  apply (inj (fmap Some)) in E2 as ->. apply rotate_permutation.
Qed.

(** The commands never throw what the library throws: with a client the
    constructor made, GET reports the key's live value at a moment during the
    call, or an error value, and leaves the store alone; SET with an expiry
    reports success only when the entry with its deadline is in the store, and
    an error value otherwise; the client stays usable. *)
Theorem RedisClient_commands (w : redis_env) (key val : string) (expiry : Z)
    (Hwf : client_wf (client w)) (Hexpiry : 0 < expiry) (Hrange : in_s 32 expiry) :
  (∀ o w', Get key w = (o, w') →
     client_wf (client w') ∧ env_store w' = env_store w ∧
     ((∃ t, during w w' t ∧ o = Ret (Val (live t (env_store w) key)))
      ∨ (∃ err, o = Ret (Unexpected err)) ∨ o = Pending))
  ∧ (∀ o w', Set_expiry key val expiry w = (o, w') →
     client_wf (client w') ∧ ∃ t, during w w' t ∧
     ((o = Ret (Val ()) ∧ env_store w' = <[key := (val, Some (t + expiry))]> (env_store w))
      ∨ (((∃ err, o = Ret (Unexpected err)) ∨ o = Pending)
         ∧ (env_store w' = env_store w
            ∨ env_store w' = <[key := (val, Some (t + expiry))]> (env_store w))))).
Proof.
  split; intros o w' E.
  - destruct (Get_outcome _ _ _ _ Hwf E) as (? & ? & _ & ?). auto.
  - destruct (Set_expiry_spec _ _ _ _ _ _ Hexpiry Hrange Hwf E) as (? & _ & ?). auto.
Qed.

(** A client that was initialised is connected: Init either pings every
    connection successfully, or throws a runtime_error that names a connection
    of the pool and the reason; it changes no key and not the client. *)
Theorem RedisClient_Init (w : redis_env) (o : outcome ()) (w' : redis_env)
    (Hrun : Init w = (o, w')) :
  env_store w' = env_store w ∧ client w' = client w
  ∧ (o = Ret () ∨ o = Pending
     ∨ ∃ i msg, (i < length (conns_ (client w)))%nat ∧
         o = Throw (Exn runtime_error ("Redis Pool Init failed at connection ["
                      +:+ to_string (Z.of_nat i) +:+ "]: " +:+ msg))).
Proof.
  unfold Init in Hrun. unfold bindM at 1 in Hrun. simpl in Hrun.
  assert (∀ conns s, redis_store (foldl (λ s conn, async_run (cfg_ (client w)) conn s) s conns) = redis_store s)
    as Hfold.
  { induction conns as [|c conns IH]; intros s; [done|]. simpl. rewrite IH. apply async_run_law. }
  unfold bindM, zoomM in Hrun. simpl in Hrun.
  destruct (Init_pings_outcome _ _ _ _ _ Hrun) as (Hs & Hc & Ho). simpl in *.
  split; [rewrite Hs; apply Hfold|]. split; [by rewrite Hc; destruct w|].
  destruct Ho as [?|[?|(j & msg & Hj & ?)]]; [by auto..|]. right. right. exists j, msg. split; [lia|done].
Qed.
End properties.

(** Three connections to the concrete server. *)
Definition example_client : RedisClient := mkRedisClient [0%nat; 1%nat; 2%nat] ("redis", "6379") 4.
Definition example_env : redis_env := mkRedisEnv example_client (mkRedisToy ∅ 1000 true).

Lemma example_client_wf : client_wf example_client.
Proof. split; [done|]. simpl. lia. Qed.

Lemma GetNextConnection_round_robin_witness :
  ∃ cs w', take_connections 3 example_env = (Ret cs, w') ∧ cs ≡ₚ [0%nat; 1%nat; 2%nat]
    ∧ client_wf (client w').
Proof.
  apply (GetNextConnection_round_robin example_env).
  - exact example_client_wf.
  - apply (bool_decide_unpack _). reflexivity.
Defined.

Lemma RedisClient_commands_witness :
  let w := example_env in
  (∀ o w', Get "k" w = (o, w') →
     client_wf (client w') ∧ env_store w' = env_store w ∧
     ((∃ t, during w w' t ∧ o = Ret (Val (live t (env_store w) "k")))
      ∨ (∃ err, o = Ret (Unexpected err)) ∨ o = Pending))
  ∧ (∀ o w', Set_expiry "k" "v" 300 w = (o, w') →
     client_wf (client w') ∧ ∃ t, during w w' t ∧
     ((o = Ret (Val ()) ∧ env_store w' = <["k" := ("v", Some (t + 300))]> (env_store w))
      ∨ (((∃ err, o = Ret (Unexpected err)) ∨ o = Pending)
         ∧ (env_store w' = env_store w
            ∨ env_store w' = <["k" := ("v", Some (t + 300))]> (env_store w))))).
Proof.
  apply (RedisClient_commands example_env "k" "v" 300).
  - exact example_client_wf.
  - lia.
  - apply (bool_decide_unpack _). reflexivity.
Defined.

Lemma RedisClient_Init_witness :
  let w' := mkRedisEnv example_client (mkRedisToy ∅ 1000 true) in
  env_store w' = env_store example_env ∧ client w' = client example_env
  ∧ (Ret () = Ret () ∨ Ret () = Pending
     ∨ ∃ i msg, (i < 3)%nat ∧
         Ret () = Throw (Exn runtime_error ("Redis Pool Init failed at connection ["
                      +:+ to_string (Z.of_nat i) +:+ "]: " +:+ msg))).
Proof. apply (RedisClient_Init example_env (Ret ()) _). reflexivity. Defined.
