(* ===== verification/Interfaces.v ===== *)
(** * Interfaces: what the services require of their collaborators

    The abstract classes of domain/interface/ and utils/interface/.  A service
    is modelled against these classes; each implementation is an instance.
    [W] is the world the calls run in.  The two repositories suspend their
    caller more than once, so each has a second class, with their methods as
    coroutines (Programs.v). *)

From stdpp Require Import base tactics option strings numbers list.
From S2P Require Import Prelude Programs Text Model User.

Open Scope list_scope.

(** domain/interface/i_user_repository.h *)
Class IUserRepository (W : Type) := {
  CreateUser : User → M W (expected () DbError);
  GetUserById : string → M W (expected (option User) DbError);
  GetUserByPhoneNumber : string → M W (expected (option User) DbError)
}.

(** domain/interface/i_verification_code_repository.h; the expiry is in seconds *)
Class IVerificationCodeRepository (W : Type) := {
  SaveCode : CodeUsage → string → string → Z → M W ();
  GetCode : CodeUsage → string → M W (option string)
}.

(** Both repositories again: their methods are coroutines. *)
Class CoUserRepository (W : Type) := {
  co_CreateUser : User → prog W (expected () DbError);
  co_GetUserById : string → prog W (expected (option User) DbError);
  co_GetUserByPhoneNumber : string → prog W (expected (option User) DbError)
}.

Class CoVerificationCodeRepository (W : Type) := {
  co_SaveCode : CodeUsage → string → string → Z → prog W ();
  co_GetCode : CodeUsage → string → prog W (option string)
}.

(** utils/interface/i_id_generator.h *)
Class IIDGenerator (W : Type) := { GenerateUUID : M W string }.

(** utils/interface/i_verification_code_generator.h *)
Class IVerificationCodeGenerator (W : Type) := { Generate : Z → M W string }.

(** utils/interface/i_security_util.h *)
Class ISecurityUtil (W : Type) := {
  GenerateSalt : M W string;
  HashPassword : string → string → string;
  VerifyPassword : string → string → string → bool
}.

(** utils/interface/i_jwt_util.h *)
Class IJwtUtil (W : Type) := {
  GenerateToken : string → M W string;
  VerifyToken : string → M W (expected string JwtError)
}.

(** ** The contract of a store of users

    What the services rely on: lookups read one table of accounts, changing
    nothing; creating an account keeps the others, and the new one is found
    under its id and its phone number with the fields it was given.  A value
    that is returned is only equivalent ([≡]) to the account: a cache may have
    rounded its creation time.  [store_ok] is the store's own invariant, kept by
    every call that is not left suspended.  UserDao has the operations of
    [IUserRepository] too, and satisfies the same contract. *)
Definition same_account (u v : User) : Prop :=
  id_ v = id_ u ∧ phone_number_ v = phone_number_ u
  ∧ password_hash_ v = password_hash_ u ∧ salt_ v = salt_ u ∧ status_ v = status_ u
  ∧ value_or_empty (username_ v) = value_or_empty (username_ u)
  ∧ value_or_empty (email_ v) = value_or_empty (email_ u)
  ∧ value_or_empty (avatar_url_ v) = value_or_empty (avatar_url_ u).

Class UserStoreLaws (W : Type) `{IUserRepository W} := {
  store_ok : W → Prop;
  account : W → string → option User;
  account_by_phone : W → string → option User;
  storable : User → Prop;
  account_wf w id u : store_ok w → account w id = Some u → user_wf u ∧ deleted_at_ u = None;
  GetUserById_law id w o w' :
    store_ok w → GetUserById id w = (o, w') → o ≠ Pending →
    store_ok w' ∧ (∀ k, account w' k = account w k)
    ∧ (∀ k, account_by_phone w' k = account_by_phone w k)
    ∧ ∀ r, o = Ret (Val r) → r ≡ account w id ∧ ∀ u, r = Some u → user_wf u;
  GetUserByPhoneNumber_law phone w o w' :
    store_ok w → GetUserByPhoneNumber phone w = (o, w') → o ≠ Pending →
    store_ok w' ∧ (∀ k, account w' k = account w k)
    ∧ (∀ k, account_by_phone w' k = account_by_phone w k)
    ∧ ∀ r, o = Ret (Val r) → r ≡ account_by_phone w phone ∧ ∀ u, r = Some u → user_wf u;
  CreateUser_law u w o w' :
    store_ok w → user_wf u → CreateUser u w = (o, w') → o ≠ Pending →
    store_ok w'
    ∧ (∀ k v, account w k = Some v → account w' k = Some v)
    ∧ (∀ k v, account_by_phone w k = Some v → account_by_phone w' k = Some v)
    ∧ (o = Ret (Val ()) → storable u →
       ∃ v, account w' (id_ u) = Some v ∧ account_by_phone w' (phone_number_ u) = Some v
            ∧ same_account u v);
  (** it is refused when the id or the number is taken *)
  CreateUser_fresh u w w' :
    store_ok w → user_wf u → CreateUser u w = (Ret (Val ()), w') → storable u →
    account w (id_ u) = None ∧ account_by_phone w (phone_number_ u) = None
}.

(** A call that is none of the store's leaves the store alone. *)
Definition keeps_store `{UserStoreLaws W} {A} (m : M W A) : Prop := ∀ w o w',
  store_ok w → m w = (o, w') → o ≠ Pending →
  store_ok w' ∧ (∀ k, account w' k = account w k) ∧ (∀ k, account_by_phone w' k = account_by_phone w k).

(** The collaborators of the services share the world with the store and leave
    it alone; a password verifies against its own hash. *)
Class ServiceLaws (W : Type) `{UserStoreLaws W} `{IVerificationCodeRepository W} `{IIDGenerator W}
    `{IVerificationCodeGenerator W} `{ISecurityUtil W} `{IJwtUtil W} : Prop := {
  GetCode_keeps u t : keeps_store (GetCode u t);
  SaveCode_keeps u t c n : keeps_store (SaveCode u t c n);
  GenerateUUID_keeps : keeps_store GenerateUUID;
  Generate_keeps n : keeps_store (Generate n);
  GenerateSalt_keeps : keeps_store GenerateSalt;
  GenerateToken_keeps id : keeps_store (GenerateToken id);
  VerifyToken_keeps t : keeps_store (VerifyToken t);
  VerifyPassword_HashPassword p s : VerifyPassword p s (HashPassword p s) = true
}.

Lemma keeps_store_ret `{UserStoreLaws W} {A} (a : A) : keeps_store (retM a).
Proof. intros w o w' Hok [= <- <-] _. done. Qed.

Lemma keeps_store_bind `{UserStoreLaws W} {A B} (m : M W A) (f : A → M W B) :
  keeps_store m → (∀ a, keeps_store (f a)) → keeps_store (bindM m f).
Proof.
  intros Hm Hf w o w' Hok. unfold bindM. destruct (m w) as [[a|e|] w1] eqn:E.
  - destruct (Hm _ _ _ Hok E) as (Hok1 & Ha & Hp); [done|]. intros E' Ho.
    destruct (Hf a _ _ _ Hok1 E' Ho) as (? & Ha' & Hp').
    split; [done|]. split; intros k; [by rewrite Ha', Ha|by rewrite Hp', Hp].
  - intros [= <- <-] Ho. by apply (Hm _ _ _ Hok E).
  - by intros [= <- <-] Ho.
Qed.

Lemma GetUserById_keeps `{UserStoreLaws W} id : keeps_store (GetUserById id).
Proof. intros w o w' Hok E Ho. by destruct (GetUserById_law _ _ _ _ Hok E Ho) as (? & ? & ? & _). Qed.
Lemma GetUserByPhoneNumber_keeps `{UserStoreLaws W} phone : keeps_store (GetUserByPhoneNumber phone).
Proof. intros w o w' Hok E Ho. by destruct (GetUserByPhoneNumber_law _ _ _ _ Hok E Ho) as (? & ? & ? & _). Qed.

#[export] Hint Resolve keeps_store_ret keeps_store_bind GetUserById_keeps GetUserByPhoneNumber_keeps
  GetCode_keeps SaveCode_keeps GenerateUUID_keeps Generate_keeps GenerateSalt_keeps
  GenerateToken_keeps VerifyToken_keeps : photon.

(** ** A store of users inside a larger world *)

Definition zoom_users {W D} (l : lens W D) `{IUserRepository D} : IUserRepository W := {|
  CreateUser u := zoomM l (CreateUser u);
  GetUserById id := zoomM l (GetUserById id);
  GetUserByPhoneNumber phone := zoomM l (GetUserByPhoneNumber phone)
|}.

Definition zoom_users_laws {W D} (l : lens W D) `{!LensLaws l} `{UserStoreLaws D} :
  @UserStoreLaws W (zoom_users l).
Proof.
  refine (@Build_UserStoreLaws W (zoom_users l) (λ w, store_ok (lget l w))
    (λ w, account (lget l w)) (λ w, account_by_phone (lget l w)) storable _ _ _ _ _); simpl.
  - intros w id u. apply account_wf.
  - intros id w o w' Hok [E _]%zoomM_inv Ho; [|done]. by apply (GetUserById_law _ _ _ _ Hok E).
  - intros phone w o w' Hok [E _]%zoomM_inv Ho; [|done]. by apply (GetUserByPhoneNumber_law _ _ _ _ Hok E).
  - intros u w o w' Hok Hwf [E _]%zoomM_inv Ho; [|done]. by apply (CreateUser_law _ _ _ _ Hok Hwf E).
  - intros u w w' Hok Hwf [E _]%zoomM_inv; [|done]. by apply (CreateUser_fresh _ _ _ Hok Hwf E).
Defined.

(** ** A store in memory

    The contract is consistent: a list of users satisfies it. *)

Definition find_user (f : User → bool) (l : list User) : option User := head (filter (λ u, f u) l).

Definition memory_create (u : User) : M (list User) (expected () DbError) := fun l =>
  if existsb (λ v, bool_decide (id_ v = id_ u) || bool_decide (phone_number_ v = phone_number_ u)) l
  then (Ret (Unexpected (mkDbError SqlExecutionError "duplicate key" "23505")), l)
  else (Ret (Val ()), l ++ [mkUser (id_ u) (phone_number_ u) (password_hash_ u) (salt_ u) (username_ u)
                              (email_ u) (avatar_url_ u) (status_ u) (created_at_ u) None]).

#[export] Instance memory_users : IUserRepository (list User) := {|
  CreateUser := memory_create;
  GetUserById id := fun l => (Ret (Val (find_user (λ u, bool_decide (id_ u = id)) l)), l);
  GetUserByPhoneNumber phone := fun l =>
    (Ret (Val (find_user (λ u, bool_decide (phone_number_ u = phone)) l)), l)
|}.

Lemma find_user_in f l u : find_user f l = Some u → u ∈ l.
Proof.
  unfold find_user. destruct (filter (λ u, f u) l) as [|v l'] eqn:E; [done|]. intros [= ->].
  assert (u ∈ filter (λ u, f u) l) as Hin by (rewrite E; apply list_elem_of_here).
  by apply list_elem_of_filter in Hin as [_ ?].
Qed.

Lemma find_user_app f l l' u : find_user f l = Some u → find_user f (l ++ l') = Some u.
Proof. unfold find_user. rewrite filter_app. by destruct (filter _ l). Qed.

Lemma find_user_last f l u :
  existsb f l = false → f u = true → find_user f (l ++ [u]) = Some u.
Proof.
  intros Hl Hu. unfold find_user. rewrite filter_app.
  assert (filter (λ u, f u) l = []) as ->.
  { induction l as [|v l IH]; [done|]. simpl in Hl. apply orb_false_elim in Hl as [Hv Hl].
    rewrite filter_cons_False; [by apply IH|]. intros Hx. by rewrite Hv in Hx. }
  rewrite filter_cons_True; [done|]. by rewrite Hu.
Qed.

Lemma find_user_none f l : existsb f l = false → find_user f l = None.
Proof.
  intros Hl. destruct (find_user f l) as [u|] eqn:E; [|done]. pose proof (find_user_in _ _ _ E) as Hin.
  unfold find_user in E. assert (u ∈ filter (λ u, f u) l) as Hf by (destruct (filter _ l); [done|]; injection E as ->; left).
  apply list_elem_of_filter in Hf as [Hf _]. apply Is_true_true in Hf.
  assert (existsb f l = true) as Ht by (apply existsb_exists; exists u; split; [by apply list_elem_of_In|done]). congruence.
Qed.

Lemma existsb_or {A} (f g : A → bool) l :
  existsb (λ v, f v || g v) l = false → existsb f l = false ∧ existsb g l = false.
Proof.
  induction l as [|v l IH]; [done|]. simpl. intros [[-> ->]%orb_false_elim Hl]%orb_false_elim.
  by apply IH.
Qed.

#[export] Instance memory_users_laws : UserStoreLaws (list User).
Proof.
  refine (@Build_UserStoreLaws (list User) _
    (Forall (λ u, user_wf u ∧ deleted_at_ u = None))
    (λ l id, find_user (λ u, bool_decide (id_ u = id)) l)
    (λ l phone, find_user (λ u, bool_decide (phone_number_ u = phone)) l) (λ _, True) _ _ _ _ _); simpl.
  - intros l id u Hok Hu%find_user_in. rewrite Forall_forall in Hok. by apply Hok.
  - intros id l o l' Hok [= <- <-] _. split_and!; [done..|]. intros r [= <-]. split; [done|].
    intros u Hu%find_user_in. rewrite Forall_forall in Hok. by apply Hok.
  - intros phone l o l' Hok [= <- <-] _. split_and!; [done..|]. intros r [= <-]. split; [done|].
    intros u Hu%find_user_in. rewrite Forall_forall in Hok. by apply Hok.
  - intros u l o l' Hok Hwf. unfold memory_create.
    destruct (existsb _ l) eqn:E; intros [= <- <-] _; [by split_and!|].
    apply existsb_or in E as [E1 E2]. split_and!.
    + apply Forall_app. split; [done|]. by apply Forall_singleton.
    + intros k v. apply find_user_app.
    + intros k v. apply find_user_app.
    + intros _ _. eexists. split; [apply find_user_last; [done|by apply bool_decide_eq_true_2]|].
      split; [apply find_user_last; [done|by apply bool_decide_eq_true_2]|]. done.
  - intros u l l' _ _. unfold memory_create. destruct (existsb _ l) eqn:E; [done|]. intros _ _.
    apply existsb_or in E as [E1 E2]. by rewrite !find_user_none.
Defined.
