(* ===== verification/CodeRepository.v ===== *)
(** * CodeRepository: verification codes in the cache

    [VerificationCodeRepository]
    (infrastructure/domain_implement/src/verification_code_repository.cc): a key
    per usage and phone number, an expiry, and errors that read as no code. *)

From stdpp Require Import base tactics option strings numbers gmap list.
From S2P Require Import Prelude Text Model RedisLib RedisClient Interfaces.

Open Scope string_scope.
Open Scope Z_scope.
Open Scope photon_scope.

Section repository.
Context `{RedisLib}.

Definition GetKeyPrefixForUsage (usage : CodeUsage) : outcome string :=
  match usage with
  | USER_REGISTER => Ret "verify_code:register:"
  | USER_LOGIN => Ret "verify_code:login:"
  | RESET_PASSWORD => Ret "verify_code:reset_pwd:"
  | _ => Throw (Exn invalid_argument "Unknown CodeUsage")
  end.

(** [redis_key = GetKeyPrefixForUsage(usage) + target] *)
Definition code_key (usage : CodeUsage) (target : string) : outcome string :=
  let+ prefix := GetKeyPrefixForUsage usage in Ret (prefix +:+ target)%string.

(** [None]: the try block was left by its handler. *)
Definition try_code_key (usage : CodeUsage) (target : string) : M redis_env (option string) :=
  tryM (let* key := liftO (code_key usage target) in retM (Some key))
    (is_class invalid_argument) (fun _ => retM None).

Definition VerificationCodeRepository_SaveCode (usage : CodeUsage) (target code : string) (expiry : Z)
    : M redis_env () :=
  let* redis_key := try_code_key usage target in
  match redis_key with
  | None => retM ()
  | Some key => do* Set_expiry key code expiry in retM ()
  end.

Definition VerificationCodeRepository_GetCode (usage : CodeUsage) (target : string)
    : M redis_env (option string) :=
  let* redis_key := try_code_key usage target in
  match redis_key with
  | None => retM None
  | Some key =>
      let* result := Get key in
      match result with
      | Unexpected _ => retM None
      | Val v => retM v
      end
  end.

#[export] Instance VerificationCodeRepository : IVerificationCodeRepository redis_env := {|
  SaveCode := VerificationCodeRepository_SaveCode;
  GetCode := VerificationCodeRepository_GetCode
|}.
End repository.

(** ** Keys *)

Lemma code_key_cases usage target :
  (∃ p, GetKeyPrefixForUsage usage = Ret p ∧ code_key usage target = Ret (p +:+ target)%string)
  ∨ code_key usage target = Throw (Exn invalid_argument "Unknown CodeUsage").
Proof. destruct usage; unfold code_key; simpl; eauto. Qed.

(** Two keys are the same only for the same usage and the same number. *)
Lemma code_key_inj u t u' t' k :
  code_key u t = Ret k → code_key u' t' = Ret k → u = u' ∧ t = t'.
Proof.
  destruct u, u'; unfold code_key; simpl; try discriminate;
    intros [= <-] [= E]; try (discriminate E); by split.
Qed.

(** No code key is a key of the user cache. *)
Lemma code_key_not_user u t id k : code_key u t = Ret k → k ≠ ("user:info:" +:+ id)%string.
Proof. destruct u; unfold code_key; simpl; try discriminate; intros [= <-]; discriminate. Qed.

Section lemmas.
Context `{RedisLaws}.
Implicit Types w : redis_env.

Lemma try_code_key_eq u t w :
  try_code_key u t w = (Ret (match code_key u t with Ret k => Some k | _ => None end), w).
Proof.
  unfold try_code_key. destruct (code_key_cases u t) as [(p & _ & ->)| ->]; reflexivity.
Qed.

(** What SaveCode leaves behind: at most its own entry has changed. *)
Lemma SaveCode_outcome u t code n w o w' :
  0 < n → in_s 32 n → client_wf (client w) → SaveCode u t code n w = (o, w') →
  client_wf (client w') ∧ env_now w ≤ env_now w' ∧ (o = Ret () ∨ o = Pending) ∧
  (env_store w' = env_store w
   ∨ ∃ k time, code_key u t = Ret k ∧ during w w' time
       ∧ env_store w' = <[k := (code, Some (time + n))]> (env_store w)).
Proof.
  intros Hn Hr Hwf. simpl. unfold VerificationCodeRepository_SaveCode.
  rewrite (bindM_ret _ _ _ _ _ (try_code_key_eq u t w)).
  destruct (code_key u t) as [k|e|] eqn:Ek; [|intros [= <- <-]; by auto using Z.le_refl..].
  unfold bindM. destruct (Set_expiry k code n w) as [o1 w1] eqn:E.
  destruct (Set_expiry_spec _ _ _ _ _ _ Hn Hr Hwf E) as (Hwf1 & Hnow & time & Ht & Ho).
  destruct Ho as [[-> Hs]|[[[err ->]| ->] Hs]]; intros [= <- <-];
    (split; [done|]; split; [done|]; split; [by auto|]).
  - right. eauto.
  - destruct Hs; [by left|right; eauto].
  - destruct Hs; [by left|right; eauto].
Qed.

(** SaveCode touches no other key, whatever the expiry. *)
Lemma apply_set_other t k args m key :
  k ≠ key → apply_command t ("SET" :: k :: args) m !! key = m !! key.
Proof.
  intros Hk. unfold apply_command. repeat case_match; simplify_eq; try done; by apply lookup_insert_ne.
Qed.

Lemma SaveCode_frame u t code n w o w' :
  client_wf (client w) → SaveCode u t code n w = (o, w') →
  client_wf (client w') ∧ (∀ key, code_key u t ≠ Ret key → env_store w' !! key = env_store w !! key).
Proof.
  intros Hwf. simpl. unfold VerificationCodeRepository_SaveCode.
  rewrite (bindM_ret _ _ _ _ _ (try_code_key_eq u t w)).
  destruct (code_key u t) as [k|e|] eqn:Ek; [|by intros [= <- <-]..].
  unfold bindM. destruct (Set_expiry k code n w) as [o1 w1] eqn:E. intros E'.
  assert (w' = w1) as -> by (destruct o1; by injection E'). clear E'.
  unfold Set_expiry in E.
  eapply (Set_try_spec _ (λ e, SystemFailure ("SET exception: " +:+ what e +:+ " (Key: " +:+ k +:+ ")")))
    in E as (Hwf1 & _ & time & _ & Ho); [|done..].
  split; [done|]. intros key Hk. assert (k ≠ key) as Hne by congruence.
  assert (∀ m, apply_command time
    (if 0 <? n then ["SET"; k; code; "EX"; to_string n] else ["SET"; k; code]) m !! key = m !! key) as Ha.
  { intros m. destruct (0 <? n); by apply apply_set_other. }
  destruct Ho as [[_ ->]|[_ [->| ->]]]; by rewrite ?Ha.
Qed.

Lemma GetCode_outcome u t w o w' :
  client_wf (client w) → GetCode u t w = (o, w') →
  client_wf (client w') ∧ env_store w' = env_store w ∧ env_now w ≤ env_now w' ∧
  (o = Pending ∨ ∃ r, o = Ret r ∧
    (r = None ∨ ∃ k time, code_key u t = Ret k ∧ during w w' time ∧ r = live time (env_store w) k)).
Proof.
  intros Hwf. simpl. unfold VerificationCodeRepository_GetCode.
  rewrite (bindM_ret _ _ _ _ _ (try_code_key_eq u t w)).
  destruct (code_key u t) as [k|e|] eqn:Ek; [|intros [= <- <-]; by eauto 10 using Z.le_refl..].
  unfold bindM. destruct (Get k w) as [o1 w1] eqn:E.
  destruct (Get_outcome _ _ _ _ Hwf E) as (Hwf1 & Hs & Hnow & Ho).
  destruct Ho as [(time & Ht & ->)|[(err & ->)| ->]]; intros [= <- <-];
    (split; [done|]; split; [done|]; split; [done|]); eauto 10.
Qed.
End lemmas.

(** ** Properties *)

Section properties.
Context `{RedisLaws}.
Implicit Types w : redis_env.


(** The code repository never fails its caller: whatever Redis does and
    whatever the usage, GetCode gives a code or nothing and SaveCode returns
    (or they are still waiting); an unknown usage touches nothing at all. *)
Theorem CodeRepository_no_throw (u : CodeUsage) (t code : string) (n : Z) (w : redis_env)
    (Hn : 0 < n) (Hrange : in_s 32 n) (Hwf : client_wf (client w)) :
  (∀ e, (VerificationCodeRepository_GetCode u t w).1 ≠ Throw e)
  ∧ (∀ e, (VerificationCodeRepository_SaveCode u t code n w).1 ≠ Throw e)
  ∧ (u ∉ [USER_REGISTER; USER_LOGIN; RESET_PASSWORD] →
     VerificationCodeRepository_GetCode u t w = (Ret None, w) ∧ VerificationCodeRepository_SaveCode u t code n w = (Ret (), w)).
Proof.
  split_and!.
  - intros e. destruct (VerificationCodeRepository_GetCode u t w) as [o w'] eqn:E.
    destruct (GetCode_outcome _ _ _ _ _ Hwf E) as (_ & _ & _ & [->|(r & -> & _)]); done.
  - intros e. destruct (VerificationCodeRepository_SaveCode u t code n w) as [o w'] eqn:E.
    destruct (SaveCode_outcome _ _ _ _ _ _ _ Hn Hrange Hwf E) as (_ & _ & [->| ->] & _); done.
  - intros Hu. simpl. unfold VerificationCodeRepository_GetCode, VerificationCodeRepository_SaveCode.
    rewrite !(bindM_ret _ _ _ _ _ (try_code_key_eq u t w)).
    destruct u; try done; exfalso; apply Hu; set_solver.
Qed.
End properties.

(** A code saved at time 1000 for five minutes, read at time 1200. *)
Definition code_before : redis_env := example_env.
Definition code_after : redis_env := (SaveCode USER_LOGIN "138" "042137" 300 code_before).2.
Definition code_later : redis_env :=
  mkRedisEnv (client code_after) (mkRedisToy (rt_store (server code_after)) 1200 true).


Lemma CodeRepository_no_throw_witness :
  let u := CodeUsage_cast 7 in
  (∀ e, (GetCode u "138" example_env).1 ≠ Throw e)
  ∧ (∀ e, (SaveCode u "138" "042137" 300 example_env).1 ≠ Throw e)
  ∧ (u ∉ [USER_REGISTER; USER_LOGIN; RESET_PASSWORD] →
     GetCode u "138" example_env = (Ret None, example_env)
     ∧ SaveCode u "138" "042137" 300 example_env = (Ret (), example_env)).
Proof.
  apply (CodeRepository_no_throw (CodeUsage_cast 7) "138" "042137" 300 example_env).
  - lia.
  - apply (bool_decide_unpack _). reflexivity.
  - exact example_client_wf.
Defined.
