(* ===== verification/RedisCalls.v ===== *)
(** * RedisCalls: the cache client, await by await

    The commands of RedisClient.v and the methods of CodeRepository.v as
    coroutines (Programs.v): a command takes the next connection, enters its
    strand, and waits for the reply, and whoever shares the client may come in
    between.  Alone, they are the commands and methods of those files; in
    company, a GET still tells what was live at one of its own calls, and what a
    SET does to the store it does at once. *)

From stdpp Require Import base tactics option strings numbers gmap list.
From S2P Require Import Prelude Programs Text Model RedisLib RedisClient Interfaces CodeRepository.

Open Scope string_scope.
Open Scope Z_scope.
Open Scope photon_scope.

(** ** The commands *)
Section commands.
Context `{RedisLib}.

(** [co_await boost::asio::post(conn->get_executor(), boost::asio::use_awaitable)] *)
Definition enter_strand (conn : redis_connection) : M redis_env () := retM ().

Definition co_Set_exec (req : list string) : prog redis_env () :=
  let~ conn := call GetNextConnection in
  do~ call (enter_strand conn) in
  call (zoomM redis_server_lens (async_exec_ignore conn req)).

Definition co_Set (key val : string) : prog redis_env (expected () RedisError) :=
  ptry (do~ co_Set_exec ["SET"; key; val] in ret (Val ()))
    is_std_exception (fun e => ret (SystemFailure ("SET exception: " +:+ what e))).

(** The overload with an expiry, in seconds. *)
Definition co_Set_expiry (key val : string) (expiry : Z) : prog redis_env (expected () RedisError) :=
  ptry (let req := if 0 <? expiry then ["SET"; key; val; "EX"; to_string expiry] else ["SET"; key; val] in
        do~ co_Set_exec req in ret (Val ()))
    is_std_exception
    (fun e => ret (SystemFailure ("SET exception: " +:+ what e +:+ " (Key: " +:+ key +:+ ")"))).

Definition co_Get (key : string) : prog redis_env (expected (option string) RedisError) :=
  ptry (let~ conn := call GetNextConnection in
        do~ call (enter_strand conn) in
        let~ resp := call (zoomM redis_server_lens (async_exec conn ["GET"; key])) in
        ret (ExtractResult resp "GET" key))
    is_std_exception
    (fun e => ret (SystemFailure ("GET exception: " +:+ what e +:+ " (Key: " +:+ key +:+ ")"))).

(** *** Verification codes *)

(** [None]: the try block was left by its handler. *)
Definition co_code_key (usage : CodeUsage) (target : string) : prog redis_env (option string) :=
  ptry (let~ key := Done (code_key usage target) in ret (Some key)) (is_class invalid_argument) (fun _ => ret None).

Definition co_VerificationCodeRepository_SaveCode (usage : CodeUsage) (target code : string) (expiry : Z)
    : prog redis_env () :=
  let~ redis_key := co_code_key usage target in
  match redis_key with
  | None => ret ()
  | Some key => do~ co_Set_expiry key code expiry in ret ()
  end.

Definition co_VerificationCodeRepository_GetCode (usage : CodeUsage) (target : string)
    : prog redis_env (option string) :=
  let~ redis_key := co_code_key usage target in
  match redis_key with
  | None => ret None
  | Some key =>
      let~ result := co_Get key in
      match result with
      | Unexpected _ => ret None
      | Val v => ret v
      end
  end.

#[export] Instance CoVerificationCodeRepository_redis : CoVerificationCodeRepository redis_env := {|
  co_SaveCode := co_VerificationCodeRepository_SaveCode;
  co_GetCode := co_VerificationCodeRepository_GetCode
|}.

(** *** Alone *)

Lemma strand_alone {A} conn (p : prog redis_env A) w : run (do~ call (enter_strand conn) in p) w = run p w.
Proof. done. Qed.

Lemma co_Set_exec_alone req w : run (co_Set_exec req) w = Set_exec req w.
Proof. apply bind_alone; [apply run_call|]. intros conn w1. rewrite strand_alone. apply run_call. Qed.

Lemma co_Set_alone key val w : run (co_Set key val) w = Set_ key val w.
Proof. apply try_alone; [|done]. intros w1. apply bind_alone; [apply co_Set_exec_alone|done]. Qed.

Lemma co_Set_expiry_alone key val expiry w : run (co_Set_expiry key val expiry) w = Set_expiry key val expiry w.
Proof. apply try_alone; [|done]. intros w1. apply bind_alone; [apply co_Set_exec_alone|done]. Qed.

Lemma co_Get_alone key w : run (co_Get key) w = Get key w.
Proof.
  apply try_alone; [|done]. intros w1. apply bind_alone; [apply run_call|]. intros conn w2.
  rewrite strand_alone. by apply bind_alone; [apply run_call|].
Qed.

Lemma co_code_key_eq usage target :
  co_code_key usage target = ret (match code_key usage target with Ret k => Some k | _ => None end).
Proof. by destruct usage. Qed.

Lemma co_SaveCode_redis_alone usage target code expiry w :
  run (co_SaveCode usage target code expiry) w = SaveCode usage target code expiry w.
Proof.
  apply bind_alone; [by destruct usage|]. intros [key|] w1; [|done]. apply bind_alone; [apply co_Set_expiry_alone|done].
Qed.

Lemma co_GetCode_redis_alone usage target w : run (co_GetCode usage target) w = GetCode usage target w.
Proof.
  apply bind_alone; [by destruct usage|]. intros [key|] w1; [|done]. apply bind_alone; [apply co_Get_alone|].
  by intros [v|e] w2.
Qed.

(** *** Few calls *)

Lemma co_Set_expiry_bounded key val expiry : bounded 3 (co_Set_expiry key val expiry).
Proof.
  apply (bounded_try 3 0); [|done]. apply (bounded_bind 3 0); [|done].
  apply (bounded_bind 1 2); [apply bounded_call|]. intros conn. apply (bounded_bind 1 1); intros; apply bounded_call.
Qed.

Lemma co_Get_bounded key : bounded 3 (co_Get key).
Proof.
  apply (bounded_try 3 0); [|done]. apply (bounded_bind 1 2); [apply bounded_call|]. intros conn.
  apply (bounded_bind 1 1); [apply bounded_call|]. intros _. by apply (bounded_bind 1 0); [apply bounded_call|].
Qed.

Lemma co_SaveCode_redis_bounded usage target code expiry : bounded 3 (co_SaveCode usage target code expiry).
Proof.
  apply (bounded_bind 0 3); [by destruct usage|]. intros [key|]; [|done].
  by apply (bounded_bind 3 0); [apply co_Set_expiry_bounded|].
Qed.

Lemma co_GetCode_redis_bounded usage target : bounded 3 (co_GetCode usage target).
Proof.
  apply (bounded_bind 0 3); [by destruct usage|]. intros [key|]; [|done].
  apply (bounded_bind 3 0); [apply co_Get_bounded|]. by intros [v|e].
Qed.
End commands.

(** ** What their calls do to the store *)
Section effects.
Context `{RedisLaws}.
Implicit Types (w : redis_env) (evs : list (redis_env * redis_env)).

(** A call leaves the client usable, the clock no earlier, and the store as it
    was or as one command makes it during the call. *)
Definition applies (req : list string) w w' : Prop :=
  (client_wf (client w) → client_wf (client w')) ∧ env_now w ≤ env_now w'
  ∧ ∃ t, during w w' t ∧ (env_store w' = env_store w ∨ env_store w' = apply_command t req (env_store w)).

(** ... it leaves the store as it was. *)
Definition reads w w' : Prop :=
  (client_wf (client w) → client_wf (client w')) ∧ env_now w ≤ env_now w' ∧ env_store w' = env_store w.

(** ... at most the entry of [key] has changed, to this one. *)
Definition writes (key val : string) (n : Z) w w' : Prop :=
  (client_wf (client w) → client_wf (client w')) ∧ env_now w ≤ env_now w'
  ∧ (env_store w' = env_store w ∨ ∃ t, during w w' t ∧ env_store w' = <[key := (val, Some (t + n))]> (env_store w)).

(** ... at most the entry of [key] has changed. *)
Definition touches (key : string) w w' : Prop :=
  (client_wf (client w) → client_wf (client w')) ∧ env_now w ≤ env_now w'
  ∧ ∀ k, k ≠ key → env_store w' !! k = env_store w !! k.

Lemma reads_applies req w w' : reads w w' → applies req w w'.
Proof. intros (? & ? & ?). split; [done|]. split; [done|]. exists (env_now w). split; [split; lia|by left]. Qed.

Lemma GetNextConnection_reads : always reads (call GetNextConnection).
Proof.
  apply always_call. intros w o w' E Ho.
  assert (server w' = server w ∧ client w' = advance (client w)) as [Es Ec].
  { unfold GetNextConnection, bindM in E. simpl in E. destruct (conns_ (client w) !! _); by injection E as <- <-. }
  split; [rewrite Ec; apply advance_wf|]. unfold env_now, env_store. rewrite Es. split; [lia|done].
Qed.

Lemma enter_strand_reads conn : always reads (call (enter_strand conn)).
Proof. apply always_call. intros w o w' [= <- <-] _. split; [done|]. split; [lia|done]. Qed.

Lemma on_connection_always (R : redis_env → redis_env → Prop) {A} (p : redis_connection → prog redis_env A) :
  (∀ w w', reads w w' → R w w') → (∀ conn, always R (p conn)) →
  always R (let~ conn := call GetNextConnection in do~ call (enter_strand conn) in p conn).
Proof.
  intros HR Hp. apply always_bind; [by eapply always_impl, GetNextConnection_reads|]. intros conn.
  apply always_bind; [by eapply always_impl, enter_strand_reads|]. intros _. apply Hp.
Qed.

Lemma co_Set_exec_applies req : always (applies req) (co_Set_exec req).
Proof.
  apply on_connection_always; [apply reads_applies|]. intros conn. apply always_call. intros w o w' E _.
  apply zoomM_inv in E as [E Ew]; [|split; [done|by intros []|done]].
  destruct (async_exec_ignore_law _ _ _ _ _ E) as (Hnow & t & Ht & Ho). rewrite Ew. split; [done|]. split; [done|].
  exists t. split; [done|]. destruct Ho as [[_ ?]|[_ ?]]; [by right|done].
Qed.

Lemma co_Set_expiry_writes key val n : 0 < n → in_s 32 n → always (writes key val n) (co_Set_expiry key val n).
Proof.
  intros Hn Hr. apply always_try; [|done]. rewrite (proj2 (Z.ltb_lt 0 n) Hn). cbv zeta.
  apply always_bind; [|done]. eapply always_impl, co_Set_exec_applies.
  intros w w' (Hc & Hnow & t & Ht & Hs). split; [done|]. split; [done|].
  rewrite apply_set_expiry in Hs by done. destruct Hs; [by left|right; eauto].
Qed.

Lemma co_Set_expiry_touches key val n : always (touches key) (co_Set_expiry key val n).
Proof.
  apply always_try; [|done]. cbv zeta. apply always_bind; [|done].
  eapply always_impl, co_Set_exec_applies. intros w w' (Hc & Hnow & t & Ht & Hs).
  split; [done|]. split; [done|]. intros k Hk. destruct Hs as [->| ->]; [done|].
  destruct (0 <? n); by apply apply_set_other.
Qed.

Lemma co_Get_reads key : always reads (co_Get key).
Proof.
  apply always_try; [|done]. apply on_connection_always; [done|]. intros conn. apply always_bind; [|done].
  apply always_call. intros w o w' E _. apply zoomM_inv in E as [E Ew]; [|split; [done|by intros []|done]].
  destruct (async_exec_get_law _ _ _ _ _ E) as (Hs & Hnow & _). rewrite Ew. by split.
Qed.

(** *** What a GET reports: an error, or what was live at one of its calls *)
Lemma co_Get_found key evs r :
  exec (co_Get key) evs (Done (Ret r)) →
  (∃ err, r = Unexpected err) ∨ ∃ e t, e ∈ evs ∧ during e.1 e.2 t ∧ r = Val (live t (env_store e.1) key).
Proof.
  intros [He|(ex & evs1 & evs2 & -> & _ & [_ [= ->]]%exec_ret)]%exec_try; [|left; by eexists].
  apply exec_bind_ret in He as (conn & evs1 & evs2 & -> & _ & He).
  apply exec_bind_ret in He as ([] & evs3 & evs4 & -> & _ & He).
  apply exec_bind_ret in He as (resp & evs5 & evs6 & -> & Hx & [_ [= ->]]%exec_ret).
  apply exec_call in Hx as (w & w' & -> & E & _). apply zoomM_inv in E as [E Ew]; [|split; [done|by intros []|done]].
  destruct (async_exec_get_law _ _ _ _ _ E) as (_ & _ & [(t & Ht & [= ->])|[(d & [= ->])|[(ex & ? & _)|?]]]); [| |done..].
  - right. exists (w, w'), t. split; [rewrite !elem_of_app; right; right; left; by left|].
    split; [exact Ht|]. unfold env_store. simpl. by destruct (live t (redis_store (server w)) key).
  - left. by eexists.
Qed.

(** *** Verification codes *)
Lemma co_code_key_bind {A} (R : redis_env → redis_env → Prop) usage target (f : option string → prog redis_env A) :
  always R (f None) → (∀ k, code_key usage target = Ret k → always R (f (Some k))) →
  always R (pbind (co_code_key usage target) f).
Proof.
  intros Hn Hk. rewrite co_code_key_eq. simpl. destruct (code_key usage target) as [k|e|] eqn:E; [by apply Hk|done..].
Qed.

Lemma co_SaveCode_redis_writes usage target code n :
  0 < n → in_s 32 n →
  always (λ w w', reads w w' ∨ ∃ k, code_key usage target = Ret k ∧ writes k code n w w') (co_SaveCode usage target code n).
Proof.
  intros Hn Hr. apply co_code_key_bind; [done|]. intros k Hk. apply always_bind; [|done].
  eapply always_impl, co_Set_expiry_writes; [|done..]. intros w w' Hw. right. eauto.
Qed.

Lemma co_SaveCode_redis_touches usage target code n :
  always (λ w w', reads w w' ∨ ∃ k, code_key usage target = Ret k ∧ touches k w w') (co_SaveCode usage target code n).
Proof.
  apply co_code_key_bind; [done|]. intros k Hk. apply always_bind; [|done].
  eapply always_impl, co_Set_expiry_touches. intros w w' Hw. right. eauto.
Qed.

Lemma co_GetCode_redis_reads usage target : always reads (co_GetCode usage target).
Proof. apply co_code_key_bind; [done|]. intros k _. apply always_bind; [apply co_Get_reads|]. by intros [v|e]. Qed.

Lemma co_GetCode_redis_found usage target evs code :
  exec (co_GetCode usage target) evs (Done (Ret (Some code))) →
  ∃ k e t, code_key usage target = Ret k ∧ e ∈ evs ∧ during e.1 e.2 t ∧ live t (env_store e.1) k = Some code.
Proof.
  intros He. apply exec_bind_ret in He as (okey & evs0 & evs' & -> & Hk & He). rewrite co_code_key_eq in Hk.
  apply exec_ret in Hk as [-> [= ->]]. destruct (code_key usage target) as [k|ex|]; [|by apply exec_ret in He as [_ [=]]..].
  apply exec_bind_ret in He as ([v|err] & evs1 & evs2 & -> & Hg & He); apply exec_ret in He as [-> [= ?]]. subst v.
  rewrite app_nil_r. destruct (co_Get_found _ _ _ Hg) as [(? & ?)|(e & t & Hin & Ht & [= Hv])]; [done|].
  exists k, e, t. split_and!; [done|done|exact Ht|by rewrite Hv].
Qed.
End effects.
