(* ===== verification/UserRepository.v ===== *)
(** * UserRepository: users behind a cache

    [UserRepository] (infrastructure/domain_implement/src/user_repository.cc):
    lookups by id go through Redis and fall back on the database, which then
    fills the cache; the other operations go to the database. *)

From stdpp Require Import base tactics option strings numbers gmap list.
From S2P Require Import Prelude Text Model JsonLib JsonTree User RedisLib RedisClient Interfaces CodeRepository.

Open Scope string_scope.
Open Scope Z_scope.
Open Scope photon_scope.

(** What the repository holds: [user_dao_] and [redis_client_]. *)
Record repo_world (D : Type) `{RedisLib} := mkRepoWorld { user_dao_ : D; redis_client_ : redis_env }.
Arguments mkRepoWorld {D _}.
Arguments user_dao_ {D _}.
Arguments redis_client_ {D _}.

Section repository.
Context `{RedisLib} `{JsonLib} {D : Type} `{IUserRepository D}.

Definition dao_lens : lens (repo_world D) D :=
  Lens user_dao_ (λ d w, mkRepoWorld d (redis_client_ w)).
Definition redis_lens : lens (repo_world D) redis_env :=
  Lens redis_client_ (λ r w, mkRepoWorld (user_dao_ w) r).

Definition UserRepository_CreateUser (user : User) : M (repo_world D) (expected () DbError) :=
  zoomM dao_lens (CreateUser user).

Definition cache_key (id : string) : string := "user:info:" +:+ id.

(** A hit: Redis answered with a text that parses to a user. *)
Definition cache_hit (redis_res : expected (option string) RedisError) : outcome (option User) :=
  match redis_res with
  | Val (Some text) =>
      match json_parse text with
      | Some j => FromJson j
      | None => Ret None
      end
  | _ => Ret None
  end.

(** The try block that fills the cache; a failing SET is only logged. *)
Definition fill_cache (key : string) (user : User) : M (repo_world D) () :=
  tryM (let* json_str := liftO (json_dump (ToJson user)) in
        do* zoomM redis_lens (Set_expiry key json_str 3600) in retM ())
    is_std_exception (fun _ => retM ()).

Definition UserRepository_GetUserById (id : string)
    : M (repo_world D) (expected (option User) DbError) :=
  let* redis_res := zoomM redis_lens (Get (cache_key id)) in
  let* hit := liftO (cache_hit redis_res) in
  match hit with
  | Some user => retM (Val (Some user))
  | None =>
      let* db_result_exp := zoomM dao_lens (GetUserById id) in
      match db_result_exp with
      | Val (Some user) => do* fill_cache (cache_key id) user in retM db_result_exp
      | _ => retM db_result_exp
      end
  end.

Definition UserRepository_GetUserByPhoneNumber (phoneNumber : string)
    : M (repo_world D) (expected (option User) DbError) :=
  zoomM dao_lens (GetUserByPhoneNumber phoneNumber).

#[export] Instance UserRepository : IUserRepository (repo_world D) := {|
  CreateUser := UserRepository_CreateUser;
  GetUserById := UserRepository_GetUserById;
  GetUserByPhoneNumber := UserRepository_GetUserByPhoneNumber
|}.
End repository.

(** ** The cache never lies

    Every entry that reads as a user is, up to [≡], the account of its id. *)

Section coherence.
Context `{RedisLaws} `{JsonLaws} {D : Type} `{UserStoreLaws D}.
Implicit Types w : repo_world D.

Definition coherent (d : D) (m : store) : Prop :=
  ∀ id text dl j u, m !! cache_key id = Some (text, dl) → json_parse text = Some j →
    FromJson j = Ret (Some u) → Some u ≡ account d id.

Definition repo_ok w : Prop :=
  store_ok (user_dao_ w) ∧ client_wf (client (redis_client_ w))
  ∧ coherent (user_dao_ w) (env_store (redis_client_ w)).

Lemma coherent_same d d' m :
  (∀ k, account d' k = account d k) → coherent d m → coherent d' m.
Proof. intros Hd Hc id text dl j u Hm Hj Hu. rewrite Hd. by eapply Hc. Qed.

Lemma cache_key_inj : Inj (=) (=) cache_key.
Proof. intros a b. apply str_app_inj_l. Qed.

Lemma coherent_fill d m id u text dl :
  coherent d m → Some u ≡ account d id → user_wf u → deleted_at_ u = None →
  json_dump (ToJson u) = Ret text → coherent d (<[cache_key id := (text, dl)]> m).
Proof.
  intros Hc Ha Hwf Hd Htext id' text' dl' j u' Hm Hj Hu.
  destruct (decide (id' = id)) as [->|Hne].
  - rewrite lookup_insert_eq in Hm. injection Hm as <- <-.
    destruct (json_parse_dump _ _ Htext) as (j' & Hj' & He).
    rewrite Hj in Hj'. injection Hj' as <-.
    rewrite (FromJson_proper _ _ He), FromJson_ToJson_eq in Hu by done. injection Hu as <-.
    rewrite <- Ha. constructor. by apply cached_equiv.
  - rewrite lookup_insert_ne in Hm by (intros E; apply Hne; by apply (inj cache_key)).
    by eapply Hc.
Qed.

(** A hit is the account. *)
Lemma cache_hit_account d m id t u :
  coherent d m → cache_hit (Val (live t m (cache_key id))) = Ret (Some u) → Some u ≡ account d id.
Proof.
  intros Hc. unfold cache_hit, live. destruct (m !! cache_key id) as [[text dl]|] eqn:Em; [|done].
  assert (∀ j, json_parse text = Some j → FromJson j = Ret (Some u) → Some u ≡ account d id) as Hhit.
  { intros j. by apply (Hc id text dl). }
  intros Hu. destruct dl as [dl|]; [case_bool_decide|]; try done;
    (destruct (json_parse text) as [j|] eqn:Ej; [|done]); by eapply Hhit.
Qed.

(** Reading an entry never throws, and what it gives is in range. *)
Lemma cache_hit_outcome redis_res :
  ∃ hit, cache_hit redis_res = Ret hit ∧ ∀ u, hit = Some u → user_wf u.
Proof.
  unfold cache_hit. destruct redis_res as [[text|]|]; [|by eexists..].
  destruct (json_parse text) as [j|]; [|by eexists].
  unfold FromJson. destruct (FromJson_try_outcome j) as [[u Hu]|[msg Hu]]; rewrite Hu.
  - exists (Some u). split; [done|]. intros u' [= <-]. by apply (FromJson_try_members j).
  - by exists None.
Qed.

(** Writing the entry of an account keeps the cache true. *)
Lemma Set_expiry_coherent id u text w o w' :
  repo_ok w → Some u ≡ account (user_dao_ w) id → user_wf u → deleted_at_ u = None →
  json_dump (ToJson u) = Ret text → zoomM redis_lens (Set_expiry (cache_key id) text 3600) w = (o, w') →
  repo_ok w' ∧ user_dao_ w' = user_dao_ w ∧ (is_ret o = true ∨ o = Pending).
Proof.
  intros (Hok & Hcl & Hc) Ha Hwf Hd Et. unfold zoomM. simpl.
  destruct (Set_expiry (cache_key id) text 3600 (redis_client_ w)) as [o1 r1] eqn:E.
  assert (in_s 32 3600) as Hr by by apply (bool_decide_unpack _).
  destruct (Set_expiry_spec _ _ _ _ _ _ (eq_refl : 0 < 3600) Hr Hcl E)
    as (Hcl1 & _ & t & _ & Ho).
  assert (env_store r1 = env_store (redis_client_ w)
          ∨ env_store r1 = <[cache_key id := (text, Some (t + 3600))]> (env_store (redis_client_ w)))
    as Hs by (destruct Ho as [[_ ->]|[_ [->| ->]]]; auto).
  assert (coherent (user_dao_ w) (env_store r1)) as Hc1.
  { destruct Hs as [->| ->]; [done|]. by eapply coherent_fill. }
  destruct Ho as [[-> _]|[[[err ->]| ->] _]]; intros [= <- <-]; (split; [by split_and!|]; split; [done|]; auto).
Qed.

Lemma fill_cache_outcome id u w o w' :
  repo_ok w → Some u ≡ account (user_dao_ w) id → user_wf u → deleted_at_ u = None →
  fill_cache (cache_key id) u w = (o, w') →
  repo_ok w' ∧ user_dao_ w' = user_dao_ w ∧ (o = Ret () ∨ o = Pending).
Proof.
  intros Hok Ha Hwf Hd. unfold fill_cache, tryM, bindM, liftO.
  destruct (json_dump_outcome (ToJson u)) as [[text Et]|[msg Et]]; rewrite Et.
  2: { intros [= <- <-]. auto. }
  destruct (zoomM redis_lens (Set_expiry (cache_key id) text 3600) w) as [o1 w1] eqn:E.
  destruct (Set_expiry_coherent _ _ _ _ _ _ Hok Ha Hwf Hd Et E) as (? & ? & [Ho|Ho]); destruct o1; try done;
    intros [= <- <-]; auto.
Qed.

Lemma equiv_account_deleted u d id :
  store_ok d → Some u ≡ account d id → deleted_at_ u = None.
Proof.
  intros Hok Ha. destruct (account d id) as [v|] eqn:E; [|by inversion Ha].
  apply (inj Some) in Ha as [_ Hd]. rewrite Hd. by eapply account_wf.
Qed.

(** The repository's own lookup keeps the contract of the store behind it. *)
Lemma GetUserById_contract id w o w' :
  repo_ok w → UserRepository_GetUserById id w = (o, w') → o ≠ Pending →
  repo_ok w' ∧ (∀ k, account (user_dao_ w') k = account (user_dao_ w) k)
  ∧ (∀ k, account_by_phone (user_dao_ w') k = account_by_phone (user_dao_ w) k)
  ∧ ∀ r, o = Ret (Val r) → r ≡ account (user_dao_ w) id ∧ ∀ u, r = Some u → user_wf u.
Proof.
  intros (Hok & Hcl & Hc) E Ho. unfold UserRepository_GetUserById in E.
  unfold bindM at 1, zoomM at 1 in E. simpl in E.
  destruct (Get (cache_key id) (redis_client_ w)) as [og r1] eqn:Eg.
  destruct (Get_outcome _ _ _ _ Hcl Eg) as (Hcl1 & Hs1 & _ & Hog).
  set (w1 := mkRepoWorld (user_dao_ w) r1) in *.
  assert (repo_ok w1) as Hok1 by (split_and!; [done|done|simpl; by rewrite Hs1]).
  destruct og as [redis_res|e|]; [|by destruct Hog as [(? & ? & ?)|[(? & ?)|?]]|by injection E as <- <-].
  assert (∀ u, cache_hit redis_res = Ret (Some u) → Some u ≡ account (user_dao_ w) id) as Hhit.
  { intros u Hu. destruct Hog as [(t & _ & [= ->])|[(err & [= ->])|?]]; [|done..].
    by eapply cache_hit_account. }
  unfold bindM at 1, liftO in E.
  destruct (cache_hit_outcome redis_res) as (hit & Eh & Hhwf). rewrite Eh in E.
  destruct hit as [u|].
  { injection E as <- <-. split_and!; [done..|]. intros r [= <-]. split; [by apply Hhit|].
    intros u' [= <-]. by apply Hhwf. }
  unfold bindM at 1, zoomM at 1 in E. simpl in E.
  destruct (GetUserById id (user_dao_ w)) as [od d1] eqn:Ed.
  set (w2 := mkRepoWorld d1 r1) in *.
  destruct od as [res|e|]; [| |by injection E as <- <-].
  all: destruct (GetUserById_law _ _ _ _ Hok Ed) as (Hokd & Ha & Hp & Hr); [done|].
  all: assert (repo_ok w2) as Hok2
    by (split_and!; [done|done|simpl; rewrite Hs1; by eapply coherent_same]).
  2: { injection E as <- <-. split_and!; done. }
  destruct res as [[u|]|err].
  - destruct (Hr _ eq_refl) as [Hu Hwf]. specialize (Hwf u eq_refl).
    unfold bindM in E. destruct (fill_cache (cache_key id) u w2) as [ofl w3] eqn:Ef.
    destruct (fill_cache_outcome id u w2 ofl w3) as (Hok3 & Hd3 & Hof); [done| |done| |done|].
    { simpl. by rewrite Ha. }
    { by eapply (equiv_account_deleted u (user_dao_ w) id). }
    destruct Hof as [->| ->]; [|by injection E as <- <-].
    injection E as <- <-. rewrite Hd3. split_and!; [done..|]. intros r [= <-]. split; [done|].
    by intros u' [= <-].
  - injection E as <- <-. split_and!; [done..|]. intros r [= <-]. by split; [apply Hr|].
  - injection E as <- <-. split_and!; done.
Qed.
End coherence.

#[export, refine] Instance UserRepository_laws `{RedisLaws} `{JsonLaws} {D : Type} `{UserStoreLaws D} :
  UserStoreLaws (repo_world D) := {|
  store_ok := repo_ok;
  account w := account (user_dao_ w);
  account_by_phone w := account_by_phone (user_dao_ w);
  storable := storable
|}.
Proof.
  - intros w id u (Hok & _). by apply account_wf.
  - intros id w o w'. apply GetUserById_contract.
  - intros phone w o w' (Hok & Hcl & Hc). simpl. unfold UserRepository_GetUserByPhoneNumber, zoomM. simpl.
    destruct (GetUserByPhoneNumber phone (user_dao_ w)) as [o1 d1] eqn:E. intros [= <- <-] Ho.
    destruct (GetUserByPhoneNumber_law _ _ _ _ Hok E Ho) as (Hok1 & Ha & Hp & Hr).
    split; [|by split_and!]. split_and!; [done|done|]. by eapply coherent_same.
  - intros u w o w' (Hok & Hcl & Hc) Hwf. simpl. unfold UserRepository_CreateUser, zoomM. simpl.
    destruct (CreateUser u (user_dao_ w)) as [o1 d1] eqn:E. intros [= <- <-] Ho.
    destruct (CreateUser_law _ _ _ _ Hok Hwf E Ho) as (Hok1 & Ha & Hp & Hr).
    split; [|by split_and!]. split_and!; [done|done|].
    intros id text dl j v Hm Hj Hv. specialize (Hc id text dl j v Hm Hj Hv).
    destruct (account (user_dao_ w) id) as [v'|] eqn:Ea; [|by apply None_equiv_eq in Hc].
    simpl. by rewrite (Ha _ _ Ea).
  - intros u w w' (Hok & _) Hwf. simpl. unfold UserRepository_CreateUser, zoomM. simpl.
    destruct (CreateUser u (user_dao_ w)) as [o1 d1] eqn:E. intros [= -> _]. by apply (CreateUser_fresh _ _ _ Hok Hwf E).
Defined.

(** ** Properties *)

Section properties.
Context `{RedisLaws} `{JsonLaws} {D : Type} `{UserStoreLaws D}.
Implicit Types w : repo_world D.

(** C17: the cache is transparent: in every state in which the cache holds
    nothing but accounts, a lookup by id that returns gives what the database
    holds for that id, up to [≡] (the fields every caller reads are equal),
    whatever the cache answered, lost or corrupted; and the lookup, with the
    entry it writes, keeps the cache in such a state and the accounts as they are. *)
Theorem GetUserById_transparent (id : string) (w w' : repo_world D)
    (o : outcome (expected (option User) DbError))
    (Hok : repo_ok w) (Hrun : UserRepository_GetUserById id w = (o, w')) (Hdone : o ≠ Pending) :
  repo_ok w' ∧ (∀ k, account (user_dao_ w') k = account (user_dao_ w) k)
  ∧ ∀ r, o = Ret (Val r) → r ≡ account (user_dao_ w) id.
Proof.
  destruct (GetUserById_contract _ _ _ _ Hok Hrun Hdone) as (? & ? & _ & Hr).
  split_and!; [done..|]. intros r Hr'. by apply Hr.
Qed.

(** Redis is never needed: when it is down, has no entry, or has one that
    does not read as a user, a lookup by id returns exactly what the database's
    lookup returns, error or exception included, and filling the cache changes
    none of it. *)
Theorem GetUserById_fallback (id : string) (w : repo_world D) (r1 : redis_env) (d1 : D)
    (redis_res : expected (option string) RedisError) (od : outcome (expected (option User) DbError))
    (Hok : repo_ok w)
    (Hredis : Get (cache_key id) (redis_client_ w) = (Ret redis_res, r1))
    (Hmiss : cache_hit redis_res = Ret None)
    (Hdb : GetUserById id (user_dao_ w) = (od, d1)) (Hdone : od ≠ Pending) :
  ∃ o w', UserRepository_GetUserById id w = (o, w') ∧ user_dao_ w' = d1 ∧ (o = od ∨ o = Pending).
Proof.
  unfold UserRepository_GetUserById. unfold bindM at 1, zoomM at 1. simpl. rewrite Hredis.
  unfold bindM at 1, liftO. rewrite Hmiss. unfold bindM at 1, zoomM at 1. simpl. rewrite Hdb.
  pose proof Hok as (Hst & Hcl & Hc). destruct (Get_outcome _ _ _ _ Hcl Hredis) as (Hcl1 & Hs1 & _).
  destruct od as [[[u|]|err]|e|]; [|by do 2 eexists; auto..|done].
  destruct (GetUserById_law _ _ _ _ Hst Hdb Hdone) as (Hok1 & Ha & _ & Hr).
  destruct (Hr _ eq_refl) as [Hu Hwf]. specialize (Hwf u eq_refl).
  set (w2 := mkRepoWorld d1 r1). unfold bindM.
  destruct (fill_cache (cache_key id) u w2) as [ofl w3] eqn:Ef.
  destruct (fill_cache_outcome id u w2 ofl w3) as (_ & Hd3 & Hof); [| |done| |done|].
  - split_and!; [done|done|]. simpl. rewrite Hs1. by eapply coherent_same.
  - simpl. by rewrite Ha.
  - by eapply (equiv_account_deleted u (user_dao_ w) id).
  - destruct Hof as [->| ->]; do 2 eexists; auto.
Qed.

(** Verification codes and cached users share one Redis and never touch
    each other: saving a code, for whatever usage and number, leaves the cache
    of users as true as it was. *)
Theorem SaveCode_keeps_user_cache (u : CodeUsage) (phone code : string) (expiry : Z)
    (w : repo_world D) (o : outcome ()) (r' : redis_env)
    (Hok : repo_ok w) (Hpos : 0 < expiry) (Hrange : in_s 32 expiry)
    (Hrun : SaveCode u phone code expiry (redis_client_ w) = (o, r')) :
  repo_ok (mkRepoWorld (user_dao_ w) r').
Proof.
  destruct Hok as (Hst & Hcl & Hc).
  destruct (SaveCode_outcome _ _ _ _ _ _ _ Hpos Hrange Hcl Hrun) as (Hcl' & _ & _ & Hs).
  split_and!; [done|done|]. simpl. destruct Hs as [->|(k & t & Hk & _ & ->)]; [done|].
  intros id text dl j v Hm. rewrite lookup_insert_ne in Hm by by eapply code_key_not_user.
  by apply (Hc id text dl).
Qed.
End properties.

(** A cached user whose entry is older than a whole second. *)
Definition example_db : list User := [example_user].
Definition example_repo (up : bool) : repo_world (list User) :=
  mkRepoWorld example_db
    (mkRedisEnv example_client
       (mkRedisToy {[ cache_key "u1" := (tree_text (ToJson example_user), Some 4600) ]} 1000 up)).

Lemma example_repo_ok up : repo_ok (example_repo up).
Proof.
  split_and!; [|apply example_client_wf|].
  - repeat constructor; try apply (bool_decide_unpack _); done.
  - intros id text dl j u Hm Hj Hu. simpl in Hm. unfold env_store in Hm. simpl in Hm.
    apply lookup_singleton_Some in Hm as [Hid%(inj cache_key) [= <- <-]]. subst id.
    destruct (@json_parse_dump json_tree json_tree_laws (ToJson example_user) _ eq_refl) as (j' & Hj' & He).
    pose proof (eq_trans (eq_sym Hj) Hj') as E. injection E as ->.
    rewrite (FromJson_proper _ _ He), FromJson_ToJson_eq in Hu by by apply (bool_decide_unpack _).
    injection Hu as <-. constructor. by apply cached_equiv.
Qed.

Lemma GetUserById_transparent_witness :
  let w := example_repo true in let w' := (UserRepository_GetUserById "u1" w).2 in
  let o := (UserRepository_GetUserById "u1" w).1 in
  repo_ok w' ∧ (∀ k, account (user_dao_ w') k = account (user_dao_ w) k)
  ∧ ∀ r, o = Ret (Val r) → r ≡ account (user_dao_ w) "u1".
Proof.
  apply (GetUserById_transparent "u1" (example_repo true)).
  - apply example_repo_ok.
  - apply surjective_pairing.
  - vm_compute. discriminate.
Defined.

Lemma GetUserById_fallback_witness :
  let w := example_repo false in
  ∃ o w', UserRepository_GetUserById "u1" w = (o, w') ∧ user_dao_ w' = example_db
    ∧ (o = Ret (Val (Some example_user)) ∨ o = Pending).
Proof.
  apply (GetUserById_fallback "u1" (example_repo false) (Get (cache_key "u1") (redis_client_ (example_repo false))).2
           example_db (SystemFailure "GET exception: not connected (Key: user:info:u1)")).
  - apply example_repo_ok.
  - reflexivity.
  - reflexivity.
  - reflexivity.
  - discriminate.
Defined.

Lemma SaveCode_keeps_user_cache_witness :
  repo_ok (mkRepoWorld example_db
    (SaveCode USER_LOGIN "138" "042137" 300 (redis_client_ (example_repo true))).2).
Proof.
  apply (SaveCode_keeps_user_cache USER_LOGIN "138" "042137" 300 (example_repo true) (Ret ())).
  - apply example_repo_ok.
  - lia.
  - apply (bool_decide_unpack _). reflexivity.
  - reflexivity.
Defined.
