(* ===== verification/Utils.v ===== *)
(** * Utils: identifiers, codes and passwords (utils/)

    Three of the utilities the services use; tokens are in JwtUtil.  Random
    sources, the clock, the hash, the hex encoder and the uuid printer are
    parameters. *)

From stdpp Require Import base tactics option strings numbers list.
From Stdlib Require Import Ascii.
From S2P Require Import Prelude Text Model User Interfaces.

Open Scope string_scope.
Open Scope Z_scope.
Open Scope photon_scope.

(** ** Clock and random sources *)

(** [std::chrono::system_clock::now()], in nanoseconds. *)
Class Clock (W : Type) := { now_read : W → Z * W }.
Definition now {W} `{Clock W} : M W Z := fun w => let '(t, w') := now_read w in (Ret t, w').

Class ClockLaws (W : Type) `{Clock W} := {
  time_of : W → Z;
  now_read_law w : time_of w ≤ (now_read w).1 ≤ time_of (now_read w).2
}.

(** [dist(generator)]: a 32-bit word, a decimal digit, a block of bytes. *)
Class Random (W : Type) := {
  random_u32 : W → Z * W;
  random_digit : W → Z * W;
  random_block : nat → W → list Z * W
}.

Class RandomLaws (W : Type) `{Random W} : Prop := {
  random_u32_range w : 0 ≤ (random_u32 w).1 < 2 ^ 32;
  random_digit_range w : 0 ≤ (random_digit w).1 ≤ 9;
  random_block_length n w : length (random_block n w).1 = n;
  random_block_bytes n w : Forall (λ x, 0 ≤ x < 256) (random_block n w).1
}.

Definition drawM {W A} (f : W → A * W) : M W A := fun w => let '(a, w') := f w in (Ret a, w').

(** A world with a clock and a counter for a random source. *)
Definition toy_world : Type := Z * Z.
#[export] Instance toy_clock : Clock toy_world := {| now_read w := (w.1, w) |}.
#[export] Instance toy_random : Random toy_world := {|
  random_u32 w := (w.2 mod 2 ^ 32, (w.1, w.2 + 1));
  random_digit w := (w.2 mod 10, (w.1, w.2 + 1));
  random_block n w := (replicate n (w.2 mod 256), (w.1, w.2 + 1))
|}.

#[export] Instance toy_random_laws : RandomLaws toy_world.
Proof.
  split; simpl.
  - intros w. by apply Z.mod_pos_bound.
  - intros w. pose proof (Z.mod_pos_bound w.2 10 ltac:(lia)). lia.
  - intros n w. apply length_replicate.
  - intros n w. by apply Forall_replicate, Z.mod_pos_bound.
Qed.

#[export] Instance toy_clock_laws : ClockLaws toy_world.
Proof. refine (@Build_ClockLaws toy_world _ fst _). intros w. simpl. lia. Defined.

(** ** id_generator.cc *)

Module IdGenerator.

(** [duration_cast<milliseconds>]: truncation towards zero. *)
Definition to_millis (ns : Z) : Z := Z.quot ns 1000000.

(** [(x >> n) & 0xFF], stored in a byte. *)
Definition byte_at (x n : Z) : Z := Z.land (Z.shiftr x n) 255.

(** The 16 bytes of the buffer, version and variant set. *)
Definition buffer (timestamp rand1 rand2 rand3 : Z) : list Z :=
  [ byte_at timestamp 40; byte_at timestamp 32; byte_at timestamp 24;
    byte_at timestamp 16; byte_at timestamp 8; byte_at timestamp 0;
    Z.lor (Z.land (byte_at rand1 24) 15) 112; byte_at rand1 16;
    Z.lor (Z.land (byte_at rand1 8) 63) 128; byte_at rand1 0;
    byte_at rand2 24; byte_at rand2 16; byte_at rand2 8; byte_at rand2 0;
    byte_at rand3 24; byte_at rand3 16 ].

Definition GenerateUUID {W} `{Clock W, Random W} (uuid_to_string : list Z → string) : M W string :=
  let* ns := now in
  let timestamp := to_millis ns in
  let* rand1 := drawM random_u32 in
  let* rand2 := drawM random_u32 in
  let* rand3 := drawM random_u32 in
  retM (uuid_to_string (buffer timestamp rand1 rand2 rand3)).

(** The number a sequence of bytes spells, most significant first. *)
Definition be (l : list Z) : Z := foldl (λ acc b, acc * 256 + b) 0 l.

Lemma byte_at_range x n : 0 ≤ byte_at x n < 256.
Proof.
  unfold byte_at. change 255 with (Z.ones 8). rewrite Z.land_ones by lia.
  by apply Z.mod_pos_bound.
Qed.

Lemma byte_at_spec x n : 0 ≤ n → byte_at x n = x / 2 ^ n mod 256.
Proof.
  intros Hn. unfold byte_at. change 255 with (Z.ones 8).
  by rewrite Z.land_ones, Z.shiftr_div_pow2 by lia.
Qed.

(** A fact about every byte is a computation. *)
Lemma byte_forall (P : Z → bool) :
  forallb (λ n, P (Z.of_nat n)) (seq 0 256) = true → ∀ x, 0 ≤ x < 256 → P x = true.
Proof.
  intros HP x Hx. rewrite forallb_forall in HP. rewrite <- (Z2Nat.id x) by lia.
  apply HP, in_seq. lia.
Qed.

Lemma version_byte x : 0 ≤ x < 256 → Z.lor (Z.land x 15) 112 = 112 + x mod 16.
Proof. intros Hx. apply Z.eqb_eq. revert x Hx. by apply byte_forall. Qed.

Lemma variant_byte x : 0 ≤ x < 256 → Z.lor (Z.land x 63) 128 = 128 + x mod 64.
Proof. intros Hx. apply Z.eqb_eq. revert x Hx. by apply byte_forall. Qed.

(** The first six bytes spell the low 48 bits of the timestamp. *)
Lemma be_timestamp x :
  be [byte_at x 40; byte_at x 32; byte_at x 24; byte_at x 16; byte_at x 8; byte_at x 0] = x mod 2 ^ 48.
Proof.
  unfold be. simpl. rewrite !byte_at_spec by lia.
  change (2 ^ 40) with 1099511627776. change (2 ^ 32) with 4294967296. change (2 ^ 24) with 16777216.
  change (2 ^ 16) with 65536. change (2 ^ 8) with 256. change (2 ^ 0) with 1. change (2 ^ 48) with 281474976710656.
  Z.div_mod_to_equations. lia.
Qed.

Lemma be_app l l' : be (l ++ l') = be l * 256 ^ Z.of_nat (length l') + be l'.
Proof.
  unfold be. rewrite foldl_app. generalize (foldl (λ acc b, acc * 256 + b) 0 l). intros a.
  assert (∀ acc, foldl (λ acc b, acc * 256 + b) acc l' = acc * 256 ^ Z.of_nat (length l')
          + foldl (λ acc b, acc * 256 + b) 0 l') as H; [|apply H].
  induction l' as [|b l' IH]; intros acc; simpl; [lia|].
  rewrite (IH (acc * 256 + b)), (IH (0 * 256 + b)). rewrite Nat2Z.inj_succ, Z.pow_succ_r by lia. lia.
Qed.

Lemma be_range l : Forall (λ b, 0 ≤ b < 256) l → 0 ≤ be l < 256 ^ Z.of_nat (length l).
Proof.
  induction l as [|b l IH] using rev_ind; intros Hl; [by vm_compute|].
  apply Forall_app in Hl as [Hl Hb]. rewrite Forall_singleton in Hb. specialize (IH Hl).
  rewrite be_app, length_app. replace (be [b]) with b by (unfold be; simpl; lia).
  simpl length. rewrite Nat2Z.inj_add, Z.pow_add_r by lia. change (256 ^ Z.of_nat 1) with 256. nia.
Qed.

(** Every byte of the buffer is one. *)
Lemma buffer_bytes t r1 r2 r3 : Forall (λ b, 0 ≤ b < 256) (buffer t r1 r2 r3).
Proof.
  unfold buffer. rewrite version_byte, variant_byte by apply byte_at_range.
  repeat (apply Forall_cons; split; [try apply byte_at_range|]); [| |by constructor].
  - pose proof (Z.mod_pos_bound (byte_at r1 24) 16 ltac:(lia)). lia.
  - pose proof (Z.mod_pos_bound (byte_at r1 8) 64 ltac:(lia)). lia.
Qed.

Lemma buffer_be t r1 r2 r3 :
  ∃ low, 0 ≤ low < 2 ^ 80 ∧ be (buffer t r1 r2 r3) = (t mod 2 ^ 48) * 2 ^ 80 + low.
Proof.
  exists (be (drop 6 (buffer t r1 r2 r3))). split.
  - apply (be_range (drop 6 (buffer t r1 r2 r3))). apply Forall_drop, buffer_bytes.
  - rewrite <- (take_drop 6 (buffer t r1 r2 r3)) at 1. rewrite be_app. f_equal.
    change (take 6 (buffer t r1 r2 r3)) with
      [byte_at t 40; byte_at t 32; byte_at t 24; byte_at t 16; byte_at t 8; byte_at t 0].
    by rewrite be_timestamp.
Qed.

(** The shape of a version-7 UUID of millisecond [t]. *)
Definition uuid_v7 (t : Z) (b : list Z) : Prop :=
  length b = 16%nat ∧ Forall (λ x, 0 ≤ x < 256) b ∧ be (take 6 b) = t
  ∧ ∃ x y, b !! 6%nat = Some x ∧ Z.shiftr x 4 = 7 ∧ b !! 8%nat = Some y ∧ Z.shiftr y 6 = 2.

Lemma buffer_uuid_v7 t r1 r2 r3 : 0 ≤ t < 2 ^ 48 → uuid_v7 t (buffer t r1 r2 r3).
Proof.
  intros Ht. split; [done|]. split; [apply buffer_bytes|]. split.
  { change (take 6 (buffer t r1 r2 r3)) with
      [byte_at t 40; byte_at t 32; byte_at t 24; byte_at t 16; byte_at t 8; byte_at t 0].
    by rewrite be_timestamp, Z.mod_small. }
  exists (112 + byte_at r1 24 mod 16), (128 + byte_at r1 8 mod 64).
  rewrite !Z.shiftr_div_pow2 by lia. change (2 ^ 4) with 16. change (2 ^ 6) with 64.
  split; [rewrite <- version_byte by apply byte_at_range; done|].
  split; [Z.div_mod_to_equations; lia|].
  split; [rewrite <- variant_byte by apply byte_at_range; done|].
  Z.div_mod_to_equations; lia.
Qed.

Section properties.
Context {W} `{Clock W} `{Random W}.

(** C38: an identifier is a version-7 UUID: sixteen bytes whose first 48 bits are
    the millisecond clock when it was made, whose version is 7 and whose variant
    is 10; and identifiers are ordered by time, so that one made in a later
    millisecond is always different and larger, whatever the random numbers. *)
Theorem GenerateUUID_v7 (uuid_to_string : list Z → string) (w1 w2 : W)
    (Hrange1 : 0 ≤ to_millis (now_read w1).1 < 2 ^ 48)
    (Hrange2 : 0 ≤ to_millis (now_read w2).1 < 2 ^ 48) :
  ∃ b1 b2, (GenerateUUID uuid_to_string w1).1 = Ret (uuid_to_string b1)
    ∧ (GenerateUUID uuid_to_string w2).1 = Ret (uuid_to_string b2)
    ∧ uuid_v7 (to_millis (now_read w1).1) b1 ∧ uuid_v7 (to_millis (now_read w2).1) b2
    ∧ (to_millis (now_read w1).1 < to_millis (now_read w2).1 → be b1 < be b2).
Proof.
  assert (∀ w, ∃ r1 r2 r3, (GenerateUUID uuid_to_string w).1
            = Ret (uuid_to_string (buffer (to_millis (now_read w).1) r1 r2 r3))) as Hrun.
  { intros w. unfold GenerateUUID, bindM, now, drawM. destruct (now_read w) as [t w0]. simpl.
    destruct (random_u32 w0) as [r1 w3], (random_u32 w3) as [r2 w4], (random_u32 w4) as [r3 w5]. by exists r1, r2, r3. }
  destruct (Hrun w1) as (r1 & r2 & r3 & E1), (Hrun w2) as (r1' & r2' & r3' & E2).
  do 2 eexists. split; [exact E1|]. split; [exact E2|].
  split; [by apply buffer_uuid_v7|]. split; [by apply buffer_uuid_v7|]. intros Hlt.
  destruct (buffer_be (to_millis (now_read w1).1) r1 r2 r3) as (l & Hl & ->).
  destruct (buffer_be (to_millis (now_read w2).1) r1' r2' r3') as (l' & Hl' & ->).
  rewrite !Z.mod_small by done. nia.
Qed.
End properties.

Lemma GenerateUUID_v7_witness :
  let p := (λ _, EmptyString) : list Z → string in
  let w1 := (1764151200000000000, 5) : toy_world in let w2 := (1764151200001000000, 5) : toy_world in
  ∃ b1 b2, (GenerateUUID p w1).1 = Ret (p b1) ∧ (GenerateUUID p w2).1 = Ret (p b2)
    ∧ uuid_v7 (to_millis (now_read w1).1) b1 ∧ uuid_v7 (to_millis (now_read w2).1) b2
    ∧ (to_millis (now_read w1).1 < to_millis (now_read w2).1 → be b1 < be b2).
Proof.
  apply (GenerateUUID_v7 (λ _, EmptyString) (1764151200000000000, 5) (1764151200001000000, 5)).
  - apply (bool_decide_unpack _). reflexivity.
  - apply (bool_decide_unpack _). reflexivity.
Defined.
End IdGenerator.

(** ** verification_code_generator.cc *)

Module CodeGenerator.
Section generator.
Context {W} `{Random W}.

(** [digit + '0'] *)
Definition digit_to_char (d : Z) : ascii := ascii_of_nat (Z.to_nat (48 + d)).

(** [n] iterations left; [code] is the text so far. *)
Fixpoint Generate_loop (n : nat) (code : string) : M W string :=
  match n with
  | O => retM code
  | S n' =>
      let* digit := drawM random_digit in
      Generate_loop n' (code +:+ String (digit_to_char digit) EmptyString)
  end.

(** [code.reserve(length)] converts a negative length to a size no string can
    have. *)
Definition Generate (length : Z) : M W string :=
  if length <? 0 then throwM (Exn length_error "basic_string::reserve")
  else Generate_loop (Z.to_nat length) EmptyString.

Fixpoint all_digits (s : string) : bool :=
  match s with EmptyString => true | String c s' => is_digit c && all_digits s' end.

Lemma all_digits_app a b : all_digits (a +:+ b) = all_digits a && all_digits b.
Proof. induction a as [|c a IH]; [done|]. simpl. rewrite <- andb_assoc. by rewrite <- IH. Qed.

Lemma digit_to_char_digit d : 0 ≤ d ≤ 9 → is_digit (digit_to_char d) = true.
Proof.
  intros Hd. assert (d = 0 ∨ d = 1 ∨ d = 2 ∨ d = 3 ∨ d = 4 ∨ d = 5 ∨ d = 6 ∨ d = 7 ∨ d = 8 ∨ d = 9)
    as Hc by lia. by destruct_or? Hc; subst.
Qed.

Lemma Generate_loop_spec `{!RandomLaws W} n code w :
  all_digits code = true →
  ∃ s w', Generate_loop n code w = (Ret s, w') ∧ all_digits s = true
    ∧ String.length s = (String.length code + n)%nat.
Proof.
  revert code w. induction n as [|n IH]; intros code w Hc; simpl.
  { exists code, w. split; [done|]. split; [done|lia]. }
  unfold bindM, drawM. pose proof (random_digit_range w) as Hr. destruct (random_digit w) as [d w1].
  destruct (IH (code +:+ String (digit_to_char d) EmptyString) w1) as (s & w' & E & Hs & Hl).
  { rewrite all_digits_app, Hc. simpl. by rewrite digit_to_char_digit. }
  exists s, w'. rewrite E, Hl, str_length_app. split; [done|]. split; [done|]. simpl. lia.
Qed.

(** A verification code has exactly the length asked for and holds decimal
    digits only; a negative length is an exception, and nothing is drawn. *)
Theorem Generate_spec `{!RandomLaws W} (length : Z) (w : W) :
  if length <? 0 then ∃ e, Generate length w = (Throw e, w) ∧ exn_cls e = length_error
  else ∃ code w', Generate length w = (Ret code, w') ∧ all_digits code = true
         ∧ Z.of_nat (String.length code) = length.
Proof.
  unfold Generate. destruct (Z.ltb_spec length 0) as [?|Hl]; [by eexists|].
  destruct (Generate_loop_spec (Z.to_nat length) EmptyString w eq_refl) as (s & w' & E & Hs & Hlen).
  exists s, w'. split; [done|]. split; [done|]. rewrite Hlen. simpl. lia.
Qed.
End generator.

Lemma Generate_spec_witness :
  let w := (0, 7) : toy_world in
  if 6 <? 0 then ∃ e, Generate 6 w = (Throw e, w) ∧ exn_cls e = length_error
  else ∃ code w', Generate 6 w = (Ret code, w') ∧ all_digits code = true
         ∧ Z.of_nat (String.length code) = 6.
Proof. apply (Generate_spec 6 (0, 7)). Defined.
End CodeGenerator.

(** ** security_util.cc *)

(** Crypto++: the digest, the hex encoder, the constant-time comparison. *)
Class CryptoLib := {
  SHA256 : string → list Z;
  HexEncode : list Z → string;
  VerifyBufsEqual : string → string → nat → bool
}.
Class CryptoLaws `{CryptoLib} : Prop := {
  VerifyBufsEqual_law a b n :
    String.length a = n → String.length b = n → VerifyBufsEqual a b n = bool_decide (a = b);
  HexEncode_inj l l' :
    Forall (λ x, 0 ≤ x < 256) l → Forall (λ x, 0 ≤ x < 256) l' → HexEncode l = HexEncode l' → l = l';
  (** two digits per byte *)
  HexEncode_text l :
    Forall (λ x, 0 ≤ x < 256) l → printable (HexEncode l) = true ∧ String.length (HexEncode l) = (2 * length l)%nat;
  SHA256_digest s : length (SHA256 s) = 32%nat ∧ Forall (λ x, 0 ≤ x < 256) (SHA256 s)
}.

Module SecurityUtil.
Section security.
Context `{CryptoLib}.

Definition GenerateSalt {W} `{Random W} : M W string :=
  let* salt := drawM (random_block 16) in retM (HexEncode salt).

Definition HashPassword (raw_password salt : string) : string :=
  let input := raw_password +:+ salt in HexEncode (SHA256 input).

Definition VerifyPassword (raw_password salt stored_hash : string) : bool :=
  let calculated_hash := HashPassword raw_password salt in
  if bool_decide (String.length calculated_hash ≠ String.length stored_hash) then false
  else VerifyBufsEqual calculated_hash stored_hash (String.length stored_hash).

Lemma VerifyPassword_eq `{!CryptoLaws} p s h :
  VerifyPassword p s h = bool_decide (h = HashPassword p s).
Proof.
  unfold VerifyPassword. case_bool_decide as Hl.
  - symmetry. apply bool_decide_eq_false_2. intros ->. by apply Hl.
  - rewrite VerifyBufsEqual_law by done. apply bool_decide_ext. split; congruence.
Qed.
End security.

#[export] Instance SecurityUtil_instance `{CryptoLib} {W} `{Random W} : ISecurityUtil W := {|
  Interfaces.GenerateSalt := GenerateSalt;
  Interfaces.HashPassword := HashPassword;
  Interfaces.VerifyPassword := VerifyPassword
|}.

(** What the columns of salt and hash are given. *)
Lemma GenerateSalt_text `{CryptoLaws} {W} `{RandomLaws W} (w w' : W) salt :
  GenerateSalt w = (Ret salt, w') → printable salt = true ∧ String.length salt = 32%nat.
Proof.
  unfold GenerateSalt, bindM, drawM, retM. pose proof (random_block_length 16 w) as Hl.
  pose proof (random_block_bytes 16 w) as Hb. destruct (random_block 16 w) as [l w1]. intros [= <- _].
  destruct (HexEncode_text l Hb) as [Hp ->]. simpl in Hl. split; [done|]. lia.
Qed.

Lemma HashPassword_text `{CryptoLaws} p s :
  printable (HashPassword p s) = true ∧ String.length (HashPassword p s) = 64%nat.
Proof.
  unfold HashPassword. destruct (SHA256_digest (p +:+ s)) as [Hl Hb].
  destruct (HexEncode_text _ Hb) as [Hp ->]. split; [done|]. lia.
Qed.

Section properties.
Context `{CryptoLaws}.

(** A password verifies against a stored hash exactly when hashing it with
    the stored salt gives that hash, so the password that was registered always
    verifies; and only the concatenation counts: moving characters from the end
    of the password to the front of the salt changes nothing. *)
Theorem VerifyPassword_spec (p s h suffix : string) :
  (VerifyPassword p s h = true ↔ h = HashPassword p s)
  ∧ VerifyPassword p s (HashPassword p s) = true
  ∧ HashPassword (p +:+ suffix) s = HashPassword p (suffix +:+ s).
Proof.
  rewrite !VerifyPassword_eq. split; [apply bool_decide_eq_true|].
  split; [by apply bool_decide_eq_true|]. unfold HashPassword. by rewrite str_app_assoc.
Qed.
End properties.

(** A toy digest and the hexadecimal encoder. *)
Definition hex_char (d : Z) : ascii := ascii_of_nat (Z.to_nat (if d <? 10 then 48 + d else 55 + d)).
Fixpoint hex (l : list Z) : string :=
  match l with [] => EmptyString | b :: l' => String (hex_char (b / 16)) (String (hex_char (b mod 16)) (hex l')) end.
Fixpoint char_codes (s : string) : list Z :=
  match s with EmptyString => [] | String c s' => Z.of_nat (nat_of_ascii c) :: char_codes s' end.

Definition toy_digest (s : string) : list Z := take 32 (char_codes s ++ replicate 32 0).

Definition toy_crypto : CryptoLib := {|
  SHA256 := toy_digest;
  HexEncode := hex;
  VerifyBufsEqual a b _ := bool_decide (a = b)
|}.

Lemma hex_char_inj d d' : 0 ≤ d < 16 → 0 ≤ d' < 16 → hex_char d = hex_char d' → d = d'.
Proof.
  intros Hd Hd' E. apply (f_equal nat_of_ascii) in E. unfold hex_char in E.
  rewrite !nat_ascii_embedding in E by (destruct (Z.ltb_spec d 10), (Z.ltb_spec d' 10); lia).
  destruct (Z.ltb_spec d 10), (Z.ltb_spec d' 10); lia.
Qed.

Lemma hex_char_printable d :
  0 ≤ d < 16 → ((32 <=? nat_of_ascii (hex_char d)) && (nat_of_ascii (hex_char d) <? 127))%nat%bool = true.
Proof.
  intros Hd. unfold hex_char. rewrite nat_ascii_embedding by (destruct (Z.ltb_spec d 10); lia).
  destruct (Z.ltb_spec d 10); apply andb_true_intro; split; [apply Nat.leb_le|apply Nat.ltb_lt|apply Nat.leb_le|apply Nat.ltb_lt]; lia.
Qed.

Lemma char_codes_bytes s : Forall (λ x, 0 ≤ x < 256) (char_codes s).
Proof.
  induction s as [|c s IH]; simpl; [constructor|]. constructor; [|done]. pose proof (nat_ascii_bounded c). lia.
Qed.

#[local] Instance toy_crypto_laws : @CryptoLaws toy_crypto.
Proof.
  split; simpl; [done|..].
  - intros l. induction l as [|b l IH]; intros [|b' l'] Hl Hl' E; try done.
    apply Forall_cons in Hl as [Hb Hl]. apply Forall_cons in Hl' as [Hb' Hl'].
    injection E as E1 E2 E3. f_equal; [|by apply IH].
    apply hex_char_inj in E1; [|Z.div_mod_to_equations; lia..].
    apply hex_char_inj in E2; [|Z.div_mod_to_equations; lia..].
    Z.div_mod_to_equations. lia.
  - induction 1 as [|b l Hb _ [IH1 IH2]]; [done|]. cbn [hex printable String.length length].
    rewrite !hex_char_printable, IH1, IH2 by (Z.div_mod_to_equations; lia). split; [done|]. lia.
  - intros s. unfold toy_digest. split; [rewrite length_take, length_app, length_replicate; lia|].
    apply Forall_take, Forall_app. split; [apply char_codes_bytes|]. apply Forall_replicate. lia.
Qed.

Lemma VerifyPassword_spec_witness :
  let h := @HashPassword toy_crypto "secret" "00FF" in
  (@VerifyPassword toy_crypto "secret" "00FF" h = true ↔ h = @HashPassword toy_crypto "secret" "00FF")
  ∧ @VerifyPassword toy_crypto "secret" "00FF" (@HashPassword toy_crypto "secret" "00FF") = true
  ∧ @HashPassword toy_crypto ("secret" +:+ "0") "0FF" = @HashPassword toy_crypto "secret" ("0" +:+ "0FF").
Proof.
  split; [|split].
  - apply (@VerifyPassword_spec toy_crypto toy_crypto_laws "secret" "00FF" _ "").
  - apply (@VerifyPassword_spec toy_crypto toy_crypto_laws "secret" "00FF" "" "").
  - apply (@VerifyPassword_spec toy_crypto toy_crypto_laws "secret" "0FF" "" "0").
Defined.
End SecurityUtil.
