(* ===== verification/JwtUtil.v ===== *)
(** * JwtUtil: tokens (utils/src/jwt_util.cc)

    Issuing and verifying the bearer tokens.  jwt-cpp is the parameter
    [JwtLib], with what its documentation says of signing, decoding and
    verifying as laws. *)

From stdpp Require Import base tactics option strings numbers countable list.
From S2P Require Import Prelude Text Model JsonTree User Interfaces Utils.

Open Scope string_scope.
Open Scope Z_scope.
Open Scope photon_scope.

(** The claims the source sets; time points are nanoseconds. *)
Record jwt_claims := mkClaims {
  claim_issuer : string;
  claim_type : string;
  claim_payload : string * string;
  claim_issued_at : Z;
  claim_expires_at : Z
}.

Class JwtLib := {
  jwt_decoded : Type;
  jwt_sign : string → jwt_claims → string;
  jwt_decode : string → outcome jwt_decoded;
  has_expires_at : jwt_decoded → bool;
  get_expires_at : jwt_decoded → outcome Z;
  (** [verify().allow_algorithm(hs256{secret}).with_issuer(issuer).verify(d)]
      at an instant *)
  jwt_verify : string → string → Z → jwt_decoded → outcome ();
  has_payload_claim : jwt_decoded → string → bool;
  get_payload_claim_string : jwt_decoded → string → outcome string
}.

(** NumericDate: whole seconds. *)
Definition numeric_date (ns : Z) : Z := to_seconds ns * ns_per_s.

Definition total_std {A} (o : outcome A) : Prop := (∃ a, o = Ret a) ∨ ∃ e, o = Throw e ∧ is_std_exception e = true.

Class JwtLaws `{JwtLib} : Prop := {
  jwt_decode_total t : total_std (jwt_decode t);
  get_expires_at_total d : total_std (get_expires_at d);
  jwt_verify_total k i n d : total_std (jwt_verify k i n d);
  get_payload_claim_total d c : total_std (get_payload_claim_string d c);
  (** a token that was signed decodes to its claims, dates in whole seconds, and
      verifies with the same key for its issuer from its issue to its expiry *)
  jwt_sign_law k c :
    ∃ d, jwt_decode (jwt_sign k c) = Ret d
      ∧ has_expires_at d = true ∧ get_expires_at d = Ret (numeric_date (claim_expires_at c))
      ∧ has_payload_claim d (claim_payload c).1 = true
      ∧ get_payload_claim_string d (claim_payload c).1 = Ret (claim_payload c).2
      ∧ ∀ n, numeric_date (claim_issued_at c) ≤ n ≤ numeric_date (claim_expires_at c) →
             jwt_verify k (claim_issuer c) n d = Ret ()
}.

Section jwt.
Context `{JwtLib} {W : Type} `{Clock W}.

Record JwtConfig := mkJwtConfig { jc_secret_key : string; jc_issuer : string; jc_expiration_seconds : Z }.

Record JwtUtil := mkJwtUtil { secret_key_ : string; issuer_ : string; expiration_seconds_ : Z }.

Definition JwtUtil_make (config : JwtConfig) : JwtUtil :=
  mkJwtUtil (jc_secret_key config) (jc_issuer config) (jc_expiration_seconds config).

Definition CLAIM_USER_ID : string := "user_id".
Definition TOKEN_TYPE : string := "JWS".

Definition JwtUtil_GenerateToken (this : JwtUtil) (user_id : string) : M W string :=
  let* t := now in
  retM (jwt_sign (secret_key_ this)
          (mkClaims (issuer_ this) TOKEN_TYPE (CLAIM_USER_ID, user_id) t
             (t + expiration_seconds_ this * ns_per_s))).

(** The check of the expiry that comes first. *)
Definition is_expired (d : jwt_decoded) : M W bool :=
  if has_expires_at d then
    let* t := now in
    let* e := liftO (get_expires_at d) in
    retM (e <? t)
  else retM false.

Definition JwtUtil_VerifyToken (this : JwtUtil) (token : string) : M W (expected string JwtError) :=
  tryM (let* decoded := liftO (jwt_decode token) in
        let* expired := is_expired decoded in
        if expired then retM (Unexpected TokenExpired)
        else
          let* t := now in
          do* liftO (jwt_verify (secret_key_ this) (issuer_ this) t decoded) in
          if has_payload_claim decoded CLAIM_USER_ID then
            let* user_id := liftO (get_payload_claim_string decoded CLAIM_USER_ID) in
            retM (Val user_id)
          else retM (Unexpected FormatInvalid))
    is_std_exception (fun _ => retM (Unexpected SignatureInvalid)).

(** The overload on [std::string_view] copies its argument. *)
Definition JwtUtil_VerifyToken_view (this : JwtUtil) (token : string) : M W (expected string JwtError) :=
  JwtUtil_VerifyToken this token.

Definition JwtUtil_instance (this : JwtUtil) : IJwtUtil W := {|
  GenerateToken := JwtUtil_GenerateToken this;
  VerifyToken := JwtUtil_VerifyToken this
|}.
End jwt.

(** ** Lemmas *)

Section lemmas.
Context `{JwtLaws} {W : Type} `{ClockLaws W}.
Implicit Types w : W.

Lemma bind_now {A} (k : Z → M W A) w : bindM now k w = k (now_read w).1 (now_read w).2.
Proof. unfold bindM, now. by destruct (now_read w). Qed.

(** Everything VerifyToken can do: an identity only after the signature and
    issuer verified and from the claim itself; otherwise an error. *)
Lemma VerifyToken_outcome this token w :
  ∃ r w', JwtUtil_VerifyToken this token w = (Ret r, w') ∧
    match r with
    | Val uid =>
        ∃ d n, jwt_decode token = Ret d ∧ time_of w ≤ n
          ∧ (has_expires_at d = true → ∃ e t, get_expires_at d = Ret e ∧ time_of w ≤ t ≤ e)
          ∧ jwt_verify (secret_key_ this) (issuer_ this) n d = Ret ()
          ∧ get_payload_claim_string d CLAIM_USER_ID = Ret uid
    | Unexpected e => e ≠ InternalError
    end.
Proof.
  unfold JwtUtil_VerifyToken, tryM, bindM at 1, liftO at 1.
  destruct (jwt_decode_total token) as [[d Ed]|(e & Ee & He)]; [rewrite Ed|rewrite Ee, He; by do 2 eexists].
  assert (∃ o w1, is_expired d w = (o, w1) ∧ time_of w ≤ time_of w1 ∧
    ((o = Ret true ∨ ∃ e, o = Throw e ∧ is_std_exception e = true)
     ∨ o = Ret false ∧ (has_expires_at d = true →
         ∃ e t, get_expires_at d = Ret e ∧ time_of w ≤ t ≤ e))) as (o & w1 & E1 & Hw1 & Ho).
  { unfold is_expired. destruct (has_expires_at d); [|exists (Ret false), w; split; [done|]; split; [lia|by right]].
    rewrite bind_now. pose proof (now_read_law w) as Ht. unfold bindM, liftO.
    destruct (get_expires_at_total d) as [[e Ee]|(e & Ee & He)]; rewrite Ee.
    - do 2 eexists. split; [done|]. split; [lia|].
      destruct (Z.ltb_spec e (now_read w).1); [by left; left|right]. split; [done|].
      intros _. exists e, (now_read w).1. split; [done|lia].
    - do 2 eexists. split; [done|]. split; [lia|]. left. right. by eexists. }
  unfold bindM at 1. rewrite E1.
  destruct Ho as [[->|(e & -> & He)]|[-> Hexp]]; [by do 2 eexists|rewrite He; by do 2 eexists|].
  rewrite bind_now. pose proof (now_read_law w1) as Ht. unfold bindM at 1, liftO at 1.
  destruct (jwt_verify_total (secret_key_ this) (issuer_ this) (now_read w1).1 d)
    as [[[] Ev]|(e & Ev & He)]; rewrite Ev; [|rewrite He; by do 2 eexists].
  destruct (has_payload_claim d CLAIM_USER_ID); [|by do 2 eexists].
  unfold bindM, liftO.
  destruct (get_payload_claim_total d CLAIM_USER_ID) as [[uid Eu]|(e & Eu & He)]; rewrite Eu;
    [|rewrite He; by do 2 eexists].
  do 2 eexists. split; [done|]. exists d, (now_read w1).1. split_and!; [done|lia|done|done|done].
Qed.
End lemmas.

(** ** Properties *)

Section properties.
Context `{JwtLaws} {W : Type} `{ClockLaws W}.

(** C25: VerifyToken is total and sound: on any text it returns, never throws,
    and it gives an identity only for a token that decodes, has not expired
    (when it says when it expires), and whose signature and issuer the library
    verified with this server's key; the identity is the token's own claim.
    Everything else is one of the three token errors. *)
Theorem VerifyToken_sound (this : JwtUtil) (token : string) (w : W) :
  ∃ r w', JwtUtil_VerifyToken this token w = (Ret r, w') ∧
    match r with
    | Val uid =>
        ∃ d n, jwt_decode token = Ret d ∧ time_of w ≤ n
          ∧ (has_expires_at d = true → ∃ e t, get_expires_at d = Ret e ∧ time_of w ≤ t ≤ e)
          ∧ jwt_verify (secret_key_ this) (issuer_ this) n d = Ret ()
          ∧ get_payload_claim_string d CLAIM_USER_ID = Ret uid
    | Unexpected e => e ≠ InternalError
    end.
Proof. apply VerifyToken_outcome. Qed.

Lemma token_lifetime (this : JwtUtil) (user_id : string) (w w1 : W)
    (Hpositive : 0 ≤ time_of w) (Hafter : time_of (now_read w).2 ≤ time_of w1) :
  let t := (now_read w).1 in
  let deadline := numeric_date (t + expiration_seconds_ this * ns_per_s) in
  ∃ token, (JwtUtil_GenerateToken this user_id w).1 = Ret token
    ∧ (time_of (now_read (now_read w1).2).2 ≤ deadline →
       (JwtUtil_VerifyToken this token w1).1 = Ret (Val user_id))
    ∧ (deadline < time_of w1 → (JwtUtil_VerifyToken this token w1).1 = Ret (Unexpected TokenExpired)).
Proof.
  intros t deadline. pose proof (now_read_law w) as Hw. pose proof (now_read_law w1) as Hw1.
  pose proof (now_read_law (now_read w1).2) as Hw2.
  eexists. split; [unfold JwtUtil_GenerateToken; by rewrite bind_now|]. fold t.
  set (c := mkClaims (issuer_ this) TOKEN_TYPE (CLAIM_USER_ID, user_id) t
             (t + expiration_seconds_ this * ns_per_s)).
  destruct (jwt_sign_law (secret_key_ this) c) as (d & Ed & Hexp & Eexp & Hcl & Ecl & Hver).
  simpl in Eexp. fold deadline in Eexp.
  unfold JwtUtil_VerifyToken, tryM. rewrite !(bindM_liftO _ _ _ _ Ed).
  assert (∀ k : bool → M W (expected string JwtError),
    bindM (is_expired d) k w1 = k (deadline <? (now_read w1).1) (now_read w1).2) as Hie.
  { intros k. unfold is_expired. rewrite Hexp, bindM_assoc, bind_now. unfold bindM, liftO, retM. by rewrite Eexp. }
  rewrite !Hie. split; intros Hd.
  - destruct (Z.ltb_spec deadline (now_read w1).1); [lia|]. rewrite bind_now.
    unfold bindM, liftO. simpl in Hver. rewrite Hver.
    + simpl in Hcl, Ecl. by rewrite Hcl, Ecl.
    + fold deadline. split; [|lia].
      assert (numeric_date t ≤ t); [|lia]. unfold numeric_date, to_seconds, ns_per_s.
      pose proof (Z.mul_quot_le t 1000000000). lia.
  - destruct (Z.ltb_spec deadline (now_read w1).1); [done|lia].
Qed.

(** C26: a token lives as long as configured: one issued at time [w] and verified
    at a time [w1] after it gives back the user it was issued for until the
    whole second its lifetime ends in, and is reported as expired after it. *)
Theorem GenerateToken_VerifyToken (this : JwtUtil) (user_id : string) (w w1 : W)
    (Hpositive : 0 ≤ time_of w) (Hafter : time_of (now_read w).2 ≤ time_of w1) :
  let t := (now_read w).1 in
  let deadline := numeric_date (t + expiration_seconds_ this * ns_per_s) in
  ∃ token, (JwtUtil_GenerateToken this user_id w).1 = Ret token
    ∧ (time_of (now_read (now_read w1).2).2 ≤ deadline →
       (JwtUtil_VerifyToken this token w1).1 = Ret (Val user_id))
    ∧ (deadline < time_of w1 → (JwtUtil_VerifyToken this token w1).1 = Ret (Unexpected TokenExpired)).
Proof. by apply token_lifetime. Qed.
End properties.

(** ** A toy token library: the text encodes the key and the claims *)

Definition claims_tuple (c : jwt_claims) : string * string * (string * string) * (Z * Z) :=
  (claim_issuer c, claim_type c, claim_payload c, (claim_issued_at c, claim_expires_at c)).
Definition tuple_claims (t : string * string * (string * string) * (Z * Z)) : jwt_claims :=
  let '(i, ty, p, (a, e)) := t in mkClaims i ty p a e.

Definition toy_verify (k i : string) (n : Z) (d : string * jwt_claims) : outcome () :=
  if bool_decide (k = d.1 ∧ i = claim_issuer d.2
                  ∧ numeric_date (claim_issued_at d.2) ≤ n ≤ numeric_date (claim_expires_at d.2))
  then Ret () else Throw (Exn runtime_error "token verification failed").

Definition toy_jwt : JwtLib := {|
  jwt_decoded := string * jwt_claims;
  jwt_sign k c := bits_of_pos (encode (k, claims_tuple c));
  jwt_decode s :=
    match decode (pos_of_bits s) with
    | Some (k, t) => Ret (k, tuple_claims t)
    | None => Throw (Exn invalid_argument "invalid token supplied")
    end;
  has_expires_at _ := true;
  get_expires_at d := Ret (numeric_date (claim_expires_at d.2));
  jwt_verify := toy_verify;
  has_payload_claim d c := bool_decide (c = (claim_payload d.2).1);
  get_payload_claim_string d c := Ret (claim_payload d.2).2
|}.

#[export] Instance toy_jwt_laws : @JwtLaws toy_jwt.
Proof.
  split; simpl.
  - intros t. destruct (decode _) as [[k c]|]; [left|right]; by eexists.
  - intros d. left. by eexists.
  - intros k i n d. unfold toy_verify. case_bool_decide; [left|right]; by eexists.
  - intros d c. left. by eexists.
  - intros k c. rewrite pos_of_bits_of_pos, decode_encode. eexists. split; [done|].
    destruct c as [i ty [p1 p2] a e]. simpl. split; [done|]. split; [done|].
    split; [by apply bool_decide_eq_true|]. split; [done|].
    intros n Hn. unfold toy_verify. simpl. by rewrite bool_decide_eq_true_2.
Qed.

Definition example_jwt : JwtUtil := mkJwtUtil "key" "photon" 3600.

Lemma VerifyToken_sound_witness :
  ∃ r w', @JwtUtil_VerifyToken toy_jwt toy_world _ example_jwt "garbage" (5, 0) = (Ret r, w') ∧
    match r with
    | Val uid =>
        ∃ d n, @jwt_decode toy_jwt "garbage" = Ret d ∧ time_of ((5, 0) : toy_world) ≤ n
          ∧ (@has_expires_at toy_jwt d = true →
               ∃ e t, @get_expires_at toy_jwt d = Ret e ∧ time_of ((5, 0) : toy_world) ≤ t ≤ e)
          ∧ @jwt_verify toy_jwt (secret_key_ example_jwt) (issuer_ example_jwt) n d = Ret ()
          ∧ @get_payload_claim_string toy_jwt d CLAIM_USER_ID = Ret uid
    | Unexpected e => e ≠ InternalError
    end.
Proof. apply (@VerifyToken_sound toy_jwt toy_jwt_laws toy_world _ _ example_jwt "garbage" (5, 0)). Defined.

Lemma GenerateToken_VerifyToken_witness :
  let w := (1000000000000, 0) : toy_world in let w1 := (1900000000000, 0) : toy_world in
  let deadline := numeric_date ((now_read w).1 + expiration_seconds_ example_jwt * ns_per_s) in
  ∃ token, (@JwtUtil_GenerateToken toy_jwt toy_world _ example_jwt "u1" w).1 = Ret token
    ∧ (time_of (now_read (now_read w1).2).2 ≤ deadline →
       (@JwtUtil_VerifyToken toy_jwt toy_world _ example_jwt token w1).1 = Ret (Val "u1"))
    ∧ (deadline < time_of w1 →
       (@JwtUtil_VerifyToken toy_jwt toy_world _ example_jwt token w1).1 = Ret (Unexpected TokenExpired)).
Proof.
  apply (@GenerateToken_VerifyToken toy_jwt toy_jwt_laws toy_world _ _ example_jwt "u1"
           (1000000000000, 0) (1900000000000, 0)).
  - simpl. lia.
  - simpl. lia.
Defined.
