(* ===== verification/AuthService.v ===== *)
(** * AuthService: codes and logins (service/src/auth_service.cc) *)

From stdpp Require Import base tactics option strings numbers list.
From S2P Require Import Prelude Text Model User Interfaces.

Open Scope string_scope.
Open Scope Z_scope.
Open Scope photon_scope.

Section service.
Context {W : Type} `{IVerificationCodeGenerator W} `{IVerificationCodeRepository W}
  `{IUserRepository W} `{IJwtUtil W} `{ISecurityUtil W}.

(** The constructor's check of the injected [jwt_util]. *)
Definition AuthService_make {A} (jwt_util : option A) : outcome () :=
  match jwt_util with
  | None => Throw (Exn runtime_error "Injection Failed: jwt_util is null")
  | Some _ => Ret ()
  end.

(** The second half of SendCode, once it is known whether to send. *)
Definition send_code (req : SendCodeRequest) (should_send_code : bool) : M W SendCodeResponse :=
  if negb should_send_code then retM (mkSendCodeResponse Success)
  else
    let* code := Generate 6 in
    let expiry := 5 * 60 in
    do* SaveCode (send_usage req) (send_phone_number req) code expiry in
    retM (mkSendCodeResponse Success).

Definition SendCode (req : SendCodeRequest) : M W SendCodeResponse :=
  match send_usage req with
  | USER_REGISTER => send_code req true
  | USER_LOGIN | RESET_PASSWORD =>
      let* user_result_exp := GetUserByPhoneNumber (send_phone_number req) in
      match user_result_exp with
      | Unexpected _ => retM (mkSendCodeResponse (mkStatus INTERNAL_ERROR "系统内部错误"))
      | Val user_opt => send_code req (bool_decide (is_Some user_opt))
      end
  | _ => retM (mkSendCodeResponse (mkStatus INVALID_ARGUMENT "发送验证码用途不明"))
  end.

(** Both logins end by issuing a token for the user found. *)
Definition issue_token (user : User) : M W LoginResult :=
  let* token := GenerateToken (GetId user) in
  retM (mkLoginResult Success token (GetId user)).

Definition LoginByCode (req : LoginByCodeRequest) : M W LoginResult :=
  let* code_opt := GetCode USER_LOGIN (lc_phone_number req) in
  if negb (bool_decide (code_opt = Some (lc_code req)))
  then retM (login_failure (mkStatus VERIFICATION_CODE_MISMATCH "验证码错误"))
  else
    let* user_exp := GetUserByPhoneNumber (lc_phone_number req) in
    match user_exp with
    | Unexpected _ => retM (login_failure (mkStatus INTERNAL_ERROR "DB Error"))
    | Val None => retM (login_failure (mkStatus USER_NOT_FOUND "该手机号未注册"))
    | Val (Some user) => issue_token user
    end.

Definition LoginByPassword (req : LoginByPasswordRequest) : M W LoginResult :=
  let* user_exp := GetUserById (lp_user_id req) in
  match user_exp with
  | Unexpected _ => retM (login_failure (mkStatus INTERNAL_ERROR "DB Error"))
  | Val None => retM (login_failure (mkStatus USER_NOT_FOUND "ID不存在"))
  | Val (Some user) =>
      if negb (VerifyPassword (lp_password req) (GetSalt user) (GetPasswordHash user))
      then retM (login_failure (mkStatus PASSWORD_INCORRECT "密码错误"))
      else issue_token user
  end.
End service.

(** ** Lemmas *)

Section lemmas.
Context `{ServiceLaws W}.
Implicit Types w : W.

Lemma issue_token_inv user w res w' :
  issue_token user w = (Ret res, w') →
  ∃ token, GenerateToken (GetId user) w = (Ret token, w') ∧ res = mkLoginResult Success token (GetId user).
Proof.
  unfold issue_token. intros E. minv E. injection E as <- <-. eauto.
Qed.

(** A lookup that returned a user found the account, up to [≡]. *)
Lemma GetUserById_account id w r w' :
  store_ok w → GetUserById id w = (Ret (Val r), w') → r ≡ account w id.
Proof. intros Hok E. destruct (GetUserById_law _ _ _ _ Hok E) as (_ & _ & _ & Hr); [done|]. by apply Hr. Qed.

Lemma GetUserByPhoneNumber_account phone w r w' :
  store_ok w → GetUserByPhoneNumber phone w = (Ret (Val r), w') → r ≡ account_by_phone w phone.
Proof. intros Hok E. destruct (GetUserByPhoneNumber_law _ _ _ _ Hok E) as (_ & _ & _ & Hr); [done|]. by apply Hr. Qed.

Lemma equiv_option_cases (r a : option User) :
  r ≡ a → r = None ∧ a = None ∨ ∃ u v, r = Some u ∧ a = Some v ∧ u ≡ v.
Proof. intros [u v Huv|]; eauto 10. Qed.
End lemmas.

(** ** Properties *)

Section properties.
Context `{ServiceLaws W}.
Implicit Types w : W.

Lemma LoginByPassword_outcome (req : LoginByPasswordRequest) (w w' : W) (res : LoginResult)
    (Hok : store_ok w) (Hrun : LoginByPassword req w = (Ret res, w')) :
  res = login_failure (mkStatus INTERNAL_ERROR "DB Error")
  ∨ match account w (lp_user_id req) with
    | None => res = login_failure (mkStatus USER_NOT_FOUND "ID不存在")
    | Some v =>
        if VerifyPassword (lp_password req) (salt_ v) (password_hash_ v)
        then ∃ u token w1, GetUserById (lp_user_id req) w = (Ret (Val (Some u)), w1)
               ∧ GenerateToken (id_ v) w1 = (Ret token, w') ∧ res = mkLoginResult Success token (id_ v)
        else res = login_failure (mkStatus PASSWORD_INCORRECT "密码错误")
    end.
Proof.
  unfold LoginByPassword in Hrun. minv Hrun. destruct a as [r|err]; [|injection Hrun as <- <-; by left].
  right. pose proof (GetUserById_account _ _ _ _ Hok Hm) as Hr.
  destruct (equiv_option_cases _ _ Hr) as [[-> ->]|(u & v & -> & -> & Huv)].
  { by injection Hrun as <- <-. }
  rewrite <- (GetSalt_proper _ _ Huv : GetSalt u = salt_ v),
    <- (GetPasswordHash_proper _ _ Huv : GetPasswordHash u = password_hash_ v),
    <- (GetId_proper _ _ Huv : GetId u = id_ v).
  destruct (VerifyPassword _ _ _); simpl in Hrun; [|by injection Hrun as <- <-].
  destruct (issue_token_inv _ _ _ _ Hrun) as (token & E & ->). eauto 10.
Qed.


Lemma LoginByCode_outcome (req : LoginByCodeRequest) (w w1 w' : W) (stored : option string)
    (res : LoginResult)
    (Hok : store_ok w) (Hcode : GetCode USER_LOGIN (lc_phone_number req) w = (Ret stored, w1))
    (Hrun : LoginByCode req w = (Ret res, w')) :
  if bool_decide (stored = Some (lc_code req)) then
    res = login_failure (mkStatus INTERNAL_ERROR "DB Error")
    ∨ match account_by_phone w (lc_phone_number req) with
      | None => res = login_failure (mkStatus USER_NOT_FOUND "该手机号未注册")
      | Some v => ∃ token w2, GenerateToken (id_ v) w2 = (Ret token, w')
                    ∧ res = mkLoginResult Success token (id_ v)
      end
  else res = login_failure (mkStatus VERIFICATION_CODE_MISMATCH "验证码错误") ∧ w' = w1.
Proof.
  unfold LoginByCode in Hrun. rewrite (bindM_ret _ _ _ _ _ Hcode) in Hrun.
  case_bool_decide; simpl in Hrun; [|by injection Hrun as <- <-].
  destruct (GetCode_keeps _ _ _ _ _ Hok Hcode) as (Hok1 & _ & Hp); [done|].
  minv Hrun. destruct a as [r|err]; [|injection Hrun as <- <-; by left].
  right. pose proof (GetUserByPhoneNumber_account _ _ _ _ Hok1 Hm) as Hr. rewrite Hp in Hr.
  destruct (equiv_option_cases _ _ Hr) as [[-> ->]|(u & v & -> & -> & Huv)].
  { by injection Hrun as <- <-. }
  rewrite <- (GetId_proper _ _ Huv : GetId u = id_ v).
  destruct (issue_token_inv _ _ _ _ Hrun) as (token & E & ->). eauto.
Qed.

(** C23: LoginByCode succeeds only with the right code: a success means that the
    login code stored for this phone number is the one given and that the number
    belongs to an account, whose id the token is issued for; with any other code,
    or none, the answer is a mismatch, the same for every number, and the store
    of users is not even asked. *)
Theorem LoginByCode_spec (req : LoginByCodeRequest) (w w1 w' : W) (stored : option string)
    (res : LoginResult)
    (Hok : store_ok w) (Hcode : GetCode USER_LOGIN (lc_phone_number req) w = (Ret stored, w1))
    (Hrun : LoginByCode req w = (Ret res, w')) :
  if bool_decide (stored = Some (lc_code req)) then
    res = login_failure (mkStatus INTERNAL_ERROR "DB Error")
    ∨ match account_by_phone w (lc_phone_number req) with
      | None => res = login_failure (mkStatus USER_NOT_FOUND "该手机号未注册")
      | Some v => ∃ token w2, GenerateToken (id_ v) w2 = (Ret token, w')
                    ∧ res = mkLoginResult Success token (id_ v)
      end
  else res = login_failure (mkStatus VERIFICATION_CODE_MISMATCH "验证码错误") ∧ w' = w1.
Proof. by apply LoginByCode_outcome. Qed.

(** C24: SendCode does not tell who is registered: for a login or a password
    reset its answer, whenever it returns and the store did not fail, is the
    same success for a number that has an account as for one that has none; a
    code is generated and saved only for the former, under the usage and number
    of the request and for five minutes. *)
Theorem SendCode_no_enumeration (req : SendCodeRequest) (w w1 w' : W) (r : option User)
    (resp : SendCodeResponse)
    (Husage : send_usage req = USER_LOGIN ∨ send_usage req = RESET_PASSWORD) (Hok : store_ok w)
    (Hlookup : GetUserByPhoneNumber (send_phone_number req) w = (Ret (Val r), w1))
    (Hrun : SendCode req w = (Ret resp, w')) :
  resp = mkSendCodeResponse Success
  ∧ match account_by_phone w (send_phone_number req) with
    | None => w' = w1
    | Some _ => ∃ code w2, Generate 6 w1 = (Ret code, w2)
        ∧ SaveCode (send_usage req) (send_phone_number req) code 300 w2 = (Ret (), w')
    end.
Proof.
  assert (send_code req (bool_decide (is_Some r)) w1 = (Ret resp, w')) as E.
  { unfold SendCode in Hrun. destruct Husage as [Hu|Hu]; rewrite Hu in Hrun;
      by rewrite (bindM_ret _ _ _ _ _ Hlookup) in Hrun. }
  pose proof (GetUserByPhoneNumber_account _ _ _ _ Hok Hlookup) as Hr. unfold send_code in E.
  destruct (equiv_option_cases _ _ Hr) as [[-> ->]|(u & v & -> & -> & Huv)]; simpl in E.
  { by injection E as <- <-. }
  minv E. minv E. injection E as <- <-. split; [done|]. destruct a0. eauto.
Qed.
End properties.
