(* ===== verification/BasicUserService.v ===== *)
(** * BasicUserService: accounts (service/src/basic_user_service.cc) *)

From stdpp Require Import base tactics option strings numbers list.
From S2P Require Import Prelude Text Model User Interfaces AuthService.

Open Scope string_scope.
Open Scope Z_scope.
Open Scope photon_scope.

Section service.
Context {W : Type} `{IUserRepository W} `{IVerificationCodeRepository W} `{IIDGenerator W}
  `{ISecurityUtil W}.

Definition Register (req : RegisterRequest) : M W RegisterResponse :=
  let* code_opt := GetCode USER_REGISTER (reg_phone_number req) in
  if negb (bool_decide (code_opt = Some (reg_code req)))
  then retM (register_failure (mkStatus VERIFICATION_CODE_MISMATCH "验证码错误"))
  else
    let* existing_user := GetUserByPhoneNumber (reg_phone_number req) in
    match existing_user with
    | Unexpected _ => retM (register_failure (mkStatus INTERNAL_ERROR "Database Error"))
    | Val (Some _) => retM (register_failure (mkStatus USER_ALREADY_EXISTS "该手机号已注册"))
    | Val None =>
        let* user_id := GenerateUUID in
        let* salt := GenerateSalt in
        let pwd_hash := HashPassword (reg_password req) salt in
        let new_user := UpdateProfile (Some (reg_username req)) None None
                          (Create user_id (reg_phone_number req) pwd_hash salt) in
        let* result := CreateUser new_user in
        match result with
        | Unexpected _ => retM (register_failure (mkStatus INTERNAL_ERROR "注册失败"))
        | Val _ => retM (mkRegisterResponse Success user_id)
        end
    end.

Definition GetUserInfo (req : GetUserInfoRequest) : M W GetUserInfoResponse :=
  let* user_exp := GetUserById (info_req_user_id req) in
  match user_exp with
  | Unexpected _ => retM (info_failure (mkStatus INTERNAL_ERROR "查询失败"))
  | Val None => retM (info_failure (mkStatus USER_NOT_FOUND "用户不存在"))
  | Val (Some user) =>
      retM (mkGetUserInfoResponse Success (GetId user) (value_or_empty (GetUsername user))
              (value_or_empty (GetEmail user)) (value_or_empty (GetAvatarUrl user))
              (GetPhoneNumber user))
  end.

Definition UpdateUserInfo (_ : UpdateUserInfoRequest) : M W UpdateUserInfoResponse :=
  retM (mkUpdateUserInfoResponse (mkStatus INTERNAL_ERROR "Not Implemented Yet")).
End service.

(** ** Lemmas *)

Section lemmas.
Context `{ServiceLaws W}.
Implicit Types w : W.

Definition accounts_kept w w' : Prop :=
  (∀ k v, account w k = Some v → account w' k = Some v)
  ∧ (∀ k v, account_by_phone w k = Some v → account_by_phone w' k = Some v).

(** A call that may add accounts, and loses none. *)
Definition keeps_accounts {A} (m : M W A) : Prop := ∀ w o w',
  store_ok w → m w = (o, w') → o ≠ Pending → store_ok w' ∧ accounts_kept w w'.

Lemma accounts_kept_trans w1 w2 w3 : accounts_kept w1 w2 → accounts_kept w2 w3 → accounts_kept w1 w3.
Proof. intros [? ?] [? ?]. split; auto. Qed.

Lemma keeps_store_accounts {A} (m : M W A) : keeps_store m → keeps_accounts m.
Proof.
  intros Hm w o w' Hok E Ho. destruct (Hm _ _ _ Hok E Ho) as (? & Ha & Hp).
  split; [done|]. split; intros k v; [by rewrite Ha|by rewrite Hp].
Qed.

Lemma keeps_accounts_bind {A B} (m : M W A) (f : A → M W B) :
  keeps_accounts m → (∀ a, keeps_accounts (f a)) → keeps_accounts (bindM m f).
Proof.
  intros Hm Hf w o w' Hok. unfold bindM. destruct (m w) as [[a|e|] w1] eqn:E.
  - destruct (Hm _ _ _ Hok E) as (Hok1 & Hk); [done|]. intros E' Ho.
    destruct (Hf a _ _ _ Hok1 E' Ho) as (? & Hk'). split; [done|]. by eapply accounts_kept_trans.
  - intros [= <- <-] Ho. by apply (Hm _ _ _ Hok E).
  - by intros [= <- <-] Ho.
Qed.

Lemma CreateUser_keeps_accounts u : user_wf u → keeps_accounts (CreateUser u).
Proof.
  intros Hwf w o w' Hok E Ho. destruct (CreateUser_law _ _ _ _ Hok Hwf E Ho) as (? & ? & ? & _).
  by repeat split.
Qed.

(** The user Register builds. *)
Definition registered (req : RegisterRequest) (user_id salt : string) : User :=
  UpdateProfile (Some (reg_username req)) None None
    (Create user_id (reg_phone_number req) (HashPassword (reg_password req) salt) salt).

(** The store takes that user as it is, whatever salt is generated. *)
Definition registrable (req : RegisterRequest) (id : string) : Prop :=
  ∀ (w : W) salt w', GenerateSalt w = (Ret salt, w') → storable (registered req id salt).

Lemma registered_wf req id salt : user_wf (registered req id salt).
Proof. apply UpdateProfile_wf, Create_wf. Qed.

Lemma Register_keeps req : keeps_accounts (Register req).
Proof.
  unfold Register.
  apply keeps_accounts_bind; [by apply keeps_store_accounts; eauto with photon|]. intros code_opt.
  case_match; [by apply keeps_store_accounts; eauto with photon|].
  apply keeps_accounts_bind; [by apply keeps_store_accounts; eauto with photon|]. intros [[u|]|err];
    [by apply keeps_store_accounts; eauto with photon| |by apply keeps_store_accounts; eauto with photon].
  apply keeps_accounts_bind; [by apply keeps_store_accounts; eauto with photon|]. intros user_id.
  apply keeps_accounts_bind; [by apply keeps_store_accounts; eauto with photon|]. intros salt.
  apply keeps_accounts_bind; [apply CreateUser_keeps_accounts, (registered_wf req user_id salt)|].
  intros [[]|err]; by apply keeps_store_accounts; eauto with photon.
Qed.

(** A registration that succeeded, step by step. *)
Lemma Register_success_inv req w id w' :
  store_ok w → Register req w = (Ret (mkRegisterResponse Success id), w') →
  ∃ w1 wa wb salt, GetCode USER_REGISTER (reg_phone_number req) w = (Ret (Some (reg_code req)), w1)
    ∧ account_by_phone w (reg_phone_number req) = None
    ∧ store_ok wb ∧ (∀ k, account wb k = account w k)
    ∧ (∀ k, account_by_phone wb k = account_by_phone w k)
    ∧ GenerateSalt wa = (Ret salt, wb)
    ∧ CreateUser (registered req id salt) wb = (Ret (Val ()), w').
Proof.
  intros Hok E. unfold Register in E. minv E. rename a into code_opt, w0 into w1, Hm into Hcode.
  destruct (GetCode_keeps _ _ _ _ _ Hok Hcode) as (Hok1 & Ha1 & Hp1); [done|].
  case_bool_decide as Hc; simpl in E; [|done]. minv E. rename a into r, w0 into w2, Hm into Hlook.
  destruct r as [r|err]; [|done]. pose proof (GetUserByPhoneNumber_account _ _ _ _ Hok1 Hlook) as Hr.
  destruct (GetUserByPhoneNumber_keeps _ _ _ _ Hok1 Hlook) as (Hok2 & Ha2 & Hp2); [done|].
  rewrite Hp1 in Hr. destruct (equiv_option_cases _ _ Hr) as [[-> Hnone]|(u & v & -> & _)]; [|done].
  minv E. rename a into uid, w0 into w3, Hm into Huuid.
  destruct (GenerateUUID_keeps _ _ _ Hok2 Huuid) as (Hok3 & Ha3 & Hp3); [done|].
  minv E. rename a into salt, w0 into w4, Hm into Hsalt.
  destruct (GenerateSalt_keeps _ _ _ Hok3 Hsalt) as (Hok4 & Ha4 & Hp4); [done|].
  minv E. destruct a as [[]|err]; [|done]. injection E as <- <-.
  exists w1, w3, w4, salt. split_and!; [by rewrite <- Hc|done|done| | |done|done].
  - intros k. by rewrite Ha4, Ha3, Ha2, Ha1.
  - intros k. by rewrite Hp4, Hp3, Hp2, Hp1.
Qed.
End lemmas.

(** ** Properties *)

Section properties.
Context `{ServiceLaws W}.
Implicit Types w : W.

Lemma GetUserInfo_outcome (req : GetUserInfoRequest) (w w' : W) (resp : GetUserInfoResponse)
    (Hok : store_ok w) (Hrun : GetUserInfo req w = (Ret resp, w')) :
  resp = info_failure (mkStatus INTERNAL_ERROR "查询失败")
  ∨ resp = match account w (info_req_user_id req) with
           | None => info_failure (mkStatus USER_NOT_FOUND "用户不存在")
           | Some v => mkGetUserInfoResponse Success (id_ v) (value_or_empty (username_ v))
                         (value_or_empty (email_ v)) (value_or_empty (avatar_url_ v)) (phone_number_ v)
           end.
Proof.
  unfold GetUserInfo in Hrun. minv Hrun. destruct a as [r|err]; [|injection Hrun as <- <-; by left].
  right. pose proof (GetUserById_account _ _ _ _ Hok Hm) as Hr.
  destruct (equiv_option_cases _ _ Hr) as [[-> ->]|(u & v & -> & -> & Huv)]; injection Hrun as <- <-; [done|].
  by rewrite (GetId_proper _ _ Huv), (username_proper _ _ Huv), (email_proper _ _ Huv),
    (avatar_proper _ _ Huv), (GetPhoneNumber_proper _ _ Huv).
Qed.

Lemma Register_success_outcome (req : RegisterRequest) (w w' : W) (id : string)
    (Hok : store_ok w) (Hstorable : registrable req id)
    (Hrun : Register req w = (Ret (mkRegisterResponse Success id), w')) :
  (∃ w1, GetCode USER_REGISTER (reg_phone_number req) w = (Ret (Some (reg_code req)), w1))
  ∧ account_by_phone w (reg_phone_number req) = None
  ∧ store_ok w' ∧ accounts_kept w w'
  ∧ ∃ v, account w' id = Some v ∧ account_by_phone w' (reg_phone_number req) = Some v
      ∧ id_ v = id ∧ value_or_empty (username_ v) = reg_username req ∧ status_ v = UserStatus.NORMAL
      ∧ VerifyPassword (reg_password req) (salt_ v) (password_hash_ v) = true.
Proof.
  destruct (Register_success_inv _ _ _ _ Hok Hrun) as (w1 & wa & wb & salt & Hcode & Hnone & Hokb & Ha & Hp & Hgen & Hcr).
  destruct (CreateUser_law _ _ _ _ Hokb (registered_wf _ _ _) Hcr) as (Hok' & Ha' & Hp' & Hnew); [done|].
  split; [by exists w1|]. split; [done|]. split; [done|]. split.
  { split; intros k v Hk; [apply Ha'; by rewrite Ha|apply Hp'; by rewrite Hp]. }
  destruct (Hnew eq_refl (Hstorable _ _ _ Hgen)) as (v & Hv & Hvp & Hs).
  destruct Hs as (Hid & Hph & Hh & Hsa & Hst & Hun & _). simpl in *.
  exists v. split_and!; [done..|]. rewrite Hh, Hsa. apply VerifyPassword_HashPassword.
Qed.

(** A registration that succeeds needed the code stored for the number and a
    number without an account, and makes one: its id is the one returned, it is
    found by id and by number, it has the name given, the normal status, and the
    password given verifies against its salt and hash, while every earlier
    account is as it was. *)
Theorem Register_success (req : RegisterRequest) (w w' : W) (id : string)
    (Hok : store_ok w) (Hstorable : registrable req id)
    (Hrun : Register req w = (Ret (mkRegisterResponse Success id), w')) :
  (∃ w1, GetCode USER_REGISTER (reg_phone_number req) w = (Ret (Some (reg_code req)), w1))
  ∧ account_by_phone w (reg_phone_number req) = None
  ∧ store_ok w' ∧ accounts_kept w w'
  ∧ ∃ v, account w' id = Some v ∧ account_by_phone w' (reg_phone_number req) = Some v
      ∧ id_ v = id ∧ value_or_empty (username_ v) = reg_username req ∧ status_ v = UserStatus.NORMAL
      ∧ VerifyPassword (reg_password req) (salt_ v) (password_hash_ v) = true.
Proof. by apply Register_success_outcome. Qed.

(** A registration never harms anybody: whatever it answers or throws, every
    account there was is still found, by id and by number, as it was. *)
Theorem Register_keeps_accounts (req : RegisterRequest) (w w' : W) (o : outcome RegisterResponse)
    (Hok : store_ok w) (Hrun : Register req w = (o, w')) (Hdone : o ≠ Pending) :
  store_ok w' ∧ accounts_kept w w'.
Proof.
  by eapply (Register_keeps req).
Qed.

(** GetUserInfo shows the account and nothing else: whenever it returns,
    then up to an internal error of the store, the profile shown for an id is
    that of its account field by field (absent fields as empty text), and an id
    without an account is reported as such. *)
Theorem GetUserInfo_spec (req : GetUserInfoRequest) (w w' : W) (resp : GetUserInfoResponse)
    (Hok : store_ok w) (Hrun : GetUserInfo req w = (Ret resp, w')) :
  resp = info_failure (mkStatus INTERNAL_ERROR "查询失败")
  ∨ resp = match account w (info_req_user_id req) with
           | None => info_failure (mkStatus USER_NOT_FOUND "用户不存在")
           | Some v => mkGetUserInfoResponse Success (id_ v) (value_or_empty (username_ v))
                         (value_or_empty (email_ v)) (value_or_empty (avatar_url_ v)) (phone_number_ v)
           end.
Proof. by apply (GetUserInfo_outcome _ w w'). Qed.

End properties.
