(* ===== verification/Coroutines.v ===== *)
(** * Coroutines: the services, call by call

    The five methods of AuthService and BasicUserService as coroutines
    (Programs.v): every [co_await] on a collaborator is a call of its own, and
    calls of other requests come in between.  So is every [co_await] inside
    UserRepository's lookup behind the cache, inside the repository of codes, and
    inside the commands of the cache client (RedisCalls.v).  Between two calls the rest of the
    world may do what [evolves] allows: anything that keeps the store's invariant
    and loses no account, a Redis that forgets entries among it
    ([forgets_evolves]).  Each method keeps to that itself, makes few calls, is
    the method of AuthService.v or BasicUserService.v when nothing comes in
    between, and its answer stands for what its own calls saw.  The theorems at
    the end run any number of requests side by side; Concurrent.v has their
    closed examples. *)

From stdpp Require Import base tactics option strings numbers list relations gmap.
From S2P Require Import Prelude Programs Text Model JsonLib JsonTree User RedisLib RedisClient Interfaces.
From S2P Require Import CodeRepository RedisCalls UserRepository AuthService BasicUserService.

Open Scope string_scope.
Open Scope Z_scope.
Open Scope photon_scope.

(** ** The methods *)
Section bodies.
Context {W : Type} `{CoUserRepository W} `{IVerificationCodeGenerator W} `{CoVerificationCodeRepository W}
  `{IIDGenerator W} `{ISecurityUtil W} `{IJwtUtil W}.

Definition co_send_code (req : SendCodeRequest) (should_send_code : bool) : prog W SendCodeResponse :=
  if negb should_send_code then ret (mkSendCodeResponse Success)
  else
    let~ code := call (Generate 6) in
    let expiry := 5 * 60 in
    do~ co_SaveCode (send_usage req) (send_phone_number req) code expiry in
    ret (mkSendCodeResponse Success).

Definition co_SendCode (req : SendCodeRequest) : prog W SendCodeResponse :=
  match send_usage req with
  | USER_REGISTER => co_send_code req true
  | USER_LOGIN | RESET_PASSWORD =>
      let~ user_result_exp := co_GetUserByPhoneNumber (send_phone_number req) in
      match user_result_exp with
      | Unexpected _ => ret (mkSendCodeResponse (mkStatus INTERNAL_ERROR "系统内部错误"))
      | Val user_opt => co_send_code req (bool_decide (is_Some user_opt))
      end
  | _ => ret (mkSendCodeResponse (mkStatus INVALID_ARGUMENT "发送验证码用途不明"))
  end.

Definition co_issue_token (user : User) : prog W LoginResult :=
  let~ token := call (GenerateToken (GetId user)) in
  ret (mkLoginResult Success token (GetId user)).

Definition co_LoginByCode (req : LoginByCodeRequest) : prog W LoginResult :=
  let~ code_opt := co_GetCode USER_LOGIN (lc_phone_number req) in
  if negb (bool_decide (code_opt = Some (lc_code req)))
  then ret (login_failure (mkStatus VERIFICATION_CODE_MISMATCH "验证码错误"))
  else
    let~ user_exp := co_GetUserByPhoneNumber (lc_phone_number req) in
    match user_exp with
    | Unexpected _ => ret (login_failure (mkStatus INTERNAL_ERROR "DB Error"))
    | Val None => ret (login_failure (mkStatus USER_NOT_FOUND "该手机号未注册"))
    | Val (Some user) => co_issue_token user
    end.

Definition co_LoginByPassword (req : LoginByPasswordRequest) : prog W LoginResult :=
  let~ user_exp := co_GetUserById (lp_user_id req) in
  match user_exp with
  | Unexpected _ => ret (login_failure (mkStatus INTERNAL_ERROR "DB Error"))
  | Val None => ret (login_failure (mkStatus USER_NOT_FOUND "ID不存在"))
  | Val (Some user) =>
      if negb (VerifyPassword (lp_password req) (GetSalt user) (GetPasswordHash user))
      then ret (login_failure (mkStatus PASSWORD_INCORRECT "密码错误"))
      else co_issue_token user
  end.

Definition co_Register (req : RegisterRequest) : prog W RegisterResponse :=
  let~ code_opt := co_GetCode USER_REGISTER (reg_phone_number req) in
  if negb (bool_decide (code_opt = Some (reg_code req)))
  then ret (register_failure (mkStatus VERIFICATION_CODE_MISMATCH "验证码错误"))
  else
    let~ existing_user := co_GetUserByPhoneNumber (reg_phone_number req) in
    match existing_user with
    | Unexpected _ => ret (register_failure (mkStatus INTERNAL_ERROR "Database Error"))
    | Val (Some _) => ret (register_failure (mkStatus USER_ALREADY_EXISTS "该手机号已注册"))
    | Val None =>
        let~ user_id := call GenerateUUID in
        let~ salt := call GenerateSalt in
        let~ result := co_CreateUser (registered req user_id salt) in
        match result with
        | Unexpected _ => ret (register_failure (mkStatus INTERNAL_ERROR "注册失败"))
        | Val _ => ret (mkRegisterResponse Success user_id)
        end
    end.

Definition co_GetUserInfo (req : GetUserInfoRequest) : prog W GetUserInfoResponse :=
  let~ user_exp := co_GetUserById (info_req_user_id req) in
  match user_exp with
  | Unexpected _ => ret (info_failure (mkStatus INTERNAL_ERROR "查询失败"))
  | Val None => ret (info_failure (mkStatus USER_NOT_FOUND "用户不存在"))
  | Val (Some user) =>
      ret (mkGetUserInfoResponse Success (GetId user) (value_or_empty (GetUsername user))
             (value_or_empty (GetEmail user)) (value_or_empty (GetAvatarUrl user)) (GetPhoneNumber user))
  end.

(** A request to one of the methods, and its answer. *)
Inductive service_call :=
| CallRegister (req : RegisterRequest)
| CallSendCode (req : SendCodeRequest)
| CallLoginByPassword (req : LoginByPasswordRequest)
| CallLoginByCode (req : LoginByCodeRequest)
| CallGetUserInfo (req : GetUserInfoRequest).

Inductive service_answer :=
| Registered (resp : RegisterResponse)
| CodeSent (resp : SendCodeResponse)
| LoggedIn (res : LoginResult)
| InfoGiven (resp : GetUserInfoResponse).

Definition body (c : service_call) : prog W service_answer :=
  match c with
  | CallRegister req => let~ r := co_Register req in ret (Registered r)
  | CallSendCode req => let~ r := co_SendCode req in ret (CodeSent r)
  | CallLoginByPassword req => let~ r := co_LoginByPassword req in ret (LoggedIn r)
  | CallLoginByCode req => let~ r := co_LoginByCode req in ret (LoggedIn r)
  | CallGetUserInfo req => let~ r := co_GetUserInfo req in ret (InfoGiven r)
  end.
End bodies.

(** The methods of the service files, as computations. *)
Definition service_method {W : Type} `{IUserRepository W} `{IVerificationCodeGenerator W}
    `{IVerificationCodeRepository W} `{IIDGenerator W} `{ISecurityUtil W} `{IJwtUtil W} (c : service_call)
    : M W service_answer :=
  match c with
  | CallRegister req => let* r := Register req in retM (Registered r)
  | CallSendCode req => let* r := SendCode req in retM (CodeSent r)
  | CallLoginByPassword req => let* r := LoginByPassword req in retM (LoggedIn r)
  | CallLoginByCode req => let* r := LoginByCode req in retM (LoggedIn r)
  | CallGetUserInfo req => let* r := GetUserInfo req in retM (InfoGiven r)
  end.

(** ** What the coroutines rely on *)

(** How the world changes while a request waits: the store stays sound and no
    account is lost. *)
Definition evolves `{UserStoreLaws W} (w w' : W) : Prop := store_ok w ∧ store_ok w' ∧ accounts_kept w w'.

Class CoUserStoreLaws (W : Type) `{UserStoreLaws W} `{!CoUserRepository W} : Prop := {
  (** alone, a coroutine is the method *)
  co_CreateUser_alone u w : run (co_CreateUser u) w = CreateUser u w;
  co_GetUserById_alone id w : run (co_GetUserById id) w = GetUserById id w;
  co_GetUserByPhoneNumber_alone phone w : run (co_GetUserByPhoneNumber phone) w = GetUserByPhoneNumber phone w;
  (** its calls harm nobody *)
  co_CreateUser_good u w : user_wf u → good evolves (co_CreateUser u) w;
  co_GetUserById_good id w : good evolves (co_GetUserById id) w;
  co_GetUserByPhoneNumber_good phone w : good evolves (co_GetUserByPhoneNumber phone) w;
  (** a lookup tells what was so at one of its calls *)
  co_GetUserById_found id w0 evs r :
    chain evolves w0 evs → exec (co_GetUserById id) evs (Done (Ret (Val r))) → ∃ e, e ∈ evs ∧ r ≡ account e.1 id;
  co_GetUserByPhoneNumber_found phone w0 evs r :
    chain evolves w0 evs → exec (co_GetUserByPhoneNumber phone) evs (Done (Ret (Val r))) →
    ∃ e, e ∈ evs ∧ r ≡ account_by_phone e.1 phone;
  (** a user is created in one call *)
  co_CreateUser_made u w0 evs :
    user_wf u → chain evolves w0 evs → exec (co_CreateUser u) evs (Done (Ret (Val ()))) →
    ∃ e, e ∈ evs ∧ (storable u →
      account e.1 (id_ u) = None ∧ account_by_phone e.1 (phone_number_ u) = None
      ∧ ∃ v, account e.2 (id_ u) = Some v ∧ account_by_phone e.2 (phone_number_ u) = Some v ∧ same_account u v);
  (** few calls *)
  co_CreateUser_bounded u : bounded 1 (co_CreateUser u);
  co_GetUserById_bounded id : bounded 7 (co_GetUserById id);
  co_GetUserByPhoneNumber_bounded phone : bounded 1 (co_GetUserByPhoneNumber phone)
}.

(** The repository of codes too. *)
Class CoServiceLaws (W : Type) `{ServiceLaws W} `{!CoUserRepository W} `{!CoVerificationCodeRepository W} : Prop := {
  #[global] CoServiceLaws_users :: CoUserStoreLaws W;
  co_SaveCode_alone u t c n w : run (co_SaveCode u t c n) w = SaveCode u t c n w;
  co_GetCode_alone u t w : run (co_GetCode u t) w = GetCode u t w;
  co_SaveCode_good u t c n w : good evolves (co_SaveCode u t c n) w;
  co_GetCode_good u t w : good evolves (co_GetCode u t) w;
  co_SaveCode_bounded u t c n : bounded 3 (co_SaveCode u t c n);
  co_GetCode_bounded u t : bounded 3 (co_GetCode u t)
}.

Section evolves.
Context `{UserStoreLaws W}.

#[export] Instance evolves_trans : Transitive evolves.
Proof. intros w1 w2 w3 (? & _ & ?) (_ & ? & ?). split; [done|]. split; [done|]. by eapply accounts_kept_trans. Qed.

Lemma evolves_ok w w' : evolves w w' → evolves w' w'.
Proof. intros (_ & ? & _). split; [done|]. split; [done|]. by split. Qed.

Lemma keeps_accounts_evolves {A} (m : M W A) w o w' :
  keeps_accounts m → store_ok w → m w = (o, w') → o ≠ Pending → evolves w w'.
Proof. intros Hm Hw E Ho. destruct (Hm _ _ _ Hw E Ho). by split. Qed.

Lemma good_keeps_accounts {A} (m : M W A) w : keeps_accounts m → good evolves (call m) w.
Proof. intros Hm. apply good_call. intros w1 o w2 (_ & Hok & _). by apply keeps_accounts_evolves. Qed.

Lemma good_keeps_store {A} (m : M W A) w : keeps_store m → good evolves (call m) w.
Proof. intros Hm. by apply good_keeps_accounts, keeps_store_accounts. Qed.

Lemma chain_ok w0 evs e : chain evolves w0 evs → e ∈ evs → store_ok e.1 ∧ evolves e.1 e.2.
Proof. intros Hc He. destruct (chain_elem evolves w0 evs e Hc He) as [(_ & ? & _) ?]. done. Qed.
End evolves.

(** ** UserRepository as coroutines *)
Section repository.
Context `{RedisLib} `{JsonLib} {D : Type} `{IUserRepository D}.

Definition co_fill_cache (key : string) (user : User) : prog (repo_world D) () :=
  ptry (let~ json_str := Done (json_dump (ToJson user)) in
        do~ pzoom redis_lens (co_Set_expiry key json_str 3600) in ret ())
    is_std_exception (fun _ => ret ()).

Definition co_UserRepository_GetUserById (id : string) : prog (repo_world D) (expected (option User) DbError) :=
  let~ redis_res := pzoom redis_lens (co_Get (cache_key id)) in
  let~ hit := Done (cache_hit redis_res) in
  match hit with
  | Some user => ret (Val (Some user))
  | None =>
      let~ db_result_exp := call (zoomM dao_lens (GetUserById id)) in
      match db_result_exp with
      | Val (Some user) => do~ co_fill_cache (cache_key id) user in ret db_result_exp
      | _ => ret db_result_exp
      end
  end.

#[export] Instance CoUserRepository_cached : CoUserRepository (repo_world D) := {|
  co_CreateUser user := call (UserRepository_CreateUser user);
  co_GetUserById := co_UserRepository_GetUserById;
  co_GetUserByPhoneNumber phone := call (UserRepository_GetUserByPhoneNumber phone)
|}.

#[export] Instance redis_lens_laws : LensLaws (redis_lens (D:=D)).
Proof. by split; [|intros []|]. Qed.

Lemma co_fill_cache_alone key user w : run (co_fill_cache key user) w = fill_cache key user w.
Proof.
  apply try_alone; [|done]. intros w1. apply bind_alone; [apply run_done|]. intros text w2.
  apply bind_alone; [|done]. intros w3. rewrite (run_zoom redis_lens). unfold zoomM. by rewrite co_Set_expiry_alone.
Qed.

Lemma co_UserRepository_alone id w : run (co_UserRepository_GetUserById id) w = UserRepository_GetUserById id w.
Proof.
  apply bind_alone; [|intros redis_res w1].
  { intros w1. rewrite (run_zoom redis_lens). unfold zoomM. by rewrite co_Get_alone. }
  apply bind_alone; [apply run_done|]. intros [u|] w2; [done|]. apply bind_alone; [apply run_call|].
  intros [[u|]|err] w3; [|done..]. apply bind_alone; [apply co_fill_cache_alone|done].
Qed.
End repository.

Section repository_laws.
Context `{RedisLaws} `{JsonLaws} {D : Type} `{UserStoreLaws D}.
Implicit Types w : repo_world D.

Lemma same_dao_evolves w w' : repo_ok w → repo_ok w' → user_dao_ w' = user_dao_ w → evolves w w'.
Proof. intros Hw Hw' E. split; [done|]. split; [done|]. unfold accounts_kept. simpl. by rewrite E. Qed.

(** Calls of Redis that keep the cache true. *)
Lemma redis_good {A} (p : prog redis_env A) (R : redis_env → redis_env → Prop) w :
  always R p →
  (∀ w1 r, evolves w w1 → R (redis_client_ w1) r →
     (client_wf (client (redis_client_ w1)) → client_wf (client r)) ∧ coherent (user_dao_ w1) (env_store r)) →
  good evolves (pzoom redis_lens p) w.
Proof.
  intros Hp HR. eapply (always_good evolves); [apply _| |exact (always_pzoom redis_lens _ _ Hp)].
  intros w1 w2 Hev [Hr Ew]. destruct (HR w1 (redis_client_ w2) Hev Hr) as [Hcl Hc].
  assert (user_dao_ w2 = user_dao_ w1) as Ed by by rewrite Ew. destruct Hev as (_ & Hok & _).
  apply same_dao_evolves; [done| |done]. pose proof Hok as (? & ? & _). split_and!; [by rewrite Ed|auto|by rewrite Ed].
Qed.

(** The first step: Redis answers. *)
Lemma cache_lookup_good id w : good evolves (pzoom redis_lens (co_Get (cache_key id))) w.
Proof.
  eapply redis_good; [apply co_Get_reads|]. intros w1 r (_ & (_ & _ & Hc) & _) (? & _ & ->). by split.
Qed.

Lemma cache_lookup_found id w0 evs redis_res u :
  chain evolves w0 evs → exec (pzoom redis_lens (co_Get (cache_key id))) evs (Done (Ret redis_res)) →
  cache_hit redis_res = Ret (Some u) → ∃ e, e ∈ evs ∧ Some u ≡ account e.1 id.
Proof.
  intros Hc He%exec_zoom Hu; [|apply _].
  destruct (co_Get_found _ _ _ He) as [(err & ->)|(e & t & (e' & Hin & ->)%elem_zoom & _ & ->)]; [done|].
  destruct (chain_ok _ _ _ Hc Hin) as [(_ & _ & Hcoh) _]. exists e'. split; [done|]. by eapply cache_hit_account.
Qed.

(** The last step: Redis is given the entry. *)
Lemma co_fill_cache_good id u w :
  Some u ≡ account w id → user_wf u → deleted_at_ u = None → good evolves (co_fill_cache (cache_key id) u) w.
Proof.
  intros Ha Hwf Hd. apply good_try; [apply _| |done].
  destruct (json_dump_outcome (ToJson u)) as [[text Et]|[msg Et]]; rewrite Et; [|done]. cbn [pbind].
  apply good_bind; [apply _| |done].
  eapply redis_good; [apply (co_Set_expiry_writes _ _ 3600); [done|by apply (bool_decide_unpack _)]|].
  intros w1 r (_ & (_ & _ & Hc) & Hk & _) (? & _ & Hs). split; [done|].
  destruct Hs as [->|(t & _ & ->)]; [done|]. eapply coherent_fill; [done| |done..].
  destruct (account w id) as [v|] eqn:E; [|by inversion Ha]. by rewrite (Hk _ _ E : account (user_dao_ w1) id = Some v).
Qed.

Lemma co_GetUserById_repo_good id w : good evolves (co_UserRepository_GetUserById id) w.
Proof.
  apply good_bind; [apply _|apply cache_lookup_good|]. intros redis_res w1 _.
  destruct (cache_hit_outcome redis_res) as (hit & -> & _). destruct hit as [u|]; [done|]. simpl.
  intros w3 o w4 (_ & Hok3 & _) Ed Ho4. pose proof Hok3 as (Hok3' & Hcl3 & Hc3).
  unfold zoomM in Ed. simpl in Ed. destruct (GetUserById id (user_dao_ w3)) as [od d1] eqn:Ed'.
  injection Ed as <- <-. destruct (GetUserById_law _ _ _ _ Hok3' Ed' Ho4) as (Hokd & Ha & Hp & Hr).
  assert (evolves w3 (mkRepoWorld d1 (redis_client_ w3))) as Hev3.
  { split; [done|]. split; [split_and!; [done|done|by eapply coherent_same]|].
    split; intros k v; simpl; [by rewrite Ha|by rewrite Hp]. }
  split; [done|]. destruct od as [[[u|]|err]|e|]; [|done..]. destruct (Hr _ eq_refl) as [Hu Hwf].
  apply good_bind; [apply _| |done]. apply co_fill_cache_good.
  - simpl. by rewrite Ha.
  - by apply Hwf.
  - by apply (equiv_account_deleted u (user_dao_ w3) id).
Qed.

Lemma co_GetUserById_repo_found id w0 evs r :
  chain evolves w0 evs → exec (co_UserRepository_GetUserById id) evs (Done (Ret (Val r))) →
  ∃ e, e ∈ evs ∧ r ≡ account e.1 id.
Proof.
  intros Hc He. apply exec_bind_ret in He as (redis_res & evs1 & evs2 & -> & He1 & He2).
  destruct (chain_app evolves w0 _ _ Hc) as [Hc1 Hc2].
  destruct (cache_hit_outcome redis_res) as (hit & Eh & _). rewrite Eh in He2.
  apply exec_bind_ret in He2 as (hit' & ? & evs3 & -> & Hh & He2). apply exec_ret in Hh as [-> [= ->]]. destruct hit as [u|].
  { apply exec_ret in He2 as [-> [= ->]]. destruct (cache_lookup_found _ _ _ _ _ Hc1 He1 Eh) as (e & Hin & Hu).
    exists e. split; [by apply elem_of_app; left|done]. }
  apply exec_bind_ret in He2 as (db & evs4 & evs5 & -> & He3 & He4).
  apply exec_call in He3 as (w3 & w3' & -> & Ed & Ho).
  destruct (chain_ok _ _ (w3, w3') Hc2) as [(Hok3 & _) _]; [by left|].
  exists (w3, w3'). split; [apply elem_of_app; right; by left|].
  unfold zoomM in Ed. simpl in Ed. destruct (GetUserById id (user_dao_ w3)) as [od d1] eqn:Ed'. injection Ed as -> <-.
  destruct (GetUserById_law _ _ _ _ Hok3 Ed') as (_ & _ & _ & Hr); [done|].
  assert (db = Val r) as ->; [|by apply Hr].
  destruct db as [[u|]|err]; [|by apply exec_ret in He4 as [_ [= <-]]..].
  apply exec_bind_ret in He4 as (? & ? & ? & _ & _ & He4). by apply exec_ret in He4 as [_ [= <-]].
Qed.

Lemma co_GetUserById_repo_bounded id : bounded 7 (co_UserRepository_GetUserById id).
Proof.
  apply (bounded_bind 3 4); [apply bounded_pzoom, co_Get_bounded|]. intros r.
  apply (bounded_bind 0 4); [by destruct (cache_hit_outcome r) as (hit & -> & _)|]. intros [u|]; [done|].
  apply (bounded_bind 1 3); [apply bounded_call|]. intros [[u|]|e]; [|done..].
  apply (bounded_bind 3 0); [|done]. apply (bounded_try 3 0); [|done].
  apply (bounded_bind 0 3); [by destruct (json_dump_outcome (ToJson u)) as [[text ->]|[msg ->]]|]. intros text.
  by apply (bounded_bind 3 0); [apply bounded_pzoom, co_Set_expiry_bounded|].
Qed.

#[export] Instance CoUserRepository_cached_laws : CoUserStoreLaws (repo_world D).
Proof.
  split; simpl.
  - intros u w. apply (run_call (UserRepository_CreateUser u)).
  - apply co_UserRepository_alone.
  - intros phone w. apply (run_call (UserRepository_GetUserByPhoneNumber phone)).
  - intros u w Hwf. apply good_keeps_accounts. exact (CreateUser_keeps_accounts u Hwf).
  - apply co_GetUserById_repo_good.
  - intros phone w. apply good_keeps_store. exact (GetUserByPhoneNumber_keeps phone).
  - apply co_GetUserById_repo_found.
  - intros phone w0 evs r Hc (w & w' & -> & E & Ho)%(exec_call (UserRepository_GetUserByPhoneNumber phone)).
    exists (w, w'). split; [by left|]. destruct (chain_ok _ _ (w, w') Hc) as [Hok _]; [by left|].
    exact (GetUserByPhoneNumber_account phone w r w' Hok E).
  - intros u w0 evs Hwf Hc (w & w' & -> & E & Ho)%(exec_call (UserRepository_CreateUser u)).
    exists (w, w'). split; [by left|]. intros Hst. destruct (chain_ok _ _ (w, w') Hc) as [Hok _]; [by left|].
    destruct (CreateUser_fresh u w w' Hok Hwf E Hst) as [Hf1 Hf2]. split; [done|]. split; [done|].
    destruct (CreateUser_law u w _ w' Hok Hwf E Ho) as (_ & _ & _ & Hnew). by apply Hnew.
  - intros u. exact (bounded_call (UserRepository_CreateUser u)).
  - apply co_GetUserById_repo_bounded.
  - intros phone. exact (bounded_call (UserRepository_GetUserByPhoneNumber phone)).
Qed.

(** Redis lost entries: it restarted empty, or evicted some. *)
Definition forgets (w w' : repo_world D) : Prop :=
  user_dao_ w' = user_dao_ w ∧ client (redis_client_ w') = client (redis_client_ w)
  ∧ env_store (redis_client_ w') ⊆ env_store (redis_client_ w).

Lemma forgets_evolves w w' : repo_ok w → forgets w w' → evolves w w'.
Proof.
  intros Hok (Ed & Ec & Hsub). apply same_dao_evolves; [done| |done]. destruct Hok as (Hd & Hcl & Hc).
  split_and!; [by rewrite Ed|by rewrite Ec|]. intros id text dl j u Hm. rewrite Ed. eapply Hc.
  by eapply lookup_weaken.
Qed.
End repository_laws.

(** ** Inside a larger world *)
Section zoomed.
Context {W D} (l : lens W D) `{!LensLaws l} `{UserStoreLaws D} `{!CoUserRepository D} `{!CoUserStoreLaws D}.

#[local] Instance zoomed_users : IUserRepository W := zoom_users l.
#[local] Instance zoomed_laws : UserStoreLaws W := zoom_users_laws l.

Definition co_zoom_users : CoUserRepository W := {|
  co_CreateUser u := pzoom l (co_CreateUser u);
  co_GetUserById id := pzoom l (co_GetUserById id);
  co_GetUserByPhoneNumber phone := pzoom l (co_GetUserByPhoneNumber phone)
|}.

Lemma evolves_zoom (w w' : W) : evolves w w' ↔ evolves (lget l w) (lget l w').
Proof. done. Qed.

Lemma chain_zoom w0 evs : chain evolves w0 evs → chain evolves (lget l w0) (prod_map (lget l) (lget l) <$> evs).
Proof.
  revert w0. induction evs as [|[w w'] evs IH]; intros w0; [done|]. intros (Hw0 & Hw & Hc). split; [done|]. split; [done|].
  by apply IH.
Qed.

#[refine] Definition co_zoom_laws : @CoUserStoreLaws W _ _ co_zoom_users := {| co_CreateUser_alone u w := _ |}.
Proof.
  - simpl. rewrite (run_zoom l). unfold zoomM. by rewrite co_CreateUser_alone.
  - intros id w. simpl. rewrite (run_zoom l). unfold zoomM. by rewrite co_GetUserById_alone.
  - intros phone w. simpl. rewrite (run_zoom l). unfold zoomM. by rewrite co_GetUserByPhoneNumber_alone.
  - intros u w Hwf. by apply (good_pzoom l evolves), co_CreateUser_good.
  - intros id w. apply (good_pzoom l evolves), co_GetUserById_good.
  - intros phone w. apply (good_pzoom l evolves), co_GetUserByPhoneNumber_good.
  - intros id w0 evs r Hc%chain_zoom He%exec_zoom; [|done].
    destruct (co_GetUserById_found _ _ _ _ Hc He) as (e & (e' & Hin & ->)%elem_zoom & Hr). by exists e'.
  - intros phone w0 evs r Hc%chain_zoom He%exec_zoom; [|done].
    destruct (co_GetUserByPhoneNumber_found _ _ _ _ Hc He) as (e & (e' & Hin & ->)%elem_zoom & Hr). by exists e'.
  - intros u w0 evs Hwf Hc%chain_zoom He%exec_zoom; [|done].
    destruct (co_CreateUser_made _ _ _ Hwf Hc He) as (e & (e' & Hin & ->)%elem_zoom & Hr). by exists e'.
  - intros u. apply bounded_pzoom, co_CreateUser_bounded.
  - intros id. apply bounded_pzoom, co_GetUserById_bounded.
  - intros phone. apply bounded_pzoom, co_GetUserByPhoneNumber_bounded.
Qed.
End zoomed.

(** ** The methods, call by call *)
Section methods.
Context `{ServiceLaws W} `{!CoUserRepository W} `{!CoVerificationCodeRepository W} `{!CoServiceLaws W}.
Implicit Types (w : W) (evs : list (W * W)).

(** *** Alone *)

Lemma co_send_code_alone req b w : run (co_send_code req b) w = send_code req b w.
Proof.
  unfold co_send_code, send_code. destruct (negb b); [done|]. apply bind_alone; [apply run_call|]. intros c w1.
  by apply bind_alone; [apply co_SaveCode_alone|].
Qed.

Lemma body_alone c w : run (body c) w = service_method c w.
Proof.
  assert (∀ user w, run (co_issue_token user) w = issue_token user w) as Hissue.
  { intros user w1. apply bind_alone; [apply run_call|done]. }
  destruct c as [req|req|req|req|req]; apply bind_alone; try done; clear w; intros w.
  - apply bind_alone; [apply co_GetCode_alone|]. intros stored w1. destruct (negb _); [done|].
    apply bind_alone; [apply co_GetUserByPhoneNumber_alone|]. intros [[u|]|e] w2; [done| |done].
    apply bind_alone; [apply run_call|]. intros id w3. apply bind_alone; [apply run_call|]. intros salt w4.
    apply bind_alone; [apply co_CreateUser_alone|]. by intros [[]|e] w5.
  - unfold co_SendCode, SendCode. destruct (send_usage req); try done; [apply co_send_code_alone|..];
      (apply bind_alone; [apply co_GetUserByPhoneNumber_alone|]); intros [r|e] w1; try done; apply co_send_code_alone.
  - apply bind_alone; [apply co_GetUserById_alone|]. intros [[u|]|e] w1; [|done..]. destruct (negb _); [done|apply Hissue].
  - apply bind_alone; [apply co_GetCode_alone|]. intros stored w1. destruct (negb _); [done|].
    apply bind_alone; [apply co_GetUserByPhoneNumber_alone|]. intros [[u|]|e] w2; [apply Hissue|done..].
  - apply bind_alone; [apply co_GetUserById_alone|]. by intros [[u|]|e] w1.
Qed.

(** *** No harm *)

Lemma good_ret {A} (o : outcome A) w : good evolves (Done o) w.
Proof. done. Qed.

Lemma good_bind_any {A B} (p : prog W A) (f : A → prog W B) w :
  (∀ w, good evolves p w) → (∀ a w, good evolves (f a) w) → good evolves (pbind p f) w.
Proof. intros Hp Hf. apply good_bind; [apply _|done|auto]. Qed.

Lemma co_send_code_good req b w : good evolves (co_send_code req b) w.
Proof.
  unfold co_send_code. destruct (negb b); [done|].
  apply good_bind_any; [intros ?; apply good_keeps_store, Generate_keeps|]. intros c w1.
  by apply good_bind_any; [intros ?; apply co_SaveCode_good|].
Qed.

Lemma co_issue_token_good user w : good evolves (co_issue_token user) w.
Proof. apply good_bind_any; [intros ?; apply good_keeps_store, GenerateToken_keeps|done]. Qed.

Lemma co_Register_good req w : good evolves (co_Register req) w.
Proof.
  apply good_bind_any; [intros ?; apply co_GetCode_good|]. intros stored w1. destruct (negb _); [done|].
  apply good_bind_any; [apply co_GetUserByPhoneNumber_good|]. intros [[u|]|e] w2; [done| |done].
  apply good_bind_any; [intros ?; apply good_keeps_store, GenerateUUID_keeps|]. intros id w3.
  apply good_bind_any; [intros ?; apply good_keeps_store, GenerateSalt_keeps|]. intros salt w4.
  apply good_bind_any; [intros ?; apply co_CreateUser_good, registered_wf|]. by intros [[]|e] w5.
Qed.

Lemma co_SendCode_good req w : good evolves (co_SendCode req) w.
Proof.
  unfold co_SendCode. destruct (send_usage req); try done; [apply co_send_code_good|..];
    (apply good_bind_any; [apply co_GetUserByPhoneNumber_good|]); intros [r|e] w1; try done; apply co_send_code_good.
Qed.

Lemma co_LoginByPassword_good req w : good evolves (co_LoginByPassword req) w.
Proof.
  apply good_bind_any; [apply co_GetUserById_good|]. intros [[u|]|e] w1; [|done..].
  destruct (negb _); [done|apply co_issue_token_good].
Qed.

Lemma co_LoginByCode_good req w : good evolves (co_LoginByCode req) w.
Proof.
  apply good_bind_any; [intros ?; apply co_GetCode_good|]. intros stored w1. destruct (negb _); [done|].
  apply good_bind_any; [apply co_GetUserByPhoneNumber_good|]. intros [[u|]|e] w2; [apply co_issue_token_good|done..].
Qed.

Lemma co_GetUserInfo_good req w : good evolves (co_GetUserInfo req) w.
Proof. apply good_bind_any; [apply co_GetUserById_good|]. by intros [[u|]|e] w1. Qed.

Lemma body_good c w : good evolves (body c) w.
Proof.
  destruct c as [req|req|req|req|req]; (apply good_bind_any; [clear w; intros w|done]);
    [apply co_Register_good|apply co_SendCode_good|apply co_LoginByPassword_good|apply co_LoginByCode_good
    |apply co_GetUserInfo_good].
Qed.

(** *** Few calls *)

Lemma co_send_code_bounded req b : bounded 4 (co_send_code req b).
Proof.
  unfold co_send_code. destruct (negb b); [done|]. apply (bounded_bind 1 3); [apply bounded_call|]. intros c.
  by apply (bounded_bind 3 0); [apply co_SaveCode_bounded|].
Qed.

Lemma co_issue_token_bounded user : bounded 1 (co_issue_token user).
Proof. by apply (bounded_bind 1 0); [apply bounded_call|]. Qed.

Lemma co_Register_bounded req : bounded 7 (co_Register req).
Proof.
  apply (bounded_bind 3 4); [apply co_GetCode_bounded|]. intros stored. destruct (negb _); [done|].
  apply (bounded_bind 1 3); [apply co_GetUserByPhoneNumber_bounded|]. intros [[u|]|e]; [done| |done].
  apply (bounded_bind 1 2); [apply bounded_call|]. intros id.
  apply (bounded_bind 1 1); [apply bounded_call|]. intros salt.
  apply (bounded_bind 1 0); [apply co_CreateUser_bounded|]. by intros [[]|e].
Qed.

Lemma co_SendCode_bounded req : bounded 5 (co_SendCode req).
Proof.
  unfold co_SendCode. destruct (send_usage req); try done;
    [apply (bounded_more 4); [lia|apply co_send_code_bounded]|..];
    (apply (bounded_bind 1 4); [apply co_GetUserByPhoneNumber_bounded|]); intros [r|e]; try done; apply co_send_code_bounded.
Qed.

Lemma co_LoginByPassword_bounded req : bounded 8 (co_LoginByPassword req).
Proof.
  apply (bounded_bind 7 1); [apply co_GetUserById_bounded|]. intros [[u|]|e]; [|done..].
  destruct (negb _); [done|apply co_issue_token_bounded].
Qed.

Lemma co_LoginByCode_bounded req : bounded 5 (co_LoginByCode req).
Proof.
  apply (bounded_bind 3 2); [apply co_GetCode_bounded|]. intros stored. destruct (negb _); [done|].
  apply (bounded_bind 1 1); [apply co_GetUserByPhoneNumber_bounded|]. intros [[u|]|e]; [apply co_issue_token_bounded|done..].
Qed.

Lemma co_GetUserInfo_bounded req : bounded 7 (co_GetUserInfo req).
Proof. apply (bounded_bind 7 0); [apply co_GetUserById_bounded|]. by intros [[u|]|e]. Qed.

(** A request makes at most eight calls. *)
Lemma body_bounded c : bounded 8 (body c).
Proof.
  destruct c as [req|req|req|req|req]; (apply (bounded_bind 8 0); [|done]);
    [apply (bounded_more 7), co_Register_bounded|apply (bounded_more 5), co_SendCode_bounded|apply co_LoginByPassword_bounded
    |apply (bounded_more 5), co_LoginByCode_bounded|apply (bounded_more 7), co_GetUserInfo_bounded]; lia.
Qed.
End methods.

(** ** What an answer stands for *)
Section answers.
Context `{ServiceLaws W} `{!CoUserRepository W} `{!CoVerificationCodeRepository W} `{!CoServiceLaws W}.
Implicit Types (w : W) (evs : list (W * W)).

(** Among the request's own calls, one that went like this. *)
Definition did {A} evs (m : M W A) (a : A) : Prop := ∃ e, e ∈ evs ∧ m e.1 = (Ret a, e.2).

(** A code was generated and saved for five minutes. *)
Definition code_saved (req : SendCodeRequest) evs : Prop :=
  ∃ code, did evs (Generate 6) code ∧ performed evs (co_SaveCode (send_usage req) (send_phone_number req) code 300) ().

(** A token was issued while [P] held. *)
Definition token_issued evs (P : W → Prop) (id token : string) : Prop :=
  ∃ e, e ∈ evs ∧ P e.1 ∧ GenerateToken id e.1 = (Ret token, e.2).

(** The account of a registration: made by one of its calls. *)
Definition account_made (req : RegisterRequest) evs (id : string) : Prop :=
  ∃ e salt, e ∈ evs ∧ did evs GenerateSalt salt ∧ (storable (registered req id salt) →
    account e.1 id = None ∧ account_by_phone e.1 (reg_phone_number req) = None
    ∧ ∃ v, account e.2 id = Some v ∧ account_by_phone e.2 (reg_phone_number req) = Some v
        ∧ same_account (registered req id salt) v).

Definition SendCode_answer (req : SendCodeRequest) evs (resp : SendCodeResponse) : Prop :=
  match send_usage req with
  | USER_REGISTER => resp = mkSendCodeResponse Success ∧ code_saved req evs
  | USER_LOGIN | RESET_PASSWORD =>
      resp = mkSendCodeResponse (mkStatus INTERNAL_ERROR "系统内部错误")
      ∨ resp = mkSendCodeResponse Success
        ∧ ∃ e, e ∈ evs ∧ (account_by_phone e.1 (send_phone_number req) = None ∨ code_saved req evs)
  | _ => resp = mkSendCodeResponse (mkStatus INVALID_ARGUMENT "发送验证码用途不明")
  end.

Definition LoginByPassword_answer (req : LoginByPasswordRequest) evs (res : LoginResult) : Prop :=
  res = login_failure (mkStatus INTERNAL_ERROR "DB Error")
  ∨ ∃ e, e ∈ evs ∧
    match account e.1 (lp_user_id req) with
    | None => res = login_failure (mkStatus USER_NOT_FOUND "ID不存在")
    | Some v =>
        if VerifyPassword (lp_password req) (salt_ v) (password_hash_ v)
        then ∃ token, res = mkLoginResult Success token (id_ v)
               ∧ token_issued evs (λ w, account w (lp_user_id req) = Some v) (id_ v) token
        else res = login_failure (mkStatus PASSWORD_INCORRECT "密码错误")
    end.

Definition LoginByCode_answer (req : LoginByCodeRequest) evs (res : LoginResult) : Prop :=
  ∃ stored, performed evs (co_GetCode USER_LOGIN (lc_phone_number req)) stored ∧
    if bool_decide (stored = Some (lc_code req)) then
      res = login_failure (mkStatus INTERNAL_ERROR "DB Error")
      ∨ ∃ e, e ∈ evs ∧
        match account_by_phone e.1 (lc_phone_number req) with
        | None => res = login_failure (mkStatus USER_NOT_FOUND "该手机号未注册")
        | Some v => ∃ token, res = mkLoginResult Success token (id_ v)
            ∧ token_issued evs (λ w, account_by_phone w (lc_phone_number req) = Some v) (id_ v) token
        end
    else res = login_failure (mkStatus VERIFICATION_CODE_MISMATCH "验证码错误").

Definition Register_answer (req : RegisterRequest) evs (resp : RegisterResponse) : Prop :=
  ∃ stored, performed evs (co_GetCode USER_REGISTER (reg_phone_number req)) stored ∧
    if bool_decide (stored = Some (reg_code req)) then
      resp = register_failure (mkStatus INTERNAL_ERROR "Database Error")
      ∨ ∃ e, e ∈ evs ∧
        match account_by_phone e.1 (reg_phone_number req) with
        | Some _ => resp = register_failure (mkStatus USER_ALREADY_EXISTS "该手机号已注册")
        | None => resp = register_failure (mkStatus INTERNAL_ERROR "注册失败")
            ∨ ∃ id, resp = mkRegisterResponse Success id ∧ did evs GenerateUUID id ∧ account_made req evs id
        end
    else resp = register_failure (mkStatus VERIFICATION_CODE_MISMATCH "验证码错误").

Definition GetUserInfo_answer (req : GetUserInfoRequest) evs (resp : GetUserInfoResponse) : Prop :=
  resp = info_failure (mkStatus INTERNAL_ERROR "查询失败")
  ∨ ∃ e, e ∈ evs ∧ resp =
      match account e.1 (info_req_user_id req) with
      | None => info_failure (mkStatus USER_NOT_FOUND "用户不存在")
      | Some v => mkGetUserInfoResponse Success (id_ v) (value_or_empty (username_ v))
                    (value_or_empty (email_ v)) (value_or_empty (avatar_url_ v)) (phone_number_ v)
      end.

Definition answer_of (c : service_call) evs (a : service_answer) : Prop :=
  match c, a with
  | CallRegister req, Registered resp => Register_answer req evs resp
  | CallSendCode req, CodeSent resp => SendCode_answer req evs resp
  | CallLoginByPassword req, LoggedIn res => LoginByPassword_answer req evs res
  | CallLoginByCode req, LoggedIn res => LoginByCode_answer req evs res
  | CallGetUserInfo req, InfoGiven resp => GetUserInfo_answer req evs resp
  | _, _ => False
  end.

(** *** Read off the calls *)

Lemma did_call {A} evs1 evs evs2 (m : M W A) a :
  exec (call m) evs (Done (Ret a)) → did (evs1 ++ evs ++ evs2) m a.
Proof.
  intros (w & w' & -> & E & _)%exec_call. exists (w, w'). split; [|done]. rewrite !elem_of_app. right. left. by left.
Qed.

Lemma did_mono {A} evs evs' (m : M W A) a : evs ⊆ evs' → did evs m a → did evs' m a.
Proof. intros Hs (e & He & E). exists e. auto. Qed.

Lemma issue_token_answer w0 evs1 evs2 user (P : W → Prop) e res :
  chain evolves w0 (evs1 ++ evs2) → e ∈ evs1 → P e.1 → (∀ w w', evolves w w' → P w → P w') →
  exec (co_issue_token user) evs2 (Done (Ret res)) →
  ∃ token, res = mkLoginResult Success token (GetId user) ∧ token_issued (evs1 ++ evs2) P (GetId user) token.
Proof.
  intros Hc He HP Hmono Hx. apply exec_bind_ret in Hx as (token & evs3 & evs4 & -> & Ht & Hr).
  apply exec_ret in Hr as [-> [= ->]]. apply exec_call in Ht as (w & w' & -> & E & _).
  exists token. split; [done|]. exists (w, w'). split; [rewrite !elem_of_app; right; left; by left|]. split; [|done].
  destruct (chain_elem evolves w0 _ e Hc) as [_ He2]; [by apply elem_of_app; left|].
  apply (Hmono e.2 w).
  - eapply (chain_order evolves w0 evs1 _ e (w, w') Hc He). by left.
  - by apply (Hmono e.1).
Qed.

Lemma co_send_code_answer req evs resp :
  exec (co_send_code req true) evs (Done (Ret resp)) → resp = mkSendCodeResponse Success ∧ code_saved req evs.
Proof.
  intros He. apply exec_bind_ret in He as (c & evs1 & evs2 & -> & Hgen & He).
  apply exec_bind_ret in He as ([] & evs3 & evs4 & -> & Hsave & He). apply exec_ret in He as [-> [= ->]].
  split; [done|]. exists c. split; [by apply (did_call [])|by apply performed_part].
Qed.

Lemma code_saved_later req evs evs' : code_saved req evs → code_saved req (evs' ++ evs).
Proof.
  intros (c & Hd & Hp). exists c. split; [|by apply performed_later]. eapply did_mono, Hd. intros x Hx.
  apply elem_of_app. by right.
Qed.

Lemma SendCode_answered req w0 evs resp :
  chain evolves w0 evs → exec (co_SendCode req) evs (Done (Ret resp)) → SendCode_answer req evs resp.
Proof.
  unfold co_SendCode, SendCode_answer. intros Hc He.
  destruct (send_usage req); try by apply exec_ret in He as [_ [= ->]].
  1: by apply co_send_code_answer.
  all: apply exec_bind_ret in He as ([r|err] & evs1 & evs2 & -> & Hl & He);
    [right|left; by apply exec_ret in He as [_ [= ->]]];
    destruct (chain_app evolves w0 _ _ Hc) as [Hc1 _];
    destruct (co_GetUserByPhoneNumber_found _ _ _ _ Hc1 Hl) as (e & Hin & Hr);
    (assert (resp = mkSendCodeResponse Success ∧ (r = None ∨ code_saved req evs2)) as [-> Hs]
      by (destruct r as [u|]; [apply co_send_code_answer in He as [-> ?]; auto|by apply exec_ret in He as [_ [= ->]]; auto]));
    (split; [done|]); exists e; (split; [by apply elem_of_app; left|]);
    (destruct Hs as [->|?]; [left; by apply None_equiv_eq|right; by apply code_saved_later]).
Qed.

Lemma LoginByPassword_answered req w0 evs res :
  chain evolves w0 evs → exec (co_LoginByPassword req) evs (Done (Ret res)) → LoginByPassword_answer req evs res.
Proof.
  intros Hc He. apply exec_bind_ret in He as ([r|err] & evs1 & evs2 & -> & Hl & He);
    [right|left; by apply exec_ret in He as [_ [= ->]]].
  destruct (chain_app evolves w0 _ _ Hc) as [Hc1 _].
  destruct (co_GetUserById_found _ _ _ _ Hc1 Hl) as (e & Hin & Hr). exists e. split; [by apply elem_of_app; left|].
  destruct (equiv_option_cases _ _ Hr) as [[-> ->]|(u & v & -> & Hv & Huv)]; [by apply exec_ret in He as [_ [= ->]]|].
  rewrite Hv. rewrite <- (GetSalt_proper _ _ Huv : GetSalt u = salt_ v),
    <- (GetPasswordHash_proper _ _ Huv : GetPasswordHash u = password_hash_ v),
    <- (GetId_proper _ _ Huv : GetId u = id_ v).
  destruct (VerifyPassword _ _ _); cbn [negb] in He; [|by apply exec_ret in He as [_ [= ->]]].
  eapply (issue_token_answer w0); [done..| |done]. intros w w' (_ & _ & Hk & _). apply Hk.
Qed.

Lemma LoginByCode_answered req w0 evs res :
  chain evolves w0 evs → exec (co_LoginByCode req) evs (Done (Ret res)) → LoginByCode_answer req evs res.
Proof.
  intros Hc He. apply exec_bind_ret in He as (stored & evs1 & evs2 & -> & Hg & He). exists stored.
  split; [by apply (performed_part _ [])|]. case_bool_decide; cbn [negb] in He; [|by apply exec_ret in He as [_ [= ->]]].
  apply exec_bind_ret in He as ([r|err] & evs3 & evs4 & -> & Hl & He); [right|left; by apply exec_ret in He as [_ [= ->]]].
  destruct (chain_app evolves w0 _ _ Hc) as [_ Hc2]. destruct (chain_app evolves w0 _ _ Hc2) as [Hc3 _].
  destruct (co_GetUserByPhoneNumber_found _ _ _ _ Hc3 Hl) as (e & Hin & Hr). exists e.
  split; [rewrite !elem_of_app; auto|].
  destruct (equiv_option_cases _ _ Hr) as [[-> ->]|(u & v & -> & Hv & Huv)]; [by apply exec_ret in He as [_ [= ->]]|].
  rewrite Hv. rewrite <- (GetId_proper _ _ Huv : GetId u = id_ v). rewrite (assoc_L (++)%list) in *.
  eapply (issue_token_answer w0); [done|by apply elem_of_app; right|done| |done]. intros w w' (_ & _ & _ & Hk). apply Hk.
Qed.

Lemma Register_answered req w0 evs resp :
  chain evolves w0 evs → exec (co_Register req) evs (Done (Ret resp)) → Register_answer req evs resp.
Proof.
  intros Hc He. apply exec_bind_ret in He as (stored & evs1 & evs2 & -> & Hg & He). exists stored.
  split; [by apply (performed_part _ [])|]. case_bool_decide; cbn [negb] in He; [|by apply exec_ret in He as [_ [= ->]]].
  apply exec_bind_ret in He as ([r|err] & evs3 & evs4 & -> & Hl & He); [right|left; by apply exec_ret in He as [_ [= ->]]].
  destruct (chain_app evolves w0 _ _ Hc) as [_ Hc2]. destruct (chain_app evolves w0 _ _ Hc2) as [Hc3 Hc4].
  destruct (co_GetUserByPhoneNumber_found _ _ _ _ Hc3 Hl) as (e & Hin & Hr). exists e.
  split; [rewrite !elem_of_app; auto|].
  destruct (equiv_option_cases _ _ Hr) as [[-> ->]|(u & v & -> & -> & Huv)]; [|by apply exec_ret in He as [_ [= ->]]].
  apply exec_bind_ret in He as (id & evs5 & evs6 & -> & Hid & He).
  apply exec_bind_ret in He as (salt & evs7 & evs8 & -> & Hsalt & He).
  apply exec_bind_ret in He as ([[]|err] & evs9 & evs10 & -> & Hcr & He); apply exec_ret in He as [-> [= ->]]; [right|by left].
  exists id. split; [done|]. split; [rewrite (assoc_L (++)%list); by apply did_call|].
  destruct (chain_app evolves w0 _ _ Hc4) as [_ Hc8]. destruct (chain_app evolves w0 _ _ Hc8) as [_ Hc9].
  rewrite app_nil_r in Hc9. destruct (co_CreateUser_made _ _ _ (registered_wf req id salt) Hc9 Hcr) as (e' & He' & Hmade).
  exists e', salt. split; [rewrite !elem_of_app; auto 10|]. split; [|exact Hmade].
  rewrite 2!(assoc_L (++)%list). by apply did_call.
Qed.

Lemma GetUserInfo_answered req w0 evs resp :
  chain evolves w0 evs → exec (co_GetUserInfo req) evs (Done (Ret resp)) → GetUserInfo_answer req evs resp.
Proof.
  intros Hc He. apply exec_bind_ret in He as ([r|err] & evs1 & evs2 & -> & Hl & He);
    [right|left; by apply exec_ret in He as [_ [= ->]]].
  destruct (chain_app evolves w0 _ _ Hc) as [Hc1 _].
  destruct (co_GetUserById_found _ _ _ _ Hc1 Hl) as (e & Hin & Hr). exists e. split; [by apply elem_of_app; left|].
  destruct (equiv_option_cases _ _ Hr) as [[-> ->]|(u & v & -> & -> & Huv)]; apply exec_ret in He as [_ [= ->]]; [done|].
  by rewrite (GetId_proper _ _ Huv), (username_proper _ _ Huv), (email_proper _ _ Huv),
    (avatar_proper _ _ Huv), (GetPhoneNumber_proper _ _ Huv).
Qed.

Lemma body_answered c w0 evs a :
  chain evolves w0 evs → exec (body c) evs (Done (Ret a)) → answer_of c evs a.
Proof.
  intros Hc He. destruct c; apply exec_bind_ret in He as (r & evs1 & evs2 & -> & He & Hr);
    apply exec_ret in Hr as [-> [= ->]]; rewrite app_nil_r in *; simpl.
  - by eapply Register_answered.
  - by eapply SendCode_answered.
  - by eapply LoginByPassword_answered.
  - by eapply LoginByCode_answered.
  - by eapply GetUserInfo_answered.
Qed.
End answers.

(** ** Properties *)
Section properties.
Context `{ServiceLaws W} `{!CoUserRepository W} `{!CoVerificationCodeRepository W} `{!CoServiceLaws W}.
Implicit Types (w : W) (s : threads (W:=W) (C:=service_call) (R:=service_answer)).

Abbreviation served := (step (W:=W) (R:=service_answer) evolves body).

Lemma served_kept w s : store_ok w → rtc served (start w) s → kept evolves w s.
Proof.
  intros Hw Hrun. eapply reachable_kept; [apply _|by apply evolves_ok| |intros; apply body_good|done|exact Hrun].
  split; [done|]. split; [done|]. by split.
Qed.

Lemma served_answer w s i c a :
  store_ok w → rtc served (start w) s → running s !! i = Some (c, Done (Ret a)) →
  chain evolves w (events i (history s)) ∧ answer_of c (events i (history s)) a.
Proof.
  intros Hw Hrun Hi. pose proof (served_kept w s Hw Hrun) as Hk.
  assert (chain evolves w (events i (history s))) as Hc by by apply kept_events; [apply _|].
  split; [done|]. eapply body_answered; [done|]. by apply (reachable_recorded evolves body w s Hrun).
Qed.

(** C2: requests that run side by side are answered truthfully.  However the calls
    of any number of requests interleave, and whatever else changes the world
    between them as long as no account is lost (Redis restarts empty, another
    server creates accounts), on every branch of the five methods the answer
    tells what was so in the world of one of the request's own calls,
    between its arrival and its answer: a login's token was issued while the
    account was there whose password or stored code the request gave; a profile
    or a missing user was that of the store at the lookup; a registration's
    account was made, for a free id and number, by its own call; a code was saved
    for whom SendCode says; and meanwhile no account was ever lost. *)
Theorem concurrent_answers (w : W) (s : threads (W:=W) (C:=service_call) (R:=service_answer)) (i : nat)
    (c : service_call) (a : service_answer) (Hok : store_ok w) (Hrun : rtc (step evolves body) (start w) s)
    (Hi : running s !! i = Some (c, Done (Ret a))) :
  answer_of c (events i (history s)) a
  ∧ (∀ e, e ∈ events i (history s) → evolves w e.1 ∧ evolves e.1 e.2 ∧ evolves e.2 (shared s)).
Proof.
  destruct (served_answer w s i c a Hok Hrun Hi) as [Hc Ha]. split; [done|]. intros e He.
  pose proof (served_kept w s Hok Hrun) as Hk. destruct (chain_elem evolves w _ e Hc He) as [H1' H2'].
  split; [done|]. split; [done|]. apply elem_events in He. by apply (kept_past _ _ _ Hk) in He.
Qed.

Lemma success_made req evs id : Register_answer req evs (mkRegisterResponse Success id) → account_made req evs id.
Proof.
  intros (stored & _ & Ha). case_bool_decide; [|done]. destruct Ha as [?|(e & _ & Ha)]; [done|].
  destruct (account_by_phone e.1 _); [done|]. destruct Ha as [?|(id' & [= ->] & _ & ?)]; done.
Qed.

(** C5: no two registrations win.  However they interleave, and whatever other
    servers do to the same store, two requests that were both told that their
    registration succeeded have different ids and different phone numbers, and
    both accounts are there, with the password each gave: the check for an
    existing user, which another request may overtake, is not what keeps numbers
    unique. *)
Theorem registrations_unique (w : W) (s : threads (W:=W) (C:=service_call) (R:=service_answer)) (i j : nat)
    (req1 req2 : RegisterRequest) (id1 id2 : string) (Hok : store_ok w) (Hrun : rtc (step evolves body) (start w) s)
    (Hne : i ≠ j)
    (Hi : running s !! i = Some (CallRegister req1, Done (Ret (Registered (mkRegisterResponse Success id1)))))
    (Hj : running s !! j = Some (CallRegister req2, Done (Ret (Registered (mkRegisterResponse Success id2)))))
    (Hs1 : registrable (W:=W) req1 id1) (Hs2 : registrable (W:=W) req2 id2) :
  id1 ≠ id2 ∧ reg_phone_number req1 ≠ reg_phone_number req2
  ∧ ∃ v1 v2, account (shared s) id1 = Some v1 ∧ account_by_phone (shared s) (reg_phone_number req1) = Some v1
      ∧ VerifyPassword (reg_password req1) (salt_ v1) (password_hash_ v1) = true
      ∧ account (shared s) id2 = Some v2 ∧ account_by_phone (shared s) (reg_phone_number req2) = Some v2
      ∧ VerifyPassword (reg_password req2) (salt_ v2) (password_hash_ v2) = true.
Proof.
  destruct (served_answer _ _ _ _ _ Hok Hrun Hi) as [_ (e1 & salt1 & He1 & (es1 & _ & Hg1) & Hm1)%success_made].
  destruct (served_answer _ _ _ _ _ Hok Hrun Hj) as [_ (e2 & salt2 & He2 & (es2 & _ & Hg2) & Hm2)%success_made].
  destruct (Hm1 (Hs1 _ _ _ Hg1)) as (Hid1 & Hph1 & v1 & Hv1 & Hp1 & Hsame1).
  destruct (Hm2 (Hs2 _ _ _ Hg2)) as (Hid2 & Hph2 & v2 & Hv2 & Hp2 & Hsame2).
  pose proof (served_kept w s Hok Hrun) as Hk.
  pose proof (proj1 (elem_events _ _ _) He1) as Hh1. pose proof (proj1 (elem_events _ _ _) He2) as Hh2.
  destruct (kept_past _ _ _ Hk _ Hh1) as (_ & _ & Hl1 & Hl1'), (kept_past _ _ _ Hk _ Hh2) as (_ & _ & Hl2 & Hl2').
  assert (id1 ≠ id2 ∧ reg_phone_number req1 ≠ reg_phone_number req2) as [? ?].
  { destruct (kept_order evolves w s i j e1 e2 Hk Hne He1 He2) as [(_ & _ & Ha & Hp)|(_ & _ & Ha & Hp)].
    - apply Ha in Hv1. apply Hp in Hp1. split; intros E; rewrite E in *; congruence.
    - apply Ha in Hv2. apply Hp in Hp2. split; intros E; rewrite E in *; congruence. }
  split; [done|]. split; [done|]. exists v1, v2.
  destruct Hsame1 as (_ & _ & -> & -> & _), Hsame2 as (_ & _ & -> & -> & _). simpl.
  rewrite !VerifyPassword_HashPassword. split_and!; auto.
Qed.

(** C12: every request ends: from any state, with no new requests, there are at
    most eight more calls for each request, and when no request can go on, each has
    its answer or its exception, unless a collaborator's call does not return. *)
Theorem requests_finish (w : W) (s : threads (W:=W) (C:=service_call) (R:=service_answer))
    (Hrun : rtc (step evolves body) (start w) s) :
  (∀ n s', nsteps proceed n s s' → (n ≤ 8 * length (running s))%nat)
  ∧ ∀ s' i c p, rtc proceed s s' → (∀ s'', ¬ proceed s' s'') → running s' !! i = Some (c, p) →
      match p with Done o => o ≠ Pending | Await m k => (m (shared s')).1 = Pending end.
Proof.
  split.
  - intros n s' Hn. by eapply proceed_at_most; [apply body_bounded|..].
  - intros s' i c p Hrun' Hstuck Hi.
    assert (rtc (step evolves body) (start w) s') as Hrun2 by (etrans; [done|]; eapply rtc_subrel; [apply proceed_step|done]).
    pose proof (reachable_bounded evolves body 8 w s' body_bounded Hrun2) as Hall.
    apply (stuck_waiting 8 s' i c); [done..|]. exact (Forall_lookup_1 _ _ _ _ Hall Hi).
Qed.

End properties.
