(* ===== verification/Codes.v ===== *)
(** * Codes: where a verification code that opens a door came from

    A login by code and a registration stand and fall with the code that was
    stored for the number.  Here the coroutines of Coroutines.v are followed
    through the whole history of a run: whatever else they do, their calls put no
    code into the store, except those of a SendCode request, which puts the code
    it generated under the number and the usage it was asked for.  So every code
    that was accepted was either there from the start or was sent, for this number
    and this purpose, and not long before. *)

From stdpp Require Import base tactics option strings numbers list relations.
From S2P Require Import Prelude Programs Text Model User Interfaces AuthService BasicUserService Coroutines.

Open Scope string_scope.
Open Scope Z_scope.
Open Scope photon_scope.

(** ** The store of codes

    [code_entry w u t]: the code stored in [w] for usage [u] and target [t], and
    its deadline on the clock of the store. *)
Class CodeStore (W : Type) := {
  code_entry : W → CodeUsage → string → option (string * option Z);
  code_clock : W → Z
}.

Section relations.
Context `{CodeStore W}.

(** No code appears; codes may go. *)
Definition forgets_codes (w w' : W) : Prop :=
  code_clock w ≤ code_clock w' ∧ ∀ u t x, code_entry w' u t = Some x → code_entry w u t = Some x.

(** No code appears but this one, for [n] seconds from a moment in between. *)
Definition saves (u : CodeUsage) (t code : string) (n : Z) (w w' : W) : Prop :=
  code_clock w ≤ code_clock w' ∧ ∀ u' t' x, code_entry w' u' t' = Some x →
    code_entry w u' t' = Some x
    ∨ (u' = u ∧ t' = t ∧ ∃ s, code_clock w ≤ s ≤ code_clock w' ∧ x = (code, Some (s + n))).

Definition unexpired (s : Z) (deadline : option Z) : Prop := match deadline with Some d => s < d | None => True end.
End relations.

(** What the collaborators' coroutines do to it: only SaveCode saves. *)
Class CodeStoreLaws (W : Type) `{CodeStore W} `{CoUserRepository W} `{CoVerificationCodeRepository W}
    `{IVerificationCodeGenerator W} `{IIDGenerator W} `{ISecurityUtil W} `{IJwtUtil W} : Prop := {
  co_SaveCode_saves u t code n : 0 < n → in_s 32 n → always (saves u t code n) (co_SaveCode u t code n);
  co_GetCode_forgets u t : always forgets_codes (co_GetCode u t);
  (** a code that is read was there, and had not expired, at one of the calls *)
  co_GetCode_entry u t evs code :
    exec (co_GetCode u t) evs (Done (Ret (Some code))) →
    ∃ e s deadline, e ∈ evs ∧ code_entry e.1 u t = Some (code, deadline)
      ∧ code_clock e.1 ≤ s ≤ code_clock e.2 ∧ unexpired s deadline;
  co_CreateUser_forgets user : always forgets_codes (co_CreateUser user);
  co_GetUserById_forgets id : always forgets_codes (co_GetUserById id);
  co_GetUserByPhoneNumber_forgets phone : always forgets_codes (co_GetUserByPhoneNumber phone);
  Generate_forgets n : always forgets_codes (call (Generate n));
  GenerateUUID_forgets : always forgets_codes (call GenerateUUID);
  GenerateSalt_forgets : always forgets_codes (call GenerateSalt);
  GenerateToken_forgets id : always forgets_codes (call (GenerateToken id));
  VerifyToken_forgets t : always forgets_codes (call (VerifyToken t))
}.

#[export] Hint Resolve co_GetCode_forgets co_CreateUser_forgets co_GetUserById_forgets co_GetUserByPhoneNumber_forgets
  Generate_forgets GenerateUUID_forgets GenerateSalt_forgets GenerateToken_forgets VerifyToken_forgets : photon.

(** ** What one request does to the codes *)
Section requests.
Context `{CodeStoreLaws W}.
Implicit Types (evs : list (W * W)) (e : W * W).

(** The event brings no code, or the one that this request, a SendCode,
    generated, under its own usage and number, for five minutes. *)
Definition code_event (c : service_call) evs e : Prop :=
  forgets_codes e.1 e.2
  ∨ ∃ req code, c = CallSendCode req ∧ did evs (Generate 6) code
      ∧ saves (send_usage req) (send_phone_number req) code 300 e.1 e.2.

Lemma code_event_mono c evs evs' e : evs ⊆ evs' → code_event c evs e → code_event c evs' e.
Proof.
  intros Hs [?|(req & code & ? & ? & ?)]; [by left|]. right. exists req, code.
  split; [done|]. split; [by eapply did_mono|done].
Qed.

(** A part that brings none, then the rest. *)
Lemma bind_code_events {A B} c (p : prog W A) (f : A → prog W B) evs q e :
  always forgets_codes p → exec (pbind p f) evs q →
  (∀ a evs1 evs2, evs = (evs1 ++ evs2)%list → exec p evs1 (Done (Ret a)) → exec (f a) evs2 q → e ∈ evs2 → code_event c evs e) →
  e ∈ evs → code_event c evs e.
Proof.
  intros Hp [(p' & Hx & _)|(a & evs1 & evs2 & -> & Hx & Hf)]%exec_bind_any Hrest He.
  - left. by eapply always_exec.
  - apply elem_of_app in He as [He|He]; [left; by eapply always_exec|by eapply Hrest].
Qed.

Lemma ret_events {A} (o : outcome A) evs q : exec (Done (W:=W) o) evs q → evs = [].
Proof. by destruct evs as [|[w w'] evs]. Qed.

Lemma co_send_code_events req b evs q e :
  exec (co_send_code req b) evs q → e ∈ evs → code_event (CallSendCode req) evs e.
Proof.
  unfold co_send_code. destruct (negb b); [by intros ->%ret_events ?%elem_of_nil|]. intros Hx.
  eapply bind_code_events; [apply Generate_forgets|exact Hx|]. clear Hx. intros code evs1 evs2 -> Hg Hx He.
  right. exists req, code. split; [done|]. split; [by apply (did_call [])|].
  assert (always (saves (send_usage req) (send_phone_number req) code 300)
            (do~ co_SaveCode (send_usage req) (send_phone_number req) code 300 in ret (mkSendCodeResponse Success))) as Hs.
  { apply always_bind; [|done]. apply co_SaveCode_saves; [done|by apply (bool_decide_unpack _)]. }
  by eapply always_exec.
Qed.

Lemma co_SendCode_events req evs q e :
  exec (co_SendCode req) evs q → e ∈ evs → code_event (CallSendCode req) evs e.
Proof.
  unfold co_SendCode. destruct (send_usage req); try by intros ->%ret_events ?%elem_of_nil.
  1: apply co_send_code_events.
  all: intros Hx; (eapply bind_code_events; [apply co_GetUserByPhoneNumber_forgets|exact Hx|]); clear Hx.
  all: intros [u|err] evs1 evs2 -> _ Hx He.
  2,4: by apply ret_events in Hx as ->; apply elem_of_nil in He.
  all: eapply code_event_mono; [|by eapply co_send_code_events]; intros x; rewrite elem_of_app; auto.
Qed.

Lemma co_issue_token_forgets user : always forgets_codes (co_issue_token user).
Proof. by apply always_bind; [apply GenerateToken_forgets|]. Qed.

Lemma co_Register_forgets req : always forgets_codes (co_Register req).
Proof.
  apply always_bind; [apply co_GetCode_forgets|]. intros stored. destruct (negb _); [done|].
  apply always_bind; [apply co_GetUserByPhoneNumber_forgets|]. intros [[u|]|e]; [done| |done].
  apply always_bind; [apply GenerateUUID_forgets|]. intros id. apply always_bind; [apply GenerateSalt_forgets|]. intros salt.
  apply always_bind; [apply co_CreateUser_forgets|]. by intros [[]|e].
Qed.

Lemma co_LoginByPassword_forgets req : always forgets_codes (co_LoginByPassword req).
Proof.
  apply always_bind; [apply co_GetUserById_forgets|]. intros [[u|]|e]; [|done..].
  destruct (negb _); [done|apply co_issue_token_forgets].
Qed.

Lemma co_LoginByCode_forgets req : always forgets_codes (co_LoginByCode req).
Proof.
  apply always_bind; [apply co_GetCode_forgets|]. intros stored. destruct (negb _); [done|].
  apply always_bind; [apply co_GetUserByPhoneNumber_forgets|]. intros [[u|]|e]; [apply co_issue_token_forgets|done..].
Qed.

Lemma co_GetUserInfo_forgets req : always forgets_codes (co_GetUserInfo req).
Proof. apply always_bind; [apply co_GetUserById_forgets|]. by intros [[u|]|e]. Qed.

Lemma body_code_events c evs q e : exec (body c) evs q → e ∈ evs → code_event c evs e.
Proof.
  intros Hx He. destruct c as [req|req|req|req|req].
  2: { apply exec_bind_any in Hx as [(p' & Hx & _)|(a & evs1 & evs2 & -> & Hx & ->%ret_events)]; [by eapply co_SendCode_events|].
       rewrite app_nil_r in *. by eapply co_SendCode_events. }
  all: left; eapply (always_exec forgets_codes); [|exact Hx|exact He]; (apply always_bind; [|done]).
  - apply co_Register_forgets.
  - apply co_LoginByPassword_forgets.
  - apply co_LoginByCode_forgets.
  - apply co_GetUserInfo_forgets.
Qed.
End requests.

(** ** The whole run *)
Section run.
Context `{CodeStoreLaws W} (env : W → W → Prop) (Henv : ∀ w w', env w w' → forgets_codes w w').
Implicit Types (s : threads (W:=W) (C:=service_call) (R:=service_answer)).

(** Request [j] is a SendCode for this usage and number, which generated the
    code and, by the event [f], put it into the store until [deadline]; all
    that is in the history [h]. *)
Definition sent_by s (h : list (nat * (W * W))) (u : CodeUsage) (t : string) (x : string * option Z) (f : W * W) : Prop :=
  ∃ j req g since, fst <$> running s !! j = Some (CallSendCode req)
    ∧ send_usage req = u ∧ send_phone_number req = t
    ∧ (j, g) ∈ h ∧ Generate 6 g.1 = (Ret x.1, g.2)
    ∧ (j, f) ∈ h ∧ code_clock f.1 ≤ since ≤ code_clock f.2 ∧ x.2 = Some (since + 300) ∧ code_entry f.2 u t = Some x.

Definition accounted (w0 : W) s (h : list (nat * (W * W))) (w : W) : Prop :=
  ∀ u t x, code_entry w u t = Some x → code_entry w0 u t = Some x ∨ ∃ f, sent_by s h u t x f.

Record codes_inv (w0 : W) s : Prop := {
  codes_now : accounted w0 s (history s) (shared s);
  codes_clock e : e ∈ history s → code_clock e.2.2 ≤ code_clock (shared s);
  codes_past h1 i e h2 : history s = (h1 ++ (i, e) :: h2)%list →
    accounted w0 s h1 e.1 ∧ ∀ f, f ∈ h1 → code_clock f.2.2 ≤ code_clock e.1
}.

Lemma accounted_mono w0 s s' h h' w :
  (∀ j c, fst <$> running s !! j = Some c → fst <$> running s' !! j = Some c) → h ⊆ h' →
  accounted w0 s h w → accounted w0 s' h' w.
Proof.
  intros Hrun Hh Hw u t x Hx. destruct (Hw u t x Hx) as [?|(f & j & req & g & since & Hj & Hu & Ht & Hg & Hgen & Hf & Hs)]; [by left|].
  right. exists f, j, req, g, since. repeat (split; [by auto|]). exact Hs.
Qed.

Lemma accounted_forgets w0 s h w w' : forgets_codes w w' → accounted w0 s h w → accounted w0 s h w'.
Proof. intros [_ Hf] Hw u t x Hx. by apply Hw, Hf. Qed.

Lemma goes_running s s' i :
  goes i s = Some s' → ∀ j c, fst <$> running s !! j = Some c → fst <$> running s' !! j = Some c.
Proof.
  intros Es j c. destruct (goes_inv _ _ _ Es) as (ci & B & m & k & o & w' & Hi & _ & _ & ->). simpl.
  destruct (decide (i = j)) as [<-|Hne]; [|by rewrite list_lookup_insert_ne].
  rewrite list_lookup_insert_eq by by eapply lookup_lt_Some. by rewrite Hi.
Qed.

Lemma goes_codes w0 s s' i :
  recorded body s' → codes_inv w0 s → goes i s = Some s' → codes_inv w0 s'.
Proof.
  intros Hrec [Hnow Hclock Hpast] Es. pose proof (goes_running _ _ _ Es) as Hrun.
  destruct (goes_inv _ _ _ Es) as (c & B & m & k & o & w' & Hi & Hm & Ho & E).
  assert (running s' !! i = Some (c, k o)) as Hi'.
  { rewrite E. apply list_lookup_insert_eq. by eapply lookup_lt_Some. }
  set (ev := (shared s, w')) in *. assert (history s' = (history s ++ [(i, ev)])%list) as Eh by by rewrite E.
  assert (shared s' = w') as Ew by by rewrite E. clear E.
  assert (code_event c (events i (history s')) ev) as Hev.
  { eapply body_code_events; [by apply Hrec|]. apply elem_events. rewrite Eh. apply elem_of_app. right. by left. }
  assert (code_clock (shared s) ≤ code_clock w') as Hc by by destruct Hev as [[? _]|(? & ? & _ & _ & ? & _)].
  assert (accounted w0 s' (history s') (shared s)) as Hnow'.
  { eapply accounted_mono; [exact Hrun| |exact Hnow]. rewrite Eh. intros x. rewrite elem_of_app. auto. }
  split.
  - rewrite Ew. destruct Hev as [Hf|(req & code & -> & (g & Hg & Hgen) & Hsv)]; [by eapply accounted_forgets|].
    intros u t x Hx. destruct (proj2 Hsv u t x Hx) as [?|(-> & -> & since & Hs & ->)]; [by apply Hnow'|]. right.
    exists ev, i, req, g, since. rewrite Hi'. split_and!; try done; [by apply elem_events| |apply Hs|apply Hs].
    rewrite Eh. apply elem_of_app. right. by left.
  - rewrite Eh, Ew. intros e [He|He]%elem_of_app; [by etrans; [apply Hclock|]|].
    by apply list_elem_of_singleton in He as ->.
  - intros h1 i1 e h2. rewrite Eh. destruct h2 as [|x h2 _] using rev_ind.
    + intros [<- [= <- <-]]%app_inj_tail. simpl. split; [by eapply accounted_mono|done].
    + rewrite app_comm_cons, (assoc_L (++)%list). intros [Eh1 _]%app_inj_tail.
      destruct (Hpast _ _ _ _ Eh1) as [? ?]. split; [|done]. by eapply accounted_mono.
Qed.

Lemma reachable_codes w0 s : rtc (step env body) (start w0) s → recorded body s ∧ codes_inv w0 s.
Proof.
  intros Hrun. eapply (rtc_invariant (step env body) (λ s, recorded body s ∧ codes_inv w0 s)); [|exact Hrun|].
  - intros s1 s2 [Hrec Hinv] Hstep. pose proof (step_recorded env body _ _ Hrec Hstep) as Hrec2. split; [done|].
    destruct Hstep as [([c|i] & Es)|(w' & Hw & ->)].
    + injection Es as <-. destruct Hinv as [Hnow Hclock Hpast].
      assert (∀ j d, fst <$> running s1 !! j = Some d → fst <$> running (arrives body c s1) !! j = Some d) as Hr.
      { intros j d Hj. simpl. destruct (running s1 !! j) as [y|] eqn:Ej; [|done]. by rewrite (lookup_app_l_Some _ _ _ _ Ej). }
      split; [by eapply accounted_mono|exact Hclock|]. intros h1 i e h2 E. destruct (Hpast _ _ _ _ E) as [? ?].
      split; [by eapply accounted_mono|done].
    + by eapply goes_codes.
    + apply Henv in Hw. destruct Hinv as [Hnow Hclock Hpast]. split; [|intros e He; simpl|done].
      * by eapply accounted_forgets.
      * etrans; [by apply Hclock|apply Hw].
  - split; [by eapply (reachable_recorded env), rtc_refl|]. split; simpl.
    + intros u t x Hx. by left.
    + by intros e ?%elem_of_nil.
    + intros h1 i e h2 E. by destruct h1.
Qed.
End run.

(** ** Properties *)

(** The code with which a request got past the check, with its usage and number. *)
Definition code_used (c : service_call) (a : service_answer) : option (CodeUsage * string * string) :=
  match c, a with
  | CallLoginByCode req, LoggedIn res =>
      if bool_decide (code (login_status res) = VERIFICATION_CODE_MISMATCH) then None
      else Some (USER_LOGIN, lc_phone_number req, lc_code req)
  | CallRegister req, Registered resp =>
      if bool_decide (code (reg_status resp) = VERIFICATION_CODE_MISMATCH) then None
      else Some (USER_REGISTER, reg_phone_number req, reg_code req)
  | _, _ => None
  end.

Section properties.
Context `{CodeStoreLaws W}.

(** Who got past the check read that very code. *)
Lemma used_was_read c evs a u t cd :
  exec (body c) evs (Done (Ret a)) → code_used c a = Some (u, t, cd) → performed evs (co_GetCode u t) (Some cd).
Proof.
  intros Hx Hu. destruct c as [req|req|req|req|req]; try done; destruct a as [resp|resp|res|resp]; try done;
    simpl in Hu; case_bool_decide as Hst; [done|injection Hu as <- <- <-|done|injection Hu as <- <- <-];
    apply exec_bind_ret in Hx as (r & evs1 & evs2 & -> & Hx & [-> [= ->]]%exec_ret);
    apply exec_bind_ret in Hx as (stored & evs3 & evs4 & -> & Hg & Hx);
    (case_bool_decide as Hc; cbn [negb] in Hx; [subst stored|by apply exec_ret in Hx as [_ [= ->]]]);
    rewrite app_nil_r; by apply (performed_part _ []).
Qed.

(** No code is accepted that was not sent.  However the calls of any number
    of requests interleave, and whatever else happens to the store in between as
    long as it only loses codes (Redis restarts empty, entries expire): when a
    login by code or a registration got past the check of its code, that code
    was stored for this very number and purpose and had not expired at one of
    the request's own calls; and unless it was stored before the run began, a
    SendCode request for this number and purpose had generated it and put it
    there before that call, less than 300 seconds earlier on the store's clock. *)
Theorem codes_were_sent (env : W → W → Prop) (w : W) (s : threads (W:=W) (C:=service_call) (R:=service_answer))
    (i : nat) (c : service_call) (a : service_answer) (u : CodeUsage) (t cd : string)
    (Henv : ∀ w w', env w w' → forgets_codes w w')
    (Hrun : rtc (step env body) (start w) s) (Hi : running s !! i = Some (c, Done (Ret a)))
    (Hused : code_used c a = Some (u, t, cd)) :
  ∃ h1 e h2 deadline now, history s = (h1 ++ (i, e) :: h2)%list
    ∧ code_entry e.1 u t = Some (cd, deadline)
    ∧ code_clock e.1 ≤ now ≤ code_clock e.2 ∧ unexpired now deadline
    ∧ (code_entry w u t = Some (cd, deadline)
       ∨ ∃ f, sent_by s h1 u t (cd, deadline) f ∧ code_clock f.2 ≤ code_clock e.1 < code_clock f.2 + 300).
Proof.
  destruct (reachable_codes env Henv w s Hrun) as [Hrec Hinv].
  destruct (used_was_read _ _ _ _ _ _ (proj1 Hrec _ _ _ Hi) Hused) as (evs1 & evs2 & evs3 & Eevs & Hg).
  destruct (co_GetCode_entry _ _ _ _ Hg) as (e & now & deadline & He & Hentry & Hnow & Hlive).
  assert ((i, e) ∈ history s) as Hin.
  { apply elem_events. rewrite Eevs, !elem_of_app. auto. }
  apply list_elem_of_split in Hin as (h1 & h2 & Eh). destruct (codes_past _ _ Hinv _ _ _ _ Eh) as [Hacc Hbefore].
  exists h1, e, h2, deadline, now. split_and!; [done|done|apply Hnow|apply Hnow|done|].
  destruct (Hacc _ _ _ Hentry) as [?|(f & Hf)]; [by left|]. right. exists f. split; [done|].
  destruct Hf as (j & req & g & since & _ & _ & _ & _ & _ & Hfin & Hs & Hd & _). simpl in Hd. subst deadline.
  specialize (Hbefore _ Hfin). simpl in *. lia.
Qed.
End properties.
