(* ===== verification/CallData.v ===== *)
(** * CallData: requests on the completion queue (adapter/v2)

    [CallData] (adapter/v2/call_data/interface/call_data.hpp) and
    [CallDataManager].  A pool of CallData objects is driven by worker threads
    (HandleRpc), by the coroutines of the io_context and by gRPC.  A handler is
    the list of its effects in the order of the code, and the step relation
    interleaves the effects of all handlers one by one, so an effect another
    thread can see is modelled where it happens: CallData's status must be set
    before the coroutine is spawned, because a reply can reach the queue, and a
    second worker, before the first worker's handler has returned.  A method's
    logic is a coroutine too (Programs.v), and between two of its calls anything
    else may go on. *)

From stdpp Require Import base tactics option strings numbers relations list.
From S2P Require Import Prelude Programs Text Model Interfaces.

Open Scope string_scope.
Open Scope photon_scope.

(** ** gRPC's types *)

Inductive StatusCode := OK | UNAUTHENTICATED | INTERNAL.
Record Status := mkGrpcStatus { error_code : StatusCode; error_message : string }.
Definition Status_OK : Status := mkGrpcStatus OK "".

#[export] Instance StatusCode_eq_dec : EqDecision StatusCode.
Proof. solve_decision. Defined.
#[export] Instance Status_eq_dec : EqDecision Status.
Proof. solve_decision. Defined.

(** A [grpc::ServerContext]: the call it was given, if any, and its metadata. *)
Record ServerContext := mkContext { call : option nat; client_metadata : list (string * string) }.
Definition ServerContext_new : ServerContext := mkContext None [].

(** [std::multimap::find]. *)
Definition metadata_find (k : string) (md : list (string * string)) : option string :=
  match list_find (λ kv, kv.1 = k) md with Some (_, kv) => Some kv.2 | None => None end.

(** A [ServerAsyncResponseWriter] answers once. *)
Inductive responder := ResponderReady | ResponderUsed.

(** [State]. *)
Inductive State := WAIT_PROCESSING | FINISHED.

(** The frame of a suspended coroutine over the world and the reply it fills:
    the calls it made, as they went, and what it has left to do. *)
Record frame (Rsp W : Type) := mkFrame {
  made : list ((W * Rsp) * (W * Rsp));
  left_ : prog (W * Rsp) ()
}.
Arguments mkFrame {Rsp W}.
Arguments made {Rsp W}.
Arguments left_ {Rsp W}.

(** The members of a [CallData]; the manager is [SpecificCallData].  The last
    field is no member: it is the frame of the coroutine spawned for it, while
    that lives. *)
Record CallData (Req Rsp W : Type) := mkCallData {
  status_ : State;
  request_ : Req;
  reply_ : Rsp;
  ctx_ : ServerContext;
  responder_ : responder;
  coroutine_ : option (frame Rsp W)
}.
Arguments mkCallData {Req Rsp W}.
Arguments status_ {Req Rsp W}.
Arguments request_ {Req Rsp W}.
Arguments reply_ {Req Rsp W}.
Arguments ctx_ {Req Rsp W}.
Arguments responder_ {Req Rsp W}.
Arguments coroutine_ {Req Rsp W}.

(** What a derived class gives to the template: the default messages, whether
    the method requires a token, and its logic, which reads the user id and the
    request and writes the reply (the concept [HasRunSpecificLogic]). *)
Class SpecificCallData (Req Rsp W : Type) := {
  RequestType_new : Req;
  ResponseType_new : Rsp;
  kRequiresAuth : bool;
  RunSpecificLogic : string → Req → prog (W * Rsp) ()
}.

Section call_data.
Context {Req Rsp W : Type} `{IJwtUtil W} `{!SpecificCallData Req Rsp W}.
Abbreviation CallData := (CallData Req Rsp W).
Implicit Types (cd : CallData) (w : W).

(** ** Operations *)

(** The effects of a handler. *)
Inductive op :=
| SetStatus (st : State)
| ResetOp
| RegisterCallDataToCQ
| Finish (status : Status)
| CoSpawn (user_id : string).

Definition CallData_make : CallData :=
  mkCallData WAIT_PROCESSING RequestType_new ResponseType_new ServerContext_new ResponderReady None.

Definition set_status (st : State) cd : CallData :=
  mkCallData st (request_ cd) (reply_ cd) (ctx_ cd) (responder_ cd) (coroutine_ cd).

(** Reset. *)
Definition Reset cd : CallData :=
  mkCallData (status_ cd) RequestType_new ResponseType_new ServerContext_new ResponderReady (coroutine_ cd).

Definition PerformAuthentication (ctx : ServerContext) : M W (expected string Status) :=
  match metadata_find "authorization" (client_metadata ctx) with
  | None => retM (Unexpected (mkGrpcStatus UNAUTHENTICATED "Missing Authorization Header"))
  | Some value =>
      let token := if String.prefix "Bearer " value then String.substring 7 (String.length value - 7) value
                   else value in
      let* result := VerifyToken token in
      match result with
      | Unexpected _ => retM (Unexpected (mkGrpcStatus UNAUTHENTICATED "Invalid Token"))
      | Val id => retM (Val id)
      end
  end.

Definition HandleProcess cd : M W (list op) :=
  let spawn user_id := [SetStatus FINISHED; CoSpawn user_id] in
  if kRequiresAuth then
    let* auth_result := PerformAuthentication (ctx_ cd) in
    match auth_result with
    | Unexpected status => retM [SetStatus FINISHED; Finish status]
    | Val user_id => retM (spawn user_id)
    end
  else retM (spawn "").

Definition HandleFinish : list op := [SetStatus WAIT_PROCESSING; ResetOp; RegisterCallDataToCQ].

Definition Proceed (ok : bool) cd : M W (list op) :=
  if negb ok then retM HandleFinish
  else match status_ cd with
       | WAIT_PROCESSING => HandleProcess cd
       | FINISHED => retM HandleFinish
       end.

Definition set_coroutine (f : option (frame Rsp W)) (reply : Rsp) cd : CallData :=
  mkCallData (status_ cd) (request_ cd) reply (ctx_ cd) (responder_ cd) f.

(** [co_spawn(RunLogic(user_id))]: the coroutine, not started; [request_] and
    [reply_] are the members. *)
Definition RunLogic (user_id : string) cd : CallData :=
  set_coroutine (Some (mkFrame [] (RunSpecificLogic user_id (request_ cd)))) (reply_ cd) cd.

(** RunLogic goes on to its next suspension, or ends, possibly with an exception.
    A call that does not return takes no step. *)
Definition RunLogic_goes w cd : option (W * CallData * option (option exn)) :=
  match coroutine_ cd with
  | Some (mkFrame did (Await m k)) =>
      match m (w, reply_ cd) with
      | (Pending, _) => None
      | (o, (w', reply)) =>
          Some (w', set_coroutine (Some (mkFrame (did ++ [((w, reply_ cd), (w', reply))])%list (k o))) reply cd, None)
      end
  | Some (mkFrame _ (Done (Ret _))) => Some (w, set_coroutine None (reply_ cd) cd, Some None)
  | Some (mkFrame _ (Done (Throw ex))) => Some (w, set_coroutine None (reply_ cd) cd, Some (Some ex))
  | _ => None
  end.

(** The status OnLogicFinished sends for the exception that ended the coroutine. *)
Definition logic_status (e : option exn) : Status :=
  match e with
  | None => Status_OK
  | Some ex => mkGrpcStatus INTERNAL (if is_std_exception ex then what ex else "Unknown exception type")
  end.

Definition OnLogicFinished (e : option exn) : list op := [Finish (logic_status e)].

(** ** The manager and the completion queue

    What is going on for one CallData: its tag is with gRPC for the next request
    of its method ([Registered]), is an event in the completion queue
    ([Event]), a handler runs for it on some thread with these effects left
    ([Running]), its coroutine runs its logic ([Coroutine]), or gRPC is sending
    its reply ([Sending]). *)
Inductive act :=
| Registered
| Event (ok : bool)
| Running (ops : list op)
| Coroutine
| Sending.

(** A reply as gRPC got it: the call of the responder's context, whether the
    responder was unused, and what was sent. *)
Record reply_sent := mkSent { re_call : option nat; re_ready : responder; re_status : Status; re_reply : Rsp }.

(** The rest of the process: calls accepted so far (a call is named by its
    place), replies sent, and the world the services run in. *)
Record env := mkEnv {
  accepted : list (list (string * string) * Req);
  sent : list reply_sent;
  world : W
}.

Definition with_world w (e : env) : env := mkEnv (accepted e) (sent e) w.

Record server := mkServer { cells : list (CallData * list act); down : bool; the_env : env }.

(** The constructor of ICallDataManager, and that of CallDataManager after it. *)
Definition ICallDataManager_make {Q} (cq : option Q) : outcome () :=
  match cq with
  | None => Throw (Exn invalid_argument "CQ cannot be null.")
  | Some _ => Ret ()
  end.

Definition CallDataManager_make {G B J Q} (grpc_service : option G) (business_service : option B)
    (jwt_util : option J) (cq : option Q) : outcome () :=
  let+ _ := ICallDataManager_make cq in
  match grpc_service, jwt_util, business_service with
  | Some _, Some _, Some _ => Ret ()
  | _, _, _ => Throw (Exn invalid_argument "Service, JwtUtil, Business Service cannot be null.")
  end.

(** Start: each new CallData is registered, and kept in [pool_]. *)
Fixpoint Start (initial_size : nat) (pool : list (CallData * list act)) : list (CallData * list act) :=
  match initial_size with
  | O => pool
  | S n => Start n (pool ++ [(CallData_make, [Registered])])%list
  end.

(** One effect, with what it sets going. *)
Definition exec (o : op) (e : env) cd : env * CallData * list act :=
  match o with
  | SetStatus st => (e, set_status st cd, [])
  | ResetOp => (e, Reset cd, [])
  | RegisterCallDataToCQ => (e, cd, [Registered])
  | CoSpawn user_id => (e, RunLogic user_id cd, [Coroutine])
  | Finish status =>
      (mkEnv (accepted e) (sent e ++ [mkSent (call (ctx_ cd)) (responder_ cd) status (reply_ cd)])%list (world e),
       mkCallData (status_ cd) (request_ cd) (reply_ cd) (ctx_ cd) ResponderUsed (coroutine_ cd), [Sending])
  end.

Definition rest (ops : list op) : list act := match ops with [] => [] | _ => [Running ops] end.

(** What the environment decides: gRPC hands a call to a registered CallData or,
    once shut down, gives its tag back with [ok] false; a send ends with some
    [ok]; threads and coroutines go on. *)
Inductive choice := Accept (md : list (string * string)) (rq : Req) | Cancel | Sent (ok : bool) | Go.

Definition act_step (is_down : bool) (ch : choice) (e : env) cd (a : act)
    : option (env * CallData * list act) :=
  match a, ch with
  | Registered, Accept md rq =>
      if is_down then None
      else Some (mkEnv (accepted e ++ [(md, rq)])%list (sent e) (world e),
                 mkCallData (status_ cd) rq (reply_ cd) (mkContext (Some (length (accepted e))) md) (responder_ cd)
                   (coroutine_ cd),
                 [Event true])
  | Registered, Cancel => if is_down then Some (e, cd, [Event false]) else None
  | Event ok, Go =>
      match Proceed ok cd (world e) with
      | (Ret ops, w') => Some (with_world w' e, cd, rest ops)
      | _ => None
      end
  | Running (o :: ops), Go => let '(e', cd', acts) := exec o e cd in Some (e', cd', (rest ops ++ acts)%list)
  | Coroutine, Go =>
      '(w', cd', ended) ← RunLogic_goes (world e) cd;
      Some (with_world w' e, cd', match ended with None => [Coroutine] | Some o => rest (OnLogicFinished o) end)
  | Sending, Sent ok => Some (e, cd, [Event ok])
  | _, _ => None
  end.

(** What can happen: activity [j] of CallData [i] takes a step, the server is
    shut down, the rest of the process changes the world. *)
Inductive happening := Cell (i j : nat) (ch : choice) | ShutDown | World w.

Definition happen (h : happening) (s : server) : option server :=
  match h with
  | Cell i j ch =>
      '(cd, acts) ← cells s !! i;
      a ← acts !! j;
      '(e', cd', new) ← act_step (down s) ch (the_env s) cd a;
      Some (mkServer (<[i := (cd', (take j acts ++ new ++ drop (S j) acts)%list)]> (cells s)) (down s) e')
  | ShutDown => Some (mkServer (cells s) true (the_env s))
  | World w => Some (mkServer (cells s) (down s) (with_world w (the_env s)))
  end.

Definition step (s s' : server) : Prop := ∃ h, happen h s = Some s'.

(** Runs in which the rest of the process changes the world as [E] allows, and
    whose worlds all satisfy [O]. *)
Definition step_in (E : W → W → Prop) (O : W → Prop) (s s' : server) : Prop :=
  (∃ h, happen h s = Some s' ∧ ∀ w, h = World w → E (world (the_env s)) w)
  ∧ O (world (the_env s)) ∧ O (world (the_env s')).

(** The server after SeedCallData has started this manager. *)
Definition started (n : nat) w : server := mkServer (Start n []) false (mkEnv [] [] w).

Fixpoint happen_all (hs : list happening) (s : server) : option server :=
  match hs with
  | [] => Some s
  | h :: hs => s' ← happen h s; happen_all hs s'
  end.

Lemma happen_all_rtc hs s s' : happen_all hs s = Some s' → rtc step s s'.
Proof.
  revert s. induction hs as [|h hs IH]; intros s; simpl; [by intros [= ->]|].
  intros (s1 & Hs1 & Hs')%bind_Some. eapply rtc_l; [by exists h|by apply IH].
Qed.
End call_data.

(** ** Where a request is

    [E w w'] is how the world may change; the methods promise to change it only
    so, and rely on everything else doing the same.  [O] holds of every world of
    the run. *)
Class Considerate {Req Rsp W : Type} `{IJwtUtil W} `{!SpecificCallData Req Rsp W} (E : W → W → Prop) (w0 : W) : Prop := {
  cons_trans : Transitive E;
  cons_later w w' : E w w' → E w' w';
  cons_start : E w0 w0;
  cons_verify t w o w' : E w0 w → VerifyToken t w = (o, w') → o ≠ Pending → E w w';
  cons_logic uid rq w r : E w0 w → good (λ x x', E x.1 x'.1) (RunSpecificLogic (Rsp:=Rsp) uid rq) (w, r)
}.

(** The reply before and after these calls. *)
Fixpoint filled {Rsp W : Type} (r : Rsp) (did : list ((W * Rsp) * (W * Rsp))) (r' : Rsp) : Prop :=
  match did with [] => r = r' | (x, x') :: did' => x.2 = r ∧ filled x'.2 did' r' end.

Definition worlds {Rsp W : Type} (did : list ((W * Rsp) * (W * Rsp))) : list (W * W) := prod_map fst fst <$> did.

Lemma filled_app {Rsp W : Type} (r r' : Rsp) (did did' : list ((W * Rsp) * (W * Rsp))) :
  filled r (did ++ did')%list r' ↔ ∃ r1, filled r did r1 ∧ filled r1 did' r'.
Proof.
  revert r. induction did as [|[x x'] did IH]; intros r; simpl.
  - split; [by exists r|by intros (r1 & -> & ?)].
  - rewrite IH. split; [intros (? & r1 & ? & ?)|intros (r1 & (? & ?) & ?)]; eauto.
Qed.

(** [answer md rq status reply]: a reply that the method may give to a request,
    whatever else goes on: the refusal of its metadata, or the result of one run
    of the method's logic on this request, for the user its token names, from an
    empty reply, each of its calls in a world that came after the one before. *)
Section invariant.
Context {Req Rsp W : Type} `{IJwtUtil W} `{!SpecificCallData Req Rsp W}.
Abbreviation CallData := (CallData Req Rsp W).
Abbreviation env := (@env Req Rsp W).
Abbreviation server := (@server Req Rsp W).
Implicit Types (cd : CallData) (w : W) (e : env) (s : server).
Context (E : W → W → Prop) (O : W → Prop) (w0 : W).

Definition authorised (md : list (string * string)) (user_id : string) : Prop :=
  if kRequiresAuth then ∃ c w, E w0 w ∧ O w ∧ (PerformAuthentication (mkContext c md) w).1 = Ret (Val user_id)
  else user_id = "".

Definition refused (md : list (string * string)) (status : Status) : Prop :=
  kRequiresAuth = true ∧ ∃ c w, E w0 w ∧ O w ∧ (PerformAuthentication (mkContext c md) w).1 = Ret (Unexpected status).

(** The calls [did] of the method's logic for this user and request, filling
    [reply] and leaving [p]. *)
Definition ran (user_id : string) (rq : Req) (did : list ((W * Rsp) * (W * Rsp))) (reply : Rsp) (p : prog (W * Rsp) ()) : Prop :=
  Programs.exec (RunSpecificLogic user_id rq) did p ∧ filled ResponseType_new did reply
  ∧ chain E w0 (worlds did) ∧ Forall (λ x, O x.1 ∧ O x.2) (worlds did).

Definition answer (md : list (string * string)) (rq : Req) (status : Status) (reply : Rsp) : Prop :=
  (refused md status ∧ reply = ResponseType_new)
  ∨ ∃ user_id did o, authorised md user_id ∧ ran user_id rq did reply (Done o)
      ∧ match o with
        | Ret _ => status = Status_OK
        | Throw ex => status = logic_status (Some ex)
        | Pending => False
        end.

(** A CallData that holds call [c], with an unused responder. *)
Definition serving e cd (c : nat) : Prop :=
  call (ctx_ cd) = Some c ∧ responder_ cd = ResponderReady
  ∧ accepted e !! c = Some (client_metadata (ctx_ cd), request_ cd).

(** The phases of a CallData: its one activity, and the call it owes a reply. *)
Inductive phase e : CallData → act → option nat → Prop :=
| ph_registered : phase e CallData_make Registered None
| ph_cancelled : phase e CallData_make (Event false) None
| ph_accepted cd c : serving e cd c → status_ cd = WAIT_PROCESSING → reply_ cd = ResponseType_new →
    coroutine_ cd = None → phase e cd (Event true) (Some c)
| ph_refusing cd c st : serving e cd c → reply_ cd = ResponseType_new → coroutine_ cd = None →
    refused (client_metadata (ctx_ cd)) st → phase e cd (Running [SetStatus FINISHED; Finish st]) (Some c)
| ph_spawning cd c uid : serving e cd c → reply_ cd = ResponseType_new →
    authorised (client_metadata (ctx_ cd)) uid →
    phase e cd (Running [SetStatus FINISHED; CoSpawn uid]) (Some c)
| ph_spawn cd c uid : serving e cd c → status_ cd = FINISHED → reply_ cd = ResponseType_new →
    authorised (client_metadata (ctx_ cd)) uid → phase e cd (Running [CoSpawn uid]) (Some c)
| ph_coroutine cd c uid did p : serving e cd c → status_ cd = FINISHED → coroutine_ cd = Some (mkFrame did p) →
    authorised (client_metadata (ctx_ cd)) uid → ran uid (request_ cd) did (reply_ cd) p →
    (∀ x, x ∈ worlds did → E x.2 (world e)) → good (λ x x', E x.1 x'.1) p (world e, reply_ cd) →
    phase e cd Coroutine (Some c)
| ph_answering cd c st : serving e cd c → status_ cd = FINISHED → coroutine_ cd = None →
    answer (client_metadata (ctx_ cd)) (request_ cd) st (reply_ cd) →
    phase e cd (Running [Finish st]) (Some c)
| ph_sending cd : status_ cd = FINISHED → coroutine_ cd = None → phase e cd Sending None
| ph_sent cd ok : status_ cd = FINISHED → coroutine_ cd = None → phase e cd (Event ok) None
| ph_finish cd : coroutine_ cd = None →
    phase e cd (Running [SetStatus WAIT_PROCESSING; ResetOp; RegisterCallDataToCQ]) None
| ph_reset cd : status_ cd = WAIT_PROCESSING → coroutine_ cd = None →
    phase e cd (Running [ResetOp; RegisterCallDataToCQ]) None
| ph_register : phase e CallData_make (Running [RegisterCallDataToCQ]) None.
#[local] Hint Constructors phase : core.

(** A reply sent is the answer to the call it went to. *)
Definition reply_ok e (r : reply_sent) : Prop :=
  re_ready r = ResponderReady ∧ ∃ c md rq, re_call r = Some c ∧ accepted e !! c = Some (md, rq)
    ∧ answer md rq (re_status r) (re_reply r).

Definition replied e : list nat := omap re_call (sent e).

(** Every call accepted is owed by exactly one CallData, or has been answered
    exactly once. *)
Definition cell_ok e (cell : CallData * list act) (owed : option nat) : Prop :=
  ∃ a, cell.2 = [a] ∧ phase e cell.1 a owed.

Definition rpc_inv s (owed : list (option nat)) : Prop :=
  Forall2 (cell_ok (the_env s)) (cells s) owed
  ∧ (omap id owed ++ replied (the_env s))%list ≡ₚ seq 0 (length (accepted (the_env s)))
  ∧ Forall (reply_ok (the_env s)) (sent (the_env s))
  ∧ E w0 (world (the_env s)).

(** What one step of an activity does to the calls owed and answered. *)
Definition ledger e (owed : option nat) e' (owed' : option nat) : Prop :=
  (∃ l, accepted e' = (accepted e ++ l)%list)
  ∧ (Forall (reply_ok e) (sent e) → Forall (reply_ok e') (sent e'))
  ∧ (option_list owed' ++ replied e' ++ seq 0 (length (accepted e)))%list
    ≡ₚ (option_list owed ++ replied e ++ seq 0 (length (accepted e')))%list.

Lemma serving_mono e e' cd c l :
  accepted e' = (accepted e ++ l)%list → serving e cd c → serving e' cd c.
Proof. intros He (Hc & Hr & Ha). split_and!; [done..|]. rewrite He. by apply lookup_app_l_Some. Qed.

Context `{!Considerate (Rsp:=Rsp) E w0}.

#[local] Instance considerate_trans : Transitive E := cons_trans.
#[local] Instance pairs_trans : Transitive (λ x x' : W * Rsp, E x.1 x'.1).
Proof. intros x y z. apply cons_trans. Qed.

Lemma phase_mono e e' cd a owed l :
  accepted e' = (accepted e ++ l)%list → E (world e) (world e') → phase e cd a owed → phase e' cd a owed.
Proof.
  intros He Hw Hph. destruct Hph; eauto using serving_mono.
  eapply ph_coroutine; eauto using serving_mono; [intros x Hx; trans (world e); auto|].
  by apply (good_later _ _ (world e, reply_ cd)).
Qed.

Lemma reply_ok_mono e e' r l :
  accepted e' = (accepted e ++ l)%list → reply_ok e r → reply_ok e' r.
Proof.
  intros He (Hr & c & md & rq & Hc & Ha & Hans). split; [done|].
  exists c, md, rq. rewrite He. by split_and!; [|apply lookup_app_l_Some|].
Qed.

Lemma ledger_refl e owed w : ledger e owed (with_world w e) owed.
Proof. split_and!; [by exists []; rewrite app_nil_r|done|done]. Qed.

Lemma ledger_same e owed : ledger e owed e owed.
Proof. split_and!; [by exists []; rewrite app_nil_r|done|done]. Qed.

Lemma ledger_accept e md rq :
  ledger e None (mkEnv (accepted e ++ [(md, rq)])%list (sent e) (world e)) (Some (length (accepted e))).
Proof.
  split_and!; [by eexists| |].
  - intros Hf. eapply Forall_impl; [exact Hf|]. intros r. by apply reply_ok_mono with [(md, rq)].
  - simpl. rewrite length_app, seq_app. simpl. unfold replied. simpl.
    rewrite (assoc_L (++)%list). rewrite <- Permutation_cons_append. done.
Qed.

Lemma ledger_finish e cd c st :
  serving e cd c → answer (client_metadata (ctx_ cd)) (request_ cd) st (reply_ cd) →
  ledger e (Some c) (exec (Finish st) e cd).1.1 None.
Proof.
  intros (Hc & Hr & Ha) Hans. split_and!; [by exists []; rewrite app_nil_r| |].
  - intros Hf. apply Forall_app. split; [done|]. rewrite Forall_singleton, Hc, Hr.
    split; [done|]. by exists c, (client_metadata (ctx_ cd)), (request_ cd).
  - unfold replied. simpl. rewrite omap_app. simpl. rewrite Hc. simpl.
    by rewrite <- Permutation_cons_append.
Qed.

Lemma HandleProcess_ops cd w ops w' c e :
  E w0 w → O w → HandleProcess cd w = (Ret ops, w') → serving e cd c → reply_ cd = ResponseType_new → coroutine_ cd = None →
  ∃ o os, ops = o :: os ∧ ∀ e', accepted e' = accepted e → phase e' cd (Running ops) (Some c).
Proof.
  intros Hw HO Hp Hs Hr Hco. unfold HandleProcess in Hp.
  assert (∀ e', accepted e' = accepted e → serving e' cd c) as Hs'.
  { intros e' He. apply (serving_mono e e' cd c []); [|done]. by rewrite app_nil_r. }
  destruct kRequiresAuth eqn:Hk.
  - minv Hp. destruct a as [id|st]; injection Hp as <- <-; eexists _, _; (split; [done|]); intros e' He.
    + apply ph_spawning; eauto. unfold authorised. rewrite Hk.
      exists (call (ctx_ cd)), w. split; [done|]. split; [done|]. destruct (ctx_ cd). simpl. by rewrite Hm.
    + apply ph_refusing; eauto. split; [done|].
      exists (call (ctx_ cd)), w. split; [done|]. split; [done|]. destruct (ctx_ cd). simpl. by rewrite Hm.
  - injection Hp as <- <-. eexists _, _. split; [done|]. intros e' He.
    apply ph_spawning; eauto. unfold authorised. by rewrite Hk.
Qed.

(** Proceed changes the world as agreed. *)
Lemma Proceed_keeps ok cd w ops w' : E w0 w → Proceed ok cd w = (Ret ops, w') → E w w'.
Proof.
  intros Hw. assert (E w w) as Hww by by eapply cons_later. unfold Proceed, HandleProcess, PerformAuthentication.
  destruct ok; cbn [negb]; [|by intros [= _ <-]]. destruct (status_ cd); [|by intros [= _ <-]].
  destruct kRequiresAuth; [|by intros [= _ <-]].
  intros ([id|st] & w1 & Hm & [= _ <-])%bindM_inv_ret; (destruct (metadata_find _ _); [|by injection Hm as _ <-]).
  all: cbv zeta in Hm; apply bindM_inv_ret in Hm as ([r|err] & w2 & Hv & Hr); injection Hr as _ <-; by eapply cons_verify.
Qed.

Lemma Proceed_phase ok e cd owed ops w' :
  E w0 (world e) → O (world e) → phase e cd (Event ok) owed → Proceed ok cd (world e) = (Ret ops, w') →
  ∃ o os, ops = o :: os ∧ phase (with_world w' e) cd (Running ops) owed.
Proof.
  intros Hw HO Hph Hp. unfold Proceed in Hp. inversion Hph as [| |cd' c Hs Hst Hr Hco| | | | | | |cd' ok' Hst Hco| | |]; subst; simpl in *.
  - injection Hp as <- <-. eexists _, _. split; [done|]. by apply ph_finish.
  - rewrite Hst in Hp. destruct (HandleProcess_ops _ _ _ _ _ _ Hw HO Hp Hs Hr Hco) as (o & os & -> & Hph').
    exists o, os. split; [done|]. by apply Hph'.
  - rewrite Hst in Hp. destruct ok; injection Hp as <- <-; (eexists _, _; split; [done|]; by apply ph_finish).
Qed.

(** The coroutine's next call, or its end. *)
Lemma RunLogic_phase e cd owed w' cd' ended :
  E w0 (world e) → O (world e) → O w' → phase e cd Coroutine owed → RunLogic_goes (world e) cd = Some (w', cd', ended) →
  phase (with_world w' e) cd' (match ended with None => Coroutine | Some o => Running (OnLogicFinished o) end) owed
  ∧ E (world e) w'.
Proof.
  intros Hw HO HO' Hph Hgo. inversion Hph as [| | | | | |? c uid did p Hs Hst Hco Hau (Hex & Hfi & Hch & Hall) Hpast Hgood| | | | | |]; subst.
  assert (E (world e) (world e)) as Hww by by eapply cons_later.
  unfold RunLogic_goes in Hgo. rewrite Hco in Hgo. destruct p as [[u|ex|]|B m k].
  - injection Hgo as <- <- <-. split; [|done]. apply ph_answering; [done..|]. right. by exists uid, did, (Ret u).
  - injection Hgo as <- <- <-. split; [|done]. apply ph_answering; [done..|]. right. by exists uid, did, (Throw ex).
  - done.
  - destruct (m (world e, reply_ cd)) as [o [w1 reply]] eqn:Em.
    assert (o ≠ Pending ∧ w1 = w' ∧ ended = None
      ∧ cd' = set_coroutine (Some (mkFrame (did ++ [((world e, reply_ cd), (w1, reply))])%list (k o))) reply cd) as (Ho & -> & -> & ->)
      by (destruct o; [by injection Hgo as <- <- <-..|discriminate Hgo]).
    destruct (good_step _ m k (world e, reply_ cd) (world e, reply_ cd) o (w', reply) Hgood Hww Em Ho) as [Hew Hk].
    simpl in Hew. split; [|done]. eapply (ph_coroutine _ _ c uid); [exact Hs|done|done|done| | |exact Hk].
    + split_and!.
      * apply exec_app. exists (Await m k). split; [done|]. simpl. by rewrite Em.
      * apply filled_app. by exists (reply_ cd).
      * unfold worlds. rewrite fmap_app. apply chain_snoc; [done|done|exact Hpast|done].
      * unfold worlds. rewrite fmap_app. apply Forall_app. by split; [|apply Forall_singleton].
    + unfold worlds. rewrite fmap_app. intros x [Hx|Hx]%elem_of_app; simpl.
      * trans (world e); [by apply Hpast|done].
      * apply list_elem_of_singleton in Hx as ->. by eapply cons_later.
Qed.

(** One step of the activity of a CallData moves it to another phase. *)
Lemma act_step_phase is_down ch e cd a owed e' cd' acts :
  E w0 (world e) → O (world e) → O (world e') → phase e cd a owed → act_step is_down ch e cd a = Some (e', cd', acts) →
  ∃ a' owed', acts = [a'] ∧ phase e' cd' a' owed' ∧ ledger e owed e' owed' ∧ E (world e) (world e').
Proof.
  intros Hw HO HO' Hph Hstep. assert (E (world e) (world e)) as Hww by by eapply cons_later.
  destruct a as [|ok|[|o ops]| |], ch as [md rq| |ok'|]; try done; cbn [act_step] in Hstep.
  - destruct is_down; [done|]. injection Hstep as <- <- <-. inversion Hph; subst.
    eexists _, _. split; [done|]. split; [|split; [apply ledger_accept|done]]. apply ph_accepted; [|done..].
    split_and!; [done..|]. simpl. by rewrite lookup_app_r, Nat.sub_diag.
  - destruct is_down; [|done]. injection Hstep as <- <- <-. inversion Hph; subst.
    eexists _, _. split; [done|]. split; [apply ph_cancelled|]. split; [apply ledger_same|done].
  - destruct (Proceed ok cd (world e)) as [[ops|?|] w'] eqn:Ep; [|done..]. injection Hstep as <- <- <-.
    destruct (Proceed_phase _ _ _ _ _ _ Hw HO Hph Ep) as (o & os & -> & Hph').
    eexists _, _. split; [done|]. split; [done|]. split; [apply ledger_refl|]. by eapply Proceed_keeps.
  - inversion Hph; subst; simpl in Hstep; injection Hstep as <- <- <-;
      (eexists _, _; split; [done|]);
      (split; [|split; [first [apply ledger_same|by eapply ledger_finish; eauto]|done]]); eauto.
    + apply ph_answering; [done..|]. by left.
    + eapply (ph_coroutine _ _ _ uid []); [done..| | |]; simpl.
      * split_and!; [done|symmetry; done|done|constructor].
      * by intros x ?%elem_of_nil.
      * by apply cons_logic.
    + replace (Reset cd) with CallData_make; [apply ph_register|].
      unfold Reset, CallData_make. by f_equal.
  - destruct (RunLogic_goes (world e) cd) as [[[w' cd1] ended]|] eqn:Er; [|done]. injection Hstep as <- <- <-.
    destruct (RunLogic_phase _ _ _ _ _ _ Hw HO HO' Hph Er) as [Hph' Hew].
    destruct ended; (eexists _, _; split; [done|]; split; [done|]; split; [apply ledger_refl|done]).
  - injection Hstep as <- <- <-. inversion Hph; subst. eexists _, _. split; [done|].
    split; [by apply ph_sent|]. split; [apply ledger_same|done].
Qed.

(** *** What changes the world

    A step of the server leaves the world alone, or verifies a token, or makes the
    next call of the method's logic for a call that was accepted. *)
Inductive world_change (calls : list (list (string * string) * Req)) (w w' : W) : Prop :=
| by_nobody : w' = w → world_change calls w w'
| by_verification t o : VerifyToken t w = (o, w') → o ≠ Pending → world_change calls w w'
| by_logic c md rq uid did r r' q :
    calls !! c = Some (md, rq) → Programs.exec (RunSpecificLogic uid rq) (did ++ [((w, r), (w', r'))])%list q →
    Forall (λ x, O x.1 ∧ O x.2) (worlds did) → world_change calls w w'.

Lemma Proceed_world calls ok cd w ops w' : Proceed ok cd w = (Ret ops, w') → world_change calls w w'.
Proof.
  unfold Proceed, HandleProcess, PerformAuthentication.
  destruct ok; cbn [negb]; [|by intros [= _ <-]; apply by_nobody]. destruct (status_ cd); [|by intros [= _ <-]; apply by_nobody].
  destruct kRequiresAuth; [|by intros [= _ <-]; apply by_nobody].
  intros ([id|st] & w1 & Hm & [= _ <-])%bindM_inv_ret;
    (destruct (metadata_find _ _); [|by injection Hm as _ <-; apply by_nobody]);
    cbv zeta in Hm; apply bindM_inv_ret in Hm as ([r|err] & w2 & Hv & Hr); injection Hr as _ <-; by eapply by_verification.
Qed.

Lemma act_step_world is_down ch e cd a owed e' cd' acts :
  phase e cd a owed → act_step is_down ch e cd a = Some (e', cd', acts) →
  (∃ l, accepted e' = (accepted e ++ l)%list) ∧ world_change (accepted e') (world e) (world e').
Proof.
  intros Hph Hstep. assert (∃ l, accepted e = (accepted e ++ l)%list) as Hl by (exists []; by rewrite app_nil_r).
  destruct a as [|ok|[|o ops]| |], ch as [md rq| |ok'|]; try done; cbn [act_step] in Hstep.
  - destruct is_down; [done|]. injection Hstep as <- <- <-. split; [by eexists|by apply by_nobody].
  - destruct is_down; [|done]. injection Hstep as <- <- <-. split; [done|by apply by_nobody].
  - destruct (Proceed ok cd (world e)) as [[ops|?|] w'] eqn:Ep; [|done..]. injection Hstep as <- <- <-.
    split; [done|]. by eapply Proceed_world.
  - destruct (exec o e cd) as [[e1 cd1] acts1] eqn:Ex. injection Hstep as <- <- <-.
    destruct o; injection Ex as <- <- <-; (split; [done|by apply by_nobody]).
  - destruct (RunLogic_goes (world e) cd) as [[[w' cd1] ended]|] eqn:Er; [|done]. injection Hstep as <- <- <-.
    split; [done|]. simpl. inversion Hph as [| | | | | |? c uid did p (_ & _ & Hacc) Hst Hco Hau (Hex & Hfi & Hch & Hall) Hpast Hgood| | | | | |]; subst.
    unfold RunLogic_goes in Er. rewrite Hco in Er.
    destruct p as [[u|ex|]|B m k]; [injection Er as <- _ _; by apply by_nobody..|done|].
    destruct (m (world e, reply_ cd)) as [o [w1 reply]] eqn:Em.
    assert (o ≠ Pending ∧ w1 = w') as [Ho ->] by (destruct o; [by injection Er as <- <- <-..|discriminate Er]).
    eapply (by_logic _ _ _ c _ _ uid did (reply_ cd) reply (k o)); [exact Hacc| |exact Hall].
    apply exec_app. exists (Await m k). split; [done|]. simpl. by rewrite Em.
  - injection Hstep as <- <- <-. split; [done|by apply by_nobody].
Qed.

(** *** The system *)

Lemma ledger_perm (o o' R r r' s s' : list nat) :
  ((o ++ R) ++ r)%list ≡ₚ s → (o' ++ r' ++ s)%list ≡ₚ (o ++ r ++ s')%list →
  ((o' ++ R) ++ r')%list ≡ₚ s'.
Proof.
  rewrite !(Permutation_count_occ Nat.eq_dec). intros H1 H2 x. specialize (H1 x). specialize (H2 x).
  rewrite !count_occ_app in *. lia.
Qed.

Lemma omap_id_insert (owed : list (option nat)) i o :
  owed !! i = Some o →
  ∃ R, (omap id owed ≡ₚ option_list o ++ R)%list
       ∧ ∀ o', (omap id (<[i:=o']> owed) ≡ₚ option_list o' ++ R)%list.
Proof.
  intros Hi. exists (omap id (take i owed) ++ omap id (drop (S i) owed))%list.
  assert (∀ o', (omap id (take i owed ++ o' :: drop (S i) owed)
                ≡ₚ option_list o' ++ omap id (take i owed) ++ omap id (drop (S i) owed))%list) as Hs.
  { intros o'. rewrite omap_app. simpl. destruct o' as [c|]; simpl; [|done].
    by rewrite <- Permutation_middle. }
  split; [rewrite <- Hs; by rewrite take_drop_middle|].
  intros o'. rewrite <- Hs, insert_take_drop; [done|]. by eapply lookup_lt_Some.
Qed.

Lemma Start_app n pool : Start n pool = (pool ++ replicate n (CallData_make, [Registered]))%list.
Proof.
  revert pool. induction n as [|n IH]; intros pool; simpl; [by rewrite app_nil_r|].
  rewrite IH, <- (assoc_L (++)%list). done.
Qed.

Lemma started_inv n : rpc_inv (started n w0) (replicate n None).
Proof.
  unfold started. rewrite Start_app. split_and!; [|simpl|by constructor|apply cons_start].
  - simpl. induction n as [|n IH]; simpl; constructor; [|done].
    exists Registered. split; [done|apply ph_registered].
  - induction n as [|n IH]; [done|]. simpl. done.
Qed.

Lemma cell_step_inv s owed i j ch s' :
  rpc_inv s owed → happen (Cell i j ch) s = Some s' → O (world (the_env s)) → O (world (the_env s')) →
  E (world (the_env s)) (world (the_env s')) ∧ ∃ o', rpc_inv s' (<[i:=o']> owed) ∧ length (cells s') = length (cells s).
Proof.
  intros (Hcells & Hledger & Hsent & Hw) Hs HO HO'. simpl in Hs.
  apply bind_Some in Hs as ([cd acts] & Hi & Hs). apply bind_Some in Hs as (a & Hj & Hs).
  destruct (act_step (down s) ch (the_env s) cd a) as [[[e' cd'] new]|] eqn:Estep; [|done].
  injection Hs as <-.
  destruct (Forall2_lookup_l _ _ _ _ _ Hcells Hi) as (o & Ho & a' & Ha & Hph). simpl in Ha, Hph. subst acts.
  apply list_lookup_singleton_Some in Hj as [-> ->]. simpl.
  destruct (act_step_phase _ _ _ _ _ _ _ _ _ Hw HO HO' Hph Estep) as (a' & o' & -> & Hph' & ((l & Hl) & Hre & Hperm) & Hew).
  split; [done|]. exists o'. split; [|by rewrite length_insert]. split_and!; simpl.
  - apply Forall2_insert; [|by exists a'].
    eapply Forall2_impl; [exact Hcells|]. intros [cd1 acts1] o1 (a1 & Ha1 & Hph1). exists a1.
    split; [done|]. by apply phase_mono with (the_env s) l.
  - destruct (omap_id_insert _ _ _ Ho) as (R & HR & HR'). rewrite HR'. rewrite HR in Hledger.
    by apply (ledger_perm _ _ _ _ _ _ _ Hledger).
  - by apply Hre.
  - by trans (world (the_env s)).
Qed.

Lemma rpc_step_inv s owed s' :
  rpc_inv s owed → step_in E O s s' → ∃ owed', rpc_inv s' owed' ∧ length (cells s') = length (cells s).
Proof.
  intros Hinv [(h & Hs & Hw) [HO HO']]. destruct h as [i j ch| |w].
  - destruct (cell_step_inv _ _ _ _ _ _ Hinv Hs HO HO') as (_ & o' & Hinv' & Hlen). by eexists.
  - injection Hs as <-. by exists owed.
  - injection Hs as <-. exists owed. split; [|done]. destruct Hinv as (Hc & Hl & Hr & Hw0).
    specialize (Hw w eq_refl). split_and!; [|done|done|by trans (world (the_env s))].
    eapply Forall2_impl; [exact Hc|]. intros [cd acts] o (a & Ha & Hph). exists a. split; [done|].
    apply phase_mono with (the_env s) []; [|done..]. by rewrite app_nil_r.
Qed.

Lemma rpc_reachable_inv n s :
  rtc (step_in E O) (started n w0) s → ∃ owed, rpc_inv s owed ∧ length (cells s) = n.
Proof.
  intros Hrun. apply (rtc_invariant (step_in E O) (λ s, ∃ owed, rpc_inv s owed ∧ length (cells s) = n)
    ltac:(intros x y (owed & Hinv & <-) Hxy; by eapply rpc_step_inv) _ _ Hrun).
  exists (replicate n None). split; [by apply started_inv|].
  unfold started. rewrite Start_app. simpl. by rewrite length_replicate.
Qed.
End invariant.

(** Any change of the world is fine with everybody. *)
#[export] Instance considerate_any {Req Rsp W : Type} `{IJwtUtil W} `{!SpecificCallData Req Rsp W} (w0 : W) :
  Considerate (Rsp:=Rsp) (λ _ _, True) w0.
Proof. split; try done. intros uid rq w r _. apply good_any. Qed.

(** *** Every CallData comes back

    What an activity still has to do until its CallData is registered again, when
    the method's logic makes at most [limit] calls. *)
Definition op_weight (limit : nat) (o : op) : nat :=
  match o with SetStatus _ | ResetOp | RegisterCallDataToCQ => 1 | Finish _ => 6 | CoSpawn _ => 8 + limit end.

Definition act_weight {Req Rsp W} (limit : nat) (cd : CallData Req Rsp W) (a : act) : nat :=
  match a with
  | Registered => 0
  | Event ok => match ok, status_ cd with true, WAIT_PROCESSING => 10 + limit | _, _ => 4 end
  | Running ops => sum_list_with (op_weight limit) ops
  | Coroutine => match coroutine_ cd with Some f => 7 + (limit - length (made f)) | None => 7 end
  | Sending => 5
  end.

(** A step that is neither a new call nor gRPC giving a tag back. *)
Definition is_work {Req} (ch : @choice Req) : bool := match ch with Sent _ | Go => true | Accept _ _ | Cancel => false end.

Section settling.
Context {Req Rsp W : Type} `{IJwtUtil W} `{!SpecificCallData Req Rsp W}.
Abbreviation CallData := (CallData Req Rsp W).
Abbreviation env := (@env Req Rsp W).
Abbreviation server := (@server Req Rsp W).
Implicit Types (cd : CallData) (w : W) (e : env) (s : server).

Definition work s s' : Prop := ∃ i j ch, is_work ch = true ∧ happen (Cell i j ch) s = Some s'.

Context (limit : nat).

Definition cell_weight (cell : CallData * list act) : nat := sum_list_with (act_weight limit cell.1) cell.2.
Definition weight s : nat := sum_list_with cell_weight (cells s).

Lemma work_step s s' : work s s' → step s s'.
Proof. intros (i & j & ch & _ & Hs). by exists (Cell i j ch). Qed.

Context (Hlogic : ∀ uid rq, bounded limit (RunSpecificLogic (Rsp:=Rsp) uid rq) ∧ returns (RunSpecificLogic (Rsp:=Rsp) uid rq)).

Section invariant_gives.
Context (E : W → W → Prop) (O : W → Prop) (w0 : W) `{!Considerate (Rsp:=Rsp) E w0}.

(** The calls a coroutine may still make, all of which return. *)
Lemma frame_left uid rq did reply p :
  ran E O w0 uid rq did reply p → (length did ≤ limit)%nat ∧ bounded (limit - length did) p ∧ returns p.
Proof.
  intros (Hex & _). destruct (Hlogic uid rq) as [Hb Hr]. destruct (exec_bounded _ _ _ _ Hb Hex).
  split; [done|]. split; [done|]. by eapply exec_returns.
Qed.

Lemma act_step_weight is_down ch e cd a owed e' cd' a' :
  phase E O w0 e cd a owed → is_work ch = true → act_step is_down ch e cd a = Some (e', cd', [a']) →
  (act_weight limit cd' a' < act_weight limit cd a)%nat.
Proof.
  intros Hph Hch Hs. destruct a as [|ok|[|o ops]| |], ch as [md rq| |ok'|]; try done; cbn [act_step] in Hs.
  - destruct (Proceed ok cd (world e)) as [[ops|?|] w'] eqn:Ep; [|done..]. injection Hs as <- <- Ha.
    unfold Proceed, HandleProcess in Ep. destruct ok; cbn [negb] in Ep.
    + destruct (status_ cd) eqn:Est; [|injection Ep as <- <-; injection Ha as <-; simpl; rewrite Est; lia].
      destruct kRequiresAuth.
      * minv Ep. destruct a as [id|st]; injection Ep as <- <-; injection Ha as <-; simpl; rewrite Est; lia.
      * injection Ep as <- <-. injection Ha as <-. simpl. rewrite Est. lia.
    + injection Ep as <- <-. injection Ha as <-. simpl. lia.
  - inversion Hph; subst; simpl in Hs; injection Hs as <- <- <-; simpl; lia.
  - inversion Hph as [| | | | | |? c uid did p _ _ Hco _ Hran _ _| | | | | |]; subst.
    destruct (frame_left _ _ _ _ _ Hran) as (Hlen & Hb & _). unfold RunLogic_goes in Hs. simpl. rewrite Hco in Hs |- *.
    destruct p as [[u|ex|]|B m k]; simpl in Hs; [by injection Hs as <- <- <-; simpl; lia..|done|].
    destruct (limit - length did)%nat as [|n'] eqn:El; [done|].
    destruct (m (world e, reply_ cd)) as [[b|ex|] [w' reply]]; simpl in Hs; try done; injection Hs as <- <- <-;
      simpl; rewrite length_app; simpl; lia.
  - injection Hs as <- <- <-. inversion Hph as [| | | | | | | | |? ? Hst ?| | |]; subst; simpl.
    all: by destruct (status_ cd); destruct ok'; try lia.
Qed.

Lemma call_work_weight s owed s' :
  rpc_inv E O w0 s owed → O (world (the_env s)) → O (world (the_env s')) → work s s' → (weight s' < weight s)%nat.
Proof.
  intros (Hcells & _ & _ & Hw) HO HO' (i & j & ch & Hch & Hs). simpl in Hs.
  apply bind_Some in Hs as ([cd acts] & Hi & Hs). apply bind_Some in Hs as (a & Hj & Hs).
  destruct (act_step (down s) ch (the_env s) cd a) as [[[e' cd'] new]|] eqn:Estep; [|done]. injection Hs as <-.
  destruct (Forall2_lookup_l _ _ _ _ _ Hcells Hi) as (o & Ho & a' & Ha & Hph). simpl in Ha, Hph. subst acts.
  apply list_lookup_singleton_Some in Hj as [-> ->].
  destruct (act_step_phase _ _ _ _ _ _ _ _ _ _ _ _ Hw HO HO' Hph Estep) as (a' & _ & -> & _).
  pose proof (act_step_weight _ _ _ _ _ _ _ _ _ Hph Hch Estep) as Hlt.
  unfold weight. simpl. rewrite insert_take_drop by (by eapply lookup_lt_Some).
  rewrite <- (take_drop_middle _ _ _ Hi) at 3. rewrite !sum_list_with_app. simpl. unfold cell_weight at 2 5. simpl. lia.
Qed.
End invariant_gives.

Lemma rpc_settled E O w0 s owed :
  rpc_inv E O w0 s owed → (∀ i cd acts, cells s !! i = Some (cd, acts) → acts = [Registered]) →
  cells s = replicate (length (cells s)) (CallData_make, [Registered])
  ∧ ∀ c, (c < length (accepted (the_env s)))%nat → Some c ∈ re_call <$> sent (the_env s).
Proof.
  intros (Hcells & Hledger & _) Hreg.
  assert (∀ i cd acts o, cells s !! i = Some (cd, acts) → owed !! i = Some o →
    (cd, acts) = (CallData_make, [Registered]) ∧ o = None) as Hall.
  { intros i cd acts o Hi Ho. destruct (Forall2_lookup_lr _ _ _ _ _ _ Hcells Hi Ho) as (a & Ha & Hph). simpl in Ha, Hph.
    pose proof (Hreg _ _ _ Hi) as Hr. rewrite Ha in Hr. injection Hr as ->. subst acts. by inversion Hph. }
  split.
  - apply list_eq. intros i. destruct (cells s !! i) as [[cd acts]|] eqn:Hi.
    + destruct (Forall2_lookup_l _ _ _ _ _ Hcells Hi) as (o & Ho & _). destruct (Hall _ _ _ _ Hi Ho) as [-> _].
      symmetry. apply lookup_replicate_2. by eapply lookup_lt_Some.
    + symmetry. apply lookup_ge_None_2. rewrite length_replicate. by apply lookup_ge_None_1.
  - intros c Hc. assert (c ∈ (omap id owed ++ replied (the_env s))%list) as Hin.
    { rewrite Hledger. apply elem_of_seq. lia. }
    apply elem_of_app in Hin as [Hin|Hin].
    + exfalso. apply list_elem_of_omap in Hin as (o & Ho & Hoc). simpl in Hoc. subst o.
      apply list_elem_of_lookup in Ho as [i Hi].
      destruct (Forall2_lookup_r _ _ _ _ _ Hcells Hi) as ([cd acts] & Hcd & _).
      by destruct (Hall _ _ _ _ Hcd Hi).
    + unfold replied in Hin. apply list_elem_of_omap in Hin as (r & Hr & Hrc).
      apply list_elem_of_fmap. by exists r.
Qed.

Context (Hverify : ∀ t (w : W), ∃ r w', VerifyToken t w = (Ret r, w')).

Lemma Proceed_returns ok cd (w : W) : ∃ o os w', Proceed ok cd w = (Ret (o :: os), w').
Proof.
  unfold Proceed, HandleProcess, PerformAuthentication.
  destruct ok; [|by eexists _, _, _]. destruct (status_ cd); [|by eexists _, _, _].
  destruct kRequiresAuth; [|by eexists _, _, _].
  destruct (metadata_find _ _) as [v|]; [|by eexists _, _, _].
  cbv zeta. set (t := if String.prefix _ _ then _ else _). destruct (Hverify t w) as (r & w' & Hv).
  unfold bindM; cbn [negb]; rewrite Hv. destruct r; by eexists _, _, _.
Qed.

(** Every CallData that is not registered can go on. *)
Lemma phase_progress E O w0 e cd a owed is_down :
  phase E O w0 e cd a owed → a = Registered ∨ ∃ ch, is_work ch = true ∧ is_Some (act_step is_down ch e cd a).
Proof.
  intros Hph. destruct a as [|ok|[|o ops]| |]; [by left|right..].
  - exists Go. split; [done|]. cbn [act_step]. destruct (Proceed_returns ok cd (world e)) as (o & os & w' & ->). by eexists.
  - inversion Hph.
  - exists Go. split; [done|]. cbn [act_step]. destruct (exec o e cd) as [[e' cd'] acts]. by eexists.
  - exists Go. split; [done|]. cbn [act_step]. inversion Hph as [| | | | | |? c uid did p _ _ Hco _ Hran _ _| | | | | |]; subst.
    destruct (frame_left _ _ _ _ _ _ _ _ Hran) as (_ & Hb & Hr). unfold RunLogic_goes. rewrite Hco.
    destruct p as [[u|ex|]|B m k]; [by eexists..|done|]. destruct (Hr (world e, reply_ cd)) as [Hm _].
    destruct (m (world e, reply_ cd)) as [[b|ex|] [w' reply]]; [by eexists..|done].
  - exists (Sent true). split; [done|]. by eexists.
Qed.
End settling.

(** ** A method to evaluate *)
Section toy.
#[local] Open Scope nat_scope.
#[local] Open Scope string_scope.
Definition toy_tokens : IJwtUtil nat := {|
  GenerateToken id := retM id;
  VerifyToken t := retM (if bool_decide (t = "good") then Val "u1" else Unexpected FormatInvalid)
|}.
Definition toy_method : SpecificCallData string string nat := {|
  RequestType_new := "";
  ResponseType_new := "";
  kRequiresAuth := true;
  RunSpecificLogic uid rq := Programs.call (fun '(w, _) => (Ret (), (S w, uid ++ ":" ++ rq)))
|}.
#[local] Existing Instances toy_tokens toy_method.

Abbreviation toy_srv := (@server string string nat).
Definition toy_start : toy_srv := started 2 0.
Definition toy_history : list happening :=
  [Cell 0 0 (Accept [("authorization", "Bearer good")] "hello"); Cell 0 0 Go; Cell 0 0 Go;
   Cell 1 0 (Accept [("authorization", "Bearer bad")] "secret"); Cell 0 0 Go; Cell 0 0 Go; Cell 1 0 Go;
   Cell 0 0 Go; World 7; Cell 0 0 Go; Cell 1 0 Go].
Definition toy_server : toy_srv := default toy_start (happen_all toy_history toy_start).

Example toy_replies :
  sent (the_env toy_server) = [mkSent (Some 0) ResponderReady Status_OK "u1:hello"]
  ∧ snd <$> cells toy_server
    = [[Sending]; [Running [Finish (mkGrpcStatus UNAUTHENTICATED "Invalid Token")]]].
Proof. split; reflexivity. Qed.

Lemma toy_reachable : rtc (step (W:=nat)) toy_start toy_server.
Proof. apply (happen_all_rtc toy_history). reflexivity. Qed.
End toy.

(** ** Properties *)
Section properties.
Context {Req Rsp W : Type} `{IJwtUtil W} `{!SpecificCallData Req Rsp W}.

Lemma phase_serving E O w0 (e : @env Req Rsp W) cd a c : phase E O w0 e cd a (Some c) → serving e cd c.
Proof. by inversion 1. Qed.

Lemma run_any (s s' : @server Req Rsp W) : rtc step s s' → rtc (step_in (λ _ _, True) (λ _, True)) s s'.
Proof. apply (rtc_subrel step). intros s1 s2 (h & Hs). split; [by exists h|done]. Qed.

Lemma cells_reachable n w (s : @server Req Rsp W) :
  rtc step (started n w) s → ∃ owed, rpc_inv (λ _ _, True) (λ _, True) w s owed ∧ length (cells s) = n.
Proof. intros Hrun. apply (rpc_reachable_inv (λ _ _, True) (λ _, True) w n s (run_any _ _ Hrun)). Qed.

Lemma substring_all t : String.substring 0 (String.length t) t = t.
Proof. induction t as [|c t IH]; [done|]. simpl. by rewrite IH. Qed.

Lemma strip_bearer t :
  String.substring 7 (String.length ("Bearer " ++ t) - 7) ("Bearer " ++ t) = t.
Proof. simpl. rewrite Nat.sub_0_r. apply substring_all. Qed.

(** No request slot is lost, driven twice or reused dirty.  However the
    worker threads, the coroutines, gRPC, the shutdown and the rest of the
    process interleave, the pool keeps its size and every CallData has exactly
    one thing going on: its tag is with gRPC, or in the queue, or in one handler,
    or in one coroutine, or a reply is being sent.  When its tag is with gRPC
    its request, reply, context and responder are as new; when an event makes
    it process a request, that request and its metadata are those of an accepted
    call and the reply is still empty. *)
Theorem CallData_slots (n : nat) (w : W) (s : @server Req Rsp W) (Hrun : rtc step (started n w) s) :
  length (cells s) = n
  ∧ ∀ i cd acts, cells s !! i = Some (cd, acts) → ∃ a, acts = [a]
    ∧ (a = Registered → cd = CallData_make)
    ∧ (∀ ok, a = Event ok → status_ cd = WAIT_PROCESSING →
       cd = CallData_make ∧ ok = false
       ∨ ok = true ∧ reply_ cd = ResponseType_new ∧ responder_ cd = ResponderReady
         ∧ ∃ c, call (ctx_ cd) = Some c
             ∧ accepted (the_env s) !! c = Some (client_metadata (ctx_ cd), request_ cd)).
Proof.
  destruct (cells_reachable _ _ _ Hrun) as (owed & (Hcells & _) & Hlen). split; [done|].
  intros i cd acts Hi. destruct (Forall2_lookup_l _ _ _ _ _ Hcells Hi) as (o & _ & a & Ha & Hph).
  simpl in *. exists a. split_and!; [done|by intros ->; inversion Hph|].
  intros ok -> Hst. inversion Hph as [| |? c (Hc & Hr & Hacc)| | | | | | |? ? Hst'| | |]; subst;
    [by left|right; by eauto 10|by rewrite Hst in Hst'].
Qed.

(** Who the call proceeds as: the token in the metadata names that user. *)
Definition names_user (md : list (string * string)) (w : W) (user_id : string) : Prop :=
  ∃ value token, metadata_find "authorization" md = Some value
    ∧ (value = "Bearer " ++ token ∨ value = token) ∧ (VerifyToken token w).1 = Ret (Val user_id).

Lemma prefix_app p v : String.prefix p v = true → ∃ t, v = p ++ t.
Proof.
  revert v. induction p as [|c p IH]; intros v; [by exists v|].
  destruct v as [|d v]; simpl; [done|]. destruct (Ascii.ascii_dec c d) as [<-|]; [|done].
  intros (t & ->)%IH. by exists t.
Qed.

Lemma PerformAuthentication_names ctx w user_id :
  (PerformAuthentication ctx w).1 = Ret (Val user_id) → names_user (client_metadata ctx) w user_id.
Proof.
  unfold PerformAuthentication, names_user. destruct (metadata_find _ _) as [value|]; [|done]. cbv zeta.
  set (token := if String.prefix _ _ then _ else _). intros Hv. exists value, token. split; [done|]. split.
  - unfold token. destruct (String.prefix "Bearer " value) eqn:E; [|by right]. left.
    apply prefix_app in E as (t & ->). by rewrite strip_bearer.
  - unfold bindM in Hv. destruct (VerifyToken token w) as [[[]|?|] ?]; simpl in *; congruence.
Qed.

(** A reply in the log is an answer; shared by the properties about replies. *)
Lemma replies_answered E O n w `{!Considerate (Rsp:=Rsp) E w} (s : @server Req Rsp W) :
  rtc (step_in E O) (started n w) s → Forall (reply_ok E O w (the_env s)) (sent (the_env s)).
Proof. intros Hrun. by destruct (rpc_reachable_inv E O w n s Hrun) as (owed & (_ & _ & ? & _) & _). Qed.

(** C9: every request gets its own answer, once.  Let [E] be a way the world may
    change that the method's logic and the verification of tokens keep to when
    the rest of the process does, and [O] hold of every world of the run.  In
    every reachable state each reply sent went through an unused responder to a
    call that had been accepted, and is an answer to that call's own metadata and
    request: the refusal of its token, or the outcome of one run of the method's
    logic on that request, for the user id its token verified to (methods that
    require a token), from an empty reply, each call of the logic in a world that
    [E] leads to from the one before.  No call is answered twice, and a call that
    is not answered yet is held by a CallData whose responder is unused. *)
Theorem CallData_replies (E : W → W → Prop) (O : W → Prop) (n : nat) (w : W) (s : @server Req Rsp W)
    (HE : Considerate (Rsp:=Rsp) E w) (Hrun : rtc (step_in E O) (started n w) s) :
  Forall (reply_ok E O w (the_env s)) (sent (the_env s))
  ∧ NoDup (re_call <$> sent (the_env s))
  ∧ ∀ c, (c < length (accepted (the_env s)))%nat →
      Some c ∈ re_call <$> sent (the_env s) ∨ ∃ i cd a, cells s !! i = Some (cd, [a]) ∧ serving (the_env s) cd c.
Proof.
  destruct (rpc_reachable_inv E O w n s Hrun) as (owed & (Hcells & Hledger & Hsent & _) & _). split; [done|].
  assert (re_call <$> sent (the_env s) = Some <$> replied (the_env s)) as Hrep.
  { unfold replied. clear Hledger. induction Hsent as [|r l (_ & c & md & rq & Hc & _) _ IH]; [done|].
    rewrite fmap_cons, IH. simpl. by rewrite Hc. }
  rewrite Hrep. split.
  - apply (NoDup_fmap_2 Some). assert (NoDup (omap id owed ++ replied (the_env s))%list) as Hnd.
    { rewrite Hledger. apply NoDup_seq. }
    by apply NoDup_app in Hnd as (_ & _ & ?).
  - intros c Hc. assert (c ∈ (omap id owed ++ replied (the_env s))%list) as Hin.
    { rewrite Hledger. apply elem_of_seq. lia. }
    apply elem_of_app in Hin as [Hin|Hin].
    + right. apply list_elem_of_omap in Hin as (o & Ho & Hoc). simpl in Hoc. subst o.
      apply list_elem_of_lookup in Ho as [i Hi].
      destruct (Forall2_lookup_r _ _ _ _ _ Hcells Hi) as ([cd acts] & Hcd & a & Ha & Hph).
      simpl in *. subst acts. exists i, cd, a. split; [done|]. by apply (phase_serving _ _ _ _ _ a) in Hph.
    + left. apply list_elem_of_fmap. by exists c.
Qed.

(** Requests never hang in the adapter: if verifying a token always finishes and
    the method's logic makes at most [limit] calls, which all return or throw,
    then from every reachable state, when no new call comes in, at most [weight]
    steps can be taken, and when none is left every CallData is registered for
    the next request and every call accepted has been answered. *)
Theorem CallData_settles (limit n : nat) (w : W) (s : @server Req Rsp W)
    (Hverify : ∀ t (w : W), ∃ r w', VerifyToken t w = (Ret r, w'))
    (Hlogic : ∀ uid rq, bounded limit (RunSpecificLogic (Rsp:=Rsp) uid rq) ∧ returns (RunSpecificLogic (Rsp:=Rsp) uid rq))
    (Hrun : rtc step (started n w) s) :
  (∀ k s', nsteps work k s s' → (k ≤ weight limit s)%nat)
  ∧ ∀ s', rtc work s s' → (∀ s'', ¬ work s' s'') →
      cells s' = replicate n (CallData_make, [Registered])
      ∧ ∀ c, (c < length (accepted (the_env s')))%nat → Some c ∈ re_call <$> sent (the_env s').
Proof.
  split.
  - intros k s' Hk. enough (k + weight limit s' ≤ weight limit s)%nat by lia.
    induction Hk as [s|k s s1 s2 Hw _ IH]; [lia|].
    destruct (cells_reachable _ _ _ Hrun) as (owed & Hinv & _).
    pose proof (call_work_weight limit Hlogic _ _ _ _ _ _ Hinv I I Hw). assert (rtc step (started n w) s1) as Hrun1
      by (eapply rtc_r; [exact Hrun|by apply work_step]). pose proof (IH Hrun1). lia.
  - intros s' Hs' Hstuck.
    assert (rtc step (started n w) s') as Hrun' by (trans s; [done|]; by apply (rtc_subrel work); [apply work_step|]).
    destruct (cells_reachable _ _ _ Hrun') as (owed & Hinv & Hlen). rewrite <- Hlen.
    apply (rpc_settled _ _ _ _ _ Hinv). intros i cd acts Hi. destruct Hinv as (Hcells & _).
    destruct (Forall2_lookup_l _ _ _ _ _ Hcells Hi) as (o & _ & a & Ha & Hph). simpl in Ha, Hph. subst acts.
    destruct (phase_progress limit Hlogic Hverify _ _ _ _ _ _ _ (down s') Hph) as [->|(ch & Hch & ([[e' cd'] new] & Hstep))]; [done|].
    exfalso. eapply Hstuck. exists i, 0%nat, ch. split; [done|]. simpl. rewrite Hi. simpl. by rewrite Hstep.
Qed.

(** PerformAuthentication on every branch: without an "authorization" entry
    the call is refused with UNAUTHENTICATED and no token is looked at; otherwise
    exactly the text after "Bearer ", or the whole value without that prefix, is
    verified, the call proceeds as the user the token names, and any token error
    is the same refusal "Invalid Token". *)
Theorem PerformAuthentication_spec (ctx : ServerContext) (w : W) :
  match metadata_find "authorization" (client_metadata ctx) with
  | None => PerformAuthentication ctx w
            = (Ret (Unexpected (mkGrpcStatus UNAUTHENTICATED "Missing Authorization Header")), w)
  | Some value =>
      ∀ token, value = "Bearer " ++ token ∨ String.prefix "Bearer " value = false ∧ token = value →
      PerformAuthentication ctx w
      = match VerifyToken token w with
        | (Ret (Val user_id), w') => (Ret (Val user_id), w')
        | (Ret (Unexpected _), w') => (Ret (Unexpected (mkGrpcStatus UNAUTHENTICATED "Invalid Token")), w')
        | (Throw e, w') => (Throw e, w')
        | (Pending, w') => (Pending, w')
        end
  end.
Proof.
  unfold PerformAuthentication. destruct (metadata_find _ _) as [value|]; [|done].
  intros token Hv. cbv zeta.
  assert ((if String.prefix "Bearer " value then String.substring 7 (String.length value - 7) value else value)
          = token) as ->.
  { destruct Hv as [->|[-> ->]]; [|done]. rewrite strip_bearer. by destruct token. }
  unfold bindM. by destruct (VerifyToken token w) as [[[]|?|] ?].
Qed.
End properties.

(** ** Witnesses *)
Section witnesses.
#[local] Open Scope nat_scope.
#[local] Open Scope string_scope.
#[local] Existing Instances toy_tokens toy_method.

Lemma CallData_slots_witness :
  length (cells toy_server) = 2
  ∧ ∀ i cd acts, cells toy_server !! i = Some (cd, acts) → ∃ a, acts = [a]
    ∧ (a = Registered → cd = CallData_make)
    ∧ (∀ ok, a = Event ok → status_ cd = WAIT_PROCESSING →
       cd = CallData_make ∧ ok = false
       ∨ ok = true ∧ reply_ cd = ResponseType_new ∧ responder_ cd = ResponderReady
         ∧ ∃ c, call (ctx_ cd) = Some c
             ∧ accepted (the_env toy_server) !! c = Some (client_metadata (ctx_ cd), request_ cd)).
Proof. apply (CallData_slots 2 0 toy_server), toy_reachable. Defined.

Lemma CallData_replies_witness :
  Forall (reply_ok (λ _ _, True) (λ _, True) 0 (the_env toy_server)) (sent (the_env toy_server))
  ∧ NoDup (re_call <$> sent (the_env toy_server))
  ∧ ∀ c, (c < length (accepted (the_env toy_server)))%nat →
      Some c ∈ re_call <$> sent (the_env toy_server)
      ∨ ∃ i cd a, cells toy_server !! i = Some (cd, [a]) ∧ serving (the_env toy_server) cd c.
Proof.
  apply (CallData_replies (λ _ _, True) (λ _, True) 2 0 toy_server (considerate_any 0)), run_any, toy_reachable.
Defined.

Lemma CallData_settles_witness :
  (∀ k s', nsteps (work (W:=nat)) k toy_server s' → (k ≤ weight 1 toy_server)%nat)
  ∧ ∀ s', rtc work toy_server s' → (∀ s'', ¬ work s' s'') →
      cells s' = replicate 2 (CallData_make, [Registered])
      ∧ ∀ c, (c < length (accepted (the_env s')))%nat → Some c ∈ re_call <$> sent (the_env s').
Proof.
  apply (CallData_settles 1 2 0 toy_server).
  - intros t w. by eexists _, _.
  - intros uid rq. by split; [apply bounded_call|intros [w rp]].
  - apply toy_reachable.
Defined.

Lemma PerformAuthentication_spec_witness :
  PerformAuthentication (mkContext (Some 0) [("authorization", "Bearer good")]) 0 = (Ret (Val "u1"), 0).
Proof.
  exact (PerformAuthentication_spec (mkContext (Some 0) [("authorization", "Bearer good")]) 0 "good"
           (or_introl eq_refl)).
Defined.
End witnesses.
