(* ===== verification/Handlers.v ===== *)
(** * Handlers: the five methods (adapter/v2/call_data/src)

    The messages of IDL/UserService/v1, the interfaces of the two services
    (service/interface) with the services' coroutines as their implementations,
    and each method's RunSpecificLogic as an instance of [SpecificCallData]: a
    coroutine whose calls, those on the service's collaborators and the statements
    that fill the reply, interleave with everything else. *)

From stdpp Require Import base tactics option strings numbers relations list.
From S2P Require Import Prelude Programs Text Model User Interfaces AuthService BasicUserService.
From S2P Require Import Coroutines CallData.

Open Scope string_scope.
Open Scope Z_scope.
Open Scope photon_scope.

(** ** The messages *)
Module proto.
Record CommonStatus := mkCommonStatus { code : Z; message : string }.
Record User := mkUser {
  user_id : string; username : string; email : string; avatar_url : string; phone_number : string
}.
Record SendCodeRequest := mkSendCodeRequest { sc_phone_number : string; sc_usage : Z }.
Record SendCodeResponse := mkSendCodeResponse { sc_status : option CommonStatus }.
Record LoginByPasswordRequest := mkLoginByPasswordRequest { lp_user_id : string; lp_password : string }.
Record LoginByCodeRequest := mkLoginByCodeRequest { lc_phone_number : string; lc_code : string }.
Record LoginResponse := mkLoginResponse { login_status : option CommonStatus; login_token : string }.
Record RegisterRequest := mkRegisterRequest {
  reg_username : string; reg_password : string; reg_phone_number : string; reg_code : string
}.
Record RegisterResponse := mkRegisterResponse { reg_status : option CommonStatus; reg_user_id : string }.
Record GetUserInfoRequest := mkGetUserInfoRequest { }.
Record GetUserInfoResponse := mkGetUserInfoResponse { info_status : option CommonStatus; info_user : option User }.
End proto.

(** ** service/interface *)
Class IAuthService (W : Type) := {
  svc_SendCode : SendCodeRequest → prog W SendCodeResponse;
  svc_LoginByCode : LoginByCodeRequest → prog W LoginResult;
  svc_LoginByPassword : LoginByPasswordRequest → prog W LoginResult
}.

Class IBasicUserService (W : Type) := {
  svc_Register : RegisterRequest → prog W RegisterResponse;
  svc_GetUserInfo : GetUserInfoRequest → prog W GetUserInfoResponse;
  svc_UpdateUserInfo : UpdateUserInfoRequest → prog W UpdateUserInfoResponse
}.

#[export] Instance AuthService_is_IAuthService `{IVerificationCodeGenerator W}
    `{CoVerificationCodeRepository W} `{CoUserRepository W} `{IJwtUtil W} `{ISecurityUtil W} : IAuthService W := {|
  svc_SendCode := co_SendCode;
  svc_LoginByCode := co_LoginByCode;
  svc_LoginByPassword := co_LoginByPassword
|}.

#[export] Instance BasicUserService_is_IBasicUserService `{CoUserRepository W}
    `{CoVerificationCodeRepository W} `{IIDGenerator W} `{ISecurityUtil W} : IBasicUserService W := {|
  svc_Register := co_Register;
  svc_GetUserInfo := co_GetUserInfo;
  svc_UpdateUserInfo req := Programs.call (UpdateUserInfo req)
|}.

(** ** RunSpecificLogic *)
Section logic.
Context {W : Type}.

(** A coroutine's world and the reply it fills. *)
Definition service_lens {R} : lens (W * R) W := Lens fst (λ w x, (w, x.2)).
#[export] Instance service_lens_laws {R} : LensLaws (@service_lens R).
Proof. split; [intros s [w r]|intros [w r]|intros s s' [w r]]; done. Qed.
Definition call_service {R A} (p : prog W A) : prog (W * R) A := pzoom service_lens p.
Definition edit_reply {R} (f : R → R) : prog (W * R) () := Programs.call (modifyM (λ x, (x.1, f x.2))).

(** [set_code(static_cast<int32_t>(...))], [set_message(...)] on a status. *)
Definition proto_status (s : CommonStatus) : proto.CommonStatus :=
  proto.mkCommonStatus (ErrorCode_value (code s)) (message s).

Context `{IAuthService W} `{IBasicUserService W}.

Definition Register_logic (_ : string) (request_ : proto.RegisterRequest)
    : prog (W * proto.RegisterResponse) () :=
  let register_request := mkRegisterRequest (proto.reg_username request_) (proto.reg_password request_)
                            (proto.reg_phone_number request_) (proto.reg_code request_) in
  let~ register_response := call_service (svc_Register register_request) in
  do~ edit_reply (λ r, proto.mkRegisterResponse (Some (proto_status (reg_status register_response)))
                         (proto.reg_user_id r)) in
  edit_reply (λ r, proto.mkRegisterResponse (proto.reg_status r) (reg_user_id register_response)).

Definition SendCode_logic (_ : string) (request_ : proto.SendCodeRequest)
    : prog (W * proto.SendCodeResponse) () :=
  let send_code_request := mkSendCodeRequest (proto.sc_phone_number request_)
                             (CodeUsage_cast (proto.sc_usage request_)) in
  let~ send_code_response := call_service (svc_SendCode send_code_request) in
  edit_reply (λ _, proto.mkSendCodeResponse (Some (proto_status (send_status send_code_response)))).

(** What both logins do with the service's result. *)
Definition login_reply (result : LoginResult) : prog (W * proto.LoginResponse) () :=
  do~ edit_reply (λ r, proto.mkLoginResponse (Some (proto_status (login_status result))) (proto.login_token r)) in
  if bool_decide (code (login_status result) = SUCCESS)
  then edit_reply (λ r, proto.mkLoginResponse (proto.login_status r) (login_token result))
  else ret ().

Definition LoginByPassword_logic (_ : string) (request_ : proto.LoginByPasswordRequest)
    : prog (W * proto.LoginResponse) () :=
  let req := mkLoginByPasswordRequest (proto.lp_user_id request_) (proto.lp_password request_) in
  let~ result := call_service (svc_LoginByPassword req) in
  login_reply result.

Definition LoginByCode_logic (_ : string) (request_ : proto.LoginByCodeRequest)
    : prog (W * proto.LoginResponse) () :=
  let req := mkLoginByCodeRequest (proto.lc_phone_number request_) (proto.lc_code request_) in
  let~ result := call_service (svc_LoginByCode req) in
  login_reply result.

Definition profile (r : GetUserInfoResponse) : proto.User :=
  proto.mkUser (info_user_id r) (info_username r) (info_email r) (info_avatar_url r) (info_phone_number r).

Definition GetUserInfo_logic (user_id : string) (_ : proto.GetUserInfoRequest)
    : prog (W * proto.GetUserInfoResponse) () :=
  let req := mkGetUserInfoRequest user_id in
  let~ result := call_service (svc_GetUserInfo req) in
  do~ edit_reply (λ r, proto.mkGetUserInfoResponse (Some (proto_status (info_status result))) (proto.info_user r)) in
  if bool_decide (code (info_status result) = SUCCESS)
  then edit_reply (λ r, proto.mkGetUserInfoResponse (proto.info_status r) (Some (profile result)))
  else ret ().

#[export] Instance RegisterCallData : SpecificCallData proto.RegisterRequest proto.RegisterResponse W := {|
  RequestType_new := proto.mkRegisterRequest "" "" "" "";
  ResponseType_new := proto.mkRegisterResponse None "";
  kRequiresAuth := false;
  RunSpecificLogic := Register_logic
|}.

#[export] Instance SendCodeCallData : SpecificCallData proto.SendCodeRequest proto.SendCodeResponse W := {|
  RequestType_new := proto.mkSendCodeRequest "" 0;
  ResponseType_new := proto.mkSendCodeResponse None;
  kRequiresAuth := false;
  RunSpecificLogic := SendCode_logic
|}.

#[export] Instance LoginByPasswordCallData :
    SpecificCallData proto.LoginByPasswordRequest proto.LoginResponse W := {|
  RequestType_new := proto.mkLoginByPasswordRequest "" "";
  ResponseType_new := proto.mkLoginResponse None "";
  kRequiresAuth := false;
  RunSpecificLogic := LoginByPassword_logic
|}.

#[export] Instance LoginByCodeCallData : SpecificCallData proto.LoginByCodeRequest proto.LoginResponse W := {|
  RequestType_new := proto.mkLoginByCodeRequest "" "";
  ResponseType_new := proto.mkLoginResponse None "";
  kRequiresAuth := false;
  RunSpecificLogic := LoginByCode_logic
|}.

#[export] Instance GetUserInfoCallData :
    SpecificCallData proto.GetUserInfoRequest proto.GetUserInfoResponse W := {|
  RequestType_new := proto.mkGetUserInfoRequest;
  ResponseType_new := proto.mkGetUserInfoResponse None None;
  kRequiresAuth := true;
  RunSpecificLogic := GetUserInfo_logic
|}.
End logic.

(** ** What a method replies *)

(** The reply for each service result. *)
Definition register_reply (a : RegisterResponse) : proto.RegisterResponse :=
  proto.mkRegisterResponse (Some (proto_status (reg_status a))) (reg_user_id a).
Definition send_code_reply (a : SendCodeResponse) : proto.SendCodeResponse :=
  proto.mkSendCodeResponse (Some (proto_status (send_status a))).
Definition login_response (a : LoginResult) : proto.LoginResponse :=
  proto.mkLoginResponse (Some (proto_status (login_status a)))
    (if bool_decide (code (login_status a) = SUCCESS) then login_token a else "").
Definition info_reply (a : GetUserInfoResponse) : proto.GetUserInfoResponse :=
  proto.mkGetUserInfoResponse (Some (proto_status (info_status a)))
    (if bool_decide (code (info_status a) = SUCCESS) then Some (profile a) else None).

Section replying.
Context {W R : Type}.
Implicit Types (calls : list ((W * R) * (W * R))) (r : R).

(** [p] does no more than to make [h r] of a reply [r]. *)
Definition edits (p : prog (W * R) ()) (h : R → R) : Prop :=
  ∀ calls r r' o, Programs.exec p calls (Done o) → filled r calls r' → o = Ret () ∧ r' = h r.

Lemma edits_ret : edits (ret ()) id.
Proof. by intros calls r r' o [-> ->]%exec_ret <-. Qed.

Lemma edits_edit f : edits (edit_reply f) f.
Proof. by intros calls r r' o (x & x' & -> & [= <- <-] & _)%exec_call (<- & <-). Qed.

Lemma edits_then (p q : prog (W * R) ()) f g h :
  edits p f → edits q g → (∀ r, g (f r) = h r) → edits (do~ p in q) h.
Proof.
  intros Hp Hq Hh calls r r' o He Hf. rewrite <- Hh. apply exec_bind in He as [(a & calls1 & calls2 & -> & He1 & He2)|(o1 & He & Ho)].
  - apply filled_app in Hf as (r1 & Hf1 & Hf2). destruct (Hp _ _ _ _ He1 Hf1) as [_ ->].
    by destruct (Hq _ _ _ _ He2 Hf2) as [-> ->].
  - destruct (Hp _ _ _ _ He Hf) as [-> _]. done.
Qed.

(** The service does not touch the reply. *)
Lemma call_service_filled {A} (p : prog W A) calls q r r' :
  Programs.exec (call_service p) calls q → filled r calls r' → r' = r.
Proof.
  revert p r. induction calls as [|[x x'] calls IH]; intros p r; [by intros _ <-|].
  destruct p as [o|B m k]; [done|]. simpl. intros (Hx & _ & He) [<- Hf].
  assert (x'.2 = x.2) as E by (rewrite <- Hx; unfold zoomM; simpl; by destruct (m x.1)).
  rewrite <- E. by eapply IH.
Qed.

(** A run of a method's logic that ended with [o] and [reply] was a run of the
    service [p], and the reply is what [g] makes of its result, or is left [fresh]
    by its exception, which is let out. *)
Definition reports {A} (p : prog W A) (g : A → R) (fresh : R) calls (o : outcome ()) (reply : R) : Prop :=
  ∃ o1 evs1 evs2, worlds calls = (evs1 ++ evs2)%list ∧ Programs.exec p evs1 (Done o1) ∧
    match o1 with
    | Ret a => o = Ret () ∧ reply = g a
    | Throw e => o = Throw e ∧ reply = fresh
    | Pending => o = Pending
    end.

Lemma after_service {A} (p : prog W A) (f : A → prog (W * R) ()) (g : A → R) (h : A → R → R) fresh calls o reply :
  (∀ a, edits (f a) (h a)) → (∀ a, h a fresh = g a) →
  Programs.exec (pbind (call_service p) f) calls (Done o) → filled fresh calls reply →
  reports p g fresh calls o reply.
Proof.
  intros Hedits Hg He Hf. apply exec_bind in He as [(a & calls1 & calls2 & -> & He1 & He2)|(o1 & He & Ho)].
  - apply filled_app in Hf as (r1 & Hf1 & Hf2). pose proof (call_service_filled _ _ _ _ _ He1 Hf1) as ->.
    exists (Ret a), (worlds calls1), (worlds calls2). split; [apply fmap_app|].
    split; [by apply (exec_zoom service_lens)|]. rewrite <- Hg. by apply (Hedits a calls2).
  - exists o1, (worlds calls), []. rewrite app_nil_r. split; [done|]. split; [by apply (exec_zoom service_lens)|].
    pose proof (call_service_filled _ _ _ _ _ He Hf) as ->. by destruct o1.
Qed.
End replying.

(** A reply is empty, or what [g] makes of a result of the service. *)
Lemma reports_inv {W R A} (p : prog W A) (g : A → R) fresh calls o reply :
  reports p g fresh calls o reply → o ≠ Pending →
  reply = fresh ∨ ∃ a evs1 evs2, worlds calls = (evs1 ++ evs2)%list ∧ Programs.exec p evs1 (Done (Ret a)) ∧ reply = g a.
Proof.
  intros ([a|e|] & evs1 & evs2 & E & He & Ho) Hp; [right|left; by destruct Ho|done].
  destruct Ho as [_ ->]. by exists a, evs1, evs2.
Qed.

Section lemmas.
Context {W : Type} `{IAuthService W} `{IBasicUserService W}.

Lemma login_reply_edits (a : LoginResult) :
  edits (W:=W) (login_reply a) (λ r, proto.mkLoginResponse (Some (proto_status (login_status a)))
    (if bool_decide (code (login_status a) = SUCCESS) then login_token a else proto.login_token r)).
Proof.
  unfold login_reply. case_bool_decide; [by eapply edits_then; [apply edits_edit..|]|].
  by eapply edits_then; [apply edits_edit|apply edits_ret|].
Qed.

Lemma Register_logic_reports uid rq (calls : list ((W * _) * _)) o reply :
  Programs.exec (Register_logic uid rq) calls (Done o) → filled ResponseType_new calls reply →
  reports (svc_Register (mkRegisterRequest (proto.reg_username rq) (proto.reg_password rq)
                           (proto.reg_phone_number rq) (proto.reg_code rq)))
    register_reply ResponseType_new calls o reply.
Proof.
  apply (after_service _ _ _ (λ a _, register_reply a)); [|done]. intros a. by eapply edits_then; [apply edits_edit..|].
Qed.

Lemma SendCode_logic_reports uid rq (calls : list ((W * _) * _)) o reply :
  Programs.exec (SendCode_logic uid rq) calls (Done o) → filled ResponseType_new calls reply →
  reports (svc_SendCode (mkSendCodeRequest (proto.sc_phone_number rq) (CodeUsage_cast (proto.sc_usage rq))))
    send_code_reply ResponseType_new calls o reply.
Proof. apply (after_service _ _ _ (λ a _, send_code_reply a)); [|done]. intros a. apply edits_edit. Qed.

Lemma LoginByPassword_logic_reports uid rq (calls : list ((W * _) * _)) o reply :
  Programs.exec (LoginByPassword_logic uid rq) calls (Done o) → filled (proto.mkLoginResponse None "") calls reply →
  reports (svc_LoginByPassword (mkLoginByPasswordRequest (proto.lp_user_id rq) (proto.lp_password rq)))
    login_response (proto.mkLoginResponse None "") calls o reply.
Proof. by eapply after_service; [exact login_reply_edits|]. Qed.

Lemma LoginByCode_logic_reports uid rq (calls : list ((W * _) * _)) o reply :
  Programs.exec (LoginByCode_logic uid rq) calls (Done o) → filled (proto.mkLoginResponse None "") calls reply →
  reports (svc_LoginByCode (mkLoginByCodeRequest (proto.lc_phone_number rq) (proto.lc_code rq)))
    login_response (proto.mkLoginResponse None "") calls o reply.
Proof. by eapply after_service; [exact login_reply_edits|]. Qed.

Lemma GetUserInfo_logic_reports uid rq (calls : list ((W * _) * _)) o reply :
  Programs.exec (GetUserInfo_logic uid rq) calls (Done o) → filled ResponseType_new calls reply →
  reports (svc_GetUserInfo (mkGetUserInfoRequest uid)) info_reply ResponseType_new calls o reply.
Proof.
  apply (after_service _ _ _ (λ a r, proto.mkGetUserInfoResponse (Some (proto_status (info_status a)))
    (if bool_decide (code (info_status a) = SUCCESS) then Some (profile a) else proto.info_user r))); [|done].
  intros a. case_bool_decide; [by eapply edits_then; [apply edits_edit..|]|]. by eapply edits_then; [apply edits_edit|apply edits_ret|].
Qed.
End lemmas.

(** ** What a method promises *)
Section promises.
Context `{ServiceLaws W} `{!CoUserRepository W} `{!CoVerificationCodeRepository W} `{!CoServiceLaws W}.

(** The world of a coroutine that fills a reply [evolves]. *)
Definition evolves_with {R} (x x' : W * R) : Prop := evolves x.1 x'.1.

#[export] Instance evolves_with_trans {R} : Transitive (@evolves_with R).
Proof. intros x y z. unfold evolves_with. apply evolves_trans. Qed.

Lemma call_service_good {R A} (p : prog W A) (f : A → prog (W * R) ()) x :
  (∀ w, good evolves p w) → (∀ a x, good evolves_with (f a) x) → good evolves_with (pbind (call_service p) f) x.
Proof.
  intros Hp Hf. apply good_bind; [apply _| |intros; apply Hf]. exact (good_pzoom service_lens evolves p x (Hp _)).
Qed.

Lemma edit_good {R} (f : R → R) x : good evolves_with (edit_reply (W:=W) f) x.
Proof. apply good_call. intros x1 o x2 Hx [= <- <-] _. exact (evolves_ok _ _ Hx). Qed.

Lemma edit_then_good {R} (f : R → R) (p : prog (W * R) ()) x :
  (∀ x, good evolves_with p x) → good evolves_with (do~ edit_reply f in p) x.
Proof. intros Hp. apply good_bind; [apply _|apply edit_good|intros; apply Hp]. Qed.

Lemma call_service_bounded {R A} n m (p : prog W A) (f : A → prog (W * R) ()) :
  bounded n p → (∀ a, bounded m (f a)) → bounded (n + m) (pbind (call_service p) f).
Proof. intros Hp. apply bounded_bind. by apply bounded_pzoom. Qed.

Lemma login_reply_good a x : good evolves_with (login_reply (W:=W) a) x.
Proof. apply edit_then_good. intros y. case_bool_decide; [apply edit_good|done]. Qed.

Lemma login_reply_bounded a : bounded 2 (login_reply (W:=W) a).
Proof. apply (bounded_bind 1 1); [apply bounded_call|]. intros _. case_bool_decide; [apply bounded_call|done]. Qed.

(** A method of the service whose own calls are harmless keeps to [evolves]. *)
Lemma method_considerate {Req Rsp} `{!SpecificCallData Req Rsp W} (w0 : W) :
  (∀ uid rq x, good evolves_with (RunSpecificLogic (Rsp:=Rsp) (W:=W) uid (rq : Req)) x) → store_ok w0 →
  Considerate (Rsp:=Rsp) evolves w0.
Proof.
  intros Hgood Hw0. split.
  - apply _.
  - apply evolves_ok.
  - split; [done|]. split; [done|by split].
  - intros t w o w' Hw Hv Ho. eapply keeps_accounts_evolves; [|exact (proj1 (proj2 Hw))|exact Hv|done].
    apply keeps_store_accounts, VerifyToken_keeps.
  - intros uid rq w r _. apply Hgood.
Qed.

(** The calls of each method: at most ten. *)
Lemma Register_logic_good uid rq x : good evolves_with (Register_logic uid rq) x.
Proof. apply call_service_good; [intros w; apply co_Register_good|]. intros a y. apply edit_then_good. apply edit_good. Qed.
Lemma Register_logic_bounded uid rq : bounded 9 (Register_logic uid rq).
Proof.
  apply (call_service_bounded 7 2); [apply co_Register_bounded|]. intros a. by apply (bounded_bind 1 1); intros; apply bounded_call.
Qed.

Lemma SendCode_logic_good uid rq x : good evolves_with (SendCode_logic uid rq) x.
Proof. apply call_service_good; [intros w; apply co_SendCode_good|]. intros a y. apply edit_good. Qed.
Lemma SendCode_logic_bounded uid rq : bounded 6 (SendCode_logic uid rq).
Proof. apply (call_service_bounded 5 1); [apply co_SendCode_bounded|]. intros a. apply bounded_call. Qed.

Lemma LoginByPassword_logic_good uid rq x : good evolves_with (LoginByPassword_logic uid rq) x.
Proof. apply call_service_good; [intros w; apply co_LoginByPassword_good|apply login_reply_good]. Qed.
Lemma LoginByPassword_logic_bounded uid rq : bounded 10 (LoginByPassword_logic uid rq).
Proof. apply (call_service_bounded 8 2); [apply co_LoginByPassword_bounded|apply login_reply_bounded]. Qed.

Lemma LoginByCode_logic_good uid rq x : good evolves_with (LoginByCode_logic uid rq) x.
Proof. apply call_service_good; [intros w; apply co_LoginByCode_good|apply login_reply_good]. Qed.
Lemma LoginByCode_logic_bounded uid rq : bounded 7 (LoginByCode_logic uid rq).
Proof. apply (call_service_bounded 5 2); [apply co_LoginByCode_bounded|apply login_reply_bounded]. Qed.

Lemma GetUserInfo_logic_good uid rq x : good evolves_with (GetUserInfo_logic uid rq) x.
Proof.
  apply call_service_good; [intros w; apply co_GetUserInfo_good|]. intros a y. apply edit_then_good. intros z.
  case_bool_decide; [apply edit_good|done].
Qed.
Lemma GetUserInfo_logic_bounded uid rq : bounded 9 (GetUserInfo_logic uid rq).
Proof.
  apply (call_service_bounded 7 2); [apply co_GetUserInfo_bounded|]. intros a.
  apply (bounded_bind 1 1); [apply bounded_call|]. intros _. case_bool_decide; [apply bounded_call|done].
Qed.
End promises.
