(* ===== verification/CallDataV1.v ===== *)
(** * CallDataV1: the first RPC adapter (adapter/v1)

    [RegisterCallData] of adapter/v1: one object per request, which creates its
    successor when it is given a call and deletes itself once its reply was
    sent.  The objects live on a heap, a handler is the list of its statements,
    and the statements of all threads interleave one by one; a statement that
    uses a deleted object is a fault. *)

From stdpp Require Import base tactics option strings numbers relations list gmap.
From S2P Require Import Prelude Text CallData Handlers.

Open Scope string_scope.
Open Scope photon_scope.

(** ** The object *)

(** [State]. *)
Inductive State := CREATE | PROCESS | FINISH.

#[export] Instance State_eq_dec : EqDecision State.
Proof. solve_decision. Defined.

(** The members of RegisterCallData that change; the service, the queue and the
    io_context are the same for every object. *)
Record RegisterCallData := mkRegisterCallData {
  status_ : State;
  request_ : proto.RegisterRequest;
  reply_ : proto.RegisterResponse;
  ctx_ : ServerContext;
  responder_ : responder
}.

Definition RegisterCallData_make : RegisterCallData :=
  mkRegisterCallData CREATE (proto.mkRegisterRequest "" "" "" "") (proto.mkRegisterResponse None "")
    ServerContext_new ResponderReady.

Definition set_status (st : State) (cd : RegisterCallData) : RegisterCallData :=
  mkRegisterCallData st (request_ cd) (reply_ cd) (ctx_ cd) (responder_ cd).

(** ** Handlers

    The statements of a handler; [this] is the address of the object it runs on. *)
Inductive stmt :=
| NewInit
| SetStatus (this : nat) (st : State)
| RequestRegister (this : nat)
| CoSpawn (this : nat)
| Finish (this : nat) (status : Status)
| DeleteThis (this : nat).

Definition HandleCreate (this : nat) : list stmt := [SetStatus this PROCESS; RequestRegister this].

Definition HandleProcess (this : nat) : list stmt := [NewInit; SetStatus this FINISH; CoSpawn this].

Definition HandleFinish (this : nat) : list stmt := [DeleteThis this].

(** Proceed is not told whether the event succeeded. *)
Definition Proceed (this : nat) (cd : RegisterCallData) : list stmt :=
  match status_ cd with
  | CREATE => HandleCreate this
  | PROCESS => HandleProcess this
  | FINISH => HandleFinish this
  end.

Definition Init (this : nat) (cd : RegisterCallData) : list stmt := Proceed this cd.

Definition RunLogic (cd : RegisterCallData) : outcome () * RegisterCallData :=
  let prefix := "Hello, " in
  (Ret (), mkRegisterCallData (status_ cd) (request_ cd)
             (proto.mkRegisterResponse (proto.reg_status (reply_ cd)) (prefix +:+ proto.reg_username (request_ cd)))
             (ctx_ cd) (responder_ cd)).

Definition OnLogicFinished (this : nat) (e : option exn) : list stmt := [Finish this (logic_status e)].

(** ** The server

    What is going on: an object's tag is with gRPC ([Registered]) or in the
    queue ([Event]), a thread has these statements left ([Running]), a coroutine
    runs ([Coroutine]), a reply is being sent ([Sending]). *)
Inductive task :=
| Registered (this : nat)
| Event (this : nat) (ok : bool)
| Running (ss : list stmt)
| Coroutine (this : nat)
| Sending (this : nat).

Abbreviation reply_sent := (@reply_sent proto.RegisterResponse).

(** The heap, the calls accepted so far (a call is its place), the replies sent. *)
Record env := mkEnv {
  heap : gmap nat RegisterCallData;
  accepted : list proto.RegisterRequest;
  sent : list reply_sent
}.

Record server := mkServer { tasks : list task; down : bool; fault : bool; the_env : env }.

(** A step cannot be taken now, uses a deleted object, or gives a new state and
    the tasks in place of the one that stepped. *)
Inductive result := Disabled | Fault | Done (e : env) (ts : list task).

Definition store (this : nat) (cd : RegisterCallData) (e : env) : env :=
  mkEnv (<[this := cd]> (heap e)) (accepted e) (sent e).

Definition deref (this : nat) (e : env) (f : RegisterCallData → result) : result :=
  match heap e !! this with Some cd => f cd | None => Fault end.

Definition rest (ss : list stmt) : list task := match ss with [] => [] | _ => [Running ss] end.

(** One statement; [fresh] is the address the allocator picks. *)
Definition exec (fresh : nat) (s : stmt) (k : list stmt) (e : env) : result :=
  match s with
  | NewInit =>
      match heap e !! fresh with
      | None => Done (store fresh RegisterCallData_make e) (rest (Init fresh RegisterCallData_make ++ k)%list)
      | Some _ => Disabled
      end
  | SetStatus this st => deref this e (λ cd, Done (store this (set_status st cd) e) (rest k))
  | RequestRegister this => deref this e (λ _, Done e (rest k ++ [Registered this])%list)
  | CoSpawn this => deref this e (λ _, Done e (rest k ++ [Coroutine this])%list)
  | Finish this status => deref this e (λ cd,
      Done (mkEnv (<[this := mkRegisterCallData (status_ cd) (request_ cd) (reply_ cd) (ctx_ cd) ResponderUsed]> (heap e))
                  (accepted e)
                  (sent e ++ [mkSent (call (ctx_ cd)) (responder_ cd) status (reply_ cd)])%list)
           (rest k ++ [Sending this])%list)
  | DeleteThis this => deref this e (λ _, Done (mkEnv (delete this (heap e)) (accepted e) (sent e)) (rest k))
  end.

(** What the environment decides. *)
Inductive choice :=
| Accept (md : list (string * string)) (rq : proto.RegisterRequest) | Cancel | Sent (ok : bool) | Go (fresh : nat).

Definition task_step (is_down : bool) (ch : choice) (e : env) (t : task) : result :=
  match t, ch with
  | Registered this, Accept md rq =>
      if is_down then Disabled
      else deref this e (λ cd,
        Done (mkEnv (<[this := mkRegisterCallData (status_ cd) rq (reply_ cd)
                                 (mkContext (Some (length (accepted e))) md) (responder_ cd)]> (heap e))
                    (accepted e ++ [rq])%list (sent e))
             [Event this true])
  | Registered this, Cancel => if is_down then Done e [Event this false] else Disabled
  | Event this _, Go _ => deref this e (λ cd, Done e (rest (Proceed this cd)))
  | Running (s :: k), Go fresh => exec fresh s k e
  | Coroutine this, Go _ => deref this e (λ cd,
      let '(o, cd') := RunLogic cd in
      Done (store this cd' e)
           (match o with
            | Ret _ => rest (OnLogicFinished this None)
            | Throw ex => rest (OnLogicFinished this (Some ex))
            | Pending => []
            end))
  | Sending this, Sent ok => Done e [Event this ok]
  | _, _ => Disabled
  end.

Inductive happening := Task (j : nat) (ch : choice) | ShutDown.

Definition happen (h : happening) (s : server) : option server :=
  match h with
  | Task j ch =>
      t ← tasks s !! j;
      if fault s then None else
      match task_step (down s) ch (the_env s) t with
      | Disabled => None
      | Fault => Some (mkServer (tasks s) (down s) true (the_env s))
      | Done e ts => Some (mkServer (take j (tasks s) ++ ts ++ drop (S j) (tasks s))%list (down s) false e)
      end
  | ShutDown => Some (mkServer (tasks s) true (fault s) (the_env s))
  end.

Fixpoint happen_all (hs : list happening) (s : server) : option server :=
  match hs with
  | [] => Some s
  | h :: hs => s' ← happen h s; happen_all hs s'
  end.

(** [(new RegisterCallData(...))->Init()] in SeedCallData. *)
Definition seeded : server := mkServer [Running [NewInit]] false false (mkEnv ∅ [] []).

(** A step while the server is up. *)
Definition step (s s' : server) : Prop := ∃ j ch, happen (Task j ch) s = Some s'.

(** The step of a process that takes no new call. *)
Definition is_accept (ch : choice) : bool := match ch with Accept _ _ => true | _ => false end.
Definition quiet (s s' : server) : Prop := ∃ j ch, is_accept ch = false ∧ happen (Task j ch) s = Some s'.

(** The tasks that will let gRPC hand over the next call, or just have. *)
Definition listens (e : env) (t : task) : bool :=
  match t with
  | Registered _ => true
  | Event this _ => match heap e !! this with Some cd => bool_decide (status_ cd = PROCESS) | None => false end
  | Running ss => existsb (λ s, match s with NewInit | RequestRegister _ => true | _ => false end) ss
  | Coroutine _ | Sending _ => false
  end.

Definition listeners (s : server) : nat := length (filter (λ t, listens (the_env s) t = true) (tasks s)).

(** *** Two calls, one answered *)
Definition ann : proto.RegisterRequest := proto.mkRegisterRequest "ann" "pw" "1" "123456".
Definition bob : proto.RegisterRequest := proto.mkRegisterRequest "bob" "pw" "2" "654321".

Definition demo_history : list happening :=
  [Task 0 (Go 10); Task 0 (Go 0); Task 0 (Go 0); Task 0 (Accept [] ann); Task 0 (Go 0); Task 0 (Go 11);
   Task 0 (Go 0); Task 0 (Go 0); Task 1 (Accept [] bob); Task 0 (Go 0); Task 0 (Go 0); Task 0 (Go 0);
   Task 0 (Go 0); Task 0 (Sent true); Task 0 (Go 0); Task 0 (Go 0); Task 0 (Go 0); Task 0 (Go 10)].
Definition demo : server := default seeded (happen_all demo_history seeded).

Example demo_state :
  sent (the_env demo) = [mkSent (Some 0%nat) ResponderReady Status_OK (proto.mkRegisterResponse None "Hello, ann")]
  ∧ tasks demo = [Running [SetStatus 10 PROCESS; RequestRegister 10; SetStatus 11 FINISH; CoSpawn 11]].
Proof. split; vm_compute; reflexivity. Qed.

(** ** Who owns what

    Every task owns the objects it will use, owes at most one call a reply, and
    either is the listener or not. *)
Section invariant.
Record info := mkInfo { own : list nat; owe : option nat; lst : nat }.
Implicit Types (e : env) (cd : RegisterCallData) (t : task) (i : info) (js : list info) (k : list stmt).

Definition owns js : list nat := concat (own <$> js).
Definition replied e : list nat := omap re_call (sent e).

Definition empty_reply : proto.RegisterResponse := proto.mkRegisterResponse None "".
Definition greeting (rq : proto.RegisterRequest) : proto.RegisterResponse :=
  proto.mkRegisterResponse None ("Hello, " +:+ proto.reg_username rq).

Definition reply_ok e (r : reply_sent) : Prop :=
  re_ready r = ResponderReady ∧ ∃ c rq, re_call r = Some c ∧ accepted e !! c = Some rq
    ∧ re_status r = Status_OK ∧ re_reply r = greeting rq.

(** The object at [this] holds call [c], unanswered. *)
Definition serving e (this : nat) (st : State) (c : nat) (reply : proto.RegisterRequest → proto.RegisterResponse) : Prop :=
  ∃ cd, heap e !! this = Some cd ∧ status_ cd = st ∧ call (ctx_ cd) = Some c ∧ responder_ cd = ResponderReady
    ∧ accepted e !! c = Some (request_ cd) ∧ reply_ cd = reply (request_ cd).

Definition finished e (this : nat) : Prop := ∃ cd, heap e !! this = Some cd ∧ status_ cd = FINISH.

(** What HandleProcess has left once the successor listens. *)
Inductive tail e : list stmt → list nat → option nat → Prop :=
| tail_nil : tail e [] [] None
| tail_process this c : serving e this PROCESS c (λ _, empty_reply) →
    tail e [SetStatus this FINISH; CoSpawn this] [this] (Some c).

Inductive shape e : task → info → Prop :=
| sh_registered p : heap e !! p = Some (set_status PROCESS RegisterCallData_make) →
    shape e (Registered p) (mkInfo [p] None 1)
| sh_accepted p c : serving e p PROCESS c (λ _, empty_reply) → shape e (Event p true) (mkInfo [p] (Some c) 1)
| sh_new k o c : tail e k o c → shape e (Running (NewInit :: k)) (mkInfo o c 1)
| sh_init q k o c : heap e !! q = Some RegisterCallData_make → tail e k o c →
    shape e (Running (SetStatus q PROCESS :: RequestRegister q :: k)) (mkInfo (q :: o) c 1)
| sh_request q k o c : heap e !! q = Some (set_status PROCESS RegisterCallData_make) → tail e k o c →
    shape e (Running (RequestRegister q :: k)) (mkInfo (q :: o) c 1)
| sh_process p c : serving e p PROCESS c (λ _, empty_reply) →
    shape e (Running [SetStatus p FINISH; CoSpawn p]) (mkInfo [p] (Some c) 0)
| sh_spawn p c : serving e p FINISH c (λ _, empty_reply) →
    shape e (Running [CoSpawn p]) (mkInfo [p] (Some c) 0)
| sh_coroutine p c : serving e p FINISH c (λ _, empty_reply) → shape e (Coroutine p) (mkInfo [p] (Some c) 0)
| sh_answer p c : serving e p FINISH c greeting →
    shape e (Running [Finish p Status_OK]) (mkInfo [p] (Some c) 0)
| sh_sending p : finished e p → shape e (Sending p) (mkInfo [p] None 0)
| sh_sent p ok : finished e p → shape e (Event p ok) (mkInfo [p] None 0)
| sh_delete p : finished e p → shape e (Running [DeleteThis p]) (mkInfo [p] None 0).
#[local] Hint Constructors shape tail : core.

(** A task only looks at its own objects. *)
Definition same_on (ps : list nat) e e' : Prop :=
  (∀ p, p ∈ ps → heap e' !! p = heap e !! p) ∧ ∃ l, accepted e' = (accepted e ++ l)%list.

Lemma serving_same ps e e' p st c f : same_on ps e e' → p ∈ ps → serving e p st c f → serving e' p st c f.
Proof.
  intros [Hh (l & Hl)] Hp (cd & H1 & H2 & H3 & H4 & H5 & H6). exists cd. rewrite Hh, Hl by done.
  split_and!; try done. by apply lookup_app_l_Some.
Qed.

Lemma finished_same ps e e' p : same_on ps e e' → p ∈ ps → finished e p → finished e' p.
Proof. intros [Hh _] Hp (cd & H1 & H2). exists cd. by rewrite Hh. Qed.

Lemma tail_same ps e e' k o c : same_on ps e e' → (∀ p, p ∈ o → p ∈ ps) → tail e k o c → tail e' k o c.
Proof.
  intros Hs Ho. destruct 1; constructor. eapply serving_same; [done| |done]. apply Ho. set_solver.
Qed.

Lemma shape_same e e' t i : same_on (own i) e e' → shape e t i → shape e' t i.
Proof.
  intros Hs Hsh. destruct Hsh; simpl in *.
  all: try match goal with
    | H : heap _ !! ?q = Some _ |- _ =>
        assert (heap e' !! q = heap e !! q) as Hq by (apply (proj1 Hs); set_solver); rewrite <- Hq in H
    end.
  all: eauto using serving_same, finished_same, list_elem_of_here.
  all: econstructor; eauto; eapply tail_same; eauto; set_solver.
Qed.

Lemma serving_live e p st c f : serving e p st c f → is_Some (heap e !! p).
Proof. intros (cd & -> & _). done. Qed.
Lemma finished_live e p : finished e p → is_Some (heap e !! p).
Proof. intros (cd & -> & _). done. Qed.
Lemma tail_live e k o c p : tail e k o c → p ∈ o → is_Some (heap e !! p).
Proof. destruct 1; rewrite ?elem_of_nil, ?list_elem_of_singleton; [done|intros ->]. by eapply serving_live. Qed.

Lemma shape_live e t i p : shape e t i → p ∈ own i → is_Some (heap e !! p).
Proof.
  destruct 1; simpl; rewrite ?elem_of_cons, ?elem_of_nil; intros Hp;
    destruct_or?; subst; eauto using serving_live, finished_live, tail_live; naive_solver eauto using tail_live.
Qed.

Lemma shape_listens e t i : shape e t i → lst i = if listens e t then 1%nat else 0%nat.
Proof.
  assert (∀ k o c, tail e k o c → existsb (λ s, match s with NewInit | RequestRegister _ => true | _ => false end) k = false)
    as Htail by by destruct 1.
  destruct 1 as [|p c (cd & Hp & Hst & _)| | | | | | | | |p ok (cd & Hp & Hst)|]; simpl; try done.
  - by rewrite Hp, Hst.
  - by rewrite Hp, Hst.
Qed.

(** What one step of a task does to what it owns and owes. *)
Record local e i e' js : Prop := {
  l_accepted : ∃ l, accepted e' = (accepted e ++ l)%list;
  l_frame : ∀ p, p ∉ own i → p ∉ owns js → heap e' !! p = heap e !! p;
  l_nodup : NoDup (owns js);
  l_fresh : ∀ p, p ∈ owns js → p ∈ own i ∨ heap e !! p = None;
  l_freed : ∀ p, p ∈ own i → p ∉ owns js → heap e' !! p = None;
  l_ledger : (omap owe js ++ replied e' ++ seq 0 (length (accepted e))
              ≡ₚ option_list (owe i) ++ replied e ++ seq 0 (length (accepted e')))%list;
  l_sent : Forall (reply_ok e) (sent e) → Forall (reply_ok e') (sent e');
  l_lst : sum_list_with lst js = lst i
}.

(** A step that keeps its objects, calls and place as the listener, and edits at
    most an object it owns. *)
Lemma local_edit e i e' js :
  accepted e' = accepted e → sent e' = sent e →
  (heap e' = heap e ∨ ∃ p cd, p ∈ own i ∧ heap e' = <[p := cd]> (heap e)) →
  owns js ≡ₚ own i → NoDup (own i) → omap owe js = option_list (owe i) → sum_list_with lst js = lst i →
  local e i e' js.
Proof.
  intros Ha Hs Hh Ho Hnd Hc Hl. split; unfold replied; rewrite ?Ha, ?Hs, ?Ho, ?Hc; try done.
  - exists []. by rewrite app_nil_r.
  - intros p Hp _. destruct Hh as [->|(q & cd & Hq & ->)]; [done|]. rewrite lookup_insert_ne; [done|]. by intros ->.
  - intros p Hp. left. by rewrite <- Ho.
  - intros p Hp Hn. by rewrite Ho in Hn.
  - unfold reply_ok. by rewrite Ha.
Qed.

Lemma local_refl e i js :
  owns js = own i → NoDup (own i) → omap owe js = option_list (owe i) → sum_list_with lst js = lst i → local e i e js.
Proof. intros Ho ???. apply local_edit; rewrite ?Ho; auto. Qed.

Lemma local_accept e p cd md rq :
  local e (mkInfo [p] None 1)
    (mkEnv (<[p := mkRegisterCallData (status_ cd) rq (reply_ cd)
                     (mkContext (Some (length (accepted e))) md) (responder_ cd)]> (heap e))
           (accepted e ++ [rq])%list (sent e))
    [mkInfo [p] (Some (length (accepted e))) 1].
Proof.
  split; simpl; unfold owns; simpl.
  - by eexists.
  - intros q Hq _. rewrite lookup_insert_ne; [done|]. set_solver.
  - apply NoDup_singleton.
  - by left.
  - intros q Hq []. done.
  - unfold replied. simpl. rewrite length_app, seq_app. simpl. rewrite (assoc_L (++)%list).
    by rewrite <- Permutation_cons_append.
  - intros Hf. eapply Forall_impl; [exact Hf|]. intros r (Hr & c & rq' & Hc & Ha & Hrest). split; [done|].
    exists c, rq'. split_and!; [done|by apply lookup_app_l_Some|apply Hrest..].
  - done.
Qed.

Lemma local_new e q o c :
  heap e !! q = None → NoDup o → (∀ p, p ∈ o → is_Some (heap e !! p)) →
  local e (mkInfo o c 1) (store q RegisterCallData_make e) [mkInfo (q :: o) c 1].
Proof.
  intros Hq Hnd Hlive.
  assert (q ∉ o) as Hqo by (intros (cd & Hcd)%Hlive; by rewrite Hq in Hcd).
  split; unfold owns, replied; simpl; rewrite ?app_nil_r.
  - exists []. by rewrite app_nil_r.
  - intros p _ Hp. rewrite lookup_insert_ne; [done|]. set_solver.
  - by constructor.
  - intros p [->|?]%elem_of_cons; auto.
  - intros p Hp []. set_solver.
  - by destruct c.
  - done.
  - lia.
Qed.

Lemma local_finish e p c cd cd' :
  heap e !! p = Some cd → call (ctx_ cd) = Some c → responder_ cd = ResponderReady →
  accepted e !! c = Some (request_ cd) → reply_ cd = greeting (request_ cd) →
  local e (mkInfo [p] (Some c) 0)
    (mkEnv (<[p := cd']> (heap e)) (accepted e)
           (sent e ++ [mkSent (call (ctx_ cd)) (responder_ cd) Status_OK (reply_ cd)])%list)
    [mkInfo [p] None 0].
Proof.
  intros Hp Hc Hr Ha Hre. split; unfold owns, replied; simpl.
  - exists []. by rewrite app_nil_r.
  - intros q Hq _. rewrite lookup_insert_ne; [done|]. set_solver.
  - apply NoDup_singleton.
  - by left.
  - intros q Hq []. done.
  - rewrite omap_app. simpl. rewrite Hc. simpl. by rewrite <- Permutation_cons_append.
  - intros Hf. apply Forall_app. split; [done|]. rewrite Forall_singleton. split; [done|].
    by exists c, (request_ cd).
  - done.
Qed.

Lemma local_delete e p :
  local e (mkInfo [p] None 0) (mkEnv (delete p (heap e)) (accepted e) (sent e)) [].
Proof.
  split; unfold owns, replied; simpl.
  - exists []. by rewrite app_nil_r.
  - intros q Hq _. rewrite lookup_delete_ne; [done|]. set_solver.
  - constructor.
  - set_solver.
  - intros q ->%list_elem_of_singleton _. apply lookup_delete_eq.
  - done.
  - done.
  - done.
Qed.

(** A step that never uses a deleted object, and leaves tasks in their shapes. *)
Definition steps_well e i (r : result) : Prop :=
  match r with
  | Disabled => True
  | Fault => False
  | Done e' ts => ∃ js, Forall2 (shape e') ts js ∧ local e i e' js
  end.

Lemma steps_one e i e' t j : shape e' t j → local e i e' [j] → steps_well e i (Done e' [t]).
Proof. intros Hs Hl. exists [j]. split; [|done]. by apply Forall2_cons. Qed.

Lemma same_store q cd e ps : q ∉ ps → same_on ps e (store q cd e).
Proof.
  intros Hq. split; [|by exists []; rewrite app_nil_r].
  intros p Hp. simpl. rewrite lookup_insert_ne; [done|]. by intros ->.
Qed.

Lemma tail_store q cd e k o c : q ∉ o → tail e k o c → tail (store q cd e) k o c.
Proof. intros Hq. eapply tail_same; [by apply same_store|done]. Qed.

(** The rest of a handler after a statement of HandleCreate or HandleProcess. *)
Lemma rest_tail e k o c : tail e k o c →
  ∃ js, Forall2 (shape e) (rest k) js ∧ owns js = o ∧ omap owe js = option_list c ∧ sum_list_with lst js = 0%nat.
Proof.
  destruct 1 as [|p c Hs]; [by exists []; repeat constructor|].
  exists [mkInfo [p] (Some c) 0]. split_and!; [|done..]. apply Forall2_cons; split; [by apply sh_process|done].
Qed.

Ltac owned_edit p := apply local_edit; simpl; rewrite ?app_nil_r; try done;
  try apply NoDup_singleton; right; exists p; eexists; split; [set_solver|done].

Lemma event_well e p ok i : shape e (Event p ok) i → steps_well e i (task_step false (Go 0) e (Event p ok)).
Proof.
  intros Hsh. inversion Hsh as [|p' c Hs| | | | | | | | |p' ok' Hf|]; subst; simpl; unfold deref, Proceed.
  - pose proof Hs as (cd & -> & -> & _). eapply steps_one; [by eapply sh_new, tail_process|].
    by apply local_refl; [|apply NoDup_singleton|..].
  - pose proof Hf as (cd & -> & ->). eapply steps_one; [by apply sh_delete|].
    by apply local_refl; [|apply NoDup_singleton|..].
Qed.

Lemma coroutine_well e p i : shape e (Coroutine p) i → steps_well e i (task_step false (Go 0) e (Coroutine p)).
Proof.
  inversion 1 as [| | | | | | |p' c Hs| | | |]; subst; simpl; unfold deref.
  destruct Hs as (cd & Hp & Hst & Hc & Hr & Ha & Hre). rewrite Hp. eapply steps_one.
  - apply (sh_answer _ p c). eexists. simpl. rewrite lookup_insert_eq. split_and!; [done..|]. simpl. by rewrite Hre.
  - by owned_edit p.
Qed.

Lemma stmt_well e st k i fresh :
  NoDup (own i) → shape e (Running (st :: k)) i → steps_well e i (exec fresh st k e).
Proof.
  intros Hnd Hsh. inversion Hsh as [| |k' o c Hk|q k' o c Hq Hk|q k' o c Hq Hk|p c Hs|p c Hs| |p c Hs| | |p Hf];
    subst; simpl in *; unfold deref.
  - destruct (heap e !! fresh) as [?|] eqn:Hfresh; [done|].
    eapply steps_one; [apply sh_init; [by apply lookup_insert_eq|]|by apply local_new; eauto using tail_live].
    apply tail_store; [|done]. intros (cd & Hcd)%(tail_live _ _ _ _ _ Hk). by rewrite Hfresh in Hcd.
  - rewrite Hq. apply NoDup_cons in Hnd as Hnd'. destruct Hnd' as [Hqo _].
    eapply steps_one; [apply sh_request; [by apply lookup_insert_eq|by apply tail_store]|].
    apply local_edit; simpl; unfold owns; simpl; rewrite ?app_nil_r; try done.
    right. exists q. eexists. split; [set_solver|done].
  - rewrite Hq. destruct (rest_tail _ _ _ _ Hk) as (js & Hjs & Ho & Hc & Hl).
    exists (js ++ [mkInfo [q] None 1])%list. split; [apply Forall2_app; [done|]; by apply Forall2_cons; split; [apply sh_registered|]|].
    apply local_edit; simpl; try done; [by left| | |].
    + unfold owns in *. rewrite fmap_app, concat_app. simpl. by rewrite Ho, <- Permutation_cons_append.
    + rewrite omap_app, Hc. by rewrite app_nil_r.
    + rewrite sum_list_with_app, Hl. done.
  - destruct Hs as (cd & Hp & Hst & Hc & Hr & Ha & Hre). rewrite Hp.
    eapply steps_one; [apply (sh_spawn _ p c)|by owned_edit p].
    eexists. simpl. rewrite lookup_insert_eq. by split_and!.
  - pose proof Hs as (cd & -> & _). eapply steps_one; [by apply (sh_coroutine _ p c)|].
    by apply local_refl; [|apply NoDup_singleton|..].
  - destruct Hs as (cd & Hp & Hst & Hc & Hr & Ha & Hre). rewrite Hp.
    eapply steps_one; [|by eapply local_finish].
    apply sh_sending. eexists. simpl. by rewrite lookup_insert_eq.
  - pose proof Hf as (cd & -> & _). exists []. split; [constructor|]. apply local_delete.
Qed.

Lemma task_step_well e t i ch : NoDup (own i) → shape e t i → steps_well e i (task_step false ch e t).
Proof.
  intros Hnd Hsh. destruct t as [p|p ok|[|st k]|p|p], ch as [md rq| |ok'|fresh]; try done.
  - inversion Hsh as [p' Hp| | | | | | | | | | |]; subst. simpl. unfold deref. rewrite Hp.
    eapply steps_one; [|apply local_accept]. apply (sh_accepted _ p (length (accepted e))).
    eexists. simpl. rewrite lookup_insert_eq. split_and!; try done. simpl. by rewrite lookup_app_r, Nat.sub_diag.
  - exact (event_well e p ok i Hsh).
  - by apply stmt_well.
  - exact (coroutine_well e p i Hsh).
  - inversion Hsh; subst. eapply steps_one; [by apply sh_sent|]. by apply local_refl; [|apply NoDup_singleton|..].
Qed.

(** ** The whole server *)

Record v1_inv (s : server) js : Prop := {
  v_shapes : Forall2 (shape (the_env s)) (tasks s) js;
  v_nodup : NoDup (owns js);
  v_live : ∀ p, is_Some (heap (the_env s) !! p) ↔ p ∈ owns js;
  v_ledger : (omap owe js ++ replied (the_env s) ≡ₚ seq 0 (length (accepted (the_env s))))%list;
  v_sent : Forall (reply_ok (the_env s)) (sent (the_env s));
  v_listener : sum_list_with lst js = 1%nat;
  v_up : down s = false;
  v_nofault : fault s = false
}.

Lemma seeded_inv : v1_inv seeded [mkInfo [] None 1].
Proof.
  split; try done; [|by constructor|].
  - apply Forall2_cons. split; [apply sh_new; constructor|done].
  - intros p. simpl. rewrite lookup_empty, elem_of_nil. split; [intros (?&?); done|done].
Qed.

Lemma owns_app js1 js2 : owns (js1 ++ js2) = (owns js1 ++ owns js2)%list.
Proof. unfold owns. by rewrite fmap_app, concat_app. Qed.
Lemma owns_cons i js : owns (i :: js) = (own i ++ owns js)%list.
Proof. done. Qed.

Lemma own_in_owns i js p : i ∈ js → p ∈ own i → p ∈ owns js.
Proof.
  intros Hi Hp. unfold owns. apply list_elem_of_In, in_concat. exists (own i).
  split; [|by apply list_elem_of_In]. apply list_elem_of_In, list_elem_of_fmap. by exists i.
Qed.

(** The tasks that did not step own neither what the step used nor what it made. *)
Lemma others_same e i e' njs js i' :
  local e i e' njs → i' ∈ js → (∀ p, p ∈ owns js → (p ∉ own i ∧ is_Some (heap e !! p))) → same_on (own i') e e'.
Proof.
  intros Hl Hi Hjs. split; [|apply Hl]. intros p Hp.
  destruct (Hjs p (own_in_owns _ _ _ Hi Hp)) as [Hn (cd & Hcd)]. apply (l_frame _ _ _ _ Hl); [done|].
  intros [?|Hnone]%(l_fresh _ _ _ _ Hl); [done|]. by rewrite Hcd in Hnone.
Qed.

Lemma shapes_frame e i e' njs ts js :
  local e i e' njs → (∀ p, p ∈ owns js → (p ∉ own i ∧ is_Some (heap e !! p))) →
  Forall2 (shape e) ts js → Forall2 (shape e') ts js.
Proof.
  intros Hl Hjs Hf. apply Forall2_same_length_lookup. split; [by eapply Forall2_length|].
  intros n t i' Ht Hi. eapply shape_same; [|by eapply Forall2_lookup_lr].
  eapply others_same; [done| |done]. by eapply list_elem_of_lookup_2.
Qed.

(** The step of the [j]-th task, taken apart. *)
Lemma happen_task s js j ch s' :
  v1_inv s js → happen (Task j ch) s = Some s' →
  ∃ ts1 t ts2 js1 i js2 e' nts njs,
    tasks s = (ts1 ++ t :: ts2)%list ∧ js = (js1 ++ i :: js2)%list
    ∧ shape (the_env s) t i ∧ Forall2 (shape (the_env s)) ts1 js1 ∧ Forall2 (shape (the_env s)) ts2 js2
    ∧ task_step false ch (the_env s) t = Done e' nts
    ∧ Forall2 (shape e') nts njs ∧ local (the_env s) i e' njs
    ∧ (∀ p, p ∈ owns (js1 ++ js2) → (p ∉ own i ∧ is_Some (heap (the_env s) !! p)))
    ∧ s' = mkServer (ts1 ++ nts ++ ts2)%list false false e'.
Proof.
  intros [Hsh Hnd Hlive _ _ _ Hup Hnf] Hs. simpl in Hs. apply bind_Some in Hs as (t & Ht & Hs).
  rewrite Hup, Hnf in Hs.
  destruct (Forall2_lookup_l _ _ _ _ _ Hsh Ht) as (i & Hi & Hti).
  pose proof (take_drop_middle _ _ _ Ht) as Hts. pose proof (take_drop_middle _ _ _ Hi) as Hjs.
  rewrite <- Hjs, owns_app, owns_cons in Hnd, Hlive. apply NoDup_app in Hnd as (_ & Hd1 & (Hndi & Hd2 & _)%NoDup_app).
  pose proof (task_step_well _ _ _ ch Hndi Hti) as Hwell.
  destruct (task_step false ch (the_env s) t) as [| |e' nts] eqn:Estep; [done..|].
  destruct Hwell as (njs & Hnew & Hl). injection Hs as <-.
  exists (take j (tasks s)), t, (drop (S j) (tasks s)), (take j js), i, (drop (S j) js), e', nts, njs.
  split_and!; try done; [by apply Forall2_take|by apply Forall2_drop|].
  intros p Hp. rewrite owns_app, elem_of_app in Hp. split.
  - intros Hpi. destruct Hp as [Hp|Hp]; [|by apply (Hd2 p)]. apply (Hd1 p Hp). apply elem_of_app. by left.
  - apply Hlive. rewrite !elem_of_app. naive_solver.
Qed.

Lemma owed_perm (o1 o o2 o' r r' s s' : list nat) :
  ((o1 ++ o ++ o2) ++ r)%list ≡ₚ s → (o' ++ r' ++ s)%list ≡ₚ (o ++ r ++ s')%list →
  ((o1 ++ o' ++ o2) ++ r')%list ≡ₚ s'.
Proof.
  rewrite !(Permutation_count_occ Nat.eq_dec). intros H1 H2 x. specialize (H1 x). specialize (H2 x).
  rewrite !count_occ_app in *. lia.
Qed.

Lemma v1_step_inv s js s' : v1_inv s js → step s s' → ∃ js', v1_inv s' js'.
Proof.
  intros Hinv (j & ch & Hs).
  destruct (happen_task _ _ _ _ _ Hinv Hs) as
    (ts1 & t & ts2 & js1 & i & js2 & e' & nts & njs & Hts & -> & Hti & H1 & H2 & _ & Hnew & Hl & Hother & ->).
  exists (js1 ++ njs ++ js2)%list. destruct Hinv as [_ Hnd Hlive Hled Hsent Hlst _ _].
  rewrite owns_app, owns_cons in Hnd, Hlive. rewrite owns_app in Hother.
  assert (∀ p, p ∈ owns njs → p ∉ owns js1 ∧ p ∉ owns js2) as Hapart.
  { intros p Hp. split; intros Hp';
      (destruct (Hother p) as [Hn (cd & Hcd)]; [apply elem_of_app; auto|]);
      (destruct (l_fresh _ _ _ _ Hl p Hp) as [|Hnone]; [done|by rewrite Hcd in Hnone]). }
  split; simpl; rewrite ?owns_app; try done.
  - apply Forall2_app; [|apply Forall2_app; [done|]]; (eapply shapes_frame; [done| |done]); intros p Hp; apply Hother;
      apply elem_of_app; auto.
  - apply NoDup_app in Hnd as (Hnd1 & Hd1 & (_ & _ & Hnd2)%NoDup_app).
    apply NoDup_app. split_and!; [done| |].
    + intros p Hp1 [Hp|Hp]%elem_of_app; [by destruct (Hapart p Hp)|]. apply (Hd1 p Hp1). apply elem_of_app. by right.
    + apply NoDup_app. split_and!; [apply Hl| |done]. intros p Hp. by apply Hapart.
  - intros p. rewrite !elem_of_app. split.
    + intros Hp. destruct (decide (p ∈ owns njs)) as [|Hn]; [auto|].
      destruct (decide (p ∈ own i)) as [Hi|Hi]; [rewrite (l_freed _ _ _ _ Hl p Hi Hn) in Hp; by destruct Hp|].
      rewrite (l_frame _ _ _ _ Hl p Hi Hn) in Hp. apply Hlive in Hp. rewrite !elem_of_app in Hp. naive_solver.
    + intros Hp. destruct (decide (p ∈ owns njs)) as [Hin|Hn].
      * unfold owns in Hin. apply list_elem_of_In, in_concat in Hin as (l & Hl' & Hpl).
        apply list_elem_of_In, list_elem_of_fmap in Hl' as (i' & -> & Hi').
        apply list_elem_of_lookup in Hi' as [n Hi']. destruct (Forall2_lookup_r _ _ _ _ _ Hnew Hi') as (t' & _ & Ht').
        apply (shape_live _ _ _ p Ht'). by apply list_elem_of_In.
      * assert (p ∈ owns js1 ∨ p ∈ owns js2) as Hp' by naive_solver.
        destruct (Hother p) as [Hi Hsome]; [by apply elem_of_app|]. by rewrite (l_frame _ _ _ _ Hl p Hi Hn).
  - rewrite omap_app in Hled. simpl in Hled. rewrite !omap_app.
    eapply (owed_perm _ (option_list (owe i))); [|by apply Hl]. by destruct (owe i).
  - by apply Hl.
  - rewrite !sum_list_with_app in *. simpl in Hlst. rewrite (l_lst _ _ _ _ Hl). lia.
Qed.

Lemma v1_reachable s : rtc step seeded s → ∃ js, v1_inv s js.
Proof.
  intros Hrun. apply (rtc_invariant step (λ s, ∃ js, v1_inv s js)
    ltac:(intros x y (js & Hx) Hxy; by eapply v1_step_inv) _ _ Hrun). eexists. apply seeded_inv.
Qed.

Lemma v1_listeners s js : v1_inv s js → listeners s = sum_list_with lst js.
Proof.
  intros [Hsh _ _ _ _ _ _ _]. unfold listeners.
  induction Hsh as [|t i ts js' Ht _ IH]; [done|]. rewrite filter_cons. simpl.
  rewrite (shape_listens _ _ _ Ht), <- IH. by destruct (listens (the_env s) t).
Qed.
End invariant.

(** ** Every call is answered

    What a statement or a task still has to do, the object's deletion included. *)
Section settling.
Definition stmt_weight (s : stmt) : nat :=
  match s with
  | NewInit => 3 | SetStatus _ _ => 1 | RequestRegister _ => 1
  | CoSpawn _ => 6 | Finish _ _ => 4 | DeleteThis _ => 1
  end.

Definition task_weight (e : env) (t : task) : nat :=
  match t with
  | Registered _ => 0
  | Event _ _ => if listens e t then 11 else 2
  | Running ss => sum_list_with stmt_weight ss
  | Coroutine _ => 5
  | Sending _ => 3
  end.

Definition weight (s : server) : nat := sum_list_with (task_weight (the_env s)) (tasks s).

Lemma task_weight_same e e' t i : shape e t i → same_on (own i) e e' → task_weight e' t = task_weight e t.
Proof.
  intros Hsh Hs. pose proof (shape_same _ _ _ _ Hs Hsh) as Hsh'.
  assert (listens e' t = listens e t) as Hl.
  { pose proof (shape_listens _ _ _ Hsh). pose proof (shape_listens _ _ _ Hsh'). destruct (listens e t), (listens e' t); congruence. }
  destruct t; simpl in *; by rewrite ?Hl.
Qed.

Lemma rest_weight e k : sum_list_with (task_weight e) (rest k) = sum_list_with stmt_weight k.
Proof. destruct k; simpl; lia. Qed.

Lemma task_step_weight e t i ch e' ts :
  is_accept ch = false → shape e t i → task_step false ch e t = Done e' ts →
  (sum_list_with (task_weight e') ts < task_weight e t)%nat.
Proof.
  intros Hch Hsh Hs. destruct t as [p|p ok|[|st k]|p|p], ch as [md rq| |ok'|fresh]; try done; simpl in Hs; unfold deref in Hs.
  - destruct (heap e !! p) as [cd|] eqn:Hp; [|done]. injection Hs as <- <-. unfold Proceed.
    inversion Hsh as [|? c (cd' & Hp' & Hst & _)| | | | | | | | |? ? (cd' & Hp' & Hst)|]; subst;
      rewrite Hp in Hp'; injection Hp' as <-; rewrite Hst; simpl; rewrite Hp, Hst; simpl; lia.
  - destruct st as [|q st|q|q|q st|q]; simpl in Hs; unfold deref in Hs;
      destruct (heap e !! _) as [cd|]; try done; injection Hs as <- <-;
      rewrite ?sum_list_with_app, ?rest_weight; simpl; lia.
  - destruct (heap e !! p) as [cd|]; [|done]. injection Hs as <- <-. simpl. lia.
  - injection Hs as <- <-. inversion Hsh as [| | | | | | | | |? (cd & Hp & Hst)| |]; subst. simpl. rewrite Hp, Hst. simpl. lia.
Qed.

Lemma weight_frame e e' ts js :
  Forall2 (shape e) ts js → (∀ i, i ∈ js → same_on (own i) e e') →
  sum_list_with (task_weight e') ts = sum_list_with (task_weight e) ts.
Proof.
  induction 1 as [|t i ts js Ht _ IH]; intros Hjs; [done|]. simpl.
  rewrite (task_weight_same _ _ _ _ Ht) by (apply Hjs; set_solver). rewrite IH; [done|]. intros i' Hi'. apply Hjs. set_solver.
Qed.

Lemma v1_quiet_step s s' : quiet s s' → step s s'.
Proof. intros (j & ch & _ & Hs). by exists j, ch. Qed.

Lemma v1_quiet_weight s js s' : v1_inv s js → quiet s s' → (weight s' < weight s)%nat.
Proof.
  intros Hinv (j & ch & Hch & Hs).
  destruct (happen_task _ _ _ _ _ Hinv Hs) as
    (ts1 & t & ts2 & js1 & i & js2 & e' & nts & njs & Hts & -> & Hti & H1 & H2 & Hst & _ & Hl & Hother & ->).
  unfold weight. simpl. rewrite Hts, !sum_list_with_app. simpl. rewrite owns_app in Hother.
  pose proof (task_step_weight _ _ _ _ _ _ Hch Hti Hst).
  assert (∀ ts js, Forall2 (shape (the_env s)) ts js → (∀ p, p ∈ owns js → p ∈ (owns js1 ++ owns js2)%list) →
    sum_list_with (task_weight e') ts = sum_list_with (task_weight (the_env s)) ts) as Hframe.
  { intros ts js Hf Hjs. apply (weight_frame _ _ _ js); [done|]. intros i' Hi'.
    eapply others_same; [done|done|]. intros p Hp. by apply Hother, Hjs. }
  rewrite (Hframe ts1 js1), (Hframe ts2 js2); try done; [lia|..]; intros p Hp; apply elem_of_app; auto.
Qed.

Lemma v1_quiet_bounded n s s' js : v1_inv s js → nsteps quiet n s s' → (n + weight s' ≤ weight s)%nat.
Proof.
  intros Hinv Hrun. revert js Hinv. induction Hrun as [s|n s s1 s2 Hw _ IH]; intros js Hinv; [lia|].
  pose proof (v1_quiet_weight _ _ _ Hinv Hw). destruct (v1_step_inv _ _ _ Hinv (v1_quiet_step _ _ Hw)) as (js1 & Hinv1).
  pose proof (IH _ Hinv1). lia.
Qed.

(** Every task but a registered one can go on. *)
Lemma task_can_step e t i :
  NoDup (own i) → shape e t i → (∃ p, t = Registered p) ∨ ∃ ch, is_accept ch = false ∧ task_step false ch e t ≠ Disabled.
Proof.
  intros Hnd Hsh. destruct t as [p|p ok|[|st k]|p|p]; [by left; eexists|right..].
  - exists (Go 0). split; [done|]. simpl. unfold deref. by destruct (heap e !! p).
  - inversion Hsh; subst; done.
  - exists (Go (fresh (dom (heap e)))). split; [done|]. simpl.
    destruct st as [|q st|q|q|q st|q]; simpl; unfold deref; [|by destruct (heap e !! _)..].
    assert (heap e !! fresh (dom (heap e)) = None) as -> by apply not_elem_of_dom, is_fresh. done.
  - exists (Go 0). split; [done|]. simpl. unfold deref. by destruct (heap e !! p).
  - exists (Sent true). by split.
Qed.

Lemma v1_stuck_registered s js t :
  v1_inv s js → (∀ s', ¬ quiet s s') → t ∈ tasks s → ∃ p, t = Registered p.
Proof.
  intros [Hsh Hnd _ _ _ _ Hup Hnf] Hstuck [n Hn]%list_elem_of_lookup.
  destruct (Forall2_lookup_l _ _ _ _ _ Hsh Hn) as (i & Hi & Hti).
  assert (NoDup (own i)) as Hndi.
  { pose proof (take_drop_middle _ _ _ Hi) as Hjs. rewrite <- Hjs, owns_app, owns_cons in Hnd.
    by apply NoDup_app in Hnd as (_ & _ & (? & _)%NoDup_app). }
  destruct (task_can_step _ _ _ Hndi Hti) as [|(ch & Hch & Hstep)]; [done|]. exfalso.
  destruct (task_step false ch (the_env s) t) eqn:E; [done| |];
    (eapply Hstuck; exists n, ch; split; [done|]; simpl; rewrite Hn; simpl; rewrite Hup, Hnf, E; done).
Qed.
End settling.

(** ** Properties *)

(** C29: the first adapter is safe: however the worker threads, the coroutines, gRPC
    and the allocator (which may reuse addresses) interleave while the server is
    up, no deleted object is ever used, exactly one object listens for the next
    call, and every reply sent went, through an unused responder, to an accepted
    call that no other reply went to, with status OK and that call's own
    greeting. *)
Theorem v1_safe (s : server) (Hrun : rtc step seeded s) :
  fault s = false
  ∧ listeners s = 1%nat
  ∧ Forall (reply_ok (the_env s)) (sent (the_env s))
  ∧ NoDup (re_call <$> sent (the_env s)).
Proof.
  destruct (v1_reachable _ Hrun) as (js & Hinv). pose proof (v1_listeners _ _ Hinv) as Hlis.
  destruct Hinv as [_ _ _ Hled Hsent Hlst _ Hnf]. split_and!; [done|congruence|done|].
  assert (NoDup (replied (the_env s))) as Hnd.
  { assert (NoDup (omap owe js ++ replied (the_env s))%list) as Hall by (rewrite Hled; apply NoDup_seq).
    by apply NoDup_app in Hall as (_ & _ & ?). }
  assert (re_call <$> sent (the_env s) = Some <$> replied (the_env s)) as ->; [|by apply (NoDup_fmap_2 Some)].
  unfold replied. clear -Hsent. induction Hsent as [|r l (_ & c & rq & Hc & _) _ IH]; [done|].
  rewrite fmap_cons, IH. simpl. by rewrite Hc.
Qed.

(** C30: the first adapter answers everything and leaks nothing: from any reachable
    state, as long as no new call comes in, at most [weight] steps can be taken,
    and when none is left the heap holds one object, as new and registered for
    the next call, and every call accepted was answered. *)
Theorem v1_settles (s : server) (Hrun : rtc step seeded s) :
  (∀ n s', nsteps quiet n s s' → (n ≤ weight s)%nat)
  ∧ ∀ s', rtc quiet s s' → (∀ s'', ¬ quiet s' s'') →
      (∃ p, tasks s' = [Registered p] ∧ heap (the_env s') = {[p := set_status PROCESS RegisterCallData_make]})
      ∧ ∀ c, (c < length (accepted (the_env s')))%nat → Some c ∈ re_call <$> sent (the_env s').
Proof.
  destruct (v1_reachable _ Hrun) as (js & Hinv). split.
  { intros n s' Hn. pose proof (v1_quiet_bounded _ _ _ _ Hinv Hn). lia. }
  intros s' Hq Hstuck.
  assert (rtc step seeded s') as Hrun' by (trans s; [done|]; by apply (rtc_subrel quiet); [apply v1_quiet_step|]).
  destruct (v1_reachable _ Hrun') as (js' & Hinv'). pose proof (v1_listeners _ _ Hinv') as Hlis.
  pose proof (λ t, v1_stuck_registered _ _ t Hinv' Hstuck) as Hreg.
  destruct Hinv' as [Hsh Hnd Hlive Hled Hsent Hlst _ _]. rewrite Hlst in Hlis. unfold listeners in Hlis.
  destruct (tasks s') as [|t ts] eqn:Ets; [done|]. destruct (Hreg t) as (p & ->); [apply list_elem_of_here|].
  destruct ts as [|t2 ts].
  - inversion Hsh as [|? i ? js0 Hp Hn]; subst. inversion Hn; subst. inversion Hp as [p' Hcd| | | | | | | | | | |]; subst.
    split.
    + exists p. split; [done|]. apply map_eq. intros q. destruct (decide (q = p)) as [->|Hne].
      * by rewrite lookup_singleton_eq.
      * rewrite lookup_singleton_ne by done. apply eq_None_not_Some. rewrite Hlive. unfold owns. simpl. set_solver.
    + intros c Hc. simpl in Hled. assert (c ∈ replied (the_env s')) as Hin by (rewrite Hled; apply elem_of_seq; lia).
      unfold replied in Hin. apply list_elem_of_omap in Hin as (r & Hr & Hrc). apply list_elem_of_fmap. by exists r.
  - exfalso. destruct (Hreg t2) as (p2 & ->); [set_solver|]. rewrite !filter_cons in Hlis. simpl in Hlis. lia.
Qed.

(** After a shutdown the tag comes back without a call, and Proceed treats it as
    one: it makes a new object, whose request is cancelled in turn, and sends a
    greeting to nobody through a responder that belongs to no call. *)
Definition shutdown_history : list happening :=
  [Task 0 (Go 1); Task 0 (Go 0); Task 0 (Go 0); ShutDown; Task 0 Cancel; Task 0 (Go 0); Task 0 (Go 2);
   Task 0 (Go 0); Task 0 (Go 0); Task 0 (Go 0); Task 0 (Go 0); Task 0 (Go 0); Task 0 (Go 0); Task 1 Cancel].

Lemma v1_shutdown_answers_nobody :
  sent (the_env (default seeded (happen_all shutdown_history seeded)))
    = [mkSent None ResponderReady Status_OK (proto.mkRegisterResponse None "Hello, ")]
  ∧ tasks (default seeded (happen_all shutdown_history seeded)) = [Sending 1; Event 2 false].
Proof. split; vm_compute; reflexivity. Qed.

(** ** Witnesses *)

Lemma happen_all_steps hs s s' :
  forallb (λ h, match h with Task _ _ => true | ShutDown => false end) hs = true →
  happen_all hs s = Some s' → rtc step s s'.
Proof.
  revert s. induction hs as [|[j ch|] hs IH]; intros s Hup; simpl in *; [by intros [= ->]| |done].
  intros (s1 & Hs1 & Hs')%bind_Some. eapply rtc_l; [by exists j, ch|by apply IH].
Qed.

Lemma demo_reachable : rtc step seeded demo.
Proof. apply (happen_all_steps demo_history); vm_compute; reflexivity. Qed.

Lemma v1_safe_witness :
  fault demo = false ∧ listeners demo = 1%nat ∧ Forall (reply_ok (the_env demo)) (sent (the_env demo))
  ∧ NoDup (re_call <$> sent (the_env demo)).
Proof. apply (v1_safe demo demo_reachable). Defined.

Lemma v1_settles_witness :
  (∀ n s', nsteps quiet n demo s' → (n ≤ weight demo)%nat)
  ∧ ∀ s', rtc quiet demo s' → (∀ s'', ¬ quiet s' s'') →
      (∃ p, tasks s' = [Registered p] ∧ heap (the_env s') = {[p := set_status PROCESS RegisterCallData_make]})
      ∧ ∀ c, (c < length (accepted (the_env s')))%nat → Some c ∈ re_call <$> sent (the_env s').
Proof. apply (v1_settles demo demo_reachable). Defined.
