(* ===== verification/RpcServer.v ===== *)
(** * RpcServer: worker threads, the shared completion queue, five managers

    [UserServiceServer::HandleRpc], SeedCallData, StartListeningThread and
    Shutdown (server/user_service_server.cc) with the five CallDataManagers
    (adapter/v2/call_data_manager) at the level of threads: every manager
    registers its CallData with gRPC under its own method, all of them share one
    completion queue, and a fixed number of worker threads take tags from it and
    run Proceed statement by statement, while coroutines run on the asio threads.
    The view of one method is the step relation of CallData, so what is proved
    there holds of the whole server. *)

From stdpp Require Import base tactics option strings numbers relations list finite.
From S2P Require Import Prelude Programs Text Model Interfaces CallData.

Open Scope string_scope.
Open Scope photon_scope.

(** [static_cast<ICallData*>(tag)]: a tag is the address of a CallData, which is
    a place in the [pool_] of the manager of its method. *)
Abbreviation tag Method := (Method * nat)%type.

(** A worker thread waits in [cq_->Next], runs a handler for the tag it got, or
    has left the loop of HandleRpc. *)
Inductive worker (Method : Set) := InNext | InProceed (t : tag Method) (ops : list op) | Exited.
Arguments InNext {Method}.
Arguments InProceed {Method}.
Arguments Exited {Method}.

(** Where the tags are: with gRPC for the next call of their method, in the
    completion queue, with a worker, with a coroutine or its completion handler
    on an asio thread, or with a reply that gRPC is sending. *)
Record queues (Method : Set) := mkQueues {
  requested : list (tag Method);
  cq_ : list (tag Method * bool);
  worker_threads_ : list (worker Method);
  asio : list (tag Method * act);
  sending : list (tag Method)
}.
Arguments mkQueues {Method}.
Arguments requested {Method}.
Arguments cq_ {Method}.
Arguments worker_threads_ {Method}.
Arguments asio {Method}.
Arguments sending {Method}.

Section server.
Context {Method : Set} `{Finite Method} {Req Rsp : Method → Type} {W : Type}
  `{IJwtUtil W} `{∀ m, SpecificCallData (Req m) (Rsp m) W}.
Abbreviation tag := (tag Method).
Abbreviation worker := (worker Method).
Abbreviation queues := (queues Method).
Abbreviation CallData m := (CallData (Req m) (Rsp m) W).
Implicit Types (t : tag) (q : queues) (w : W).

(** ** State *)

(** A manager's [pool_], with the calls of its method accepted so far and the
    replies sent. *)
Record manager (m : Method) := mkManager {
  pool_ : list (CallData m);
  calls : list (list (string * string) * Req m);
  replies : list (@reply_sent (Rsp m))
}.
Arguments mkManager {m}.
Arguments pool_ {m}.
Arguments calls {m}.
Arguments replies {m}.

(** [crashed]: gRPC was given an operation for a queue that is shut down, which
    its documentation forbids. *)
Record rpc := mkRpc {
  mgr : ∀ m, manager m;
  the_queues : queues;
  server_down : bool;
  cq_down : bool;
  crashed : bool;
  the_world : W
}.
Implicit Types s : rpc.

Definition set_mgr (m : Method) (x : manager m) (f : ∀ m, manager m) : ∀ m, manager m := fun m' =>
  match decide (m = m') with
  | left e => eq_rect m manager x m' e
  | right _ => f m'
  end.

Definition method_env s (m : Method) : @env (Req m) (Rsp m) W :=
  mkEnv (calls (mgr s m)) (replies (mgr s m)) (the_world s).

(** ** Operations *)

Definition with_requested l q := mkQueues l (cq_ q) (worker_threads_ q) (asio q) (sending q).
Definition with_cq l q := mkQueues (requested q) l (worker_threads_ q) (asio q) (sending q).
Definition with_workers l q := mkQueues (requested q) (cq_ q) l (asio q) (sending q).
Definition with_asio l q := mkQueues (requested q) (cq_ q) (worker_threads_ q) l (sending q).
Definition with_sending l q := mkQueues (requested q) (cq_ q) (worker_threads_ q) (asio q) l.

(** SpecificRegisterCallDataToCQ: RequestX for the tag's own method X, with the
    shared queue. *)
Definition SpecificRegisterCallDataToCQ t q : queues := with_requested (requested q ++ [t])%list q.

(** Where an activity that was set going takes place. *)
Definition file t q (a : act) : queues :=
  match a with
  | Registered => SpecificRegisterCallDataToCQ t q
  | Event ok => with_cq (cq_ q ++ [(t, ok)])%list q
  | Sending => with_sending (sending q ++ [t])%list q
  | Running _ | Coroutine => with_asio (asio q ++ [(t, a)])%list q
  end.

(** What a worker has left of its handler; without anything it calls Next again. *)
Definition resume t (new : list act) : worker * list act :=
  match new with
  | Running ops :: new => (InProceed t ops, new)
  | _ => (InNext, new)
  end.

Definition refile_worker (i : nat) t (new : list act) q : queues :=
  let '(wk, new) := resume t new in
  foldl (file t) (with_workers (<[i := wk]> (worker_threads_ q)) q) new.

Definition refile_asio t (new : list act) q : queues := foldl (file t) q new.

(** New operations on a queue that is shut down. *)
Definition forbidden (closed : bool) (a : act) : bool :=
  closed && match a with Registered | Sending => true | _ => false end.

(** One step of the activity [a] of [t], which [q] holds no more. *)
Definition drive t (a : act) (ch : @choice (Req t.1)) (refile : list act → queues → queues) q s : option rpc :=
  cd ← pool_ (mgr s t.1) !! t.2;
  '(e', cd', new) ← act_step (server_down s) ch (method_env s t.1) cd a;
  Some (mkRpc (set_mgr t.1 (mkManager (<[t.2 := cd']> (pool_ (mgr s t.1))) (accepted e') (sent e')) (mgr s))
              (refile new q) (server_down s) (cq_down s)
              (crashed s || existsb (forbidden (cq_down s)) new) (world e')).

(** [Next] gives false once the queue is shut down and drained. *)
Definition drained q : bool :=
  match requested q, cq_ q, sending q with [], [], [] => true | _, _, _ => false end.

(** What can happen: gRPC hands a call of method [m] to a CallData registered for
    it; it gives a tag back; worker [i] gets an event from Next and calls
    Proceed, or goes on with its handler; an asio thread goes on with its [k]-th
    task; a send ends; Shutdown shuts the server and the queue down; a worker
    leaves its loop; the rest of the process changes the world. *)
Inductive happening :=
| CallArrives (m : Method) (i : nat) (md : list (string * string)) (rq : Req m)
| TagReturned t
| NextGives (i : nat) t (ok : bool)
| WorkerGoes (i : nat)
| AsioGoes (k : nat)
| ReplySent t (ok : bool)
| ServerShutdown
| QueueShutdown
| WorkerExits (i : nat)
| WorldChanges w.

Definition happen (h : happening) s : option rpc :=
  let q := the_queues s in
  if crashed s then None else
  match h with
  | CallArrives m i md rq =>
      l ← remove_one (m, i) (requested q);
      drive (m, i) Registered (Accept md rq) (refile_asio (m, i)) (with_requested l q) s
  | TagReturned t =>
      l ← remove_one t (requested q); drive t Registered Cancel (refile_asio t) (with_requested l q) s
  | NextGives i t ok =>
      match worker_threads_ q !! i with
      | Some InNext =>
          l ← remove_one (t, ok) (cq_ q); drive t (Event ok) Go (refile_worker i t) (with_cq l q) s
      | _ => None
      end
  | WorkerGoes i =>
      match worker_threads_ q !! i with
      | Some (InProceed t ops) =>
          drive t (Running ops) Go (refile_worker i t) (with_workers (<[i := InNext]> (worker_threads_ q)) q) s
      | _ => None
      end
  | AsioGoes k =>
      match asio q !! k with
      | Some (t, a) => drive t a Go (refile_asio t) (with_asio (delete k (asio q)) q) s
      | None => None
      end
  | ReplySent t ok =>
      l ← remove_one t (sending q); drive t Sending (Sent ok) (refile_asio t) (with_sending l q) s
  | ServerShutdown => Some (mkRpc (mgr s) q true (cq_down s) (crashed s) (the_world s))
  | QueueShutdown => Some (mkRpc (mgr s) q (server_down s) true (crashed s) (the_world s))
  | WorkerExits i =>
      match worker_threads_ q !! i with
      | Some InNext =>
          if cq_down s && drained q
          then Some (mkRpc (mgr s) (with_workers (<[i := Exited]> (worker_threads_ q)) q)
                      (server_down s) (cq_down s) (crashed s) (the_world s))
          else None
      | _ => None
      end
  | WorldChanges w => Some (mkRpc (mgr s) q (server_down s) (cq_down s) (crashed s) w)
  end.

Definition step s s' : Prop := ∃ h, happen h s = Some s'.
(** Runs in which the rest of the process changes the world as [E] allows, and
    whose worlds all satisfy [O]. *)
Definition step_in (E : W → W → Prop) (O : W → Prop) s s' : Prop :=
  (∃ h, happen h s = Some s' ∧ ∀ w, h = WorldChanges w → E (the_world s) w) ∧ O (the_world s) ∧ O (the_world s').

Fixpoint happen_all (hs : list happening) s : option rpc :=
  match hs with
  | [] => Some s
  | h :: hs => s' ← happen h s; happen_all hs s'
  end.

(** SeedCallData: the managers one after the other, each with its size; then
    StartListeningThread. *)
Definition seeded_manager (m : Method) (n : nat) : manager m := mkManager (fst <$> CallData.Start n []) [] [].

Definition Start_requests (m : Method) (n : nat) q : queues :=
  foldl (λ q i, SpecificRegisterCallDataToCQ (m, i) q) q (seq 0 n).

Definition SeedCallData (size : Method → nat) q : queues :=
  foldl (λ q m, Start_requests m (size m) q) q (enum Method).

Definition StartListeningThread (n : nat) q : queues := with_workers (worker_threads_ q ++ replicate n InNext)%list q.

Definition started (size : Method → nat) (threads : nat) w : rpc :=
  mkRpc (λ m, seeded_manager m (size m))
    (StartListeningThread threads (SeedCallData size (mkQueues [] [] [] [] []))) false false false w.

(** ** The view of one method *)

Definition worker_item (wk : worker) : option (tag * act) :=
  match wk with InProceed t ops => Some (t, Running ops) | InNext | Exited => None end.

(** Every tag in the server with what is going on for it. *)
Definition items q : list (tag * act) :=
  (((., Registered) <$> requested q) ++ ((λ e, (e.1, Event e.2)) <$> cq_ q)
   ++ omap worker_item (worker_threads_ q) ++ asio q ++ ((., Sending) <$> sending q))%list.

Definition acts_of (l : list (tag * act)) t : list act := snd <$> filter (λ x, x.1 = t) l.

Definition activities q t : list act := acts_of (items q) t.

Definition view s (m : Method) : @CallData.server (Req m) (Rsp m) W :=
  mkServer (imap (λ i cd, (cd, activities (the_queues s) (m, i))) (pool_ (mgr s m))) (server_down s) (method_env s m).

(** ** Lemmas *)

Lemma set_mgr_eq m x f : set_mgr m x f m = x.
Proof.
  unfold set_mgr. destruct (decide (m = m)) as [e|]; [|done]. by rewrite (proof_irrel e eq_refl).
Qed.

Lemma set_mgr_ne m m' x f : m ≠ m' → set_mgr m x f m' = f m'.
Proof. intros Hm. unfold set_mgr. by destruct (decide (m = m')). Qed.

(** *** Moving tags *)

Lemma items_file t q a : items (file t q a) ≡ₚ (t, a) :: items q.
Proof.
  unfold items. destruct a; simpl; rewrite ?fmap_app; simpl; rewrite <- Permutation_cons_append; simpl;
    by rewrite <- ?Permutation_middle.
Qed.

Lemma items_files t q new : items (foldl (file t) q new) ≡ₚ (((t,.) <$> new) ++ items q)%list.
Proof.
  revert q. induction new as [|a new IH]; intros q; [done|]. simpl. rewrite IH, items_file.
  by rewrite Permutation_middle.
Qed.

Lemma items_worker i wk q :
  worker_threads_ q !! i = Some InNext →
  items (with_workers (<[i := wk]> (worker_threads_ q)) q) ≡ₚ (option_list (worker_item wk) ++ items q)%list.
Proof.
  intros Hi. unfold items. simpl. rewrite insert_take_drop by (by eapply lookup_lt_Some).
  rewrite <- (take_drop_middle _ _ _ Hi) at 3. rewrite !omap_app. simpl.
  destruct (worker_item wk) as [x|] eqn:Ex; simpl; [|done].
  rewrite <- Permutation_middle. simpl. by rewrite <- !Permutation_middle.
Qed.

Lemma refile_asio_items t new q : items (refile_asio t new q) ≡ₚ (((t,.) <$> new) ++ items q)%list.
Proof. apply items_files. Qed.

Lemma refile_worker_items i t new q :
  worker_threads_ q !! i = Some InNext → items (refile_worker i t new q) ≡ₚ (((t,.) <$> new) ++ items q)%list.
Proof.
  intros Hi. unfold refile_worker. destruct (resume t new) as [wk new'] eqn:E. rewrite items_files, items_worker by done.
  destruct new as [|a new]; [by injection E as <- <-|]. unfold resume in E.
  destruct a; injection E as <- <-; simpl; try done. by rewrite <- Permutation_middle.
Qed.

(** A step that moves the tag [t]: [q] holds every tag but [t]'s [a]. *)
Record moves s t a (ch : @choice (Req t.1)) (refile : list act → queues → queues) q s' : Prop := {
  m_drive : drive t a ch refile q s = Some s';
  m_before : items (the_queues s) ≡ₚ (t, a) :: items q;
  m_after : ∀ new, items (refile new q) ≡ₚ (((t,.) <$> new) ++ items q)%list
}.

(** Steps of the server proper that do not wait for a client or a shutdown. *)
Definition is_quiet (h : happening) : bool :=
  match h with NextGives _ _ _ | WorkerGoes _ | AsioGoes _ | ReplySent _ _ => true | _ => false end.

(** A step that moves tag [t]: how its tag was held, and where it is filed. *)
Ltac moves_tag t Hs :=
  left; eexists t, _, _, _, _; split; [split; [exact Hs|simpl; unfold items; simpl|intros new]|done].

Lemma happen_cases h s s' :
  happen h s = Some s' →
  (∃ t a ch refile q, moves s t a ch refile q s' ∧ (is_quiet h = true → is_work ch = true))
  ∨ (is_quiet h = false ∧ mgr s' = mgr s ∧ items (the_queues s') ≡ₚ items (the_queues s)
     ∧ (server_down s' = server_down s ∧ (h = WorldChanges (the_world s') ∨ the_world s' = the_world s)
        ∨ h = ServerShutdown ∧ server_down s' = true ∧ the_world s' = the_world s)).
Proof.
  unfold happen. destruct (crashed s); [done|]. destruct s as [f q sd cd cr w0]; simpl. intros Hs. destruct h; simpl in *.
  - apply bind_Some in Hs as (l & Hl%remove_one_Permutation & Hs).
    moves_tag (m, i) Hs; [by rewrite Hl|apply refile_asio_items].
  - apply bind_Some in Hs as (l & Hl%remove_one_Permutation & Hs). moves_tag t Hs; [by rewrite Hl|apply refile_asio_items].
  - destruct (worker_threads_ q !! i) as [[]|] eqn:Hi; try done.
    apply bind_Some in Hs as (l & Hl%remove_one_Permutation & Hs). moves_tag t Hs; [|by apply refile_worker_items].
    rewrite Hl. simpl. by rewrite <- Permutation_middle.
  - destruct (worker_threads_ q !! i) as [[|t ops|]|] eqn:Hi; try done.
    assert (<[i:=InNext]> (worker_threads_ q) !! i = Some InNext) as Hn
      by (apply list_lookup_insert_eq; by eapply lookup_lt_Some).
    moves_tag t Hs; [|by apply refile_worker_items].
    pose proof (items_worker i (InProceed t ops) (with_workers (<[i:=InNext]> (worker_threads_ q)) q) Hn) as Hp.
    simpl in Hp. rewrite list_insert_insert_eq, list_insert_id in Hp by done. rewrite <- Hp. by destruct q.
  - destruct (asio q !! k) as [[t a]|] eqn:Hk; [|done]. moves_tag t Hs; [|apply refile_asio_items].
    rewrite (delete_Permutation _ _ _ Hk) at 1. simpl. by rewrite <- !Permutation_middle.
  - apply bind_Some in Hs as (l & Hl%remove_one_Permutation & Hs). moves_tag t Hs; [|apply refile_asio_items].
    rewrite Hl. simpl. by rewrite <- !Permutation_middle.
  - injection Hs as <-. right. by split_and!; [| | |right].
  - injection Hs as <-. right. split_and!; [done..|]. left. split; [done|by right].
  - destruct (worker_threads_ q !! i) as [[]|] eqn:Hi; try done. destruct (cd && drained q); [|done].
    injection Hs as <-. right. split_and!; [done..| |left; split; [done|by right]]. simpl. by rewrite items_worker.
  - injection Hs as <-. right. split_and!; [done..|]. left. split; [done|by left].
Qed.

(** *** A method's view moves like its CallDataManager *)

Lemma acts_of_perm (l l' : list (tag * act)) t : l ≡ₚ l' → acts_of l t ≡ₚ acts_of l' t.
Proof. intros Hl. unfold acts_of. by rewrite Hl. Qed.

Lemma acts_of_files t new l : acts_of (((t,.) <$> new) ++ l)%list t = (new ++ acts_of l t)%list.
Proof.
  unfold acts_of. induction new as [|a new IH]; [done|].
  rewrite fmap_cons, <- app_comm_cons, filter_cons_True, fmap_cons by done. by rewrite IH.
Qed.

Lemma acts_of_other t t' (new : list act) l : t' ≠ t → acts_of (((t,.) <$> new) ++ l)%list t' = acts_of l t'.
Proof.
  intros Ht. unfold acts_of. induction new as [|a new IH]; [done|].
  rewrite fmap_cons, <- app_comm_cons, filter_cons_False by (simpl; congruence). done.
Qed.

Section sim.
Context (E : W → W → Prop) (O : W → Prop) (size : Method → nat) (w0 : W) `{HE : ∀ m, Considerate (Rsp:=Rsp m) E w0}.

(** Each method's view is a run of its manager, and every tag is a CallData. *)
Record sim s : Prop := {
  s_view : ∀ m, rtc (CallData.step_in E O) (CallData.started (size m) w0) (view s m);
  s_tags : ∀ t a, (t, a) ∈ items (the_queues s) → is_Some (pool_ (mgr s t.1) !! t.2)
}.

Lemma view_lookup s m i cd :
  pool_ (mgr s m) !! i = Some cd → cells (view s m) !! i = Some (cd, activities (the_queues s) (m, i)).
Proof. intros Hi. unfold view. simpl. by rewrite list_lookup_imap, Hi. Qed.

Lemma reachable_single n (sv : @CallData.server (Req n) (Rsp n) W) k i cd acts :
  rtc (CallData.step_in E O) (CallData.started k w0) sv → cells sv !! i = Some (cd, acts) → ∃ a, acts = [a].
Proof.
  intros Hrun Hi. destruct (rpc_reachable_inv E O w0 _ _ Hrun) as (owed & (Hcells & _) & _).
  destruct (Forall2_lookup_l _ _ _ _ _ Hcells Hi) as (o & _ & a & Ha & _). by exists a.
Qed.

(** Where the run of a view leads, [E] led there too. *)
Lemma view_from_start s (m : Method) : sim s → E w0 (the_world s).
Proof. intros Hs. by destruct (rpc_reachable_inv E O w0 _ _ (s_view _ Hs m)) as (owed & (_ & _ & _ & ?) & _). Qed.

Lemma view_world_refl s (m : Method) : sim s → E (the_world s) (the_world s).
Proof. intros Hs. eapply (cons_later (Considerate:=HE m)), (view_from_start s m Hs). Qed.

Lemma view_single s m i cd :
  sim s → pool_ (mgr s m) !! i = Some cd → ∃ a, activities (the_queues s) (m, i) = [a].
Proof. intros Hs Hi. eapply reachable_single; [apply Hs|by apply view_lookup]. Qed.

(** Activities that are a permutation of one are that one. *)
Lemma view_same s s' m :
  sim s → mgr s' m = mgr s m →
  (∀ i, activities (the_queues s') (m, i) ≡ₚ activities (the_queues s) (m, i)) →
  cells (view s' m) = cells (view s m).
Proof.
  intros Hs Hm Hacts. unfold view. simpl. rewrite Hm. apply list_eq. intros i. rewrite !list_lookup_imap.
  destruct (pool_ (mgr s m) !! i) as [cd|] eqn:Hi; [|done]. simpl.
  destruct (view_single _ _ _ _ Hs Hi) as (a & Ha). specialize (Hacts i). rewrite Ha in Hacts |- *.
  apply Permutation_singleton_r in Hacts. by rewrite Hacts.
Qed.

Lemma view_world s s' m :
  sim s → mgr s' m = mgr s m → server_down s' = server_down s → E (the_world s) (the_world s') →
  O (the_world s) → O (the_world s') → (∀ i, activities (the_queues s') (m, i) ≡ₚ activities (the_queues s) (m, i)) →
  rtc (CallData.step_in E O) (CallData.started (size m) w0) (view s' m).
Proof.
  intros Hs Hm Hd Hw HO HO' Hacts. eapply rtc_r; [by apply (s_view _ Hs)|]. split; [|done].
  exists (World (the_world s')). split; [|by intros w [= <-]]. simpl. f_equal. pose proof (view_same _ _ _ Hs Hm Hacts) as Hc.
  unfold view in *. simpl in *. rewrite Hc, Hd. unfold method_env, with_world. by rewrite Hm.
Qed.

Lemma moves_acts s t a ch refile q s' :
  moves s t a ch refile q s' →
  ∃ cd e' cd' new, pool_ (mgr s t.1) !! t.2 = Some cd
    ∧ act_step (server_down s) ch (method_env s t.1) cd a = Some (e', cd', new)
    ∧ mgr s' = set_mgr t.1 (mkManager (<[t.2 := cd']> (pool_ (mgr s t.1))) (accepted e') (sent e')) (mgr s)
    ∧ the_world s' = world e' ∧ server_down s' = server_down s
    ∧ activities (the_queues s) t ≡ₚ a :: acts_of (items q) t
    ∧ activities (the_queues s') t ≡ₚ (new ++ acts_of (items q) t)%list
    ∧ (∀ t', t' ≠ t → activities (the_queues s') t' ≡ₚ activities (the_queues s) t')
    ∧ items (the_queues s') ≡ₚ (((t,.) <$> new) ++ items q)%list.
Proof.
  intros [Hd Hb Ha]. unfold drive in Hd. apply bind_Some in Hd as (cd & Hcd & Hd).
  apply bind_Some in Hd as ([[e' cd'] new] & Hstep & [= <-]).
  exists cd, e', cd', new. split_and!; try done; unfold activities; simpl.
  - rewrite (acts_of_perm _ _ t Hb). change ((t, a) :: items q) with (((t,.) <$> [a]) ++ items q)%list.
    by rewrite acts_of_files.
  - by rewrite (acts_of_perm _ _ t (Ha new)), acts_of_files.
  - intros t' Ht'. rewrite (acts_of_perm _ _ t' (Ha new)), (acts_of_perm _ _ t' Hb), acts_of_other by done.
    change ((t, a) :: items q) with (((t,.) <$> [a]) ++ items q)%list. by rewrite acts_of_other.
  - apply Ha.
Qed.

Lemma view_moves s t a ch refile q s' :
  sim s → moves s t a ch refile q s' → O (the_world s) → O (the_world s') →
  E (the_world s) (the_world s') ∧ rtc (CallData.step_in E O) (CallData.started (size t.1) w0) (view s' t.1).
Proof.
  intros Hs Hm HO HO'. destruct t as [m i].
  destruct (moves_acts _ _ _ _ _ _ _ Hm) as (cd & e' & cd' & new & Hcd & Hstep & Hmgr & Hw' & Hd & Hact & Hact' & Hother & _).
  simpl in *. destruct (view_single _ _ _ _ Hs Hcd) as (a1 & Ha1). rewrite Ha1 in Hact.
  apply Permutation_singleton_l in Hact as Hact1. injection Hact1 as <- Hrest. rewrite <- Hrest, app_nil_r in Hact'.
  set (sv := mkServer (<[i := (cd', new)]> (cells (view s m))) (server_down s) e').
  assert (CallData.happen (Cell i 0 ch) (view s m) = Some sv) as Hhap.
  { unfold CallData.happen. rewrite (view_lookup _ _ _ _ Hcd), Ha1. simpl. rewrite Hstep. simpl. by rewrite app_nil_r. }
  assert (rtc (CallData.step_in E O) (CallData.started (size m) w0) sv) as Hsv.
  { eapply rtc_r; [by apply (s_view _ Hs)|]. split; [by eexists|]. simpl. by rewrite <- Hw'. }
  split.
  { destruct (rpc_reachable_inv E O w0 _ _ (s_view _ Hs m)) as (owed & Hinv & _).
    destruct (cell_step_inv E O w0 _ _ _ _ _ _ Hinv Hhap) as [Hew _]; [done|simpl; by rewrite <- Hw'|].
    simpl in Hew. by rewrite Hw'. }
  assert (i < length (cells (view s m)))%nat as Hlt by (by eapply lookup_lt_Some, view_lookup).
  assert (cells sv !! i = Some (cd', new)) as Hsvi by by apply list_lookup_insert_eq.
  destruct (reachable_single _ _ _ _ _ _ Hsv Hsvi) as (a2 & ->).
  apply Permutation_singleton_r in Hact'.
  enough (view s' m = sv) as -> by done. unfold view, sv, method_env. rewrite Hmgr, set_mgr_eq, Hd, Hw'. simpl. f_equal; [|by destruct e'].
  apply list_eq. intros j. rewrite list_lookup_imap. destruct (decide (j = i)) as [->|Hj].
  - rewrite !list_lookup_insert_eq by (done || by eapply lookup_lt_Some). simpl. by rewrite Hact'.
  - rewrite !list_lookup_insert_ne by done. rewrite list_lookup_imap.
    destruct (pool_ (mgr s m) !! j) as [cdj|] eqn:Hcdj; [|done]. simpl.
    destruct (view_single _ _ _ _ Hs Hcdj) as (aj & Haj).
    assert ((m, j) ≠ (m, i)) as Hne by congruence. pose proof (Hother _ Hne) as Hp. rewrite Haj in Hp |- *.
    apply Permutation_singleton_r in Hp. by rewrite Hp.
Qed.

Lemma moves_length s t a ch refile q s' m :
  moves s t a ch refile q s' → length (pool_ (mgr s' m)) = length (pool_ (mgr s m)).
Proof.
  intros Hm. destruct (moves_acts _ _ _ _ _ _ _ Hm) as (cd & e' & cd' & new & _ & _ & -> & _).
  destruct (decide (t.1 = m)) as [<-|Hne]; [|by rewrite set_mgr_ne]. rewrite set_mgr_eq. simpl. by rewrite length_insert.
Qed.

Lemma sim_step s s' : sim s → step_in E O s s' → sim s'.
Proof.
  intros Hs [(h & Hh & Hworld) [HO HO']]. destruct (happen_cases _ _ _ Hh) as [(t & a & ch & refile & q & Hm & _)|(_ & Hmgr & Hi & Hd)].
  - pose proof (moves_acts _ _ _ _ _ _ _ Hm) as
      (cd & e' & cd' & new & Hcd & _ & Hmgr & _ & Hd & _ & _ & Hother & Hitems). split.
    + destruct (view_moves _ _ _ _ _ _ _ Hs Hm HO HO') as [Hew Hv].
      intros m. destruct (decide (t.1 = m)) as [<-|Hne]; [done|].
      apply (view_world s); [done|by rewrite Hmgr, set_mgr_ne|done..|]. intros i. apply Hother. by intros <-.
    + intros t' a' Ht'. apply lookup_lt_is_Some. rewrite (moves_length _ _ _ _ _ _ _ _ Hm). apply lookup_lt_is_Some.
      rewrite Hitems in Ht'. apply elem_of_app in Ht' as [Ht'|Ht'].
      * apply list_elem_of_fmap in Ht' as (? & [= -> _] & _). by eexists.
      * apply (s_tags _ Hs t' a'). rewrite (m_before _ _ _ _ _ _ _ Hm). by apply list_elem_of_further.
  - assert (∀ m i, activities (the_queues s') (m, i) ≡ₚ activities (the_queues s) (m, i)) as Hacts
      by (intros m i; by apply acts_of_perm).
    split; [|intros t a; rewrite Hmgr, Hi; by apply Hs]. intros m.
    destruct Hd as [[Hd Hw']|(_ & Hd & Hw')].
    { apply (view_world s); [done|by rewrite Hmgr|done| |done..].
      destruct Hw' as [->| ->]; [by apply Hworld|by apply (view_world_refl s m)]. }
    eapply rtc_r; [by apply (s_view _ Hs)|]. split; [|done]. exists ShutDown. split; [|done]. simpl. f_equal.
    assert (mgr s' m = mgr s m) as Hmm by by rewrite Hmgr.
    pose proof (view_same _ _ _ Hs Hmm (Hacts m)) as Hc.
    unfold view in *. simpl in *. rewrite Hc, Hd. unfold method_env. by rewrite Hmm, Hw'.
Qed.
End sim.

(** *** The server after SeedCallData *)

Definition all_tags (size : Method → nat) : list tag := enum Method ≫= λ m, (m,.) <$> seq 0 (size m).

Lemma Start_requests_eq m n q : Start_requests m n q = with_requested (requested q ++ ((m,.) <$> seq 0 n))%list q.
Proof.
  unfold Start_requests. generalize (seq 0 n) as l. intros l. revert q.
  induction l as [|i l IH]; intros q; simpl; [by destruct q; simpl; rewrite app_nil_r|].
  rewrite IH. simpl. by rewrite <- (assoc_L (++)%list).
Qed.

Lemma SeedCallData_eq size q : SeedCallData size q = with_requested (requested q ++ all_tags size)%list q.
Proof.
  unfold SeedCallData, all_tags. generalize (enum Method) as l. intros l. revert q.
  induction l as [|m l IH]; intros q; simpl; [by destruct q; simpl; rewrite app_nil_r|].
  rewrite IH, Start_requests_eq. simpl. by rewrite <- (assoc_L (++)%list).
Qed.

Lemma elem_of_all_tags size t : t ∈ all_tags size ↔ (t.2 < size t.1)%nat.
Proof.
  unfold all_tags. rewrite list_elem_of_bind. split.
  - intros (m & Ht & _). apply list_elem_of_fmap in Ht as (i & -> & Hi%elem_of_seq). simpl. lia.
  - intros Ht. exists t.1. split; [|apply elem_of_enum]. apply list_elem_of_fmap. exists t.2.
    split; [by destruct t|]. apply elem_of_seq. lia.
Qed.

Lemma NoDup_all_tags size : NoDup (all_tags size).
Proof.
  unfold all_tags. apply NoDup_bind; [|intros m _; apply (NoDup_fmap_2 _), NoDup_seq|apply NoDup_enum].
  intros m1 m2 t _ _ (i & -> & _)%list_elem_of_fmap (j & [= -> _] & _)%list_elem_of_fmap. done.
Qed.

Lemma acts_of_registered l t : NoDup l → t ∈ l → acts_of ((., Registered) <$> l) t = [Registered].
Proof.
  induction 1 as [|t' l Ht' _ IH]; intros Ht; [by apply elem_of_nil in Ht|]. unfold acts_of in *.
  rewrite fmap_cons. apply elem_of_cons in Ht as [<-|Ht].
  - rewrite filter_cons_True by done. rewrite fmap_cons. f_equal. destruct (_ <$> filter _ _) as [|a k] eqn:E; [done|].
    exfalso. assert (a ∈ a :: k) as Ha by set_solver. rewrite <- E in Ha.
    apply list_elem_of_fmap in Ha as ([t2 ?] & _ & [Heq (t3 & [= -> _] & Hl)%list_elem_of_fmap]%list_elem_of_filter).
    simpl in Heq. by subst.
  - rewrite filter_cons_False by (simpl; congruence). by apply IH.
Qed.

Lemma started_items size n w : items (the_queues (started size n w)) = ((., Registered) <$> all_tags size)%list.
Proof.
  unfold started, StartListeningThread. rewrite SeedCallData_eq. unfold items. simpl.
  assert (omap worker_item (replicate n InNext) = []) as -> by (by induction n). by rewrite app_nil_r.
Qed.

Lemma started_view size n w m : view (started size n w) m = CallData.started (size m) w.
Proof.
  unfold view, activities. rewrite started_items. unfold CallData.started, method_env. simpl. f_equal.
  rewrite !Start_app. apply list_eq. intros i. rewrite list_lookup_imap, list_lookup_fmap. simpl.
  destruct (decide (i < size m)%nat) as [Hi|Hi].
  - rewrite lookup_replicate_2 by done. simpl. f_equal. f_equal. apply acts_of_registered; [apply NoDup_all_tags|].
    by apply elem_of_all_tags.
  - by rewrite lookup_ge_None_2 by (rewrite length_replicate; lia).
Qed.

Lemma started_sim E O size n w : sim E O size w (started size n w).
Proof.
  split; [intros m; rewrite started_view; apply rtc_refl|]. intros t a. rewrite started_items. intros Ht.
  apply list_elem_of_fmap in Ht as (t' & [= <- _] & Ht'%elem_of_all_tags). simpl. rewrite Start_app. simpl.
  apply lookup_lt_is_Some. by rewrite length_fmap, length_replicate.
Qed.

Lemma reachable_sim E O size n w s :
  (∀ m, Considerate (Rsp:=Rsp m) E w) → rtc (step_in E O) (started size n w) s → sim E O size w s.
Proof.
  intros HE Hrun. apply (rtc_invariant (step_in E O) (sim E O size w)
    ltac:(intros x y Hx Hxy; by eapply sim_step) _ _ Hrun). apply started_sim.
Qed.

Lemma rpc_run_any (s s' : rpc) : rtc step s s' → rtc (step_in (λ _ _, True) (λ _, True)) s s'.
Proof. apply (rtc_subrel step). intros s1 s2 (h & Hh). split; [by exists h|done]. Qed.

Lemma reachable_any size n w s : rtc step (started size n w) s → sim (λ _ _, True) (λ _, True) size w s.
Proof. intros Hrun. eapply reachable_sim, rpc_run_any, Hrun. intros m. apply considerate_any. Qed.

(** *** What the queue and the workers can hold *)

(** What an asio thread can be given. *)
Definition asio_task (a : act) : bool :=
  match a with Running _ | Coroutine => true | Registered | Event _ | Sending => false end.

Record closed_ok (n : nat) s : Prop := {
  c_workers : length (worker_threads_ (the_queues s)) = n;
  c_open : cq_down s = false → crashed s = false ∧ Exited ∉ worker_threads_ (the_queues s);
  c_exited : Exited ∈ worker_threads_ (the_queues s) → crashed s = true ∨ drained (the_queues s) = true;
  c_asio : ∀ x, x ∈ asio (the_queues s) → asio_task x.2 = true
}.

(** Filing touches no worker, and keeps a drained queue drained unless gRPC gets
    something new to do. *)
Lemma file_workers t new q : worker_threads_ (foldl (file t) q new) = worker_threads_ q.
Proof. revert q. induction new as [|a new IH]; intros q; [done|]. simpl. rewrite IH. by destruct a. Qed.

Lemma file_asio t new q :
  (∀ x, x ∈ asio q → asio_task x.2 = true) → ∀ x, x ∈ asio (foldl (file t) q new) → asio_task x.2 = true.
Proof.
  revert q. induction new as [|a new IH]; intros q Hq; [done|]. simpl. apply IH. intros x.
  destruct a; simpl; try apply Hq; rewrite elem_of_app, list_elem_of_singleton; intros [?| ->]; auto.
Qed.

Definition fresh_event (a : act) : bool := match a with Event _ => true | _ => false end.

Lemma drained_file t new q :
  existsb (forbidden true) new = false → existsb fresh_event new = false → drained (foldl (file t) q new) = drained q.
Proof.
  revert q. induction new as [|a new IH]; intros q; [done|]. simpl.
  intros [Hf Hfs]%orb_false_iff [He Hes]%orb_false_iff. rewrite IH by done. by destruct a.
Qed.

Lemma drained_worker i wk q : drained (with_workers (<[i := wk]> (worker_threads_ q)) q) = drained q.
Proof. done. Qed.

Lemma resume_spec t new wk new' :
  resume t new = (wk, new') → wk ≠ Exited ∧ (∀ f : act → bool, existsb f new = false → existsb f new' = false).
Proof.
  intros E. destruct new as [|a new]; [by injection E as <- <-|].
  unfold resume in E. destruct a; injection E as <- <-; (split; [done|]); intros f Hf; try done;
    by apply orb_false_iff in Hf as [_ Hf].
Qed.

Lemma exited_insert i wk q :
  wk ≠ Exited → Exited ∈ <[i := wk]> (worker_threads_ q) → Exited ∈ worker_threads_ q.
Proof.
  intros Hwk [k Hk]%list_elem_of_lookup. destruct (decide (i = k)) as [<-|Hne].
  - apply list_lookup_insert_Some in Hk as [(_ & -> & _)|(? & _)]; done.
  - rewrite list_lookup_insert_ne in Hk by done. by eapply list_elem_of_lookup_2.
Qed.

Lemma act_step_events is_down m (e : @env (Req m) (Rsp m) W) cd a e' cd' new :
  act_step is_down Go e cd a = Some (e', cd', new) → existsb fresh_event new = false.
Proof.
  intros Hs. destruct a as [|ok|[|o ops]| |]; try done; cbn [act_step] in Hs.
  - destruct (Proceed ok cd (world e)) as [[ops|?|] w']; [|done..]. injection Hs as <- <- <-. by destruct ops.
  - destruct (exec o e cd) as [[e1 cd1] acts] eqn:E. injection Hs as <- <- <-.
    rewrite existsb_app. destruct o; injection E as <- <- <-; by destruct ops.
  - destruct (RunLogic_goes (world e) cd) as [[[w' cd1] [o|]]|]; [by injection Hs as <- <- <-..|done].
Qed.

Lemma act_step_replies is_down m ch (e : @env (Req m) (Rsp m) W) cd a e' cd' new :
  act_step is_down ch e cd a = Some (e', cd', new) → sent e' = sent e ∨ existsb (forbidden true) new = true.
Proof.
  intros Hs. destruct a as [|ok|[|o ops]| |], ch as [md rq| |ok'|]; try done; cbn [act_step] in Hs.
  - destruct is_down; [done|]. injection Hs as <- <- <-. by left.
  - destruct is_down; [|done]. injection Hs as <- <- <-. by left.
  - destruct (Proceed ok cd (world e)) as [[ops|?|] w']; [|done..]. injection Hs as <- <- <-. by left.
  - destruct (exec o e cd) as [[e1 cd1] acts] eqn:E. injection Hs as <- <- <-.
    rewrite existsb_app. destruct o; injection E as <- <- <-; [by left..|right|by left]. by destruct ops.
  - destruct (RunLogic_goes (world e) cd) as [[[w' cd1] o]|]; [|done]. injection Hs as <- <- <-. by left.
  - injection Hs as <- <- <-. by left.
Qed.

Lemma drive_inv t a ch refile q s s' :
  drive t a ch refile q s = Some s' →
  ∃ cd e' cd' new, act_step (server_down s) ch (method_env s t.1) cd a = Some (e', cd', new)
    ∧ the_queues s' = refile new q ∧ cq_down s' = cq_down s
    ∧ crashed s' = crashed s || existsb (forbidden (cq_down s)) new
    ∧ ((∀ m, replies (mgr s' m) = replies (mgr s m)) ∨ existsb (forbidden true) new = true).
Proof.
  intros Hd. unfold drive in Hd. apply bind_Some in Hd as (cd & Hcd & Hd).
  apply bind_Some in Hd as ([[e' cd'] new] & Hstep & [= <-]). exists cd, e', cd', new. split_and!; try done.
  destruct (act_step_replies _ _ _ _ _ _ _ _ _ Hstep) as [Hsent|]; [left|by right].
  intros m. simpl. destruct (decide (t.1 = m)) as [<-|Hne]; [|by rewrite set_mgr_ne].
  by rewrite set_mgr_eq.
Qed.

(** What the two ways of going on have in common. *)
Record gentle (n : nat) (ex : Prop) (refile : list act → queues → queues) q : Prop := {
  g_len new : length (worker_threads_ (refile new q)) = n;
  g_exited new : Exited ∈ worker_threads_ (refile new q) → ex;
  g_drained new : existsb (forbidden true) new = false → existsb fresh_event new = false →
    drained (refile new q) = drained q;
  g_asio new x : x ∈ asio (refile new q) → asio_task x.2 = true
}.

Lemma gentle_asio n ex t q :
  (∀ x, x ∈ asio q → asio_task x.2 = true) → length (worker_threads_ q) = n → (Exited ∈ worker_threads_ q → ex : Prop) → gentle n ex (refile_asio t) q.
Proof.
  intros Ha Hn He. unfold refile_asio. split; intros new; rewrite ?file_workers; auto; [apply drained_file|].
  by apply file_asio.
Qed.

Lemma gentle_worker n ex i t q :
  (∀ x, x ∈ asio q → asio_task x.2 = true) → length (worker_threads_ q) = n → (Exited ∈ worker_threads_ q → ex : Prop) → gentle n ex (refile_worker i t) q.
Proof.
  intros Ha Hn He. unfold refile_worker. split; intros new; destruct (resume t new) as [wk new'] eqn:E;
    destruct (resume_spec _ _ _ _ E) as [Hwk Hf].
  - rewrite file_workers. simpl. by rewrite length_insert.
  - rewrite file_workers. simpl. intros Hin. by apply He, (exited_insert i wk).
  - intros H1' H2'. rewrite drained_file by auto. done.
  - by apply file_asio.
Qed.

Lemma forbidden_closed new : existsb (forbidden true) new = false → ∀ b, existsb (forbidden b) new = false.
Proof. intros Hn [|]; [done|]. clear Hn. by induction new. Qed.

Lemma forbidden_open new : existsb (forbidden false) new = false.
Proof. by induction new. Qed.

(** A step of a tag keeps the discipline; when a worker has left, it must be one
    that cannot bring an event. *)
Lemma drive_closed n t a ch refile q s s' :
  closed_ok n s → crashed s = false → drive t a ch refile q s = Some s' →
  gentle n (Exited ∈ worker_threads_ (the_queues s)) refile q →
  (drained (the_queues s) = true → drained q = true ∧ ch = Go) → closed_ok n s'.
Proof.
  intros [Hlen Hopen Hex Has] Hcr Hd [Gl Ge Gd Ga] Hdr.
  destruct (drive_inv _ _ _ _ _ _ _ Hd) as (cd & e' & cd' & new & Hstep & Hq & Hcq & Hc & _).
  rewrite Hcr in Hc. simpl in Hc. split; rewrite ?Hq, ?Hcq, ?Hc.
  - apply Gl.
  - intros Hclosed. destruct (Hopen Hclosed) as [_ Hno]. rewrite Hclosed. split; [apply forbidden_open|].
    by intros Hin%Ge.
  - intros Hin%Ge. destruct (Hex Hin) as [|Hdrained]; [congruence|].
    destruct (cq_down s) eqn:Hcd; [|by destruct (Hopen eq_refl)].
    destruct (existsb (forbidden true) new) eqn:Ef; [by left|]. right.
    destruct (Hdr Hdrained) as [Hdq ->]. rewrite Gd; [done|done|]. by eapply act_step_events.
  - apply Ga.
Qed.

Lemma drained_cases q : drained q = true → requested q = [] ∧ cq_ q = [] ∧ sending q = [].
Proof. unfold drained. by destruct (requested q), (cq_ q), (sending q). Qed.

Lemma closed_step n s s' : closed_ok n s → step s s' → closed_ok n s'.
Proof.
  intros Hok (h & Hs). unfold happen in Hs. destruct (crashed s) eqn:Hcr; [done|]. pose proof Hok as [Hlen Hopen Hex Has].
  assert (∀ q, worker_threads_ q = worker_threads_ (the_queues s) → length (worker_threads_ q) = n
    ∧ (Exited ∈ worker_threads_ q → Exited ∈ worker_threads_ (the_queues s))) as Hsame.
  { by intros q ->. }
  destruct h as [m i md rq|t|i t ok|i|k|t ok| | |i|w]; simpl in Hs.
  - apply bind_Some in Hs as (l & Hl & Hs). eapply drive_closed; [done|done|exact Hs|by apply gentle_asio; [apply Has|apply Hsame..]|].
    intros (Hr & _)%drained_cases. by rewrite Hr in Hl.
  - apply bind_Some in Hs as (l & Hl & Hs). eapply drive_closed; [done|done|exact Hs|by apply gentle_asio; [apply Has|apply Hsame..]|].
    intros (Hr & _)%drained_cases. by rewrite Hr in Hl.
  - destruct (worker_threads_ (the_queues s) !! i) as [[]|] eqn:Hi; try done.
    apply bind_Some in Hs as (l & Hl & Hs). eapply drive_closed; [done|done|exact Hs|by apply gentle_worker; [apply Has|apply Hsame..]|].
    intros (_ & Hr & _)%drained_cases. by rewrite Hr in Hl.
  - destruct (worker_threads_ (the_queues s) !! i) as [[|t ops|]|] eqn:Hi; try done.
    eapply drive_closed; [done|done|exact Hs| |done]. apply gentle_worker; simpl; [done|by rewrite length_insert|].
    intros Hin. by apply exited_insert in Hin.
  - destruct (asio (the_queues s) !! k) as [[t a]|] eqn:Hk; [|done].
    eapply drive_closed; [done|done|exact Hs| |done]. apply gentle_asio; [|by apply Hsame..].
    intros x Hx. apply Has. rewrite (delete_Permutation _ _ _ Hk). by apply list_elem_of_further.
  - apply bind_Some in Hs as (l & Hl & Hs). eapply drive_closed; [done|done|exact Hs|by apply gentle_asio; [apply Has|apply Hsame..]|].
    intros (_ & _ & Hr)%drained_cases. by rewrite Hr in Hl.
  - injection Hs as <-. rewrite Hcr in *. split; simpl; auto.
  - injection Hs as <-. rewrite Hcr in *. by split; simpl; auto.
  - destruct (worker_threads_ (the_queues s) !! i) as [[]|] eqn:Hi; try done.
    destruct (cq_down s) eqn:Hcd; [|done]. destruct (drained (the_queues s)) eqn:Hdr; [|done]. injection Hs as <-.
    split; simpl; [by rewrite length_insert|done| |done]. intros _. by right.
  - injection Hs as <-. rewrite Hcr in *. split; simpl; auto.
Qed.

Lemma started_closed size n w : closed_ok n (started size n w).
Proof.
  unfold started, StartListeningThread. rewrite SeedCallData_eq. split; simpl.
  - apply length_replicate.
  - intros _. split; [done|]. intros Hin. by apply elem_of_replicate in Hin as [? _].
  - intros Hin. by apply elem_of_replicate in Hin as [? _].
  - intros x Hx. by apply elem_of_nil in Hx.
Qed.

Lemma reachable_closed size n w s : rtc step (started size n w) s → closed_ok n s.
Proof.
  intros Hrun. apply (rtc_invariant step (closed_ok n)
    ltac:(intros x y Hx Hxy; by eapply closed_step) _ _ Hrun). apply started_closed.
Qed.

(** *** Going on until every tag is with gRPC *)

Definition quiet s s' : Prop := ∃ h, is_quiet h = true ∧ happen h s = Some s'.

(** The method's logic makes at most [limit] calls. *)
Context (limit : nat).

Definition item_weight s (x : tag * act) : nat :=
  match pool_ (mgr s x.1.1) !! x.1.2 with Some cd => act_weight limit cd x.2 | None => 0 end.
Definition weight s : nat := sum_list_with (item_weight s) (items (the_queues s)).

Lemma rpc_quiet_step s s' : quiet s s' → step s s'.
Proof. intros (h & _ & Hs). by exists h. Qed.

(** The phase of the CallData a tag stands for. *)
Lemma item_phase E O size w s t a :
  (∀ m, Considerate (Rsp:=Rsp m) E w) → sim E O size w s → (t, a) ∈ items (the_queues s) →
  ∃ cd owed, pool_ (mgr s t.1) !! t.2 = Some cd ∧ activities (the_queues s) t = [a]
    ∧ phase E O w (method_env s t.1) cd a owed ∧ E w (the_world s).
Proof.
  intros HE Hs Hin. destruct (s_tags _ _ _ _ _ Hs _ _ Hin) as [cd Hcd].
  pose proof (view_lookup _ _ _ _ Hcd) as Hv. destruct t as [m i]. simpl in *.
  destruct (view_single E O size w _ _ _ _ Hs Hcd) as (a' & Ha').
  assert (a ∈ activities (the_queues s) (m, i)) as Ha.
  { unfold activities, acts_of. apply list_elem_of_fmap. exists (m, i, a). split; [done|].
    by apply list_elem_of_filter. }
  rewrite Ha', list_elem_of_singleton in Ha. subst a'.
  destruct (rpc_reachable_inv E O w _ _ (s_view _ _ _ _ _ Hs m)) as (owed & (Hcells & _ & _ & Hw) & _).
  destruct (Forall2_lookup_l _ _ _ _ _ Hcells Hv) as (o & _ & a1 & Ha1 & Hph). simpl in Ha1, Hph.
  rewrite Ha' in Ha1. injection Ha1 as <-. by exists cd, o.
Qed.

(** What one step does to the calls accepted and to the world. *)
Lemma happen_world E O size w h s s' :
  (∀ m, Considerate (Rsp:=Rsp m) E w) → sim E O size w s → happen h s = Some s' →
  (∀ m, ∃ l, calls (mgr s' m) = (calls (mgr s m) ++ l)%list)
  ∧ (h = WorldChanges (the_world s') ∨ the_world s' = the_world s
     ∨ ∃ m, world_change (Req:=Req m) (Rsp:=Rsp m) O (calls (mgr s' m)) (the_world s) (the_world s')).
Proof.
  intros HE Hs Hh. assert (∀ (A : Type) (l : list A), ∃ l', l = (l ++ l')%list) as Hnil by (intros A l; exists []; by rewrite app_nil_r).
  destruct (happen_cases _ _ _ Hh) as [(t & a & ch & refile & q & Hm & _)|(_ & Hmgr & _ & Hd)].
  - assert ((t, a) ∈ items (the_queues s)) as Hin by (rewrite (m_before _ _ _ _ _ _ _ Hm); left).
    destruct (item_phase _ _ _ _ _ _ _ HE Hs Hin) as (cd & owed & Hcd & _ & Hph & _).
    destruct (moves_acts _ _ _ _ _ _ _ Hm) as (cd1 & e' & cd' & new & Hcd1 & Hstep & Hmgr & Hw & _).
    rewrite Hcd in Hcd1. injection Hcd1 as <-.
    destruct (act_step_world _ _ _ _ _ _ _ _ _ _ _ _ Hph Hstep) as [Hl Hc]. split.
    + intros m. rewrite Hmgr. destruct (decide (t.1 = m)) as [<-|Hne]; [by rewrite set_mgr_eq|by rewrite set_mgr_ne].
    + right. right. exists t.1. rewrite Hmgr, set_mgr_eq, Hw. exact Hc.
  - split; [intros m; by rewrite Hmgr|]. destruct Hd as [[_ [?|?]]|(_ & _ & ?)]; auto.
Qed.

Context (Hlogic : ∀ m uid (rq : Req m),
  bounded limit (RunSpecificLogic (Rsp:=Rsp m) uid rq) ∧ returns (RunSpecificLogic (Rsp:=Rsp m) uid rq)).

Lemma item_phase_any size w s t a :
  sim (λ _ _, True) (λ _, True) size w s → (t, a) ∈ items (the_queues s) →
  ∃ cd owed, pool_ (mgr s t.1) !! t.2 = Some cd ∧ activities (the_queues s) t = [a]
    ∧ phase (λ _ _, True) (λ _, True) w (method_env s t.1) cd a owed.
Proof.
  intros Hs Hin. destruct (item_phase _ _ _ _ _ _ _ (λ m, considerate_any w) Hs Hin) as (cd & owed & ? & ? & ? & _).
  by exists cd, owed.
Qed.

Lemma rpc_quiet_weight size w s s' :
  sim (λ _ _, True) (λ _, True) size w s → quiet s s' → (weight s' < weight s)%nat.
Proof.
  intros Hs (h & Hq & Hh). destruct (happen_cases _ _ _ Hh) as [(t & a & ch & refile & q & Hm & Hch)|(Hn & _)];
    [|congruence]. specialize (Hch Hq).
  assert ((t, a) ∈ items (the_queues s)) as Hin.
  { rewrite (m_before _ _ _ _ _ _ _ Hm). apply list_elem_of_here. }
  destruct (item_phase_any _ _ _ _ _ Hs Hin) as (cd & owed & Hcd & Hact & Hph).
  destruct (moves_acts _ _ _ _ _ _ _ Hm) as
    (cd1 & e' & cd' & new & Hcd1 & Hstep & Hmgr & _ & _ & Hp & _ & _ & Hitems).
  rewrite Hcd in Hcd1. injection Hcd1 as <-.
  destruct (act_step_phase (λ _ _, True) (λ _, True) w _ _ _ _ _ _ _ _ _ I I I Hph Hstep) as (a' & _ & -> & _).
  pose proof (act_step_weight limit (Hlogic t.1) _ _ _ _ _ _ _ _ _ _ _ _ Hph Hch Hstep) as Hlt.
  rewrite Hact in Hp. apply Permutation_singleton_l in Hp. injection Hp as Hrest.
  unfold weight. rewrite Hitems, (m_before _ _ _ _ _ _ _ Hm). simpl.
  assert (item_weight s' (t, a') = act_weight limit cd' a') as ->.
  { unfold item_weight. simpl. rewrite Hmgr, set_mgr_eq. simpl.
    by rewrite list_lookup_insert_eq by (by eapply lookup_lt_Some). }
  assert (item_weight s (t, a) = act_weight limit cd a) as -> by (unfold item_weight; simpl; by rewrite Hcd).
  enough (sum_list_with (item_weight s') (items q) = sum_list_with (item_weight s) (items q)) by lia.
  assert (∀ x, x ∈ items q → x.1 ≠ t) as Hnt.
  { intros [t' a1] Hx Heq. simpl in Heq. subst t'. symmetry in Hrest. assert (a1 ∈ acts_of (items q) t) as Hin'.
    { unfold acts_of. apply list_elem_of_fmap. exists (t, a1). split; [done|]. by apply list_elem_of_filter. }
    rewrite Hrest in Hin'. by apply elem_of_nil in Hin'. }
  clear -Hnt Hmgr. induction (items q) as [|x l IH]; [done|]. simpl. f_equal; [|apply IH; set_solver].
  destruct x as [[m i] a1]. unfold item_weight. simpl. rewrite Hmgr. destruct (decide (t.1 = m)) as [Hm|Hne].
  - destruct t as [m' j]. simpl in *. subst m'. rewrite set_mgr_eq. simpl. rewrite list_lookup_insert_ne; [done|].
    intros ->. by apply (Hnt (m, i, a1)); [apply list_elem_of_here|].
  - by rewrite set_mgr_ne.
Qed.

Context (Hverify : ∀ token (w : W), ∃ r w', VerifyToken token w = (Ret r, w')).

(** The activity of any tag but a registered one can step. *)
Lemma item_go size w s t a refile q :
  sim (λ _ _, True) (λ _, True) size w s → (t, a) ∈ items (the_queues s) →
  a = Registered ∨ (∃ s', drive t a Go refile q s = Some s') ∨ (a = Sending ∧ ∃ s', drive t a (Sent true) refile q s = Some s').
Proof.
  intros Hs Hin. destruct (item_phase_any _ _ _ _ _ Hs Hin) as (cd & owed & Hcd & _ & Hph).
  destruct (phase_progress limit (Hlogic t.1) Hverify _ _ _ _ _ _ _ (server_down s) Hph) as [|(ch & Hch & ([[e' cd'] new] & Hstep))];
    [by left|right].
  destruct a, ch as [?| |ok'|]; try done.
  all: try (left; unfold drive; rewrite Hcd; cbn [mbind option_bind]; rewrite Hstep; by eexists).
  all: try by destruct ops.
  right. split; [done|]. unfold drive. rewrite Hcd. simpl. by eexists.
Qed.

Lemma rpc_stuck_registered size n w s t a :
  (0 < n)%nat → rtc step (started size n w) s → cq_down s = false → (∀ s', ¬ quiet s s') →
  (t, a) ∈ items (the_queues s) → a = Registered.
Proof.
  intros Hn Hrun Hcq Hstuck Hin. pose proof (reachable_any _ _ _ _ Hrun) as Hs.
  destruct (reachable_closed _ _ _ _ Hrun) as [Hlen Hopen _ Has]. destruct (Hopen Hcq) as [Hcr Hex].
  assert (∀ h, is_quiet h = true → happen h s = None) as Hno.
  { intros h Hh. destruct (happen h s) as [s'|] eqn:E; [|done]. exfalso. apply (Hstuck s'). by exists h. }
  unfold happen in Hno. rewrite Hcr in Hno.
  assert (∀ i t ops, worker_threads_ (the_queues s) !! i = Some (InProceed t ops) → False) as Hidle.
  { intros i t' ops Hi. specialize (Hno (WorkerGoes i) eq_refl). simpl in Hno. rewrite Hi in Hno.
    assert ((t', Running ops) ∈ items (the_queues s)) as Hin'.
    { unfold items. rewrite !elem_of_app. do 2 right. left. apply list_elem_of_omap.
      exists (InProceed t' ops). split; [by eapply list_elem_of_lookup_2|done]. }
    destruct (item_go _ _ _ _ _ (refile_worker i t') (with_workers (<[i:=InNext]> (worker_threads_ (the_queues s))) (the_queues s))
      Hs Hin') as [|[(s' & E)|[? _]]]; [done|by rewrite E in Hno|done]. }
  pose proof Hin as Hloc. unfold items in Hloc. rewrite !elem_of_app in Hloc.
  destruct Hloc as [Hloc|[Hloc|[Hloc|[Hloc|Hloc]]]].
  - by apply list_elem_of_fmap in Hloc as (? & [= _ ->] & _).
  - apply list_elem_of_fmap in Hloc as ([t' ok] & [= -> ->] & Hloc). simpl in *.
    destruct (worker_threads_ (the_queues s)) as [|wk ws] eqn:Ews; [simpl in Hlen; lia|].
    assert (worker_threads_ (the_queues s) !! 0%nat = Some wk) as H0' by by rewrite Ews. rewrite <- Ews in *.
    destruct wk as [|t1 ops|]; [|by destruct (Hidle _ _ _ H0')|destruct Hex; by eapply list_elem_of_lookup_2].
    specialize (Hno (NextGives 0 t' ok) eq_refl). simpl in Hno. rewrite H0' in Hno.
    destruct (remove_one_elem _ _ Hloc) as (l & Hl). rewrite Hl in Hno. simpl in Hno.
    destruct (item_go _ _ _ _ _ (refile_worker 0 t') (with_cq l (the_queues s)) Hs Hin) as [|[(s' & E)|[? _]]];
      [done|by rewrite E in Hno|done].
  - apply list_elem_of_omap in Hloc as (wk & [i Hi]%list_elem_of_lookup & Hx).
    destruct wk as [|t1 ops|]; [done| |done]. by destruct (Hidle _ _ _ Hi).
  - apply list_elem_of_lookup in Hloc as [k Hk]. specialize (Hno (AsioGoes k) eq_refl). simpl in Hno. rewrite Hk in Hno.
    destruct (item_go _ _ _ _ _ (refile_asio t) (with_asio (delete k (asio (the_queues s))) (the_queues s)) Hs Hin)
      as [|[(s' & E)|[-> _]]]; [done|by rewrite E in Hno|].
    by specialize (Has _ (list_elem_of_lookup_2 _ _ _ Hk)).
  - apply list_elem_of_fmap in Hloc as (t' & [= -> ->] & Hloc).
    specialize (Hno (ReplySent t' true) eq_refl). simpl in Hno.
    destruct (remove_one_elem _ _ Hloc) as (l & Hl). rewrite Hl in Hno. simpl in Hno.
    destruct (item_go _ _ _ _ _ (refile_asio t') (with_sending l (the_queues s)) Hs Hin) as [|[(s' & E)|[_ (s' & E)]]];
      [done| |by rewrite E in Hno].
    unfold drive in E. apply bind_Some in E as (cd & _ & E). done.
Qed.

Lemma quiet_closed s s' : quiet s s' → cq_down s' = cq_down s.
Proof.
  intros (h & Hq & Hh). unfold happen in Hh. destruct (crashed s); [done|].
  destruct h; try done; simpl in Hh.
  - destruct (worker_threads_ _ !! i) as [[]|]; try done. apply bind_Some in Hh as (l & _ & Hd).
    by apply drive_inv in Hd as (? & ? & ? & ? & _ & _ & ? & _).
  - destruct (worker_threads_ _ !! i) as [[]|]; try done.
    by apply drive_inv in Hh as (? & ? & ? & ? & _ & _ & ? & _).
  - destruct (asio _ !! k) as [[]|]; try done. by apply drive_inv in Hh as (? & ? & ? & ? & _ & _ & ? & _).
  - apply bind_Some in Hh as (l & _ & Hd). by apply drive_inv in Hd as (? & ? & ? & ? & _ & _ & ? & _).
Qed.

Lemma rpc_quiet_bounded size n w s k s' :
  rtc step (started size n w) s → nsteps quiet k s s' → (k + weight s' ≤ weight s)%nat.
Proof.
  intros Hrun Hk. revert Hrun. induction Hk as [s|k s s1 s2 Hw _ IH]; intros Hrun; [lia|].
  pose proof (rpc_quiet_weight _ _ _ _ (reachable_any _ _ _ _ Hrun) Hw).
  assert (rtc step (started size n w) s1) as Hrun1 by (eapply rtc_r; [exact Hrun|by apply rpc_quiet_step]).
  pose proof (IH Hrun1). lia.
Qed.

Lemma activities_items q t a : activities q t = [a] → (t, a) ∈ items q.
Proof.
  intros Ha. assert (a ∈ activities q t) as Hin by (rewrite Ha; apply list_elem_of_here).
  unfold activities, acts_of in Hin. apply list_elem_of_fmap in Hin as ([t' a'] & -> & [Heq Hin]%list_elem_of_filter).
  simpl in *. by subst.
Qed.

Lemma view_inv_any size w s (m : Method) :
  sim (λ _ _, True) (λ _, True) size w s →
  ∃ owed, rpc_inv (λ _ _, True) (λ _, True) w (view s m) owed ∧ length (cells (view s m)) = size m.
Proof.
  intros Hs. apply (rpc_reachable_inv (λ _ _, True) (λ _, True) w _ _ (s_view _ _ _ _ _ Hs m)).
Qed.

Lemma view_single_any size w s m i cd :
  sim (λ _ _, True) (λ _, True) size w s → pool_ (mgr s m) !! i = Some cd → ∃ a, activities (the_queues s) (m, i) = [a].
Proof. apply (view_single _ _ _ _ (HE:=λ m, considerate_any w)). Qed.

(** Without an item that is not registered, every worker waits in Next. *)
Lemma no_item_idle s wk :
  (∀ t a, (t, a) ∈ items (the_queues s) → a = Registered) → wk ∈ worker_threads_ (the_queues s) →
  wk = InNext ∨ wk = Exited.
Proof.
  intros Hreg Hwk. destruct wk as [|t ops|]; [by left| |by right]. exfalso.
  assert ((t, Running ops) ∈ items (the_queues s)) as Hin; [|by specialize (Hreg _ _ Hin)].
  unfold items. rewrite !elem_of_app. do 2 right. left. apply list_elem_of_omap. by exists (InProceed t ops).
Qed.
End server.
Arguments mkManager {Method Req Rsp W m}.
Arguments pool_ {Method Req Rsp W m}.
Arguments calls {Method Req Rsp W m}.
Arguments replies {Method Req Rsp W m}.

(** Pairs whose activities are one per tag have different tags. *)
Lemma NoDup_items {Method : Set} `{EqDecision Method} (l : list (tag Method * act)) :
  (∀ t a, (t, a) ∈ l → ∃ a', acts_of l t = [a']) → NoDup l.*1.
Proof.
  induction l as [|[t a] l IH]; intros Hl; [constructor|].
  assert (acts_of l t = []) as Hnone.
  { destruct (Hl t a) as (a' & Ha'); [apply list_elem_of_here|]. unfold acts_of in *.
    rewrite filter_cons_True in Ha' by done. by injection Ha'. }
  assert (∀ a', (t, a') ∉ l) as Hnt.
  { intros a' Hin. assert (a' ∈ acts_of l t) as Hin'; [|rewrite Hnone in Hin'; by apply elem_of_nil in Hin'].
    unfold acts_of. apply list_elem_of_fmap. exists (t, a'). split; [done|]. by apply list_elem_of_filter. }
  rewrite fmap_cons. constructor.
  - intros ([t' a'] & Heq & Hin)%list_elem_of_fmap. simpl in Heq. subst t'. by apply (Hnt a').
  - apply IH. intros t' a' Hin. destruct (Hl t' a') as (a1 & Ha1); [by apply list_elem_of_further|].
    exists a1. unfold acts_of in *. rewrite filter_cons_False in Ha1; [done|].
    intros Heq. simpl in Heq. subst t'. by apply (Hnt a').
Qed.

(** ** Properties *)
Section properties.
Context {Method : Set} `{Finite Method} {Req Rsp : Method → Type} {W : Type}
  `{IJwtUtil W} `{∀ m, SpecificCallData (Req m) (Rsp m) W}.
Implicit Types (s : @rpc Method Req Rsp W) (size : Method → nat) (threads : nat) (w : W).

(** C7: the whole server refines its managers.  However the worker threads, the
    asio threads with the methods' coroutines on them, gRPC and the shutdown
    interleave over the shared queue, what happens to one method's CallData, calls
    and replies is a run of that method's CallDataManager alone, in which
    everything else that goes on only changes the world, and only as [E] allows,
    when every method keeps to [E] itself and the rest of the process does. *)
Theorem rpc_refines_managers (E : W → W → Prop) (O : W → Prop) size threads w s
    (HE : ∀ m, Considerate (Rsp:=Rsp m) E w) (Hrun : rtc (step_in E O) (started size threads w) s) (m : Method) :
  rtc (CallData.step_in E O) (CallData.started (size m) w) (view s m).
Proof. by apply (s_view _ _ _ _ _ (reachable_sim _ _ _ _ _ _ HE Hrun)). Qed.

(** C10: the cast of a tag is sound, and no two threads ever handle one CallData.
    In every reachable state every tag (with gRPC, in the queue, with a worker,
    with a coroutine, or with a reply under way) is the address of a CallData in
    the pool of its own method's manager, every CallData has its tag in exactly
    one of these places, and the pools keep the sizes they were seeded with. *)
Theorem rpc_tags_sound size threads w s (Hrun : rtc step (started size threads w) s) :
  NoDup ((items (the_queues s)).*1)
  ∧ (∀ t : tag Method, t ∈ (items (the_queues s)).*1 ↔ is_Some (pool_ (mgr s t.1) !! t.2))
  ∧ ∀ m, length (pool_ (mgr s m)) = size m.
Proof.
  pose proof (reachable_any _ _ _ _ Hrun) as Hs. split_and!.
  - apply (NoDup_items (items (the_queues s))). intros t a Ht.
    destruct (item_phase_any _ _ _ _ _ Hs Ht) as (cd & owed & _ & Ha & _). by exists a.
  - intros t. split.
    + intros ([t' a] & Heq & Ht)%list_elem_of_fmap. simpl in Heq. subst t'. by apply (s_tags _ _ _ _ _ Hs t a).
    + intros [cd Hcd]. destruct t as [m i]. simpl in Hcd. destruct (view_single_any _ _ _ _ _ _ Hs Hcd) as (a & Ha).
      apply list_elem_of_fmap. exists (m, i, a). split; [done|]. by apply activities_items.
  - intros m. destruct (view_inv_any _ _ _ m Hs) as (owed & _ & Hlen).
    rewrite <- Hlen. unfold view. simpl. by rewrite length_imap.
Qed.

(** The server always settles, with any positive number of worker threads: if
    verifying a token always finishes and every method's logic makes at most
    [limit] calls, which all return or throw, then from any reachable state whose
    queue was not shut down, as long as no new call comes in, at most [weight]
    steps can be taken, and when none is left every worker waits in Next, every
    CallData of every method is as new and registered for the next call, and every
    call accepted was answered. *)
Theorem rpc_settles (limit : nat) size threads w s
    (Hverify : ∀ token (w : W), ∃ r w', VerifyToken token w = (Ret r, w'))
    (Hlogic : ∀ m uid (rq : Req m),
      bounded limit (RunSpecificLogic (Rsp:=Rsp m) uid rq) ∧ returns (RunSpecificLogic (Rsp:=Rsp m) uid rq))
    (Hthreads : (0 < threads)%nat) (Hrun : rtc step (started size threads w) s) (Hopen : cq_down s = false) :
  (∀ k s', nsteps quiet k s s' → (k ≤ weight limit s)%nat)
  ∧ ∀ s', rtc quiet s s' → (∀ s'', ¬ quiet s' s'') →
      worker_threads_ (the_queues s') = replicate threads InNext
      ∧ ∀ m, pool_ (mgr s' m) = replicate (size m) CallData_make
          ∧ ∀ c, (c < length (calls (mgr s' m)))%nat → Some c ∈ re_call <$> replies (mgr s' m).
Proof.
  split; [intros k s' Hk; pose proof (rpc_quiet_bounded limit Hlogic _ _ _ _ _ _ Hrun Hk); lia|]. intros s' Hq Hstuck.
  assert (rtc step (started size threads w) s') as Hrun' by (trans s; [done|]; by apply (rtc_subrel quiet); [apply rpc_quiet_step|]).
  assert (cq_down s' = false) as Hopen'.
  { clear -Hq Hopen. induction Hq as [|s s1 s2 H12 _ IH]; [done|]. apply IH. by rewrite (quiet_closed _ _ H12). }
  pose proof (λ t a, rpc_stuck_registered limit Hlogic Hverify _ _ _ _ t a Hthreads Hrun' Hopen' Hstuck) as Hreg.
  pose proof (reachable_any _ _ _ _ Hrun') as Hs.
  destruct (reachable_closed _ _ _ _ Hrun') as [Hlen Hno _ _]. destruct (Hno Hopen') as [_ Hex]. split.
  - rewrite <- Hlen. symmetry. apply replicate_as_Forall_2; [done|]. apply Forall_forall. intros wk Hwk.
    destruct (no_item_idle _ _ Hreg Hwk) as [->| ->]; done.
  - intros m. destruct (view_inv_any _ _ _ m Hs) as (owed & Hinv & Hlen').
    destruct (rpc_settled _ _ _ _ _ Hinv) as [Hcells Hans]; [|split; [|exact Hans]].
    + intros i cd acts Hi. unfold view in Hi. simpl in Hi. rewrite list_lookup_imap in Hi.
      apply fmap_Some in Hi as (cd' & Hi & [= -> ->]).
      destruct (view_single_any _ _ _ _ _ _ Hs Hi) as (a & Ha). rewrite Ha.
      by rewrite (Hreg (m, i) a (activities_items _ _ _ Ha)).
    + rewrite Hlen' in Hcells. unfold view in Hcells. simpl in Hcells.
      assert (pool_ (mgr s' m) = fst <$> imap (λ i cd, (cd, activities (the_queues s') (m, i))) (pool_ (mgr s' m))) as ->.
      { rewrite fmap_imap. symmetry. apply list_eq. intros i. rewrite list_lookup_imap. by destruct (_ !! i). }
      by rewrite Hcells, fmap_replicate.
Qed.

Lemma crashed_final s s' : crashed s = true → rtc step s s' → s' = s.
Proof.
  intros Hc Hrun. destruct Hrun as [|s s1 s2 (h & Hh) _]; [done|]. unfold happen in Hh. by rewrite Hc in Hh.
Qed.

(** Once every worker has left, a reply is an operation on the closed queue. *)
Lemma replies_crash s s' :
  cq_down s = true → rtc step s s' → cq_down s' = true ∧ ((∀ m, replies (mgr s' m) = replies (mgr s m)) ∨ crashed s' = true).
Proof.
  intros Hcq Hss. revert Hcq. induction Hss as [s|s s1 s2 (h & Hh) Hrun IH]; intros Hcq; [by auto|].
  assert (cq_down s1 = true ∧ ((∀ m, replies (mgr s1 m) = replies (mgr s m)) ∨ crashed s1 = true)) as [Hcq1 H1'].
  { assert (∀ t a ch refile q, drive t a ch refile q s = Some s1 →
      cq_down s1 = true ∧ ((∀ m, replies (mgr s1 m) = replies (mgr s m)) ∨ crashed s1 = true)) as Hd.
    { intros t a ch refile q Hd. apply drive_inv in Hd as (cd & e' & cd' & new & _ & _ & Hc & Hcr & Hre).
      rewrite Hc, Hcr, Hcq. split; [done|]. destruct Hre as [Hre| ->]; [by left|]. right. by destruct (crashed s). }
    unfold happen in Hh. destruct (crashed s); [done|]. destruct h; simpl in Hh.
    - apply bind_Some in Hh as (l & _ & Hh). by eapply Hd.
    - apply bind_Some in Hh as (l & _ & Hh). by eapply Hd.
    - destruct (worker_threads_ _ !! i) as [[]|]; try done. apply bind_Some in Hh as (l & _ & Hh). by eapply Hd.
    - destruct (worker_threads_ _ !! i) as [[]|]; try done. by eapply Hd.
    - destruct (asio _ !! k) as [[]|]; try done. by eapply Hd.
    - apply bind_Some in Hh as (l & _ & Hh). by eapply Hd.
    - injection Hh as <-. by auto.
    - injection Hh as <-. by auto.
    - destruct (worker_threads_ _ !! i) as [[]|]; try done. destruct (_ && _); [|done]. injection Hh as <-. by auto.
    - injection Hh as <-. by auto. }
  destruct (IH Hcq1) as [Hcq2 H2']. split; [done|]. destruct H1' as [H1'|Hc].
  - destruct H2' as [H2'|]; [left|by right]. intros m. by rewrite H2', H1'.
  - right. by rewrite (crashed_final _ _ Hc Hrun).
Qed.

(** C20: a server with CallData never shuts down cleanly, because Proceed
    registers a CallData again whenever its tag comes back: in any reachable
    state in which every worker has left HandleRpc (so that Shutdown's joins
    return), either gRPC was already given an operation for the closed queue,
    which it forbids, or the tag of every CallData is in the hands of an asio
    thread and the next reply any of them sends is such an operation. *)
Theorem no_clean_shutdown size threads w s
    (Hthreads : (0 < threads)%nat) (Hrun : rtc step (started size threads w) s)
    (Hexited : ∀ wk, wk ∈ worker_threads_ (the_queues s) → wk = Exited) :
  crashed s = true
  ∨ (∀ m i, (i < size m)%nat → ∃ a, (m, i, a) ∈ asio (the_queues s))
    ∧ ∀ s', rtc step s s' → (∃ m, replies (mgr s' m) ≠ replies (mgr s m)) → crashed s' = true.
Proof.
  destruct (reachable_closed _ _ _ _ Hrun) as [Hlen Hopen Hex _].
  assert (Exited ∈ worker_threads_ (the_queues s)) as Hin.
  { destruct (worker_threads_ (the_queues s)) as [|wk ws]; [simpl in Hlen; lia|].
    rewrite <- (Hexited wk) at 1; apply list_elem_of_here. }
  destruct (Hex Hin) as [|(Hr & Hc & Hse)%drained_cases]; [by left|right].
  assert (cq_down s = true) as Hcq by (destruct (cq_down s) eqn:E; [done|by destruct (Hopen eq_refl)]). split.
  - intros m i Hi. pose proof (reachable_any _ _ _ _ Hrun) as Hs.
    destruct (view_inv_any _ _ _ m Hs) as (owed & _ & Hlen').
    unfold view in Hlen'. simpl in Hlen'. rewrite length_imap in Hlen'.
    destruct (lookup_lt_is_Some_2 (pool_ (mgr s m)) i ltac:(lia)) as [cd Hcd].
    destruct (view_single_any _ _ _ _ _ _ Hs Hcd) as (a & Ha). exists a.
    pose proof (activities_items _ _ _ Ha) as Hit.
    unfold items in Hit. rewrite Hr, Hc, Hse in Hit. simpl in Hit. rewrite app_nil_r in Hit.
    apply elem_of_app in Hit as [Hit|Hit]; [|done]. apply list_elem_of_omap in Hit as (wk & Hwk & Hx).
    by rewrite (Hexited wk Hwk) in Hx.
  - intros s' Hs' (m & Hm). destruct (replies_crash _ _ Hcq Hs') as [_ [Hsame|]]; [by rewrite Hsame in Hm|done].
Qed.
End properties.

(** ** Witnesses

    Two methods on one queue, with a CallData each and two workers: [true] asks
    for a token, [false] does not. *)
Section witnesses.
#[local] Open Scope nat_scope.
#[local] Open Scope string_scope.

Definition echo_method (auth : bool) : SpecificCallData string string nat := {|
  RequestType_new := "";
  ResponseType_new := "";
  kRequiresAuth := auth;
  RunSpecificLogic uid rq := Programs.call (fun '(w, _) => (Ret (), (S w, uid ++ ":" ++ rq)))
|}.
#[local] Existing Instance toy_tokens.
#[local] Instance echo_methods (m : bool) : SpecificCallData ((λ _, string) m) ((λ _, string) m) nat := echo_method m.

Abbreviation two_rpc := (@rpc bool (λ _, string) (λ _, string) nat).
Abbreviation two_happening := (@happening bool (λ _, string) nat).
Definition two_start : two_rpc := started (λ _, 1) 2 0.

Definition both_called : list two_happening :=
  [CallArrives true 0 [("authorization", "Bearer good")] "hello"; CallArrives false 0 [] "hi";
   NextGives 0 (false, 0) true; NextGives 1 (true, 0) true; WorkerGoes 0; WorkerGoes 1; WorkerGoes 0; WorkerGoes 1].
Definition one_answered : list two_happening := (both_called ++ [AsioGoes 1; WorldChanges 5; AsioGoes 1; AsioGoes 1])%list.
Definition all_exited : list two_happening :=
  (both_called ++ [ServerShutdown; QueueShutdown; WorkerExits 0; WorkerExits 1])%list.

Definition two_after (hs : list two_happening) : two_rpc := default two_start (happen_all hs two_start).

Example two_answered :
  the_queues (two_after one_answered)
  = mkQueues [] [] [InNext; InNext] [(false, 0, Coroutine)] [(true, 0)]
  ∧ replies (mgr (two_after one_answered) true) = [mkSent (Some 0) ResponderReady Status_OK "u1:hello"]
  ∧ replies (mgr (two_after one_answered) false) = [].
Proof. split_and!; vm_compute; reflexivity. Qed.

Lemma rpc_happen_all_rtc (hs : list two_happening) (s s' : two_rpc) : happen_all hs s = Some s' → rtc step s s'.
Proof.
  revert s. induction hs as [|h hs IH]; intros s; simpl; [by intros [= ->]|].
  intros (s1 & Hs1 & Hs')%bind_Some. eapply rtc_l; [by exists h|by apply IH].
Qed.

Lemma two_reachable hs : happen_all hs two_start = Some (two_after hs) → rtc step two_start (two_after hs).
Proof. apply rpc_happen_all_rtc. Qed.

Lemma one_answered_reachable : rtc step two_start (two_after one_answered).
Proof. apply two_reachable. vm_compute. reflexivity. Qed.

#[local] Instance echo_true : SpecificCallData string string nat := echo_methods true.
Lemma rpc_refines_managers_witness :
  rtc (CallData.step_in (λ _ _, True) (λ _, True)) (CallData.started 1 0) (view (two_after one_answered) true).
Proof.
  apply (rpc_refines_managers (λ _ _, True) (λ _, True) (λ _, 1) 2 0 (two_after one_answered)
           (λ m, considerate_any 0) (rpc_run_any _ _ one_answered_reachable)).
Defined.

Lemma rpc_tags_sound_witness :
  NoDup ((items (the_queues (two_after one_answered))).*1)
  ∧ (∀ t : tag bool, t ∈ (items (the_queues (two_after one_answered))).*1
      ↔ is_Some (pool_ (mgr (two_after one_answered) t.1) !! t.2))
  ∧ ∀ m, length (pool_ (mgr (two_after one_answered) m)) = 1.
Proof. apply (rpc_tags_sound (λ _, 1) 2 0 (two_after one_answered) one_answered_reachable). Defined.

Lemma rpc_settles_witness :
  (∀ k s', nsteps quiet k (two_after one_answered) s' → (k ≤ weight 1 (two_after one_answered))%nat)
  ∧ ∀ s', rtc quiet (two_after one_answered) s' → (∀ s'', ¬ quiet s' s'') →
      worker_threads_ (the_queues s') = replicate 2 InNext
      ∧ ∀ m, pool_ (mgr s' m) = replicate 1 (@CallData_make string string nat (echo_methods m))
          ∧ ∀ c, (c < length (calls (mgr s' m)))%nat → Some c ∈ re_call <$> replies (mgr s' m).
Proof.
  apply (rpc_settles 1 (λ _, 1) 2 0 (two_after one_answered)).
  - intros token w. by eexists _, _.
  - intros m uid rq. by split; [apply bounded_call|intros [w rp]].
  - lia.
  - exact one_answered_reachable.
  - reflexivity.
Defined.

Lemma no_clean_shutdown_witness :
  crashed (two_after all_exited) = true
  ∨ (∀ m i, (i < 1)%nat → ∃ a, (m, i, a) ∈ asio (the_queues (two_after all_exited)))
    ∧ ∀ s', rtc step (two_after all_exited) s' →
        (∃ m, replies (mgr s' m) ≠ replies (mgr (two_after all_exited) m)) → crashed s' = true.
Proof.
  apply (no_clean_shutdown (λ _, 1) 2 0 (two_after all_exited)).
  - lia.
  - apply two_reachable. vm_compute. reflexivity.
  - intros wk Hwk. assert (worker_threads_ (the_queues (two_after all_exited)) = [Exited; Exited]) as E
      by (vm_compute; reflexivity).
    rewrite E, !elem_of_cons, elem_of_nil in Hwk. by destruct Hwk as [?|[?|[]]].
Defined.
End witnesses.
