(* ===== verification/DaoStore.v ===== *)
(** * DaoStore: UserDao is a store of users

    With the users table behind libpq, UserDao satisfies the contract of
    Interfaces.v that UserRepository and the services rely on. *)

From stdpp Require Import base tactics option strings numbers relations gmap list.
From S2P Require Import Prelude Text Model User Timestamp LibPQ PgServer PqConnection.
From S2P Require Import Channel ConnectionPool UsersTable UserDao Interfaces.

Open Scope Z_scope.
Open Scope photon_scope.

(** ** The accounts of a table *)
Section table.
Context `{!PgTypes} `{!PgTypesLaws}.
Implicit Types (rows : list users_row) (u : User).

Definition table_account rows (id : string) : option User :=
  k ← uuid_in (c_str id); user_of_row <$> find_live (λ r, bool_decide (row_id r = k)) rows.
Definition table_account_by_phone rows (phone : string) : option User :=
  user_of_row <$> find_live (λ r, bool_decide (row_phone_number r = c_str phone)) rows.

Lemma find_live_app sel rows r r' :
  find_live sel rows = Some r → find_live sel (rows ++ [r'])%list = Some r.
Proof. unfold find_live. rewrite filter_app. by destruct (filter _ rows). Qed.

Lemma user_of_row_wf r : in_s 16 (row_status r) → user_wf (user_of_row r).
Proof. intros Hr. split; [done|]. apply ParsePostgresTimestamp_range. Qed.

Lemma find_live_wf sel rows u : table_wf rows → user_of_row <$> find_live sel rows = Some u →
  user_wf u ∧ deleted_at_ u = None.
Proof.
  intros Hwf%table_wf_status. destruct (find_live sel rows) as [r|] eqn:E; [|done]. intros [= <-].
  apply find_live_in in E as (Hin & _). rewrite Forall_forall in Hwf. split; [by apply user_of_row_wf, Hwf|done].
Qed.

Lemma table_account_wf rows id u : table_wf rows → table_account rows id = Some u → user_wf u ∧ deleted_at_ u = None.
Proof. unfold table_account. intros Hwf. destruct (uuid_in (c_str id)); [|done]. by apply find_live_wf. Qed.

(** An insert loses no account. *)
Lemma inserted_keeps rows r :
  (∀ k v, table_account rows k = Some v → table_account (rows ++ [r])%list k = Some v)
  ∧ ∀ k v, table_account_by_phone rows k = Some v → table_account_by_phone (rows ++ [r])%list k = Some v.
Proof.
  assert (∀ sel v, user_of_row <$> find_live sel rows = Some v → user_of_row <$> find_live sel (rows ++ [r])%list = Some v) as Hkeep.
  { intros sel v. destruct (find_live sel rows) as [r1|] eqn:E; [|done]. by rewrite (find_live_app _ _ _ _ E). }
  split; intros k v; [unfold table_account|apply Hkeep].
  destruct (uuid_in (c_str k)); [apply Hkeep|done].
Qed.

Lemma fits_c_str u : fits u → c_str (id_ u) = id_ u ∧ c_str (phone_number_ u) = phone_number_ u ∧ uuid_in (id_ u) = Some (id_ u).
Proof.
  intros (Hid & _ & Hall). rewrite !Forall_cons in Hall. destruct Hall as ([_ Hn] & _).
  split; [|split; [|done]]; apply c_str_nul_free; [by apply uuid_in_canonical in Hid as [_ ?]|done].
Qed.

(** The row of a user that fits is found, with what the user was made of. *)
Lemma inserted_found rows now u r :
  table_wf rows → fits u → insert_row now (c_str <$> CreateUser_params u) = Some r → r ∈ rows →
  ∃ v, table_account rows (id_ u) = Some v ∧ table_account_by_phone rows (phone_number_ u) = Some v ∧ same_account u v.
Proof.
  intros (Hnd1 & Hnd2 & _) Hfits Er Hin. destruct (fits_c_str u Hfits) as (Ci & Cp & Hid).
  destruct (fits_insert_row now u Hfits) as (r' & Er' & Rid & Rph & Rdel & Ruser). rewrite Er in Er'. injection Er' as <-.
  exists (user_of_row r). unfold table_account, table_account_by_phone. rewrite Ci, Cp, Hid. simpl. rewrite <- Rid, <- Rph.
  rewrite (find_live_hit row_id _ r), (find_live_hit row_phone_number _ r) by done. split; [done|]. split; [done|].
  rewrite Ruser. by split_and!.
Qed.

(** The unique constraints refuse a taken id or number. *)
Lemma inserted_fresh rows now u r :
  fits u → insert_row now (c_str <$> CreateUser_params u) = Some r → existsb (conflicts r) rows = false →
  table_account rows (id_ u) = None ∧ table_account_by_phone rows (phone_number_ u) = None.
Proof.
  intros Hfits Er Hc. destruct (fits_c_str u Hfits) as (Ci & Cp & Hid).
  destruct (fits_insert_row now u Hfits) as (r' & Er' & Rid & Rph & _). rewrite Er in Er'. injection Er' as <-.
  unfold table_account, table_account_by_phone. rewrite Ci, Cp, Hid. simpl.
  split; destruct (find_live _ rows) as [r1|] eqn:E1; try done;
    apply find_live_in in E1 as (Hin & Hsel%bool_decide_eq_true_1 & _);
    destruct (conflicts_false _ _ (existsb_false _ _ _ Hc Hin)); congruence.
Qed.
End table.

Section store.
Context `{UsersServer} `{!PgTypesLaws} `{!ChannelOps PQConnection} `{!ChannelLaws PQConnection}
  (fuel cid : nat) (conns : list PQConnection).
Implicit Types w : db_world.

(** Coroutine [cid]'s view of the DAO. *)
Definition dao_store : IUserRepository db_world := {|
  CreateUser := UserDao.CreateUser fuel cid;
  GetUserById := UserDao.GetUserById fuel cid;
  GetUserByPhoneNumber := UserDao.GetUserByPhoneNumber fuel cid
|}.

Definition dao_account w (id : string) : option User := table_account (rows_of w) id.
Definition dao_account_by_phone w (phone : string) : option User := table_account_by_phone (rows_of w) phone.

Lemma query_mono {A} sql ps (k : expected (option PGresult) DbError → M db_world A) :
  fuel_mono (λ n, with_connection cid (fun conn => let* r := exec_on n conn sql ps in k r)).
Proof.
  unfold with_connection. apply fuel_mono_bind; [apply fuel_mono_const|intros x].
  apply fuel_mono_finally, fuel_mono_bind; [|intros r; apply fuel_mono_const].
  apply fuel_mono_zoom, AsyncExecParams_mono.
Qed.

(** A finished run is the run with enough fuel. *)
Lemma with_enough {A} (m : nat → M db_world A) w o w' (P : outcome A → db_world → Prop) :
  fuel_mono m → (∃ enough, ∀ n, (enough ≤ n)%nat → ∃ o w', m n w = (o, w') ∧ P o w') →
  m fuel w = (o, w') → o ≠ Pending → P o w'.
Proof.
  intros Hm [enough Hn] E Ho. destruct (Hn (fuel + enough)%nat) as (o1 & w1 & E1 & HP); [lia|].
  rewrite (Hm fuel (fuel + enough)%nat w o w') in E1 by (done || lia). by injection E1 as -> ->.
Qed.

#[refine] Definition dao_store_laws : @UserStoreLaws db_world dao_store := {|
  store_ok w := pool_ready conns cid w ∧ table_wf (rows_of w);
  account := dao_account;
  account_by_phone := dao_account_by_phone;
  storable := fits
|}.
Proof.
  - intros w id u [_ Hwf] Hu. by eapply table_account_wf.
  - intros id w o w' [Hready Hwf] E Ho.
    destruct (with_enough _ _ _ _ (λ o w', pool_ready conns cid w' ∧ rows_of w' = rows_of w
      ∧ (by_id_answer id (rows_of w) o ∨ runtime o)) (query_mono _ _ _)
      (GetUserById_answer conns cid id w Hready Hwf) E Ho) as (Hp & Hrows & Ha).
    unfold dao_account, dao_account_by_phone. rewrite Hrows. split_and!; [done..|].
    intros r ->. destruct Ha as [Ha|(e & ? & _)]; [|done]. unfold by_id_answer in Ha. unfold table_account.
    destruct (uuid_in (c_str id)) as [k|]; [|by destruct Ha as (? & ? & _)].
    injection Ha as ->. split; [done|]. intros u Hu. by eapply find_live_wf.
  - intros phone w o w' [Hready Hwf] E Ho.
    destruct (with_enough _ _ _ _ (λ o w', pool_ready conns cid w' ∧ rows_of w' = rows_of w
      ∧ (o = Ret (Val (dao_account_by_phone w phone)) ∨ runtime o)) (query_mono _ _ _)
      (GetUserByPhoneNumber_answer conns cid phone w Hready Hwf) E Ho) as (Hp & Hrows & Ha).
    unfold dao_account, dao_account_by_phone in *. rewrite Hrows. split_and!; [done..|].
    intros r ->. destruct Ha as [[= ->]|(e & ? & _)]; [|done]. split; [done|]. intros u Hu. by eapply find_live_wf.
  - intros u w o w' [Hready Hwf] [Hs _] E Ho.
    destruct (with_enough _ _ _ _ _ (query_mono _ _ _)
      (CreateUser_outcome conns cid w u Hready Hs Hwf) E Ho) as (Hp & Hwf' & Ha).
    assert (rows_of w' = rows_of w ∨ ∃ r, rows_of w' = (rows_of w ++ [r])%list) as Hrows.
    { destruct (new_row u w) as [r|]; [destruct (existsb _ _)|].
      - destruct Ha as [[_ ->]|[_ ->]]; by left.
      - destruct Ha as [[_ ->]|[_ [->| ->]]]; eauto.
      - destruct Ha as [[_ ->]|[_ ->]]; by left. }
    unfold dao_account, dao_account_by_phone. split; [done|]. split; [|split].
    1, 2: intros k v Hk; destruct Hrows as [->|[r' ->]]; [done|by apply inserted_keeps].
    intros -> Hfits. destruct (fits_new_row u w Hfits) as (r & Er & _).
    rewrite Er in Ha. eapply inserted_found; [done..|].
    destruct (existsb _ _).
    + destruct Ha as [[(e & ? & _) _]|[(e & ? & _) _]]; discriminate.
    + destruct Ha as [[_ ->]|[(e & ? & _) _]]; [|discriminate].
      apply elem_of_app. right. apply list_elem_of_here.
  - intros u w w' [Hready Hwf] [Hs _] E Hfits.
    destruct (with_enough _ _ _ _ _ (query_mono _ _ _)
      (CreateUser_outcome conns cid w u Hready Hs Hwf) E) as (_ & _ & Ha); [done|].
    destruct (fits_new_row u w Hfits) as (r & Er & _). rewrite Er in Ha.
    destruct (existsb _ _) eqn:Ec; [by destruct Ha as [[(e & ? & _) _]|[(e & ? & _) _]]|].
    by eapply inserted_fresh.
Defined.
End store.
