(* ===== verification/TableStore.v ===== *)
(** * TableStore: UserDao as the layers above may think of it

    A store of users whose calls take effect at once, one after the other, on
    the users table; the environment decides the time of each and whether its
    connection fails before the statement is sent or before the response is read.
    However the coroutines of Queries.v interleave, their answers and the table
    are those of such calls in some order, so a caller may take a call of UserDao
    for one step, as Coroutines.v does. *)

From stdpp Require Import base tactics option list strings numbers relations.
From S2P Require Import Prelude Text Model User Timestamp LibPQ PgServer PqConnection.
From S2P Require Import Channel ConnectionPool UsersTable UserDao Interfaces DaoStore Queries.

Open Scope string_scope.
Open Scope list_scope.
Open Scope photon_scope.

(** ** The store *)
Section store.
Context `{PgTypes}.

(** How a call goes: it is answered at that time, its effect is there but the
    response is lost, or the statement is never sent. *)
Inductive turn := Answers (now : string) | LosesAnswer (now : string) (e : exn) | Refuses (e : exn).

(** [turns] is how the calls to come will go. *)
Record table_world := mkTable { table : list users_row; turns : list turn }.

Definition table_call (c : dao_call) : M table_world dao_answer := fun w =>
  match turns w with
  | [] => (Pending, w)
  | Answers now :: ts => let '(a, rows) := spec_call c now (table w) in (Ret a, mkTable rows ts)
  | LosesAnswer now e :: ts => (Throw e, mkTable (spec_call c now (table w)).2 ts)
  | Refuses e :: ts => (Throw e, mkTable (table w) ts)
  end.

Definition created (a : dao_answer) : M table_world (expected () DbError) :=
  match a with Created r => retM r | Found _ => pendM end.
Definition found (a : dao_answer) : M table_world (expected (option User) DbError) :=
  match a with Found r => retM r | Created _ => pendM end.

#[export] Instance table_store : IUserRepository table_world := {|
  CreateUser user := let* a := table_call (CallCreateUser user) in created a;
  GetUserById id := let* a := table_call (CallGetUserById id) in found a;
  GetUserByPhoneNumber phone := let* a := table_call (CallGetUserByPhoneNumber phone) in found a
|}.
End store.

(** *** It keeps the contract of a store of users *)
Section laws.
Context `{!PgTypes} `{!PgTypesLaws}.
Implicit Types (w : table_world) (rows : list users_row).

(** A call is answered as the specification says, or throws. *)
Lemma table_call_inv {A} c (k : dao_answer → M table_world A) w o w' :
  (∀ a w, (k a w).2 = w) → (let* a := table_call c in k a) w = (o, w') → o ≠ Pending →
  ∃ now, (table w' = (spec_call c now (table w)).2 ∧ (o = (k (spec_call c now (table w)).1 w').1 ∨ ∃ e, o = Throw e)
    ∨ table w' = table w ∧ ∃ e, o = Throw e).
Proof.
  intros Hk. unfold bindM, table_call. destruct (turns w) as [|[now|now e|e] ts] eqn:Et.
  - by intros [= <- <-].
  - destruct (spec_call c now (table w)) as [a rows] eqn:Es. intros E _. exists now. left.
    pose proof (Hk a (mkTable rows ts)) as Hw. rewrite E in Hw. simpl in Hw. subst w'. rewrite Es. simpl.
    split; [done|]. left. by rewrite E.
  - intros [= <- <-] _. exists now. left. split; [done|]. right. by exists e.
  - intros [= <- <-] _. exists EmptyString. right. split; [done|]. by exists e.
Qed.

Lemma lookup_law c w o w' (lookup : option User) :
  (∀ now, (spec_call c now (table w)).2 = table w) →
  (∀ now, (spec_call c now (table w)).1 = Found (Val lookup) ∨ ∃ e, (spec_call c now (table w)).1 = Found (Unexpected e)) →
  (let* a := table_call c in found a) w = (o, w') → o ≠ Pending →
  table w' = table w ∧ ∀ r, o = Ret (Val r) → r = lookup.
Proof.
  intros Hrows Hans E Ho. destruct (table_call_inv c found w o w' ltac:(by intros [?|?] ?) E Ho) as (now & [[Hw Ho']|[Hw [e ->]]]).
  - rewrite Hrows in Hw. split; [done|]. intros r ->.
    destruct Ho' as [Ho'|[e Ho']]; [|done]. destruct (Hans now) as [Ha|[e Ha]]; rewrite Ha in Ho'; [by injection Ho'|done].
  - split; [done|]. by intros r ?.
Qed.

Lemma spec_create_rows u now rows :
  (spec_call (CallCreateUser u) now rows).2 = rows
  ∨ ∃ r, (spec_call (CallCreateUser u) now rows).2 = rows ++ [r].
Proof.
  unfold spec_call. destruct (insert_row _ _) as [r|]; [|by left]. destruct (existsb _ _); [by left|]. right. by exists r.
Qed.

(** A successful insert. *)
Lemma spec_create_ok u now rows :
  (spec_call (CallCreateUser u) now rows).1 = Created (Val ()) →
  ∃ r, insert_row now (c_str <$> CreateUser_params u) = Some r ∧ existsb (conflicts r) rows = false
    ∧ (spec_call (CallCreateUser u) now rows).2 = rows ++ [r].
Proof.
  unfold spec_call. destruct (insert_row _ _) as [r|]; [|done]. destruct (existsb _ _) eqn:Ec; [done|]. by exists r.
Qed.

Lemma create_inv u w o w' :
  CreateUser u w = (o, w') → o ≠ Pending →
  ∃ now, table w' = table w ∧ o ≠ Ret (Val ())
    ∨ table w' = (spec_call (CallCreateUser u) now (table w)).2
      ∧ (o = Ret (Val ()) → (spec_call (CallCreateUser u) now (table w)).1 = Created (Val ())).
Proof.
  intros E Ho. destruct (table_call_inv _ created w o w' ltac:(by intros [?|?] ?) E Ho) as (now & [[Hw Ho']|[Hw [e ->]]]); exists now.
  - right. split; [done|]. intros ->. destruct Ho' as [Ho'|[e ?]]; [|done]. revert Ho'.
    by destruct (spec_call _ _ _).1 as [r|r]; intros [= <-].
  - by left.
Qed.

#[export] #[refine] Instance table_store_laws : UserStoreLaws table_world := {|
  store_ok w := table_wf (table w);
  account w := table_account (table w);
  account_by_phone w := table_account_by_phone (table w);
  storable := fits
|}.
Proof.
  - intros w id u Hwf. by apply table_account_wf.
  - intros id w o w' Hwf E Ho.
    destruct (lookup_law (CallGetUserById id) w o w' (table_account (table w) id) ltac:(done)
      ltac:(intros now; unfold table_account; simpl; destruct (uuid_in (c_str id)); [by left|right; by eexists]) E Ho) as [-> Hr].
    split_and!; [done..|]. intros r ->%Hr. split; [done|]. intros u Hu. by eapply table_account_wf.
  - intros phone w o w' Hwf E Ho.
    destruct (lookup_law (CallGetUserByPhoneNumber phone) w o w' (table_account_by_phone (table w) phone) ltac:(done) ltac:(intros now; by left) E Ho) as [-> Hr].
    split_and!; [done..|]. intros r ->%Hr. split; [done|]. intros u Hu. by eapply find_live_wf.
  - intros u w o w' Hwf Hu E Ho. destruct (create_inv u w o w' E Ho) as (now & [[-> Hne]|[-> Hok]]); [by split_and!|].
    split; [apply spec_call_wf; [apply Hu|done]|].
    split; [|split].
    1, 2: intros k v Hk; destruct (spec_create_rows u now (table w)) as [->|[r ->]]; [done|by apply inserted_keeps].
    intros Hs Hfits. destruct (spec_create_ok u now (table w) (Hok Hs)) as (r & Er & Hc & ->).
    eapply inserted_found; [|done..|apply elem_of_app; right; apply list_elem_of_here].
    eapply insert_keeps_wf; [done..|]. rewrite (insert_row_status now u r); [apply Hu|apply Hu|done].
  - intros u w w' Hwf Hu E Hfits. destruct (create_inv u w _ w' E) as (now & [[_ ?]|[_ Hok]]); [done..|].
    destruct (spec_create_ok u now (table w) (Hok eq_refl)) as (r & Er & Hc & _). by eapply inserted_fresh.
Defined.
End laws.

(** ** What UserDao's coroutines did, as calls on the store *)
Section serve.
Context `{PgTypes}.

(** Calls one after the other. *)
Fixpoint serve (calls : list (nat * dao_call)) (w : table_world)
    : list (nat * dao_call * outcome dao_answer) * table_world :=
  match calls with
  | [] => ([], w)
  | (co, c) :: calls' =>
      let '(o, w1) := table_call c w in
      let '(answers, w2) := serve calls' w1 in ((co, c, o) :: answers, w2)
  end.

Lemma serve_app calls1 calls2 w :
  serve (calls1 ++ calls2) w
  = let '(answers1, w1) := serve calls1 w in let '(answers2, w2) := serve calls2 w1 in (answers1 ++ answers2, w2).
Proof.
  revert w. induction calls1 as [|[co c] calls1 IH]; intros w; simpl; [by destruct (serve calls2 w)|].
  destruct (table_call c w) as [o w1]. rewrite IH. destruct (serve calls1 w1) as [a1 w2]. by destruct (serve calls2 w2).
Qed.

(** A call that reached the database. *)
Definition turn_for (now : string) (thrown : option exn) : turn :=
  match thrown with Some e => LosesAnswer now e | None => Answers now end.

Lemma table_call_turn c now thrown rows ts :
  table_call c (mkTable rows (turn_for now thrown :: ts))
  = (match thrown with Some e => Throw e | None => Ret (spec_call c now rows).1 end, mkTable (spec_call c now rows).2 ts).
Proof. destruct thrown as [e|]; [done|]. unfold table_call. simpl. by destruct (spec_call c now rows). Qed.

Lemma serve_log (thrown : nat → option exn) (l : list (nat * dao_call * string)) rows ts :
  ∃ answers, serve (fst <$> l) (mkTable rows (((λ e, turn_for e.2 (thrown e.1.1)) <$> l) ++ ts))
             = (answers, mkTable (replay rows l) ts)
    ∧ ∀ l1 co c now l2, l = l1 ++ (co, c, now) :: l2 →
        (co, c, match thrown co with Some e => Throw e | None => Ret (spec_call c now (replay rows l1)).1 end) ∈ answers.
Proof.
  revert rows. induction l as [|[[co c] now] l IH]; intros rows; simpl.
  - eexists. split; [done|]. by intros [|??] ? ? ? ? ?.
  - destruct (IH (spec_call c now rows).2) as (answers & E & Hin).
    exists ((co, c, match thrown co with Some e => Throw e | None => Ret (spec_call c now rows).1 end) :: answers).
    split.
    + change (thrown (co, c, now).1.1) with (thrown co). rewrite table_call_turn.
      unfold fmap in E. by rewrite E.
    + intros [|e l1] co' c' now' l2 [= Ee El].
      * subst. left.
      * right. subst. by eapply Hin.
Qed.

(** A call that did not. *)
Lemma serve_refused (rest : list (nat * dao_call * exn)) rows :
  serve (fst <$> rest) (mkTable rows ((λ x, Refuses x.2) <$> rest)) = ((λ x, (x.1, Throw x.2)) <$> rest, mkTable rows []).
Proof. induction rest as [|[[co c] e] rest IH]; simpl; [done|]. unfold fmap in IH. by rewrite IH. Qed.

Lemma omap_keys {A K} (f : A → option K) (key : K → A) l :
  (∀ a x, f a = Some x → key x = a) → sublist (key <$> omap f l) l.
Proof.
  intros Hf. induction l as [|a l IH]; simpl; [done|]. destruct (f a) as [x|] eqn:E; simpl; [|by constructor].
  rewrite (Hf a x E). by constructor.
Qed.
End serve.

Section refinement.
Context `{UsersServer} `{!PgTypesLaws} `{!ChannelOps PQConnection} `{!ChannelLaws PQConnection} `{!LibPQFrame}.

Definition thrown_by (s : state) (co : nat) : option exn :=
  match coroutines s !! co with Some (Answered _ (Throw e)) => Some e | _ => None end.

(** Who failed before the statement was sent. *)
Definition refused (s : state) (co : nat) : option (nat * dao_call * exn) :=
  if bool_decide (co ∈ runs (executed s)) then None
  else match coroutines s !! co with Some (Answered c (Throw e)) => Some (co, c, e) | _ => None end.

(** The pool, libpq and the coroutines of UserDao implement the store: whatever
    the interleaving, there are calls on the store, of these coroutines and each
    of them once, that leave the database's table and give every coroutine the
    answer or the exception it got. *)
Lemma queries_implement_store (conns : list PQConnection) (rows0 : list users_row) (s0 s : state)
    (Hdistinct : NoDup (conn_ <$> conns)) (Htable : table_wf rows0) (Hstart : starts conns rows0 s0) (Hrun : rtc step s0 s) :
  ∃ calls ts answers, serve calls (mkTable rows0 ts) = (answers, mkTable (users_rows (db_pg (the_world s))) [])
    ∧ NoDup calls.*1
    ∧ (∀ co c, (co, c) ∈ calls → phase_call <$> coroutines s !! co = Some c)
    ∧ ∀ co c o, coroutines s !! co = Some (Answered c o) → (co, c, o) ∈ answers.
Proof.
  pose proof (steps_inv conns rows0 Hdistinct Htable s0 s (starts_inv _ _ _ Hstart) Hrun) as Hinv.
  set (rest := omap (refused s) (seq 0 (length (coroutines s)))).
  destruct (serve_log (thrown_by s) (executed s) rows0 ((λ x, Refuses x.2) <$> rest)) as (answers & Es & Hin).
  exists ((fst <$> executed s) ++ (fst <$> rest)). do 2 eexists. split; [by rewrite serve_app, Es, serve_refused, <- (i_rows _ _ _ Hinv)|].
  assert (∀ x, x ∈ rest → refused s x.1.1 = Some x) as Hrest.
  { intros x (co & _ & E)%list_elem_of_omap. replace x.1.1 with co; [done|].
    unfold refused in E. case_bool_decide; [done|]. destruct (coroutines s !! co) as [[|?|c [a|e|]]|]; try done. by injection E as <-. }
  split; [|split].
  - rewrite fmap_app, <- !list_fmap_compose. apply NoDup_app. split; [exact (i_runs _ _ _ Hinv)|]. split.
    + intros co Hco (x & -> & Hx)%list_elem_of_fmap. apply Hrest in Hx. unfold refused in Hx.
      rewrite bool_decide_eq_true_2 in Hx; [done|exact Hco].
    + eapply sublist_NoDup; [apply (NoDup_seq 0 (length (coroutines s)))|]. apply (omap_keys (refused s) (fst ∘ fst)).
      intros co x E. unfold refused in E. case_bool_decide; [done|]. simpl.
      destruct (coroutines s !! co) as [[|?|c [a|e|]]|]; try done. by injection E as <-.
  - intros co c [He|Hx]%elem_of_app.
    + apply list_elem_of_fmap in He as ([[co' c'] now] & [= -> ->] & He). exact (i_entry _ _ _ Hinv _ He).
    + apply list_elem_of_fmap in Hx as ([[co' c'] e] & [= -> ->] & Hx%Hrest). unfold refused in Hx. simpl in Hx.
      case_bool_decide; [done|]. destruct (coroutines s !! co') as [[|?|c1 [a|e1|]]|]; try done. by injection Hx as -> ->.
  - intros co c o E. apply elem_of_app. destruct (decide (co ∈ runs (executed s))) as [Hlog|Hlog].
    + left. pose proof (i_phase _ _ _ Hinv _ _ E) as Ho. simpl in Ho.
      destruct Ho as [(e & -> & _)|(l1 & now & l2 & El & ->)].
      * apply list_elem_of_fmap in Hlog as ([[co' c'] now] & -> & He). simpl in *.
        pose proof (i_entry _ _ _ Hinv _ He) as Hc. simpl in Hc. rewrite E in Hc. injection Hc as <-.
        apply list_elem_of_split in He as (l1 & l2 & El). specialize (Hin l1 co' c now l2 El).
        unfold thrown_by in Hin. by rewrite E in Hin.
      * specialize (Hin l1 co c now l2 El). unfold thrown_by in Hin. by rewrite E in Hin.
    + right. pose proof (i_phase _ _ _ Hinv _ _ E) as Ho. simpl in Ho.
      destruct Ho as [(e & -> & _)|(l1 & now & l2 & El & ->)].
      * apply list_elem_of_fmap. exists (co, c, e). split; [done|]. apply list_elem_of_omap. exists co. split.
        -- apply elem_of_seq. apply lookup_lt_Some in E. lia.
        -- unfold refused. rewrite bool_decide_eq_false_2 by done. by rewrite E.
      * exfalso. apply Hlog. rewrite El. apply list_elem_of_fmap. exists (co, c, now). split; [done|].
        apply elem_of_app. right. left.
Qed.
End refinement.
