(* ===== verification/Stack.v ===== *)
(** * Stack: the components put together

    One world for the whole service: the store of users behind its cache, the
    Redis both repositories share, the clock and the random source.  The
    instances below connect each interface to its implementation through a
    lens, as Application's injector does, and discharge [ServiceLaws]; the
    repositories are also there as coroutines, with [CoServiceLaws] and, for the
    codes in Redis, [CodeStoreLaws]. *)

From stdpp Require Import base tactics option strings numbers gmap list.
From S2P Require Import Prelude Programs Text Model LibPQ PgServer PqConnection Channel ConnectionPool.
From S2P Require Import UsersTable UserDao DaoStore JsonLib JsonTree User RedisLib RedisClient.
From S2P Require Import Interfaces CodeRepository RedisCalls UserRepository Utils JwtUtil AuthService.
From S2P Require Import BasicUserService Coroutines Codes.

Open Scope string_scope.
Open Scope Z_scope.
Open Scope photon_scope.

(** ** The world of the service *)

Record stack_world (D U : Type) `{RedisLib} := mkStackWorld { st_repo : repo_world D; st_util : U }.
Arguments mkStackWorld {D U _}.
Arguments st_repo {D U _}.
Arguments st_util {D U _}.

Section stack.
Context `{RedisLaws} `{JsonLaws} `{CryptoLaws} `{JwtLaws} {D : Type} `{UserStoreLaws D}
  {U : Type} `{ClockLaws U} `{Random U} (uuid_to_string : list Z → string) (jwt : JwtUtil).
Abbreviation W := (stack_world D U).

Definition repo_lens : lens W (repo_world D) := Lens st_repo (λ r w, mkStackWorld r (st_util w)).
Definition util_lens : lens W U := Lens st_util (λ u w, mkStackWorld (st_repo w) u).
Definition stack_redis_lens : lens W redis_env :=
  Lens (λ w, redis_client_ (st_repo w))
    (λ r w, mkStackWorld (mkRepoWorld (user_dao_ (st_repo w)) r) (st_util w)).

#[export] Instance repo_lens_laws : LensLaws repo_lens.
Proof. by split; [|intros []|]. Qed.
#[export] Instance util_lens_laws : LensLaws util_lens.
Proof. by split; [|intros []|]. Qed.
#[export] Instance stack_redis_lens_laws : LensLaws stack_redis_lens.
Proof. by split; [|intros [[] ?]|]. Qed.

#[export] Instance stack_users : IUserRepository W := zoom_users repo_lens.
#[export] Instance stack_users_laws : UserStoreLaws W := zoom_users_laws repo_lens.
#[export] Instance stack_codes : IVerificationCodeRepository W := {|
  SaveCode u t c n := zoomM stack_redis_lens (SaveCode u t c n);
  GetCode u t := zoomM stack_redis_lens (GetCode u t)
|}.
#[export] Instance stack_ids : IIDGenerator W := {|
  GenerateUUID := zoomM util_lens (IdGenerator.GenerateUUID uuid_to_string)
|}.
#[export] Instance stack_code_generator : IVerificationCodeGenerator W := {|
  Generate n := zoomM util_lens (CodeGenerator.Generate n)
|}.
#[export] Instance stack_security : ISecurityUtil W := {|
  GenerateSalt := zoomM util_lens SecurityUtil.GenerateSalt;
  HashPassword := SecurityUtil.HashPassword;
  VerifyPassword := SecurityUtil.VerifyPassword
|}.
#[export] Instance stack_jwt : IJwtUtil W := {|
  GenerateToken id := zoomM util_lens (JwtUtil_GenerateToken jwt id);
  VerifyToken t := zoomM util_lens (JwtUtil_VerifyToken jwt t)
|}.

Lemma zoom_util_keeps {A} (m : M U A) : keeps_store (zoomM util_lens m).
Proof. intros w o w' Hok [_ ->]%zoomM_inv _; [|apply util_lens_laws]. done. Qed.

Lemma zoom_redis_keeps {A} (m : M redis_env A) :
  (∀ r o r', client_wf (client r) → m r = (o, r') →
     client_wf (client r') ∧ ∀ id, env_store r' !! cache_key id = env_store r !! cache_key id) →
  keeps_store (zoomM stack_redis_lens m).
Proof.
  intros Hm w o w' (Hst & Hcl & Hc) [E ->]%zoomM_inv _; [|apply stack_redis_lens_laws].
  destruct (Hm _ _ _ Hcl E) as [Hcl' Hs]. split; [|done]. split_and!; [done|done|].
  intros id text dl j u Hi. simpl in Hi. rewrite Hs in Hi. by apply (Hc id text dl).
Qed.

#[export] Instance stack_service_laws : ServiceLaws W.
Proof.
  split.
  - intros u t. apply zoom_redis_keeps. intros r o r' Hcl E.
    destruct (GetCode_outcome _ _ _ _ _ Hcl E) as (? & -> & _). done.
  - intros u t c n. apply zoom_redis_keeps. intros r o r' Hcl E.
    destruct (SaveCode_frame _ _ _ _ _ _ _ Hcl E) as (? & Hs). split; [done|].
    intros id. apply Hs. intros Hk. by apply (code_key_not_user _ _ id _ Hk).
  - apply zoom_util_keeps.
  - intros n. apply zoom_util_keeps.
  - apply zoom_util_keeps.
  - intros id. apply zoom_util_keeps.
  - intros t. apply zoom_util_keeps.
  - intros p s. simpl. rewrite SecurityUtil.VerifyPassword_eq. by apply bool_decide_eq_true.
Qed.

(** *** The same, call by call *)

#[export] Instance stack_co_users : CoUserRepository W := co_zoom_users repo_lens.
#[export] Instance stack_co_codes : CoVerificationCodeRepository W := {|
  co_SaveCode u t c n := pzoom stack_redis_lens (co_SaveCode u t c n);
  co_GetCode u t := pzoom stack_redis_lens (co_GetCode u t)
|}.

(** Calls of Redis that touch no entry of the user cache. *)
Lemma zoom_redis_good {A} (p : prog redis_env A) (R : redis_env → redis_env → Prop) w :
  always R p →
  (∀ r r', R r r' → (client_wf (client r) → client_wf (client r'))
     ∧ ∀ id, env_store r' !! cache_key id = env_store r !! cache_key id) →
  good evolves (pzoom stack_redis_lens p) w.
Proof.
  intros Hp HR. eapply (always_good evolves); [apply _| |exact (always_pzoom stack_redis_lens _ _ Hp)].
  intros w1 w2 (_ & Hok & _) [Hr ->]. destruct (HR _ _ Hr) as [Hcl Hs]. split; [done|]. destruct Hok as (Hst & Hwf & Hc).
  split; [|by split]. split_and!; [done|by apply Hcl|]. intros id text dl j u Hi. simpl in Hi. rewrite Hs in Hi.
  by apply (Hc id text dl).
Qed.

#[export] Instance stack_co_laws : CoServiceLaws W.
Proof.
  split.
  - exact (co_zoom_laws repo_lens).
  - intros u t c n w. pose proof (co_SaveCode_redis_alone u t c n (lget stack_redis_lens w)) as E. simpl in *.
    rewrite (run_zoom stack_redis_lens). unfold zoomM. simpl. by rewrite E.
  - intros u t w. pose proof (co_GetCode_redis_alone u t (lget stack_redis_lens w)) as E. simpl in *.
    rewrite (run_zoom stack_redis_lens). unfold zoomM. simpl. by rewrite E.
  - intros u t c n w. eapply zoom_redis_good; [exact (co_SaveCode_redis_touches u t c n)|].
    intros r r' [(? & _ & ->)|(k & Hk & ? & _ & Hs)]; [done|]. split; [done|]. intros id. apply Hs.
    intros E. by apply (code_key_not_user _ _ id _ Hk).
  - intros u t w. eapply zoom_redis_good; [exact (co_GetCode_redis_reads u t)|]. by intros r r' (? & _ & ->).
  - intros u t c n. exact (bounded_pzoom stack_redis_lens 3 _ (co_SaveCode_redis_bounded u t c n)).
  - intros u t. exact (bounded_pzoom stack_redis_lens 3 _ (co_GetCode_redis_bounded u t)).
Qed.

(** *** Where the codes are

    The codes are entries of Redis, on its clock. *)
#[export] Instance stack_code_store : CodeStore W := {|
  code_entry w u t := match code_key u t with Ret k => env_store (redis_client_ (st_repo w)) !! k | _ => None end;
  code_clock w := env_now (redis_client_ (st_repo w))
|}.

(** Calls of Redis that touch no entry of a code. *)
Definition spares_codes (r r' : redis_env) : Prop :=
  env_now r ≤ env_now r' ∧ ∀ u t k, code_key u t = Ret k → env_store r' !! k = env_store r !! k.

Lemma reads_spare r r' : reads r r' → spares_codes r r'.
Proof. intros (_ & ? & E). split; [done|]. intros u t k _. by rewrite E. Qed.

Lemma spares_forgets (w w' : W) : spares_codes (redis_client_ (st_repo w)) (redis_client_ (st_repo w')) → forgets_codes w w'.
Proof.
  intros [? Hs]. split; [done|]. intros u t x. simpl. destruct (code_key u t) as [k|e|] eqn:Ek; [|done..].
  by rewrite (Hs _ _ _ Ek).
Qed.

Lemma zoom_redis_forgets {A} (p : prog redis_env A) : always spares_codes p → always forgets_codes (pzoom stack_redis_lens p).
Proof.
  intros Hp. eapply always_impl; [|exact (always_pzoom stack_redis_lens _ _ Hp)]. intros w w' [Hs _]. by apply spares_forgets.
Qed.

Lemma zoom_repo_forgets {A} (p : prog (repo_world D) A) :
  always (λ r r', spares_codes (redis_client_ r) (redis_client_ r')) p → always forgets_codes (pzoom repo_lens p).
Proof.
  intros Hp. eapply always_impl; [|exact (always_pzoom repo_lens _ _ Hp)]. intros w w' [Hs _]. by apply spares_forgets.
Qed.

Lemma util_forgets {A} (m : M U A) : always forgets_codes (call (zoomM util_lens m)).
Proof.
  apply always_call. intros w o w' [_ ->]%zoomM_inv _; [|apply _]. apply spares_forgets. split; [simpl; lia|done].
Qed.

Lemma dao_spares {A} (m : M D A) :
  always (λ r r', spares_codes (redis_client_ r) (redis_client_ r')) (call (zoomM dao_lens m)).
Proof.
  apply always_call. intros w o w'. unfold zoomM. simpl. destruct (m (user_dao_ w)) as [o1 d]. intros [= <- <-] _.
  split; [simpl; lia|done].
Qed.

Lemma cached_GetUserById_spares id :
  always (λ r r', spares_codes (redis_client_ r) (redis_client_ r')) (co_UserRepository_GetUserById (D:=D) id).
Proof.
  assert (∀ A (p : prog redis_env A), always spares_codes p →
    always (λ r r' : repo_world D, spares_codes (redis_client_ r) (redis_client_ r')) (pzoom redis_lens p)) as Hz.
  { intros A p Hp. eapply always_impl; [|exact (always_pzoom redis_lens _ _ Hp)]. by intros r r' [? _]. }
  apply always_bind; [apply Hz; eapply always_impl, co_Get_reads; apply reads_spare|]. intros res.
  apply always_bind; [by destruct (cache_hit_outcome res) as (hit & -> & _)|]. intros [u|]; [done|].
  apply always_bind; [apply dao_spares|]. intros [[u|]|err]; [|done..]. apply always_bind; [|done].
  apply always_try; [|done]. apply always_bind; [by destruct (json_dump (ToJson u))|]. intros text.
  apply always_bind; [|done]. apply Hz. eapply always_impl, co_Set_expiry_touches. intros r r' (_ & ? & Hs).
  split; [done|]. intros u' t k Hk. apply Hs. by apply (code_key_not_user u' t id).
Qed.

#[export] Instance stack_code_laws : CodeStoreLaws W.
Proof.
  split.
  - intros u t cd n Hn Hr. eapply always_impl; [|exact (always_pzoom stack_redis_lens _ _ (co_SaveCode_redis_writes u t cd n Hn Hr))].
    intros w w' [Hs _]. destruct Hs as [Hs|(k & Hk & _ & Hnow & Hs)].
    + destruct (spares_forgets w w' (reads_spare _ _ Hs)) as [? Hf]. split; [done|]. intros u' t' x Hx. left. by apply Hf.
    + split; [done|]. intros u' t' x. simpl in *. destruct (code_key u' t') as [k'|e|] eqn:Ek'; [|done..].
      destruct Hs as [->|(s & Hs & ->)]; [by left|]. intros [[<- <-]|[_ Hx]]%lookup_insert_Some; [right|by left].
      destruct (code_key_inj _ _ _ _ _ Ek' Hk) as [-> ->]. split; [done|]. split; [done|]. exists s. by split.
  - intros u t. apply zoom_redis_forgets. eapply always_impl; [|exact (co_GetCode_redis_reads u t)]. apply reads_spare.
  - intros u t evs cd Hx%(exec_zoom stack_redis_lens).
    destruct (co_GetCode_redis_found _ _ _ _ Hx) as (k & e & s & Hk & (e' & Hin & ->)%elem_zoom & Hs & Hl).
    unfold live in Hl. simpl in Hl. destruct (env_store (redis_client_ (st_repo e'.1)) !! k) as [[v d]|] eqn:Ev; [|done].
    exists e', s, d. split; [done|]. simpl. rewrite Hk, Ev. destruct d as [d|]; [case_bool_decide; [|done]|];
      injection Hl as ->; by split_and!; try apply Hs.
  - intros u. apply zoom_repo_forgets. exact (dao_spares (CreateUser u)).
  - intros id. apply zoom_repo_forgets. exact (cached_GetUserById_spares id).
  - intros phone. apply zoom_repo_forgets. exact (dao_spares (GetUserByPhoneNumber phone)).
  - intros n. apply util_forgets.
  - apply util_forgets.
  - apply util_forgets.
  - intros id. apply util_forgets.
  - intros t. apply util_forgets.
Qed.
(** ** Properties *)

End stack.

(** ** The service as Application builds it

    The store of users is UserDao, on the pool and its connections. *)

Section application.
Context `{RedisLaws} `{JsonLaws} `{CryptoLaws} `{JwtLaws} `{UsersServer} `{!PgTypesLaws}
  `{!ChannelOps PQConnection} `{!ChannelLaws PQConnection} {U : Type} `{ClockLaws U} `{Random U}.

(** The implementations fit their interfaces all the way down: the
    repository over the cache, over UserDao, over the connection pool, over
    libpq and the users table, together with the utilities, satisfy everything
    the services assume of their collaborators ([ServiceLaws], and in it the
    contract of the store of users), so every theorem about the services holds
    of the assembled program. *)
Theorem application_satisfies_interfaces (fuel cid : nat) (conns : list PQConnection)
    (uuid_to_string : list Z → string) (jwt : JwtUtil) :
  @ServiceLaws (stack_world db_world U)
    (@stack_users _ _ db_world (dao_store fuel cid) U)
    (@stack_users_laws _ _ _ _ db_world (dao_store fuel cid) (dao_store_laws fuel cid conns) U)
    stack_codes (stack_ids uuid_to_string) stack_code_generator stack_security (stack_jwt jwt).
Proof. apply stack_service_laws. Qed.

(** A registration whose name and number fit their columns fits the table as a
    whole: salts are 32 hexadecimal digits, hashes 64. *)
Lemma registered_fits `{!RandomLaws U} (req : RegisterRequest) (id : string) (w w' : U) salt :
  uuid_in id = Some id →
  varchar_in 20 (reg_phone_number req) = Some (reg_phone_number req) → nul_free (reg_phone_number req) = true →
  varchar_in 64 (reg_username req) = Some (reg_username req) → nul_free (reg_username req) = true →
  SecurityUtil.GenerateSalt w = (Ret salt, w') → fits (@registered U SecurityUtil.SecurityUtil_instance req id salt).
Proof.
  intros Hid Hp1 Hp2 Hu1 Hu2 [Hs Hl]%SecurityUtil.GenerateSalt_text.
  destruct (SecurityUtil.HashPassword_text (reg_password req) salt) as [Hh Hhl].
  split; [done|]. split; [by apply (bool_decide_unpack _)|].
  repeat (constructor; [first [by split|split; [apply varchar_in_printable; [done|simpl; lia]|by apply printable_nul_free]]|]).
  constructor.
Qed.

Lemma application_registers `{!RandomLaws U} (fuel cid : nat) (conns : list PQConnection) (req : RegisterRequest) (id : string) :
  uuid_in id = Some id →
  varchar_in 20 (reg_phone_number req) = Some (reg_phone_number req) → nul_free (reg_phone_number req) = true →
  varchar_in 64 (reg_username req) = Some (reg_username req) → nul_free (reg_username req) = true →
  @registrable (stack_world db_world U) (@stack_users _ _ db_world (dao_store fuel cid) U)
    (@stack_users_laws _ _ _ _ db_world (dao_store fuel cid) (dao_store_laws fuel cid conns) U) stack_security req id.
Proof.
  intros Hid Hp1 Hp2 Hu1 Hu2 w salt w' E. simpl in E. apply zoomM_inv in E as [E _]; [|apply _].
  by apply (registered_fits req id _ _ _ Hid Hp1 Hp2 Hu1 Hu2 E).
Qed.
End application.

(** ** A concrete service

    Users in memory, one account whose password is "secret", the toy Redis,
    token library, digest and clock. *)

#[local] Existing Instances SecurityUtil.toy_crypto SecurityUtil.toy_crypto_laws toy_jwt simple_types.

Definition alice : User :=
  mkUser "u1" "13800000000" (SecurityUtil.HashPassword "secret" "00FF") "00FF" (Some "alice") None None
    UserStatus.NORMAL 1500000000 None.

Definition demo_redis : redis_env :=
  mkRedisEnv example_client
    (mkRedisToy {[ "verify_code:register:139" := ("042137", Some 4600);
                   "verify_code:login:13800000000" := ("777777", Some 4600) ]} 1000 true).

Abbreviation demo_world := (stack_world (list User) toy_world).
Definition demo : demo_world :=
  mkStackWorld (mkRepoWorld [alice] demo_redis) (1000000000000, 5).

#[local] Instance demo_ids : IIDGenerator demo_world := stack_ids SecurityUtil.hex.
#[local] Instance demo_jwt : IJwtUtil demo_world := stack_jwt example_jwt.
#[local] Instance demo_laws : ServiceLaws demo_world :=
  stack_service_laws SecurityUtil.hex example_jwt.

(** Codes are no cache entries. *)
Lemma demo_redis_ok `{UserStoreLaws D} (d : D) : store_ok d → repo_ok (mkRepoWorld d demo_redis).
Proof.
  intros Hd. split_and!; [done|apply example_client_wf|]. intros id text dl j u Hm. exfalso. unfold env_store in Hm.
  simpl in Hm. apply lookup_insert_Some in Hm as [[Hk _]|[_ Hm]]; [discriminate|].
  apply lookup_singleton_Some in Hm as [Hk _]. discriminate.
Qed.

Lemma demo_ok : store_ok demo.
Proof. apply demo_redis_ok. repeat constructor; try apply (bool_decide_unpack _); done. Qed.

(** Redis restarts empty. *)
Definition restarted (w : demo_world) : demo_world :=
  mkStackWorld (mkRepoWorld (user_dao_ (st_repo w))
    (mkRedisEnv (client (redis_client_ (st_repo w))) (mkRedisToy ∅ (rt_now (server (redis_client_ (st_repo w)))) true)))
    (st_util w).

Definition login_request (pw : string) : LoginByPasswordRequest := mkLoginByPasswordRequest "u1" pw.
Definition login_run := LoginByPassword (login_request "secret") demo.


Definition code_login_request (c : string) : LoginByCodeRequest := mkLoginByCodeRequest "13800000000" c.

Lemma LoginByCode_spec_witness :
  let res := login_failure (mkStatus VERIFICATION_CODE_MISMATCH "验证码错误") in
  let w1 := (GetCode USER_LOGIN "13800000000" demo).2 in
  let w' := (LoginByCode (code_login_request "000000") demo).2 in
  if bool_decide (Some "777777" = Some "000000") then
    res = login_failure (mkStatus INTERNAL_ERROR "DB Error")
    ∨ match account_by_phone demo "13800000000" with
      | None => res = login_failure (mkStatus USER_NOT_FOUND "该手机号未注册")
      | Some v => ∃ token w2, GenerateToken (id_ v) w2 = (Ret token, w')
                    ∧ res = mkLoginResult Success token (id_ v)
      end
  else res = login_failure (mkStatus VERIFICATION_CODE_MISMATCH "验证码错误") ∧ w' = w1.
Proof.
  apply (LoginByCode_spec (code_login_request "000000") demo).
  - exact demo_ok.
  - apply run_eq. reflexivity.
  - apply run_eq. reflexivity.
Defined.

Definition send_request : SendCodeRequest := mkSendCodeRequest "13900000000" USER_LOGIN.

Lemma SendCode_no_enumeration_witness :
  let resp := mkSendCodeResponse Success in
  let w1 := (GetUserByPhoneNumber "13900000000" demo).2 in let w' := (SendCode send_request demo).2 in
  resp = mkSendCodeResponse Success
  ∧ match account_by_phone demo "13900000000" with
    | None => w' = w1
    | Some _ => ∃ code w2, Generate 6 w1 = (Ret code, w2)
        ∧ SaveCode USER_LOGIN "13900000000" code 300 w2 = (Ret (), w')
    end.
Proof.
  apply (SendCode_no_enumeration send_request demo (GetUserByPhoneNumber "13900000000" demo).2
           (SendCode send_request demo).2 None).
  - left. reflexivity.
  - exact demo_ok.
  - apply run_eq. reflexivity.
  - apply run_eq. reflexivity.
Defined.

Definition register_request : RegisterRequest := mkRegisterRequest "bob" "hunter2" "139" "042137".
Definition bob_id : string := SecurityUtil.hex (IdGenerator.buffer 1000000 5 6 7).
Definition after_register : demo_world := (Register register_request demo).2.

Lemma register_runs : Register register_request demo = (Ret (mkRegisterResponse Success bob_id), after_register).
Proof. apply run_eq. vm_compute. reflexivity. Qed.

Lemma Register_success_witness :
  (∃ w1, GetCode USER_REGISTER "139" demo = (Ret (Some "042137"), w1))
  ∧ account_by_phone demo "139" = None
  ∧ store_ok after_register ∧ accounts_kept demo after_register
  ∧ ∃ v, account after_register bob_id = Some v ∧ account_by_phone after_register "139" = Some v
      ∧ id_ v = bob_id ∧ value_or_empty (username_ v) = "bob" ∧ User.status_ v = UserStatus.NORMAL
      ∧ VerifyPassword (W:=demo_world) "hunter2" (salt_ v) (password_hash_ v) = true.
Proof.
  apply (Register_success register_request demo after_register bob_id).
  - exact demo_ok.
  - intros ? ? ? _. exact I.
  - exact register_runs.
Defined.

Lemma Register_keeps_accounts_witness :
  store_ok after_register ∧ accounts_kept demo after_register.
Proof.
  apply (Register_keeps_accounts register_request demo after_register
           (Ret (mkRegisterResponse Success bob_id))).
  - exact demo_ok.
  - exact register_runs.
  - discriminate.
Defined.

Lemma GetUserInfo_spec_witness :
  let resp := mkGetUserInfoResponse Success "u1" "alice" "" "" "13800000000" in
  resp = info_failure (mkStatus INTERNAL_ERROR "查询失败")
  ∨ resp = match account demo "u1" with
           | None => info_failure (mkStatus USER_NOT_FOUND "用户不存在")
           | Some v => mkGetUserInfoResponse Success (id_ v) (value_or_empty (username_ v))
                         (value_or_empty (email_ v)) (value_or_empty (avatar_url_ v)) (phone_number_ v)
           end.
Proof.
  apply (GetUserInfo_spec (mkGetUserInfoRequest "u1") demo (GetUserInfo (mkGetUserInfoRequest "u1") demo).2).
  - exact demo_ok.
  - apply run_eq. reflexivity.
Defined.


Definition login_result : LoginResult := from_ret (login_failure Success) login_run.1.


Lemma application_satisfies_interfaces_witness :
  @ServiceLaws (stack_world (@db_world users_pg _) toy_world)
    (@stack_users _ _ db_world (dao_store 10 1) toy_world)
    (@stack_users_laws _ _ _ _ db_world (dao_store 10 1) (dao_store_laws 10 1 [users_conn]) toy_world)
    stack_codes (stack_ids SecurityUtil.hex) stack_code_generator stack_security (stack_jwt example_jwt).
Proof. apply (application_satisfies_interfaces 10 1 [users_conn] SecurityUtil.hex example_jwt). Defined.
