(* ===== verification/Concurrent.v ===== *)
(** * Concurrent: the coroutines of the services over UserDao's table

    The services' coroutines (Coroutines.v) on the repository, the cache and the
    table: requests that overtake each other, a Redis that restarts, a code that
    is used twice, and the closed examples of the theorems there and in Codes.v. *)

From stdpp Require Import base tactics option strings numbers list relations gmap.
From S2P Require Import Prelude Programs Text UsersTable UserDao TableStore Model JsonLib JsonTree User RedisLib RedisClient Interfaces.
From S2P Require Import CodeRepository RedisCalls UserRepository Utils JwtUtil AuthService BasicUserService Coroutines Codes Stack.

Open Scope string_scope.
Open Scope Z_scope.
Open Scope photon_scope.

(** ** The service over UserDao's table

    TableStore.v says why a call of UserDao may be taken for one step. *)

(** *** Two registrations of one number

    Both requests see that the number is free, both go on; the first to reach the
    table wins, the second is told of an internal error, not of an existing user
    as it would be a moment later. *)
#[local] Existing Instances SecurityUtil.toy_crypto SecurityUtil.toy_crypto_laws toy_jwt simple_types.

Definition uuid_text (b : list Z) : string :=
  SecurityUtil.hex (take 4 b) +:+ "-" +:+ SecurityUtil.hex (take 2 (drop 4 b)) +:+ "-"
    +:+ SecurityUtil.hex (take 2 (drop 6 b)) +:+ "-" +:+ SecurityUtil.hex (take 2 (drop 8 b)) +:+ "-"
    +:+ SecurityUtil.hex (drop 10 b).

Abbreviation app_world := (stack_world table_world toy_world).
#[local] Instance app_ids : IIDGenerator app_world := stack_ids uuid_text.
#[local] Instance app_jwt : IJwtUtil app_world := stack_jwt example_jwt.
#[local] Instance app_laws : ServiceLaws app_world := stack_service_laws uuid_text example_jwt.
#[local] Instance app_co_laws : CoServiceLaws app_world := stack_co_laws uuid_text example_jwt.

Definition app : app_world :=
  mkStackWorld (mkRepoWorld (mkTable [] (replicate 9 (Answers server_now))) demo_redis) (1000000000000, 5).

Lemma app_ok : store_ok app.
Proof. apply demo_redis_ok. exact table_wf_nil. Qed.

Definition race_request : RegisterRequest := mkRegisterRequest "eve" "letmein" "139" "042137".
Definition app_start : threads (W:=app_world) (C:=service_call) (R:=service_answer) := start app.
Definition race_moves : list (move (C:=service_call)) :=
  [ Arrives (CallRegister register_request); Arrives (CallRegister race_request);
    Goes 0; Goes 1; Goes 0; Goes 1; Goes 0; Goes 1;
    Goes 1; Goes 0; Goes 0; Goes 0; Goes 1; Goes 1; Goes 0; Goes 1;
    Arrives (CallRegister race_request); Goes 2; Goes 2; Goes 2; Goes 2 ].

Example race_answers :
  ended <$> running (played body race_moves app_start)
  = [ Some (Ret (Registered (mkRegisterResponse Success "0000000F-4240-7000-8005-000000060000")));
      Some (Ret (Registered (register_failure (mkStatus INTERNAL_ERROR "注册失败"))));
      Some (Ret (Registered (register_failure (mkStatus USER_ALREADY_EXISTS "该手机号已注册")))) ].
Proof. vm_compute. reflexivity. Qed.

(** A code is sent to another number, and both register. *)
Definition other_request : RegisterRequest := mkRegisterRequest "carol" "qwerty" "137" "567890".
Definition both_moves : list (move (C:=service_call)) :=
  [ Arrives (CallSendCode (mkSendCodeRequest "137" USER_REGISTER)); Goes 0; Goes 0; Goes 0; Goes 0;
    Arrives (CallRegister register_request); Arrives (CallRegister other_request);
    Goes 1; Goes 2; Goes 1; Goes 2; Goes 1; Goes 2; Goes 2; Goes 1; Goes 1; Goes 2; Goes 2; Goes 1; Goes 1; Goes 2 ].
Definition both_end := played body both_moves app_start.

Lemma both_ended i c a :
  fst <$> running both_end !! i = Some c → ended <$> running both_end !! i = Some (Some (Ret a)) →
  running both_end !! i = Some (c, Done (Ret a)).
Proof. apply ended_lookup. Qed.

Lemma app_registrable req id :
  bool_decide (uuid_in id = Some id) && bool_decide (varchar_in 20 (reg_phone_number req) = Some (reg_phone_number req))
  && nul_free (reg_phone_number req) && bool_decide (varchar_in 64 (reg_username req) = Some (reg_username req))
  && nul_free (reg_username req) = true → registrable (W:=app_world) req id.
Proof.
  rewrite !andb_true_iff, !bool_decide_eq_true. intros ((((Hid & Hp1) & Hp2) & Hu1) & Hu2) w salt w' E.
  apply zoomM_inv in E as [E _]; [|apply _]. by apply (registered_fits req id _ _ _ Hid Hp1 Hp2 Hu1 Hu2 E).
Qed.

(** *** Redis restarts

    With the users in memory: a code is sent, a login is under way, and Redis
    restarts empty: the password still logs in, the code is gone. *)
#[local] Instance race_ids : IIDGenerator demo_world := stack_ids SecurityUtil.hex.
#[local] Instance race_jwt : IJwtUtil demo_world := stack_jwt example_jwt.
#[local] Instance race_laws : ServiceLaws demo_world := stack_service_laws SecurityUtil.hex example_jwt.
#[local] Instance race_co_laws : CoServiceLaws demo_world := stack_co_laws SecurityUtil.hex example_jwt.

Definition demo_start : threads (W:=demo_world) (C:=service_call) (R:=service_answer) := start demo.
Definition before_restart := played body
  [ Arrives (CallSendCode (mkSendCodeRequest "137" USER_REGISTER)); Goes 0; Goes 0; Goes 0; Goes 0;
    Arrives (CallLoginByPassword (login_request "secret")); Goes 1; Goes 1;
    Arrives (CallRegister other_request) ] demo_start.
Definition restart_end := played body [ Goes 1; Goes 2; Goes 1; Goes 2; Goes 2; Goes 1; Goes 1; Goes 1; Goes 1 ] (changed (restarted (shared before_restart)) before_restart).

Example restart_answers :
  ended <$> running restart_end
  = [ Some (Ret (CodeSent (mkSendCodeResponse Success)));
      Some (Ret (LoggedIn login_result));
      Some (Ret (Registered (register_failure (mkStatus VERIFICATION_CODE_MISMATCH "验证码错误")))) ].
Proof. vm_compute. reflexivity. Qed.

Lemma restart_steps : rtc (step evolves body) demo_start restart_end.
Proof.
  assert (rtc (step evolves body) demo_start before_restart) as Hrun by (apply played_steps; vm_compute; reflexivity).
  etrans; [exact Hrun|]. eapply rtc_l; [apply (changed_step evolves body (restarted (shared before_restart)))|].
  - apply (evolves_zoom repo_lens). apply forgets_evolves.
    + destruct (served_kept demo before_restart demo_ok Hrun) as [(_ & Hok & _) _ _ _]. exact Hok.
    + split; [done|]. split; [done|]. apply map_empty_subseteq.
  - apply played_steps. vm_compute. reflexivity.
Qed.

(** *** A code is sent, time passes, and the code is used twice

    The code that was there before is replaced; the new one is good until its five
    minutes are over, as often as it is given. *)
Definition code_sent := played body
  (Arrives (CallSendCode (mkSendCodeRequest "13800000000" USER_LOGIN)) :: replicate 5 (Goes 0)) demo_start.

(** Redis's clock shows [t]. *)
Definition time_passed (t : Z) (w : demo_world) : demo_world :=
  mkStackWorld (mkRepoWorld (user_dao_ (st_repo w))
    (mkRedisEnv (client (redis_client_ (st_repo w))) (mkRedisToy (rt_store (server (redis_client_ (st_repo w)))) t true)))
    (st_util w).

Definition code_login (c : string) : service_call := CallLoginByCode (mkLoginByCodeRequest "13800000000" c).
Definition code_moves : list (move (C:=service_call)) :=
  [ Arrives (code_login "567890"); Arrives (code_login "567890"); Arrives (code_login "777777");
    Goes 1; Goes 2; Goes 1; Goes 2; Goes 1; Goes 2; Goes 1; Goes 2; Goes 2; Goes 1; Goes 3; Goes 3; Goes 3 ].
Definition code_end := played body code_moves (changed (time_passed 1200 (shared code_sent)) code_sent).
Definition code_late := played body [ Arrives (code_login "567890"); Goes 1; Goes 1; Goes 1 ] (changed (time_passed 1300 (shared code_sent)) code_sent).

Definition answer_at (s : threads (W:=demo_world) (C:=service_call) (R:=service_answer)) (i : nat) : option service_answer :=
  match ended <$> running s !! i with Some (Some (Ret a)) => Some a | _ => None end.
Definition login_code (a : service_answer) : option ErrorCode :=
  match a with LoggedIn res => Some (code (login_status res)) | _ => None end.

Example code_answers :
  (λ i, answer_at code_end i ≫= login_code) <$> [1; 2; 3]%nat
    = [Some SUCCESS; Some SUCCESS; Some VERIFICATION_CODE_MISMATCH]
  ∧ answer_at code_late 1 ≫= login_code = Some VERIFICATION_CODE_MISMATCH.
Proof. split; vm_compute; reflexivity. Qed.

Lemma concurrent_answers_witness :
  let evs := events 1 (history restart_end) in
  answer_of (W:=demo_world) (CallLoginByPassword (login_request "secret")) evs (LoggedIn login_result)
  ∧ (∀ e, e ∈ evs → evolves demo e.1 ∧ evolves e.1 e.2 ∧ evolves e.2 (shared restart_end)).
Proof.
  apply (concurrent_answers demo restart_end 1).
  - exact demo_ok.
  - exact restart_steps.
  - apply ended_lookup; vm_compute; reflexivity.
Defined.

Lemma registrations_unique_witness :
  let id1 := "0000000F-4240-7000-800B-0000000C0000" in let id2 := "0000000F-4240-7000-800E-0000000F0000" in
  id1 ≠ id2 ∧ "139" ≠ "137"
  ∧ ∃ v1 v2, account (shared both_end) id1 = Some v1 ∧ account_by_phone (shared both_end) "139" = Some v1
      ∧ VerifyPassword (W:=app_world) "hunter2" (salt_ v1) (password_hash_ v1) = true
      ∧ account (shared both_end) id2 = Some v2 ∧ account_by_phone (shared both_end) "137" = Some v2
      ∧ VerifyPassword (W:=app_world) "qwerty" (salt_ v2) (password_hash_ v2) = true.
Proof.
  apply (registrations_unique app both_end 1 2 register_request other_request).
  - exact app_ok.
  - apply played_steps. vm_compute. reflexivity.
  - discriminate.
  - apply both_ended; vm_compute; reflexivity.
  - apply both_ended; vm_compute; reflexivity.
  - apply app_registrable. vm_compute. reflexivity.
  - apply app_registrable. vm_compute. reflexivity.
Defined.

Lemma requests_finish_witness :
  let s := played body (take 9 race_moves) app_start in
  (∀ n s', nsteps proceed n s s' → (n ≤ 8 * length (running s))%nat)
  ∧ ∀ s' i c p, rtc proceed s s' → (∀ s'', ¬ proceed s' s'') → running s' !! i = Some (c, p) →
      match p with Done o => o ≠ Pending | Await m k => (m (shared s')).1 = Pending end.
Proof.
  apply (requests_finish app).
  apply played_steps. vm_compute. reflexivity.
Defined.


Lemma codes_were_sent_witness :
  let s := code_end in
  ∃ h1 e h2 deadline now, history s = (h1 ++ (1%nat, e) :: h2)%list
    ∧ code_entry e.1 USER_LOGIN "13800000000" = Some ("567890", deadline)
    ∧ code_clock e.1 ≤ now ≤ code_clock e.2 ∧ unexpired now deadline
    ∧ (code_entry demo USER_LOGIN "13800000000" = Some ("567890", deadline)
       ∨ ∃ f, sent_by s h1 USER_LOGIN "13800000000" ("567890", deadline) f
           ∧ code_clock f.2 ≤ code_clock e.1 < code_clock f.2 + 300).
Proof.
  apply (codes_were_sent (W:=demo_world) forgets_codes demo code_end 1 (code_login "567890")
           (default (CodeSent (mkSendCodeResponse Success)) (answer_at code_end 1))).
  - auto.
  - etrans; [apply (played_steps forgets_codes body (Arrives (CallSendCode (mkSendCodeRequest "13800000000" USER_LOGIN)) :: replicate 5 (Goes 0)));
      vm_compute; reflexivity|].
    eapply rtc_l; [apply (changed_step forgets_codes body (time_passed 1200 (shared code_sent)))|].
    + apply spares_forgets. split; [vm_compute; discriminate|done].
    + apply played_steps. vm_compute. reflexivity.
  - apply ended_lookup; vm_compute; reflexivity.
  - vm_compute. reflexivity.
Defined.
