(* ===== verification/Responsive.v ===== *)
(** * Responsive: when the collaborators answer, every request ends

    A coroutine of the service waits for its collaborators only: if each call on
    them returns or throws ([Responsive]), then so does every call a method of
    the service makes, and the methods' RunSpecificLogic with it.  For the
    assembled service it is enough that Redis and the database answer. *)

From stdpp Require Import base tactics option strings numbers list.
From S2P Require Import Prelude Programs Text Model JsonLib JsonTree User RedisLib RedisClient Interfaces.
From S2P Require Import CodeRepository RedisCalls UserRepository Utils JwtUtil AuthService BasicUserService Coroutines CallData Handlers Stack.

Open Scope string_scope.
Open Scope Z_scope.
Open Scope photon_scope.

(** ** Calls that return or throw *)
Section responds.
Context {W : Type}.

Definition responds {A} (m : M W A) : Prop := ∀ w, (m w).1 ≠ Pending.

Lemma responds_ret {A} (a : A) : responds (retM a).
Proof. done. Qed.
Lemma responds_throw {A} e : responds (throwM (A:=A) e).
Proof. done. Qed.
Lemma responds_put (w : W) : responds (putM w).
Proof. done. Qed.
Lemma responds_get : responds getM.
Proof. done. Qed.

Lemma responds_lift {A} (o : outcome A) : o ≠ Pending → responds (liftO o).
Proof. by intros Ho w. Qed.

Lemma responds_draw {A} (f : W → A * W) : responds (drawM f).
Proof. intros w. unfold drawM. by destruct (f w). Qed.

Lemma responds_bind {A B} (m : M W A) (f : A → M W B) : responds m → (∀ a, responds (f a)) → responds (bindM m f).
Proof. intros Hm Hf w. specialize (Hm w). unfold bindM. destruct (m w) as [[a|e|] w']; [apply Hf|done..]. Qed.

Lemma responds_try {A} (m : M W A) catches h : responds m → (∀ e, responds (h e)) → responds (tryM m catches h).
Proof.
  intros Hm Hh w. specialize (Hm w). unfold tryM. destruct (m w) as [[a|e|] w']; [done| |done].
  destruct (catches e); [apply Hh|done].
Qed.

Lemma responds_zoom {S A} (l : lens W S) (m : M S A) : (∀ s, (m s).1 ≠ Pending) → responds (zoomM l m).
Proof. intros Hm w. specialize (Hm (lget l w)). unfold zoomM. by destruct (m (lget l w)). Qed.

Lemma returns_call {A} (m : M W A) : responds m → returns (Programs.call m).
Proof. intros Hm w. split; [apply Hm|done]. Qed.

Lemma returns_try {A} (p : prog W A) catches h : returns p → (∀ e, returns (h e)) → returns (ptry p catches h).
Proof.
  intros Hp Hh. induction p as [[a|e|]|X m k IH]; simpl in *; [done| |done|].
  - by destruct (catches e).
  - intros w. split; [apply Hp|]. apply IH, Hp.
Qed.
End responds.

Create HintDb responds.
#[export] Hint Resolve responds_ret responds_throw responds_put responds_get responds_lift responds_draw responds_bind
  responds_try responds_zoom : responds.

(** ** The methods of the service *)
Class Responsive (W : Type) `{CoUserRepository W} `{IVerificationCodeGenerator W} `{CoVerificationCodeRepository W}
    `{IIDGenerator W} `{ISecurityUtil W} `{IJwtUtil W} : Prop := {
  CreateUser_responds u : returns (co_CreateUser u);
  GetUserById_responds id : returns (co_GetUserById id);
  GetUserByPhoneNumber_responds phone : returns (co_GetUserByPhoneNumber phone);
  Generate_responds n : responds (Generate n);
  SaveCode_responds usage target code n : returns (co_SaveCode usage target code n);
  GetCode_responds usage target : returns (co_GetCode usage target);
  GenerateUUID_responds : responds GenerateUUID;
  GenerateSalt_responds : responds GenerateSalt;
  GenerateToken_responds id : responds (GenerateToken id);
  VerifyToken_answers t w : ∃ r w', VerifyToken t w = (Ret r, w')
}.

Section methods.
Context `{Responsive W}.

Lemma co_send_code_returns req b : returns (co_send_code req b).
Proof.
  unfold co_send_code. destruct (negb b); [done|]. apply returns_bind; [apply returns_call, Generate_responds|]. intros c.
  apply returns_bind; [apply SaveCode_responds|done].
Qed.

Lemma co_issue_token_returns user : returns (co_issue_token user).
Proof. apply returns_bind; [apply returns_call, GenerateToken_responds|done]. Qed.

Lemma co_SendCode_returns req : returns (co_SendCode req).
Proof.
  unfold co_SendCode. destruct (send_usage req); try done; [apply co_send_code_returns|..];
    (apply returns_bind; [apply GetUserByPhoneNumber_responds|]); intros [r|e]; try done; apply co_send_code_returns.
Qed.

Lemma co_LoginByPassword_returns req : returns (co_LoginByPassword req).
Proof.
  apply returns_bind; [apply GetUserById_responds|]. intros [[u|]|e]; [|done..].
  destruct (negb _); [done|apply co_issue_token_returns].
Qed.

Lemma co_LoginByCode_returns req : returns (co_LoginByCode req).
Proof.
  apply returns_bind; [apply GetCode_responds|]. intros stored. destruct (negb _); [done|].
  apply returns_bind; [apply GetUserByPhoneNumber_responds|]. intros [[u|]|e]; [apply co_issue_token_returns|done..].
Qed.

Lemma co_Register_returns req : returns (co_Register req).
Proof.
  apply returns_bind; [apply GetCode_responds|]. intros stored. destruct (negb _); [done|].
  apply returns_bind; [apply GetUserByPhoneNumber_responds|]. intros [[u|]|e]; [done| |done].
  apply returns_bind; [apply returns_call, GenerateUUID_responds|]. intros id.
  apply returns_bind; [apply returns_call, GenerateSalt_responds|]. intros salt.
  apply returns_bind; [apply CreateUser_responds|]. by intros [[]|e].
Qed.

Lemma co_GetUserInfo_returns req : returns (co_GetUserInfo req).
Proof. apply returns_bind; [apply GetUserById_responds|]. by intros [[u|]|e]. Qed.

(** What a method makes of the service's answer always goes on. *)
Lemma logic_returns {R A} (p : prog W A) (f : A → prog (W * R) ()) :
  returns p → (∀ a, returns (f a)) → returns (pbind (call_service p) f).
Proof. intros Hp. apply returns_bind. by apply returns_pzoom. Qed.

Lemma edit_returns {R} (f : R → R) : returns (edit_reply (W:=W) f).
Proof. by apply returns_call. Qed.

Lemma edit_if_returns {R} (f g : R → R) (b : bool) :
  returns (do~ edit_reply (W:=W) f in if b then edit_reply g else ret ()).
Proof. apply returns_bind; [apply edit_returns|]. intros _. destruct b; [apply edit_returns|done]. Qed.

Lemma Register_logic_returns uid rq : returns (Register_logic (W:=W) uid rq).
Proof. apply logic_returns; [apply co_Register_returns|]. intros a. apply (edit_if_returns _ _ true). Qed.
Lemma SendCode_logic_returns uid rq : returns (SendCode_logic (W:=W) uid rq).
Proof. apply logic_returns; [apply co_SendCode_returns|]. intros a. apply edit_returns. Qed.
Lemma LoginByPassword_logic_returns uid rq : returns (LoginByPassword_logic (W:=W) uid rq).
Proof. apply logic_returns; [apply co_LoginByPassword_returns|]. intros a. apply edit_if_returns. Qed.
Lemma LoginByCode_logic_returns uid rq : returns (LoginByCode_logic (W:=W) uid rq).
Proof. apply logic_returns; [apply co_LoginByCode_returns|]. intros a. apply edit_if_returns. Qed.
Lemma GetUserInfo_logic_returns uid rq : returns (GetUserInfo_logic (W:=W) uid rq).
Proof. apply logic_returns; [apply co_GetUserInfo_returns|]. intros a. apply edit_if_returns. Qed.
End methods.

(** ** The assembled service *)
Section stack.
Context `{RedisLib} `{JsonLaws} `{CryptoLaws} `{JwtLaws} {D : Type} `{IUserRepository D}
  {U : Type} `{ClockLaws U} `{Random U} (uuid_to_string : list Z → string) (jwt : JwtUtil).
Context (Hexec : ∀ c req, responds (async_exec c req)) (Hexec_ignore : ∀ c req, responds (async_exec_ignore c req)).
Context (Hcreate : ∀ u : User, responds (CreateUser (W:=D) u)) (Hby_id : ∀ id, responds (GetUserById (W:=D) id))
  (Hby_phone : ∀ phone, responds (GetUserByPhoneNumber (W:=D) phone)).

Lemma now_responds : responds (now (W:=U)).
Proof. intros w. unfold now. by destruct (now_read w). Qed.

Lemma GetNextConnection_responds : responds GetNextConnection.
Proof.
  unfold GetNextConnection. apply responds_bind; [by auto with responds|]. intros c. apply responds_bind; [by auto with responds|].
  intros _. by destruct (_ !! _).
Qed.

Lemma on_connection_returns {A} (p : redis_connection → prog redis_env A) :
  (∀ conn, returns (p conn)) →
  returns (let~ conn := Programs.call GetNextConnection in do~ Programs.call (enter_strand conn) in p conn).
Proof.
  intros Hp. apply returns_bind; [apply returns_call, GetNextConnection_responds|]. intros conn.
  apply returns_bind; [by apply returns_call|]. intros _. apply Hp.
Qed.

Lemma co_Get_returns key : returns (co_Get key).
Proof.
  apply returns_try; [|done]. apply on_connection_returns. intros conn.
  apply returns_bind; [apply returns_call, responds_zoom, Hexec|done].
Qed.

Lemma co_Set_expiry_returns key val n : returns (co_Set_expiry key val n).
Proof.
  apply returns_try; [|done]. apply returns_bind; [|done]. apply on_connection_returns. intros conn.
  apply returns_call, responds_zoom, Hexec_ignore.
Qed.

Lemma co_code_key_returns usage target : returns (co_code_key usage target).
Proof. by destruct usage. Qed.

Lemma cached_GetUserById_returns id : returns (co_UserRepository_GetUserById (D:=D) id).
Proof.
  apply returns_bind; [apply returns_pzoom, co_Get_returns|]. intros r. apply returns_bind; [done|].
  intros [u|]; [done|]. apply returns_bind; [apply returns_call, responds_zoom, Hby_id|]. intros [[u|]|e]; [|done..].
  apply returns_bind; [|done]. unfold co_fill_cache. apply returns_try; [|done]. apply returns_bind; [done|]. intros text.
  apply returns_bind; [apply returns_pzoom, co_Set_expiry_returns|done].
Qed.

Lemma Generate_loop_responds n code : responds (CodeGenerator.Generate_loop (W:=U) n code).
Proof.
  revert code. induction n as [|n IH]; intros code; [done|]. apply responds_bind; [by auto with responds|]. intros d. apply IH.
Qed.

#[local] Instance responsive_ids : IIDGenerator (stack_world D U) := stack_ids uuid_to_string.
#[local] Instance responsive_jwt : IJwtUtil (stack_world D U) := stack_jwt jwt.
#[local] Instance responsive_users : IUserRepository (stack_world D U) := zoom_users repo_lens.

Lemma stack_responsive : Responsive (stack_world D U).
Proof.
  split.
  - intros u. exact (returns_pzoom repo_lens _ (returns_call _ (responds_zoom dao_lens _ (Hcreate u)))).
  - intros id. exact (returns_pzoom repo_lens _ (cached_GetUserById_returns id)).
  - intros phone. exact (returns_pzoom repo_lens _ (returns_call _ (responds_zoom dao_lens _ (Hby_phone phone)))).
  - intros n. apply responds_zoom. unfold CodeGenerator.Generate. destruct (n <? 0); [done|apply Generate_loop_responds].
  - intros usage target code n. apply (returns_pzoom stack_redis_lens). apply returns_bind; [apply co_code_key_returns|].
    intros [key|]; [|done]. by apply returns_bind; [apply co_Set_expiry_returns|].
  - intros usage target. apply (returns_pzoom stack_redis_lens). apply returns_bind; [apply co_code_key_returns|].
    intros [key|]; [|done]. apply returns_bind; [apply co_Get_returns|]. by intros [v|e].
  - apply responds_zoom. unfold IdGenerator.GenerateUUID. apply responds_bind; [apply now_responds|]. intros t.
    do 3 (apply responds_bind; [by auto with responds|]; intros ?). done.
  - apply responds_zoom, responds_bind; by auto with responds.
  - intros id. apply responds_zoom, responds_bind; [apply now_responds|done].
  - intros t w. simpl. unfold zoomM. destruct (VerifyToken_outcome jwt t (lget util_lens w)) as (r & u & -> & _).
    by eexists _, _.
Qed.
End stack.
