(* ===== verification/Registry.v ===== *)
(** * Registry: service registration in Consul (service_registry)

    [RegisterConfig], [ServiceInstance], [ConsulConfig] and [ConsulRegistry]
    (consul_registry.cc).  The Consul HTTP client (ppconsul) and the parts of
    nlohmann::json that only this component uses are parameters. *)

From stdpp Require Import base tactics option strings numbers countable list.
From S2P Require Import Prelude Text JsonLib JsonTree.

Open Scope string_scope.
Open Scope Z_scope.
Open Scope photon_scope.

(** ** Data *)

Record RegisterConfig := mkRegisterConfig {
  service_name : string;
  rc_ip : string;
  rc_port : Z;
  rc_tags : list string;
  check_interval_seconds : Z;
  check_timeout_seconds : Z
}.

(** Default member initialisers; [port] has none. *)
Definition RegisterConfig_default (indeterminate : Z) : RegisterConfig :=
  mkRegisterConfig "" "" indeterminate [] 10 2.

Record ServiceInstance := mkServiceInstance {
  si_id : string;
  si_ip : string;
  si_port : Z;
  si_metadata : list (string * string);
  si_tags : list string
}.
Definition ServiceInstance_GetAddress (i : ServiceInstance) : string := si_ip i +:+ ":" +:+ to_string (si_port i).

Record ConsulConfig := mkConsulConfig { consul_ip : string; consul_port : Z }.
Definition ConsulConfig_GetAddress (c : ConsulConfig) : string := consul_ip c +:+ ":" +:+ to_string (consul_port c).

(** ** The libraries *)

(** [ppconsul::Consul]: PUT with a body, GET; the address is the agent's. *)
Class ConsulLib (W : Type) := {
  consul_put : string → string → string → M W ();
  consul_get : string → string → M W string
}.

(** Reading arrays, nulls and containers: iteration, [is_null], [is_object],
    [get<std::vector<std::string>>], [get<std::map<std::string, std::string>>],
    and the throwing [parse]. *)
Class JsonReader `{JsonLib} := {
  json_items : json → list json;
  json_is_null : json → bool;
  json_is_object : json → bool;
  json_get_strings : json → outcome (list string);
  json_get_map : json → outcome (list (string * string));
  json_parse_throwing : string → outcome json
}.

Section registry.
Context `{JsonReader} {W : Type} `{ConsulLib W}.

(** ** Operations *)

Record ConsulRegistry := mkConsulRegistry { consul_ : string; current_service_id_ : string }.

Definition ConsulRegistry_make (consul_config : ConsulConfig) : ConsulRegistry :=
  mkConsulRegistry (ConsulConfig_GetAddress consul_config) "".

(** [this] and the world. *)
Abbreviation RW := (ConsulRegistry * W)%type.
Definition the_world {A} (m : ConsulRegistry → M W A) : M RW A := fun '(r, w) =>
  let '(o, w') := m r w in (o, (r, w')).
Definition set_id (id : string) : M RW () := modifyM (λ x, (mkConsulRegistry (consul_ x.1) id, x.2)).

Definition service_id (config : RegisterConfig) : string :=
  service_name config +:+ "-" +:+ rc_ip config +:+ "-" +:+ to_string (rc_port config).

Definition register_payload (id : string) (config : RegisterConfig) : json :=
  json_object
    [("ID", json_string id);
     ("Name", json_string (service_name config));
     ("Address", json_string (rc_ip config));
     ("Port", json_int (rc_port config));
     ("Tags", json_array (json_string <$> rc_tags config));
     ("Check", json_object
        [("TCP", json_string (rc_ip config +:+ ":" +:+ to_string (rc_port config)));
         ("Interval", json_string (to_string (check_interval_seconds config) +:+ "s"));
         ("Timeout", json_string (to_string (check_timeout_seconds config) +:+ "s"));
         ("DeregisterCriticalServiceAfter", json_string "60s")])].

Definition Register (config : RegisterConfig) : M RW () :=
  do* set_id (service_id config) in
  let* this := getM in
  let* body := liftO (json_dump (register_payload (current_service_id_ this.1) config)) in
  the_world (λ r, consul_put (consul_ r) "/v1/agent/service/register" body).

Definition Deregister : M RW () :=
  let* this := getM in
  if str_empty (current_service_id_ this.1) then retM ()
  else
    tryM
      (do* the_world (λ r, consul_put (consul_ r)
             ("/v1/agent/service/deregister/" +:+ current_service_id_ this.1) "") in
       set_id "")
      is_std_exception (λ _, retM ()).

(** [j[key]] on a constant object: a missing key is undefined behaviour. *)
Definition const_index (j : json) (k : string) : outcome json :=
  if json_contains j k then Ret (json_index j k)
  else Throw (if json_is_object j then Exn non_std_exception "undefined behaviour"
              else Exn json_exception "cannot use operator[] with a string argument").

(** An optional member: [s.contains(k) && !s[k].is_null()]. *)
Definition present (s : json) (k : string) : bool :=
  json_contains s k && negb (json_is_null (json_index s k)).

Definition parse_instance (item : json) : outcome ServiceInstance :=
  let+ s := const_index item "Service" in
  let+ jid := const_index s "ID" in
  let+ id := json_get_string jid in
  let+ jip := const_index s "Address" in
  let+ ip := json_get_string jip in
  let+ jport := const_index s "Port" in
  let+ port := json_get_int jport in
  let+ tags := if present s "Tags" then json_get_strings (json_index s "Tags") else Ret [] in
  let+ metadata := if present s "Meta" then json_get_map (json_index s "Meta") else Ret [] in
  Ret (mkServiceInstance id ip port metadata tags).

(** The loop over the parsed array: [instances] grows until an item fails. *)
Fixpoint parse_instances (items : list json) (instances : list ServiceInstance)
    : list ServiceInstance * option exn :=
  match items with
  | [] => (instances, None)
  | item :: items =>
      match parse_instance item with
      | Ret i => parse_instances items (instances ++ [i])%list
      | Throw e => (instances, Some e)
      | Pending => (instances, None)
      end
  end.

Definition Discover (name : string) : M RW (list ServiceInstance) :=
  let* got := tryM (let* body := the_world (λ r, consul_get (consul_ r)
                       ("/v1/health/service/" +:+ name +:+ "?passing=true")) in
                    if str_empty body then retM ([], None)
                    else let* j := liftO (json_parse_throwing body) in
                         retM (parse_instances (json_items j) []))
                is_std_exception (λ e, retM ([], Some e)) in
  match got with
  | (instances, Some e) => if is_std_exception e then retM instances else throwM e
  | (instances, None) => retM instances
  end.
End registry.

(** ** Lemmas *)
Section lemmas.
Context `{JsonReader} {W : Type} `{ConsulLib W}.
Implicit Types (r : ConsulRegistry) (w : W).

Lemma service_id_nonempty config : str_empty (service_id config) = false.
Proof.
  unfold str_empty, service_id. apply bool_decide_eq_false_2.
  by destruct (service_name config).
Qed.

(** One Deregister with an id set. *)
Lemma Deregister_run r w :
  str_empty (current_service_id_ r) = false →
  Deregister (r, w)
  = match consul_put (consul_ r) ("/v1/agent/service/deregister/" +:+ current_service_id_ r) "" w with
    | (Ret _, w') => (Ret (), (mkConsulRegistry (consul_ r) "", w'))
    | (Throw e, w') => if is_std_exception e then (Ret (), (r, w')) else (Throw e, (r, w'))
    | (Pending, w') => (Pending, (r, w'))
    end.
Proof.
  intros Hid. unfold Deregister, bindM, getM, tryM, the_world, set_id, modifyM. cbn [fst snd].
  rewrite Hid. unfold bindM.
  by destruct (consul_put _ _ _ w) as [[[]|e|] w'].
Qed.

Lemma Deregister_cleared r w : current_service_id_ r = "" → Deregister (r, w) = (Ret (), (r, w)).
Proof. intros Hid. unfold Deregister, bindM, getM. cbn [fst snd]. by rewrite Hid. Qed.

Lemma Register_run r w config :
  Register config (r, w)
  = let r' := mkConsulRegistry (consul_ r) (service_id config) in
    match json_dump (register_payload (service_id config) config) with
    | Ret body => let '(o, w') := consul_put (consul_ r) "/v1/agent/service/register" body w in (o, (r', w'))
    | Throw e => (Throw e, (r', w))
    | Pending => (Pending, (r', w))
    end.
Proof.
  unfold Register, bindM, set_id, modifyM, getM, liftO, the_world. cbn [fst snd consul_ current_service_id_].
  by destruct (json_dump _) as [body|e|].
Qed.

(** Parsing stops at the first item that fails and keeps those before it. *)
Lemma parse_instances_prefix items got :
  ∃ k found, (k ≤ length items)%nat
    ∧ parse_instance <$> take k items = Ret <$> found
    ∧ (parse_instances items got).1 = (got ++ found)%list
    ∧ ((parse_instances items got).2 = None → (∀ i, i ∈ items → parse_instance i ≠ Pending) → k = length items).
Proof.
  revert got. induction items as [|item items IH]; intros got; simpl.
  { exists 0%nat, []. split_and!; [done|done|by rewrite app_nil_r|done]. }
  destruct (parse_instance item) as [x|e|] eqn:E.
  - destruct (IH (got ++ [x])%list) as (k & found & Hk & Hm & Hl & Hd).
    exists (S k), (x :: found). split_and!; [lia|by rewrite firstn_cons, !fmap_cons, E, Hm| |].
    + by rewrite Hl, <- (assoc_L (++)%list).
    + intros Hn Hp. f_equal. apply Hd; [done|]. intros i Hi. apply Hp. by right.
  - exists 0%nat, []. split_and!; [lia|done|by rewrite app_nil_r|done].
  - exists 0%nat, []. split_and!; [lia|done|by rewrite app_nil_r|].
    intros _ Hp. exfalso. apply (Hp item); [by left|done].
Qed.

Lemma parse_instances_ok items got :
  (∀ i, i ∈ items → ∃ x, parse_instance i = Ret x) → (parse_instances items got).2 = None.
Proof.
  revert got. induction items as [|item items IH]; intros got Hall; [done|]. simpl.
  destruct (Hall item) as [x ->]; [by left|]. apply IH. intros i Hi. apply Hall. by right.
Qed.
End lemmas.

(** ** Properties *)
Section properties.
Context `{JsonReader} {W : Type} `{ConsulLib W}.

(** C40: what was registered is what gets deregistered, once.  After Register,
    however it ended, the registry holds the id "name-ip-port"; the next
    Deregister, in any later world, sends one request for exactly that id, lets
    no [std::exception] out, forgets the id when the request succeeded, so that
    a further Deregister sends nothing, and keeps it for another try when the
    request failed. *)
Theorem Register_then_Deregister (config : RegisterConfig) (r r1 r2 : ConsulRegistry) (w w1 w2 w3 : W) o o2
    (Hreg : Register config (r, w) = (o, (r1, w1))) (Hfin : o ≠ Pending)
    (Hder : Deregister (r1, w2) = (o2, (r2, w3))) (Hfin2 : o2 ≠ Pending) :
  let put := consul_put (consul_ r) ("/v1/agent/service/deregister/" +:+ service_name config +:+ "-" +:+
               rc_ip config +:+ "-" +:+ to_string (rc_port config)) "" w2 in
  w3 = put.2
  ∧ match put.1 with
    | Ret _ => o2 = Ret () ∧ ∀ w4, Deregister (r2, w4) = (Ret (), (r2, w4))
    | Throw e => current_service_id_ r2 = service_id config ∧ (is_std_exception e = true → o2 = Ret ())
    | Pending => False
    end.
Proof.
  assert (r1 = mkConsulRegistry (consul_ r) (service_id config)) as ->.
  { rewrite Register_run in Hreg. cbv zeta in Hreg. destruct (json_dump _) as [body|e|]; [|by injection Hreg..].
    destruct (consul_put _ _ body w). by injection Hreg. }
  rewrite Deregister_run in Hder by apply service_id_nonempty. simpl in Hder.
  unfold service_id in Hder at 1. destruct (consul_put _ _ "" w2) as [[[]|e|] w'] eqn:E; simpl.
  - injection Hder as <- <- <-. split; [done|]. split; [done|]. intros w4. by apply Deregister_cleared.
  - destruct (is_std_exception e); injection Hder as <- <- <-; by split.
  - injection Hder as <- <- <-. done.
Qed.

(** Discovery is best effort and never fails with a [std::exception]: it
    leaves the registry alone, and returns nothing when the request failed, the
    body was empty or not JSON, and otherwise the instances of the leading items
    that could be read, in order: all of them when every item is well formed. *)
Theorem Discover_best_effort (name : string) (r r' : ConsulRegistry) (w w' : W) o
    (Hrun : Discover name (r, w) = (o, (r', w'))) :
  r' = r ∧ match o with
           | Pending => True
           | Throw e => is_std_exception e = false
           | Ret found => found = [] ∨ ∃ body j k,
               consul_get (consul_ r) ("/v1/health/service/" +:+ name +:+ "?passing=true") w = (Ret body, w')
               ∧ json_parse_throwing body = Ret j ∧ (k ≤ length (json_items j))%nat
               ∧ parse_instance <$> take k (json_items j) = Ret <$> found
               ∧ ((∀ i, i ∈ json_items j → ∃ x, parse_instance i = Ret x) → k = length (json_items j))
           end.
Proof.
  unfold Discover in Hrun.
  unfold bindM at 1, tryM, bindM at 1, the_world in Hrun. cbv beta iota in Hrun.
  destruct (consul_get _ _ w) as [[body|e|] w1] eqn:Eg; simpl in Hrun.
  - destruct (str_empty body); [injection Hrun as <- <- <-; split; [done|by left]|].
    unfold bindM, liftO in Hrun. destruct (json_parse_throwing body) as [j|e|] eqn:Ej; simpl in Hrun.
    + destruct (parse_instances_prefix (json_items j) []) as (k & found & Hk & Hm & Hl & Hd).
      destruct (parse_instances (json_items j) []) as [l oe] eqn:Ep. simpl in Hl, Hd. subst l.
      assert ((∀ i, i ∈ json_items j → ∃ x, parse_instance i = Ret x) → k = length (json_items j)) as Hall.
      { intros Hx. apply Hd.
        - pose proof (parse_instances_ok (json_items j) [] Hx) as Hok. by rewrite Ep in Hok.
        - intros i [x ->]%Hx. done. }
      destruct oe as [e|]; [destruct (is_std_exception e) eqn:Ee|]; injection Hrun as <- <- <-;
        (split; [done|]); first [done|right; by exists body, j, k].
    + destruct (is_std_exception e) eqn:Ee; simpl in Hrun; [rewrite ?Ee in Hrun|]; injection Hrun as <- <- <-;
        (split; [done|]); [by left|done].
    + by injection Hrun as <- <- <-.
  - destruct (is_std_exception e) eqn:Ee; simpl in Hrun; [rewrite ?Ee in Hrun|]; injection Hrun as <- <- <-;
      (split; [done|]); [by left|done].
  - by injection Hrun as <- <- <-.
Qed.
End properties.

(** ** A Consul agent to evaluate

    The agent is a list of the requests it got; every request succeeds. *)
#[local] Instance toy_consul : ConsulLib (list (string * string)) := {|
  consul_put _ path body := fun w => (Ret (), (w ++ [(path, body)])%list);
  consul_get _ path := fun w => (Ret "", (w ++ [(path, "")])%list)
|}.

#[export] Instance json_tree_reader : JsonReader := {|
  json_items t := match t with GenNode 0 l => l | _ => [] end;
  json_is_null t := match t with GenNode 2 _ => true | _ => false end;
  json_is_object t := match t with GenNode 1 _ => true | _ => false end;
  json_get_strings t := json_error "type must be array";
  json_get_map t := json_error "type must be object";
  json_parse_throwing s := match json_parse s with Some j => Ret j | None => json_error "parse error" end
|}.

Definition toy_config : RegisterConfig := mkRegisterConfig "user-service" "172.31.30.185" 50051 ["v1"] 10 2.
Definition toy_registry : ConsulRegistry := ConsulRegistry_make (mkConsulConfig "127.0.0.1" 8500).
Definition toy_registered := Register toy_config (toy_registry, []).

Lemma Register_then_Deregister_witness :
  let put := consul_put "127.0.0.1:8500" "/v1/agent/service/deregister/user-service-172.31.30.185-50051" ""
               ([] : list (string * string)) in
  [("/v1/agent/service/deregister/user-service-172.31.30.185-50051", "")] = put.2
  ∧ match put.1 with
    | Ret _ => Ret () = Ret () ∧ ∀ w4 : list (string * string),
        Deregister (toy_registry, w4) = (Ret (), (toy_registry, w4))
    | Throw e => current_service_id_ toy_registry = service_id toy_config
                 ∧ (is_std_exception e = true → Ret () = Ret ())
    | Pending => False
    end.
Proof.
  apply (Register_then_Deregister toy_config toy_registry (toy_registered.2).1 toy_registry [] (toy_registered.2).2
           [] _ (Ret ()) (Ret ())).
  - reflexivity.
  - discriminate.
  - reflexivity.
  - discriminate.
Defined.

Lemma Discover_best_effort_witness :
  toy_registry = toy_registry ∧ (([] : list ServiceInstance) = [] ∨ ∃ body j k,
    consul_get "127.0.0.1:8500" "/v1/health/service/user-service?passing=true" ([] : list (string * string))
      = (Ret body, [("/v1/health/service/user-service?passing=true", "")])
    ∧ json_parse_throwing body = Ret j ∧ (k ≤ length (json_items j))%nat
    ∧ parse_instance <$> take k (json_items j) = Ret <$> []
    ∧ ((∀ i, i ∈ json_items j → ∃ x, parse_instance i = Ret x) → k = length (json_items j))).
Proof.
  apply (Discover_best_effort "user-service" toy_registry toy_registry []
           [("/v1/health/service/user-service?passing=true", "")] (Ret [])).
  reflexivity.
Defined.
