(* ===== verification/Service.v ===== *)
(** * Service: the RPC server with its five methods

    The managers UserServiceServer holds (server/user_service_server.h), one per
    method, as the instance of RpcServer that SeedCallData starts from the
    configuration; what its replies may say, end to end, however the calls of its
    coroutines interleave; and that every request gets one. *)

From stdpp Require Import base tactics option strings numbers relations list gmap finite.
From S2P Require Import Prelude Programs Text Registry AppConfig Model JsonLib JsonTree User RedisLib RedisClient.
From S2P Require Import Interfaces Utils JwtUtil.
From S2P Require Import CodeRepository UserRepository AuthService BasicUserService Coroutines CallData Handlers.
From S2P Require Import RpcServer Stack Responsive.

Open Scope string_scope.
Open Scope Z_scope.
Open Scope photon_scope.

(** ** The five methods, in the order in which SeedCallData starts them *)
Inductive rpc_method := RpcRegister | RpcSendCode | RpcLoginByPassword | RpcLoginByCode | RpcGetUserInfo.

#[export] Instance rpc_method_eq_dec : EqDecision rpc_method.
Proof. solve_decision. Defined.

#[export, program] Instance rpc_method_finite : Finite rpc_method := {|
  enum := [RpcRegister; RpcSendCode; RpcLoginByPassword; RpcLoginByCode; RpcGetUserInfo]
|}.
Next Obligation. by apply (bool_decide_unpack _). Qed.
Next Obligation. intros []; by apply (bool_decide_unpack _). Qed.

Definition request_of (m : rpc_method) : Type :=
  match m with
  | RpcRegister => proto.RegisterRequest
  | RpcSendCode => proto.SendCodeRequest
  | RpcLoginByPassword => proto.LoginByPasswordRequest
  | RpcLoginByCode => proto.LoginByCodeRequest
  | RpcGetUserInfo => proto.GetUserInfoRequest
  end.

Definition response_of (m : rpc_method) : Type :=
  match m with
  | RpcRegister => proto.RegisterResponse
  | RpcSendCode => proto.SendCodeResponse
  | RpcLoginByPassword | RpcLoginByCode => proto.LoginResponse
  | RpcGetUserInfo => proto.GetUserInfoResponse
  end.

(** Which CallData a manager's template argument names. *)
#[export] Instance manager_call_data {W} `{IAuthService W} `{IBasicUserService W} (m : rpc_method) :
    SpecificCallData (request_of m) (response_of m) W :=
  match m with
  | RpcRegister => RegisterCallData
  | RpcSendCode => SendCodeCallData
  | RpcLoginByPassword => LoginByPasswordCallData
  | RpcLoginByCode => LoginByCodeCallData
  | RpcGetUserInfo => GetUserInfoCallData
  end.

(** The sizes SeedCallData gives the managers; [size_t] of an [int] that is not
    negative. *)
Definition initial_size (l : RpcLimitsConfig) (m : rpc_method) : nat :=
  Z.to_nat match m with
           | RpcRegister => register_num l
           | RpcSendCode => send_code_num l
           | RpcLoginByPassword => login_pw_num l
           | RpcLoginByCode => login_code_num l
           | RpcGetUserInfo => get_user_info_num l
           end.

(** *** The managers: which method of which gRPC service each of them asks for

    [RequestX] of the generated AsyncService puts the CallData at place [i] of
    the manager's pool among those that wait for a call of X. *)
Abbreviation queues := (RpcServer.queues rpc_method).

Definition RequestMethod (m : rpc_method) (i : nat) (q : queues) : queues :=
  with_requested (requested q ++ [(m, i)])%list q.

Definition RegisterCallDataManager_SpecificRegisterCallDataToCQ (call_data : nat) (q : queues) : queues :=
  RequestMethod RpcRegister call_data q.
Definition SendCodeCallDataManager_SpecificRegisterCallDataToCQ (call_data : nat) (q : queues) : queues :=
  RequestMethod RpcSendCode call_data q.
Definition LoginByPasswordCallDataManager_SpecificRegisterCallDataToCQ (call_data : nat) (q : queues) : queues :=
  RequestMethod RpcLoginByPassword call_data q.
Definition LoginByCodeCallDataManager_SpecificRegisterCallDataToCQ (call_data : nat) (q : queues) : queues :=
  RequestMethod RpcLoginByCode call_data q.
Definition GetUserInfoCallDataManager_SpecificRegisterCallDataToCQ (call_data : nat) (q : queues) : queues :=
  RequestMethod RpcGetUserInfo call_data q.

(** The static polymorphism of RegisterCallDataToCQ. *)
Definition RegisterCallDataToCQ (m : rpc_method) : nat → queues → queues :=
  match m with
  | RpcRegister => RegisterCallDataManager_SpecificRegisterCallDataToCQ
  | RpcSendCode => SendCodeCallDataManager_SpecificRegisterCallDataToCQ
  | RpcLoginByPassword => LoginByPasswordCallDataManager_SpecificRegisterCallDataToCQ
  | RpcLoginByCode => LoginByCodeCallDataManager_SpecificRegisterCallDataToCQ
  | RpcGetUserInfo => GetUserInfoCallDataManager_SpecificRegisterCallDataToCQ
  end.

(** Start of a manager of [initial_size] CallData, and the five of them in the
    order of SeedCallData. *)
Definition Manager_Start (m : rpc_method) (initial_size : nat) (q : queues) : queues :=
  foldl (λ q i, RegisterCallDataToCQ m i q) q (seq 0 initial_size).

Definition SeedCallData (l : RpcLimitsConfig) (q : queues) : queues :=
  let q := Manager_Start RpcRegister (Z.to_nat (register_num l)) q in
  let q := Manager_Start RpcSendCode (Z.to_nat (send_code_num l)) q in
  let q := Manager_Start RpcLoginByPassword (Z.to_nat (login_pw_num l)) q in
  let q := Manager_Start RpcLoginByCode (Z.to_nat (login_code_num l)) q in
  Manager_Start RpcGetUserInfo (Z.to_nat (get_user_info_num l)) q.

(** Every manager registers its CallData for its own method, as RpcServer has it. *)
Lemma managers_register_their_own m i q : RegisterCallDataToCQ m i q = SpecificRegisterCallDataToCQ (m, i) q.
Proof. by destruct m. Qed.

Lemma Manager_Start_requests m n q : Manager_Start m n q = Start_requests m n q.
Proof.
  unfold Manager_Start, Start_requests. revert q. induction (seq 0 n) as [|i l IH]; intros q; [done|].
  simpl. by rewrite managers_register_their_own, IH.
Qed.

Lemma SeedCallData_seeds l q : SeedCallData l q = RpcServer.SeedCallData (initial_size l) q.
Proof. unfold SeedCallData. by rewrite !Manager_Start_requests. Qed.

(** The server once Run has seeded it and started its worker threads. *)
Definition UserServiceServer_started {W} `{IAuthService W} `{IBasicUserService W} (c : AppConfig) (w : W)
    : @rpc rpc_method request_of response_of W :=
  started (initial_size (rpc_limits_config_ c)) (Z.to_nat (worker_threads (server_config_ c))) w.

(** ** What a reply stands for *)
Section justified.
Context `{ServiceLaws W} `{!CoUserRepository W} `{!CoVerificationCodeRepository W} `{!CoServiceLaws W}.

(** The reply is what the service answered to the request of this user, for what
    its calls [evs] saw (Coroutines.v). *)
Definition answered (m : rpc_method) (uid : string) (evs : list (W * W)) : request_of m → response_of m → Prop :=
  match m with
  | RpcRegister => λ rq reply, ∃ a, reply = register_reply a
      ∧ Register_answer (mkRegisterRequest (proto.reg_username rq) (proto.reg_password rq)
                           (proto.reg_phone_number rq) (proto.reg_code rq)) evs a
  | RpcSendCode => λ rq reply, ∃ a, reply = send_code_reply a
      ∧ SendCode_answer (mkSendCodeRequest (proto.sc_phone_number rq) (CodeUsage_cast (proto.sc_usage rq))) evs a
  | RpcLoginByPassword => λ rq reply, ∃ a, reply = login_response a
      ∧ LoginByPassword_answer (mkLoginByPasswordRequest (proto.lp_user_id rq) (proto.lp_password rq)) evs a
  | RpcLoginByCode => λ rq reply, ∃ a, reply = login_response a
      ∧ LoginByCode_answer (mkLoginByCodeRequest (proto.lc_phone_number rq) (proto.lc_code rq)) evs a
  | RpcGetUserInfo => λ _ reply, ∃ a, reply = info_reply a ∧ GetUserInfo_answer (mkGetUserInfoRequest uid) evs a
  end.

Definition needs_token (m : rpc_method) : bool := match m with RpcGetUserInfo => true | _ => false end.

(** For whom the method ran: whom the call's own token was verified to name. *)
Definition caller (O : W → Prop) (m : rpc_method) (md : list (string * string)) (uid : string) : Prop :=
  if needs_token m then ∃ w, O w ∧ names_user md w uid else uid = "".

(** Why a call gets this status and reply, in a run from [w0] whose worlds are the
    [O]: its token was refused; or an exception ended its coroutine; or its
    coroutine made the calls [evs], one after the other and all in this run, and
    the service answered for what they saw. *)
Inductive justified (w0 : W) (O : W → Prop) (m : rpc_method) (md : list (string * string)) (rq : request_of m) :
    Status → response_of m → Prop :=
| by_refusal w msg : needs_token m = true → O w →
    (PerformAuthentication (mkContext None md) w).1 = Ret (Unexpected (mkGrpcStatus UNAUTHENTICATED msg)) →
    justified w0 O m md rq (mkGrpcStatus UNAUTHENTICATED msg) ResponseType_new
| by_exception msg : justified w0 O m md rq (mkGrpcStatus INTERNAL msg) ResponseType_new
| by_service uid evs reply : caller O m md uid → chain evolves w0 evs → Forall (λ e, O e.1 ∧ O e.2) evs →
    answered m uid evs rq reply → justified w0 O m md rq Status_OK reply.

Lemma PerformAuthentication_context c c' md (w : W) :
  PerformAuthentication (mkContext c md) w = PerformAuthentication (mkContext c' md) w.
Proof. done. Qed.

Lemma PerformAuthentication_refuses ctx (w : W) st :
  (PerformAuthentication ctx w).1 = Ret (Unexpected st) → ∃ msg, st = mkGrpcStatus UNAUTHENTICATED msg.
Proof.
  unfold PerformAuthentication. destruct (metadata_find _ _); [|intros [= <-]; by eexists]. cbv zeta. unfold bindM.
  destruct (VerifyToken _ w) as [[[id|e]|e|] w']; [done| |done..]. intros [= <-]. by eexists.
Qed.

Context (O : W → Prop) (w0 : W) (Hw0 : store_ok w0).

(** The run of the service behind a run of a method's logic. *)
Lemma run_prefix (evs evs1 evs2 : list (W * W)) :
  evs = (evs1 ++ evs2)%list → chain evolves w0 evs → Forall (λ e, O e.1 ∧ O e.2) evs →
  chain evolves w0 evs1 ∧ Forall (λ e, O e.1 ∧ O e.2) evs1.
Proof. intros -> [Hc _]%chain_app [Hf _]%Forall_app; [done|apply _]. Qed.

(** What is common to the methods: [p] is the service's method, [g] makes the reply. *)
Lemma ran_justified {A} m md rq st (reply : response_of m) uid (p : prog W A) (g : A → response_of m) calls o
    (Hcaller : caller O m md uid) (Hrun : ran evolves O w0 uid rq calls reply (Done o))
    (Hst : match o with Ret _ => st = Status_OK | Throw ex => st = logic_status (Some ex) | Pending => False end)
    (Hreports : reports p g ResponseType_new calls o reply)
    (Hans : ∀ evs a, chain evolves w0 evs → Programs.exec p evs (Done (Ret a)) → answered m uid evs rq (g a)) :
  justified w0 O m md rq st reply.
Proof.
  destruct Hrun as (_ & _ & Hc & Hf). destruct Hreports as ([a|e|] & evs1 & evs2 & E & He & Ho).
  - destruct Ho as [-> ->]. rewrite Hst. destruct (run_prefix _ _ _ E Hc Hf) as [Hc1 Hf1].
    by apply (by_service _ _ _ _ _ uid evs1); [..|apply Hans].
  - destruct Ho as [-> ->]. rewrite Hst. apply by_exception.
  - by rewrite Ho in Hst.
Qed.

Lemma answer_justified m md (rq : request_of m) st (reply : response_of m) :
  answer evolves O w0 md rq st reply → justified w0 O m md rq st reply.
Proof.
  intros [[[Hk (c & w & _ & HO & Hp)] ->]|(uid & calls & o & Hau & Hrun & Hst)].
  - destruct (PerformAuthentication_refuses _ _ _ Hp) as [msg ->]. apply (by_refusal _ _ _ _ _ w); [|done|exact Hp].
    destruct m; done.
  - assert (caller O m md uid) as Hc.
    { unfold authorised in Hau. destruct m; try exact Hau. destruct Hau as (c & w & _ & HO & Hp).
      exists w. split; [done|]. exact (PerformAuthentication_names _ _ _ Hp). }
    pose proof Hrun as (Hex & Hfi & _). destruct m.
    + eapply (ran_justified RpcRegister); [done|exact Hrun|done|exact (Register_logic_reports uid rq _ _ _ Hex Hfi)|].
      intros evs a Hch He. exists a. split; [done|]. by eapply Register_answered.
    + eapply (ran_justified RpcSendCode); [done|exact Hrun|done|exact (SendCode_logic_reports uid rq _ _ _ Hex Hfi)|].
      intros evs a Hch He. exists a. split; [done|]. by eapply SendCode_answered.
    + eapply (ran_justified RpcLoginByPassword); [done|exact Hrun|done|exact (LoginByPassword_logic_reports uid rq _ _ _ Hex Hfi)|].
      intros evs a Hch He. exists a. split; [done|]. by eapply LoginByPassword_answered.
    + eapply (ran_justified RpcLoginByCode); [done|exact Hrun|done|exact (LoginByCode_logic_reports uid rq _ _ _ Hex Hfi)|].
      intros evs a Hch He. exists a. split; [done|]. by eapply LoginByCode_answered.
    + eapply (ran_justified RpcGetUserInfo); [done|exact Hrun|done|exact (GetUserInfo_logic_reports uid rq _ _ _ Hex Hfi)|].
      intros evs a Hch He. exists a. split; [done|]. by eapply GetUserInfo_answered.
Qed.

(** Every method of the service keeps to [evolves]. *)
Lemma methods_considerate m : Considerate (Req:=request_of m) (Rsp:=response_of m) evolves w0.
Proof.
  destruct m; (apply method_considerate; [|done]);
    [apply Register_logic_good|apply SendCode_logic_good|apply LoginByPassword_logic_good|apply LoginByCode_logic_good
    |apply GetUserInfo_logic_good].
Qed.
End justified.

(** ** Properties *)
Abbreviation server_step := (RpcServer.step_in evolves (λ _, True)).

Section properties.
Context `{ServiceLaws W} `{!CoUserRepository W} `{!CoVerificationCodeRepository W} `{!CoServiceLaws W}.

(** [w] is the world at some moment of a run from [s0] to [s]. *)
Definition occurs (s0 s : @rpc rpc_method request_of response_of W) (w : W) : Prop :=
  ∃ s1, rtc server_step s0 s1 ∧ rtc server_step s1 s ∧ the_world s1 = w.

(** The server never loses an account. *)
Lemma server_world (c : AppConfig) (w : W) s :
  store_ok w → rtc server_step (UserServiceServer_started c w) s → evolves w (the_world s).
Proof.
  intros Hw Hrun. pose proof (reachable_sim _ _ _ _ _ _ (methods_considerate w Hw) Hrun) as Hs.
  by apply (view_from_start _ _ _ _ (HE:=methods_considerate w Hw) _ RpcRegister Hs).
Qed.

Definition keeps_world (h : @RpcServer.happening rpc_method request_of W) : bool :=
  match h with WorldChanges _ => false | _ => true end.

Lemma happen_all_server hs (s s' : @rpc rpc_method request_of response_of W) :
  RpcServer.happen_all hs s = Some s' → forallb keeps_world hs = true → rtc server_step s s'.
Proof.
  revert s. induction hs as [|h hs IH]; intros s; simpl; [by intros [= ->]|].
  intros (s1 & Hs1 & Hs')%bind_Some [Hk Hks]%andb_true_iff. eapply rtc_l; [|by apply IH].
  split; [|done]. exists h. split; [done|]. by intros w ->.
Qed.

(** C1: nobody gets from the service what is not theirs, end to end.  However
    the worker threads, gRPC, the shutdown and the single calls that the coroutines
    of the five methods make interleave, and whatever the rest of the process and
    of the system does to the store meanwhile, as long as it stays sound and loses
    no account, every reply went to an accepted call of its method and is
    justified by that very call: a bad token was refused, or an exception
    became INTERNAL with an empty reply, or the service answered for what the
    coroutine's own calls saw in this run, on every branch: a login token was
    issued while the account was there whose password, or whose number's stored
    code, this call gave; a profile is that of the user the call's own token was
    verified to name, as it was at the lookup; a registration gave the code stored
    for a number without an account, and its own call made the account; a code was
    saved for the call's number and usage. *)
Theorem replies_are_justified (c : AppConfig) (w : W) (s : @rpc rpc_method request_of response_of W)
    (m : rpc_method) (r : @reply_sent (response_of m))
    (Hw : store_ok w) (Hrun : rtc server_step (UserServiceServer_started c w) s)
    (Hr : r ∈ replies (mgr s m)) :
  ∃ k md rq, re_call r = Some k ∧ calls (mgr s m) !! k = Some (md, rq)
    ∧ justified w (occurs (UserServiceServer_started c w) s) m md rq (re_status r) (re_reply r).
Proof.
  set (O := occurs (UserServiceServer_started c w) s).
  assert (rtc (RpcServer.step_in evolves O) (UserServiceServer_started c w) s) as Hrun'.
  { eapply rtc_subrel; [|exact (rtc_visits _ _ _ Hrun)]. intros s1 s2 (Hstep & Hto & Hfrom).
    pose proof Hstep as (Hh & _). split; [exact Hh|]. split; [exists s1|exists s2]; (split; [|split; [|done]]).
    - exact Hto.
    - by eapply rtc_l.
    - by eapply rtc_r.
    - exact Hfrom. }
  pose proof (s_view _ _ _ _ _ (reachable_sim _ _ _ _ _ _ (methods_considerate w Hw) Hrun') m) as Hview.
  pose proof (methods_considerate w Hw m) as Hcons.
  pose proof (replies_answered _ _ _ _ _ Hview) as Hall. rewrite Forall_forall in Hall.
  destruct (Hall r Hr) as (_ & k & md & rq & Hc & Hacc & Hans).
  exists k, md, rq. split_and!; [done..|]. by apply answer_justified.
Qed.
(** The methods make at most ten calls, which return or throw. *)
Lemma methods_finish `{!Responsive W} m uid (rq : request_of m) :
  bounded 10 (RunSpecificLogic (Rsp:=response_of m) uid rq) ∧ returns (RunSpecificLogic (Rsp:=response_of m) uid rq).
Proof.
  destruct m.
  - split; [apply (bounded_more 9); [lia|apply Register_logic_bounded]|apply Register_logic_returns].
  - split; [apply (bounded_more 6); [lia|apply SendCode_logic_bounded]|apply SendCode_logic_returns].
  - split; [apply LoginByPassword_logic_bounded|apply LoginByPassword_logic_returns].
  - split; [apply (bounded_more 7); [lia|apply LoginByCode_logic_bounded]|apply LoginByCode_logic_returns].
  - split; [apply (bounded_more 9); [lia|apply GetUserInfo_logic_bounded]|apply GetUserInfo_logic_returns].
Qed.

(** C8: every request is answered.  With at least one worker thread, if every
    call on a collaborator of the services returns or throws (for the assembled
    service: if Redis and the database answer, Responsive.v), then from any
    reachable state of the server whose queue was not shut down, as long as no new
    call comes in, at most [weight] steps can be taken by worker threads, coroutines
    and gRPC, in whatever order, and when none is left every worker waits in Next,
    every CallData of the five methods is as new and registered for the next call,
    and every call accepted was answered. *)
Theorem service_settles `{!Responsive W} (c : AppConfig) (w : W) (s : @rpc rpc_method request_of response_of W)
    (Hthreads : 0 < worker_threads (server_config_ c))
    (Hrun : rtc RpcServer.step (UserServiceServer_started c w) s) (Hopen : cq_down s = false) :
  (∀ k s', nsteps quiet k s s' → (k ≤ weight 10 s)%nat)
  ∧ ∀ s', rtc quiet s s' → (∀ s'', ¬ quiet s' s'') →
      worker_threads_ (the_queues s') = replicate (Z.to_nat (worker_threads (server_config_ c))) InNext
      ∧ ∀ m, pool_ (mgr s' m) = replicate (initial_size (rpc_limits_config_ c) m) CallData_make
          ∧ ∀ k, (k < length (calls (mgr s' m)))%nat → Some k ∈ re_call <$> replies (mgr s' m).
Proof. eapply rpc_settles; [exact VerifyToken_answers|exact methods_finish|lia|exact Hrun|exact Hopen]. Qed.
End properties.

(** ** Witness

    One CallData per method.  Alice asks for her profile while a login under her
    id gives a wrong password; their coroutines take turns, and in between Redis
    restarts empty, so the profile is read from the database. *)
#[local] Existing Instances SecurityUtil.toy_crypto SecurityUtil.toy_crypto_laws toy_jwt.
#[local] Instance service_ids : IIDGenerator demo_world := stack_ids SecurityUtil.hex.
#[local] Instance service_jwt : IJwtUtil demo_world := stack_jwt example_jwt.
#[local] Instance service_laws : ServiceLaws demo_world := stack_service_laws SecurityUtil.hex example_jwt.
#[local] Instance service_co_laws : CoServiceLaws demo_world := stack_co_laws SecurityUtil.hex example_jwt.

#[local] Instance service_responsive : Responsive demo_world.
Proof.
  apply stack_responsive.
  - intros c req w. simpl. unfold toy_exec. by destruct (rt_up w).
  - intros c req w. simpl. unfold toy_exec. by destruct (rt_up w).
  - intros u w. simpl. unfold memory_create. by destruct (existsb _ _).
  - done.
  - done.
Qed.

Definition small_config : AppConfig :=
  mkAppConfig (server_config_ shipped_config) (mkRpcLimitsConfig 1 1 1 1 1) (consul_config_ shipped_config)
    (redis_config_ shipped_config) (db_pool_config_ shipped_config) (jwt_config_ shipped_config).

Definition bearer : list (string * string) := [("authorization", "Bearer " +:+ login_token login_result)].

Abbreviation service_rpc := (@rpc rpc_method request_of response_of demo_world).
Abbreviation service_happening := (@RpcServer.happening rpc_method request_of demo_world).
Definition service_start : service_rpc := UserServiceServer_started small_config demo.

Definition both_asked : list service_happening :=
  [ CallArrives RpcGetUserInfo 0 bearer proto.mkGetUserInfoRequest;
    CallArrives RpcLoginByPassword 0 [] (proto.mkLoginByPasswordRequest "u1" "guess");
    NextGives 0 (RpcGetUserInfo, 0%nat) true; NextGives 1 (RpcLoginByPassword, 0%nat) true;
    WorkerGoes 1; WorkerGoes 0; WorkerGoes 0; WorkerGoes 1; AsioGoes 0; AsioGoes 0; AsioGoes 0;
    AsioGoes 0; AsioGoes 0 ].
Definition both_answered : list service_happening := replicate 16 (AsioGoes 0).

Definition service_after (hs : list service_happening) (s : service_rpc) : service_rpc := default s (RpcServer.happen_all hs s).
Definition asked : service_rpc := service_after both_asked service_start.
Definition redis_restarted : service_rpc := service_after [WorldChanges (restarted (the_world asked))] asked.
Definition answered_both : service_rpc := service_after both_answered redis_restarted.

Definition guess_reply : @reply_sent proto.LoginResponse :=
  mkSent (Some 0%nat) ResponderReady Status_OK
    (proto.mkLoginResponse (Some (proto.mkCommonStatus 2003 "密码错误")) "").
Definition alice_reply : @reply_sent proto.GetUserInfoResponse :=
  mkSent (Some 0%nat) ResponderReady Status_OK
    (proto.mkGetUserInfoResponse (Some (proto_status Success))
       (Some (proto.mkUser "u1" "alice" "" "" "13800000000"))).

Example service_replies :
  replies (mgr answered_both RpcLoginByPassword) = [guess_reply]
  ∧ replies (mgr answered_both RpcGetUserInfo) = [alice_reply].
Proof. split; vm_compute; reflexivity. Qed.

Definition plays (hs : list service_happening) (s : service_rpc) : bool :=
  match RpcServer.happen_all hs s with Some _ => true | None => false end.

Lemma plays_steps hs s :
  plays hs s = true → forallb keeps_world hs = true → rtc server_step s (service_after hs s).
Proof.
  unfold plays, service_after. intros Hp Hk. destruct (RpcServer.happen_all hs s) as [s'|] eqn:E; [|done].
  by apply (happen_all_server hs).
Qed.

Lemma asked_run : rtc server_step service_start asked.
Proof. apply plays_steps; vm_compute; reflexivity. Qed.

Lemma service_run : rtc server_step service_start answered_both.
Proof.
  trans asked; [exact asked_run|]. eapply rtc_l; [|apply plays_steps; vm_compute; reflexivity].
  split; [|done]. exists (WorldChanges (restarted (the_world asked))). split; [reflexivity|]. intros w [= <-].
  apply (evolves_zoom repo_lens). apply forgets_evolves.
  - destruct (server_world small_config demo asked demo_ok asked_run) as (_ & Hok & _). exact Hok.
  - split; [done|]. split; [done|]. apply map_empty_subseteq.
Qed.

Lemma replies_are_justified_witness :
  ∃ k md rq, re_call alice_reply = Some k ∧ calls (mgr answered_both RpcGetUserInfo) !! k = Some (md, rq)
    ∧ justified demo (occurs service_start answered_both) RpcGetUserInfo md rq
        (re_status alice_reply) (re_reply alice_reply).
Proof.
  apply (replies_are_justified small_config demo answered_both RpcGetUserInfo alice_reply).
  - exact demo_ok.
  - exact service_run.
  - rewrite (proj2 service_replies). apply list_elem_of_here.
Defined.

Lemma service_settles_witness :
  (∀ k s', nsteps quiet k asked s' → (k ≤ weight 10 asked)%nat)
  ∧ ∀ s', rtc quiet asked s' → (∀ s'', ¬ quiet s' s'') →
      worker_threads_ (the_queues s') = replicate (Z.to_nat (worker_threads (server_config_ small_config))) InNext
      ∧ ∀ m, pool_ (mgr s' m) = replicate (initial_size (rpc_limits_config_ small_config) m) CallData_make
          ∧ ∀ k, (k < length (calls (mgr s' m)))%nat → Some k ∈ re_call <$> replies (mgr s' m).
Proof.
  apply (service_settles small_config demo asked).
  - reflexivity.
  - apply (rtc_subrel server_step); [by intros s1 s2 ((h & Hh & _) & _); exists h|exact asked_run].
  - vm_compute. reflexivity.
Defined.
