(* ===== verification/ServedCodes.v ===== *)
(** * ServedCodes: no code is accepted that the server did not send

    The guarantee of Codes.v, of the whole server: through the worker threads, the
    completion queue and the coroutines on the asio threads, every code that got a
    login or a registration past its check is traced back to the call of SendCode
    whose logic generated and stored it. *)

From stdpp Require Import base tactics option strings numbers relations list gmap finite.
From S2P Require Import Prelude Programs Text Registry AppConfig Model JsonLib JsonTree User RedisLib RedisClient.
From S2P Require Import Interfaces Utils JwtUtil CodeRepository UserRepository AuthService BasicUserService Coroutines Codes.
From S2P Require Import CallData Handlers RpcServer Stack Concurrent Responsive Service.

Open Scope string_scope.
Open Scope Z_scope.
Open Scope photon_scope.

(** ** What the logic of a call does to the codes *)

(** The service's request behind a call. *)
Definition service_request (m : rpc_method) (uid : string) : request_of m → service_call :=
  match m with
  | RpcRegister => λ rq, CallRegister (mkRegisterRequest (proto.reg_username rq) (proto.reg_password rq)
                                         (proto.reg_phone_number rq) (proto.reg_code rq))
  | RpcSendCode => λ rq, CallSendCode (mkSendCodeRequest (proto.sc_phone_number rq) (CodeUsage_cast (proto.sc_usage rq)))
  | RpcLoginByPassword => λ rq, CallLoginByPassword (mkLoginByPasswordRequest (proto.lp_user_id rq) (proto.lp_password rq))
  | RpcLoginByCode => λ rq, CallLoginByCode (mkLoginByCodeRequest (proto.lc_phone_number rq) (proto.lc_code rq))
  | RpcGetUserInfo => λ _, CallGetUserInfo (mkGetUserInfoRequest uid)
  end.

Section logic.
Context `{CodeStoreLaws W}.

(** What is left when the service has answered only fills the reply. *)
Definition fills {R} (p : prog (W * R) ()) : Prop := always (λ x x', x'.1 = x.1) p.

Lemma fills_edit {R} (f : R → R) : fills (edit_reply f).
Proof. apply always_call. by intros x o x' [= <- <-] _. Qed.

Lemma fills_then {R} (f : R → R) (p : prog (W * R) ()) : fills p → fills (do~ edit_reply f in p).
Proof. intros Hp. by apply always_bind; [apply fills_edit|]. Qed.

Lemma fills_if {R} (f : R → R) (b : bool) : fills (if b then edit_reply f else ret ()).
Proof. destruct b; [apply fills_edit|done]. Qed.

(** A call of a method's logic is one of the service's, or leaves the world alone. *)
Lemma after_service_events {A R} c (p : prog W A) (g : A → service_answer) (f : A → prog (W * R) ()) did q e :
  body c = (let~ r := p in ret (g r)) → (∀ a, fills (f a)) →
  Programs.exec (pbind (call_service p) f) did q → e ∈ worlds did → code_event c (worlds did) e.
Proof.
  intros Hb Hf Hx He.
  assert (∀ evs p', Programs.exec p evs p' → e ∈ evs → code_event c evs e) as Hev.
  { intros evs p' Hp. eapply body_code_events. rewrite Hb. exact (exec_bind_first _ _ _ _ Hp). }
  apply exec_bind_any in Hx as [(p' & Hx & _)|(a & did1 & did2 & -> & Hx & Hr)].
  - apply (exec_zoom_any service_lens) in Hx as (p1 & _ & Hx). by eapply Hev.
  - apply (exec_zoom_any service_lens) in Hx as (p1 & _ & Hx). unfold worlds in *. rewrite fmap_app in *.
    apply elem_of_app in He as [He|He].
    + eapply code_event_mono; [|by eapply Hev]. intros x. rewrite elem_of_app. auto.
    + left. apply list_elem_of_fmap in He as ([x x'] & -> & Hin). pose proof (always_exec _ _ _ _ (Hf a) Hr _ Hin) as E.
      simpl in *. rewrite E. split; [lia|done].
Qed.

Lemma logic_code_events m uid rq did q e :
  Programs.exec (RunSpecificLogic (Rsp:=response_of m) uid rq) did q → e ∈ worlds did →
  code_event (service_request m uid rq) (worlds did) e.
Proof.
  destruct m; (eapply after_service_events; [reflexivity|]); intros a.
  - apply fills_then, fills_edit.
  - apply fills_edit.
  - apply fills_then, fills_if.
  - apply fills_then, fills_if.
  - apply fills_then, fills_if.
Qed.
End logic.

(** ** The run of the server *)
Section run.
Context `{ServiceLaws W} `{!CoUserRepository W} `{!CoVerificationCodeRepository W} `{!CoServiceLaws W}
  `{!CodeStore W} `{!CodeStoreLaws W} (c : AppConfig) (w0 : W) (Hw0 : store_ok w0).
Abbreviation service := (@rpc rpc_method request_of response_of W).
Abbreviation start := (UserServiceServer_started c w0).

(** A step of the server; what else happens to the store keeps the accounts and
    brings no code. *)
Definition code_step (s s' : service) : Prop :=
  ∃ h, RpcServer.happen h s = Some s'
    ∧ ∀ w, h = WorldChanges w → evolves (the_world s) w ∧ forgets_codes (the_world s) w.

(** [w] is the world at some moment of a run from the start to [s]. *)
Definition passed (s : service) (w : W) : Prop := ∃ s1, rtc code_step start s1 ∧ rtc code_step s1 s ∧ the_world s1 = w.

(** An accepted call of SendCode for this number and usage ran its logic, whose
    calls, all made in this run, generated the code and, in [f], stored it at the
    time [since]. *)
Definition sent_by_call (s : service) (u : CodeUsage) (t cd : string) (since : Z) : Prop :=
  ∃ k md rq uid did q g f, calls (mgr s RpcSendCode) !! k = Some (md, rq)
    ∧ CodeUsage_cast (proto.sc_usage rq) = u ∧ proto.sc_phone_number rq = t
    ∧ Programs.exec (RunSpecificLogic (Rsp:=response_of RpcSendCode) uid rq) did q
    ∧ Forall (λ e, passed s e.1 ∧ passed s e.2) (worlds did)
    ∧ g ∈ worlds did ∧ Generate 6 g.1 = (Ret cd, g.2)
    ∧ f ∈ worlds did ∧ code_clock f.1 ≤ since ≤ code_clock f.2 ∧ code_entry f.2 u t = Some (cd, Some (since + 300)).

Definition codes_sent (s : service) : Prop :=
  ∀ u t x, code_entry (the_world s) u t = Some x →
    code_entry w0 u t = Some x
    ∨ ∃ since, sent_by_call s u t x.1 since ∧ x.2 = Some (since + 300) ∧ since ≤ code_clock (the_world s).

Lemma passed_later s s' w : rtc code_step s s' → passed s w → passed s' w.
Proof. intros Hrun (s1 & Hto & Hfrom & <-). exists s1. split; [done|]. split; [by trans s|done]. Qed.

Lemma code_run s : rtc code_step start s → rtc (RpcServer.step_in evolves (passed s)) start s.
Proof.
  intros Hrun. eapply rtc_subrel; [|exact (rtc_visits _ _ _ Hrun)]. intros s1 s2 (Hstep & Hto & Hfrom).
  pose proof Hstep as (h & Hh & Hw). split; [exists h; split; [done|by intros w Ew; apply Hw]|].
  split; [exists s1|exists s2]; (split; [|split; [|done]]); [done|by eapply rtc_l|by eapply rtc_r|done].
Qed.

Lemma code_sim s : rtc code_step start s → sim evolves (passed s) (initial_size (rpc_limits_config_ c)) w0 s.
Proof. intros Hrun. eapply reachable_sim, code_run, Hrun. by apply methods_considerate. Qed.

Lemma sent_by_call_later s s' u t cd since :
  rtc code_step start s → code_step s s' → sent_by_call s u t cd since → sent_by_call s' u t cd since.
Proof.
  intros Hrun Hstep (k & md & rq & uid & did & q & g & f & Hk & Hu & Ht & Hx & Hall & Hrest).
  exists k, md, rq, uid, did, q, g, f. pose proof Hstep as (h & Hh & _).
  destruct (happen_world _ _ _ _ _ _ _ (methods_considerate w0 Hw0) (code_sim s Hrun) Hh) as [Hcalls _].
  destruct (Hcalls RpcSendCode) as [l Hl]. split; [rewrite Hl; by apply lookup_app_l_Some|]. do 3 (split; [done|]).
  split; [|done]. eapply Forall_impl; [exact Hall|].
  intros e [? ?]. split; (eapply passed_later; [by apply rtc_once|done]).
Qed.

(** A step that brings no code. *)
Lemma codes_sent_forgets s s' :
  rtc code_step start s → code_step s s' → forgets_codes (the_world s) (the_world s') → codes_sent s → codes_sent s'.
Proof.
  intros Hrun Hstep [Hclock Hf] Hs u t x Hx. destruct (Hs u t x (Hf _ _ _ Hx)) as [?|(since & Hsent & Hd & Hle)]; [by left|].
  right. exists since. split; [by eapply sent_by_call_later|]. split; [done|lia].
Qed.

(** A step that brings the code its SendCode generated. *)
Lemma codes_sent_saves s s' k md rq uid did q g cd :
  rtc code_step start s → code_step s s' → calls (mgr s' RpcSendCode) !! k = Some (md, rq) →
  Programs.exec (RunSpecificLogic (Rsp:=response_of RpcSendCode) uid rq) did q →
  Forall (λ e, passed s' e.1 ∧ passed s' e.2) (worlds did) → (the_world s, the_world s') ∈ worlds did →
  g ∈ worlds did → Generate 6 g.1 = (Ret cd, g.2) →
  saves (CodeUsage_cast (proto.sc_usage rq)) (proto.sc_phone_number rq) cd 300 (the_world s) (the_world s') →
  codes_sent s → codes_sent s'.
Proof.
  intros Hrun Hstep Hk Hx Hall Hin Hg Hgen [Hclock Hsv] Hs u t x Hentry.
  destruct (Hsv u t x Hentry) as [Hold|(-> & -> & since & Hs1 & ->)].
  - destruct (Hs u t x Hold) as [?|(since & Hsent & Hd & Hle)]; [by left|].
    right. exists since. split; [by eapply sent_by_call_later|]. split; [done|lia].
  - right. exists since. split; [|split; [done|lia]].
    exists k, md, rq, uid, did, q, g, (the_world s, the_world s'). split_and!; try done; apply Hs1.
Qed.

Lemma codes_sent_step s s' : rtc code_step start s → code_step s s' → codes_sent s → codes_sent s'.
Proof.
  intros Hrun Hstep Hs. pose proof Hstep as (h & Hh & Hw). pose proof (code_sim s Hrun) as Hsim.
  assert (passed s' (the_world s) ∧ passed s' (the_world s')) as [Hr Hr'].
  { split; [exists s; split; [done|]; split; [by apply rtc_once|done]|]. exists s'. split; [by eapply rtc_r|done]. }
  assert (∀ w, the_world s' = w → forgets_codes (the_world s) w → codes_sent s') as Hforget.
  { intros w <- Hf. by apply (codes_sent_forgets s). }
  destruct (happen_world _ _ _ _ _ _ _ (methods_considerate w0 Hw0) Hsim Hh) as [_ [Eh|[Ew|(m & Hc)]]].
  - apply (Hforget _ eq_refl), Hw, Eh.
  - apply (Hforget _ Ew). split; [lia|done].
  - destruct Hc as [Ew|t o Ev Ho|k md rq uid did r r' q Hk Hx Hall].
    + apply (Hforget _ Ew). split; [lia|done].
    + apply (Hforget _ eq_refl). pose proof (VerifyToken_forgets t) as Hv. by apply (Hv _ _ _ Ev Ho).
    + set (did' := (did ++ [((the_world s, r), (the_world s', r'))])%list) in *.
      assert (worlds did' = (worlds did ++ [(the_world s, the_world s')])%list) as Ed by (unfold worlds, did'; by rewrite fmap_app).
      assert ((the_world s, the_world s') ∈ worlds did') as Hin by (rewrite Ed; apply elem_of_app; right; by left).
      destruct (logic_code_events m uid rq _ q _ Hx Hin) as [Hf|(req & cd & Em & (g & Hg & Hgen) & Hsv)]; [by apply (Hforget _ eq_refl)|].
      destruct m; try discriminate Em. injection Em as <-. eapply codes_sent_saves; try done.
      rewrite Ed. apply Forall_app. split; [|by apply Forall_singleton]. eapply Forall_impl; [exact Hall|].
      intros e [? ?]. split; (eapply passed_later; [by apply rtc_once|done]).
Qed.

Lemma reachable_codes_sent s : rtc code_step start s → codes_sent s.
Proof.
  intros Hrun. assert (rtc code_step start s ∧ codes_sent s) as [_ ?]; [|done].
  eapply (rtc_invariant code_step (λ s, rtc code_step start s ∧ codes_sent s)); [|exact Hrun|].
  - intros s1 s2 [Hr1 Hs1] Hstep. split; [by eapply rtc_r|by eapply codes_sent_step].
  - split; [done|]. intros u t x Hx. by left.
Qed.

Lemma run_sent s s' u t cd since :
  rtc code_step s s' → rtc code_step start s → sent_by_call s u t cd since → sent_by_call s' u t cd since.
Proof.
  induction 1 as [s|s s1 s' Hstep _ IH]; intros Hrun Hs; [done|].
  apply IH; [by eapply rtc_r|by eapply sent_by_call_later].
Qed.
End run.

(** ** Properties *)

Definition mismatch (st : option proto.CommonStatus) : bool :=
  bool_decide (proto.code <$> st = Some (ErrorCode_value VERIFICATION_CODE_MISMATCH)).

(** The code with which a call got past the check, with its usage and number. *)
Definition code_given (m : rpc_method) : request_of m → response_of m → option (CodeUsage * string * string) :=
  match m with
  | RpcRegister => λ rq rp,
      if mismatch (proto.reg_status rp) then None else Some (USER_REGISTER, proto.reg_phone_number rq, proto.reg_code rq)
  | RpcLoginByCode => λ rq rp,
      if mismatch (proto.login_status rp) then None else Some (USER_LOGIN, proto.lc_phone_number rq, proto.lc_code rq)
  | _ => λ _ _, None
  end.

Section properties.
Context `{ServiceLaws W} `{!CoUserRepository W} `{!CoVerificationCodeRepository W} `{!CoServiceLaws W}
  `{!CodeStore W} `{!CodeStoreLaws W}.

(** An answer other than a mismatch rests on a look-up that found the code. *)
Lemma answered_code m uid (evs : list (W * W)) rq rp u t cd :
  answered m uid evs rq rp → code_given m rq rp = Some (u, t, cd) → performed evs (co_GetCode u t) (Some cd).
Proof.
  destruct m; try done; simpl; intros (a & -> & stored & Hp & Ha); case_bool_decide as Hst.
  - subst stored. by destruct (mismatch _); [|intros [= <- <- <-]].
  - rewrite Ha. discriminate.
  - subst stored. by destruct (mismatch _); [|intros [= <- <- <-]].
  - rewrite Ha. discriminate.
Qed.

(** Only the service itself answers OK. *)
Lemma justified_ok w O m md rq st (reply : response_of m) :
  justified (W:=W) w O m md rq st reply → st = Status_OK →
  ∃ uid evs, Forall (λ e, O e.1 ∧ O e.2) evs ∧ answered m uid evs rq reply.
Proof. by intros [w' msg _ _ _|msg|uid evs rp _ _ Hevs Hans] Hst; [..|exists uid, evs]. Qed.

(** C3: no code is accepted that the server did not send.  However the worker
    threads, gRPC, the shutdown and the single calls of all coroutines interleave,
    and whatever the rest of the system does to the store, as long as it loses no
    account and adds no code: every login by code and every registration that was
    answered with anything but a mismatch or an exception read the very code it
    gave, stored for its own number and purpose and not expired, at one moment of
    the run; and unless that code was stored before the server started, an
    accepted call of SendCode for this number and this purpose had generated and
    stored it, less than 300 seconds before it was read. *)
Theorem accepted_codes_were_sent (c : AppConfig) (w : W) (s : @rpc rpc_method request_of response_of W)
    (m : rpc_method) (r : @reply_sent (response_of m)) (Hw : store_ok w)
    (Hrun : rtc code_step (UserServiceServer_started c w) s) (Hr : r ∈ replies (mgr s m)) (Hstatus : re_status r = Status_OK) :
  ∃ k md rq, re_call r = Some k ∧ calls (mgr s m) !! k = Some (md, rq)
    ∧ ∀ u t cd, code_given m rq (re_reply r) = Some (u, t, cd) →
      ∃ w1 w2 now deadline, passed c w s w1 ∧ passed c w s w2 ∧ code_entry w1 u t = Some (cd, deadline)
        ∧ code_clock w1 ≤ now ≤ code_clock w2 ∧ unexpired now deadline
        ∧ (code_entry w u t = Some (cd, deadline)
           ∨ ∃ since, sent_by_call c w s u t cd since ∧ deadline = Some (since + 300) ∧ since ≤ now < since + 300).
Proof.
  pose proof (s_view _ _ _ _ _ (code_sim c w Hw s Hrun) m) as Hview.
  pose proof (methods_considerate w Hw m) as Hcons.
  pose proof (replies_answered _ _ _ _ _ Hview) as Hall. rewrite Forall_forall in Hall.
  destruct (Hall r Hr) as (_ & k & md & rq & Hc & Hacc & Hans). exists k, md, rq. split; [done|]. split; [done|].
  intros u t cd Hgiven. apply answer_justified in Hans.
  destruct (justified_ok _ _ _ _ _ _ _ Hans Hstatus) as (uid & evs & Hevs & Hans').
  destruct (answered_code _ _ _ _ _ _ _ _ Hans' Hgiven) as (evs1 & evs2 & evs3 & -> & Hg).
  destruct (co_GetCode_entry _ _ _ _ Hg) as (e & now & deadline & He & Hentry & Hnow & Hlive).
  rewrite Forall_forall in Hevs. destruct (Hevs e) as [Hr1 Hr2]; [rewrite !elem_of_app; auto|].
  exists e.1, e.2, now, deadline. do 5 (split; [done|]). pose proof Hr1 as (s1 & Hrun1 & Hrun2 & Ew1). rewrite <- Ew1 in Hentry.
  destruct (reachable_codes_sent c w Hw s1 Hrun1 _ _ _ Hentry) as [?|(since & Hsent & Hd & Hle)]; [by left|]. right.
  simpl in *. subst deadline. exists since. rewrite Ew1 in Hle. simpl in Hlive. split; [by eapply run_sent|split; [done|lia]].
Qed.
End properties.

(** ** Witness

    One CallData per method.  SendCode and LoginByCode for Alice's number take
    turns on the asio threads; two hundred seconds pass between the moment the code
    is stored and the moment it is read. *)
#[local] Existing Instances SecurityUtil.toy_crypto SecurityUtil.toy_crypto_laws toy_jwt.
#[local] Instance served_ids : IIDGenerator demo_world := stack_ids SecurityUtil.hex.
#[local] Instance served_jwt : IJwtUtil demo_world := stack_jwt example_jwt.
#[local] Instance served_laws : ServiceLaws demo_world := stack_service_laws SecurityUtil.hex example_jwt.
#[local] Instance served_co_laws : CoServiceLaws demo_world := stack_co_laws SecurityUtil.hex example_jwt.
#[local] Instance served_code_laws : CodeStoreLaws demo_world := stack_code_laws SecurityUtil.hex example_jwt.

Definition code_asked : list service_happening :=
  [ CallArrives RpcSendCode 0 [] (proto.mkSendCodeRequest "13800000000" 2);
    NextGives 0 (RpcSendCode, 0%nat) true; WorkerGoes 0; WorkerGoes 0; AsioGoes 0; AsioGoes 0; AsioGoes 0;
    CallArrives RpcLoginByCode 0 [] (proto.mkLoginByCodeRequest "13800000000" "567890");
    NextGives 1 (RpcLoginByCode, 0%nat) true; WorkerGoes 1; WorkerGoes 1;
    AsioGoes 0; AsioGoes 0; AsioGoes 0; AsioGoes 0 ].
Definition code_stored : service_rpc := service_after code_asked service_start.
Definition code_aged : service_rpc := service_after [WorldChanges (time_passed 1200 (the_world code_stored))] code_stored.
Definition code_accepted : service_rpc := service_after (replicate 10 (AsioGoes 0)) code_aged.

Lemma plays_code_steps hs s :
  plays hs s = true → forallb keeps_world hs = true → rtc code_step s (service_after hs s).
Proof.
  unfold plays, service_after. intros Hp Hk. destruct (RpcServer.happen_all hs s) as [s'|] eqn:E; [|done]. clear Hp.
  simpl. revert s E Hk. induction hs as [|h hs IH]; intros s; simpl; [by intros [= ->]|].
  intros (s1 & Hs1 & Hs')%bind_Some [Hk Hks]%andb_true_iff. eapply rtc_l; [|by apply IH].
  exists h. split; [done|]. by intros w ->.
Qed.

Lemma time_passed_forgets t (w : demo_world) : forgets (lget repo_lens w) (lget repo_lens (time_passed t w)).
Proof. done. Qed.

Lemma world_code_step (s : service_rpc) w :
  crashed s = false → evolves (the_world s) w → forgets_codes (the_world s) w →
  code_step s (service_after [WorldChanges w] s).
Proof.
  intros Hc He Hf. exists (WorldChanges w). unfold service_after, RpcServer.happen_all, RpcServer.happen. rewrite Hc.
  split; [done|]. by intros w' [= <-].
Qed.

Lemma code_accepted_run : rtc code_step service_start code_accepted.
Proof.
  trans code_stored; [apply plays_code_steps; vm_compute; reflexivity|].
  eapply rtc_l; [|apply plays_code_steps; vm_compute; reflexivity]. apply world_code_step; [vm_compute; reflexivity|..].
  - apply (evolves_zoom repo_lens). apply forgets_evolves; [|apply time_passed_forgets].
    assert (rtc server_step service_start code_stored) as Hrun by (apply plays_steps; vm_compute; reflexivity).
    destruct (server_world small_config demo code_stored demo_ok Hrun) as (_ & Hok & _). exact Hok.
  - apply spares_forgets. split; [vm_compute; discriminate|done].
Qed.

Definition code_reply : @reply_sent proto.LoginResponse :=
  default (mkSent None ResponderUsed Status_OK ResponseType_new) (head (replies (mgr code_accepted RpcLoginByCode))).

Lemma accepted_codes_were_sent_witness :
  code_given RpcLoginByCode (proto.mkLoginByCodeRequest "13800000000" "567890") (re_reply code_reply)
    = Some (USER_LOGIN, "13800000000", "567890")
  ∧ ∃ k md rq, re_call code_reply = Some k ∧ calls (mgr code_accepted RpcLoginByCode) !! k = Some (md, rq)
    ∧ ∀ u t cd, code_given RpcLoginByCode rq (re_reply code_reply) = Some (u, t, cd) →
      ∃ w1 w2 now deadline, passed small_config demo code_accepted w1 ∧ passed small_config demo code_accepted w2
        ∧ code_entry w1 u t = Some (cd, deadline) ∧ code_clock w1 ≤ now ≤ code_clock w2 ∧ unexpired now deadline
        ∧ (code_entry demo u t = Some (cd, deadline)
           ∨ ∃ since, sent_by_call small_config demo code_accepted u t cd since
               ∧ deadline = Some (since + 300) ∧ since ≤ now < since + 300).
Proof.
  split; [vm_compute; reflexivity|].
  apply (accepted_codes_were_sent small_config demo code_accepted RpcLoginByCode code_reply).
  - exact demo_ok.
  - exact code_accepted_run.
  - assert (replies (mgr code_accepted RpcLoginByCode) = [code_reply]) as -> by (vm_compute; reflexivity).
    apply list_elem_of_here.
  - vm_compute. reflexivity.
Defined.
