(* ===== verification/Lifecycle.v ===== *)
(** * Lifecycle: starting and stopping the process

    [AsioThreadPool] (infrastructure/asio_thread_pool), the start and the
    shutdown of [UserServiceServer] (server/user_service_server.cc), and
    [Application] (server/application.cc) with main.cc: what is started, in
    which order it is torn down, and on which paths. *)

From stdpp Require Import base tactics option strings numbers list.
From S2P Require Import Prelude Text Interfaces Registry AppConfig CallData Handlers.

Open Scope string_scope.
Open Scope Z_scope.
Open Scope photon_scope.

(** ** State

    A [std::thread] is its [joinable()]: destroying one that is joinable ends
    the program.  [server_] and [cq_] are null or there, and shut down or not. *)
Abbreviation thread := bool.

Record AsioThreadPool := mkThreadPool { work_guard_ : bool; asio_threads_ : list thread }.

(** The sizes of the five pools of CallData SeedCallData started. *)
Record managers := mkManagers {
  register_manager_ : Z; send_code_manager_ : Z; login_pw_manager_ : Z; login_code_manager_ : Z;
  get_user_info_manager_ : Z
}.

Record UserServiceServer := mkServerState {
  cq_ : option bool;
  server_ : option bool;
  managers_ : option managers;
  worker_threads_ : list thread;
  server_cfg_ : ServerConfig;
  rpc_limits_ : RpcLimitsConfig
}.

(** What happened, in order. *)
Inductive event :=
| RpcServerStarted (address : string) | RpcServerShutdown | QueueShutdown | QueueDrained | WorkerJoined
| WorkGuardReset | IoContextStopped | AsioThreadJoined.

(** What the environment decides: [hardware_concurrency()], whether gRPC can start
    the server, whether [Wait] ever returns (nothing in the program shuts the
    server down but the destructor, so another party must), and whether the
    worker threads all leave HandleRpc once the queue is shut down (RpcServer
    says when that is possible). *)
Record circumstances := mkCircumstances {
  hw_conc : Z; started : bool; wait_returns : bool; workers_leave : bool
}.

(** A call on the null server: undefined behaviour, no handler or destructor runs. *)
Definition null_server : exn := Exn non_std_exception "undefined behaviour".

Section process.
Context {W : Type}.

(** The process: the io_context is stopped or not; [infra] is the world the
    components live in. *)
Record process := mkProcess {
  thread_pool_ : AsioThreadPool;
  the_server : UserServiceServer;
  ioc_stopped : bool;
  infra : W;
  log : list event
}.

Definition with_pool (p : AsioThreadPool) (x : process) : process :=
  mkProcess p (the_server x) (ioc_stopped x) (infra x) (log x).
Definition with_server (s : UserServiceServer) (x : process) : process :=
  mkProcess (thread_pool_ x) s (ioc_stopped x) (infra x) (log x).
Definition with_ioc (b : bool) (x : process) : process :=
  mkProcess (thread_pool_ x) (the_server x) b (infra x) (log x).
Definition happened (e : event) (x : process) : process :=
  mkProcess (thread_pool_ x) (the_server x) (ioc_stopped x) (infra x) (log x ++ [e])%list.

(** ** AsioThreadPool *)

(** [hardware_concurrency()] is unsigned; 0 means unknown. *)
Definition thread_count (hw_conc : Z) : Z := if hw_conc =? 0 then 2 else hw_conc.

Definition AsioThreadPool_Run (hw_conc : Z) (x : process) : process :=
  if work_guard_ (thread_pool_ x) then x
  else with_pool (mkThreadPool true
         (asio_threads_ (thread_pool_ x) ++ replicate (Z.to_nat (thread_count hw_conc)) true)%list) x.

(** [for (auto& t : threads) if (t.joinable()) t.join();] *)
Definition join_all (e : event) (ts : list thread) (x : process) : process :=
  foldl (λ x t, if t : bool then happened e x else x) x ts.

Definition AsioThreadPool_Stop (x : process) : process :=
  if negb (work_guard_ (thread_pool_ x)) then x
  else
    let x := happened WorkGuardReset (with_pool (mkThreadPool false (asio_threads_ (thread_pool_ x))) x) in
    let x := if negb (ioc_stopped x) then happened IoContextStopped (with_ioc true x) else x in
    let x := join_all AsioThreadJoined (asio_threads_ (thread_pool_ x)) x in
    with_pool (mkThreadPool (work_guard_ (thread_pool_ x)) []) x.

(** ** UserServiceServer *)

Definition server_address (c : ServerConfig) : string := bind_ip c +:+ ":" +:+ to_string (port c).

(** [BuildAndStart] gives a server, or null when it could not start
    ([started]); the result is not checked here. *)
Definition StartServer (env : circumstances) (x : process) : process :=
  let s := the_server x in
  let x := with_server (mkServerState (Some false) (if started env then Some false else None) (managers_ s)
                          (worker_threads_ s) (server_cfg_ s) (rpc_limits_ s)) x in
  if started env then happened (RpcServerStarted (server_address (server_cfg_ s))) x else x.

(** The five managers: each constructor checks its pointers, then Start
    registers that many CallData. *)
Definition SeedCallData (x : process) : outcome process :=
  let s := the_server x in let l := rpc_limits_ s in
  let make := CallDataManager_make (Some ()) (Some ()) (Some ()) (cq_ s) in
  let+ _ := make in let+ _ := make in let+ _ := make in let+ _ := make in let+ _ := make in
  Ret (with_server (mkServerState (cq_ s) (server_ s)
         (Some (mkManagers (register_num l) (send_code_num l) (login_pw_num l) (login_code_num l) (get_user_info_num l)))
         (worker_threads_ s) (server_cfg_ s) (rpc_limits_ s)) x).

(** [reserve] of a negative count fails; the loop adds the threads. *)
Definition StartListeningThread (x : process) : outcome process :=
  let s := the_server x in let n := worker_threads (server_cfg_ s) in
  if n <? 0 then Throw (Exn length_error "vector::reserve")
  else Ret (with_server (mkServerState (cq_ s) (server_ s) (managers_ s)
                           (worker_threads_ s ++ replicate (Z.to_nat n) true)%list (server_cfg_ s) (rpc_limits_ s)) x).

(** Run ends with [server_->Wait()], which returns once the server is shut down;
    on a null server that call is undefined behaviour. *)
Definition Server_Run (env : circumstances) : M process () := fun x =>
  let x := StartServer env x in
  match SeedCallData x with
  | Ret x =>
      match StartListeningThread x with
      | Ret x => match server_ (the_server x) with
                 | Some _ => (if wait_returns env then Ret () else Pending, x)
                 | None => (Throw null_server, x)
                 end
      | Throw e => (Throw e, x)
      | Pending => (Pending, x)
      end
  | Throw e => (Throw e, x)
  | Pending => (Pending, x)
  end.

(** Shutdown: its joins return when the workers leave. *)
Definition Server_Shutdown (env : circumstances) : M process () := fun x =>
  let s := the_server x in
  let x := match server_ s with
           | Some _ => happened RpcServerShutdown (with_server (mkServerState (cq_ s) (Some true) (managers_ s)
                         (worker_threads_ s) (server_cfg_ s) (rpc_limits_ s)) x)
           | None => x
           end in
  let s := the_server x in
  let x := match cq_ s with
           | Some _ => happened QueueShutdown (with_server (mkServerState (Some true) (server_ s) (managers_ s)
                         (worker_threads_ s) (server_cfg_ s) (rpc_limits_ s)) x)
           | None => x
           end in
  let s := the_server x in
  match worker_threads_ s with
  | _ :: _ =>
      if workers_leave env then
        let x := join_all WorkerJoined (worker_threads_ s) x in
        (Ret (), with_server (mkServerState (cq_ s) (server_ s) (managers_ s) [] (server_cfg_ s) (rpc_limits_ s)) x)
      else (Pending, x)
  | [] => (Ret (), match cq_ s with Some _ => happened QueueDrained x | None => x end)
  end.

(** ** Application *)

Context (redis_Init db_Init : M W ()).

Definition infra_lens : lens process W :=
  Lens infra (λ w x, mkProcess (thread_pool_ x) (the_server x) (ioc_stopped x) w (log x)).

(** Run: the threads, then Redis and the pool one after the other, waited for,
    then the server. *)
Definition Application_Run (env : circumstances) : M process () :=
  do* modifyM (AsioThreadPool_Run (hw_conc env)) in
  do* zoomM infra_lens redis_Init in
  do* zoomM infra_lens db_Init in
  Server_Run env.

(** The destructor: the server first, then the threads; the member destructor of
    the thread pool stops it once more. *)
Definition Application_destroy (env : circumstances) : M process () :=
  do* Server_Shutdown env in
  do* modifyM AsioThreadPool_Stop in
  modifyM AsioThreadPool_Stop.

(** The constructors of AsioThreadPool and UserServiceServer: nothing runs yet. *)
Definition AsioThreadPool_make : AsioThreadPool := mkThreadPool false [].
Definition UserServiceServer_make (server_config : ServerConfig) (rpc_limits : RpcLimitsConfig) : UserServiceServer :=
  mkServerState None None None [] server_config rpc_limits.

(** The application as its constructor leaves it. *)
Definition Application_make (c : AppConfig) (w : W) : process :=
  mkProcess AsioThreadPool_make (UserServiceServer_make (server_config_ c) (rpc_limits_config_ c)) false w [].

(** main: run, and destroy on the way out whether or not Run threw. *)
Definition main_run (env : circumstances) : M process Z := fun x =>
  match Application_Run env x with
  | (Ret _, x) => (do* Application_destroy env in retM 0) x
  | (Throw e, x) =>
      if bool_decide (e = null_server) then (Throw e, x) else (do* Application_destroy env in retM (-1)) x
  | (Pending, x) => (Pending, x)
  end.
End process.

(** ** Lemmas *)
Section lemmas.
Context {W : Type}.
Implicit Types x : @process W.

Lemma join_all_eq e n x :
  join_all e (replicate n true) x
  = mkProcess (thread_pool_ x) (the_server x) (ioc_stopped x) (infra x) (log x ++ replicate n e)%list.
Proof.
  unfold join_all. revert x. induction n as [|n IH]; intros x; simpl.
  - rewrite app_nil_r. by destruct x.
  - rewrite IH. simpl. by rewrite <- (assoc_L (++)%list).
Qed.

(** Stopping a running pool of [n] joinable threads on a live io_context. *)
Definition teardown (n : nat) : list event := (WorkGuardReset :: IoContextStopped :: replicate n AsioThreadJoined)%list.

Lemma Stop_running n s w l :
  AsioThreadPool_Stop (mkProcess (W:=W) (mkThreadPool true (replicate n true)) s false w l)
  = mkProcess (mkThreadPool false []) s true w (l ++ teardown n)%list.
Proof.
  unfold AsioThreadPool_Stop. simpl. rewrite join_all_eq. unfold with_pool. simpl.
  by rewrite <- !(assoc_L (++)%list).
Qed.

Lemma Stop_stopped ts s b w l :
  AsioThreadPool_Stop (mkProcess (W:=W) (mkThreadPool false ts) s b w l) = mkProcess (mkThreadPool false ts) s b w l.
Proof. done. Qed.

(** Run is idempotent: a second Run on running threads changes nothing. *)
Lemma AsioThreadPool_Run_idempotent hw x :
  AsioThreadPool_Run hw (AsioThreadPool_Run hw x) = AsioThreadPool_Run hw x.
Proof. unfold AsioThreadPool_Run at 2 3. by destruct (work_guard_ (thread_pool_ x)) eqn:E; simpl; unfold AsioThreadPool_Run; rewrite ?E. Qed.
End lemmas.

Section lemmas2.
Context {W : Type} (redis_Init db_Init : M W ()).
Implicit Types x : @process W.

(** The server of a configuration once Run has started it. *)
Definition running_server (c : AppConfig) : UserServiceServer :=
  let l := rpc_limits_config_ c in
  mkServerState (Some false) (Some false)
    (Some (mkManagers (register_num l) (send_code_num l) (login_pw_num l) (login_code_num l) (get_user_info_num l)))
    (replicate (Z.to_nat (worker_threads (server_config_ c))) true) (server_config_ c) l.

Definition fresh_server (c : AppConfig) : UserServiceServer :=
  UserServiceServer_make (server_config_ c) (rpc_limits_config_ c).

Definition ready (c : AppConfig) (hw : Z) (w : W) : process :=
  mkProcess (mkThreadPool true (replicate (Z.to_nat (thread_count hw)) true)) (fresh_server c) false w [].

(** Run: what the infrastructure's initialisation decides. *)
Lemma Application_Run_eq env c w :
  Application_Run redis_Init db_Init env (Application_make c w)
  = match redis_Init w with
    | (Ret _, w1) =>
        match db_Init w1 with
        | (Ret _, w2) => Server_Run env (ready c (hw_conc env) w2)
        | (Throw e, w2) => (Throw e, ready c (hw_conc env) w2)
        | (Pending, w2) => (Pending, ready c (hw_conc env) w2)
        end
    | (Throw e, w1) => (Throw e, ready c (hw_conc env) w1)
    | (Pending, w1) => (Pending, ready c (hw_conc env) w1)
    end.
Proof.
  unfold Application_Run, bindM, zoomM, modifyM, infra_lens. simpl.
  destruct (redis_Init w) as [[[]|e|] w1]; simpl; [|done..].
  by destruct (db_Init w1) as [[[]|e|] w2].
Qed.

Lemma destroy_ready env c hw (w : W) :
  Application_destroy env (ready c hw w)
  = (Ret (), mkProcess (mkThreadPool false []) (fresh_server c) true w (teardown (Z.to_nat (thread_count hw)))).
Proof. unfold Application_destroy, ready, Server_Shutdown, bindM, modifyM. simpl. by rewrite Stop_running. Qed.

Definition stopped_server (c : AppConfig) : UserServiceServer :=
  let s := running_server c in
  mkServerState (Some true) (Some true) (managers_ s) [] (server_config_ c) (rpc_limits_config_ c).

Lemma destroy_running env c hw (w : W) :
  1 ≤ worker_threads (server_config_ c) → workers_leave env = true →
  Application_destroy env (mkProcess (mkThreadPool true (replicate (Z.to_nat (thread_count hw)) true))
     (running_server c) false w [RpcServerStarted (server_address (server_config_ c))])
  = (Ret (), mkProcess (mkThreadPool false []) (stopped_server c) true w
      ([RpcServerStarted (server_address (server_config_ c)); RpcServerShutdown; QueueShutdown]
       ++ replicate (Z.to_nat (worker_threads (server_config_ c))) WorkerJoined
       ++ teardown (Z.to_nat (thread_count hw)))%list).
Proof.
  intros Hn Hl. unfold Application_destroy, Server_Shutdown, running_server, bindM, modifyM. simpl.
  destruct (Z.to_nat (worker_threads (server_config_ c))) as [|k] eqn:Ek; [lia|]. cbn [replicate].
  rewrite Hl. change (true :: replicate k true)%list with (replicate (S k) true). rewrite join_all_eq. unfold with_server.
  simpl. by rewrite Stop_running.
Qed.
End lemmas2.

(** ** Properties *)
Section properties.
Context {W : Type} (redis_Init db_Init : M W ()).

(** Workers that do not leave keep the destructor waiting. *)
Lemma destroy_waits env c hw (w : W) l :
  1 ≤ worker_threads (server_config_ c) → workers_leave env = false →
  (Application_destroy env (mkProcess (mkThreadPool true (replicate (Z.to_nat (thread_count hw)) true))
     (running_server c) false w l)).1 = Pending.
Proof.
  intros Hn Hl. unfold Application_destroy, Server_Shutdown, running_server, bindM. simpl.
  destruct (Z.to_nat (worker_threads (server_config_ c))) as [|k] eqn:Ek; [lia|]. simpl. by rewrite Hl.
Qed.

(** What main can wait for. *)
Lemma main_run_waits c env (w : W) x :
  1 ≤ worker_threads (server_config_ c) →
  main_run redis_Init db_Init env (Application_make c w) = (Pending, x) →
  (redis_Init w).1 = Pending ∨ (db_Init (redis_Init w).2).1 = Pending
  ∨ started env = true ∧ (wait_returns env = false ∨ workers_leave env = false).
Proof.
  intros Hw Hrun. unfold main_run in Hrun. rewrite Application_Run_eq in Hrun.
  assert (∀ e (w' : W), (if bool_decide (e = null_server) then (Throw e, ready c (hw_conc env) w')
     else (do* Application_destroy env in retM (-1)) (ready c (hw_conc env) w')).1 = Pending → False) as Hfails.
  { intros e w'. case_bool_decide; [done|]. unfold bindM. by rewrite destroy_ready. }
  destruct (redis_Init w) as [[[]|e|] w1]; [right|edestruct Hfails; by rewrite Hrun|by left].
  simpl. destruct (db_Init w1) as [[[]|e|] w2]; [right|edestruct Hfails; by rewrite Hrun|by left].
  unfold Server_Run, StartListeningThread, StartServer in Hrun.
  destruct (started env); simpl in Hrun; (rewrite (proj2 (Z.ltb_ge _ _)) in Hrun by lia); simpl in Hrun; [|done].
  split; [done|]. destruct (wait_returns env); [right|by left].
  destruct (workers_leave env) eqn:El; [|done]. exfalso. unfold bindM in Hrun at 1.
  pose proof (destroy_running env c (hw_conc env) w2 Hw El) as Hd.
  unfold running_server in Hd. simpl in Hd. unfold with_server, happened in Hrun. simpl in Hrun. by rewrite Hd in Hrun.
Qed.

(** The process starts and stops in order and leaves no thread behind.  For a
    configuration with at least one worker thread, whatever the initialisation of
    Redis and of the database does: when it fails, no server is ever started,
    the exit code is -1 and the asio threads are stopped and joined; when it
    succeeds and gRPC starts, main only ends if somebody else shuts the server
    down and the workers leave their loop, and then it returns 0 after the RPC
    server, then its queue, were shut down, every worker joined, and only then
    the io_context stopped and every asio thread joined; in both cases no
    joinable thread is left for a destructor and the second stop of the pool does
    nothing.  When gRPC cannot start, Run goes on to call the null server. *)
Theorem main_starts_and_stops (c : AppConfig) (env : circumstances) (w : W) (o : outcome Z) (x : process)
    (Hworkers : 1 ≤ worker_threads (server_config_ c))
    (Hrun : main_run redis_Init db_Init env (Application_make c w) = (o, x)) (Hfin : o ≠ Pending)
    (Hinit : ∀ e, (redis_Init w).1 = Throw e ∨ (db_Init (redis_Init w).2).1 = Throw e → e ≠ null_server) :
  let n := Z.to_nat (thread_count (hw_conc env)) in
  let k := Z.to_nat (worker_threads (server_config_ c)) in
  let clear := thread_pool_ x = mkThreadPool false [] ∧ worker_threads_ (the_server x) = [] ∧ ioc_stopped x = true in
  let address := server_address (server_config_ c) in
  ((∃ w', (redis_Init w).1 = Ret () ∧ db_Init (redis_Init w).2 = (Ret (), w') ∧ infra x = w')
   ∧ (if started env
      then wait_returns env = true ∧ workers_leave env = true ∧ o = Ret 0 ∧ clear
           ∧ log x = ([RpcServerStarted address; RpcServerShutdown; QueueShutdown]
                      ++ replicate k WorkerJoined ++ teardown n)%list
           ∧ managers_ (the_server x) = managers_ (running_server c)
      else o = Throw null_server))
  ∨ (o = Ret (-1) ∧ clear ∧ log x = teardown n ∧ server_ (the_server x) = None).
Proof.
  intros n k clear address. unfold main_run in Hrun. rewrite Application_Run_eq in Hrun.
  destruct (redis_Init w) as [[[]|e|] w1] eqn:E1; [|right|by injection Hrun as <- <-].
  - destruct (db_Init w1) as [[[]|e|] w2] eqn:E2; [left|right|by injection Hrun as <- <-].
    + assert (∀ P : Prop, infra x = w2 ∧ P →
        (∃ w', (Ret () : outcome ()) = Ret () ∧ db_Init w1 = (Ret (), w') ∧ infra x = w') ∧ P) as Hinfra.
      { intros P [Hx HP]. split; [by exists w2|done]. }
      apply Hinfra. clear Hinfra. unfold Server_Run, StartListeningThread, StartServer in Hrun.
      destruct (started env); simpl in Hrun; (rewrite (proj2 (Z.ltb_ge _ _)) in Hrun by lia); simpl in Hrun;
        [|by injection Hrun as <- <-].
      destruct (wait_returns env); [|by injection Hrun as <- <-].
      destruct (workers_leave env) eqn:El.
      * unfold bindM in Hrun at 1. pose proof (destroy_running env c (hw_conc env) w2 Hworkers El) as Hd.
        unfold running_server in Hd. simpl in Hd. unfold with_server, happened in Hrun. simpl in Hrun.
        rewrite Hd in Hrun. injection Hrun as <- <-. unfold clear. by split_and!.
      * exfalso. apply Hfin. unfold bindM in Hrun at 1. unfold with_server, happened in Hrun. simpl in Hrun.
        pose proof (destroy_waits env c (hw_conc env) w2 [RpcServerStarted (server_address (server_config_ c))] Hworkers El) as Hd.
        unfold running_server in Hd. simpl in Hd. destruct (Application_destroy env _) as [o1 x1]. simpl in Hd. subst o1.
        by injection Hrun.
    + rewrite bool_decide_eq_false_2 in Hrun by (apply Hinit; right; simpl; by rewrite E2).
      unfold bindM in Hrun. rewrite destroy_ready in Hrun. injection Hrun as <- <-. unfold clear. by split_and!.
  - rewrite bool_decide_eq_false_2 in Hrun by (apply Hinit; by left).
    unfold bindM in Hrun. rewrite destroy_ready in Hrun. injection Hrun as <- <-. unfold clear. by split_and!.
Qed.
End properties.

(** ** The shipped configuration *)
Definition demo_env : circumstances := mkCircumstances 4 true true true.
Definition demo_exit : outcome Z * process :=
  main_run (retM () : M nat ()) (retM ()) demo_env (Application_make shipped_config 0%nat).

Lemma main_starts_and_stops_witness :
  let x := demo_exit.2 in
  let clear := thread_pool_ x = mkThreadPool false [] ∧ worker_threads_ (the_server x) = [] ∧ ioc_stopped x = true in
  ((∃ w', Ret () = Ret () ∧ (Ret (), 0%nat) = (Ret (), w') ∧ infra x = w')
   ∧ (true = true ∧ true = true ∧ Ret 0 = Ret 0 ∧ clear
      ∧ log x = ([RpcServerStarted (server_address (server_config_ shipped_config)); RpcServerShutdown; QueueShutdown]
                 ++ replicate 8 WorkerJoined ++ teardown 4)%list
      ∧ managers_ (the_server x) = managers_ (running_server shipped_config)))
  ∨ (Ret 0 = Ret (-1) ∧ clear ∧ log x = teardown 4 ∧ server_ (the_server x) = None).
Proof.
  apply (main_starts_and_stops (retM () : M nat ()) (retM ()) shipped_config demo_env 0%nat (Ret 0) demo_exit.2).
  - simpl. lia.
  - exact (run_eq (main_run (retM ()) (retM ()) demo_env) (Application_make shipped_config 0%nat) (Ret 0) eq_refl).
  - discriminate.
  - by intros e [|].
Defined.
