(* ===== verification/Application.v ===== *)
(** * Application: the process from its configuration file

    [Application] (server/application.cc) as main.cc runs it: the constructor
    builds the Redis client, the connection pool, the services and the server
    from the file, Run connects the first two, and what Lifecycle says of the
    rest of the life of the process applies. *)

From stdpp Require Import base tactics option strings numbers list.
From S2P Require Import Prelude Text LibPQ PgServer PqConnection Channel ConnectionPool RedisLib RedisClient JwtUtil.
From S2P Require Import Registry AppConfig AuthService CallData Handlers RpcServer Service Lifecycle.

Open Scope string_scope.
Open Scope Z_scope.
Open Scope photon_scope.

Section application.
Context `{RedisLaws} `{LibPQLaws} `{YamlLaws} `{ChannelLaws PQConnection}.

(** ** State: the members [redis_client_] and [db_pool_] of Application, with the
    servers they talk to *)
Record infrastructure := mkInfrastructure {
  redis_client_ : redis_env;
  pg : pg_world;
  db_pool_ : @AsyncConnectionPool PQConnection _
}.

Definition redis_client_field : lens infrastructure redis_env :=
  Lens redis_client_ (λ r w, mkInfrastructure r (pg w) (db_pool_ w)).
Definition pg_field : lens infrastructure pg_world :=
  Lens pg (λ g w, mkInfrastructure (redis_client_ w) g (db_pool_ w)).

(** ** Operations *)

(** The constructor: the file, then in this order the client, the pool, the
    threads and the server with what is injected into it, of which only
    AuthService checks its arguments. *)
Definition Application_new (junk : Z) (env : circumstances) (config_filepath : string)
    (redis_server : redis_world) (pg_server : pg_world) : outcome (process (W:=infrastructure)) :=
  let+ app_config := AppConfig_make junk (hw_conc env) config_filepath in
  let+ redis_client := RedisClient_make (redis_config_ app_config) in
  let+ db_pool := AsyncConnectionPool_make (conn_str (db_pool_config_ app_config)) (pool_size (db_pool_config_ app_config)) in
  let+ _ := AuthService_make (Some (JwtUtil_make (jwt_config_ app_config))) in
  Ret (Application_make app_config (mkInfrastructure (mkRedisEnv redis_client redis_server) pg_server db_pool)).

(** [redis_client_->Init()]. *)
Definition redis_Init : M infrastructure () := zoomM redis_client_field RedisClient.Init.

(** [db_pool_->Init()]; [fuel] is that of each AsyncConnect.  A pool whose Init
    throws is only destroyed. *)
Definition db_Init (fuel : nat) : M infrastructure () :=
  let* w := getM in
  let* db_pool := zoomM pg_field (ConnectionPool.Init (AsyncConnect fuel) (db_pool_ w)) in
  modifyM (λ w, mkInfrastructure (redis_client_ w) (pg w) db_pool).

(** main: both catch clauses return -1; without an object there is nothing to
    destroy.  The process is that of the end, if one was built. *)
Definition main (env : circumstances) (fuel : nat) (junk : Z) (config_filepath : string)
    (redis_server : redis_world) (pg_server : pg_world) : outcome Z * option process :=
  match Application_new junk env config_filepath redis_server pg_server with
  | Ret app => let '(o, app) := main_run redis_Init (db_Init fuel) env app in (o, Some app)
  | Throw e => (Ret (-1), None)
  | Pending => (Pending, None)
  end.

(** ** Lemmas *)

Definition connected (x : PQConnection) : Prop := ∃ c, conn_ x = Some c ∧ is_Some (socket_ x).

(** Opening connections one after the other finishes, however many: each comes
    back connected, or a runtime_error says why not. *)
Lemma open_connections_total conn_str n (g : pg_world) :
  ∃ enough, ∀ fuel, (enough ≤ fuel)%nat →
    ∃ o g', open_connections (AsyncConnect fuel) conn_str n g = (o, g')
      ∧ match o with
        | Ret xs => Forall connected xs
        | Throw e => exn_cls e = runtime_error
        | Pending => False
        end.
Proof.
  revert g. induction n as [|n IH]; intros g; simpl; [exists O; intros fuel _; by exists (Ret []), g|].
  destruct (AsyncConnect_total conn_str g) as [enough1 Ha].
  destruct (Ha enough1 (Nat.le_refl _)) as (o & g1 & E1 & Ho).
  assert (∀ fuel, (enough1 ≤ fuel)%nat → AsyncConnect fuel conn_str g = (o, g1)) as Hmono.
  { intros fuel Hf. eapply (AsyncConnect_mono conn_str enough1); [done..|by destruct o]. }
  destruct o as [x|e|]; [|exists enough1; intros fuel Hf; unfold bindM; rewrite Hmono by done; by exists (Throw e), g1|done].
  destruct (IH g1) as [enough2 Hrest]. exists (enough1 + enough2)%nat. intros fuel Hf. unfold bindM.
  rewrite Hmono by lia. destruct (Hrest fuel) as (o & g2 & E2 & Ho2); [lia|]. rewrite E2.
  destruct o as [xs|e|]; [|by exists (Throw e), g2|done]. do 2 eexists. split; [done|]. constructor; [|done].
  destruct Ho as (c & Hc & Hs & _). by exists c.
Qed.

(** Init of a pool that the constructor made. *)
Definition pool_opened (p : @AsyncConnectionPool PQConnection _) (size : Z) : Prop :=
  ∃ conns, Z.of_nat (length conns) = size ∧ Forall connected conns ∧ initial conns (mkSystem p []).

Lemma db_Init_total cs size p (w : infrastructure) :
  AsyncConnectionPool_make cs size = Ret p → db_pool_ w = p →
  ∃ enough, ∀ fuel, (enough ≤ fuel)%nat → ∃ o w', db_Init fuel w = (o, w')
    ∧ match o with
      | Ret _ => pool_opened (db_pool_ w') size ∧ redis_client_ w' = redis_client_ w
      | Throw e => exn_cls e = runtime_error
      | Pending => False
      end.
Proof.
  intros Hmake Hp. destruct (open_connections_total cs (Z.to_nat size) (pg w)) as [enough Hopen].
  exists enough. intros fuel Hf. destruct (Hopen fuel Hf) as (o & g' & E & Ho).
  unfold db_Init, getM, bindM, zoomM, modifyM. simpl. rewrite Hp.
  pose proof (ConnectionPool.Init_eq (AsyncConnect fuel) _ _ _ (pg w) Hmake) as Ei. rewrite E in Ei.
  destruct o as [xs|e|]; rewrite Ei; simpl; [|by eexists (Throw e), _|done].
  do 2 eexists. split; [done|]. split; [|done].
  destruct (Init_initial _ _ _ _ _ _ _ Hmake Ei) as (conns & E' & Hl & _ & Hi).
  rewrite E in E'. injection E' as ->. by exists conns.
Qed.

Lemma redis_Init_outcome (w : infrastructure) o w' :
  redis_Init w = (o, w') →
  pg w' = pg w ∧ db_pool_ w' = db_pool_ w ∧ client (redis_client_ w') = client (redis_client_ w)
  ∧ ∀ e, o = Throw e → exn_cls e = runtime_error.
Proof.
  unfold redis_Init, zoomM. simpl. destruct (RedisClient.Init (redis_client_ w)) as [o1 r] eqn:E.
  intros [= <- <-]. simpl. destruct (RedisClient_Init _ _ _ E) as (_ & -> & Ho). split_and!; [done..|].
  intros e ->. destruct Ho as [?|[?|(i & msg & _ & [= ->])]]; done.
Qed.

Lemma AppConfig_make_finishes junk hw path : AppConfig_make junk hw path ≠ Pending.
Proof.
  unfold AppConfig_make. destruct (load_well_behaved hw path (AppConfig_uninitialised junk)) as [Hp _].
  destruct (load _ _ _) as [c|e|]; [done| |done]. by destruct (is_class _ _).
Qed.

(** The constructor succeeds on every configuration that loads. *)
Lemma Application_new_eq junk env path rw gw :
  0 ≤ hw_conc env < 2 ^ 31 →
  match AppConfig_make junk (hw_conc env) path with
  | Ret cfg => ∃ c p, RedisClient_make (redis_config_ cfg) = Ret c
      ∧ AsyncConnectionPool_make (conn_str (db_pool_config_ cfg)) (pool_size (db_pool_config_ cfg)) = Ret p
      ∧ length (conns_ c) = Z.to_nat (redis_pool_size (redis_config_ cfg))
      ∧ Application_new junk env path rw gw = Ret (Application_make cfg (mkInfrastructure (mkRedisEnv c rw) gw p))
  | _ => ∃ e, Application_new junk env path rw gw = Throw e
  end.
Proof.
  intros Hhw. unfold Application_new. destruct (AppConfig_make junk (hw_conc env) path) as [cfg|e|] eqn:E.
  - destruct (loaded_config_fits _ _ _ _ Hhw E) as (Hp & Hc & _).
    destruct (Hp PQConnection _) as (p & Ep & _), (Hc _) as (c & Ec & _). exists c, p.
    split_and!; [done..| |simpl; rewrite Ec; simpl; by rewrite Ep].
    revert Ec. unfold RedisClient_make. destruct (_ <=? 0); [done|]. intros [= <-]. simpl. by rewrite length_fmap, length_seq.
  - by exists e.
  - by destruct (AppConfig_make_finishes _ _ _ E).
Qed.

Lemma outcome_pending {A} (o : outcome A) : o = Pending ∨ o ≠ Pending.
Proof. destruct o; auto. Qed.

(** ** What the process is at its end *)
Definition all_stopped (x : process (W:=infrastructure)) : Prop :=
  thread_pool_ x = mkThreadPool false [] ∧ Lifecycle.worker_threads_ (the_server x) = [] ∧ ioc_stopped x = true.

(** Everything a configuration asks for is up: the pool holds its connections,
    all connected, the client has its own, and every method has CallData. *)
Definition infrastructure_up (cfg : AppConfig) (x : process) : Prop :=
  pool_opened (db_pool_ (infra x)) (pool_size (db_pool_config_ cfg))
  ∧ length (conns_ (client (redis_client_ (infra x)))) = Z.to_nat (redis_pool_size (redis_config_ cfg))
  ∧ ∀ m, (1 ≤ initial_size (rpc_limits_config_ cfg) m)%nat.

(** Who main waits for when it does not end. *)
Definition main_waits (env : circumstances) (cfg : AppConfig) (rw : redis_world) : Prop :=
  (∃ c, RedisClient_make (redis_config_ cfg) = Ret c ∧ (RedisClient.Init (mkRedisEnv c rw)).1 = Pending)
  ∨ started env = true ∧ (wait_returns env = false ∨ workers_leave env = false).

End application.

(** ** The shipped configuration, a Redis and a database that answer *)
#[local] Existing Instances yaml_lib yaml_laws.
#[local] Instance example_pg : LibPQ := pg_server example_exec.
#[local] Instance example_pg_laws : LibPQLaws := pg_server_laws example_exec.

Definition demo_main (fuel : nat) : outcome Z * option (process (W:=infrastructure)) :=
  main demo_env fuel 77 "config/config.yaml" (mkRedisToy ∅ 1000 true) (example_world None).

(** A run to the end: four connections opened, four workers per the four cores. *)
Example demo_main_ends : (demo_main 9).1 = Ret 0
  ∧ (x ← (demo_main 9).2; Some (length (ConnectionPool.pool_ (db_pool_ (infra x))), length (log x))) = Some (4%nat, 13%nat).
Proof. split; vm_compute; reflexivity. Qed.

Example demo_main_bad_file :
  (main demo_env 9 77 "config/missing.yaml" (mkRedisToy ∅ 1000 true) (example_world None)).1 = Ret (-1).
Proof. vm_compute. reflexivity. Qed.

Definition demo_config : AppConfig :=
  mkAppConfig
    (mkServerConfig "0.0.0.0" 50051 2 4 (mkRegisterConfig "user-service" "172.31.30.185" 50051 ["v1"; "stable"] 10 2))
    (rpc_limits_config_ shipped_config) (consul_config_ shipped_config) (redis_config_ shipped_config)
    (db_pool_config_ shipped_config) (jwt_config_ shipped_config).

Lemma demo_config_loads : AppConfig_make 77 (hw_conc demo_env) "config/config.yaml" = Ret demo_config.
Proof. vm_compute. reflexivity. Qed.

